(* ===== verification/_CoqProject ===== *)
-Q . S2P
Prelude.v
Primitives.v
Block.v
Validators.v
Finality.v
Round.v
ViewChange.v
PoaConfig.v
Engine.v
Poa.v
WPoa.v
ForkChoice.v
Slashing.v
Window.v
RateLimiter.v
Provers.v
Fee.v
Rlp.v
RlpImpl.v
Transaction.v
TxCodec.v
TxHash.v
TxValidation.v
BTree.v
Mempool.v
MempoolInv.v
MempoolEvict.v
MempoolInsert.v
MempoolProps.v
MempoolSelect.v
KvStore.v
Overlay.v
OverlayView.v
OverlayProps.v
OverlayReplay.v
OverlayJournal.v
MetadataUndo.v
Keccak.v
KeccakProps.v
RwSet.v
Parallel.v
ParallelProps.v
ParallelState.v
Account.v
Effects.v
World.v
RegistryKeys.v
RegistryLabels.v
Cells.v
AlgorithmRegistry.v
WorldState.v
WorldProps.v
WorldViews.v
WorldRefines.v
Abi.v
AccountManager.v
Registry.v
Governance.v
SystemContracts.v
PlainRegistry.v
RegistryWrites.v
RegistryReads.v
RegistryQuorum.v
RegistryProps.v
RegistryStake.v
RegistryRefines.v
Recovery.v
AbiProps.v
RecoverySafety.v
RecoveryLive.v
BlockCodec.v
BlockRoundtrip.v
WitnessRoot.v
ChainStore.v
ChainOps.v
ChainDemo.v
ChainProps.v
ChainPrune.v
ChainRestore.v
ChainIds.v
