(* ===== verification/Prelude.v ===== *)
(** * Verification of shell-chain

    shell-chain is a blockchain node in Rust with post-quantum signatures.  This
    library models its consensus and its transaction path, from the bytes of a
    signed transaction to the pool that block producers draw from and the store
    that keeps the blocks, as executable functions, and proves what makes each
    part correct.

    ** The program

    The node (crates/node) keeps a set of authorities.  For each height one of
    them proposes a block, the others attest or vote, and a quorum of weight
    finalizes it.  crates/consensus holds the rules: the validator set
    (validator.rs), two engines behind one trait (engine.rs, poa.rs, wpoa.rs),
    the voting round (wpoa_state.rs), view changes that rotate a silent proposer
    (view_change.rs), finality (finality.rs), the block tree (fork_choice.rs),
    slashing evidence (slashing.rs), and the market of proof windows around the
    STARK prover (window.rs, rate_limiter.rs, prover_registry.rs,
    peer_scoring.rs).  crates/core holds blocks, transactions and fees,
    crates/pqvm validates transactions before they run, crates/mempool keeps
    those that wait for a block, and crates/storage stages what a block changes
    in overlays that can be committed, persisted or rolled back, and holds the
    accounts in a trie behind a cache.  A planner in crates/pqvm groups the
    transactions of a block into waves that may run in parallel.  Two system
    contracts run natively: the account manager, which rotates keys and lets
    guardians recover an account, and the validator registry.

    ** Files

    Each file models the source named; its definitions carry the source's names
    (a prefix tells apart methods that share one).

    - Prelude: machine integers, results, sums over lists, sets and maps, byte
      strings, the tactics [unfold_int], [int_lia], [div_lia], [case_guard] and
      [peel_bytes], and the hint database [bytes].
    - Primitives (crates/primitives, crates/crypto): 32-byte addresses and
      hashes, the class [Hashes] of hash functions, signatures, and the signer
      and verifier interfaces.  Block (core/src/block.rs): the header, its
      encoding and hash.
    - Validators (consensus/src/validator.rs, error.rs): record [ValidatorSet],
      lifecycle commands [vs_run], [weighted_proposer].
    - Finality (finality.rs and the attestation handler of
      node/src/node/p2p_handlers.rs): record [FinalityState], recording,
      quorums, pruning, equivocation.
    - Round (wpoa_state.rs): record [WPoaRound] and its handlers, composed by
      [round_step] and [round_run].  ViewChange (view_change.rs): signed
      requests and their weighted tally.
    - PoaConfig, Poa (poa.rs) and WPoa (wpoa.rs): the engines.  Engine
      (engine.rs): the trait as class [ConsensusEngine], its contract as class
      [EngineLaws], which Poa and WPoa discharge by instances.
    - ForkChoice (fork_choice.rs): record [ForkChoice], operations [fc_op].
    - Slashing (slashing.rs), Window (window.rs), RateLimiter (rate_limiter.rs),
      Provers (prover_registry.rs, peer_scoring.rs), Fee (core/src/fee.rs).
    - Rlp: the external crate alloy_rlp as classes [Rlp] and [RlpLaws], and the
      decoder monad; RlpImpl: an implementation that obeys the laws.
    - Transaction, TxCodec, TxHash (core/src/transaction.rs,
      crypto/src/signature.rs): types and structural checks, wire format,
      signed and hashed payloads.
    - TxValidation (pqvm/src/tx_validation.rs, primitives/src/gas_constants.rs):
      admission and import.
    - BTree: std's ordered map.  Mempool (crates/mempool): the pool's state
      [PoolInner] and every method; MempoolInv, MempoolEvict, MempoolInsert,
      MempoolProps, MempoolSelect: its invariant and theorems.
    - KvStore (storage/src/kv_store.rs, memory_db.rs): batches, the trait
      [KvStore] as a class with its contract [KvLaws], the in-memory store.
      Overlay (overlay_store.rs): record [OverlayStore] over any store;
      OverlayView: the map an overlay shows; OverlayProps: the overlay as an
      instance of [KvLaws], commits, frozen views, limits; OverlayReplay:
      durable replay; OverlayJournal: journals.  MetadataUndo
      (storage/src/chain_store.rs): undo journals of address metadata.
    - Keccak (pqvm/src/system_contracts.rs): the hash evaluated at compile time
      for function selectors; KeccakProps: FIPS 202 bit by bit, in module
      [Fips], and the equivalence.
    - RwSet (pqvm/src/rwset.rs): what a transaction is expected to read and
      write.  Parallel (parallel.rs): conflict graph, plan of waves, execution;
      ParallelProps: the plan; ParallelState: serializability.

    - Account (core/src/account.rs): accounts and their encoding.  Effects: the
      state and error monad of fallible code over a state database, with
      weakest preconditions.  World, WorldState (storage/src/world_state.rs,
      merkle_trie.rs): the accessors over any database, class [StateDb], and
      the trie with its cache as an instance; WorldProps: the contract
      [StateLaws]; WorldViews: balances, and a map as a database;
      WorldRefines: the refinement.
    - Abi (pqvm/src/system_contracts.rs): calldata encoders and decoders;
      AbiProps: round trips.  AccountManager (system_contracts.rs,
      key_binding.rs, chain_store.rs): the account manager; Recovery: its
      operations against the contract of the database; RecoverySafety,
      RecoveryLive: social recovery over any history of calls.
    - The validator registry (system_contracts.rs, algorithm_proposals.rs):
      RegistryKeys, RegistryLabels: its storage keys and that distinct slots
      hash distinct strings; Cells: its slots as class [Cells];
      AlgorithmRegistry (crypto/src/algorithm_registry.rs): lifecycle of signature
      schemes; Registry: votes, stakes and provers; Governance: proposals for
      signature schemes; SystemContracts: the dispatch of both contracts;
      PlainRegistry: the same code over plain maps; RegistryWrites: what each
      call may write; RegistryReads: what it reads, tallies and quorums;
      RegistryQuorum, RegistryProps, RegistryStake, RegistryRefines: the
      theorems.
    - BlockCodec (core/src/block.rs, witness.rs, reward.rs, log.rs, receipt.rs):
      blocks, their split into a body and witnesses, the witness root, system
      transactions, logs and receipts, with their wire forms; BlockRoundtrip:
      round trips; WitnessRoot: what the root commits to.
    - ChainStore (storage/src/chain_store.rs): blocks, receipts and indexes in a
      key-value store: commits, reads, reorganisations, pruning and backfill.
      ChainOps: its keys as type [ChainKey], and its batches as writes to them;
      ChainDemo: a concrete chain; ChainProps: commits and reads; ChainPrune,
      ChainRestore: pruning and restoring over any history; ChainIds: the ids
      of pruned transactions.

    ** How the code is modelled

    State is a record, a method a function from the old state to the new one and
    its result; a sequence of calls is a list of operations folded over the
    state, and "reachable" means by such a list from the initial state, with
    arguments in the ranges of their Rust types.  A mutex or lock that is not
    held across two calls makes concurrent calls such a sequence.  [u64], [u128]
    and [usize] are integers with saturating, checked or wrapping operations as
    written; plain [+] wraps, as in the release profile.  Errors are values of
    [result]; [None] is a panic, or fuel that ran out, as each definition says.
    Clocks are arguments.  A hash map is a [gmap]; where the source iterates over
    one, the theorems hold for the order chosen because they do not mention it.

    Code from other crates is a parameter: hash functions ([Hashes]), signature
    schemes (signers and verifiers), RLP ([Rlp]), 256-bit arithmetic where its
    overflow is not checked ([U256Ops]), the trie and the LRU cache ([EthTrie],
    [Lru]), JSON forms ([Json]).  What the proofs assume of it are laws
    in classes of their own; every theorem that uses one has a witness with a
    concrete instance.

    ** Theorems

    - Safety of consensus: [accountable_safety], [round_agreement] and
      [unique_finalizable] (conflicting finality needs a third of the weight to
      equivocate), [round_certificates], [view_change_certificate],
      [finality_never_reverts], [honest_never_framed].
    - Progress: [round_commits], [view_change_progress].
    - Fairness of proposers: [weighted_proposer_fair],
      [poa_lottery_proportional], [view_rotation_fair].
    - Engines: [signed_block_accepted] (what one node signs, a peer accepts,
      under both engines and across views), [verify_header_with_parent_iff],
      [finalized_import_iff], [poa_slash_exact], and [set_authorities_reapplies_reductions], a defect.
    - Block tree: [head_is_best] (while no vote lowers the head),
      [mark_finalized_flags], [tree_surgery_exact], [common_ancestor_lowest].
    - Proof market: [rate_limit_bound], [fulfilled_in_time] and
      [expired_claim_not_released] (divergences from the documentation),
      [registry_advance_split].
    - Fees: [fake_exponential_exact], [base_fee_bounds].
    - Wire and signing formats: [signed_roundtrip], [payloads_separated],
      [signing_payload_binds], [canonical_encode_binds]; the defects
      [signing_hash_ambiguous] and [access_entry_malleable].
    - Admission: [admission_exact], [import_exact].
    - Pool: [pool_invariant] for all operations, [insert_solvent],
      [insert_displaces], [evictions_terminate], [replacement_pays],
      [prune_exact], [block_selection].
    - Storage: [native_scans_agree]; [commit_refines], [snapshot_isolated],
      [write_limit_exact]; [replay_durable], [clear_replay_total];
      [restore_undoes_import].
    - Chain store: [block_committed] (a committed block is found in every way),
      [pruned_block_authentic] (what is pruned comes back as it was, whatever
      peers offer), [witness_root_binds], and [pruned_ids_change], a defect.
      The chain totals, reorganisations and rewinds are modelled without
      theorems of their own.
    - World state: [world_refines].
    - System contracts: [abi_roundtrip], [recovery_safe], [recovery_live], and
      [rival_key_blocks], a divergence from a comment.
    - Validator registry: [registry_quorum], [validators_change] and
      [decisions_exact] (changes need exactly their quorum), [stake_ledger]
      (balances and stakes are conserved), [registry_refines] (over the world
      state as over plain maps), and [spent_quorum_reused], a defect.  The
      executor does not undo what a failed system call wrote, so histories
      contain failed calls with and without their writes.
    - Hashing: [keccak256_standard].
    - Parallel execution: [plan_sound], [execute_is_serial],
      [waves_serializable].

    ** Fuel and bounds

    Loops that are not structural take fuel.  The blob price uses 400 rounds:
    [fake_exponential_exact] shows that every [u64] input needs fewer.  Walks of
    the block tree use the number of blocks ([subtree_total], [protect_total]).
    The eviction and selection loops of the pool use the number of entries plus
    one, as each round takes a new entry ([evictions_terminate],
    [block_selection]); clearing a replay uses more than the number of its
    entries ([clear_replay_total]).  Decoding loops take the length of the input,
    as each item takes a byte ([decode_loop_fuel]); the witness root takes the
    number of leaves, as each level has fewer ([compute_root_total]).  Authority lists are distinct and short enough that total
    weight fits in [u64]; calldata is below 2^40 bytes where a length sum must
    not wrap; a pool holds fewer than 2^64 - 1 transactions; lists in a block
    have at most 2^16 items, and their strings the sizes of BlockRoundtrip.

    ** Not modelled

    Execution of transactions and account validation (crates/pqvm on an external
    EVM), so [validate_aa_tx] enters as an argument; the RocksDB back end, the
    pages of an address's history, snapshots, the chain configuration, commit
    certificates, the indexes of proofs and the export of trie nodes
    (crates/storage);
    networking, RPC, the command line and the event loop of the node (I/O); the
    STARK circuits (on winterfell); the signature schemes themselves; serde's
    JSON forms. *)

From Corelib Require Export ssreflect.
From stdpp Require Export base gmap list fin_maps sets strings.
From Stdlib Require Export ZArith Lia.

#[export] Set Warnings "-clear-no-such-hyp".

#[global] Open Scope general_if_scope.
#[global] Open Scope Z_scope.

(** ** Machine integers

    Rust's [u64], [u128], [i64] and [usize] are integers of [Z]; every
    operation whose behaviour at the bounds matters is written out.  The
    chain's supported targets are 64-bit, so [usize] has the bounds of [u64]. *)

Definition u32_max : Z := 4294967295.
Definition u64_max : Z := 18446744073709551615.
Definition u128_max : Z := 340282366920938463463374607431768211455.
Definition u256_max : Z := 2 ^ 256 - 1.
Definition i64_max : Z := 9223372036854775807.
Definition i64_min : Z := -9223372036854775808.

(** [x] is a value of the unsigned type whose largest value is [m]. *)
Definition in_u64 (x : Z) : Prop := 0 <= x <= u64_max.

Definition sat_add (a b : Z) : Z := Z.min (a + b) u64_max.
Definition sat_sub (a b : Z) : Z := Z.max (a - b) 0.
Definition sat_mul (a b : Z) : Z := Z.min (a * b) u64_max.
Definition checked_add (a b : Z) : option Z :=
  if a + b <=? u64_max then Some (a + b) else None.
Definition checked_rem (a b : Z) : option Z :=
  if b =? 0 then None else Some (a mod b).
Definition checked_div (a b : Z) : option Z :=
  if b =? 0 then None else Some (a / b).
(** [a * b] in a build without overflow checks (the release profile). *)
Definition wrapping_mul (a b : Z) : Z := (a * b) mod (u64_max + 1).
Definition wrapping_sub (a b : Z) : Z := (a - b) mod (u64_max + 1).
Definition wrapping_add (a b : Z) : Z := (a + b) mod (u64_max + 1).
Definition div_ceil (a b : Z) : Z := a / b + (if a mod b =? 0 then 0 else 1).
Definition clamp (lo hi x : Z) : Z :=
  if x <? lo then lo else if hi <? x then hi else x.
(** [u64::try_from] of a [u128]. *)
Definition u64_try_from (x : Z) : option Z :=
  if (0 <=? x) && (x <=? u64_max) then Some x else None.

Definition i64_clamp (x : Z) : Z := Z.max i64_min (Z.min x i64_max).
Definition i64_sat_add (a b : Z) : Z := i64_clamp (a + b).
Definition i64_sat_mul (a b : Z) : Z := i64_clamp (a * b).

(** Unfolds the fixed-width operations and reflects boolean tests, then [lia]. *)
Ltac unfold_int :=
  unfold in_u64, sat_add, sat_sub, sat_mul, checked_add, clamp, i64_sat_add,
    i64_sat_mul, i64_clamp, u64_max, i64_max, i64_min in *.
Ltac int_lia := unfold_int; repeat case_match; lia.

(** [lia] with division and remainder by constants. *)
Ltac div_lia := unfold_int; Z.to_euclidean_division_equations; lia.

(** Splits the outermost boolean guard of a handler applied in the goal
    (an implication from, or an equation about, its result). *)
Tactic Notation "case_guard" ident(H) :=
  lazymatch goal with
  | |- (if ?b then _ else _) = _ → _ => destruct b eqn:H
  | |- (if ?b then _ else _) = _ => destruct b eqn:H
  end.

(** ** Results *)

Inductive result (A E : Type) : Type :=
| Ok (a : A)
| Err (e : E).
Arguments Ok {A E} a.
Arguments Err {A E} e.

Definition result_bind {A B E} (m : result A E) (k : A → result B E) : result B E :=
  match m with Ok a => k a | Err e => Err e end.

Declare Scope shell_scope.
Delimit Scope shell_scope with shell.
Notation "'let?' x ':=' m 'in' k" := (result_bind m (λ x, k))
  (at level 10, x name, m at level 100, k at level 200) : shell_scope.
#[global] Open Scope shell_scope.

Definition ok_or {A E} (o : option A) (e : E) : result A E :=
  match o with Some a => Ok a | None => Err e end.
Definition is_ok {A E} (r : result A E) : bool :=
  match r with Ok _ => true | Err _ => false end.
Definition map_err {A E F} (f : E → F) (r : result A E) : result A F :=
  match r with Ok a => Ok a | Err e => Err (f e) end.
Definition unwrap_or {A} (d : A) (o : option A) : A :=
  match o with Some a => a | None => d end.

Lemma bind_ok {A B E} (m : result A E) (k : A → result B E) b :
  result_bind m k = Ok b ↔ ∃ a, m = Ok a ∧ k a = Ok b.
Proof. destruct m; simpl; naive_solver. Qed.
Lemma map_err_ok {A E F} (f : E → F) (r : result A E) a : map_err f r = Ok a ↔ r = Ok a.
Proof. destruct r; simpl; naive_solver. Qed.
Lemma bind_unit_ok {B E} (m : result unit E) (k : unit → result B E) b :
  result_bind m k = Ok b ↔ m = Ok tt ∧ k tt = Ok b.
Proof. rw bind_ok. split; [by intros ([] & -> & ?)|eauto]. Qed.
Lemma guard_ok {A E} (b : bool) (e : E) (r : result A E) a :
  (if b then Err e else r) = Ok a ↔ b = false ∧ r = Ok a.
Proof. destruct b; naive_solver. Qed.

(** ** Sums over lists and finite sets *)

Definition sumZ {A} (f : A → Z) (l : list A) : Z := foldr (λ x acc, f x + acc) 0 l.
Arguments sumZ : simpl never.

Section sums.
Context {A : Type}.
Implicit Types (f g : A → Z) (l k : list A).

Lemma sumZ_nil f : sumZ f [] = 0.
Proof. done. Qed.
Lemma sumZ_cons f x l : sumZ f (x :: l) = f x + sumZ f l.
Proof. done. Qed.
Lemma sumZ_app f l k : sumZ f (l ++ k) = sumZ f l + sumZ f k.
Proof. induction l as [|x l IH]; [done|]. rw /= !sumZ_cons IH. lia. Qed.
Lemma sumZ_perm f l k : l ≡ₚ k → sumZ f l = sumZ f k.
Proof. induction 1; rw ?sumZ_cons; lia. Qed.
Lemma sumZ_ext f g l : (∀ x, x ∈ l → f x = g x) → sumZ f l = sumZ g l.
Proof.
  induction l as [|x l IH]; intros Hfg; [done|].
  rw !sumZ_cons IH ?Hfg //; set_solver.
Qed.
Lemma sumZ_nonneg f l : (∀ x, x ∈ l → 0 <= f x) → 0 <= sumZ f l.
Proof.
  induction l as [|x l IH]; intros Hf; [done|]. rw sumZ_cons.
  assert (0 <= f x) by (apply Hf; set_solver).
  assert (0 <= sumZ f l) by (apply IH; set_solver). lia.
Qed.
Lemma sumZ_elem_le f l x : (∀ y, y ∈ l → 0 <= f y) → x ∈ l → f x <= sumZ f l.
Proof.
  intros Hf (l1 & l2 & ->)%list_elem_of_split. rw sumZ_app sumZ_cons.
  assert (0 <= sumZ f l1) by (apply sumZ_nonneg; set_solver).
  assert (0 <= sumZ f l2) by (apply sumZ_nonneg; set_solver). lia.
Qed.
Lemma sumZ_le_len f l m :
  (∀ x, x ∈ l → f x <= m) → sumZ f l <= m * Z.of_nat (length l).
Proof.
  induction l as [|x l IH]; intros Hf; [rw sumZ_nil /=; lia|].
  assert (f x <= m) by (apply Hf; set_solver).
  assert (sumZ f l <= m * Z.of_nat (length l)) by (apply IH; set_solver).
  rw sumZ_cons length_cons. lia.
Qed.

(** A fold with [saturating_add] is the sum, capped. *)
Lemma foldl_sat_add f l a :
  (∀ x, x ∈ l → 0 <= f x) → 0 <= a <= u64_max →
  foldl (λ acc x, sat_add acc (f x)) a l = Z.min (a + sumZ f l) u64_max.
Proof.
  revert a. induction l as [|x l IH]; intros a Hf Ha; simpl.
  - rw sumZ_nil. lia.
  - assert (0 <= f x) by (apply Hf; set_solver).
    assert (0 <= sumZ f l) by (apply sumZ_nonneg; set_solver).
    rw IH; [set_solver|int_lia|]. rw sumZ_cons. int_lia.
Qed.
End sums.

Lemma sumZ_fmap {A B} (f : B → Z) (g : A → B) (l : list A) :
  sumZ f (g <$> l) = sumZ (λ x, f (g x)) l.
Proof. induction l as [|x l IH]; [done|]. by rw fmap_cons !sumZ_cons IH. Qed.

Section set_sums.
Context {K : Type} `{Countable K}.
Implicit Types (w : K → Z) (X Y : gset K).

Definition set_sum w X : Z := sumZ w (elements X).

Lemma set_sum_empty w : set_sum w ∅ = 0.
Proof. by rw /set_sum elements_empty. Qed.
Lemma set_sum_union w X Y : X ## Y → set_sum w (X ∪ Y) = set_sum w X + set_sum w Y.
Proof.
  intros HXY. rw /set_sum -sumZ_app. apply sumZ_perm. by apply elements_disj_union.
Qed.
Lemma set_sum_insert w x X : x ∉ X → set_sum w ({[x]} ∪ X) = w x + set_sum w X.
Proof.
  intros Hx. rw set_sum_union; [set_solver|].
  rw {1}/set_sum elements_singleton sumZ_cons sumZ_nil. lia.
Qed.
Lemma set_sum_nonneg w X : (∀ x, x ∈ X → 0 <= w x) → 0 <= set_sum w X.
Proof. intros Hw. apply sumZ_nonneg. set_solver. Qed.
Lemma set_sum_ext w w' X : (∀ x, x ∈ X → w x = w' x) → set_sum w X = set_sum w' X.
Proof. intros Hw. apply sumZ_ext. set_solver. Qed.
Lemma set_sum_mono w X Y : (∀ x, x ∈ Y → 0 <= w x) → X ⊆ Y → set_sum w X <= set_sum w Y.
Proof.
  intros Hw HXY. rw (union_difference_L X Y HXY) set_sum_union; [set_solver|].
  assert (0 <= set_sum w (Y ∖ X)) by (apply set_sum_nonneg; set_solver). lia.
Qed.

(** Quorum intersection by weight: two subsets of a weighted set overlap in
    at least what they exceed the whole by. *)
Lemma set_sum_intersection w X Y V :
  (∀ x, x ∈ V → 0 <= w x) → X ⊆ V → Y ⊆ V →
  set_sum w X + set_sum w Y <= set_sum w V + set_sum w (X ∩ Y).
Proof.
  intros Hw HX HY.
  assert (set_sum w X = set_sum w (X ∩ Y) + set_sum w (X ∖ Y)) as ->.
  { rw -set_sum_union; [set_solver|]. f_equal.
    apply set_eq. intros x. destruct (decide (x ∈ Y)); set_solver. }
  assert (set_sum w (X ∖ Y) + set_sum w Y <= set_sum w V).
  { rw -set_sum_union; [set_solver|]. apply set_sum_mono; set_solver. }
  lia.
Qed.
End set_sums.

(** Weights kept in a map: a missing key counts as zero. *)
Definition weight_of {K} `{Countable K} (m : gmap K Z) (k : K) : Z := unwrap_or 0 (m !! k).
Definition map_total {K} `{Countable K} (m : gmap K Z) : Z := set_sum (weight_of m) (dom m).

(** ** Sums over maps *)

Section map_sums.
Context {K A : Type} `{Countable K}.
Implicit Types (f : A → Z) (m : gmap K A).

Definition map_sum f m : Z := sumZ (λ p, f p.2) (map_to_list m).

Lemma map_sum_empty f : map_sum f ∅ = 0.
Proof. by rw /map_sum map_to_list_empty. Qed.
Lemma map_sum_insert f m k a : m !! k = None → map_sum f (<[k := a]> m) = f a + map_sum f m.
Proof. intros Hk. by rw /map_sum (sumZ_perm _ _ _ (map_to_list_insert m k a Hk)). Qed.
Lemma map_sum_delete f m k a : m !! k = Some a → map_sum f (delete k m) = map_sum f m - f a.
Proof.
  intros Hk. rw -{2}(insert_delete_id m k a) // map_sum_insert; [apply lookup_delete_eq|lia].
Qed.
Lemma map_sum_nonneg f m : (∀ k a, m !! k = Some a → 0 <= f a) → 0 <= map_sum f m.
Proof. intros Hf. apply sumZ_nonneg. intros [k a] Hin%elem_of_map_to_list. eauto. Qed.
Lemma map_sum_elem_le f m k a :
  (∀ k a, m !! k = Some a → 0 <= f a) → m !! k = Some a → f a <= map_sum f m.
Proof.
  intros Hf Hk. assert (0 <= map_sum f (delete k m)).
  { apply map_sum_nonneg. intros k' a' [_ ?]%lookup_delete_Some. eauto. }
  rw (map_sum_delete _ _ _ a) // in H0. lia.
Qed.
Lemma map_sum_le_size f m b :
  (∀ k a, m !! k = Some a → f a <= b) → map_sum f m <= b * Z.of_nat (size m).
Proof.
  intros Hf. rw -length_map_to_list. apply sumZ_le_len. intros [k a] Hin%elem_of_map_to_list. eauto.
Qed.
End map_sums.

(** ** Sums over a chosen set of keys *)

Section chosen.
Context {K A : Type} `{Countable K}.
Implicit Types (f : A → Z) (m : gmap K A) (X : gset K).

Definition chosen X m : gmap K A := filter (λ p, p.1 ∈ X) m.

Lemma lookup_chosen X m k a : chosen X m !! k = Some a ↔ m !! k = Some a ∧ k ∈ X.
Proof. by rw map_lookup_filter_Some. Qed.

Lemma chosen_empty m : chosen ∅ m = ∅.
Proof. apply map_empty. intros k. apply eq_None_not_Some. intros [a [_ ?]%lookup_chosen]. set_solver. Qed.

Lemma chosen_add X m k a : m !! k = Some a → chosen ({[k]} ∪ X) m = <[k := a]> (chosen X m).
Proof.
  intros Hk. apply map_eq. intros i. apply option_eq. intros b.
  rw lookup_chosen lookup_insert_Some lookup_chosen. destruct (decide (i = k)) as [->|]; set_solver.
Qed.
Lemma chosen_add_None X m k : m !! k = None → chosen ({[k]} ∪ X) m = chosen X m.
Proof.
  intros Hk. apply map_eq. intros i. apply option_eq. intros b. rw !lookup_chosen.
  destruct (decide (i = k)) as [->|]; [naive_solver|set_solver].
Qed.
Lemma chosen_lookup_None X m k : k ∉ X → chosen X m !! k = None.
Proof. intros Hk. apply eq_None_not_Some. by intros [a [_ ?]%lookup_chosen]. Qed.

Lemma chosen_size X m : X ⊆ dom m → size (chosen X m) = size X.
Proof.
  intros HX. rw -(size_dom (D := gset K)). f_equal. apply set_eq. intros k.
  rw elem_of_dom. split; [by intros [a [_ ?]%lookup_chosen]|].
  intros Hk. assert (is_Some (m !! k)) as [a Ha] by (apply elem_of_dom; set_solver).
  exists a. by apply lookup_chosen.
Qed.

Lemma sum_omap_elements f m X : sumZ f (omap (m !!.) (elements X)) = map_sum f (chosen X m).
Proof.
  induction X as [|k X Hk IH] using set_ind_L.
  { by rw elements_empty /= sumZ_nil chosen_empty map_sum_empty. }
  assert (Hp : omap (m !!.) (elements ({[k]} ∪ X)) ≡ₚ omap (m !!.) (k :: elements X))
    by (apply omap_Permutation; by apply elements_union_singleton).
  rw (sumZ_perm _ _ _ Hp) /=. destruct (m !! k) as [a|] eqn:E.
  - rw sumZ_cons IH (chosen_add _ _ _ a) // map_sum_insert // chosen_lookup_None //.
  - by rw IH chosen_add_None.
Qed.

Lemma map_sum_split f m X :
  map_sum f m = map_sum f (chosen X m) + map_sum f (filter (λ p, p.1 ∉ X) m).
Proof.
  induction X as [|k X Hk IH] using set_ind_L.
  - rw chosen_empty map_sum_empty Z.add_0_l map_filter_id //.
  - rw IH. destruct (m !! k) as [a|] eqn:E.
    + rw (chosen_add _ _ _ a) // map_sum_insert ?chosen_lookup_None //.
      assert (filter (λ p, p.1 ∉ {[k]} ∪ X) m = delete k (filter (λ p, p.1 ∉ X) m)) as ->.
      { apply map_eq. intros i. apply option_eq. intros b.
        rw lookup_delete_Some !map_lookup_filter_Some /=. set_solver. }
      rw (map_sum_delete _ _ _ a); [by apply map_lookup_filter_Some|lia].
    + rw chosen_add_None //. do 2 f_equal. apply map_eq. intros i. apply option_eq. intros b.
      rw !map_lookup_filter_Some /=. destruct (decide (i = k)) as [->|]; [naive_solver|set_solver].
Qed.

Lemma filter_notin_size m X :
  X ⊆ dom m → (size (filter (λ p, p.1 ∉ X) m) + size X = size m)%nat.
Proof.
  intros HX. rw -(chosen_size X m) //. assert (Hu : filter (λ p, p.1 ∉ X) m ∪ chosen X m = m).
  { apply map_eq. intros i. destruct (m !! i) as [a|] eqn:E.
    - destruct (decide (i ∈ X)).
      + rw lookup_union_r; [|by apply lookup_chosen]. apply map_lookup_filter_None. right. naive_solver.
      + rw lookup_union_l; [by apply chosen_lookup_None|]. by apply map_lookup_filter_Some.
    - apply lookup_union_None. split; [apply map_lookup_filter_None; by left|].
      apply eq_None_not_Some. intros [? [? _]%lookup_chosen]. congruence. }
  rw -{3}Hu map_size_disj_union //. apply map_disjoint_spec. intros i a b.
  rw map_lookup_filter_Some lookup_chosen /=. naive_solver.
Qed.
End chosen.

(** ** Byte strings

    A byte is an integer below 256.  [to_be_bytes] and [to_le_bytes] are the
    fixed-width encodings of Rust's integer types. *)

Fixpoint be_bytes (n : nat) (z : Z) : list Z :=
  match n with
  | O => []
  | S n' => (z / 256 ^ Z.of_nat n') mod 256 :: be_bytes n' z
  end.
Definition le_bytes (n : nat) (z : Z) : list Z := reverse (be_bytes n z).

Definition from_be_bytes (l : list Z) : Z := foldl (λ acc b, acc * 256 + b) 0 l.
Definition from_le_bytes (l : list Z) : Z := from_be_bytes (reverse l).

(** The bytes of an ASCII literal. *)
Definition ascii_bytes (s : string) : list Z :=
  (λ a, Z.of_nat (Ascii.nat_of_ascii a)) <$> String.list_ascii_of_string s.

(** The order of byte slices: lexicographic, then by length. *)
Fixpoint bytes_cmp (l k : list Z) : comparison :=
  match l, k with
  | [], [] => Eq
  | [], _ :: _ => Lt
  | _ :: _, [] => Gt
  | x :: l', y :: k' => match x ?= y with Eq => bytes_cmp l' k' | c => c end
  end.

Lemma length_be_bytes n z : length (be_bytes n z) = n.
Proof. induction n; simpl; auto. Qed.
Lemma length_le_bytes n z : length (le_bytes n z) = n.
Proof. by rw /le_bytes length_reverse length_be_bytes. Qed.

Lemma from_be_bytes_snoc l b : from_be_bytes (l ++ [b]) = from_be_bytes l * 256 + b.
Proof. by rw /from_be_bytes foldl_app. Qed.

Lemma from_be_bytes_app l k :
  from_be_bytes (l ++ k) = from_be_bytes l * 256 ^ Z.of_nat (length k) + from_be_bytes k.
Proof.
  induction k as [|b k IH] using rev_ind.
  - rw app_nil_r {3}/from_be_bytes /=. lia.
  - rw app_assoc !from_be_bytes_snoc IH length_app /= Nat.add_1_r Nat2Z.inj_succ Z.pow_succ_r; lia.
Qed.

Lemma from_be_bytes_be_bytes n z :
  from_be_bytes (be_bytes n z) = z mod 256 ^ Z.of_nat n.
Proof.
  induction n as [|n IH]; [by rw Z.mod_1_r|].
  cbn [be_bytes]. rw (from_be_bytes_app [_]) IH length_be_bytes.
  rw {1}/from_be_bytes /= Nat2Z.inj_succ Z.pow_succ_r; [lia|].
  rw Z.mul_comm (Z.mul_comm 256) Z.rem_mul_r; lia.
Qed.

Lemma be_bytes_inj n a b :
  0 <= a < 256 ^ Z.of_nat n → 0 <= b < 256 ^ Z.of_nat n →
  be_bytes n a = be_bytes n b → a = b.
Proof.
  intros Ha Hb Hab%(f_equal from_be_bytes). move: Hab.
  rw !from_be_bytes_be_bytes !Z.mod_small //.
Qed.

Lemma le_bytes_inj n a b :
  0 <= a < 256 ^ Z.of_nat n → 0 <= b < 256 ^ Z.of_nat n →
  le_bytes n a = le_bytes n b → a = b.
Proof.
  intros Ha Hb Hab%(f_equal reverse). move: Hab.
  rw /le_bytes !reverse_involutive. by apply be_bytes_inj.
Qed.

Lemma bytes_cmp_be_bytes n a b :
  bytes_cmp (be_bytes n a) (be_bytes n b) =
  (a mod 256 ^ Z.of_nat n ?= b mod 256 ^ Z.of_nat n).
Proof.
  induction n as [|n IH]; [by rw !Z.mod_1_r|].
  cbn [be_bytes bytes_cmp]. rw IH.
  set (p := 256 ^ Z.of_nat n). assert (0 < p) by (subst p; lia).
  assert (256 ^ Z.of_nat (S n) = p * 256) as ->
    by (rw Nat2Z.inj_succ Z.pow_succ_r; lia).
  rw !(Z.rem_mul_r _ p); [lia..|].
  pose proof (Z.mod_pos_bound a p). pose proof (Z.mod_pos_bound b p).
  generalize dependent (a mod p). generalize dependent (b mod p).
  generalize ((a / p) mod 256) ((b / p) mod 256). intros x y r ? s ?.
  destruct (Z.compare_spec x y); symmetry.
  - subst. destruct (Z.compare_spec s r);
      [apply Z.compare_eq_iff|apply Z.compare_lt_iff|apply Z.compare_gt_iff]; lia.
  - apply Z.compare_lt_iff. nia.
  - apply Z.compare_gt_iff. nia.
Qed.

(** Any [w] consecutive integers hit every residue modulo [w] once. *)
Lemma seqZ_mod_perm n w : 0 < w → (λ k, k mod w) <$> seqZ n w ≡ₚ seqZ 0 w.
Proof.
  intros Hw. apply submseteq_length_Permutation.
  - apply NoDup_submseteq.
    + apply NoDup_fmap_2_strong; [|apply NoDup_seqZ].
      intros x y Hx%elem_of_seqZ Hy%elem_of_seqZ Hxy.
      pose proof (Z.div_mod x w). pose proof (Z.div_mod y w).
      assert (x / w = y / w) by nia. nia.
    + intros x (k & -> & _)%list_elem_of_fmap. apply elem_of_seqZ.
      pose proof (Z.mod_pos_bound k w). lia.
  - by rw length_fmap !length_seqZ.
Qed.

(** Reading a whole list by index. *)
Lemma lookup_seqZ_all {A} (l : list A) :
  (λ k, l !! Z.to_nat k) <$> seqZ 0 (Z.of_nat (length l)) = Some <$> l.
Proof.
  apply list_eq. intros i.
  rw (list_lookup_fmap (λ k, l !! Z.to_nat k)) (list_lookup_fmap Some).
  destruct (decide (i < length l)%nat) as [Hi|Hi].
  - rw lookup_seqZ_lt; [lia|]. simpl. rw Z.add_0_l Nat2Z.id.
    destruct (lookup_lt_is_Some_2 l i Hi) as [x ->]. done.
  - rw lookup_seqZ_ge; [lia|]. by rw lookup_ge_None_2; [lia|].
Qed.

Lemma filter_ext_in {A} (P Q : A → Prop) `{∀ x, Decision (P x), ∀ x, Decision (Q x)} (l : list A) :
  (∀ x, x ∈ l → P x ↔ Q x) → filter P l = filter Q l.
Proof.
  induction l as [|x l IH]; intros HPQ; [done|]. rw !filter_cons IH; [set_solver|].
  specialize (HPQ x ltac:(set_solver)). repeat case_decide; tauto.
Qed.

Lemma filter_none {A} (P : A → Prop) `{∀ x, Decision (P x)} (l : list A) :
  (∀ x, x ∈ l → ¬ P x) → filter P l = [].
Proof.
  induction l as [|x l IH]; intros Hl; [done|]. rw filter_cons decide_False; [apply Hl; left|].
  apply IH. set_solver.
Qed.

Lemma filter_filter_and {A} (P Q : A → Prop) `{∀ x, Decision (P x)} `{∀ x, Decision (Q x)} (l : list A) :
  filter P (filter Q l) = filter (λ x, Q x ∧ P x) l.
Proof.
  induction l as [|x l IH]; [done|]. rw !filter_cons. repeat case_decide; try tauto; rw ?filter_cons;
    repeat case_decide; try tauto; by rw IH.
Qed.

Lemma filter_fmap_list {A B} (P : B → Prop) `{∀ x, Decision (P x)} (f : A → B) (l : list A) :
  filter P (f <$> l) = f <$> filter (λ x, P (f x)) l.
Proof.
  induction l as [|x l IH]; [done|]. rw fmap_cons !filter_cons IH.
  by repeat case_decide.
Qed.

(** [HashMap::retain] by key. *)
Lemma lookup_filter_notin {K A} `{Countable K} (m : gmap K A) (X : gset K) k :
  filter (λ p, p.1 ∉ X) m !! k = if decide (k ∈ X) then None else m !! k.
Proof.
  apply option_eq. intros x. rw map_lookup_filter_Some /=.
  case_decide; naive_solver.
Qed.

Lemma fmap_Some_perm {A} (l k : list A) : Some <$> l ≡ₚ Some <$> k → l ≡ₚ k.
Proof.
  intros Hp. assert (Hid : ∀ l : list A, omap id (Some <$> l) = l).
  { intros l'. induction l' as [|x l' IH]; [done|]. by rw fmap_cons /= -{2}IH. }
  by rw -(Hid l) -(Hid k) Hp.
Qed.

(** Every element written once per unit of its weight. *)
Lemma bind_replicate_count {A B} `{EqDecision B} (f : A → B) (w : A → Z) (l : list A) (x : A) :
  NoDup (f <$> l) → x ∈ l →
  length (filter (λ b, b = f x) (l ≫= λ y, replicate (Z.to_nat (w y)) (f y))) = Z.to_nat (w x).
Proof.
  assert (Hrep : ∀ n (a b : B), length (filter (λ c, c = b) (replicate n a)) =
    if decide (a = b) then n else 0%nat).
  { intros n a b. induction n as [|n IH]; simpl; [by case_decide|].
    rw filter_cons. case_decide; simpl; by rw IH. }
  assert (Hnot : ∀ l : list A, f x ∉ f <$> l →
    filter (λ b, b = f x) (l ≫= λ y, replicate (Z.to_nat (w y)) (f y)) = []).
  { intros k. induction k as [|y k IH]; intros Hk; [done|]. rw bind_cons filter_app IH.
    - set_solver.
    - rw app_nil_r. apply nil_length_inv. rw Hrep decide_False //. set_solver. }
  induction l as [|y l IH]; intros Hnd Hx; [by apply not_elem_of_nil in Hx|].
  rw fmap_cons in Hnd. apply NoDup_cons in Hnd as [Hy Hnd].
  rw bind_cons filter_app length_app Hrep.
  apply elem_of_cons in Hx as [->|Hx].
  - rw decide_True // Hnot //.
  - rw decide_False; [|by rw IH].
    intros E. apply Hy. rw E. by apply list_elem_of_fmap_2.
Qed.

(** ** Fixed-width records

    Equal concatenations of fields of fixed widths have equal fields.
    [peel_bytes E] splits such an equation [E] into one equation per field. *)

Create HintDb bytes.
Create Rewrite HintDb bytes.

Lemma app_split {A} (l1 l2 k1 k2 : list A) :
  length l1 = length k1 → l1 ++ l2 = k1 ++ k2 → l1 = k1 ∧ l2 = k2.
Proof. apply app_inj_1. Qed.

Lemma be_u64_inj a b : be_bytes 8 a = be_bytes 8 b → in_u64 a → in_u64 b → a = b.
Proof. intros E Ha Hb. apply (be_bytes_inj 8) in E; unfold_int; simpl; lia. Qed.
Lemma le_u64_inj a b : le_bytes 8 a = le_bytes 8 b → in_u64 a → in_u64 b → a = b.
Proof. intros E Ha Hb. apply (le_bytes_inj 8) in E; unfold_int; simpl; lia. Qed.

#[export] Hint Rewrite @length_app length_be_bytes length_le_bytes : bytes.
#[export] Hint Resolve be_u64_inj le_u64_inj : bytes.

Ltac peel_bytes E :=
  lazymatch type of E with
  | ?a ++ _ = ?b ++ _ =>
      let H := fresh "Efield" in
      apply app_split in E as [H E]; [peel_bytes E|by autorewrite with bytes]
  | _ => idtac
  end.
