(* ===== verification/Primitives.v ===== *)
(** * Primitive types

    The 32-byte arrays behind [Address] and [ShellHash] (crates/primitives),
    the validator-weight bound, the round-robin index of crates/consensus, the
    post-quantum signature container and the signer/verifier interfaces of
    crates/crypto.  The hash functions come from third-party crates: they are
    the parameters collected in the class [Hashes]. *)

From S2P Require Import Prelude.

(** ** 32-byte arrays

    [[u8; 32]] is the integer its bytes spell in big-endian order. *)

Definition in_b256 (z : Z) : bool := (0 <=? z) && (z <=? u256_max).

Record b256 : Type := MkB256 {
  b256_unsigned : Z;
  b256_in_range : in_b256 b256_unsigned = true;
}.

Abbreviation Address := b256 (only parsing).
Abbreviation ShellHash := b256 (only parsing).

Lemma b256_eq (a b : b256) : b256_unsigned a = b256_unsigned b → a = b.
Proof.
  destruct a as [a Ha], b as [b Hb]; simpl; intros ->.
  f_equal. apply (Eqdep_dec.UIP_dec Bool.bool_dec).
Qed.

#[global] Instance b256_eq_dec : EqDecision b256 := λ a b,
  match decide (b256_unsigned a = b256_unsigned b) with
  | left H => left (b256_eq a b H)
  | right H => right (λ E, H (f_equal b256_unsigned E))
  end.

Lemma b256_of_Z_in_range z : in_b256 (z mod (u256_max + 1)) = true.
Proof.
  pose proof (Z.mod_pos_bound z (u256_max + 1) ltac:(done)).
  apply andb_true_intro. split; apply Z.leb_le; lia.
Qed.
(** The array spelling [z], reduced to 256 bits. *)
Definition b256_of_Z (z : Z) : b256 :=
  MkB256 (z mod (u256_max + 1)) (b256_of_Z_in_range z).

Lemma b256_range (a : b256) : 0 <= b256_unsigned a <= u256_max.
Proof.
  destruct a as [a Ha]; simpl. apply andb_true_iff in Ha.
  rw !Z.leb_le in Ha. done.
Qed.

Lemma b256_of_Z_unsigned (a : b256) : b256_of_Z (b256_unsigned a) = a.
Proof. apply b256_eq. pose proof (b256_range a). rw /= Z.mod_small; lia. Qed.

#[global] Instance b256_countable : Countable b256 :=
  inj_countable' b256_unsigned b256_of_Z b256_of_Z_unsigned.

(** [Address::ZERO], [ShellHash::ZERO] and [Default::default] of both. *)
Definition ZERO : b256 := b256_of_Z 0.

Definition as_bytes (h : b256) : list Z := be_bytes 32 (b256_unsigned h).
Arguments as_bytes : simpl never.

Lemma length_as_bytes h : length (as_bytes h) = 32%nat.
Proof. apply length_be_bytes. Qed.

Lemma b256_pow : 256 ^ Z.of_nat 32 = u256_max + 1.
Proof. reflexivity. Qed.

Lemma as_bytes_inj a b : as_bytes a = as_bytes b → a = b.
Proof.
  intros Hab. apply b256_eq. pose proof (b256_range a). pose proof (b256_range b).
  apply (be_bytes_inj 32); rw ?b256_pow; [lia..|done].
Qed.

#[export] Hint Rewrite length_as_bytes : bytes.
#[export] Hint Resolve as_bytes_inj : bytes.

Lemma bytes_cmp_as_bytes a b :
  bytes_cmp (as_bytes a) (as_bytes b) = (b256_unsigned a ?= b256_unsigned b).
Proof.
  pose proof (b256_range a). pose proof (b256_range b).
  rw /as_bytes bytes_cmp_be_bytes b256_pow !Z.mod_small; [lia..|done].
Qed.

(** ** Protocol constants and helpers *)

Definition MAX_VALIDATOR_WEIGHT : Z := 1000000.

(** Index of a round-robin slot; [None] only for an empty set. *)
Definition round_robin_index (block_number : Z) (count : nat) : option nat :=
  if (count =? 0)%nat then None
  else Some (Z.to_nat (block_number mod Z.of_nat count)).

Lemma round_robin_index_lt n count i :
  round_robin_index n count = Some i → (i < count)%nat.
Proof.
  rw /round_robin_index. case_match eqn:E; [done|]. intros [= <-].
  apply Nat.eqb_neq in E.
  pose proof (Z.mod_pos_bound n (Z.of_nat count)). lia.
Qed.

(** ** Hash functions and signatures *)

(** Keccak-256 and BLAKE3, from the crates [sha3] and [blake3]. *)
Class Hashes := {
  keccak256 : list Z → ShellHash;
  blake3_hash : list Z → ShellHash;
}.

Inductive SignatureType :=
| Dilithium3
| MlDsa65
| SphincsSha2256f.
#[global] Instance SignatureType_eq_dec : EqDecision SignatureType.
Proof. solve_decision. Defined.

Record PQSignature := MkPQSignature {
  sig_type : SignatureType;
  sig_data : list Z;
}.
#[global] Instance PQSignature_eq_dec : EqDecision PQSignature.
Proof. solve_decision. Defined.

Definition sig_is_empty (s : PQSignature) : bool :=
  match sig_data s with [] => true | _ => false end.

Inductive CryptoError :=
| VerificationFailed
| InvalidPublicKeyLength (expected got : Z)
| InvalidSignatureLength (expected got : Z)
| InvalidSecretKeyLength (expected got : Z)
| SigningFailed
| KeyGenerationFailed
| UnsupportedSignatureType (t : SignatureType)
| BatchVerificationFailed (total failed : Z)
| InvalidInput.

(** The traits [Verifier] and [Signer]; implementations wrap third-party
    post-quantum crates, so clients take one as an argument. *)
Record Verifier := {
  verify : list Z → list Z → PQSignature → result bool CryptoError;
  verifier_sig_type : SignatureType;
}.
Record Signer := {
  sign : list Z → result PQSignature CryptoError;
  public_key : list Z;
  signer_sig_type : SignatureType;
}.

(** What signing promises to verification: a signature a signer returns is
    accepted for the same message under its public key. *)
Definition signer_verifies (s : Signer) (v : Verifier) : Prop :=
  ∀ msg sig, sign s msg = Ok sig → verify v (public_key s) msg sig = Ok true.

(** A toy signature scheme, for evaluation: the signature is the message. *)
Definition toy_signer : Signer :=
  {| sign msg := Ok (MkPQSignature Dilithium3 msg); public_key := [1]; signer_sig_type := Dilithium3 |}.
Definition toy_verifier : Verifier :=
  {| verify pk msg sig := Ok (bool_decide (sig_data sig = msg)); verifier_sig_type := Dilithium3 |}.

Lemma toy_signer_verifies : signer_verifies toy_signer toy_verifier.
Proof. intros msg sig [= <-]. by rw /= bool_decide_true. Qed.
