(* ===== verification/Block.v ===== *)
(** * Blocks

    The block header of crates/core/src/block.rs and its canonical fixed-width
    encoding, whose BLAKE3 digest is the block hash. *)

From S2P Require Import Prelude Primitives.

Record BlockHeader := {
  parent_hash : ShellHash;
  state_root : ShellHash;
  transactions_root : ShellHash;
  receipts_root : ShellHash;
  logs_bloom : list Z;
  number : Z;
  gas_limit : Z;
  gas_used : Z;
  timestamp : Z;
  extra_data : list Z;
  proposer : Address;
  sig_aggregate_proof : option (list Z);
  base_fee_per_gas : Z;
  withdrawals_root : ShellHash;
  parent_beacon_block_root : ShellHash;
  blob_gas_used : Z;
  excess_blob_gas : Z;
  witness_root : option ShellHash;
}.

(** [b"SHELL_BLOCK_HDR\0"] *)
Definition BLOCK_HASH_DOMAIN : list Z :=
  [83; 72; 69; 76; 76; 95; 66; 76; 79; 67; 75; 95; 72; 68; 82; 0].

Section block.
Context `{Hashes}.

Definition canonical_encode (h : BlockHeader) : list Z :=
  BLOCK_HASH_DOMAIN
  ++ as_bytes (parent_hash h)
  ++ as_bytes (state_root h)
  ++ as_bytes (transactions_root h)
  ++ as_bytes (receipts_root h)
  ++ as_bytes (blake3_hash (logs_bloom h))
  ++ le_bytes 8 (number h)
  ++ le_bytes 8 (gas_limit h)
  ++ le_bytes 8 (gas_used h)
  ++ le_bytes 8 (timestamp h)
  ++ as_bytes (blake3_hash (extra_data h))
  ++ as_bytes (proposer h)
  ++ as_bytes (match sig_aggregate_proof h with
               | Some p => blake3_hash p
               | None => ZERO
               end)
  ++ le_bytes 8 (base_fee_per_gas h)
  ++ as_bytes (withdrawals_root h)
  ++ as_bytes (parent_beacon_block_root h)
  ++ le_bytes 8 (blob_gas_used h)
  ++ le_bytes 8 (excess_blob_gas h)
  ++ as_bytes (unwrap_or ZERO (witness_root h)).

Definition header_hash (h : BlockHeader) : ShellHash :=
  blake3_hash (canonical_encode h).

Definition is_genesis (h : BlockHeader) : bool :=
  (number h =? 0) && bool_decide (parent_hash h = ZERO).
End block.

(** The consensus layer's view of a block: its header and the proposer seal
    (the transaction lists are opaque to consensus). *)
Record Block := {
  header : BlockHeader;
  proposer_seal : option PQSignature;
}.

Definition set_proposer_seal (b : Block) (s : PQSignature) : Block :=
  {| header := header b; proposer_seal := Some s |}.

Definition header_ok (h : BlockHeader) : Prop :=
  in_u64 (number h) ∧ in_u64 (gas_limit h) ∧ in_u64 (gas_used h) ∧
  in_u64 (timestamp h) ∧ in_u64 (base_fee_per_gas h) ∧
  in_u64 (blob_gas_used h) ∧ in_u64 (excess_blob_gas h).

(** ** Properties *)

(** The digest of the optional aggregate proof that enters the encoding. *)
Definition proof_digest `{Hashes} (h : BlockHeader) : ShellHash :=
  match sig_aggregate_proof h with Some p => blake3_hash p | None => ZERO end.

(** The block hash commits to every header field.  The hashed encoding is
    424 bytes for every header, and two headers with the same encoding agree on
    every fixed-width field and on the digest of every variable-length one. *)
Theorem canonical_encode_binds `{Hashes} h1 h2 :
  header_ok h1 → header_ok h2 →
  length (canonical_encode h1) = 424%nat ∧
  (canonical_encode h1 = canonical_encode h2 →
   (parent_hash h1, state_root h1, transactions_root h1, receipts_root h1)
     = (parent_hash h2, state_root h2, transactions_root h2, receipts_root h2) ∧
   (number h1, gas_limit h1, gas_used h1, timestamp h1, proposer h1, base_fee_per_gas h1)
     = (number h2, gas_limit h2, gas_used h2, timestamp h2, proposer h2, base_fee_per_gas h2) ∧
   (withdrawals_root h1, parent_beacon_block_root h1, blob_gas_used h1, excess_blob_gas h1)
     = (withdrawals_root h2, parent_beacon_block_root h2, blob_gas_used h2, excess_blob_gas h2) ∧
   unwrap_or ZERO (witness_root h1) = unwrap_or ZERO (witness_root h2) ∧
   blake3_hash (logs_bloom h1) = blake3_hash (logs_bloom h2) ∧
   blake3_hash (extra_data h1) = blake3_hash (extra_data h2) ∧
   proof_digest h1 = proof_digest h2).
Proof.
  intros (? & ? & ? & ? & ? & ? & ?) (? & ? & ? & ? & ? & ? & ?).
  rw /canonical_encode /proof_digest. split; [by autorewrite with bytes|].
  intros E. peel_bytes E.
  split_and!; repeat lazymatch goal with |- (_, _) = (_, _) => apply f_equal2 end;
    eauto with bytes.
Qed.

Definition sample_header (n ts : Z) (p : Address) : BlockHeader :=
  {| parent_hash := ZERO; state_root := ZERO; transactions_root := ZERO; receipts_root := ZERO;
     logs_bloom := []; number := n; gas_limit := 30000000; gas_used := 21000; timestamp := ts;
     extra_data := []; proposer := p; sig_aggregate_proof := None; base_fee_per_gas := 7;
     withdrawals_root := ZERO; parent_beacon_block_root := ZERO; blob_gas_used := 0;
     excess_blob_gas := 0; witness_root := None |}.

(** A toy instance of the hash functions, for evaluation. *)
Definition toy_hash (l : list Z) : ShellHash :=
  b256_of_Z (foldl (λ acc b, acc * 257 + b + 1) 0 l).
#[local] Instance toy_hashes : Hashes := {| keccak256 := toy_hash; blake3_hash := toy_hash |}.

Lemma canonical_encode_binds_witness :
  canonical_encode (sample_header 1 10 ZERO) ≠ canonical_encode (sample_header 2 10 ZERO).
Proof.
  intros E. assert (Hok : ∀ n, in_u64 n → header_ok (sample_header n 10 ZERO)).
  { intros n Hn. by split_and!. }
  destruct (canonical_encode_binds (sample_header 1 10 ZERO) (sample_header 2 10 ZERO))
    as [_ Hb]; [by apply Hok|by apply Hok|].
  by destruct (Hb E) as (_ & [= _] & _).
Defined.
