(* ===== verification/Validators.v ===== *)
(** * Validator set

    crates/consensus/src/validator.rs: validator records, the lifecycle
    Pending → Active → Exiting → Exited / Slashed, the FIFO activation queue and
    weighted round-robin proposer selection.  The file also holds the error type
    of the consensus crate (error.rs); the human-readable parts of its messages
    are kept as the fixed text that tells the cases apart. *)

From S2P Require Import Prelude Primitives.

Inductive ConsensusError :=
| InvalidProposer (expected got : Address)
| InvalidSignature
| InvalidTimestamp (why : string)
| UnknownProposer (a : Address)
| NotProposer (slot : Z)
| SealingFailed (e : CryptoError)
| Internal (why : string)
| Equivocation (validator : Address) (conflicting_hash : ShellHash) (height : Z)
| UnknownBlock (h : ShellHash)
| ReorgPastFinalized (n : Z)
| SigningError (e : CryptoError)
| NoSigner
| AlreadyValidator (a : Address)
| LastValidator
| InvalidLifecycleTransition (why : string).

Inductive ValidatorStatus :=
| Pending
| Active
| Exiting (exit_epoch : Z)
| Exited
| Slashed.
#[global] Instance ValidatorStatus_eq_dec : EqDecision ValidatorStatus.
Proof. solve_decision. Defined.

Definition status_is_active (s : ValidatorStatus) : bool :=
  match s with Active => true | _ => false end.

Record ValidatorInfo := MkValidatorInfo {
  address : Address;
  weight : Z;
  status : ValidatorStatus;
  activation_epoch : option Z;
  exit_epoch : option Z;
}.

Definition validator_new (a : Address) : ValidatorInfo :=
  MkValidatorInfo a 1 Active None None.
Definition validator_pending (a : Address) : ValidatorInfo :=
  MkValidatorInfo a 1 Pending None None.

Record ValidatorSetConfig := MkValidatorSetConfig {
  max_activations_per_epoch : Z;
  exit_cooldown_epochs : Z;
}.
Definition ValidatorSetConfig_default : ValidatorSetConfig := MkValidatorSetConfig 5 2.

Record ValidatorSet := MkValidatorSet {
  validators : gmap Address ValidatorInfo;
  order : list Address;
  activation_queue : list Address;
  vs_config : ValidatorSetConfig;
}.

Definition set_validators (s : ValidatorSet) (m : gmap Address ValidatorInfo) : ValidatorSet :=
  MkValidatorSet m (order s) (activation_queue s) (vs_config s).

Definition validator_set_new (c : ValidatorSetConfig) : ValidatorSet :=
  MkValidatorSet ∅ [] [] c.

Definition genesis_info (a : Address) (w : Z) : ValidatorInfo :=
  MkValidatorInfo a (clamp 1 MAX_VALIDATOR_WEIGHT w) Active (Some 0) None.

Definition from_genesis (entries : list (Address * Z)) (c : ValidatorSetConfig) : ValidatorSet :=
  foldl (λ s '(a, w),
    MkValidatorSet (<[a := genesis_info a w]> (validators s))
      (order s ++ [a]) (activation_queue s) (vs_config s))
    (validator_set_new c) entries.

(** ** Queries *)

Definition get_active (s : ValidatorSet) (a : Address) : option ValidatorInfo :=
  v ← validators s !! a; if status_is_active (status v) then Some v else None.

Definition active_validators (s : ValidatorSet) : list ValidatorInfo :=
  omap (get_active s) (order s).

Definition active_count (s : ValidatorSet) : nat := length (active_validators s).

Definition get (s : ValidatorSet) (a : Address) : option ValidatorInfo := validators s !! a.

Definition is_active (s : ValidatorSet) (a : Address) : bool :=
  match validators s !! a with Some v => status_is_active (status v) | None => false end.

(** ** Weighted proposer selection *)

(** [try_fold(0, checked_add)] over the weights. *)
Fixpoint try_total (total : Z) (l : list ValidatorInfo) : option Z :=
  match l with
  | [] => Some total
  | v :: l' => t ← checked_add total (weight v); try_total t l'
  end.

Fixpoint proposer_walk (slot cumulative : Z) (last : option Address)
    (l : list ValidatorInfo) : option Address :=
  match l with
  | [] => last
  | v :: l' =>
      c ← checked_add cumulative (weight v);
      if slot <? c then Some (address v) else proposer_walk slot c (Some (address v)) l'
  end.

Definition weighted_proposer (s : ValidatorSet) (block_number : Z) : option Address :=
  let active := active_validators s in
  total ← try_total 0 active;
  if (total =? 0) && match active with [] => true | _ => false end then None
  else if total =? 0 then
    idx ← round_robin_index block_number (length active);
    v ← active !! idx; Some (address v)
  else
    proposer_walk (unwrap_or 0 (checked_rem block_number total)) 0 None active.

(** ** Lifecycle mutations: the error, or the new set *)

Definition enqueue (s : ValidatorSet) (a : Address) : result ValidatorSet ConsensusError :=
  match validators s !! a with
  | Some _ => Err (AlreadyValidator a)
  | None =>
      Ok (MkValidatorSet (<[a := validator_pending a]> (validators s))
            (order s ++ [a]) (activation_queue s ++ [a]) (vs_config s))
  end.

Definition set_weight (s : ValidatorSet) (a : Address) (w : Z) : result ValidatorSet ConsensusError :=
  let? info := ok_or (validators s !! a) (UnknownProposer a) in
  if negb (status_is_active (status info)) then
    Err (InvalidLifecycleTransition "not active")
  else if (w =? 0) || (MAX_VALIDATOR_WEIGHT <? w) then
    Err (InvalidLifecycleTransition "validator weight must be between 1 and the maximum")
  else
    Ok (set_validators s (<[a := MkValidatorInfo (address info) w (status info)
                              (activation_epoch info) (exit_epoch info)]> (validators s))).

Definition activate_info (epoch : Z) (info : ValidatorInfo) : ValidatorInfo :=
  MkValidatorInfo (address info) (weight info) Active (Some epoch) (exit_epoch info).

(** The queue is consumed from the front until the quota is used up or it is
    empty; entries that are no longer pending are dropped without using quota. *)
Fixpoint activate_loop (max_act activated epoch : Z) (q : list Address)
    (m : gmap Address ValidatorInfo) : list Address * gmap Address ValidatorInfo :=
  if activated <? max_act then
    match q with
    | [] => ([], m)
    | a :: q' =>
        match m !! a with
        | Some info =>
            if decide (status info = Pending) then
              activate_loop max_act (activated + 1) epoch q'
                (<[a := activate_info epoch info]> m)
            else activate_loop max_act activated epoch q' m
        | None => activate_loop max_act activated epoch q' m
        end
    end
  else (q, m).

Definition process_activations (s : ValidatorSet) (epoch : Z) : ValidatorSet :=
  let '(q, m) := activate_loop (max_activations_per_epoch (vs_config s)) 0 epoch
                   (activation_queue s) (validators s) in
  MkValidatorSet m (order s) q (vs_config s).

Definition finish_exit (epoch : Z) (info : ValidatorInfo) : ValidatorInfo :=
  match status info with
  | Exiting e =>
      if e <=? epoch then
        MkValidatorInfo (address info) (weight info) Exited (activation_epoch info) (Some epoch)
      else info
  | _ => info
  end.

Definition process_exits (s : ValidatorSet) (epoch : Z) : ValidatorSet :=
  set_validators s (finish_exit epoch <$> validators s).

Definition begin_exit (s : ValidatorSet) (a : Address) (current_epoch : Z) :
    result ValidatorSet ConsensusError :=
  if (active_count s <=? 1)%nat then Err LastValidator
  else
    let? info := ok_or (validators s !! a) (UnknownProposer a) in
    if negb (status_is_active (status info)) then
      Err (InvalidLifecycleTransition "not active")
    else
      let e := sat_add current_epoch (exit_cooldown_epochs (vs_config s)) in
      Ok (set_validators s (<[a := MkValidatorInfo (address info) (weight info) (Exiting e)
                                (activation_epoch info) (exit_epoch info)]> (validators s))).

Definition slash (s : ValidatorSet) (a : Address) (current_epoch : Z) :
    result ValidatorSet ConsensusError :=
  let? info := ok_or (validators s !! a) (UnknownProposer a) in
  Ok (set_validators s (<[a := MkValidatorInfo (address info) (weight info) Slashed
                            (activation_epoch info) (Some current_epoch)]> (validators s))).

(** ** Lifecycle runs

    The mutations as commands; a failed command leaves the set unchanged. *)

Inductive vs_op :=
| OpEnqueue (a : Address)
| OpSetWeight (a : Address) (w : Z)
| OpActivations (epoch : Z)
| OpExits (epoch : Z)
| OpBeginExit (a : Address) (epoch : Z)
| OpSlash (a : Address) (epoch : Z).

Definition or_same (s : ValidatorSet) (r : result ValidatorSet ConsensusError) : ValidatorSet :=
  match r with Ok s' => s' | Err _ => s end.

Definition vs_run (s : ValidatorSet) (op : vs_op) : ValidatorSet :=
  match op with
  | OpEnqueue a => or_same s (enqueue s a)
  | OpSetWeight a w => or_same s (set_weight s a w)
  | OpActivations e => process_activations s e
  | OpExits e => process_exits s e
  | OpBeginExit a e => or_same s (begin_exit s a e)
  | OpSlash a e => or_same s (slash s a e)
  end.

(** A weight argument is a [u64]. *)
Definition vs_op_ok (op : vs_op) : Prop :=
  match op with OpSetWeight _ w => in_u64 w | _ => True end.

(** ** Specification side *)

Record vs_wf (s : ValidatorSet) : Prop := {
  wf_order_nodup : NoDup (order s);
  wf_order_dom : ∀ a, a ∈ order s ↔ is_Some (validators s !! a);
  wf_info : ∀ a v, validators s !! a = Some v →
    address v = a ∧ 1 <= weight v <= MAX_VALIDATOR_WEIGHT;
  wf_queue_nodup : NoDup (activation_queue s);
  wf_queue_dom : ∀ a, a ∈ activation_queue s → is_Some (validators s !! a);
  wf_pending : ∀ a v, validators s !! a = Some v → status v = Pending →
    a ∈ activation_queue s;
}.

(** Every slot of one full rotation, in order: each active validator repeated
    as many times as its weight. *)
Definition schedule (l : list ValidatorInfo) : list Address :=
  l ≫= λ v, replicate (Z.to_nat (weight v)) (address v).
Arguments schedule : simpl never.

Definition total_weight (s : ValidatorSet) : Z := sumZ weight (active_validators s).

(** Position in the lifecycle; it never decreases. *)
Definition lifecycle_rank (st : ValidatorStatus) : nat :=
  match st with
  | Pending => 0 | Active => 1 | Exiting _ => 2 | Exited => 3 | Slashed => 4
  end.

(** ** Invariant *)

Lemma elem_of_active s v :
  v ∈ active_validators s ↔
  ∃ a, a ∈ order s ∧ validators s !! a = Some v ∧ status v = Active.
Proof.
  rw /active_validators list_elem_of_omap /get_active. split.
  - intros (a & Ha & Hv). destruct (validators s !! a) as [v'|] eqn:E; [|done].
    simpl in Hv. destruct (status v') eqn:Es; simplify_eq/=. eauto.
  - intros (a & Ha & E & Es). exists a. by rw E /= Es.
Qed.

Lemma vs_wf_update s a v v' :
  vs_wf s → validators s !! a = Some v → address v' = a →
  1 <= weight v' <= MAX_VALIDATOR_WEIGHT →
  (status v' = Pending → status v = Pending) →
  vs_wf (set_validators s (<[a := v']> (validators s))).
Proof.
  intros Hwf Ha Haddr Hw Hp. destruct Hwf as [H1 H2 H3 H4 H5 H6].
  split; simpl; [done| | |done| |].
  - intros b. rw H2. destruct (decide (a = b)) as [->|]; simplify_map_eq; naive_solver.
  - intros b u. destruct (decide (a = b)) as [->|]; simplify_map_eq; naive_solver.
  - intros b Hb. destruct (decide (a = b)) as [->|]; simplify_map_eq; naive_solver.
  - intros b u. destruct (decide (a = b)) as [->|]; simplify_map_eq; naive_solver.
Qed.

Lemma from_genesis_snoc es a w c :
  from_genesis (es ++ [(a, w)]) c =
  let s := from_genesis es c in
  MkValidatorSet (<[a := genesis_info a w]> (validators s)) (order s ++ [a])
    (activation_queue s) (vs_config s).
Proof. by rw /from_genesis foldl_app. Qed.

Lemma from_genesis_order es c :
  order (from_genesis es c) = es.*1 ∧ activation_queue (from_genesis es c) = []
  ∧ vs_config (from_genesis es c) = c.
Proof.
  induction es as [|[a w] es IH] using rev_ind; [done|].
  rw from_genesis_snoc fmap_app /=. naive_solver congruence.
Qed.

Lemma clamp_range lo hi x : lo <= hi → lo <= clamp lo hi x <= hi.
Proof. int_lia. Qed.

Lemma from_genesis_lookup es c a :
  NoDup (es.*1) →
  validators (from_genesis es c) !! a =
  (λ w, genesis_info a w) <$> (list_to_map es : gmap Address Z) !! a.
Proof.
  induction es as [|[b w] es IH] using rev_ind; intros Hnd; [done|].
  rw from_genesis_snoc /=. rw fmap_app /= in Hnd.
  apply NoDup_app in Hnd as (Hnd & Hdis & _).
  rw list_to_map_app /=. destruct (decide (b = a)) as [->|Hne].
  - rw lookup_insert_eq lookup_union_r.
    + apply not_elem_of_list_to_map_1. set_solver.
    + by rw lookup_insert_eq.
  - rw lookup_insert_ne // IH //. f_equal.
    destruct (list_to_map es !! a) eqn:E.
    + symmetry. by apply lookup_union_Some_l.
    + rw lookup_union_r //. by rw lookup_insert_ne.
Qed.

Lemma from_genesis_wf es c : NoDup (es.*1) → vs_wf (from_genesis es c).
Proof.
  intros Hnd. destruct (from_genesis_order es c) as (Ho & Hq & _).
  split; rw ?Ho ?Hq.
  - done.
  - intros a. rw from_genesis_lookup // fmap_is_Some. split.
    + intros ([b w] & -> & Hin)%list_elem_of_fmap.
      exists w. by apply elem_of_list_to_map_1.
    + intros [w Hw]. apply elem_of_list_to_map_2 in Hw.
      by apply (list_elem_of_fmap_2 fst) in Hw.
  - intros a v. rw from_genesis_lookup //. intros (w & _ & ->)%fmap_Some_1.
    split; [done|]. by apply clamp_range.
  - constructor.
  - set_solver.
  - intros a v. rw from_genesis_lookup //. by intros (w & _ & ->)%fmap_Some_1.
Qed.

Lemma enqueue_wf s a s' : vs_wf s → enqueue s a = Ok s' → vs_wf s'.
Proof.
  intros [H1 H2 H3 H4 H5 H6]. rw /enqueue. destruct (validators s !! a) eqn:E; [done|].
  assert (Ha : a ∉ order s) by (rw H2 E; by intros []).
  intros [= <-]. split; simpl.
  - apply NoDup_app. split_and!; [done| |by apply NoDup_singleton]. set_solver.
  - intros b. rw elem_of_app list_elem_of_singleton H2.
    destruct (decide (a = b)) as [->|]; simplify_map_eq; naive_solver.
  - intros b v. destruct (decide (a = b)) as [->|]; simplify_map_eq; [|naive_solver].
    intros [= <-]. split; [done|]. rw /MAX_VALIDATOR_WEIGHT /=. lia.
  - apply NoDup_app. split_and!; [done| |by apply NoDup_singleton].
    intros b Hb ->%list_elem_of_singleton. apply H5 in Hb. rw E in Hb. by destruct Hb.
  - intros b. rw elem_of_app list_elem_of_singleton.
    destruct (decide (a = b)) as [->|]; simplify_map_eq; naive_solver.
  - intros b v. rw elem_of_app list_elem_of_singleton.
    destruct (decide (a = b)) as [->|]; simplify_map_eq; naive_solver.
Qed.

Lemma set_weight_wf s a w s' :
  vs_wf s → 0 <= w → set_weight s a w = Ok s' → vs_wf s'.
Proof.
  intros Hwf Hw. rw /set_weight. destruct (validators s !! a) as [v|] eqn:E; [|done].
  simpl. repeat case_match; try done. intros [= <-].
  destruct (wf_info s Hwf a v E) as [Haddr _].
  apply orb_false_iff in H0 as [?%Z.eqb_neq ?%Z.ltb_ge].
  eapply (vs_wf_update s a v); try done. simpl. lia.
Qed.

Lemma process_exits_wf s e : vs_wf s → vs_wf (process_exits s e).
Proof.
  intros [H1 H2 H3 H4 H5 H6].
  assert (Hf : ∀ v, address (finish_exit e v) = address v ∧ weight (finish_exit e v) = weight v
    ∧ (status (finish_exit e v) = Pending → status v = Pending)).
  { intros v. rw /finish_exit. repeat case_match; split_and!; try done; simpl; congruence. }
  split; simpl; [done| | |done| |].
  - intros a. rw H2 lookup_fmap fmap_is_Some. done.
  - intros a v. rw lookup_fmap. intros (u & Hu & ->)%fmap_Some_1.
    destruct (Hf u) as (-> & -> & _). by apply H3.
  - intros a Ha. rw lookup_fmap fmap_is_Some. by apply H5.
  - intros a v. rw lookup_fmap. intros (u & Hu & ->)%fmap_Some_1 Hp.
    eapply H6; [done|]. by apply Hf.
Qed.

Lemma begin_exit_wf s a e s' : vs_wf s → begin_exit s a e = Ok s' → vs_wf s'.
Proof.
  intros Hwf. rw /begin_exit. case_match; [done|].
  destruct (validators s !! a) as [v|] eqn:E; [|done]. simpl.
  case_match; [done|]. intros [= <-]. destruct (wf_info s Hwf a v E).
  by eapply vs_wf_update.
Qed.

Lemma slash_wf s a e s' : vs_wf s → slash s a e = Ok s' → vs_wf s'.
Proof.
  intros Hwf. rw /slash. destruct (validators s !! a) as [v|] eqn:E; [|done].
  simpl. intros [= <-]. destruct (wf_info s Hwf a v E). by eapply vs_wf_update.
Qed.

(** What the activation loop does to the map: the pending entries among the
    consumed prefix become active, everything else is unchanged. *)
Definition activate_pending (e : Z) (v : ValidatorInfo) : ValidatorInfo :=
  if decide (status v = Pending) then activate_info e v else v.

Lemma activate_loop_spec mx n e q m q' m' :
  NoDup q → activate_loop mx n e q m = (q', m') →
  ∃ used, q = used ++ q' ∧
  ∀ a, m' !! a = if decide (a ∈ used) then activate_pending e <$> m !! a else m !! a.
Proof.
  revert n m. induction q as [|a q IH]; intros n m Hnd; cbn [activate_loop].
  { intros Hrun. assert (q' = [] ∧ m' = m) as [-> ->] by (case_match; naive_solver).
    exists []. split; [done|]. intros a. case_decide; set_solver. }
  apply NoDup_cons in Hnd as [Ha Hnd].
  case_match; last first.
  { intros [= <- <-]. exists []. split; [done|]. intros b. case_decide; set_solver. }
  assert (Hrec : ∀ n m1, (∀ b, b ≠ a → m1 !! b = m !! b) →
    m1 !! a = activate_pending e <$> m !! a →
    activate_loop mx n e q m1 = (q', m') →
    ∃ used, a :: q = used ++ q' ∧
    ∀ a, m' !! a = if decide (a ∈ used) then activate_pending e <$> m !! a else m !! a).
  { intros n1 m1 Hm1 Hma Hrun. apply IH in Hrun as (used & -> & Hl); [|done].
    exists (a :: used). split; [done|]. intros b. rw Hl.
    destruct (decide (b = a)) as [->|Hba]; [|rw (Hm1 b) //];
      repeat case_decide; try done; set_solver. }
  destruct (m !! a) as [v|] eqn:E; [case_decide as Hp|].
  - apply Hrec; [intros; by rw lookup_insert_ne|].
    by rw lookup_insert_eq /= /activate_pending decide_True.
  - apply Hrec; [done|]. by rw E /= /activate_pending decide_False.
  - apply Hrec; [done|]. by rw E.
Qed.

Lemma process_activations_wf s e : vs_wf s → vs_wf (process_activations s e).
Proof.
  intros [H1 H2 H3 H4 H5 H6]. rw /process_activations.
  destruct (activate_loop _ _ _ _ _) as [q m] eqn:Hrun.
  apply activate_loop_spec in Hrun as (used & Hq & Hm); [|done].
  rw Hq in H4. apply NoDup_app in H4 as (_ & Hdis & Hnd).
  assert (Hs : ∀ a, is_Some (m !! a) ↔ is_Some (validators s !! a)).
  { intros a. rw Hm. case_decide; [|done]. by rw fmap_is_Some. }
  split; simpl; [done| | |done| |].
  - intros a. by rw Hs.
  - intros a v. rw Hm. case_decide; [|by apply H3].
    intros (u & Hu & ->)%fmap_Some_1. rw /activate_pending. case_decide; simpl; by eapply H3.
  - intros a Ha. rw Hs. apply H5. rw Hq. set_solver.
  - intros a v. rw Hm. case_decide as Ha.
    + intros (u & Hu & ->)%fmap_Some_1. rw /activate_pending. by case_decide; intros ?.
    + intros Hv Hp. eapply H6 in Hp; [|done]. rw Hq in Hp. set_solver.
Qed.

Lemma vs_run_wf s op : vs_wf s → vs_op_ok op → vs_wf (vs_run s op).
Proof.
  intros Hwf Hop. destruct op; simpl;
    try (match goal with |- vs_wf (or_same _ ?r) => destruct r eqn:E; simpl; [|done] end).
  - by eapply enqueue_wf.
  - eapply set_weight_wf; [done| |done]. by destruct Hop.
  - by apply process_activations_wf.
  - by apply process_exits_wf.
  - by eapply begin_exit_wf.
  - by eapply slash_wf.
Qed.

(** ** Proposer selection against the schedule *)

Lemma try_total_spec t l :
  (∀ v, v ∈ l → 0 <= weight v) → 0 <= t → t + sumZ weight l <= u64_max →
  try_total t l = Some (t + sumZ weight l).
Proof.
  revert t. induction l as [|v l IH]; intros t Hw Ht Hsum; simpl.
  - f_equal. rw sumZ_nil. lia.
  - rw sumZ_cons in Hsum *. assert (0 <= weight v) by (apply Hw; set_solver).
    assert (0 <= sumZ weight l) by (apply sumZ_nonneg; set_solver).
    rw /checked_add. rw (proj2 (Z.leb_le _ _)); [lia|]. simpl.
    rw IH; [set_solver|lia..|]. f_equal. lia.
Qed.

Lemma schedule_cons v l :
  schedule (v :: l) = replicate (Z.to_nat (weight v)) (address v) ++ schedule l.
Proof. done. Qed.

Lemma length_schedule l :
  (∀ v, v ∈ l → 0 <= weight v) → Z.of_nat (length (schedule l)) = sumZ weight l.
Proof.
  induction l as [|v l IH]; intros Hw; [done|].
  rw schedule_cons length_app length_replicate sumZ_cons.
  assert (0 <= weight v) by (apply Hw; set_solver).
  specialize (IH ltac:(set_solver)). lia.
Qed.

Lemma proposer_walk_spec slot c last l :
  (∀ v, v ∈ l → 1 <= weight v) → 0 <= c → c <= slot < c + sumZ weight l →
  c + sumZ weight l <= u64_max →
  proposer_walk slot c last l = schedule l !! Z.to_nat (slot - c).
Proof.
  revert c last. induction l as [|v l IH]; intros c last Hw Hc Hs Hm.
  { rw sumZ_nil in Hs. lia. }
  rw sumZ_cons in Hs Hm. assert (1 <= weight v) by (apply Hw; set_solver).
  assert (0 <= sumZ weight l).
  { apply sumZ_nonneg. intros u Hu. pose proof (Hw u ltac:(set_solver)). lia. }
  cbn [proposer_walk]. rw /checked_add (proj2 (Z.leb_le _ _)); [lia|]. simpl.
  rw schedule_cons. case_match eqn:Hlt.
  - apply Z.ltb_lt in Hlt. rw lookup_app_l; [rw length_replicate; lia|].
    by rw lookup_replicate_2; [lia|].
  - apply Z.ltb_ge in Hlt. rw IH; [set_solver|lia..|].
    rw lookup_app_r; [rw length_replicate; lia|]. rw length_replicate.
    f_equal. lia.
Qed.

Lemma active_weight s v :
  vs_wf s → v ∈ active_validators s → 1 <= weight v <= MAX_VALIDATOR_WEIGHT.
Proof. intros Hwf (a & _ & Hv & _)%elem_of_active. by apply (wf_info s Hwf) in Hv as []. Qed.

Lemma active_address s v :
  vs_wf s → v ∈ active_validators s → get_active s (address v) = Some v.
Proof.
  intros Hwf (a & _ & Hv & Hs)%elem_of_active. apply (wf_info s Hwf) in Hv as Hi.
  destruct Hi as [-> _]. by rw /get_active Hv /= Hs.
Qed.

(** The number of validators a set can hold without the weight total leaving
    [u64]: about 18 million million. *)
Definition small_set (s : ValidatorSet) : Prop :=
  Z.of_nat (length (order s)) * MAX_VALIDATOR_WEIGHT <= u64_max.

Lemma length_omap_le {A B} (f : A → option B) (l : list A) :
  (length (omap f l) <= length l)%nat.
Proof. induction l as [|x l IH]; cbn in *; [done|]. case_match; cbn; lia. Qed.

Lemma total_weight_bounds s :
  vs_wf s → small_set s →
  total_weight s <= u64_max ∧ (active_validators s ≠ [] → 0 < total_weight s).
Proof.
  intros Hwf Hsmall. pose proof (λ v Hv, active_weight s v Hwf Hv) as Hw.
  rw /total_weight /small_set in Hsmall *.
  pose proof (length_omap_le (get_active s) (order s)) as Hlen.
  rw -/(active_validators s) in Hlen. split.
  - pose proof (sumZ_le_len weight (active_validators s) MAX_VALIDATOR_WEIGHT
      (λ v Hv, proj2 (Hw v Hv))). unfold MAX_VALIDATOR_WEIGHT in *. lia.
  - destruct (active_validators s) as [|v l]; [done|]. intros _. rw sumZ_cons.
    assert (0 <= sumZ weight l) by (apply sumZ_nonneg; intros u Hu; pose proof (Hw u ltac:(set_solver)); lia).
    pose proof (Hw v ltac:(set_solver)). lia.
Qed.

Lemma weighted_proposer_eq s n :
  vs_wf s → small_set s → active_validators s ≠ [] → 0 <= n →
  weighted_proposer s n =
  schedule (active_validators s) !! Z.to_nat (n mod total_weight s).
Proof.
  intros Hwf Hsmall Hne Hn. destruct (total_weight_bounds s Hwf Hsmall) as [Hmax Hpos].
  specialize (Hpos Hne). pose proof (λ v Hv, active_weight s v Hwf Hv) as Hw.
  rw /weighted_proposer try_total_spec; [|lia|done|]; [intros v ?%Hw; lia|].
  rw Z.add_0_l -/(total_weight s). cbn [mbind option_bind].
  rw (proj2 (Z.eqb_neq (total_weight s) 0)); [lia|]. cbn [andb].
  rw /checked_rem (proj2 (Z.eqb_neq (total_weight s) 0)); [lia|]. cbn [unwrap_or].
  pose proof (Z.mod_pos_bound n (total_weight s) Hpos).
  rw proposer_walk_spec; [by intros v ?%Hw; lia|lia|rw -/(total_weight s); lia|done|].
  by rw Z.sub_0_r.
Qed.

(** [weighted_proposer] answers exactly when some validator is active, and with
    an active validator. *)
Lemma weighted_proposer_some s n :
  vs_wf s → small_set s → active_validators s ≠ [] → 0 <= n →
  ∃ v, v ∈ active_validators s ∧ weighted_proposer s n = Some (address v).
Proof.
  intros Hwf Hsmall Hne Hn. rw weighted_proposer_eq //.
  destruct (total_weight_bounds s Hwf Hsmall) as [_ Hpos]. specialize (Hpos Hne).
  pose proof (Z.mod_pos_bound n (total_weight s) Hpos).
  destruct (schedule (active_validators s) !! Z.to_nat (n mod total_weight s)) as [a|] eqn:E.
  - apply list_elem_of_lookup_2 in E. rw /schedule list_elem_of_bind in E.
    destruct E as (v & [-> _]%elem_of_replicate & Hv). by exists v.
  - apply lookup_ge_None in E. exfalso.
    pose proof (length_schedule (active_validators s)) as Hl.
    specialize (Hl ltac:(intros v ?%(active_weight s v Hwf); lia)).
    rw -/(total_weight s) in Hl. lia.
Qed.

Lemma active_addresses s (l : list Address) :
  vs_wf s → address <$> omap (get_active s) l = filter (λ a, is_active s a = true) l.
Proof.
  intros Hwf. induction l as [|a l IH]; [done|].
  rw filter_cons -IH /= {1}/get_active /is_active.
  destruct (validators s !! a) as [v|] eqn:Ev; simpl; [|done].
  apply (wf_info s Hwf) in Ev as [Hv _]. destruct (status v); simpl; try done. by rw Hv.
Qed.

Lemma schedule_count (l : list ValidatorInfo) (v : ValidatorInfo) :
  NoDup (address <$> l) → v ∈ l →
  length (filter (λ a, a = address v) (schedule l)) = Z.to_nat (weight v).
Proof. apply (bind_replicate_count address weight). Qed.

(** States reached from a genesis (or empty) set by lifecycle commands. *)
Inductive vs_reachable : ValidatorSet → Prop :=
| vs_reach_genesis es c : NoDup (es.*1) → vs_reachable (from_genesis es c)
| vs_reach_step s op : vs_reachable s → vs_op_ok op → vs_reachable (vs_run s op).

Lemma vs_reachable_wf s : vs_reachable s → vs_wf s.
Proof. induction 1; [by apply from_genesis_wf|by apply vs_run_wf]. Qed.

Lemma active_nodup s : vs_wf s → NoDup (address <$> active_validators s).
Proof.
  intros Hwf. rw /active_validators active_addresses //.
  apply NoDup_filter, (wf_order_nodup s Hwf).
Qed.

Lemma active_nonempty s a : vs_wf s → is_active s a = true → active_validators s ≠ [].
Proof.
  intros Hwf Ha Hnil. assert (a ∈ filter (λ a, is_active s a = true) (order s)) as Hin.
  { apply list_elem_of_filter. split; [done|]. apply (wf_order_dom s Hwf).
    rw /is_active in Ha. by destruct (validators s !! a). }
  rw -active_addresses // -/(active_validators s) Hnil in Hin. set_solver.
Qed.

(** One full rotation of proposers, from any block on, is a permutation of the
    schedule. *)
Lemma rotation_perm s n :
  vs_wf s → small_set s → active_validators s ≠ [] → 0 <= n →
  weighted_proposer s <$> seqZ n (total_weight s) ≡ₚ Some <$> schedule (active_validators s).
Proof.
  intros Hwf Hsmall Hne Hn. destruct (total_weight_bounds s Hwf Hsmall) as [_ Hpos].
  specialize (Hpos Hne).
  rw -lookup_seqZ_all length_schedule; [by intros v ?%(active_weight s v Hwf); lia|].
  rw -/(total_weight s) -(seqZ_mod_perm n) // -list_fmap_compose.
  apply (reflexive_eq (R := (≡ₚ))), list_fmap_ext. intros i k [-> Hk]%lookup_seqZ.
  rw weighted_proposer_eq //. lia.
Qed.

(** C4: weighted round-robin is exactly fair.  In a validator set reached from a
    genesis set by lifecycle commands, over any [total_weight] consecutive
    blocks every active validator is the proposer exactly [weight] times. *)
Theorem weighted_proposer_fair s n v :
  vs_reachable s → small_set s → 0 <= n → v ∈ active_validators s →
  length (filter (λ p, p = Some (address v))
    (weighted_proposer s <$> seqZ n (total_weight s))) = Z.to_nat (weight v).
Proof.
  intros Hwf%vs_reachable_wf Hsmall Hn Hv.
  assert (Hne : active_validators s ≠ []) by (intros E; rw E in Hv; set_solver).
  rw (rotation_perm s n) // filter_fmap_list length_fmap.
  rw -(schedule_count (active_validators s) v); [by apply active_nodup|done|].
  f_equal. apply list_filter_iff. intros a. simpl. naive_solver.
Qed.

(** The proposer of every block is defined and is an active validator as
    soon as one validator is active; with none active there is no proposer. *)
Theorem weighted_proposer_total s n :
  vs_reachable s → small_set s → 0 <= n →
  match weighted_proposer s n with
  | Some a => is_active s a = true
  | None => ∀ a, is_active s a = false
  end.
Proof.
  intros Hwf%vs_reachable_wf Hsmall Hn.
  destruct (active_validators s) as [|u l] eqn:E.
  - rw /weighted_proposer E /=. intros a. apply not_true_is_false.
    intros Ha. by apply (active_nonempty s a) in Ha.
  - destruct (weighted_proposer_some s n) as (v & Hv & ->); [done..|by rw E|done|].
    apply (active_address s v Hwf) in Hv. rw /get_active in Hv. rw /is_active.
    destruct (validators s !! address v) as [w|]; [|done]. simpl in Hv.
    by destruct (status_is_active (status w)).
Qed.

Lemma or_same_cases s r : or_same s r = s ∨ ∃ s', r = Ok s' ∧ or_same s r = s'.
Proof. destruct r; naive_solver. Qed.

(** How one command changes a validator that is already tracked. *)
Lemma vs_run_lookup s op a v :
  vs_wf s → validators s !! a = Some v →
  ∃ v', validators (vs_run s op) !! a = Some v' ∧ address v' = address v ∧
    (lifecycle_rank (status v) <= lifecycle_rank (status v'))%nat.
Proof.
  intros Hwf Ha. destruct op as [b|b w|e|e|b e|b e]; simpl.
  - rw /enqueue. destruct (validators s !! b) eqn:Eb; simpl; [by eauto|].
    rw lookup_insert_ne; [congruence|]. eauto.
  - rw /set_weight. destruct (validators s !! b) as [u|] eqn:Eb; simpl; [|by eauto].
    repeat case_match; simpl; eauto.
    destruct (decide (b = a)) as [->|]; simplify_map_eq; eauto.
  - rw /process_activations. destruct (activate_loop _ _ _ _ _) as [q m] eqn:Hrun.
    apply activate_loop_spec in Hrun as (used & _ & Hm); [|apply Hwf]. simpl.
    rw Hm Ha. case_decide; [|by eauto]. simpl. eexists. split; [done|].
    rw /activate_pending. case_decide as Hp; simpl; [rw Hp|]; auto.
  - rw lookup_fmap Ha /=. eexists. split; [done|]. rw /finish_exit.
    destruct (status v) eqn:Es; [rw Es; auto..| |rw Es; auto|rw Es; auto].
    case_match; simpl; [|rw Es]; auto with lia.
  - rw /begin_exit. case_match; simpl; [by eauto|].
    destruct (validators s !! b) as [u|] eqn:Eb; simpl; [|by eauto].
    case_match eqn:Hact; simpl; [by eauto|].
    destruct (decide (b = a)) as [->|]; simplify_map_eq; [|by eauto].
    eexists. split; [done|]. destruct (status v); simpl in *; auto with lia.
  - rw /slash. destruct (validators s !! b) as [u|] eqn:Eb; simpl; [|by eauto].
    destruct (decide (b = a)) as [->|]; simplify_map_eq; [|by eauto].
    eexists. split; [done|]. destruct (status v); simpl; auto with lia.
Qed.

(** The lifecycle only moves forward.  Along any run of lifecycle commands
    a tracked validator is never dropped, keeps its address, and its status
    never moves back in the order Pending, Active, Exiting, Exited, Slashed; in
    particular a slashed validator stays slashed. *)
Theorem lifecycle_monotone s ops a v :
  vs_reachable s → Forall vs_op_ok ops → validators s !! a = Some v →
  ∃ v', validators (foldl vs_run s ops) !! a = Some v' ∧ address v' = a ∧
    (lifecycle_rank (status v) <= lifecycle_rank (status v'))%nat.
Proof.
  intros Hs%vs_reachable_wf. revert s v Hs.
  induction ops as [|op ops IH]; intros s v Hs Hops Ha.
  { exists v. split; [done|]. by apply (wf_info s Hs) in Ha as []. }
  apply Forall_cons in Hops as [Hop Hops].
  destruct (vs_run_lookup s op a v Hs Ha) as (u & Hu & _ & Hru).
  destruct (IH (vs_run s op) u) as (w & Hw & Haddr & Hrw); [by apply vs_run_wf|done..|].
  exists w. split_and!; [done..|lia].
Qed.

Definition pending_in (m : gmap Address ValidatorInfo) (a : Address) : Prop :=
  status <$> m !! a = Some Pending.
#[global] Instance pending_in_dec m a : Decision (pending_in m a).
Proof. rw /pending_in. apply _. Defined.

Lemma activate_loop_fifo mx n e q m q' m' a v :
  NoDup q → activate_loop mx n e q m = (q', m') → m !! a = Some v →
  m' !! a = Some (if decide (a ∈ take (Z.to_nat (mx - n)) (filter (pending_in m) q))
                  then activate_info e v else v).
Proof.
  revert n m v. induction q as [|b q IH]; intros n m v Hnd; cbn [activate_loop].
  { intros Hrun Ha. assert (m' = m) as -> by (case_match; naive_solver).
    rw Ha. f_equal. case_decide as Hin; [|done]. rw filter_nil take_nil in Hin. set_solver. }
  apply NoDup_cons in Hnd as [Hb Hnd]. case_match eqn:Hlt; last first.
  { apply Z.ltb_ge in Hlt. intros [= <- <-] ->. f_equal.
    case_decide as Hin; [|done]. replace (Z.to_nat (mx - n)) with 0%nat in Hin by lia.
    rw take_0 in Hin. set_solver. }
  apply Z.ltb_lt in Hlt. rw filter_cons. intros Hrun Ha.
  destruct (m !! b) as [u|] eqn:Eb; [case_decide as Hp|]; last first.
  - rw (decide_False (P := pending_in m b)); [by rw /pending_in Eb|].
    by eapply IH in Hrun.
  - rw (decide_False (P := pending_in m b)).
    { rw /pending_in Eb /=. congruence. }
    by eapply IH in Hrun.
  - rw (decide_True (P := pending_in m b)); [by rw /pending_in Eb /= Hp|].
    replace (Z.to_nat (mx - n)) with (S (Z.to_nat (mx - (n + 1)))) by lia. rw /=.
    assert (Hf : filter (pending_in (<[b := activate_info e u]> m)) q = filter (pending_in m) q).
    { apply filter_ext_in. intros c Hc. rw /pending_in lookup_insert_ne //. set_solver. }
    destruct (decide (a = b)) as [->|Hab].
    + eapply (IH _ _ (activate_info e u)) in Hrun; [|done|by rw lookup_insert_eq].
      rw Hrun Hf. simplify_eq. f_equal. rw decide_False.
      { intros Hin%elem_of_take. destruct Hin as (i & Hin & _).
        apply list_elem_of_lookup_2, list_elem_of_filter in Hin. set_solver. }
      rw decide_True //. set_solver.
    + eapply (IH _ _ v) in Hrun; [|done|by rw lookup_insert_ne]. rw Hrun Hf. f_equal.
      repeat case_decide; try done; set_solver.
Qed.

Lemma get_active_is_active s a v :
  validators s !! a = Some v → is_active s a = status_is_active (status v).
Proof. by rw /is_active => ->. Qed.

Lemma active_count_pos s :
  vs_wf s → (0 < active_count s)%nat ↔ ∃ a, is_active s a = true.
Proof.
  intros Hwf. rw /active_count. split.
  - destruct (active_validators s) as [|v l] eqn:E; simpl; [lia|]. intros _.
    assert (Hv : v ∈ active_validators s) by (rw E; set_solver).
    apply elem_of_active in Hv as (a & _ & Hv & Hs). exists a.
    by rw (get_active_is_active s a v) // Hs.
  - intros [a Ha]. apply (active_nonempty s a) in Ha; [|done].
    by destruct (active_validators s); simpl; [|lia].
Qed.

(** A command other than exit and slash keeps an active validator active. *)
Lemma stays_active s op a :
  vs_wf s → is_active s a = true →
  match op with OpBeginExit b _ | OpSlash b _ => a ≠ b | _ => True end →
  is_active (vs_run s op) a = true.
Proof.
  intros Hwf Ha Hop. destruct (validators s !! a) as [v|] eqn:Ea; last by rw /is_active Ea in Ha.
  rw (get_active_is_active s a v) // in Ha.
  destruct op as [b|b w|e|e|b e|b e]; simpl.
  - rw /enqueue. destruct (validators s !! b) eqn:Eb; simpl;
      rw /is_active /= ?lookup_insert_ne ?Ea //; congruence.
  - rw /set_weight. destruct (validators s !! b) as [u|] eqn:Eb; simpl;
      [repeat case_match; simpl|]; rw /is_active /= ?Ea //.
    destruct (decide (b = a)) as [->|]; simplify_map_eq; done.
  - rw /process_activations. destruct (activate_loop _ _ _ _ _) as [q m] eqn:Hrun.
    eapply activate_loop_fifo in Hrun; [|apply Hwf|done].
    rw /is_active /= Hrun. by case_decide.
  - rw /is_active /= lookup_fmap Ea /= /finish_exit. destruct (status v) eqn:Es; try done. by rw Es.
  - rw /begin_exit. case_match; simpl; [by rw /is_active Ea|].
    destruct (validators s !! b) as [u|] eqn:Eb; simpl; [|by rw /is_active Ea].
    case_match; simpl; rw /is_active /= ?lookup_insert_ne ?Ea //; congruence.
  - rw /slash. destruct (validators s !! b) as [u|] eqn:Eb; simpl; [|by rw /is_active Ea].
    rw /is_active /= lookup_insert_ne ?Ea //; congruence.
Qed.

(** With at least two active validators, some active one differs from [b]. *)
Lemma other_active s b :
  vs_wf s → (1 < active_count s)%nat → ∃ a, a ≠ b ∧ is_active s a = true.
Proof.
  intros Hwf Hc. pose proof (active_nodup s Hwf) as Hnd. rw /active_count in Hc.
  assert (Hall : ∀ v, v ∈ active_validators s → is_active s (address v) = true).
  { intros v (a & _ & Hv & Hs)%elem_of_active. apply (wf_info s Hwf) in Hv as Hi.
    destruct Hi as [-> _]. by rw (get_active_is_active s a v) // Hs. }
  destruct (active_validators s) as [|u [|v l]]; simpl in Hc; [lia..|].
  rw /= in Hnd. apply NoDup_cons in Hnd as [Hne _].
  destruct (decide (address u = b)) as [<-|].
  - exists (address v). split; [set_solver|]. apply Hall. set_solver.
  - exists (address u). split; [done|]. apply Hall. set_solver.
Qed.

(** Only slashing can empty the active set.  Every other lifecycle command,
    exits included, keeps at least one active validator when there was one. *)
Theorem exits_keep_active s op :
  vs_reachable s → vs_op_ok op → (∀ a e, op ≠ OpSlash a e) →
  (0 < active_count s)%nat → (0 < active_count (vs_run s op))%nat.
Proof.
  intros Hwf%vs_reachable_wf Hok Hop Hpos. apply active_count_pos; [by apply vs_run_wf|].
  destruct op as [b|b w|e|e|b e|b e]; try (
    apply (active_count_pos s Hwf) in Hpos as [a Ha]; exists a; by apply stays_active).
  - destruct (decide (1 < active_count s)%nat) as [Hc|Hc].
    + destruct (other_active s b Hwf Hc) as (a & Hab & Ha).
      exists a. by apply stays_active.
    + simpl. rw /begin_exit (proj2 (Nat.leb_le _ _)) /=; [lia|].
      by apply (active_count_pos s Hwf).
  - by destruct (Hop b e).
Qed.

(** Activation is throttled and first-in first-out.  Processing the queue
    activates exactly the first [max_activations_per_epoch] pending validators
    of the queue, stamps them with the epoch, and leaves every other validator
    as it was. *)
Theorem process_activations_fifo s e a v :
  vs_reachable s → validators s !! a = Some v →
  validators (process_activations s e) !! a =
  Some (if decide (a ∈ take (Z.to_nat (max_activations_per_epoch (vs_config s)))
                    (filter (pending_in (validators s)) (activation_queue s)))
        then activate_info e v else v).
Proof.
  intros Hwf%vs_reachable_wf Ha. rw /process_activations.
  destruct (activate_loop _ _ _ _ _) as [q m] eqn:Hrun. simpl.
  eapply activate_loop_fifo in Hrun; [|apply Hwf|done]. by rw Z.sub_0_r in Hrun.
Qed.

(** ** Sample states *)

Definition sample_addr (n : Z) : Address := b256_of_Z n.
Definition sample_set : ValidatorSet :=
  from_genesis [(sample_addr 1, 2); (sample_addr 2, 3)] (MkValidatorSetConfig 1 2).

Lemma sample_set_reachable : vs_reachable sample_set.
Proof. constructor. apply (bool_decide_unpack _). by vm_compute. Qed.

Lemma sample_set_small : small_set sample_set.
Proof. by vm_compute. Qed.

Lemma weighted_proposer_fair_witness :
  length (filter (λ p, p = Some (sample_addr 2))
    (weighted_proposer sample_set <$> seqZ 7 5)) = 3%nat.
Proof.
  apply (weighted_proposer_fair sample_set 7 (genesis_info (sample_addr 2) 3)
    sample_set_reachable sample_set_small); [lia|].
  apply elem_of_active. exists (sample_addr 2). vm_compute.
  split_and!; [by right; left|done|done].
Defined.

Lemma weighted_proposer_total_witness : is_active sample_set (sample_addr 2) = true.
Proof.
  refine (weighted_proposer_total sample_set 3 sample_set_reachable sample_set_small _).
  lia.
Defined.

Lemma lifecycle_monotone_witness : ∃ v,
  validators (foldl vs_run sample_set
    [OpBeginExit (sample_addr 1) 4; OpExits 6; OpSlash (sample_addr 1) 7]) !! sample_addr 1
  = Some v ∧ address v = sample_addr 1 ∧ (1 <= lifecycle_rank (status v))%nat.
Proof.
  apply (lifecycle_monotone sample_set _ (sample_addr 1) (genesis_info (sample_addr 1) 2)
    sample_set_reachable).
  - repeat constructor.
  - done.
Defined.

Lemma exits_keep_active_witness :
  (0 < active_count (vs_run sample_set (OpBeginExit (sample_addr 1) 4)))%nat.
Proof.
  apply (exits_keep_active sample_set _ sample_set_reachable); [done..|].
  vm_compute. lia.
Defined.

Definition sample_queue : ValidatorSet :=
  vs_run (vs_run sample_set (OpEnqueue (sample_addr 3))) (OpEnqueue (sample_addr 4)).

Lemma process_activations_fifo_witness :
  validators (process_activations sample_queue 9) !! sample_addr 3 =
  Some (if decide (sample_addr 3 ∈ take 1
         (filter (pending_in (validators sample_queue)) (activation_queue sample_queue)))
        then activate_info 9 (validator_pending (sample_addr 3))
        else validator_pending (sample_addr 3)).
Proof.
  apply (process_activations_fifo sample_queue 9 (sample_addr 3)).
  - do 2 (apply vs_reach_step; [|done]). apply sample_set_reachable.
  - done.
Defined.
