(* ===== verification/Finality.v ===== *)
(** * Finality

    crates/consensus/src/finality.rs: attestations and their signing payload,
    the attestation book-keeping of [FinalityState] and the weighted quorum
    rule, with the part of the node's attestation handler that drives them
    (crates/node/src/node/p2p_handlers.rs). *)

From S2P Require Import Prelude Primitives.

Definition MAX_PENDING_ATTESTATION_BLOCKS : nat := 512.
Definition ATTESTATION_EPOCH_BLOCKS : Z := 1000.

(** [b"SHELL_ATTEST_V1\0"] *)
Definition ATTEST_DOMAIN : list Z :=
  [83; 72; 69; 76; 76; 95; 65; 84; 84; 69; 83; 84; 95; 86; 49; 0].

Record Attestation := MkAttestation {
  att_chain_id : Z;
  att_parent_hash : ShellHash;
  att_block_hash : ShellHash;
  att_block_number : Z;
  att_validator : Address;
  att_round : Z;
  att_signature : list Z;
}.

Definition attestation_epoch_of (block_number : Z) : Z :=
  block_number / ATTESTATION_EPOCH_BLOCKS.

Definition attestation_signing_message (chain_id : Z) (parent block : ShellHash)
    (block_number round : Z) : list Z :=
  ATTEST_DOMAIN
  ++ be_bytes 8 chain_id
  ++ be_bytes 8 (attestation_epoch_of block_number)
  ++ as_bytes parent
  ++ as_bytes block
  ++ be_bytes 8 block_number
  ++ be_bytes 8 round.

Definition own_signing_message (a : Attestation) : list Z :=
  attestation_signing_message (att_chain_id a) (att_parent_hash a) (att_block_hash a)
    (att_block_number a) (att_round a).

Record FinalityState := MkFinalityState {
  last_finalized_number : Z;
  last_finalized_hash : ShellHash;
  pending_attestations : gmap ShellHash (gset Address);
  pending_attested_weight : gmap ShellHash Z;
  attestation_store : gmap ShellHash (list Attestation);
  attested_block_by_height : gmap (Z * Address) ShellHash;
}.

Definition with_finalized (n : Z) (h : ShellHash) : FinalityState :=
  MkFinalityState n h ∅ ∅ ∅ ∅.
Definition finality_new : FinalityState := with_finalized 0 ZERO.

(** The first stored attestation differs from the new one in a field that
    belongs to the block. *)
Definition conflicts_with (existing att : Attestation) : bool :=
  negb (att_chain_id existing =? att_chain_id att)
  || negb (bool_decide (att_parent_hash existing = att_parent_hash att))
  || negb (att_block_number existing =? att_block_number att)
  || negb (att_round existing =? att_round att).

Definition record_attestation_weighted (s : FinalityState) (att : Attestation)
    (attester_weight : Z) : FinalityState * bool :=
  if (attester_weight =? 0) || (att_block_number att <=? last_finalized_number s) then (s, false)
  else
    let h := att_block_hash att in
    let v := att_validator att in
    if match attestation_store s !! h with
       | Some (existing :: _) => conflicts_with existing att
       | _ => false
       end then (s, false)
    else if bool_decide (pending_attestations s !! h = None)
            && (MAX_PENDING_ATTESTATION_BLOCKS <=? size (pending_attestations s))%nat then (s, false)
    else
      let voters := unwrap_or ∅ (pending_attestations s !! h) in
      let pending := <[h := {[v]} ∪ voters]> (pending_attestations s) in
      if decide (v ∈ voters) then
        (MkFinalityState (last_finalized_number s) (last_finalized_hash s) pending
           (pending_attested_weight s) (attestation_store s) (attested_block_by_height s), false)
      else
        (MkFinalityState (last_finalized_number s) (last_finalized_hash s) pending
           (<[h := match pending_attested_weight s !! h with
                   | Some w => sat_add w attester_weight
                   | None => attester_weight
                   end]> (pending_attested_weight s))
           (<[h := unwrap_or [] (attestation_store s !! h) ++ [att]]> (attestation_store s))
           (match attested_block_by_height s !! (att_block_number att, v) with
            | Some _ => attested_block_by_height s
            | None => <[(att_block_number att, v) := h]> (attested_block_by_height s)
            end), true).

Definition record_attestation (s : FinalityState) (att : Attestation) : FinalityState * bool :=
  record_attestation_weighted s att 1.

(** ** Quorum arithmetic *)

Definition strict_quorum_weight (total_weight : Z) : Z :=
  if total_weight =? 0 then 0
  else unwrap_or u64_max (u64_try_from ((total_weight * 2) / 3 + 1)).

Definition has_weighted_quorum (attested_weight total_weight : Z) : bool :=
  (strict_quorum_weight total_weight <=? attested_weight) && (0 <? total_weight).

Definition quorum_threshold (total_validators : Z) : Z :=
  if total_validators <=? 1 then 1
  else unwrap_or total_validators
         (u64_try_from (Z.min (total_validators * 2) u128_max / 3 + 1)).

Definition attested_weight (s : FinalityState) (h : ShellHash) : Z :=
  unwrap_or 0 (pending_attested_weight s !! h).
Definition attestation_count (s : FinalityState) (h : ShellHash) : nat :=
  match pending_attestations s !! h with Some x => size x | None => 0%nat end.
Definition total_pending_attestations (s : FinalityState) : nat :=
  map_fold (λ _ x n, (size x + n)%nat) 0%nat (pending_attestations s).
Definition has_attested (s : FinalityState) (h : ShellHash) (v : Address) : bool :=
  match pending_attestations s !! h with Some x => bool_decide (v ∈ x) | None => false end.

Definition can_finalize_weighted (s : FinalityState) (h : ShellHash)
    (block_number total_weight : Z) : bool :=
  match attestation_store s !! h with
  | Some (att :: _) =>
      (att_block_number att =? block_number)
      && has_weighted_quorum (attested_weight s h) total_weight
      && (last_finalized_number s <? block_number)
  | _ => false
  end.

(** ** Pruning and finalization *)

Definition first_at_or_below (n : Z) (atts : list Attestation) : bool :=
  match atts with att :: _ => att_block_number att <=? n | [] => false end.

Definition hashes_to_remove (s : FinalityState) (n : Z) : gset ShellHash :=
  dom (filter (λ p, first_at_or_below n p.2 = true) (attestation_store s)).

Definition finality_prune_below (s : FinalityState) (n : Z) : FinalityState :=
  let gone := hashes_to_remove s n in
  MkFinalityState (last_finalized_number s) (last_finalized_hash s)
    (filter (λ p, p.1 ∉ gone) (pending_attestations s))
    (filter (λ p, p.1 ∉ gone) (pending_attested_weight s))
    (filter (λ p, p.1 ∉ gone) (attestation_store s))
    (filter (λ p, n < p.1.1) (attested_block_by_height s)).

Definition advance_finalized (s : FinalityState) (n : Z) (h : ShellHash) : FinalityState :=
  MkFinalityState n h (pending_attestations s) (pending_attested_weight s)
    (attestation_store s) (attested_block_by_height s).

Definition check_finality_weighted (s : FinalityState) (h : ShellHash)
    (block_number total_weight : Z) : FinalityState * bool :=
  if can_finalize_weighted s h block_number total_weight then
    (finality_prune_below (advance_finalized s block_number h) block_number, true)
  else (s, false).

Definition set_finalized_direct (s : FinalityState) (block_number : Z) (h : ShellHash) :
    FinalityState * bool :=
  if last_finalized_number s <? block_number then
    (finality_prune_below (advance_finalized s block_number h) block_number, true)
  else (s, false).

Definition detect_equivocation (s : FinalityState) (h : ShellHash) (block_number : Z)
    (v : Address) : option ShellHash :=
  match attested_block_by_height s !! (block_number, v) with
  | Some h' => if decide (h' = h) then None else Some h'
  | None => None
  end.

(** The errors the handler below returns: an equivocation, or a failed write. *)
Inductive HandlerError := Equivocation (conflicting : ShellHash) | NotPersisted.

(** The part of the node's attestation handler that runs under the finality
    lock, after the signature has been checked: reject equivocation, record,
    persist the finalized number, evaluate finality.  [persists] says whether
    [set_finalized_number] succeeds; if not, the attestation stays recorded.  The
    boolean says whether the block was finalized. *)
Definition handle_attestation (s : FinalityState) (att : Attestation)
    (attester_weight total_weight : Z) (is_canonical persists : bool) :
    FinalityState * result bool HandlerError :=
  let h := att_block_hash att in
  let n := att_block_number att in
  match detect_equivocation s h n (att_validator att) with
  | Some conflicting => (s, Err (Equivocation conflicting))
  | None =>
      let already := has_attested s h (att_validator att) in
      let '(s', recorded) := record_attestation_weighted s att attester_weight in
      if negb recorded && negb already then (s', Ok false)
      else if is_canonical && can_finalize_weighted s' h n total_weight then
        if persists then let '(s', finalized) := check_finality_weighted s' h n total_weight in (s', Ok finalized)
        else (s', Err NotPersisted)
      else (s', Ok false)
  end.

(** ** Invariant *)

Definition att_voters (atts : list Attestation) : gset Address :=
  list_to_set (att_validator <$> atts).

(** Who has attested to [h], as recorded. *)
Definition voters (s : FinalityState) (h : ShellHash) : gset Address :=
  unwrap_or ∅ (pending_attestations s !! h).

Section invariant.
(** [V] is the active validator set and [W] the weight table, as the node
    reads them from the consensus engine. *)
Context (V : gset Address) (W : Address → Z).

Record entry_ok (fin : Z) (h : ShellHash) (atts : list Attestation) : Prop := {
  entry_nodup : NoDup (att_validator <$> atts);
  entry_number : ∃ n, fin < n ∧ atts ≠ [] ∧
    ∀ x, x ∈ atts → att_block_hash x = h ∧ att_block_number x = n ∧ att_validator x ∈ V;
}.

Record fs_inv (s : FinalityState) : Prop := {
  inv_pending : ∀ h, pending_attestations s !! h = att_voters <$> attestation_store s !! h;
  inv_weight : ∀ h, pending_attested_weight s !! h =
    (λ atts, Z.min (sumZ (λ x, W (att_validator x)) atts) u64_max) <$> attestation_store s !! h;
  inv_entry : ∀ h atts, attestation_store s !! h = Some atts →
    entry_ok (last_finalized_number s) h atts;
  inv_height_sound : ∀ n v h, attested_block_by_height s !! (n, v) = Some h →
    ∃ atts x, attestation_store s !! h = Some atts ∧ x ∈ atts ∧
      att_validator x = v ∧ att_block_number x = n;
  inv_height_complete : ∀ h atts x, attestation_store s !! h = Some atts → x ∈ atts →
    is_Some (attested_block_by_height s !! (att_block_number x, att_validator x));
  inv_size : (size (pending_attestations s) <= MAX_PENDING_ATTESTATION_BLOCKS)%nat;
}.

Context (W_nonneg : ∀ v, in_u64 (W v)).

Lemma fs_inv_init n h : fs_inv (with_finalized n h).
Proof. split; intros *; simpl; rw ?lookup_empty; try done. rw map_size_empty. lia. Qed.

Lemma entry_ok_snoc fin h atts x :
  entry_ok fin h atts → att_validator x ∉ att_validator <$> atts →
  att_block_hash x = h → att_validator x ∈ V →
  match atts with y :: _ => att_block_number y = att_block_number x | [] => True end →
  entry_ok fin h (atts ++ [x]).
Proof.
  intros [Hnd (n & Hn & Hne & Hall)] Hnew Hh HV Hy. split.
  - rw fmap_app. apply NoDup_app. split_and!; [done| |by apply NoDup_singleton].
    set_solver.
  - exists n. split_and!; [done|by destruct atts|].
    intros y [Hin| ->%list_elem_of_singleton]%elem_of_app; [by apply Hall|].
    destruct atts as [|z atts]; [done|]. rw -Hy. destruct (Hall z); set_solver.
Qed.

Lemma conflicts_with_false x y :
  conflicts_with x y = false → att_block_number x = att_block_number y.
Proof.
  rw /conflicts_with !orb_false_iff !negb_false_iff Z.eqb_eq. lia.
Qed.

(** The state a successful recording leaves behind. *)
Definition recorded (s : FinalityState) (att : Attestation) (w : Z) : FinalityState :=
  let h := att_block_hash att in
  let k := (att_block_number att, att_validator att) in
  MkFinalityState (last_finalized_number s) (last_finalized_hash s)
    (<[h := {[att_validator att]} ∪ voters s h]> (pending_attestations s))
    (<[h := match pending_attested_weight s !! h with
            | Some w0 => sat_add w0 w | None => w end]> (pending_attested_weight s))
    (<[h := unwrap_or [] (attestation_store s !! h) ++ [att]]> (attestation_store s))
    (match attested_block_by_height s !! k with
     | Some _ => attested_block_by_height s
     | None => <[k := h]> (attested_block_by_height s)
     end).

Lemma record_true s att w s' :
  record_attestation_weighted s att w = (s', true) →
  w ≠ 0 ∧ last_finalized_number s < att_block_number att ∧
  (att_validator att ∉ voters s (att_block_hash att)) ∧
  (match attestation_store s !! att_block_hash att with
   | Some (y :: _) => att_block_number y = att_block_number att | _ => True end) ∧
  (pending_attestations s !! att_block_hash att = None →
    size (pending_attestations s) < MAX_PENDING_ATTESTATION_BLOCKS)%nat ∧
  s' = recorded s att w.
Proof.
  rw /record_attestation_weighted -/(voters s (att_block_hash att)).
  case_guard H1; [done|]. case_guard H2; [done|]. case_guard H3; [done|].
  case_guard H4; [done|]. intros [= <-].
  apply orb_false_iff in H1 as [?%Z.eqb_neq ?%Z.leb_gt].
  split_and!; try done.
  - destruct (attestation_store s !! _) as [[|y l]|]; try done.
    by apply conflicts_with_false.
  - intros Hnone. rw bool_decide_eq_true_2 // andb_true_l in H3. by apply Nat.leb_gt.
Qed.

Lemma record_false s att w s' :
  fs_inv s → record_attestation_weighted s att w = (s', false) → s' = s.
Proof.
  intros Hinv. rw /record_attestation_weighted.
  case_guard H1; [by intros [= <-]|]. case_guard H2; [by intros [= <-]|].
  case_guard H3; [by intros [= <-]|]. case_guard Hin; [|done]. intros [= <-].
  destruct (pending_attestations s !! att_block_hash att) as [x|] eqn:E; simpl in *; [|set_solver].
  rw insert_id; [rw E; f_equal; set_solver|]. by destruct s.
Qed.

Lemma sumZ_voters atts :
  NoDup (att_validator <$> atts) →
  set_sum W (att_voters atts) = sumZ (λ x, W (att_validator x)) atts.
Proof.
  rw /att_voters. induction atts as [|x l IH]; [by rw /= set_sum_empty|].
  rw fmap_cons => /NoDup_cons [Hx Hnd]. rw list_to_set_cons set_sum_insert.
  - by rw elem_of_list_to_set.
  - by rw sumZ_cons IH.
Qed.

Section record.
Context (s : FinalityState) (att : Attestation) (Hinv : fs_inv s).
Context (HV : att_validator att ∈ V).
Context (Hnew : att_validator att ∉ voters s (att_block_hash att)).
Let s' := recorded s att (W (att_validator att)).

Lemma recorded_pending h :
  pending_attestations s' !! h = att_voters <$> attestation_store s' !! h.
Proof using All.
  rw /s' /=. destruct (decide (att_block_hash att = h)) as [<-|];
    simplify_map_eq; [|apply Hinv].
  rw /voters (inv_pending _ Hinv) /att_voters fmap_app list_to_set_app_L /=.
  f_equal. destruct (attestation_store s !! _); simpl; set_solver.
Qed.

Lemma recorded_weight h :
  pending_attested_weight s' !! h =
  (λ atts, Z.min (sumZ (λ x, W (att_validator x)) atts) u64_max) <$> attestation_store s' !! h.
Proof using All.
  rw /s' /=. destruct (decide (att_block_hash att = h)) as [<-|];
    simplify_map_eq; [|apply Hinv].
  rw (inv_weight _ Hinv). f_equal. rw sumZ_app sumZ_cons sumZ_nil.
  pose proof (W_nonneg (att_validator att)).
  destruct (attestation_store s !! _) as [l|]; simpl; [|rw sumZ_nil; int_lia].
  assert (0 <= sumZ (λ x, W (att_validator x)) l)
    by (apply sumZ_nonneg; intros x _; apply W_nonneg).
  int_lia.
Qed.

Lemma recorded_entry h atts :
  last_finalized_number s < att_block_number att →
  match attestation_store s !! att_block_hash att with
  | Some (y :: _) => att_block_number y = att_block_number att | _ => True end →
  attestation_store s' !! h = Some atts → entry_ok (last_finalized_number s') h atts.
Proof using All.
  rw /s' /=. intros Hn Hy. destruct (decide (att_block_hash att = h)) as [<-|]; last first.
  { rw lookup_insert_ne //. apply Hinv. }
  rw lookup_insert_eq => [= <-]. pose proof Hnew as Hnv. rw /voters (inv_pending _ Hinv) in Hnv.
  destruct (attestation_store s !! _) as [l|] eqn:El; simpl in *.
  - apply entry_ok_snoc; [by apply Hinv| |done|done|by destruct l].
    by rw /att_voters elem_of_list_to_set in Hnv.
  - split; [by apply NoDup_singleton|]. exists (att_block_number att).
    split_and!; [done..|]. by intros x ->%list_elem_of_singleton.
Qed.

Lemma recorded_grows n v h :
  attested_block_by_height s !! (n, v) = Some h →
  ∃ atts x, attestation_store s' !! h = Some atts ∧
    x ∈ atts ∧ att_validator x = v ∧ att_block_number x = n.
Proof using All.
  rw /s' /=. intros (l & x & Hs & Hx & Hxv & Hxn)%(inv_height_sound _ Hinv).
  destruct (decide (att_block_hash att = h)) as [<-|].
  - exists (l ++ [att]), x. rw lookup_insert_eq Hs elem_of_app. auto.
  - exists l, x. by rw lookup_insert_ne.
Qed.

Lemma recorded_height_sound n v h :
  attested_block_by_height s' !! (n, v) = Some h →
  ∃ atts x, attestation_store s' !! h = Some atts ∧
    x ∈ atts ∧ att_validator x = v ∧ att_block_number x = n.
Proof using All.
  intros Hl. destruct (attested_block_by_height s !! (n, v)) as [h'|] eqn:Eold.
  { apply recorded_grows. rw -Hl /s' /=. case_match eqn:Ek; [done|].
    symmetry. apply lookup_insert_ne. congruence. }
  move: Hl. rw /s' /=. case_match eqn:Ek; [congruence|].
  intros [[[= <- <-] <-]|[_ ?]]%lookup_insert_Some; [|congruence].
  rw lookup_insert_eq. eexists _, att. split_and!; [done| |done..].
  apply elem_of_app. right. by left.
Qed.

Lemma recorded_height_complete h atts x :
  attestation_store s' !! h = Some atts → x ∈ atts →
  is_Some (attested_block_by_height s' !! (att_block_number x, att_validator x)).
Proof using All.
  rw /s' /=. intros Hl Hx.
  assert (is_Some (attested_block_by_height s !! (att_block_number x, att_validator x)) ∨ x = att) as Hc.
  { apply lookup_insert_Some in Hl as [[<- <-]|[_ Hl]]; [|left; by eapply Hinv].
    apply elem_of_app in Hx as [Hx| ->%list_elem_of_singleton]; [left|by right].
    destruct (attestation_store s !! _) as [k|] eqn:Ek; simpl in Hx.
    - by eapply Hinv.
    - by apply not_elem_of_nil in Hx. }
  case_match eqn:Eb; [destruct Hc as [?| ->]; [done|by rw Eb]|].
  destruct Hc as [Hc| ->]; [|by rw lookup_insert_eq].
  destruct (decide ((att_block_number att, att_validator att)
    = (att_block_number x, att_validator x))) as [->|].
  - by rw lookup_insert_eq.
  - by rw lookup_insert_ne.
Qed.
End record.

Lemma fs_inv_record s att s' :
  fs_inv s → att_validator att ∈ V →
  record_attestation_weighted s att (W (att_validator att)) = (s', true) → fs_inv s'.
Proof using W_nonneg.
  intros Hinv HV Hrec. destruct (record_true _ _ _ _ Hrec) as (Hw & Hn & Hv & Hy & Hsz & ->).
  split.
  - by apply recorded_pending.
  - by apply recorded_weight.
  - intros. by apply recorded_entry.
  - by apply recorded_height_sound.
  - by apply recorded_height_complete.
  - rw /recorded /=. destruct (pending_attestations s !! att_block_hash att) eqn:Ep.
    + rw map_size_insert_Some; [by rw Ep|apply Hinv].
    + rw map_size_insert_None //. specialize (Hsz eq_refl). lia.
Qed.

Lemma elem_of_hashes_to_remove s n h :
  h ∈ hashes_to_remove s n ↔
  ∃ atts, attestation_store s !! h = Some atts ∧ first_at_or_below n atts = true.
Proof.
  rw /hashes_to_remove elem_of_dom. split.
  - intros [atts [??]%map_lookup_filter_Some]. eauto.
  - intros (atts & ? & ?). exists atts. by apply map_lookup_filter_Some.
Qed.

(** Entries that survive pruning are exactly those above the cut. *)
Lemma pruned_store s n h h' atts :
  fs_inv s →
  attestation_store (finality_prune_below (advance_finalized s n h) n) !! h' = Some atts ↔
  attestation_store s !! h' = Some atts ∧ ∀ x, x ∈ atts → n < att_block_number x.
Proof.
  intros Hinv. rw /= lookup_filter_notin. case_decide as Hgone.
  - apply elem_of_hashes_to_remove in Hgone as (l & Hl & Hle). simpl in Hl. rw Hl.
    split; [done|]. intros [[= ->] Hall]. destruct atts as [|x atts]; [done|].
    specialize (Hall x ltac:(by left)). apply Z.leb_le in Hle. lia.
  - split; [|by intros []]. intros Hl. split; [done|]. intros x Hx.
    destruct (inv_entry _ Hinv _ _ Hl) as [_ (m & Hm & Hne & Hall)].
    destruct atts as [|y l]; [done|].
    assert (first_at_or_below n (y :: l) = false) as Hy%Z.leb_gt.
    { apply not_true_is_false. intros ?. apply Hgone, elem_of_hashes_to_remove. eauto. }
    destruct (Hall x Hx) as (_ & -> & _). destruct (Hall y) as (_ & <- & _); [by left|done].
Qed.

Lemma fs_inv_prune s n h :
  fs_inv s → last_finalized_number s < n →
  fs_inv (finality_prune_below (advance_finalized s n h) n).
Proof.
  intros Hinv Hn. pose proof (λ h', pruned_store s n h h') as Hst.
  set (s' := finality_prune_below _ n) in *. split.
  - intros h'. rw /s' /= !lookup_filter_notin. case_decide; [done|]. apply Hinv.
  - intros h'. rw /s' /= !lookup_filter_notin. case_decide; [done|]. apply Hinv.
  - intros h' atts [Hl Habove]%Hst; [|done].
    destruct (inv_entry _ Hinv _ _ Hl) as [Hnd (m & Hm & Hne & Hall)]. split; [done|].
    exists m. split_and!; [|done..]. destruct atts as [|x l]; [done|].
    destruct (Hall x) as (_ & <- & _); [by left|]. apply Habove. by left.
  - intros m v h' [Hl Hlt]%map_lookup_filter_Some. simpl in Hlt.
    apply (inv_height_sound _ Hinv) in Hl as (atts & x & Hl & Hx & Hv & Hm).
    exists atts, x. split_and!; [|done..]. apply Hst; [done|]. split; [done|].
    destruct (inv_entry _ Hinv _ _ Hl) as [_ (k & _ & _ & Hall)].
    intros y Hy. destruct (Hall y Hy) as (_ & -> & _).
    destruct (Hall x Hx) as (_ & <- & _). by rw Hm.
  - intros h' atts x [Hl Habove]%Hst Hx; [|done].
    destruct (inv_height_complete _ Hinv _ _ _ Hl Hx) as [h'' Hh'']. exists h''.
    apply map_lookup_filter_Some. split; [done|]. by apply Habove.
  - etrans; [|apply (inv_size _ Hinv)]. apply map_subseteq_size, map_filter_subseteq.
Qed.

(** ** Runs of a node

    A node starts from its persisted finalized block and then records
    attestations of active validators, checks finality and imports blocks
    finalized by the round protocol, in any order. *)
Inductive fs_reachable : FinalityState → Prop :=
| fs_reach_init n h : fs_reachable (with_finalized n h)
| fs_reach_record s att : fs_reachable s → att_validator att ∈ V →
    fs_reachable (record_attestation_weighted s att (W (att_validator att))).1
| fs_reach_check s h n total : fs_reachable s →
    fs_reachable (check_finality_weighted s h n total).1
| fs_reach_direct s n h : fs_reachable s →
    fs_reachable (set_finalized_direct s n h).1.

Lemma can_finalize_number s h n total :
  can_finalize_weighted s h n total = true →
  last_finalized_number s < n ∧ has_weighted_quorum (attested_weight s h) total = true ∧
  ∃ att atts, attestation_store s !! h = Some (att :: atts) ∧ att_block_number att = n.
Proof.
  rw /can_finalize_weighted. destruct (attestation_store s !! h) as [[|att atts]|]; try done.
  intros [[Hn%Z.eqb_eq Hq]%andb_true_iff Hlt%Z.ltb_lt]%andb_true_iff.
  split_and!; [done..|]. by exists att, atts.
Qed.

Lemma fs_reachable_inv s : fs_reachable s → fs_inv s.
Proof using W_nonneg.
  induction 1 as [n h|s att _ IH HV|s h n total _ IH|s n h _ IH].
  - apply fs_inv_init.
  - destruct (record_attestation_weighted _ _ _) as [s' []] eqn:E; simpl.
    + by eapply fs_inv_record.
    + by rw (record_false _ _ _ _ IH E).
  - rw /check_finality_weighted. case_match eqn:E; [|done].
    apply fs_inv_prune; [done|]. by apply can_finalize_number in E as [].
  - rw /set_finalized_direct. case_match eqn:E; [|done].
    apply fs_inv_prune; [done|]. by apply Z.ltb_lt.
Qed.

(** The recorded weight is the exact weight of the recorded attesters. *)
Lemma attested_weight_exact s h :
  fs_inv s → attested_weight s h = Z.min (set_sum W (voters s h)) u64_max.
Proof.
  intros Hinv. rw /attested_weight /voters (inv_weight _ Hinv) (inv_pending _ Hinv).
  destruct (attestation_store s !! h) as [atts|] eqn:E; simpl; [|by rw set_sum_empty].
  rw sumZ_voters //. apply (inv_entry _ Hinv _ _ E).
Qed.

Lemma voters_subset s h : fs_inv s → voters s h ⊆ V.
Proof.
  intros Hinv v. rw /voters (inv_pending _ Hinv).
  destruct (attestation_store s !! h) as [atts|] eqn:E; simpl; [|set_solver].
  rw /att_voters elem_of_list_to_set. intros (x & -> & Hx)%list_elem_of_fmap.
  destruct (inv_entry _ Hinv _ _ E) as [_ (n & _ & _ & Hall)]. by apply Hall.
Qed.
End invariant.

Lemma strict_quorum_weight_eq t :
  in_u64 t → 0 < t → strict_quorum_weight t = (t * 2) / 3 + 1.
Proof.
  intros Ht Hpos. rw /strict_quorum_weight (proj2 (Z.eqb_neq t 0)); [lia|].
  rw /u64_try_from. assert (0 <= t * 2 / 3 + 1 <= t) by div_lia.
  rw (proj2 (Z.leb_le _ _)) ?(proj2 (Z.leb_le _ _)) //; unfold in_u64 in *; lia.
Qed.

(** Strictly more than two thirds, with no loss to rounding or overflow. *)
Lemma has_weighted_quorum_iff a t :
  in_u64 a → in_u64 t → (has_weighted_quorum a t = true) ↔ (0 < t ∧ 2 * t < 3 * a).
Proof.
  intros Ha Ht. rw /has_weighted_quorum andb_true_iff Z.ltb_lt Z.leb_le.
  split; intros [H1 H2]; split; try done.
  - rw strict_quorum_weight_eq // in H1. div_lia.
  - rw strict_quorum_weight_eq //. div_lia.
Qed.

Section safety.
Context (V : gset Address) (W : Address → Z).
Context (W_u64 : ∀ v, in_u64 (W v)).
Let total := set_sum W V.
Context (total_u64 : total <= u64_max).

Lemma total_in_u64 : in_u64 total.
Proof using All.
  split; [|done]. apply set_sum_nonneg. intros v _. apply W_u64.
Qed.

(** A finalizable block has recorded attesters of more than two thirds. *)
Lemma finalizable_weight s h n :
  fs_inv V W s → can_finalize_weighted s h n total = true →
  2 * total < 3 * set_sum W (voters s h).
Proof using All.
  intros Hinv (_ & Hq & _)%can_finalize_number.
  pose proof (attested_weight_exact V W s h Hinv) as Hw.
  assert (0 <= set_sum W (voters s h)) by (apply set_sum_nonneg; intros; apply W_u64).
  apply has_weighted_quorum_iff in Hq as [_ Hq]; [lia| |apply total_in_u64].
  rw Hw. int_lia.
Qed.

Lemma quorum_overlap X Y :
  X ⊆ V → Y ⊆ V → 2 * total < 3 * set_sum W X → 2 * total < 3 * set_sum W Y →
  total < 3 * set_sum W (X ∩ Y).
Proof using All.
  intros HX HY H1 H2.
  pose proof (set_sum_intersection W X Y V (λ v _, proj1 (W_u64 v)) HX HY).
  unfold total in *. lia.
Qed.
End safety.

Lemma voters_attestation V W s h v n :
  fs_inv V W s → v ∈ voters s h →
  (∃ att atts, attestation_store s !! h = Some (att :: atts) ∧ att_block_number att = n) →
  ∃ atts x, attestation_store s !! h = Some atts ∧ x ∈ atts ∧ att_validator x = v ∧
    att_block_hash x = h ∧ att_block_number x = n.
Proof.
  intros Hinv Hv (a & l & Hl & Ha). rw /voters (inv_pending _ _ _ Hinv) Hl /= in Hv.
  rw /att_voters in Hv. apply elem_of_list_to_set, list_elem_of_fmap in Hv as (x & -> & Hx).
  destruct (inv_entry _ _ _ Hinv _ _ Hl) as [_ (m & _ & _ & Hall)].
  exists (a :: l), x. destruct (Hall x Hx) as (? & -> & _).
  destruct (Hall a) as (_ & <- & _); [by left|]. done.
Qed.

(** C1: accountable safety.  When two nodes that use the same validator set and
    weights can finalize blocks [h1] and [h2] at the same height, the validators
    recorded as attesting to both carry more than a third of the total weight,
    and each of them has a recorded attestation for [h1] and one for [h2] at
    that height: if the blocks differ, these are equivocation evidence. *)
Theorem accountable_safety V W s1 s2 h1 h2 n :
  (∀ v, in_u64 (W v)) → set_sum W V <= u64_max →
  fs_reachable V W s1 → fs_reachable V W s2 →
  can_finalize_weighted s1 h1 n (set_sum W V) = true →
  can_finalize_weighted s2 h2 n (set_sum W V) = true →
  set_sum W V < 3 * set_sum W (voters s1 h1 ∩ voters s2 h2) ∧
  ∀ v, v ∈ voters s1 h1 ∩ voters s2 h2 → ∃ l1 x1 l2 x2,
    attestation_store s1 !! h1 = Some l1 ∧ x1 ∈ l1 ∧ att_validator x1 = v ∧
    att_block_hash x1 = h1 ∧ att_block_number x1 = n ∧
    attestation_store s2 !! h2 = Some l2 ∧ x2 ∈ l2 ∧ att_validator x2 = v ∧
    att_block_hash x2 = h2 ∧ att_block_number x2 = n.
Proof.
  intros HW HT I1%(fs_reachable_inv V W HW) I2%(fs_reachable_inv V W HW) H1 H2. split.
  - apply quorum_overlap; [done..|by eapply voters_subset|by eapply voters_subset| |];
      by eapply finalizable_weight.
  - intros v [Hv1 Hv2]%elem_of_intersection.
    destruct (voters_attestation V W s1 h1 v n) as (l1 & x1 & ?); [done..|by apply can_finalize_number in H1 as (_ & _ & ?)|].
    destruct (voters_attestation V W s2 h2 v n) as (l2 & x2 & ?); [done..|by apply can_finalize_number in H2 as (_ & _ & ?)|].
    exists l1, x1, l2, x2. tauto.
Qed.

(** ** The node's handler: one recorded block per validator and height *)

Section handler.
Context (V : gset Address) (W : Address → Z) (W_u64 : ∀ v, in_u64 (W v)).

Definition fs_single (s : FinalityState) : Prop :=
  ∀ h atts x, attestation_store s !! h = Some atts → x ∈ atts →
    attested_block_by_height s !! (att_block_number x, att_validator x) = Some h.

(** States of a node that only takes attestations through its handler. *)
Inductive node_reachable : FinalityState → Prop :=
| node_init n h : node_reachable (with_finalized n h)
| node_attest s att total canonical persists : node_reachable s → att_validator att ∈ V →
    node_reachable (handle_attestation s att (W (att_validator att)) total canonical persists).1
| node_direct s n h : node_reachable s → node_reachable (set_finalized_direct s n h).1.

Lemma fs_single_prune s n h :
  fs_inv V W s → fs_single s → fs_single (finality_prune_below (advance_finalized s n h) n).
Proof.
  intros Hinv Hs h' atts x [Hl Habove]%(pruned_store V W) Hx; [|done].
  apply map_lookup_filter_Some. split; [by eapply Hs|]. by apply Habove.
Qed.

Lemma fs_single_record s att s' :
  fs_single s →
  detect_equivocation s (att_block_hash att) (att_block_number att) (att_validator att) = None →
  record_attestation_weighted s att (W (att_validator att)) = (s', true) → fs_single s'.
Proof.
  intros Hs Hd Hrec. destruct (record_true _ _ _ _ Hrec) as (_ & _ & _ & _ & _ & ->).
  set (k := (att_block_number att, att_validator att)).
  assert (Hk : attested_block_by_height s !! k = None ∨
    attested_block_by_height s !! k = Some (att_block_hash att)).
  { rw /detect_equivocation in Hd. fold k in Hd.
    destruct (attested_block_by_height s !! k); [case_decide; naive_solver|by left]. }
  intros h atts x. rw /recorded /= -/k. intros Hl Hx.
  assert (attested_block_by_height s !! (att_block_number x, att_validator x) = Some h
          ∨ (x = att ∧ h = att_block_hash att)) as Hc.
  { apply lookup_insert_Some in Hl as [[<- <-]|[_ Hl]]; [|left; by eapply Hs].
    apply elem_of_app in Hx as [Hx| ->%list_elem_of_singleton]; [left|by right].
    destruct (attestation_store s !! _) as [l|] eqn:El; simpl in Hx.
    - by eapply Hs.
    - by apply not_elem_of_nil in Hx. }
  destruct (attested_block_by_height s !! k) as [h'|] eqn:Ek.
  - destruct Hk as [?|[= ->]]; [done|]. destruct Hc as [?|[-> ->]]; done.
  - destruct Hc as [Hc|[-> ->]]; [|by rw lookup_insert_eq].
    rw lookup_insert_ne //. intros E. rw -E in Hc. congruence.
Qed.

Lemma node_reachable_inv s : node_reachable s → fs_reachable V W s ∧ fs_single s.
Proof using W_u64.
  induction 1 as [n h|s att total canonical persists _ [IH1 IH2] HV|s n h _ [IH1 IH2]].
  - split; [constructor|]. intros h' atts x. by rw /= lookup_empty.
  - pose proof (fs_reachable_inv V W W_u64 s IH1) as Hinv.
    rw /handle_attestation.
    destruct (detect_equivocation _ _ _ _) eqn:Hd; [done|].
    destruct (record_attestation_weighted _ _ _) as [s1 r] eqn:Hrec.
    assert (fs_reachable V W s1 ∧ fs_single s1) as [R1 S1].
    { split; [|destruct r].
      - replace s1 with (record_attestation_weighted s att (W (att_validator att))).1
          by (by rw Hrec). by constructor.
      - by eapply fs_single_record.
      - by rw (record_false V W W_u64 s att _ s1 Hinv Hrec). }
    destruct (negb r && _); [done|]. destruct (canonical && _); [|done]. destruct persists; [|done].
    pose proof (fs_reach_check V W s1 (att_block_hash att) (att_block_number att) total R1) as R2.
    assert (S2 : fs_single (check_finality_weighted s1 (att_block_hash att) (att_block_number att) total).1).
    { rw /check_finality_weighted. case_match; [|done]. apply fs_single_prune; [|done]. by apply fs_reachable_inv. }
    by destruct (check_finality_weighted _ _ _ _).
  - split; [by constructor|]. rw /set_finalized_direct. case_match; [|done].
    apply fs_single_prune; [|done]. by apply fs_reachable_inv.
Qed.

End handler.


(** Equivocation detection is sound and complete.  In such a node, asking
    about block [h] at height [n] for validator [v] reports [h'] exactly when
    [v] has a recorded attestation for the different block [h'] at height [n]. *)
Theorem detect_equivocation_iff V W s h n v h' :
  (∀ v, in_u64 (W v)) → node_reachable V W s →
  detect_equivocation s h n v = Some h' ↔
  h' ≠ h ∧ ∃ atts x, attestation_store s !! h' = Some atts ∧ x ∈ atts ∧
    att_validator x = v ∧ att_block_number x = n.
Proof.
  intros HW [R S]%(node_reachable_inv V W HW).
  pose proof (fs_reachable_inv V W HW s R) as Hinv. rw /detect_equivocation. split.
  - destruct (attested_block_by_height s !! (n, v)) as [k|] eqn:E; [|done].
    case_decide; [done|]. intros [= ->]. split; [done|].
    by apply (inv_height_sound _ _ _ Hinv).
  - intros [Hne (atts & x & Hl & Hx & <- & <-)]. rw (S _ _ _ Hl Hx) decide_False //.
Qed.

(** What finalizing does.  [check_finality_weighted] succeeds exactly when
    the quorum test holds; it then strictly advances the finalized height to
    the block, keeps every recorded attestation above that height and drops
    the rest; otherwise the state is unchanged. *)
Theorem check_finality_effect V W s h n total s' b :
  (∀ v, in_u64 (W v)) → fs_reachable V W s →
  check_finality_weighted s h n total = (s', b) →
  b = can_finalize_weighted s h n total ∧
  (b = false → s' = s) ∧
  (b = true → last_finalized_number s < n ∧ last_finalized_number s' = n ∧
     last_finalized_hash s' = h ∧
     ∀ h' atts, attestation_store s' !! h' = Some atts ↔
       attestation_store s !! h' = Some atts ∧ ∀ x, x ∈ atts → n < att_block_number x).
Proof.
  intros HW R%(fs_reachable_inv V W HW). rw /check_finality_weighted.
  case_guard Hc; intros [= <- <-]; split_and!; try done. intros _.
  apply can_finalize_number in Hc as (? & _ & _). split_and!; [done..|].
  intros h' atts. by apply (pruned_store V W).
Qed.

(** The attestation payload binds what is attested.  The signing message is
    always 112 bytes, and two messages are equal only for the same chain id,
    parent, block, height and round. *)
Theorem attestation_message_binds c1 p1 b1 n1 r1 c2 p2 b2 n2 r2 :
  in_u64 c1 → in_u64 n1 → in_u64 r1 → in_u64 c2 → in_u64 n2 → in_u64 r2 →
  length (attestation_signing_message c1 p1 b1 n1 r1) = 112%nat ∧
  (attestation_signing_message c1 p1 b1 n1 r1 = attestation_signing_message c2 p2 b2 n2 r2 →
   c1 = c2 ∧ p1 = p2 ∧ b1 = b2 ∧ n1 = n2 ∧ r1 = r2).
Proof.
  intros. rw /attestation_signing_message. split; [by autorewrite with bytes|].
  intros E. peel_bytes E. split_and!; eauto with bytes.
Qed.

(** ** Sample runs *)

Definition s_val (n : Z) : Address := b256_of_Z n.
Definition s_hash (n : Z) : ShellHash := b256_of_Z (1000 + n).
Definition s_att (h : ShellHash) (n : Z) (v : Address) : Attestation :=
  MkAttestation 7 (s_hash 0) h n v 0 [].
Definition s_validators : gset Address := {[s_val 1; s_val 2; s_val 3; s_val 4]}.
Definition s_weight (v : Address) : Z := if decide (v ∈ s_validators) then 10 else 0.

Lemma s_weight_u64 v : in_u64 (s_weight v).
Proof. rw /s_weight. case_decide; by vm_compute. Qed.

Lemma s_total : set_sum s_weight s_validators = 40.
Proof. by vm_compute. Qed.

(** Three of four equal validators attest to the block [h] at height 5. *)
Definition s_run (h : ShellHash) (vs : list Address) : FinalityState :=
  foldl (λ s v, (record_attestation_weighted s (s_att h 5 v) (s_weight v)).1) finality_new vs.

Lemma s_run_reachable h vs :
  (∀ v, v ∈ vs → v ∈ s_validators) → fs_reachable s_validators s_weight (s_run h vs).
Proof.
  rw /s_run. induction vs as [|v vs IH] using rev_ind; intros Hvs; [constructor|].
  rw foldl_app /=. apply (fs_reach_record _ _ _ (s_att h 5 v)); [apply IH|apply Hvs]; set_solver.
Qed.

Lemma accountable_safety_witness :
  40 < 3 * set_sum s_weight
    (voters (s_run (s_hash 1) [s_val 1; s_val 2; s_val 3]) (s_hash 1)
     ∩ voters (s_run (s_hash 2) [s_val 2; s_val 3; s_val 4]) (s_hash 2)).
Proof.
  rw -s_total. apply (accountable_safety s_validators s_weight _ _ (s_hash 1) (s_hash 2) 5).
  - apply s_weight_u64.
  - by vm_compute.
  - apply s_run_reachable. set_solver.
  - apply s_run_reachable. set_solver.
  - by vm_compute.
  - by vm_compute.
Defined.

Definition s_node : FinalityState :=
  foldl (λ s v, (handle_attestation s (s_att (s_hash 1) 5 v) (s_weight v) 40 false true).1)
    finality_new [s_val 1; s_val 2; s_val 3].

Lemma s_node_reachable : node_reachable s_validators s_weight s_node.
Proof.
  rw /s_node. cut (∀ vs, (∀ v, v ∈ vs → v ∈ s_validators) →
    node_reachable s_validators s_weight
      (foldl (λ s v, (handle_attestation s (s_att (s_hash 1) 5 v) (s_weight v) 40 false true).1) finality_new vs)).
  { intros H. apply H. set_solver. }
  induction vs as [|v vs IH] using rev_ind; intros Hvs; [constructor|].
  rw foldl_app /=. specialize (IH ltac:(set_solver)).
  apply (node_attest _ _ _ (s_att (s_hash 1) 5 v)); [done|]. apply Hvs. set_solver.
Qed.


Lemma detect_equivocation_iff_witness :
  detect_equivocation s_node (s_hash 2) 5 (s_val 2) = Some (s_hash 1).
Proof.
  apply (detect_equivocation_iff s_validators s_weight s_node);
    [apply s_weight_u64|apply s_node_reachable|].
  split; [by vm_compute|]. eexists _, (s_att (s_hash 1) 5 (s_val 2)).
  split_and!; [by vm_compute|right; by left|done..].
Defined.

Lemma check_finality_effect_witness :
  let '(s', b) := check_finality_weighted s_node (s_hash 1) 5 40 in
  b = true ∧ last_finalized_number s' = 5.
Proof.
  destruct (check_finality_weighted s_node (s_hash 1) 5 40) as [s' b] eqn:E.
  destruct (node_reachable_inv s_validators s_weight s_weight_u64 s_node s_node_reachable) as [R _].
  destruct (check_finality_effect s_validators s_weight s_node (s_hash 1) 5 40 s' b
    s_weight_u64 R E) as (Hb & _ & Htrue).
  assert (b = true) as Hbt by (rw Hb; by vm_compute).
  split; [done|]. by apply Htrue.
Defined.

Lemma attestation_message_binds_witness :
  attestation_signing_message 7 (s_hash 0) (s_hash 1) 5 0 ≠
  attestation_signing_message 7 (s_hash 0) (s_hash 2) 5 0.
Proof.
  assert (H0 : in_u64 0) by done. assert (H5 : in_u64 5) by done.
  assert (H7 : in_u64 7) by done.
  destruct (attestation_message_binds 7 (s_hash 0) (s_hash 1) 5 0 7 (s_hash 0) (s_hash 2) 5 0
    H7 H5 H0 H7 H5 H0) as [_ Hinj].
  intros E. apply Hinj in E as (_ & _ & Hh & _). by apply (f_equal b256_unsigned) in Hh.
Defined.
