(* ===== verification/Round.v ===== *)
(** * The wPoA round state machine

    crates/consensus/src/wpoa_state.rs: one consensus round for a block height,
    from proposal through weighted voting to commit, with view changes.  A
    monotonic clock reading ([Instant]) is a number of nanoseconds and is an
    argument of the handlers that read the clock. *)

From S2P Require Import Prelude Primitives Finality.

Inductive RoundPhase :=
| Idle
| Proposing (block_hash : ShellHash) (proposed_at : Z)
| Voting (block_hash : ShellHash) (votes : gmap Address PQSignature) (vote_weight started_at : Z)
| Committed (block_hash : ShellHash)
| ViewChanging (new_view : Z) (votes : gset Address) (vote_weight started_at : Z).

Inductive WPoaEvent :=
| ProposeAccepted (block_hash : ShellHash)
| VoteNeeded (block_hash : ShellHash)
| BlockCommitted (block_hash : ShellHash) (quorum_signatures : gmap Address PQSignature)
| ProposeTimeout (current_round : Z)
| VoteTimeout (current_round : Z)
| ViewChangeReady (new_view : Z)
| DuplicateVote (voter : Address)
| WrongBlockHash (expected got : ShellHash).

Record WPoaRound := MkWPoaRound {
  round : Z;
  round_block_number : Z;
  phase : RoundPhase;
  round_total_weight : Z;
  round_validator_weights : gmap Address Z;
  vote_timeout_ms : Z;
  propose_timeout_ms : Z;
}.

Definition set_phase (r : WPoaRound) (p : RoundPhase) : WPoaRound :=
  MkWPoaRound (round r) (round_block_number r) p (round_total_weight r)
    (round_validator_weights r) (vote_timeout_ms r) (propose_timeout_ms r).

(** [values().fold(0, saturating_add)]; the order of the values does not matter. *)
Definition saturating_total (m : gmap Address Z) : Z :=
  foldl (λ acc p, sat_add acc p.2) 0 (map_to_list m).

Definition round_new (block_number r : Z) (weights : gmap Address Z) : WPoaRound :=
  MkWPoaRound r block_number Idle (saturating_total weights) weights 25000 25000.

Definition finality_quorum_weight (r : WPoaRound) : Z :=
  strict_quorum_weight (round_total_weight r).

Definition view_change_quorum_weight (r : WPoaRound) : Z :=
  unwrap_or u64_max (u64_try_from (div_ceil (round_total_weight r * 2) 3)).

Definition on_block_proposed (r : WPoaRound) (h : ShellHash) (proposer : Address) (now : Z) :
    WPoaRound * list WPoaEvent :=
  match phase r with
  | Idle => (set_phase r (Voting h ∅ 0 now), [ProposeAccepted h; VoteNeeded h])
  | _ => (r, [])
  end.

Definition on_vote (r : WPoaRound) (voter : Address) (h : ShellHash) (sig : PQSignature) :
    WPoaRound * list WPoaEvent :=
  match round_validator_weights r !! voter with
  | None => (r, [])
  | Some w =>
      match phase r with
      | Voting expected votes vote_weight started_at =>
          if decide (h = expected) then
            match votes !! voter with
            | Some _ => (r, [DuplicateVote voter])
            | None =>
                let votes' := <[voter := sig]> votes in
                let vote_weight' := sat_add vote_weight w in
                if negb (round_total_weight r =? 0)
                   && (finality_quorum_weight r <=? vote_weight')
                then (set_phase r (Committed expected), [BlockCommitted expected votes'])
                else (set_phase r (Voting expected votes' vote_weight' started_at), [])
            end
          else (r, [WrongBlockHash expected h])
      | _ => (r, [])
      end
  end.

Definition on_view_change_vote (r : WPoaRound) (voter : Address) (view : Z) :
    WPoaRound * list WPoaEvent :=
  match round_validator_weights r !! voter with
  | None => (r, [])
  | Some w =>
      match phase r with
      | ViewChanging expected votes vote_weight started_at =>
          if expected =? view then
            if decide (voter ∈ votes) then (r, [])
            else
              let votes' := {[voter]} ∪ votes in
              let vote_weight' := sat_add vote_weight w in
              if negb (round_total_weight r =? 0)
                 && (view_change_quorum_weight r <=? vote_weight')
              then (set_phase r Idle, [ViewChangeReady view])
              else (set_phase r (ViewChanging expected votes' vote_weight' started_at), [])
          else (r, [])
      | _ => (r, [])
      end
  end.

(** [now.duration_since(t).as_millis() as u64] *)
Definition elapsed_ms (now t : Z) : Z := (Z.max (now - t) 0 / 1000000) mod (u64_max + 1).

Definition tick (r : WPoaRound) (now : Z) : list WPoaEvent :=
  match phase r with
  | Proposing _ proposed_at =>
      if propose_timeout_ms r <? elapsed_ms now proposed_at then [ProposeTimeout (round r)] else []
  | Voting _ _ _ started_at =>
      if vote_timeout_ms r <? elapsed_ms now started_at then [VoteTimeout (round r)] else []
  | _ => []
  end.

Definition start_view_change (r : WPoaRound) (view now : Z) : WPoaRound :=
  set_phase r (ViewChanging view ∅ 0 now).

Definition phase_name (r : WPoaRound) : string :=
  match phase r with
  | Idle => "Idle" | Proposing _ _ => "Proposing" | Voting _ _ _ _ => "Voting"
  | Committed _ => "Committed" | ViewChanging _ _ _ _ => "ViewChanging"
  end.

(** ** Traces of inputs *)

Inductive round_input :=
| InPropose (h : ShellHash) (proposer : Address) (now : Z)
| InVote (voter : Address) (h : ShellHash) (sig : PQSignature)
| InViewVote (voter : Address) (view : Z)
| InStartViewChange (view now : Z).

Definition round_step (r : WPoaRound) (i : round_input) : WPoaRound * list WPoaEvent :=
  match i with
  | InPropose h p now => on_block_proposed r h p now
  | InVote v h sig => on_vote r v h sig
  | InViewVote v view => on_view_change_vote r v view
  | InStartViewChange view now => (start_view_change r view now, [])
  end.

(** Feeds the inputs in order; the events are collected in order. *)
Fixpoint round_run (r : WPoaRound) (ins : list round_input) : WPoaRound * list WPoaEvent :=
  match ins with
  | [] => (r, [])
  | i :: ins' =>
      let '(r1, e1) := round_step r i in
      let '(r2, e2) := round_run r1 ins' in
      (r2, e1 ++ e2)
  end.

(** ** Invariant *)

Section invariant.
Context (m : gmap Address Z) (m_u64 : ∀ a w, m !! a = Some w → in_u64 w).
Context (m_total : map_total m <= u64_max).

Lemma weight_of_u64 a : in_u64 (weight_of m a).
Proof using m_u64. rw /weight_of. destruct (m !! a) eqn:E; simpl; [by eapply m_u64|done]. Qed.

Lemma saturating_total_eq : saturating_total m = map_total m.
Proof using All.
  assert (Hp : sumZ snd (map_to_list m) = map_total m).
  { rw /map_total /set_sum -(sumZ_perm _ (map_to_list m).*1).
    - apply NoDup_Permutation; [apply NoDup_fst_map_to_list|apply NoDup_elements|].
      intros a. rw elem_of_elements elem_of_dom. split.
      + intros ([b w] & -> & Hb%elem_of_map_to_list)%list_elem_of_fmap. by exists w.
      + intros [w Hw]. apply list_elem_of_fmap. exists (a, w). by rw elem_of_map_to_list.
    - rw sumZ_fmap. apply sumZ_ext. intros [a w] Ha%elem_of_map_to_list.
      by rw /weight_of /= Ha. }
  rw /saturating_total foldl_sat_add.
  - intros [a w] Ha%elem_of_map_to_list. by apply (m_u64 a w).
  - done.
  - rw Hp. lia.
Qed.

Local Abbreviation W := (weight_of m).
Local Abbreviation total := (map_total m).

(** [sigs] is a commit certificate for [h] out of the inputs [ins]. *)
Definition commit_cert (ins : list round_input) (h : ShellHash)
    (sigs : gmap Address PQSignature) : Prop :=
  dom sigs ⊆ dom m ∧ 2 * total < 3 * set_sum W (dom sigs) ∧
  ∀ v sig, sigs !! v = Some sig → InVote v h sig ∈ ins.

(** [vs] asked for view [view] and carry at least two thirds. *)
Definition view_cert (ins : list round_input) (view : Z) (vs : gset Address) : Prop :=
  vs ⊆ dom m ∧ 2 * total <= 3 * set_sum W vs ∧ ∀ v, v ∈ vs → InViewVote v view ∈ ins.

Definition event_ok (ins : list round_input) (e : WPoaEvent) : Prop :=
  match e with
  | BlockCommitted h sigs => commit_cert ins h sigs
  | ViewChangeReady view => ∃ vs, view_cert ins view vs
  | _ => True
  end.

Definition phase_ok (ins : list round_input) (p : RoundPhase) : Prop :=
  match p with
  | Voting h votes w _ =>
      dom votes ⊆ dom m ∧ w = set_sum W (dom votes) ∧
      ∀ v sig, votes !! v = Some sig → InVote v h sig ∈ ins
  | ViewChanging view vs w _ =>
      vs ⊆ dom m ∧ w = set_sum W vs ∧ ∀ v, v ∈ vs → InViewVote v view ∈ ins
  | _ => True
  end.

Record round_ok (ins : list round_input) (r : WPoaRound) : Prop := {
  ok_weights : round_validator_weights r = m;
  ok_total : round_total_weight r = total;
  ok_phase : phase_ok ins (phase r);
}.

Lemma total_u64 : in_u64 total.
Proof using All. split; [|done]. apply set_sum_nonneg. intros; apply weight_of_u64. Qed.

Lemma sub_sum_le X : X ⊆ dom m → 0 <= set_sum W X <= total.
Proof using m_u64.
  intros HX. split.
  - apply set_sum_nonneg. intros; by apply weight_of_u64.
  - apply set_sum_mono; [|done]. intros; by apply weight_of_u64.
Qed.

(** Adding a new voter never saturates. *)
Lemma add_voter v w X :
  m !! v = Some w → v ∉ X → X ⊆ dom m →
  {[v]} ∪ X ⊆ dom m ∧ sat_add (set_sum W X) w = set_sum W ({[v]} ∪ X).
Proof using All.
  intros Hv HvX HX. assert ({[v]} ∪ X ⊆ dom m) as HX'.
  { apply elem_of_dom_2 in Hv. set_solver. }
  split; [done|]. rw set_sum_insert //. pose proof (sub_sum_le _ HX') as Hle.
  rw set_sum_insert // in Hle. assert (W v = w) as -> by (by rw /weight_of Hv).
  assert (W v = w) as <- by (by rw /weight_of Hv). int_lia.
Qed.

Lemma phase_ok_mono ins i p : phase_ok ins p → phase_ok (ins ++ [i]) p.
Proof.
  destruct p; simpl; try done; intros (? & ? & Hall); (split_and!; [done..|]);
    intros; apply elem_of_app; left; eauto.
Qed.

Lemma round_ok_new bn rd : round_ok [] (round_new bn rd m).
Proof using All. split; simpl; [done| |done]. by apply saturating_total_eq. Qed.

Lemma round_ok_same ins i r : round_ok ins r → round_ok (ins ++ [i]) r.
Proof. intros []. split; [done..|]. by apply phase_ok_mono. Qed.

(** Closes the branches of a handler that leave the round as it was. *)
Ltac unchanged := intros [= <- <-]; split; [done|by repeat constructor].

Lemma on_vote_ok ins r v h sig r' ev :
  round_ok ins r → on_vote r v h sig = (r', ev) →
  round_ok (ins ++ [InVote v h sig]) r' ∧ Forall (event_ok (ins ++ [InVote v h sig])) ev.
Proof using All.
  intros Hok. pose proof (round_ok_same ins (InVote v h sig) r Hok) as Hsame.
  destruct Hok as [Hw Ht Hp]. rw /on_vote Hw.
  destruct (m !! v) as [w|] eqn:Hv; [|unchanged].
  destruct (phase r) as [|hp pt|hv votes vw st|hc|nv vs vw st] eqn:Ep;
    try (unchanged; fail).
  case_guard Hh; [|unchanged]. subst hv.
  destruct (votes !! v) eqn:Evotes; [unchanged|].
  destruct Hp as (Hdom & -> & Hin). cbv zeta.
  destruct (add_voter v w (dom votes)) as [Hdom' ->]; [done|by apply not_elem_of_dom|done|].
  assert (Hin' : ∀ u s, <[v := sig]> votes !! u = Some s →
    InVote u h s ∈ ins ++ [InVote v h sig]).
  { intros u s [[<- <-]|[_ Hu]]%lookup_insert_Some; apply elem_of_app; [|by left; eauto].
    right. by left. }
  rw -(dom_insert_L votes v sig) in Hdom' *. case_guard Hq; intros [= <- <-].
  - split; [by split|]. apply Forall_singleton. split_and!; [done| |done].
    apply andb_true_iff in Hq as [Hz%negb_true_iff%Z.eqb_neq Hq%Z.leb_le]. rw /finality_quorum_weight Ht in Hq.
    pose proof (sub_sum_le _ Hdom'). pose proof total_u64 as HT.
    apply has_weighted_quorum_iff; [unfold in_u64 in *; lia|done|].
    rw /has_weighted_quorum (proj2 (Z.leb_le _ _)) //=. apply Z.ltb_lt.
    rw Ht in Hz. destruct HT. lia.
  - split; [|done]. by split.
Qed.

Lemma on_view_change_vote_ok ins r v view r' ev :
  round_ok ins r → on_view_change_vote r v view = (r', ev) →
  round_ok (ins ++ [InViewVote v view]) r' ∧ Forall (event_ok (ins ++ [InViewVote v view])) ev.
Proof using All.
  intros Hok. pose proof (round_ok_same ins (InViewVote v view) r Hok) as Hsame.
  destruct Hok as [Hw Ht Hp]. rw /on_view_change_vote Hw.
  destruct (m !! v) as [w|] eqn:Hv; [|unchanged].
  destruct (phase r) as [|hp pt|hv votes vw st|hc|nv vs vw st] eqn:Ep;
    try (unchanged; fail).
  case_guard Hh; [|unchanged]. apply Z.eqb_eq in Hh as ->.
  case_guard Hvs; [unchanged|]. destruct Hp as (Hdom & -> & Hin). cbv zeta.
  destruct (add_voter v w vs) as [Hdom' ->]; [done..|].
  assert (Hin' : ∀ u, u ∈ {[v]} ∪ vs → InViewVote u view ∈ ins ++ [InViewVote v view]).
  { intros u [->%elem_of_singleton|Hu]%elem_of_union; apply elem_of_app; [|by left; eauto].
    right. by left. }
  case_guard Hq; intros [= <- <-]; [|by split; [split|]].
  split; [by split|]. apply Forall_singleton. exists ({[v]} ∪ vs). split_and!; [done| |done].
  apply andb_true_iff in Hq as [Hz%negb_true_iff%Z.eqb_neq Hq%Z.leb_le].
  rw /view_change_quorum_weight Ht in Hq. pose proof total_u64 as [HT0 HT1].
  rw /u64_try_from /div_ceil in Hq. destruct ((_ && _) : bool) eqn:Hb in Hq; simpl in Hq.
  - destruct (_ =? 0) eqn:Hm in Hq; [apply Z.eqb_eq in Hm|apply Z.eqb_neq in Hm]; div_lia.
  - pose proof (sub_sum_le _ Hdom'). unfold_int. lia.
Qed.

Lemma round_step_ok ins r i r' ev :
  round_ok ins r → round_step r i = (r', ev) →
  round_ok (ins ++ [i]) r' ∧ Forall (event_ok (ins ++ [i])) ev.
Proof using All.
  intros Hok. destruct i as [h p now|v h sig|v view|view now]; simpl.
  - pose proof (round_ok_same ins (InPropose h p now) r Hok) as Hsame.
    rw /on_block_proposed. destruct (phase r); try (unchanged; fail).
    intros [= <- <-]. split; [|by repeat constructor]. destruct Hsame.
    split; [done..|]. simpl. split_and!; [set_solver|by rw dom_empty_L set_sum_empty|].
    intros ? ?. by rw lookup_empty.
  - by apply on_vote_ok.
  - by apply on_view_change_vote_ok.
  - intros [= <- <-]. split; [|done]. destruct Hok. split; [done..|]. simpl.
    split_and!; [set_solver|by rw set_sum_empty|set_solver].
Qed.

Lemma event_ok_mono ins i e : event_ok ins e → event_ok (ins ++ i) e.
Proof.
  destruct e; simpl; try done.
  - intros (? & ? & Hall). split_and!; [done..|]. intros. apply elem_of_app. left. eauto.
  - intros (vs & ? & ? & Hall). exists vs. split_and!; [done..|].
    intros. apply elem_of_app. left. eauto.
Qed.

Lemma round_run_ok pre r ins r' ev :
  round_ok pre r → round_run r ins = (r', ev) →
  round_ok (pre ++ ins) r' ∧ Forall (event_ok (pre ++ ins)) ev.
Proof using All.
  revert pre r ev. induction ins as [|i ins IH]; intros pre r ev Hok; simpl.
  { intros [= <- <-]. by rw app_nil_r. }
  destruct (round_step r i) as [r1 e1] eqn:E1. destruct (round_run r1 ins) as [r2 e2] eqn:E2.
  intros [= <- <-]. destruct (round_step_ok pre r i r1 e1 Hok E1) as [Hok1 He1].
  destruct (IH (pre ++ [i]) r1 e2 Hok1 E2) as [Hok2 He2].
  rw -app_assoc /= in Hok2 He2. split; [done|]. apply Forall_app. split; [|done].
  eapply Forall_impl; [exact He1|]. intros e He. apply (event_ok_mono _ ins) in He.
  by rw -app_assoc in He.
Qed.
End invariant.

(** ** Progress of the voting phase *)

Definition no_view_change (ins : list round_input) : Prop :=
  ∀ view now, InStartViewChange view now ∉ ins.

(** The inputs [ins] did not commit [h] yet, and every known voter for [h]
    among them is counted. *)
Definition voting_for (m : gmap Address Z) (ins : list round_input) (h : ShellHash)
    (r : WPoaRound) : Prop :=
  ∃ votes w st, phase r = Voting h votes w st ∧
    (round_total_weight r = 0 ∨ w < finality_quorum_weight r) ∧
    ∀ v sig, v ∈ dom m → InVote v h sig ∈ ins → v ∈ dom votes.

Lemma voting_step m pre h r i r' ev :
  round_validator_weights r = m → voting_for m pre h r →
  (∀ view now, i ≠ InStartViewChange view now) → round_step r i = (r', ev) →
  round_validator_weights r' = m ∧
  (voting_for m (pre ++ [i]) h r' ∧ (∀ h' s', BlockCommitted h' s' ∉ ev) ∨
   phase r' = Committed h ∧ ∃ sigs, ev = [BlockCommitted h sigs]).
Proof.
  intros Hm (votes & w & st & Hp & Hlow & Hall) Hno.
  assert (Hstay : (∀ v sig, i = InVote v h sig → v ∈ dom m → v ∈ dom votes) →
    voting_for m (pre ++ [i]) h r).
  { intros Hi. exists votes, w, st. split_and!; [done..|].
    intros v sig Hv [?|Hi']%elem_of_app; [by eauto|].
    apply list_elem_of_singleton in Hi'. by eauto. }
  assert (∀ v h' s', BlockCommitted h' s' ∉ [DuplicateVote v]) as Hd by set_solver.
  destruct i as [h' p now|v h' sig|v view|view now]; simpl.
  - rw /on_block_proposed Hp. intros [= <- <-]. split; [done|]. left.
    split; [by apply Hstay|set_solver].
  - rw /on_vote Hm Hp. destruct (m !! v) as [x|] eqn:Hv.
    2:{ intros [= <- <-]. split; [done|]. left. split; [|set_solver]. apply Hstay.
        intros u s E [y Hy]%elem_of_dom. injection E as -> ->. congruence. }
    case_guard Hh; [subst h'|].
    2:{ intros [= <- <-]. split; [done|]. left. split; [|set_solver]. apply Hstay. congruence. }
    destruct (votes !! v) eqn:Evotes.
    { intros [= <- <-]. split; [done|]. left. split; [|set_solver]. apply Hstay.
      intros u s E _. injection E as -> ->. by eapply elem_of_dom_2. }
    cbv zeta. case_guard Hq; intros [= <- <-]; (split; [done|]); [right; by eauto|left].
    split; [|set_solver]. eexists _, _, st. split_and!; [done| |].
    + simpl. apply andb_false_iff in Hq as [Hq%negb_false_iff%Z.eqb_eq|Hq%Z.leb_gt]; auto.
    + intros u s Hu [?|E%list_elem_of_singleton]%elem_of_app; rw dom_insert_L; [|set_solver].
      apply elem_of_union_r. eauto.
  - rw /on_view_change_vote Hm Hp. destruct (m !! v); intros [= <- <-]; (split; [done|]);
      left; (split; [by apply Hstay|set_solver]).
  - by destruct (Hno view now).
Qed.

Lemma committed_step h r i r' ev :
  phase r = Committed h → (∀ view now, i ≠ InStartViewChange view now) →
  round_step r i = (r', ev) → r' = r ∧ ev = [].
Proof.
  intros Hp Hno. destruct i as [h' p now|v h' sig|v view|view now]; simpl.
  - rw /on_block_proposed Hp. by intros [= <- <-].
  - rw /on_vote Hp. destruct (_ !! _); by intros [= <- <-].
  - rw /on_view_change_vote Hp. destruct (_ !! _); by intros [= <- <-].
  - by destruct (Hno view now).
Qed.

Lemma no_view_change_cons i ins :
  no_view_change (i :: ins) → (∀ view now, i ≠ InStartViewChange view now) ∧ no_view_change ins.
Proof. intros H. split; intros view now; specialize (H view now); set_solver. Qed.

Lemma committed_run h r ins r' ev :
  phase r = Committed h → no_view_change ins → round_run r ins = (r', ev) → r' = r ∧ ev = [].
Proof.
  revert ev. induction ins as [|i ins IH]; intros ev Hp Hno; simpl; [by intros [= <- <-]|].
  apply no_view_change_cons in Hno as [Hi Hno].
  destruct (round_step r i) as [r1 e1] eqn:E1.
  destruct (committed_step h r i r1 e1 Hp Hi E1) as [-> ->].
  destruct (round_run r ins) as [r2 e2] eqn:E2. intros [= <- <-].
  by destruct (IH e2 Hp Hno eq_refl) as [-> ->].
Qed.

Lemma voting_run m pre h r ins r' ev :
  round_validator_weights r = m → voting_for m pre h r → no_view_change ins →
  round_run r ins = (r', ev) →
  (voting_for m (pre ++ ins) h r' ∧ (∀ h' s', BlockCommitted h' s' ∉ ev)) ∨
  (phase r' = Committed h ∧ ∃ e sigs, ev = e ++ [BlockCommitted h sigs] ∧
    ∀ h' s', BlockCommitted h' s' ∉ e).
Proof.
  revert pre r ev. induction ins as [|i ins IH]; intros pre r ev Hm Hv Hno; simpl.
  { intros [= <- <-]. rw app_nil_r. left. split; [done|set_solver]. }
  apply no_view_change_cons in Hno as [Hi Hno].
  destruct (round_step r i) as [r1 e1] eqn:E1. destruct (round_run r1 ins) as [r2 e2] eqn:E2.
  intros [= <- <-].
  destruct (voting_step m pre h r i r1 e1 Hm Hv Hi E1) as [Hm1 [[Hv1 Hn1]|[Hc [sigs ->]]]].
  - destruct (IH (pre ++ [i]) r1 e2 Hm1 Hv1 Hno E2) as [[Hv2 Hn2]|(Hc & e & sigs & -> & Hn2)].
    + left. rw -app_assoc in Hv2. split; [done|]. set_solver.
    + right. split; [done|]. exists (e1 ++ e), sigs. rw -app_assoc. split; [done|]. set_solver.
  - right. destruct (committed_run h r1 ins r2 e2 Hc Hno E2) as [-> ->].
    split; [done|]. exists [], sigs. split; [done|]. set_solver.
Qed.

(** ** Properties *)

(** C5: a commit is always backed by a certificate.  Whatever inputs a round
    over validator weights [m] processes, every [BlockCommitted] it emits
    carries signatures of known validators only, of strictly more than two
    thirds of the total weight, each of them submitted as a vote for that very
    block; and every [ViewChangeReady] stands for known validators of at least
    two thirds who asked for that view. *)
Theorem round_certificates m bn rd ins r ev :
  (∀ a w, m !! a = Some w → in_u64 w) → map_total m <= u64_max →
  round_run (round_new bn rd m) ins = (r, ev) →
  (∀ h sigs, BlockCommitted h sigs ∈ ev → commit_cert m ins h sigs) ∧
  (∀ view, ViewChangeReady view ∈ ev → ∃ vs, view_cert m ins view vs).
Proof.
  intros Hm Ht Hrun.
  destruct (round_run_ok m Hm Ht [] _ ins r ev (round_ok_new m Hm Ht bn rd) Hrun) as [_ Hev].
  rw Forall_forall in Hev. split.
  - intros h sigs H. by apply Hev in H.
  - intros view H. by apply Hev in H.
Qed.

(** C2: agreement with accountability.  If two nodes that run a round over the
    same validator weights commit two blocks, then validators of more than a
    third of the weight voted for both of them. *)
Theorem round_agreement m bn1 rd1 ins1 r1 ev1 bn2 rd2 ins2 r2 ev2 h1 s1 h2 s2 :
  (∀ a w, m !! a = Some w → in_u64 w) → map_total m <= u64_max →
  round_run (round_new bn1 rd1 m) ins1 = (r1, ev1) → BlockCommitted h1 s1 ∈ ev1 →
  round_run (round_new bn2 rd2 m) ins2 = (r2, ev2) → BlockCommitted h2 s2 ∈ ev2 →
  map_total m < 3 * set_sum (weight_of m) (dom s1 ∩ dom s2) ∧
  ∀ v, v ∈ dom s1 ∩ dom s2 → ∃ x1 x2, InVote v h1 x1 ∈ ins1 ∧ InVote v h2 x2 ∈ ins2.
Proof.
  intros Hm Ht H1 Hc1 H2 Hc2.
  destruct (round_run_ok m Hm Ht [] _ _ _ _ (round_ok_new m Hm Ht bn1 rd1) H1) as [_ Hev1].
  destruct (round_run_ok m Hm Ht [] _ _ _ _ (round_ok_new m Hm Ht bn2 rd2) H2) as [_ Hev2].
  rw Forall_forall in Hev1. rw Forall_forall in Hev2.
  apply Hev1 in Hc1 as (Hd1 & Hw1 & Hs1). apply Hev2 in Hc2 as (Hd2 & Hw2 & Hs2). split.
  - apply (quorum_overlap (dom m) (weight_of m)); try done. by apply weight_of_u64.
  - intros v [[x1 ?]%elem_of_dom [x2 ?]%elem_of_dom]%elem_of_intersection.
    exists x1, x2. eauto.
Qed.

(** C7: progress.  A round that accepted the proposal [h] and sees, in any
    order and mixed with any other inputs except the start of a view change,
    votes for [h] from validators [X] of more than two thirds of the weight
    ends committed to [h], and has emitted exactly one [BlockCommitted], for
    [h], as its last event. *)
Theorem round_commits m bn rd h p now ins r ev X :
  (∀ a w, m !! a = Some w → in_u64 w) → map_total m <= u64_max →
  X ⊆ dom m → 2 * map_total m < 3 * set_sum (weight_of m) X →
  (∀ v, v ∈ X → ∃ sig, InVote v h sig ∈ ins) → no_view_change ins →
  round_run (round_new bn rd m) (InPropose h p now :: ins) = (r, ev) →
  phase r = Committed h ∧
  ∃ e sigs, ev = e ++ [BlockCommitted h sigs] ∧ ∀ h' s', BlockCommitted h' s' ∉ e.
Proof.
  intros Hm Ht HX Hq Hvotes Hno Hrun. pose proof (total_u64 m Hm Ht) as HT.
  destruct (round_run_ok m Hm Ht [] _ _ _ _ (round_ok_new m Hm Ht bn rd) Hrun) as [[_ Htot Hph] _].
  simpl in Hrun. destruct (round_run _ ins) as [r2 e2] eqn:E2.
  injection Hrun as -> <-. apply (voting_run m [] h) in E2; [|done| |done].
  2:{ exists ∅, 0, now. split_and!; [done| |set_solver]. simpl.
      rw /finality_quorum_weight /= saturating_total_eq //.
      destruct (decide (map_total m = 0)) as [E|E]; [by left|right].
      unfold in_u64 in HT. rw strict_quorum_weight_eq //; div_lia. }
  destruct E2 as [[(votes & w & st & Hp & Hlow & Hall) _]|(Hc & e & sigs & -> & Hn)].
  - rw Hp /= in Hph. destruct Hph as (Hdom & -> & _).
    assert (X ⊆ dom votes) as Hsub.
    { intros v Hv. destruct (Hvotes v Hv) as [sig Hin]. eapply Hall; [by apply HX|done]. }
    assert (set_sum (weight_of m) X <= set_sum (weight_of m) (dom votes)).
    { apply set_sum_mono; [|done]. intros; by apply weight_of_u64. }
    pose proof (sub_sum_le m Hm _ HX). pose proof (sub_sum_le m Hm _ Hdom).
    unfold in_u64 in HT. rw /finality_quorum_weight Htot in Hlow. destruct Hlow as [?|Hlow]; [lia|].
    rw strict_quorum_weight_eq // in Hlow; div_lia.
  - split; [done|]. exists ([ProposeAccepted h; VoteNeeded h] ++ e), sigs.
    split; [done|]. set_solver.
Qed.

(** ** Sample runs *)

Definition s_weights : gmap Address Z :=
  list_to_map [(s_val 1, 10); (s_val 2, 10); (s_val 3, 10); (s_val 4, 10)].
Definition s_sig : PQSignature := MkPQSignature Dilithium3 [].
Definition s_votes (h : ShellHash) (vs : list Address) : list round_input :=
  (λ v, InVote v h s_sig) <$> vs.

Lemma s_weights_u64 a w : s_weights !! a = Some w → in_u64 w.
Proof.
  intros H%elem_of_list_to_map_2. repeat (apply elem_of_cons in H as [[= _ ->]|H]; [done|]).
  by apply elem_of_nil in H.
Qed.

Lemma s_weights_total : map_total s_weights = 40.
Proof. by vm_compute. Qed.

Definition s_trace (h : ShellHash) (vs : list Address) : list round_input :=
  InPropose h (s_val 1) 0 :: s_votes h vs.
Definition s_round : WPoaRound := round_new 5 0 s_weights.

(** Three votes commit, then three view-change votes open view 1. *)
Definition s_long : list round_input :=
  s_trace (s_hash 1) [s_val 1; s_val 2; s_val 3]
    ++ InStartViewChange 1 7 :: ((λ v, InViewVote v 1) <$> [s_val 2; s_val 3; s_val 4]).

Definition commit_of (h : ShellHash) (e : WPoaEvent) : bool :=
  match e with BlockCommitted h' _ => bool_decide (h' = h) | _ => false end.
Definition view_ready_of (view : Z) (e : WPoaEvent) : bool :=
  match e with ViewChangeReady view' => view' =? view | _ => false end.

Lemma commit_of_elem h ev :
  existsb (commit_of h) ev = true → ∃ sigs, BlockCommitted h sigs ∈ ev.
Proof.
  intros (e & He%list_elem_of_In & Hc)%existsb_exists. destruct e; try done.
  apply bool_decide_eq_true in Hc as ->. eauto.
Qed.

Lemma view_ready_of_elem view ev :
  existsb (view_ready_of view) ev = true → ViewChangeReady view ∈ ev.
Proof.
  intros (e & He%list_elem_of_In & Hc)%existsb_exists. destruct e; try done.
  by apply Z.eqb_eq in Hc as ->.
Qed.

Lemma round_certificates_witness :
  (∃ sigs, commit_cert s_weights s_long (s_hash 1) sigs) ∧
  ∃ vs, view_cert s_weights s_long 1 vs.
Proof.
  destruct (round_certificates s_weights 5 0 s_long _ _ s_weights_u64
    ltac:(by rw s_weights_total) (surjective_pairing _)) as [Hc Hv].
  destruct (commit_of_elem (s_hash 1) (round_run s_round s_long).2) as [sigs Hs];
    [by vm_compute|].
  split; [exists sigs; exact (Hc _ _ Hs)|apply Hv, view_ready_of_elem; by vm_compute].
Defined.

Lemma round_agreement_witness :
  ∃ s1 s2 : gmap Address PQSignature,
    map_total s_weights < 3 * set_sum (weight_of s_weights) (dom s1 ∩ dom s2).
Proof.
  destruct (commit_of_elem (s_hash 1)
    (round_run s_round (s_trace (s_hash 1) [s_val 1; s_val 2; s_val 3])).2) as [s1 H1];
    [by vm_compute|].
  destruct (commit_of_elem (s_hash 2)
    (round_run s_round (s_trace (s_hash 2) [s_val 2; s_val 3; s_val 4])).2) as [s2 H2];
    [by vm_compute|].
  exists s1, s2.
  exact (proj1 (round_agreement s_weights 5 0 _ _ _ 5 0 _ _ _ (s_hash 1) s1 (s_hash 2) s2
    s_weights_u64 ltac:(by rw s_weights_total)
    (surjective_pairing _) H1 (surjective_pairing _) H2)).
Defined.

(** A wrong hash, a stranger and a duplicate among the votes do not matter. *)
Definition s_mixed : list round_input :=
  [InVote (s_val 4) (s_hash 1) s_sig; InVote (s_val 9) (s_hash 1) s_sig;
   InVote (s_val 2) (s_hash 2) s_sig; InVote (s_val 2) (s_hash 1) s_sig;
   InPropose (s_hash 2) (s_val 3) 9; InVote (s_val 4) (s_hash 1) s_sig;
   InVote (s_val 1) (s_hash 1) s_sig].

Lemma round_commits_witness :
  phase (round_run s_round (InPropose (s_hash 1) (s_val 1) 3 :: s_mixed)).1 = Committed (s_hash 1).
Proof.
  apply (round_commits s_weights 5 0 (s_hash 1) (s_val 1) 3 s_mixed _
    (round_run s_round (InPropose (s_hash 1) (s_val 1) 3 :: s_mixed)).2
    {[s_val 1; s_val 2; s_val 4]}).
  - apply s_weights_u64.
  - by rw s_weights_total.
  - apply (bool_decide_unpack _). by vm_compute.
  - by vm_compute.
  - intros v Hv. exists s_sig. unfold s_mixed. set_solver.
  - intros view now. rw /s_mixed !not_elem_of_cons. by split_and!; [..|apply not_elem_of_nil].
  - apply surjective_pairing.
Defined.
