(* ===== verification/ViewChange.v ===== *)
(** * View changes

    crates/consensus/src/view_change.rs: the signed request to rotate the
    proposer and the weighted tally of such requests.  The wall clock is an
    argument of [view_change_new]; a failed assertion (a panic) is [None]. *)

From S2P Require Import Prelude Primitives Finality.

Definition VIEW_CHANGE_TIMEOUT_MS : Z := 10000.

(** [b"SHELL_VIEWCHG_V1"] *)
Definition VIEWCHG_DOMAIN : list Z :=
  [83; 72; 69; 76; 76; 95; 86; 73; 69; 87; 67; 72; 71; 95; 86; 49].

Record ViewChangeMessage := MkViewChangeMessage {
  vc_chain_id : Z;
  vc_block_number : Z;
  vc_view : Z;
  highest_qc_hash : ShellHash;
  vc_validator : Address;
  vc_signature : list Z;
}.

Definition view_signing_message (chain_id block_number view : Z) (qc : ShellHash) : list Z :=
  VIEWCHG_DOMAIN
  ++ be_bytes 8 chain_id
  ++ be_bytes 8 block_number
  ++ be_bytes 8 view
  ++ as_bytes qc.

Definition view_own_signing_message (m : ViewChangeMessage) : list Z :=
  view_signing_message (vc_chain_id m) (vc_block_number m) (vc_view m) (highest_qc_hash m).

Record ViewChangeState := MkViewChangeState {
  vcs_current_view : Z;
  last_block_time_ms : Z;
  pending_view_changes : gmap Z (list ViewChangeMessage);
  quorum_weight : Z;
  vcs_validator_weights : gmap Address Z;
  pending_view_change_weights : gmap Z Z;
  vcs_chain_id : Z;
}.

Definition view_change_new (now_ms : Z) : ViewChangeState :=
  MkViewChangeState 0 now_ms ∅ 1 ∅ ∅ 0.

Definition set_chain_id (s : ViewChangeState) (c : Z) : ViewChangeState :=
  MkViewChangeState (vcs_current_view s) (last_block_time_ms s) (pending_view_changes s)
    (quorum_weight s) (vcs_validator_weights s) (pending_view_change_weights s) c.

Definition set_pending (s : ViewChangeState) (p : gmap Z (list ViewChangeMessage))
    (w : gmap Z Z) : ViewChangeState :=
  MkViewChangeState (vcs_current_view s) (last_block_time_ms s) p
    (quorum_weight s) (vcs_validator_weights s) w (vcs_chain_id s).

(** [messages.first()] pins the height of the view. *)
Definition same_height (messages : list ViewChangeMessage) (msg : ViewChangeMessage) : bool :=
  match head messages with
  | Some first => vc_block_number first =? vc_block_number msg
  | None => true
  end.

(** Once the entry of the view exists ([entry().or_default()]) it stays, even
    when the message is refused afterwards. *)
Definition record_view_change (s : ViewChangeState) (msg : ViewChangeMessage) :
    ViewChangeState * bool :=
  if negb (vc_view msg =? vcs_current_view s) then (s, false)
  else if negb (vcs_chain_id s =? 0) && negb (vc_chain_id msg =? vcs_chain_id s) then (s, false)
  else
    match vcs_validator_weights s !! vc_validator msg with
    | None => (s, false)
    | Some w =>
        if w =? 0 then (s, false)
        else
          let messages := unwrap_or [] (pending_view_changes s !! vc_view msg) in
          let s1 := set_pending s (<[vc_view msg := messages]> (pending_view_changes s))
                      (pending_view_change_weights s) in
          if existsb (λ m, bool_decide (vc_validator m = vc_validator msg)) messages
          then (s1, false)
          else if negb (same_height messages msg) then (s1, false)
          else
            let vote_weight :=
              sat_add (unwrap_or 0 (pending_view_change_weights s !! vc_view msg)) w in
            (set_pending s (<[vc_view msg := messages ++ [msg]]> (pending_view_changes s))
               (<[vc_view msg := vote_weight]> (pending_view_change_weights s)),
             Z.max (quorum_weight s) 1 <=? vote_weight)
    end.

Definition check_timeout (s : ViewChangeState) (now_ms block_time_ms : Z) : bool :=
  Z.max block_time_ms VIEW_CHANGE_TIMEOUT_MS <=? sat_sub now_ms (last_block_time_ms s).

Definition advance_view (s : ViewChangeState) : ViewChangeState :=
  MkViewChangeState (sat_add (vcs_current_view s) 1) (last_block_time_ms s) ∅
    (quorum_weight s) (vcs_validator_weights s) ∅ (vcs_chain_id s).

Definition select_proposer (view : Z) (authorities : list Address) : option Address :=
  match authorities with
  | [] => None
  | _ => authorities !! unwrap_or 0%nat (round_robin_index view (length authorities))
  end.

Definition reset_for_block (s : ViewChangeState) (now_ms : Z) : ViewChangeState :=
  MkViewChangeState 0 now_ms ∅ (quorum_weight s) (vcs_validator_weights s) ∅ (vcs_chain_id s).

(** The doubling is in [u64]. *)
Definition configure_quorum (s : ViewChangeState) (weights : gmap Address Z) (total : Z) :
    ViewChangeState :=
  MkViewChangeState (vcs_current_view s) (last_block_time_ms s) (pending_view_changes s)
    (div_ceil (wrapping_mul 2 (Z.max total 1)) 3) weights (pending_view_change_weights s)
    (vcs_chain_id s).

(** ** The tally *)

(** The requests counted for the current view. *)
Definition counted (s : ViewChangeState) : list ViewChangeMessage :=
  unwrap_or [] (pending_view_changes s !! vcs_current_view s).

(** What the tally knows about its counted requests [l], for the weights [m]. *)
Record tally_ok (m : gmap Address Z) (s : ViewChangeState) : Prop := {
  tally_nodup : NoDup (vc_validator <$> counted s);
  tally_known : ∀ x, x ∈ counted s →
    vc_view x = vcs_current_view s ∧ (vcs_chain_id s = 0 ∨ vc_chain_id x = vcs_chain_id s) ∧
    0 < weight_of m (vc_validator x);
  tally_height : ∀ x y, x ∈ counted s → y ∈ counted s → vc_block_number x = vc_block_number y;
  tally_weight : unwrap_or 0 (pending_view_change_weights s !! vcs_current_view s)
    = sumZ (weight_of m) (vc_validator <$> counted s);
}.

Lemma existsb_false_elem {A} (f : A → bool) l x : existsb f l = false → x ∈ l → f x = false.
Proof.
  intros Hf Hx. destruct (f x) eqn:E; [|done]. rw -Hf. symmetry. apply existsb_exists.
  exists x. by rw -list_elem_of_In.
Qed.

(** The sum over distinct voters is the sum over the set of them. *)
Lemma sumZ_set {A} `{Countable A} (f : A → Z) (l : list A) :
  NoDup l → sumZ f l = set_sum f (list_to_set l).
Proof. intros Hl. rw /set_sum. apply sumZ_perm. by rw elements_list_to_set. Qed.

Section tally.
Context (m : gmap Address Z) (m_u64 : ∀ a w, m !! a = Some w → in_u64 w).
Context (m_total : map_total m <= u64_max).

Lemma weight_of_range a : in_u64 (weight_of m a).
Proof using m_u64. rw /weight_of. destruct (m !! a) eqn:E; simpl; [by eapply m_u64|done]. Qed.

Lemma weight_of_pos_dom a : 0 < weight_of m a → a ∈ dom m.
Proof.
  rw /weight_of. destruct (m !! a) eqn:E; simpl; [|lia]. intros _. by eapply elem_of_dom_2.
Qed.

Lemma voters_total (l : list Address) :
  NoDup l → (∀ a, a ∈ l → 0 < weight_of m a) → 0 <= sumZ (weight_of m) l <= map_total m.
Proof using m_u64.
  intros Hl Hpos. rw sumZ_set //. split.
  - apply set_sum_nonneg. intros. by apply weight_of_range.
  - apply set_sum_mono; [intros; by apply weight_of_range|].
    intros a Ha%elem_of_list_to_set. by apply weight_of_pos_dom, Hpos.
Qed.

(** The request is of a kind the tally counts. *)
Definition countable (s : ViewChangeState) (msg : ViewChangeMessage) : Prop :=
  vc_view msg = vcs_current_view s ∧
  (vcs_chain_id s = 0 ∨ vc_chain_id msg = vcs_chain_id s) ∧
  0 < weight_of m (vc_validator msg) ∧
  (vc_validator msg ∉ vc_validator <$> counted s) ∧
  ∀ x, x ∈ counted s → vc_block_number x = vc_block_number msg.

(** What recording a request leaves alone. *)
Definition same_frame (s s' : ViewChangeState) : Prop :=
  vcs_current_view s' = vcs_current_view s ∧ vcs_chain_id s' = vcs_chain_id s ∧
  quorum_weight s' = quorum_weight s ∧ vcs_validator_weights s' = vcs_validator_weights s ∧
  last_block_time_ms s' = last_block_time_ms s.

Lemma same_height_spec s msg :
  tally_ok m s → (same_height (counted s) msg = true) ↔
  (∀ x, x ∈ counted s → vc_block_number x = vc_block_number msg).
Proof.
  intros Hok. rw /same_height. pose proof (tally_height _ _ Hok) as Hh.
  destruct (counted s) as [|y l]; simpl; [set_solver|]. rw Z.eqb_eq. split.
  - intros <- x Hx. apply Hh; set_solver.
  - intros Hx. apply Hx. set_solver.
Qed.

Lemma record_cases s msg :
  vcs_validator_weights s = m → tally_ok m s →
  (¬ countable s msg ∧ (record_view_change s msg).2 = false ∧
   ((record_view_change s msg).1 = s ∨
    (record_view_change s msg).1 =
      set_pending s (<[vcs_current_view s := counted s]> (pending_view_changes s))
        (pending_view_change_weights s))) ∨
  (countable s msg ∧
   (record_view_change s msg).1 =
     set_pending s (<[vcs_current_view s := counted s ++ [msg]]> (pending_view_changes s))
       (<[vcs_current_view s :=
            sat_add (sumZ (weight_of m) (vc_validator <$> counted s))
              (weight_of m (vc_validator msg))]> (pending_view_change_weights s)) ∧
   (record_view_change s msg).2 =
     (Z.max (quorum_weight s) 1 <=?
        sat_add (sumZ (weight_of m) (vc_validator <$> counted s))
          (weight_of m (vc_validator msg)))).
Proof using All.
  intros Hm Hok. rw /record_view_change Hm /countable.
  destruct (vc_view msg =? vcs_current_view s) eqn:Hview; simpl;
    [apply Z.eqb_eq in Hview|apply Z.eqb_neq in Hview; left; naive_solver].
  destruct (negb (_ =? 0) && _) eqn:Hchain; simpl.
  { apply andb_true_iff in Hchain as [H1%negb_true_iff%Z.eqb_neq H2%negb_true_iff%Z.eqb_neq].
    left. naive_solver. }
  assert (Hc : vcs_chain_id s = 0 ∨ vc_chain_id msg = vcs_chain_id s).
  { apply andb_false_iff in Hchain as [H1%negb_false_iff%Z.eqb_eq|H1%negb_false_iff%Z.eqb_eq]; auto. }
  assert (Hw : ∀ w, m !! vc_validator msg = Some w → weight_of m (vc_validator msg) = w)
    by (intros w E; by rw /weight_of E).
  destruct (m !! vc_validator msg) as [w|] eqn:Ew.
  2:{ left. split_and!; [|done|by left]. rw /weight_of Ew /=. lia. }
  specialize (Hw w eq_refl). rw Hw. pose proof (m_u64 _ _ Ew) as Hwr.
  destruct (w =? 0) eqn:Hw0; [apply Z.eqb_eq in Hw0|apply Z.eqb_neq in Hw0].
  { left. split_and!; [lia|done|by left]. }
  rw Hview -/(counted s) (tally_weight _ _ Hok).
  destruct (existsb _ _) eqn:Hdup; simpl.
  { left. split_and!; [|done|by right]. intros (_ & _ & _ & Hnot & _). apply Hnot.
    apply existsb_exists in Hdup as (x & Hx%list_elem_of_In & Heq%bool_decide_eq_true).
    rw -Heq. by apply list_elem_of_fmap_2. }
  destruct (same_height (counted s) msg) eqn:Hsame; simpl.
  - right. split; [|done]. split_and!; [done..|unfold in_u64 in *; lia| |].
    + intros (x & Hv & Hx)%list_elem_of_fmap.
      apply (existsb_false_elem _ _ x) in Hdup; [|done].
      apply bool_decide_eq_false in Hdup. congruence.
    + by apply same_height_spec.
  - left. split_and!; [|done|by right]. intros (_ & _ & _ & _ & Hall).
    apply same_height_spec in Hall; [congruence|done].
Qed.

Definition push (s : ViewChangeState) (msg : ViewChangeMessage) : ViewChangeState :=
  set_pending s (<[vcs_current_view s := counted s ++ [msg]]> (pending_view_changes s))
    (<[vcs_current_view s :=
         sat_add (sumZ (weight_of m) (vc_validator <$> counted s))
           (weight_of m (vc_validator msg))]> (pending_view_change_weights s)).

Lemma push_sum s msg :
  tally_ok m s → countable s msg →
  NoDup (vc_validator <$> (counted s ++ [msg])) ∧
  sat_add (sumZ (weight_of m) (vc_validator <$> counted s)) (weight_of m (vc_validator msg))
    = sumZ (weight_of m) (vc_validator <$> (counted s ++ [msg])).
Proof using All.
  intros [H1 H2 _ _] (_ & _ & Hpos & Hnew & _).
  assert (Hnd : NoDup (vc_validator <$> (counted s ++ [msg]))).
  { rw fmap_app NoDup_app. split_and!; [done|set_solver|apply NoDup_singleton]. }
  split; [done|]. destruct (voters_total _ Hnd) as [_ Hle].
  { intros a (x & -> & Hx)%list_elem_of_fmap.
    apply elem_of_app in Hx as [Hx| ->%list_elem_of_singleton]; [by apply H2|done]. }
  rw fmap_app sumZ_app /= sumZ_cons sumZ_nil in Hle *. rw /sat_add. lia.
Qed.

Lemma push_ok s msg :
  tally_ok m s → countable s msg →
  tally_ok m (push s msg) ∧ counted (push s msg) = counted s ++ [msg].
Proof using All.
  intros Hok Hc. destruct (push_sum s msg Hok Hc) as [Hnd Hsum].
  destruct Hok as [H1 H2 H3 _], Hc as (Hview & Hchain & Hpos & Hnew & Hheight).
  assert (Hcnt : counted (push s msg) = counted s ++ [msg]).
  { by rw /counted /= lookup_insert_eq. }
  split; [|done]. split; rw ?Hcnt.
  - done.
  - intros x [Hx| ->%list_elem_of_singleton]%elem_of_app; [by apply H2|done].
  - intros x y [Hx| ->%list_elem_of_singleton]%elem_of_app
      [Hy| ->%list_elem_of_singleton]%elem_of_app; auto. symmetry. auto.
  - by rw -Hsum /= lookup_insert_eq.
Qed.

Lemma record_spec s msg s' b :
  vcs_validator_weights s = m → tally_ok m s → record_view_change s msg = (s', b) →
  tally_ok m s' ∧ same_frame s s' ∧
  ((¬ countable s msg ∧ counted s' = counted s ∧ b = false) ∨
   (countable s msg ∧ counted s' = counted s ++ [msg] ∧
    b = (Z.max (quorum_weight s) 1 <=? sumZ (weight_of m) (vc_validator <$> counted s')))).
Proof using All.
  intros Hm Hok Hrec. pose proof (record_cases s msg Hm Hok) as Hcases.
  rw Hrec /= in Hcases. destruct Hcases as [(Hn & -> & Hs)|(Hc & -> & ->)].
  - assert (counted s' = counted s ∧ same_frame s s' ∧
      pending_view_change_weights s' = pending_view_change_weights s) as (Heq & Hf & Hpw).
    { destruct Hs as [->| ->]; [done|]. split; [|done]. by rw /counted /= lookup_insert_eq. }
    split_and!; [|done|by left]. destruct Hok as [H1 H2 H3 H4], Hf as (Hv & Hch & _).
    split; rw ?Heq ?Hv ?Hch ?Hpw //.
  - destruct (push_ok s msg Hok Hc) as [Hok' Hcnt]. destruct (push_sum s msg Hok Hc) as [_ Hsum].
    rw -/(push s msg). split_and!; [done..|]. right. by rw Hcnt Hsum.
Qed.
End tally.

(** ** Properties *)

(** The view-change payload binds what is asked for and is never another
    kind of signed payload.  It is always 72 bytes; two payloads are equal only
    for the same chain id, height, view and highest certified block; and none is
    the payload of an attestation, so a vote cannot be replayed as a view change. *)
Theorem view_message_binds c1 n1 v1 q1 c2 n2 v2 q2 :
  in_u64 c1 → in_u64 n1 → in_u64 v1 → in_u64 c2 → in_u64 n2 → in_u64 v2 →
  length (view_signing_message c1 n1 v1 q1) = 72%nat ∧
  (view_signing_message c1 n1 v1 q1 = view_signing_message c2 n2 v2 q2 →
   c1 = c2 ∧ n1 = n2 ∧ v1 = v2 ∧ q1 = q2) ∧
  ∀ c p b n r, view_signing_message c1 n1 v1 q1 ≠ attestation_signing_message c p b n r.
Proof.
  intros. rw /view_signing_message /attestation_signing_message.
  split_and!; [by autorewrite with bytes| |].
  - intros E. peel_bytes E. split_and!; eauto with bytes.
  - intros c p b n r [E _]%app_split; [|done]. by vm_compute in E.
Qed.

Lemma view_message_binds_witness :
  view_signing_message 7 5 0 ZERO ≠ view_signing_message 7 5 1 ZERO.
Proof.
  assert (H0 : in_u64 0) by done. assert (H1 : in_u64 1) by done.
  assert (H5 : in_u64 5) by done. assert (H7 : in_u64 7) by done.
  destruct (view_message_binds 7 5 0 ZERO 7 5 1 ZERO H7 H5 H0 H7 H5 H1) as (_ & Hinj & _).
  intros E. apply Hinj in E as (_ & _ & Hv & _). lia.
Defined.
