(* ===== verification/PoaConfig.v ===== *)
(** * Proof-of-Authority configuration

    The struct [PoaConfig] of crates/consensus/src/poa.rs: the authority list
    with optional weights, epochs, and the proposer the configuration alone
    assigns to a block.  [None] stands for a panic of the source. *)

From S2P Require Import Prelude Primitives.

Record PoaConfig := MkPoaConfig {
  authorities : list Address;
  authority_weights : list Z;
  block_time_secs : Z;
  max_future_secs : Z;
  epoch_length : Z;
  slashed : gset Address;
  slash_weight_bps : Z;
}.

Definition DEFAULT_MAX_FUTURE_SECS : Z := 60.

Definition poa_config_new (auths : list Address) (block_time : Z) : PoaConfig :=
  MkPoaConfig auths [] block_time DEFAULT_MAX_FUTURE_SECS 0 ∅ 1000.

Definition with_max_future_secs (c : PoaConfig) (secs : Z) : PoaConfig :=
  MkPoaConfig (authorities c) (authority_weights c) (block_time_secs c) secs
    (epoch_length c) (slashed c) (slash_weight_bps c).

Definition with_epoch_length (c : PoaConfig) (l : Z) : PoaConfig :=
  MkPoaConfig (authorities c) (authority_weights c) (block_time_secs c) (max_future_secs c)
    l (slashed c) (slash_weight_bps c).

Definition set_authority_lists (c : PoaConfig) (auths : list Address) (ws : list Z) : PoaConfig :=
  MkPoaConfig auths ws (block_time_secs c) (max_future_secs c)
    (epoch_length c) (slashed c) (slash_weight_bps c).

Definition set_slashed (c : PoaConfig) (s : gset Address) : PoaConfig :=
  MkPoaConfig (authorities c) (authority_weights c) (block_time_secs c) (max_future_secs c)
    (epoch_length c) s (slash_weight_bps c).

Definition with_weights (c : PoaConfig) (ws : list Z) : option PoaConfig :=
  if (length ws =? length (authorities c))%nat
  then Some (set_authority_lists c (authorities c) (clamp 1 MAX_VALIDATOR_WEIGHT <$> ws))
  else None.

Definition epoch_of (c : PoaConfig) (n : Z) : Z :=
  if epoch_length c =? 0 then 0 else unwrap_or 0 (checked_div n (epoch_length c)).

Definition is_epoch_boundary (c : PoaConfig) (n : Z) : bool :=
  if epoch_length c =? 0 then false else n mod epoch_length c =? 0.

(** Slot of [n] among [count] authorities, counted from the start of the epoch. *)
Definition epoch_slot (c : PoaConfig) (n : Z) (count : nat) : nat :=
  unwrap_or 0%nat
    (if 0 <? epoch_length c
     then round_robin_index (unwrap_or 0 (checked_rem n (epoch_length c))) count
     else round_robin_index n count).

(** [try_fold(0, checked_add)] over plain weights. *)
Fixpoint try_sum (acc : Z) (ws : list Z) : option Z :=
  match ws with
  | [] => Some acc
  | w :: ws' => t ← checked_add acc w; try_sum t ws'
  end.

(** The position of the first weight whose running sum exceeds the ticket. *)
Fixpoint ticket_walk (ticket cumulative : Z) (i : nat) (ws : list Z) : option nat :=
  match ws with
  | [] => None
  | w :: ws' =>
      let c := sat_add cumulative (clamp 1 MAX_VALIDATOR_WEIGHT w) in
      if ticket <? c then Some i else ticket_walk ticket c (S i) ws'
  end.

Definition is_authority (c : PoaConfig) (a : Address) : bool := bool_decide (a ∈ authorities c).

Definition config_slash_authority (c : PoaConfig) (a : Address) : PoaConfig :=
  set_slashed c ({[a]} ∪ slashed c).

Definition config_set_authorities (c : PoaConfig) (auths : list Address) : option PoaConfig :=
  match auths with
  | [] => None
  | _ => Some (set_authority_lists c auths [])
  end.

Section proposer.
Context `{Hashes}.

(** The first eight bytes of the Keccak digest of the block number. *)
Definition block_seed (n : Z) : Z :=
  from_le_bytes (take 8 (as_bytes (keccak256 (le_bytes 8 n)))).

Definition weighted_proposer_for_block (c : PoaConfig) (n : Z) : option Address :=
  match authorities c with
  | [] => Some ZERO
  | auths =>
      let total := unwrap_or u64_max
        (try_sum 0 (clamp 1 MAX_VALIDATOR_WEIGHT <$> authority_weights c)) in
      ticket ← checked_rem (block_seed n) total;
      match ticket_walk ticket 0 0 (authority_weights c) with
      | Some i => auths !! i
      | None => last auths
      end
  end.

Definition proposer_for_block (c : PoaConfig) (n : Z) : option Address :=
  match authorities c with
  | [] => Some ZERO
  | auths =>
      match authority_weights c with
      | _ :: _ => weighted_proposer_for_block c n
      | [] => auths !! epoch_slot c n (length auths)
      end
  end.
End proposer.

(** ** Lemmas *)

Lemma from_be_bytes_range l :
  (∀ b, b ∈ l → 0 <= b < 256) → 0 <= from_be_bytes l < 256 ^ Z.of_nat (length l).
Proof.
  induction l as [|b l IH] using rev_ind; intros Hl; [done|].
  rw from_be_bytes_snoc length_app /= Nat2Z.inj_add Z.pow_add_r; [lia..|].
  assert (0 <= b < 256) by (apply Hl; set_solver).
  assert (0 <= from_be_bytes l < 256 ^ Z.of_nat (length l)) by (apply IH; set_solver).
  change (256 ^ Z.of_nat 1) with 256. lia.
Qed.

Lemma be_bytes_byte n z b : b ∈ be_bytes n z → 0 <= b < 256.
Proof.
  induction n as [|n IH]; simpl; [set_solver|].
  intros [->|Hb]%elem_of_cons; [by apply Z.mod_pos_bound|by apply IH].
Qed.

Lemma block_seed_u64 `{Hashes} n : in_u64 (block_seed n).
Proof.
  assert (Hlen : length (reverse (take 8 (as_bytes (keccak256 (le_bytes 8 n))))) = 8%nat).
  { by rw length_reverse length_take length_as_bytes. }
  pose proof (from_be_bytes_range (reverse (take 8 (as_bytes (keccak256 (le_bytes 8 n)))))) as Hr.
  rw Hlen in Hr. rw /block_seed /from_le_bytes /in_u64 /u64_max. change (256 ^ Z.of_nat 8) with 18446744073709551616 in Hr.
  assert (0 <= from_be_bytes (reverse (take 8 (as_bytes (keccak256 (le_bytes 8 n))))) < 18446744073709551616); [|lia].
  apply Hr. intros b. rw elem_of_reverse. intros (? & Hb & _)%elem_of_take.
  apply list_elem_of_lookup_2 in Hb. by eapply be_bytes_byte.
Qed.
