(* ===== verification/Engine.v ===== *)
(** * The consensus engine interface

    crates/consensus/src/engine.rs: the engine type tag, the persisted penalty
    state, and the trait [ConsensusEngine] as a class of operations.  The class
    [EngineLaws] states what an engine promises to the node; clients are proved
    against it and the engines of Poa.v and WPoa.v discharge it.  A method that
    mutates its receiver returns the new one, a method on [&mut Block] returns
    the new block, and [None] is a panic. *)

From stdpp Require Import sorting.
From S2P Require Import Prelude Primitives Block Validators ViewChange PoaConfig.

Inductive EngineType := PoA | WPoA | BFT.

Record PenaltyState := MkPenaltyState {
  penalty_slashed : list Address;
  penalty_reductions : list (Address * Z);
}.

(** [a.as_bytes().cmp(b.as_bytes())] is not [Greater]. *)
Definition addr_le (a b : Address) : Prop := bytes_cmp (as_bytes a) (as_bytes b) ≠ Gt.
#[global] Instance addr_le_dec a b : Decision (addr_le a b).
Proof. unfold addr_le. destruct (bytes_cmp _ _); [left|left|right]; congruence. Defined.

Definition addr_fst_le (p q : Address * Z) : Prop := addr_le p.1 q.1.

(** The sorted penalty lists of a slash set and a reduction map. *)
Definition sorted_penalties (s : gset Address) (r : gmap Address Z) : PenaltyState :=
  MkPenaltyState (merge_sort addr_le (elements s))
    (merge_sort addr_fst_le (map_to_list r)).

Class ConsensusEngine (E : Type) := {
  verify_header : E → BlockHeader → result unit ConsensusError;
  verify_header_for_finalized_import : E → BlockHeader → BlockHeader → result unit ConsensusError;
  seal_block : E → Block → result Block ConsensusError;
  is_proposer : E → Z → Address → bool;
  engine_type : E → EngineType;
  poa_config : E → PoaConfig;
  set_poa_config : E → PoaConfig → E;
  set_authorities : E → list Address → option E;
  set_authorities_with_weights : E → list Address → list Z → option E;
  sign_block : E → Block → Signer → result Block ConsensusError;
  verify_seal : E → BlockHeader → PQSignature → list Z → Verifier → result unit ConsensusError;
  slash_authority : E → Address → E;
  penalty_state : E → PenaltyState;
  restore_penalty_state : E → PenaltyState → E;
  validator_weights : E → gmap Address Z;
  handle_view_change_message : E → ViewChangeMessage → Z → E * bool;
  current_view : E → Z;
  check_view_change_timeout : E → Z → Z → bool;
  note_block_progress : E → Z → E;
}.

(** Both engines check a seal and sign a block in the same way. *)
Section seals.
Context `{Hashes}.

Definition verify_seal_with (h : BlockHeader) (seal : PQSignature) (pubkey : list Z)
    (v : Verifier) : result unit ConsensusError :=
  match verify v pubkey (as_bytes (header_hash h)) seal with
  | Err _ => Err InvalidSignature
  | Ok valid => if valid then Ok tt else Err InvalidSignature
  end.

Definition sign_as (expected : Address) (wrap : CryptoError → ConsensusError)
    (b : Block) (s : Signer) : result Block ConsensusError :=
  if decide (proposer (header b) = expected) then
    match sign s (as_bytes (header_hash (header b))) with
    | Err e => Err (wrap e)
    | Ok sig => Ok (set_proposer_seal b sig)
    end
  else Err (InvalidProposer expected (proposer (header b))).

Lemma verify_seal_with_ok h seal pk v :
  verify_seal_with h seal pk v = Ok tt ↔ verify v pk (as_bytes (header_hash h)) seal = Ok true.
Proof. rw /verify_seal_with. destruct (verify _ _ _ _) as [[]|]; naive_solver. Qed.

Lemma sign_as_ok expected wrap b s b' :
  sign_as expected wrap b s = Ok b' →
  proposer (header b) = expected ∧ header b' = header b ∧
  ∃ sig, proposer_seal b' = Some sig ∧ sign s (as_bytes (header_hash (header b))) = Ok sig.
Proof.
  rw /sign_as. case_guard Hp; [|done].
  destruct (sign _ _) as [sig|]; [|done]. intros [= <-]. by eauto.
Qed.
End seals.

(** ** What an engine promises *)

(** Slashing [o] lowers no weight but the offender's, and raises none. *)
Definition slashed_from (o : Address) (m m' : gmap Address Z) : Prop :=
  dom m' = dom m ∧ ∀ a w w', m !! a = Some w → m' !! a = Some w' → w' <= w ∧ (a ≠ o → w' = w).

Class EngineLaws `{Hashes} (E : Type) `{ConsensusEngine E} := {
  (** Well-formed engine states; every operation below is on one. *)
  engine_wf : E → Prop;
  slash_keeps_wf : ∀ e o, engine_wf e → engine_wf (slash_authority e o);
  seal_checks : ∀ e h seal pk v,
    verify_seal e h seal pk v = Ok tt ↔ verify v pk (as_bytes (header_hash h)) seal = Ok true;
  sign_checks : ∀ e b s b', sign_block e b s = Ok b' →
    is_proposer e (number (header b)) (proposer (header b)) = true ∧ header b' = header b ∧
    ∃ sig, proposer_seal b' = Some sig ∧ sign s (as_bytes (header_hash (header b))) = Ok sig;
  header_checks : ∀ e h, verify_header e h = Ok tt → is_proposer e (number h) (proposer h) = true;
  restore_same : ∀ e, restore_penalty_state e (penalty_state e) = e;
  restore_exact : ∀ e e', penalty_state (restore_penalty_state e (penalty_state e')) = penalty_state e';
  slash_weights_down : ∀ e o, engine_wf e →
    slashed_from o (validator_weights e) (validator_weights (slash_authority e o));
}.

(** ** The penalty lists *)

Lemma addr_le_iff a b : addr_le a b ↔ b256_unsigned a <= b256_unsigned b.
Proof. by rw /addr_le bytes_cmp_as_bytes. Qed.

(** [iter().copied().collect()] into a map: later entries win. *)
Definition collect_map (l : list (Address * Z)) : gmap Address Z :=
  foldl (λ m p, <[p.1 := p.2]> m) ∅ l.

Lemma collect_map_lookup l a :
  NoDup l.*1 → collect_map l !! a = (list_to_map l : gmap Address Z) !! a.
Proof.
  induction l as [|[k v] l IH] using rev_ind; [done|].
  rw fmap_app NoDup_app. intros (Hl & Hk & _). rw /collect_map foldl_app /= -/(collect_map l).
  rw list_to_map_app lookup_union -IH //. destruct (decide (k = a)) as [->|Hne].
  - rw lookup_insert_eq IH // not_elem_of_list_to_map_1; [set_solver|].
    by rw /= lookup_insert_eq.
  - rw lookup_insert_ne // /= lookup_insert_ne // lookup_empty. by destruct (_ !! _).
Qed.

Lemma sorted_slashed s r : list_to_set (penalty_slashed (sorted_penalties s r)) = s.
Proof. rw /= merge_sort_Permutation. apply list_to_set_elements_L. Qed.

Lemma sorted_reductions s r : collect_map (penalty_reductions (sorted_penalties s r)) = r.
Proof.
  apply map_eq. intros a. rw /= collect_map_lookup.
  - rw merge_sort_Permutation. apply NoDup_fst_map_to_list.
  - rw (list_to_map_proper _ (map_to_list r)) ?list_to_map_to_list //.
    + rw merge_sort_Permutation. apply NoDup_fst_map_to_list.
    + apply merge_sort_Permutation.
Qed.

(** ** Properties against the interface *)

(** Whatever engines the signer and the peer run, a block that [sign_block]
    accepts keeps its header and carries a seal that the peer's [verify_seal]
    accepts under the signer's public key. *)
Lemma signed_seal_verifies `{Hashes} {E E'} `{ConsensusEngine E, ConsensusEngine E'}
    `{!EngineLaws E, !EngineLaws E'} (e : E) (peer : E') b s v b' :
  signer_verifies s v → sign_block e b s = Ok b' →
  header b' = header b ∧ is_proposer e (number (header b')) (proposer (header b')) = true ∧
  ∃ sig, proposer_seal b' = Some sig ∧
    verify_seal peer (header b') sig (public_key s) v = Ok tt.
Proof.
  intros Hv (Hp & Hh & sig & Hs & Hsig)%sign_checks. rw Hh. split_and!; [done..|].
  exists sig. split; [done|]. apply seal_checks. by apply Hv.
Qed.

(** Slashing only ever takes weight from the offenders, and a restart keeps
    it.  After slashing any sequence of offenders, the validator set is the
    same, no weight has grown, and validators outside the sequence keep theirs;
    restoring the saved penalties into the engine gives back the same engine,
    and into any other engine the same penalties. *)
Theorem slash_sequence_weights `{Hashes} {E} `{ConsensusEngine E, !EngineLaws E}
    (e e' : E) (offenders : list Address) :
  engine_wf e →
  let s := foldl slash_authority e offenders in
  dom (validator_weights s) = dom (validator_weights e) ∧
  (∀ a w w', validator_weights e !! a = Some w → validator_weights s !! a = Some w' →
     w' <= w ∧ (a ∉ offenders → w' = w)) ∧
  restore_penalty_state s (penalty_state s) = s ∧
  penalty_state (restore_penalty_state e' (penalty_state s)) = penalty_state s.
Proof.
  intros Hwf. cbv zeta.
  assert (engine_wf (foldl slash_authority e offenders) ∧
    dom (validator_weights (foldl slash_authority e offenders)) = dom (validator_weights e) ∧
    ∀ a w w', validator_weights e !! a = Some w →
      validator_weights (foldl slash_authority e offenders) !! a = Some w' →
      w' <= w ∧ (a ∉ offenders → w' = w)) as (_ & Hd & Hw).
  { revert e Hwf. induction offenders as [|o os IH]; intros e Hwf; simpl.
    { split_and!; [done..|]. intros a w w' -> [= <-]. done. }
    destruct (IH _ (slash_keeps_wf e o Hwf)) as (Hwf' & Hd & Hw).
    destruct (slash_weights_down e o Hwf) as [Hd1 Hw1].
    split_and!; [done|congruence|]. intros a w w' Ha Ha'.
    assert (is_Some (validator_weights (slash_authority e o) !! a)) as [w1 Ha1].
    { apply elem_of_dom. rw Hd1. by eapply elem_of_dom_2. }
    destruct (Hw1 a w w1 Ha Ha1) as [? Hne1], (Hw a w1 w' Ha1 Ha') as [? Hne].
    split; [lia|]. intros [Hno Hnos]%not_elem_of_cons. rw Hne //. by apply Hne1. }
  split_and!; [done..|apply restore_same|apply restore_exact].
Qed.
