(* ===== verification/Poa.v ===== *)
(** * The Proof-of-Authority engine

    The struct [PoaEngine] of crates/consensus/src/poa.rs: proposer selection
    under slashing, slashing itself, header and seal checks, and its
    implementation of the [ConsensusEngine] trait. *)

From S2P Require Import Prelude Primitives Block Validators ViewChange PoaConfig Engine.

Record PoaEngine := MkPoaEngine {
  config : PoaConfig;
  slash_weights : gmap Address Z;
}.

Definition poa_engine_new (c : PoaConfig) : PoaEngine := MkPoaEngine c ∅.

Definition base_weight_at (e : PoaEngine) (i : nat) : Z :=
  Z.max (unwrap_or 1 (authority_weights (config e) !! i)) 1.

(** [authorities.iter().position(..)] *)
Definition position_of (a : Address) (l : list Address) : option nat :=
  fst <$> list_find (λ c, c = a) l.

Definition base_weight_for (e : PoaEngine) (a : Address) : option Z :=
  base_weight_at e <$> position_of a (authorities (config e)).

(** Every caller's index is in range. *)
Definition effective_weight_at (e : PoaEngine) (i : nat) : Z :=
  let authority := unwrap_or ZERO (authorities (config e) !! i) in
  sat_sub (base_weight_at e i) (unwrap_or 0 (slash_weights e !! authority)).

Definition effective_weight_for (e : PoaEngine) (a : Address) : option Z :=
  effective_weight_at e <$> position_of a (authorities (config e)).

(** The authorities with their effective weights, in order. *)
Definition weighted_authorities (e : PoaEngine) : list (Address * Z) :=
  imap (λ i a, (a, effective_weight_at e i)) (authorities (config e)).

(** The walk over the authorities with the ticket; weight 0 is skipped. *)
Fixpoint lottery_walk (ticket cumulative : Z) (last_active : Address)
    (l : list (Address * Z)) : Address :=
  match l with
  | [] => last_active
  | (a, w) :: l' =>
      if w =? 0 then lottery_walk ticket cumulative last_active l'
      else
        let c := sat_add cumulative w in
        if ticket <? c then a else lottery_walk ticket c a l'
  end.

Definition active_entries (l : list (Address * Z)) : list (Address * Z) :=
  filter (λ p, 0 < p.2) l.

Section engine.
Context `{Hashes}.

Definition expected_proposer_for_block (e : PoaEngine) (n : Z) : Address :=
  let ws := weighted_authorities e in
  let active := active_entries ws in
  match authorities (config e) with
  | [] => ZERO
  | _ =>
      let total := foldl (λ acc p, sat_add acc p.2) 0 active in
      match active with
      | [] => ZERO
      | _ =>
          match authority_weights (config e) with
          | [] => unwrap_or ZERO (fst <$> active !! epoch_slot (config e) n (length active))
          | _ => lottery_walk (block_seed n mod total) 0 ZERO ws
          end
      end
  end.

(** The amount is computed in [u128] and cast to [u64]. *)
Definition slash_amount (current bps : Z) : Z := (current * bps / 10000) mod (u64_max + 1).

Definition poa_slash_authority (e : PoaEngine) (offender : Address) : PoaEngine :=
  let c := config_slash_authority (config e) offender in
  let current := unwrap_or 1 (effective_weight_for e offender) in
  let amount := slash_amount current (slash_weight_bps c) in
  let base := unwrap_or 1 (base_weight_for e offender) in
  let cumulative := unwrap_or 0 (slash_weights e !! offender) in
  MkPoaEngine c
    (<[offender := Z.min (sat_add cumulative amount) base]> (slash_weights e)).

Definition verify_proposer (e : PoaEngine) (h : BlockHeader) : result unit ConsensusError :=
  if unwrap_or 0 (effective_weight_for e (proposer h)) =? 0
  then Err (UnknownProposer (proposer h))
  else
    let expected := expected_proposer_for_block e (number h) in
    if decide (proposer h = expected) then Ok tt
    else Err (InvalidProposer expected (proposer h)).

Definition verify_parent (e : PoaEngine) (h parent : BlockHeader) : result unit ConsensusError :=
  if timestamp h <? sat_add (timestamp parent) (block_time_secs (config e))
  then Err (InvalidTimestamp "timestamp < parent + block_time")
  else
    match checked_add (number parent) 1 with
    | None => Err (InvalidTimestamp "parent block number cannot advance")
    | Some expected_number =>
        if negb (number h =? expected_number)
        then Err (InvalidTimestamp "block number != parent + 1")
        else if decide (parent_hash h = header_hash parent) then Ok tt
        else Err (Internal "parent_hash does not match parent header")
    end.

Definition verify_timestamp (e : PoaEngine) (h : BlockHeader) (parent : option BlockHeader)
    (current_time : Z) : result unit ConsensusError :=
  if sat_add current_time (max_future_secs (config e)) <? timestamp h
  then Err (InvalidTimestamp "timestamp exceeds current_time + max_future")
  else match parent with
       | Some p => verify_parent e h p
       | None => Ok tt
       end.

Definition verify_header_with_parent (e : PoaEngine) (h parent : BlockHeader)
    (seal : PQSignature) (pubkey : list Z) (v : Verifier) (current_time : Z) :
    result unit ConsensusError :=
  let? _ := verify_proposer e h in
  let? _ := verify_timestamp e h (Some parent) current_time in
  verify_seal_with h seal pubkey v.

Definition poa_seal_block (e : PoaEngine) (b : Block) : result Block ConsensusError :=
  let expected := expected_proposer_for_block e (number (header b)) in
  if decide (proposer (header b) = expected) then Ok b
  else Err (InvalidProposer expected (proposer (header b))).

Definition poa_is_proposer (e : PoaEngine) (slot : Z) (a : Address) : bool :=
  bool_decide (expected_proposer_for_block e slot = a).

Definition poa_sign_block (e : PoaEngine) (b : Block) (s : Signer) :
    result Block ConsensusError :=
  sign_as (expected_proposer_for_block e (number (header b))) SealingFailed b s.

Definition poa_penalty_state (e : PoaEngine) : PenaltyState :=
  sorted_penalties (slashed (config e)) (slash_weights e).

Definition poa_restore_penalty_state (e : PoaEngine) (p : PenaltyState) : PoaEngine :=
  MkPoaEngine (set_slashed (config e) (list_to_set (penalty_slashed p)))
    (collect_map (penalty_reductions p)).

Definition poa_validator_weights (e : PoaEngine) : gmap Address Z :=
  collect_map (weighted_authorities e).

Definition poa_set_authorities (e : PoaEngine) (auths : list Address) : option PoaEngine :=
  c ← config_set_authorities (config e) auths; Some (MkPoaEngine c (slash_weights e)).

#[global] Instance poa_consensus_engine : ConsensusEngine PoaEngine := {|
  verify_header := verify_proposer;
  verify_header_for_finalized_import e h _ := verify_proposer e h;
  seal_block := poa_seal_block;
  is_proposer := poa_is_proposer;
  engine_type _ := PoA;
  poa_config := config;
  set_poa_config e c := MkPoaEngine c (slash_weights e);
  set_authorities := poa_set_authorities;
  set_authorities_with_weights e auths _ := poa_set_authorities e auths;
  sign_block := poa_sign_block;
  verify_seal _ := verify_seal_with;
  slash_authority := poa_slash_authority;
  penalty_state := poa_penalty_state;
  restore_penalty_state := poa_restore_penalty_state;
  validator_weights := poa_validator_weights;
  handle_view_change_message e _ _ := (e, false);
  current_view _ := 0;
  check_view_change_timeout _ _ _ := false;
  note_block_progress e _ := e;
|}.
End engine.

(** ** Lemmas *)

Record poa_wf (e : PoaEngine) : Prop := {
  poa_nodup : NoDup (authorities (config e));
  poa_base_u64 : ∀ w, w ∈ authority_weights (config e) → in_u64 w;
  poa_bps_u64 : in_u64 (slash_weight_bps (config e));
  poa_reductions_u64 : ∀ a r, slash_weights e !! a = Some r → in_u64 r;
}.

Lemma base_weight_at_range e i : poa_wf e → 1 <= base_weight_at e i <= u64_max.
Proof.
  intros Hwf. rw /base_weight_at. destruct (_ !! i) as [w|] eqn:E; simpl; [|done].
  apply list_elem_of_lookup_2, (poa_base_u64 _ Hwf) in E. unfold_int. lia.
Qed.

Lemma reduction_range e a : poa_wf e → in_u64 (unwrap_or 0 (slash_weights e !! a)).
Proof. intros Hwf. destruct (_ !! a) eqn:E; [by eapply poa_reductions_u64|done]. Qed.

Lemma effective_weight_range e i : poa_wf e → in_u64 (effective_weight_at e i).
Proof.
  intros Hwf. pose proof (base_weight_at_range e i Hwf).
  rw /effective_weight_at.
  pose proof (reduction_range e (unwrap_or ZERO (authorities (config e) !! i)) Hwf). int_lia.
Qed.

Lemma weighted_authorities_lookup e i a w :
  weighted_authorities e !! i = Some (a, w) ↔
  authorities (config e) !! i = Some a ∧ w = effective_weight_at e i.
Proof.
  rw /weighted_authorities list_lookup_imap. destruct (_ !! i) as [b|]; simpl; [|naive_solver].
  split; [by intros [= -> <-]|by intros [[= ->] ->]].
Qed.

Lemma weighted_authorities_fst e : (weighted_authorities e).*1 = authorities (config e).
Proof. apply list_eq. intros i. rw list_lookup_fmap list_lookup_imap. by destruct (_ !! i). Qed.

Lemma elem_of_weighted e a w :
  (a, w) ∈ weighted_authorities e ↔
  ∃ i, authorities (config e) !! i = Some a ∧ w = effective_weight_at e i.
Proof. rw list_elem_of_lookup. by setoid_rewrite weighted_authorities_lookup. Qed.

Lemma position_of_nodup l i a : NoDup l → l !! i = Some a → position_of a l = Some i.
Proof.
  intros Hl Hi. rw /position_of. destruct (list_find (λ c, c = a) l) as [[j b]|] eqn:E.
  - apply list_find_Some in E as (Hj & -> & _). by rw /= (NoDup_lookup l j i a).
  - apply list_find_None in E. rw Forall_forall in E.
    apply list_elem_of_lookup_2 in Hi. by destruct (E a Hi).
Qed.

Lemma position_of_Some l i a : position_of a l = Some i → l !! i = Some a.
Proof.
  rw /position_of. destruct (list_find _ l) as [[j b]|] eqn:E; [|done]. intros [= <-].
  by apply list_find_Some in E as (Hj & -> & _).
Qed.

(** ** The lottery *)

(** Each authority once per unit of its weight. *)
Definition tickets (l : list (Address * Z)) : list Address :=
  l ≫= λ p, replicate (Z.to_nat p.2) p.1.

Definition nonneg_weights (l : list (Address * Z)) : Prop := ∀ p, p ∈ l → 0 <= p.2.

Lemma lottery_walk_ticket t c d l :
  nonneg_weights l → 0 <= c <= t → t < c + sumZ snd l → c + sumZ snd l <= u64_max →
  tickets l !! Z.to_nat (t - c) = Some (lottery_walk t c d l).
Proof.
  revert c d. induction l as [|[a w] l IH]; intros c d Hl Hc Ht Hm.
  { rw sumZ_nil in Ht. lia. }
  rw sumZ_cons /= in Ht Hm. assert (0 <= w) by (apply (Hl (a, w)); set_solver).
  assert (nonneg_weights l) as Hl' by (intros p Hp; apply Hl; set_solver).
  assert (0 <= sumZ snd l) by (apply sumZ_nonneg; intros; by apply Hl').
  rw /tickets bind_cons /= -/(tickets l). destruct (w =? 0) eqn:Hw.
  { apply Z.eqb_eq in Hw as ->. simpl. apply IH; [done|lia..]. }
  assert (sat_add c w = c + w) as -> by int_lia.
  destruct (t <? c + w) eqn:Htc.
  - apply Z.ltb_lt in Htc. rw lookup_app_l ?length_replicate; [lia|].
    apply lookup_replicate_2. lia.
  - apply Z.ltb_ge in Htc. rw lookup_app_r ?length_replicate; [lia|].
    rw -Z2Nat.inj_sub; [lia|]. replace (t - c - w) with (t - (c + w)) by lia.
    apply IH; [done|lia..].
Qed.

Lemma length_tickets l : nonneg_weights l → length (tickets l) = Z.to_nat (sumZ snd l).
Proof.
  induction l as [|[a w] l IH]; intros Hl; [done|].
  assert (0 <= w) by (apply (Hl (a, w)); set_solver).
  assert (nonneg_weights l) as Hl' by (intros p Hp; apply Hl; set_solver).
  assert (0 <= sumZ snd l) by (apply sumZ_nonneg; intros; by apply Hl').
  rw /tickets bind_cons length_app length_replicate -/(tickets l) IH // sumZ_cons /=. lia.
Qed.

Lemma elem_of_tickets l a : a ∈ tickets l → ∃ w, (a, w) ∈ l ∧ 0 < w.
Proof.
  intros ([b w] & [-> Hn]%elem_of_replicate & Hl)%list_elem_of_bind. simpl in *.
  exists w. split; [done|]. lia.
Qed.

Lemma active_entries_sum l : nonneg_weights l → sumZ snd (active_entries l) = sumZ snd l.
Proof.
  induction l as [|[a w] l IH]; intros Hl; [done|].
  assert (0 <= w) by (apply (Hl (a, w)); set_solver).
  rw /active_entries filter_cons -/(active_entries l) sumZ_cons /=.
  assert (nonneg_weights l) as Hl' by (intros p Hp; apply Hl; set_solver).
  rw -(IH Hl'). case_decide; [by rw sumZ_cons|lia].
Qed.

Lemma weighted_nonneg e : poa_wf e → nonneg_weights (weighted_authorities e).
Proof.
  intros Hwf [a w] (i & _ & ->)%elem_of_weighted. by apply (effective_weight_range e i Hwf).
Qed.

(** The total the engine draws tickets from. *)
Definition effective_total (e : PoaEngine) : Z := sumZ snd (weighted_authorities e).

Lemma engine_total e :
  poa_wf e → effective_total e <= u64_max →
  foldl (λ acc p, sat_add acc p.2) 0 (active_entries (weighted_authorities e)) = effective_total e.
Proof.
  intros Hwf Hm. pose proof (weighted_nonneg e Hwf) as Hn.
  rw (foldl_sat_add (snd : Address * Z → Z)).
  - intros p Hp%list_elem_of_filter. lia.
  - done.
  - rw active_entries_sum // -/(effective_total e). lia.
Qed.

(** ** Slashing *)

Lemma slash_amount_range x bps :
  0 <= x <= u64_max → 0 <= bps <= 10000 → slash_amount x bps = x * bps / 10000 ∧ 0 <= x * bps / 10000 <= x.
Proof.
  intros Hx Hb. assert (0 <= x * bps / 10000 <= x).
  { split; [apply Z.div_pos; nia|]. apply Z.div_le_upper_bound; nia. }
  rw /slash_amount Z.mod_small //; lia.
Qed.

Lemma capped_u64 c a b : in_u64 c → 0 <= a → 0 <= b → in_u64 (Z.min (sat_add c a) b).
Proof. unfold_int. lia. Qed.

Section slashing.
Context (e : PoaEngine) (e_wf : poa_wf e).

Lemma effective_weight_for_at i a :
  authorities (config e) !! i = Some a →
  effective_weight_for e a = Some (effective_weight_at e i) ∧
  base_weight_for e a = Some (base_weight_at e i).
Proof using e_wf.
  intros Hi. rw /effective_weight_for /base_weight_for.
  rw (position_of_nodup _ i) //. apply e_wf.
Qed.

Lemma slash_other o i a :
  authorities (config e) !! i = Some a → a ≠ o →
  effective_weight_at (poa_slash_authority e o) i = effective_weight_at e i.
Proof.
  intros Hi Hne. rw /effective_weight_at /base_weight_at /= Hi /= lookup_insert_ne //.
Qed.

Lemma slash_offender i o :
  authorities (config e) !! i = Some o →
  effective_weight_at (poa_slash_authority e o) i
    = sat_sub (effective_weight_at e i)
        (slash_amount (effective_weight_at e i) (slash_weight_bps (config e))).
Proof using e_wf.
  intros Hi. pose proof (base_weight_at_range e i e_wf). pose proof (reduction_range e o e_wf).
  destruct (effective_weight_for_at i o Hi) as [Heff Hbase].
  rw {1}/effective_weight_at /poa_slash_authority Heff Hbase /= Hi /= lookup_insert_eq /=.
  change (base_weight_at (MkPoaEngine _ _) i) with (base_weight_at e i).
  set amt := slash_amount _ _.
  assert (0 <= amt) by (apply Z.mod_pos_bound; done).
  rw /effective_weight_at Hi /=. int_lia.
Qed.

Lemma slash_wf_poa o : poa_wf (poa_slash_authority e o).
Proof using e_wf.
  pose proof (reduction_range e o e_wf) as Hr.
  destruct e_wf as [H1 H2 H3 H4]. split; [done..|]. simpl.
  intros a r [[<- <-]|[_ Ha]]%lookup_insert_Some; [|by eapply H4].
  assert (0 <= slash_amount (unwrap_or 1 (effective_weight_for e o)) (slash_weight_bps (config e)))
    by (apply Z.mod_pos_bound; done).
  assert (1 <= unwrap_or 1 (base_weight_for e o)).
  { rw /base_weight_for. destruct (position_of _ _) as [i|]; simpl; [|done].
    by apply base_weight_at_range. }
  apply capped_u64; [done..|lia].
Qed.

Lemma poa_weights_lookup a w :
  poa_validator_weights e !! a = Some w ↔
  ∃ i, authorities (config e) !! i = Some a ∧ w = effective_weight_at e i.
Proof using e_wf.
  assert (NoDup (weighted_authorities e).*1) as Hnd by (rw weighted_authorities_fst; apply e_wf).
  rw /poa_validator_weights collect_map_lookup // -elem_of_weighted. split.
  - apply elem_of_list_to_map_2.
  - by apply elem_of_list_to_map_1.
Qed.
End slashing.

Lemma poa_slash_down e o :
  poa_wf e → slashed_from o (poa_validator_weights e) (poa_validator_weights (poa_slash_authority e o)).
Proof.
  intros Hwf. pose proof (slash_wf_poa e Hwf o) as Hwf'.
  assert (Hdom : ∀ a, is_Some (poa_validator_weights e !! a) ↔ a ∈ authorities (config e)).
  { intros a. rw list_elem_of_lookup. split.
    - intros [w (i & Hi & _)%poa_weights_lookup]; by eauto.
    - intros [i Hi]. exists (effective_weight_at e i). apply poa_weights_lookup; by eauto. }
  assert (Hdom' : ∀ a, is_Some (poa_validator_weights (poa_slash_authority e o) !! a) ↔ a ∈ authorities (config e)).
  { intros a. rw list_elem_of_lookup. split.
    - intros [w (i & Hi & _)%poa_weights_lookup]; by eauto.
    - intros [i Hi]. eexists. apply poa_weights_lookup; by eauto. }
  split.
  - apply set_eq. intros a. by rw !elem_of_dom Hdom Hdom'.
  - intros a w w' (i & Hi & ->)%poa_weights_lookup (j & Hj & ->)%poa_weights_lookup; [|done..].
    assert (i = j) as <- by (by eapply NoDup_lookup; [apply Hwf|..]).
    destruct (decide (a = o)) as [->|Hne]; [|by rw (slash_other e o i a)].
    rw slash_offender //. pose proof (effective_weight_range e i Hwf).
    assert (0 <= slash_amount (effective_weight_at e i) (slash_weight_bps (config e)))
      by (apply Z.mod_pos_bound; done).
    split; [int_lia|done].
Qed.

#[global] Program Instance poa_laws `{Hashes} : EngineLaws PoaEngine := {| engine_wf := poa_wf |}.
Next Obligation. intros. by apply slash_wf_poa. Qed.
Next Obligation. intros. apply verify_seal_with_ok. Qed.
Next Obligation.
  intros ? e b s b' (Hp & Hh & Hs)%sign_as_ok. split_and!; [|done..].
  apply bool_decide_eq_true. by rw Hp.
Qed.
Next Obligation.
  intros ? e h. rw /= /verify_proposer. case_guard H0; [done|]. cbv zeta.
  case_guard Hp; [|done]. intros _. by apply bool_decide_eq_true.
Qed.
Next Obligation.
  intros ? [[] ?]. rw /= /poa_restore_penalty_state /poa_penalty_state sorted_slashed sorted_reductions //.
Qed.
Next Obligation.
  intros. rw /= /poa_restore_penalty_state /poa_penalty_state sorted_slashed sorted_reductions //.
Qed.
Next Obligation. intros. by apply poa_slash_down. Qed.

(** ** Selection *)

Lemma expected_weighted `{Hashes} e n :
  poa_wf e → effective_total e <= u64_max → authority_weights (config e) ≠ [] →
  0 < effective_total e →
  tickets (weighted_authorities e) !! Z.to_nat (block_seed n mod effective_total e)
    = Some (expected_proposer_for_block e n).
Proof.
  intros Hwf Hm Hws Hpos. pose proof (weighted_nonneg e Hwf) as Hn.
  rw /expected_proposer_for_block engine_total //.
  pose proof (Z.mod_pos_bound (block_seed n) (effective_total e) Hpos).
  destruct (authorities (config e)) eqn:Ea.
  { rw /effective_total /weighted_authorities Ea /= in Hpos. done. }
  destruct (active_entries (weighted_authorities e)) eqn:Eact.
  { rw /effective_total -active_entries_sum // Eact in Hpos. done. }
  destruct (authority_weights (config e)); [done|].
  rw -(lottery_walk_ticket _ 0 ZERO (weighted_authorities e)) //; unfold effective_total in *; [lia..|].
  by rw Z.sub_0_r.
Qed.

Lemma expected_round_robin `{Hashes} e n :
  authority_weights (config e) = [] → active_entries (weighted_authorities e) ≠ [] →
  expected_proposer_for_block e n
    = unwrap_or ZERO ((active_entries (weighted_authorities e)).*1
        !! epoch_slot (config e) n (length (active_entries (weighted_authorities e)))).
Proof.
  intros Hws Hact. rw /expected_proposer_for_block Hws list_lookup_fmap.
  destruct (authorities (config e)) eqn:Ea.
  { by rw /weighted_authorities Ea in Hact. }
  by destruct (active_entries _).
Qed.

Lemma epoch_slot_lt c n count : (0 < count)%nat → (epoch_slot c n count < count)%nat.
Proof.
  intros Hc. rw /epoch_slot. destruct (0 <? _); destruct (round_robin_index _ count) eqn:E;
    simpl; [by eapply round_robin_index_lt|done|by eapply round_robin_index_lt|done].
Qed.

Lemma expected_active `{Hashes} e n :
  poa_wf e → effective_total e <= u64_max → (∃ i, 0 < effective_weight_at e i ∧ is_Some (authorities (config e) !! i)) →
  ∃ i, authorities (config e) !! i = Some (expected_proposer_for_block e n) ∧
    0 < effective_weight_at e i.
Proof.
  intros Hwf Hm (j & Hj & [b Hb]).
  assert (Hmem : (b, effective_weight_at e j) ∈ weighted_authorities e)
    by (apply elem_of_weighted; eauto).
  assert (Hact : (b, effective_weight_at e j) ∈ active_entries (weighted_authorities e))
    by (apply list_elem_of_filter; eauto).
  destruct (authority_weights (config e)) as [|w ws] eqn:Ews.
  - assert (active_entries (weighted_authorities e) ≠ []) as Hne by (intros E; rw E in Hact; set_solver).
    rw expected_round_robin //.
    destruct (lookup_lt_is_Some_2 (active_entries (weighted_authorities e)).*1
      (epoch_slot (config e) n (length (active_entries (weighted_authorities e))))) as [a Ha].
    { rw length_fmap. apply epoch_slot_lt. by destruct (active_entries _); [|simpl; lia]. }
    rw Ha /=. apply list_elem_of_lookup_2, list_elem_of_fmap in Ha as ([a' w'] & -> & Hin).
    apply list_elem_of_filter in Hin as [Hpos (i & Hi & ->)%elem_of_weighted]. eauto.
  - assert (0 < effective_total e) as Hpos.
    { pose proof (sumZ_elem_le snd (weighted_authorities e) _ (weighted_nonneg e Hwf) Hmem).
      simpl in *. unfold effective_total. lia. }
    pose proof (expected_weighted e n Hwf Hm ltac:(by rw Ews) Hpos) as Ht.
    apply list_elem_of_lookup_2, elem_of_tickets in Ht as (x & (i & Hi & ->)%elem_of_weighted & Hx).
    eauto.
Qed.

(** ** Agreement with the configuration's own selection *)

Lemma ticket_walk_ge t c k ws j : ticket_walk t c k ws = Some j → (k <= j)%nat.
Proof.
  revert c k. induction ws as [|w ws IH]; intros c k; simpl; [done|].
  case_guard Ht; [by intros [= ->]|]. intros Hj%IH. lia.
Qed.

Lemma clamp_id w : 1 <= w <= MAX_VALIDATOR_WEIGHT → clamp 1 MAX_VALIDATOR_WEIGHT w = w.
Proof. intros. int_lia. Qed.

Lemma walks_agree t c d k (l : list Address) ws :
  length l = length ws → Forall (λ w, 1 <= w <= MAX_VALIDATOR_WEIGHT) ws →
  Some (lottery_walk t c d (zip l ws)) =
    match ticket_walk t c k ws with
    | Some j => l !! (j - k)%nat
    | None => Some (default d (last l))
    end.
Proof.
  revert c d k ws. induction l as [|a l IH]; intros c d k [|w ws] Hlen Hws; try done.
  injection Hlen as Hlen. apply Forall_cons in Hws as [Hw Hws]. rw /= clamp_id //.
  destruct (w =? 0) eqn:E; [apply Z.eqb_eq in E; lia|].
  destruct (t <? sat_add c w); [by rw Nat.sub_diag|].
  rw (IH _ a (S k)) //. destruct (ticket_walk t _ (S k) ws) as [j|] eqn:Ej.
  - apply ticket_walk_ge in Ej. by replace (j - k)%nat with (S (j - S k)) by lia.
  - destruct l as [|b l]; [done|]. rw last_cons_cons.
    destruct (last (b :: l)) eqn:El; [done|]. by apply last_None in El.
Qed.

Lemma try_sum_capped acc ws :
  0 <= acc <= u64_max → Forall (λ w, 0 <= w) ws →
  unwrap_or u64_max (try_sum acc ws) = Z.min (acc + sumZ id ws) u64_max.
Proof.
  intros Hacc Hws. revert acc Hacc. induction Hws as [|w ws Hw Hws IH]; intros acc Hacc; simpl.
  { rw sumZ_nil. lia. }
  assert (0 <= sumZ id ws).
  { apply sumZ_nonneg. intros x Hx. rw Forall_forall in Hws. by apply Hws. }
  rw sumZ_cons /checked_add /=. destruct (acc + w <=? u64_max) eqn:E; simpl.
  - apply Z.leb_le in E. rw IH; lia.
  - apply Z.leb_gt in E. lia.
Qed.

Lemma unslashed_weighted e :
  slash_weights e = ∅ → length (authority_weights (config e)) = length (authorities (config e)) →
  Forall (λ w, 1 <= w <= MAX_VALIDATOR_WEIGHT) (authority_weights (config e)) →
  weighted_authorities e = zip (authorities (config e)) (authority_weights (config e)).
Proof.
  intros He Hlen Hws. apply list_eq. intros i.
  rw /weighted_authorities list_lookup_imap lookup_zip_with.
  destruct (authorities (config e) !! i) as [a|] eqn:Ea; simpl; [|done].
  destruct (lookup_lt_is_Some_2 (authority_weights (config e)) i) as [w Hw].
  { rw Hlen. by eapply lookup_lt_Some. }
  rw Hw /= /effective_weight_at /base_weight_at Ea Hw He lookup_empty /=.
  rw Forall_forall in Hws. apply list_elem_of_lookup_2, Hws in Hw.
  do 2 f_equal. int_lia.
Qed.

Lemma unslashed_unweighted e :
  slash_weights e = ∅ → authority_weights (config e) = [] →
  active_entries (weighted_authorities e) = (λ a, (a, 1)) <$> authorities (config e).
Proof.
  intros He Hws.
  assert (weighted_authorities e = (λ a, (a, 1)) <$> authorities (config e)) as ->.
  { apply list_eq. intros i. rw /weighted_authorities list_lookup_imap list_lookup_fmap.
    by rw /effective_weight_at /base_weight_at He Hws lookup_empty. }
  rw /active_entries. induction (authorities (config e)) as [|a l IH]; [done|].
  by rw fmap_cons filter_cons IH.
Qed.

Lemma zip_snd_sum (l : list Address) (ws : list Z) :
  length l = length ws → sumZ snd (zip l ws) = sumZ id ws.
Proof. intros Hlen. rw -{2}(snd_zip l ws); [lia|]. by rw sumZ_fmap. Qed.

(** The config's clamping is the identity on weights already in range. *)
Lemma clamp_all ws :
  Forall (λ w, 1 <= w <= MAX_VALIDATOR_WEIGHT) ws → clamp 1 MAX_VALIDATOR_WEIGHT <$> ws = ws.
Proof. induction 1 as [|w ws Hw _ IH]; [done|]. by rw fmap_cons IH clamp_id. Qed.

Lemma active_entries_all l : (∀ p, p ∈ l → 0 < p.2) → active_entries l = l.
Proof.
  induction l as [|p l IH]; intros Hl; [done|].
  rw /active_entries filter_cons -/(active_entries l) IH; [set_solver|].
  by rw decide_True; [apply Hl; set_solver|].
Qed.

Lemma expected_matches_weighted `{Hashes} e n :
  slash_weights e = ∅ → authority_weights (config e) ≠ [] →
  length (authority_weights (config e)) = length (authorities (config e)) →
  Forall (λ w, 1 <= w <= MAX_VALIDATOR_WEIGHT) (authority_weights (config e)) →
  Some (expected_proposer_for_block e n) = weighted_proposer_for_block (config e) n.
Proof.
  intros He Hne Hlen Hws. pose proof (unslashed_weighted e He Hlen Hws) as Hz.
  assert (Hw1 : ∀ w, w ∈ authority_weights (config e) → 1 <= w).
  { intros w Hw. rw Forall_forall in Hws. by apply Hws. }
  rw /expected_proposer_for_block /weighted_proposer_for_block Hz active_entries_all.
  { intros [x y] Hxy%elem_of_zip_r%Hw1. simpl. lia. }
  rw (foldl_sat_add (snd : Address * Z → Z)); [|done|].
  { intros [x y] Hxy%elem_of_zip_r%Hw1. simpl. lia. }
  rw clamp_all // try_sum_capped //; [apply Forall_forall; intros w ?%Hw1; lia|].
  rw zip_snd_sum // Z.add_0_l.
  set total := Z.min _ _. assert (0 < total) as Hpos.
  { destruct (authority_weights (config e)) as [|w0 ws0] eqn:Ew; [done|].
    rw /total sumZ_cons. assert (1 <= w0) by (apply Hw1; set_solver).
    assert (0 <= sumZ id ws0) by (apply sumZ_nonneg; intros x Hx; assert (1 <= x) by (apply Hw1; set_solver); unfold id; lia).
    unfold id at 1. unfold_int. lia. }
  rw /checked_rem (proj2 (Z.eqb_neq total 0)); [lia|].
  pose proof (walks_agree (block_seed n mod total) 0 ZERO 0 (authorities (config e))
    (authority_weights (config e)) (eq_sym Hlen) Hws) as Hwalk.
  destruct (authorities (config e)) as [|a l] eqn:Ea; [done|].
  destruct (authority_weights (config e)) as [|w ws] eqn:Ew; [done|].
  etrans; [exact Hwalk|]. cbn [mbind option_bind].
  destruct (ticket_walk _ _ _ _) as [j|]; [by rw Nat.sub_0_r|].
  destruct (last (a :: l)) eqn:El; [done|]. by apply last_None in El.
Qed.

(** ** Properties *)

(** The engine never expects a block from an authority slashed to nothing.
    As long as some authority has a positive effective weight (and the weights
    sum to a [u64]), the expected proposer of every block is one of the
    authorities with positive effective weight, and it passes [verify_header]. *)
Theorem expected_proposer_valid `{Hashes} e h :
  poa_wf e → effective_total e <= u64_max →
  (∃ i, 0 < effective_weight_at e i ∧ is_Some (authorities (config e) !! i)) →
  (∃ i, authorities (config e) !! i = Some (expected_proposer_for_block e (number h)) ∧
     0 < effective_weight_at e i) ∧
  (verify_header e h = Ok tt ↔ proposer h = expected_proposer_for_block e (number h)).
Proof.
  intros Hwf Hm Hex. destruct (expected_active e (number h) Hwf Hm Hex) as (i & Hi & Hw).
  split; [by eauto|]. rw /= /verify_proposer. split.
  - case_guard H0; [done|]. cbv zeta. by case_guard Hp.
  - intros ->. destruct (effective_weight_for_at e Hwf i _ Hi) as [-> _]. simpl.
    rw (proj2 (Z.eqb_neq _ _)); [lia|]. by rw decide_True.
Qed.

(** The weighted lottery is proportional.  With weights configured, the
    expected proposer of block [n] holds ticket [seed(n) mod total] in a table
    of [total] tickets, in which every authority holds exactly as many tickets
    as its effective weight. *)
Theorem poa_lottery_proportional `{Hashes} e :
  poa_wf e → effective_total e <= u64_max → authority_weights (config e) ≠ [] →
  0 < effective_total e →
  ∃ table, length table = Z.to_nat (effective_total e) ∧
    (∀ n, table !! Z.to_nat (block_seed n mod effective_total e)
       = Some (expected_proposer_for_block e n)) ∧
    ∀ i a, authorities (config e) !! i = Some a →
      length (filter (λ b, b = a) table) = Z.to_nat (effective_weight_at e i).
Proof.
  intros Hwf Hm Hws Hpos. exists (tickets (weighted_authorities e)). split_and!.
  - apply length_tickets, weighted_nonneg, Hwf.
  - intros n. by apply expected_weighted.
  - intros i a Hi.
    rw -(bind_replicate_count fst snd (weighted_authorities e) (a, effective_weight_at e i)) //.
    + rw weighted_authorities_fst. apply Hwf.
    + apply elem_of_weighted. eauto.
Qed.

(** An engine that has slashed nobody selects exactly the proposer the
    configuration assigns, with and without weights, for every block number,
    whenever the weights are within the bounds that the builders enforce. *)
Theorem expected_matches_config `{Hashes} e n :
  slash_weights e = ∅ → authorities (config e) ≠ [] →
  (authority_weights (config e) = [] ∨
   length (authority_weights (config e)) = length (authorities (config e))) →
  Forall (λ w, 1 <= w <= MAX_VALIDATOR_WEIGHT) (authority_weights (config e)) →
  Some (expected_proposer_for_block e n) = proposer_for_block (config e) n.
Proof.
  intros He Hne Hlen Hws. rw /proposer_for_block.
  destruct (authorities (config e)) as [|a0 l0] eqn:Ea; [done|].
  destruct (authority_weights (config e)) as [|w0 ws0] eqn:Ew.
  - rw expected_round_robin // unslashed_unweighted // ?Ea // length_fmap -list_fmap_compose.
    rw list_fmap_id. destruct (lookup_lt_is_Some_2 (a0 :: l0)
      (epoch_slot (config e) n (length (a0 :: l0)))) as [x ->]; [|done].
    apply epoch_slot_lt. simpl. lia.
  - destruct Hlen as [|Hlen]; [done|].
    by rw expected_matches_weighted ?Ew ?Ea.
Qed.

(** a slash takes exactly the configured share.  With at most 10000 basis
    points, slashing the authority at index [i] takes
    [floor(weight * bps / 10000)] from its effective weight and nothing from
    the others; the weight never goes negative, and below 10000 basis points an
    authority with positive weight keeps a positive weight. *)
Theorem poa_slash_exact e i o :
  poa_wf e → slash_weight_bps (config e) <= 10000 → authorities (config e) !! i = Some o →
  let w := effective_weight_at e i in
  let e' := poa_slash_authority e o in
  effective_weight_at e' i = w - w * slash_weight_bps (config e) / 10000 ∧
  0 <= effective_weight_at e' i <= w ∧
  (slash_weight_bps (config e) < 10000 → 0 < w → 0 < effective_weight_at e' i) ∧
  (∀ j, j ≠ i → is_Some (authorities (config e) !! j) →
     effective_weight_at e' j = effective_weight_at e j).
Proof.
  intros Hwf Hb Hi. cbv zeta. pose proof (effective_weight_range e i Hwf) as Hw.
  pose proof (poa_bps_u64 e Hwf) as Hbps. unfold in_u64 in Hw, Hbps.
  destruct (slash_amount_range (effective_weight_at e i) (slash_weight_bps (config e))) as [Ha Har];
    [done|lia|].
  rw slash_offender // Ha. split_and!; [unfold_int; lia..| |].
  - intros Hlt Hpos. assert (effective_weight_at e i * slash_weight_bps (config e) / 10000
      < effective_weight_at e i); [|unfold_int; lia].
    apply Z.div_lt_upper_bound; nia.
  - intros j Hji [a Ha']. apply (slash_other e o j a Ha'). intros ->.
    apply Hji. by eapply NoDup_lookup; [apply Hwf|..].
Qed.

(** full header verification accepts exactly the right headers: the
    proposer is the expected one and not slashed to nothing, the timestamp lies
    between the parent's plus the block time and the clock plus the tolerance,
    the number is the parent's plus one and a [u64], the parent hash matches,
    and the seal verifies. *)
Theorem verify_header_with_parent_iff `{Hashes} e h parent seal pk v now :
  verify_header_with_parent e h parent seal pk v now = Ok tt ↔
  unwrap_or 0 (effective_weight_for e (proposer h)) ≠ 0 ∧
  proposer h = expected_proposer_for_block e (number h) ∧
  sat_add (timestamp parent) (block_time_secs (config e)) <= timestamp h
    <= sat_add now (max_future_secs (config e)) ∧
  number h = number parent + 1 ∧ number parent + 1 <= u64_max ∧
  parent_hash h = header_hash parent ∧
  verify v pk (as_bytes (header_hash h)) seal = Ok true.
Proof.
  rw -verify_seal_with_ok /verify_header_with_parent /verify_proposer /verify_timestamp
    /verify_parent /checked_add. cbv zeta.
  destruct (_ =? 0) eqn:E0; simpl; [apply Z.eqb_eq in E0|apply Z.eqb_neq in E0]; [naive_solver|].
  case_decide as E1; simpl; [|naive_solver].
  destruct (_ <? timestamp h) eqn:E2; simpl; [apply Z.ltb_lt in E2|apply Z.ltb_ge in E2].
  { split; [done|]. lia. }
  destruct (timestamp h <? _) eqn:E3; simpl; [apply Z.ltb_lt in E3|apply Z.ltb_ge in E3].
  { split; [done|]. lia. }
  destruct (_ <=? u64_max) eqn:E4; simpl; [apply Z.leb_le in E4|apply Z.leb_gt in E4].
  2:{ split; [done|]. lia. }
  destruct (number h =? _) eqn:E5; simpl; [apply Z.eqb_eq in E5|apply Z.eqb_neq in E5].
  2:{ split; [done|]. lia. }
  case_decide as E6; simpl; [|naive_solver]. naive_solver.
Qed.

(** ** Sample engines *)

#[local] Existing Instance toy_hashes.

Definition p_addr (n : Z) : Address := b256_of_Z n.
Definition p_config (ws : list Z) : PoaConfig :=
  MkPoaConfig [p_addr 1; p_addr 2; p_addr 3] ws 5 60 0 ∅ 1000.
Definition p_engine (ws : list Z) : PoaEngine := poa_engine_new (p_config ws).
Definition p_weighted : PoaEngine := p_engine [10; 20; 30].

Lemma p_weighted_wf : poa_wf p_weighted.
Proof.
  split; [by apply (bool_decide_unpack _); vm_compute| |done|done].
  intros w Hw. repeat (apply elem_of_cons in Hw as [->|Hw]; [done|]). by apply elem_of_nil in Hw.
Qed.

Lemma p_weighted_total : effective_total p_weighted = 60.
Proof. by vm_compute. Qed.

Lemma expected_proposer_valid_witness :
  ∃ i, authorities (config p_weighted) !! i
         = Some (expected_proposer_for_block p_weighted 7).
Proof.
  destruct (expected_proposer_valid p_weighted (sample_header 7 0 ZERO) p_weighted_wf
    ltac:(by rw p_weighted_total) ltac:(by exists 0%nat; split; [vm_compute|eexists]))
    as [(i & Hi & _) _].
  by exists i.
Defined.

Lemma poa_lottery_proportional_witness :
  ∃ table, length (filter (λ b, b = p_addr 3) table) = 30%nat ∧ length table = 60%nat.
Proof.
  destruct (poa_lottery_proportional p_weighted p_weighted_wf ltac:(by rw p_weighted_total)
    ltac:(done) ltac:(by rw p_weighted_total)) as (table & Hlen & _ & Hcount).
  exists table. split; [|by rw Hlen p_weighted_total].
  rw (Hcount 2%nat) //.
Defined.

Lemma expected_matches_config_witness :
  Some (expected_proposer_for_block p_weighted 9) = proposer_for_block (p_config [10; 20; 30]) 9.
Proof.
  apply (expected_matches_config p_weighted 9); [done|done|by right|].
  repeat constructor; by vm_compute.
Defined.

Lemma poa_slash_exact_witness :
  effective_weight_at (poa_slash_authority p_weighted (p_addr 3)) 2 = 27.
Proof.
  destruct (poa_slash_exact p_weighted 2 (p_addr 3) p_weighted_wf ltac:(done) eq_refl) as [E _].
  exact E.
Defined.

Lemma slash_sequence_weights_witness :
  dom (validator_weights (foldl slash_authority p_weighted [p_addr 1; p_addr 3; p_addr 1]))
    = dom (validator_weights p_weighted).
Proof.
  apply (slash_sequence_weights p_weighted p_weighted [p_addr 1; p_addr 3; p_addr 1]).
  apply p_weighted_wf.
Defined.
