(* ===== verification/WPoa.v ===== *)
(** * The weighted Proof-of-Authority engine

    crates/consensus/src/wpoa.rs: weighted round-robin over a validator set,
    rotation of the proposer by view changes, header checks for live and for
    finalized blocks, slashing and reconfiguration, and its implementation of
    the [ConsensusEngine] trait.  The mutex around the view-change state is
    never held across two operations, so the state is a plain field. *)

From S2P Require Import Prelude Primitives Block Validators Finality ViewChange PoaConfig Engine Poa.

Record WPoaConfig := MkWPoaConfig {
  wc_poa : PoaConfig;
  wc_weights : list Z;
  wc_validator_set_config : ValidatorSetConfig;
  wc_chain_id : Z;
}.

Definition from_poa (p : PoaConfig) : WPoaConfig :=
  MkWPoaConfig p (replicate (length (authorities p)) 1) ValidatorSetConfig_default 0.

Definition wpoa_with_weights (p : PoaConfig) (ws : list Z) : WPoaConfig :=
  MkWPoaConfig p ws ValidatorSetConfig_default 0.

Record WPoaEngine := MkWPoaEngine {
  inner : PoaEngine;
  validator_set : ValidatorSet;
  validator_set_config : ValidatorSetConfig;
  w_slash_weights : gmap Address Z;
  view_change_state : ViewChangeState;
  signer : option Signer;
}.

(** The weights aligned with the authorities: 1 where missing, clamped. *)
Definition aligned_weights (auths : list Address) (ws : list Z) : list Z :=
  imap (λ i _, clamp 1 MAX_VALIDATOR_WEIGHT (unwrap_or 1 (ws !! i))) auths.

(** [wall_ms] is the wall clock read by [ViewChangeState::new]. *)
Definition wpoa_new (c : WPoaConfig) (wall_ms : Z) : WPoaEngine :=
  let poa := wc_poa c in
  let weights := aligned_weights (authorities poa) (wc_weights c) in
  let poa' := set_authority_lists poa (authorities poa) weights in
  let vs := from_genesis (zip (authorities poa) weights) (wc_validator_set_config c) in
  let vcs := view_change_new wall_ms in
  MkWPoaEngine (poa_engine_new poa') vs (wc_validator_set_config c) ∅
    (if wc_chain_id c =? 0 then vcs else set_chain_id vcs (wc_chain_id c)) None.

Definition with_signer (e : WPoaEngine) (s : Signer) : WPoaEngine :=
  MkWPoaEngine (inner e) (validator_set e) (validator_set_config e) (w_slash_weights e)
    (view_change_state e) (Some s).

Definition set_inner_config (e : WPoaEngine) (c : PoaConfig) : WPoaEngine :=
  MkWPoaEngine (MkPoaEngine c (slash_weights (inner e))) (validator_set e)
    (validator_set_config e) (w_slash_weights e) (view_change_state e) (signer e).

Definition set_view_change_state (e : WPoaEngine) (s : ViewChangeState) : WPoaEngine :=
  MkWPoaEngine (inner e) (validator_set e) (validator_set_config e) (w_slash_weights e)
    s (signer e).

Definition w_config (e : WPoaEngine) : PoaConfig := config (inner e).

Definition w_base_weight_for (e : WPoaEngine) (a : Address) : option Z :=
  match get (validator_set e) a with
  | Some v => Some (weight v)
  | None =>
      idx ← position_of a (authorities (w_config e));
      Some (Z.max (unwrap_or 1 (authority_weights (w_config e) !! idx)) 1)
  end.

Definition w_effective_weight_for (e : WPoaEngine) (a : Address) : option Z :=
  (λ base, sat_sub base (unwrap_or 0 (w_slash_weights e !! a))) <$> w_base_weight_for e a.

Definition apply_slash (e : WPoaEngine) (offender : Address) : WPoaEngine :=
  let c := config_slash_authority (w_config e) offender in
  let current := unwrap_or 1 (w_effective_weight_for e offender) in
  let amount := slash_amount current (slash_weight_bps c) in
  let base := unwrap_or 1 (w_base_weight_for e offender) in
  let cumulative := unwrap_or 0 (w_slash_weights e !! offender) in
  MkWPoaEngine (MkPoaEngine c (slash_weights (inner e))) (validator_set e)
    (validator_set_config e)
    (<[offender := Z.min (sat_add cumulative amount) base]> (w_slash_weights e))
    (view_change_state e) (signer e).

Definition w_validator_weights (e : WPoaEngine) : gmap Address Z :=
  collect_map ((λ v, (address v, unwrap_or 0 (w_effective_weight_for e (address v))))
    <$> active_validators (validator_set e)).

Definition w_current_view (e : WPoaEngine) : Z := vcs_current_view (view_change_state e).

Definition w_handle_view_change_message (e : WPoaEngine) (msg : ViewChangeMessage) (total : Z) :
    WPoaEngine * bool :=
  let s := view_change_state e in
  if negb (vc_view msg =? vcs_current_view s) then (e, false)
  else
    let s1 := configure_quorum s (w_validator_weights e) total in
    let '(s2, quorum) := record_view_change s1 msg in
    if quorum then (set_view_change_state e (advance_view s2), true)
    else (set_view_change_state e s2, false).

Definition reset_view_change_state (e : WPoaEngine) (now_ms : Z) : WPoaEngine :=
  set_view_change_state e (reset_for_block (view_change_state e) now_ms).

Definition w_penalty_state (e : WPoaEngine) : PenaltyState :=
  sorted_penalties (slashed (w_config e)) (w_slash_weights e).

Definition w_restore_penalty_state (e : WPoaEngine) (p : PenaltyState) : WPoaEngine :=
  MkWPoaEngine
    (MkPoaEngine (set_slashed (w_config e) (list_to_set (penalty_slashed p)))
       (slash_weights (inner e)))
    (validator_set e) (validator_set_config e) (collect_map (penalty_reductions p))
    (view_change_state e) (signer e).

Definition w_set_authorities_with_weights (e : WPoaEngine) (auths : list Address) (ws : list Z) :
    option WPoaEngine :=
  match auths with
  | [] => None
  | _ =>
      let weights := aligned_weights auths ws in
      Some (MkWPoaEngine
        (MkPoaEngine (set_authority_lists (w_config e) auths weights) (slash_weights (inner e)))
        (from_genesis (zip auths weights) (validator_set_config e)) (validator_set_config e)
        (w_slash_weights e) (view_change_state e) (signer e))
  end.

Definition w_set_authorities (e : WPoaEngine) (auths : list Address) : option WPoaEngine :=
  let current := w_validator_weights e in
  w_set_authorities_with_weights e auths ((λ a, unwrap_or 1 (current !! a)) <$> auths).

Section engine.
Context `{Hashes}.

(** The fallback panics only if the configured weights outnumber the
    authorities; the engine keeps the two lists aligned. *)
Definition base_proposer_for_block (e : WPoaEngine) (n : Z) : Address :=
  match weighted_proposer (validator_set e) n with
  | Some a => a
  | None => unwrap_or ZERO (proposer_for_block (w_config e) n)
  end.

(** The authorities starting from the base proposer. *)
Definition rotated (e : WPoaEngine) (n : Z) : list Address :=
  let auths := authorities (w_config e) in
  let i := unwrap_or 0%nat (position_of (base_proposer_for_block e n) auths) in
  drop i auths ++ take i auths.

Definition proposer_for_block_in_view (e : WPoaEngine) (n view : Z) : Address :=
  if view =? 0 then base_proposer_for_block e n
  else
    match authorities (w_config e) with
    | [] => base_proposer_for_block e n
    | _ => unwrap_or ZERO (select_proposer view (rotated e n))
    end.

Definition w_proposer_for_block (e : WPoaEngine) (n : Z) : Address :=
  proposer_for_block_in_view e n (w_current_view e).

Definition first_view_for_proposer (e : WPoaEngine) (n : Z) (p : Address) : option Z :=
  if negb (is_active (validator_set e) p) then None
  else if decide (p = base_proposer_for_block e n) then Some 0
  else
    snd <$> list_find (λ view, proposer_for_block_in_view e n view = p)
      (seqZ 1 (Z.of_nat (length (authorities (w_config e))))).

Definition w_verify_header (e : WPoaEngine) (h : BlockHeader) : result unit ConsensusError :=
  if negb (is_active (validator_set e) (proposer h)) then Err (UnknownProposer (proposer h))
  else
    let expected := w_proposer_for_block e (number h) in
    if decide (proposer h = expected) then Ok tt
    else Err (InvalidProposer expected (proposer h)).

Definition view_timeout_secs (e : WPoaEngine) : Z :=
  Z.max (div_ceil VIEW_CHANGE_TIMEOUT_MS 1000) (block_time_secs (w_config e)).

Definition w_verify_header_for_finalized_import (e : WPoaEngine) (h parent : BlockHeader) :
    result unit ConsensusError :=
  match first_view_for_proposer e (number h) (proposer h) with
  | None => Err (UnknownProposer (proposer h))
  | Some view =>
      if view =? 0 then Ok tt
      else
        let earliest := sat_add (timestamp parent) (sat_mul (view_timeout_secs e) view) in
        if timestamp h <? earliest
        then Err (InvalidProposer (base_proposer_for_block e (number h)) (proposer h))
        else Ok tt
  end.

Definition w_seal_block (e : WPoaEngine) (b : Block) : result Block ConsensusError :=
  match signer e with
  | None => Err NoSigner
  | Some s => sign_as (w_proposer_for_block e (number (header b))) SigningError b s
  end.

Definition w_is_proposer (e : WPoaEngine) (n : Z) (a : Address) : bool :=
  bool_decide (w_proposer_for_block e n = a).

Definition w_sign_block (e : WPoaEngine) (b : Block) (s : Signer) :
    result Block ConsensusError :=
  sign_as (w_proposer_for_block e (number (header b))) SealingFailed b s.

#[global] Instance wpoa_consensus_engine : ConsensusEngine WPoaEngine := {|
  verify_header := w_verify_header;
  verify_header_for_finalized_import := w_verify_header_for_finalized_import;
  seal_block := w_seal_block;
  is_proposer := w_is_proposer;
  engine_type _ := WPoA;
  poa_config := w_config;
  set_poa_config := set_inner_config;
  set_authorities := w_set_authorities;
  set_authorities_with_weights := w_set_authorities_with_weights;
  sign_block := w_sign_block;
  verify_seal _ := verify_seal_with;
  slash_authority := apply_slash;
  penalty_state := w_penalty_state;
  restore_penalty_state := w_restore_penalty_state;
  validator_weights := w_validator_weights;
  handle_view_change_message := w_handle_view_change_message;
  current_view := w_current_view;
  check_view_change_timeout e := check_timeout (view_change_state e);
  note_block_progress := reset_view_change_state;
|}.
End engine.

(** ** Invariant *)

(** The configuration and the validator set describe the same weighted
    authorities, and everything is within its machine range. *)
Record w_inv (e : WPoaEngine) : Prop := {
  winv_nodup : NoDup (authorities (w_config e));
  winv_len : length (authority_weights (w_config e)) = length (authorities (w_config e));
  winv_weights : Forall (λ w, 1 <= w <= MAX_VALIDATOR_WEIGHT) (authority_weights (w_config e));
  winv_set : validator_set e =
    from_genesis (zip (authorities (w_config e)) (authority_weights (w_config e)))
      (validator_set_config e);
  winv_small : Z.of_nat (length (authorities (w_config e))) * MAX_VALIDATOR_WEIGHT <= u64_max;
  winv_bps : in_u64 (slash_weight_bps (w_config e));
  winv_reductions : ∀ a r, w_slash_weights e !! a = Some r → in_u64 r;
}.

Lemma length_aligned auths ws : length (aligned_weights auths ws) = length auths.
Proof. apply length_imap. Qed.

Lemma aligned_weights_range auths ws :
  Forall (λ w, 1 <= w <= MAX_VALIDATOR_WEIGHT) (aligned_weights auths ws).
Proof.
  apply Forall_forall. intros w Hw. apply list_elem_of_lookup in Hw as [i Hi].
  rw /aligned_weights list_lookup_imap in Hi. destruct (auths !! i); simplify_eq/=.
  by apply clamp_range.
Qed.

Lemma zip_fst (l : list Address) (ws : list Z) : length ws = length l → (zip l ws).*1 = l.
Proof. intros Hlen. apply fst_zip. lia. Qed.

Section invariant.
Context (e : WPoaEngine) (e_inv : w_inv e).
Local Abbreviation auths := (authorities (w_config e)).
Local Abbreviation weights := (authority_weights (w_config e)).

Lemma w_vs_wf : vs_wf (validator_set e).
Proof using e_inv.
  rw (winv_set e e_inv). apply from_genesis_wf. rw zip_fst; apply e_inv.
Qed.

Lemma w_vs_order : order (validator_set e) = auths.
Proof using e_inv.
  rw (winv_set e e_inv). destruct (from_genesis_order (zip auths weights) (validator_set_config e))
    as [-> _]. apply zip_fst, e_inv.
Qed.

Lemma w_vs_small : small_set (validator_set e).
Proof using e_inv. rw /small_set w_vs_order. apply e_inv. Qed.

Lemma w_vs_lookup i a w :
  auths !! i = Some a → weights !! i = Some w →
  validators (validator_set e) !! a = Some (genesis_info a w).
Proof using e_inv.
  intros Ha Hw. rw (winv_set e e_inv) from_genesis_lookup.
  { rw zip_fst; apply e_inv. }
  rw (elem_of_list_to_map_1 _ a w) //.
  - rw zip_fst; apply e_inv.
  - apply (list_elem_of_lookup_2 _ i). by rw lookup_zip_with Ha /= Hw.
Qed.

Lemma w_weight_at i a : auths !! i = Some a → ∃ w, weights !! i = Some w ∧ 1 <= w <= MAX_VALIDATOR_WEIGHT.
Proof using e_inv.
  intros Ha. destruct (lookup_lt_is_Some_2 weights i) as [w Hw].
  { rw (winv_len e e_inv). by eapply lookup_lt_Some. }
  exists w. split; [done|]. pose proof (winv_weights e e_inv) as Hr. rw Forall_forall in Hr.
  by eapply Hr, list_elem_of_lookup_2.
Qed.

Lemma w_active_iff a : (is_active (validator_set e) a = true) ↔ a ∈ auths.
Proof using e_inv.
  split.
  - rw -w_vs_order (wf_order_dom _ w_vs_wf) /is_active. by destruct (_ !! a).
  - intros [i Hi]%list_elem_of_lookup. destruct (w_weight_at i a Hi) as (w & Hw & _).
    by rw /is_active (w_vs_lookup i a w).
Qed.

Lemma w_base_weight i a w :
  auths !! i = Some a → weights !! i = Some w → w_base_weight_for e a = Some w.
Proof using e_inv.
  intros Hi Hw. rw /w_base_weight_for /get (w_vs_lookup i a w) //=.
  destruct (w_weight_at i a Hi) as (w' & Hw' & Hr). simplify_eq. by rw clamp_id.
Qed.

Lemma w_active_validators a :
  a ∈ (address <$> active_validators (validator_set e)) ↔ a ∈ auths.
Proof using e_inv.
  rw /active_validators active_addresses; [apply w_vs_wf|].
  rw list_elem_of_filter w_vs_order. rw w_active_iff. tauto.
Qed.

Lemma w_weights_lookup a w :
  w_validator_weights e !! a = Some w ↔
  a ∈ auths ∧ w = unwrap_or 0 (w_effective_weight_for e a).
Proof using e_inv.
  rw /w_validator_weights collect_map_lookup.
  { rw -list_fmap_compose. apply (active_nodup _ w_vs_wf). }
  rw -w_active_validators. split.
  - intros (v & [= -> ->] & Hv)%elem_of_list_to_map_2%list_elem_of_fmap.
    split; [by apply list_elem_of_fmap_2|done].
  - intros [(v & -> & Hv)%list_elem_of_fmap ->]. apply elem_of_list_to_map_1.
    + rw -list_fmap_compose. apply (active_nodup _ w_vs_wf).
    + apply list_elem_of_fmap. by exists v.
Qed.

Lemma w_reduction_u64 a : in_u64 (unwrap_or 0 (w_slash_weights e !! a)).
Proof using e_inv. destruct (_ !! a) eqn:E; [by eapply winv_reductions|done]. Qed.

Lemma w_effective_range a w :
  w_validator_weights e !! a = Some w → 0 <= w <= MAX_VALIDATOR_WEIGHT.
Proof using e_inv.
  intros [[i Hi]%list_elem_of_lookup ->]%w_weights_lookup.
  destruct (w_weight_at i a Hi) as (b & Hb & Hr). pose proof (w_reduction_u64 a).
  rw /w_effective_weight_for (w_base_weight i a b) //=.
  rw /MAX_VALIDATOR_WEIGHT in Hr *. int_lia.
Qed.
End invariant.

(** ** Slashing and the interface *)

Lemma apply_slash_inv e o : w_inv e → w_inv (apply_slash e o).
Proof.
  intros He. pose proof (w_reduction_u64 e He o) as Hr. destruct He as [H1 H2 H3 H4 H5 H6 H7].
  split; [done..|]. simpl. intros a r [[<- <-]|[_ Ha]]%lookup_insert_Some; [|by eapply H7].
  assert (0 <= slash_amount (unwrap_or 1 (w_effective_weight_for e o)) (slash_weight_bps (w_config e)))
    by (apply Z.mod_pos_bound; done).
  apply capped_u64; [done..|].
  rw /w_base_weight_for. destruct (get _ o) as [v|] eqn:Ev; simpl.
  - assert (vs_wf (validator_set e)) as Hwf.
    { rw H4. apply from_genesis_wf. by rw zip_fst. }
    apply (wf_info _ Hwf) in Ev as [_ ?]. lia.
  - destruct (position_of _ _); simpl; lia.
Qed.

Lemma apply_slash_effective e o i w :
  w_inv e → authorities (w_config e) !! i = Some o → authority_weights (w_config e) !! i = Some w →
  w_effective_weight_for (apply_slash e o) o =
    (λ x, sat_sub x (slash_amount x (slash_weight_bps (w_config e)))) <$> w_effective_weight_for e o.
Proof.
  intros He Hi Hw. pose proof (w_base_weight e He i o w Hi Hw) as Hb.
  assert (w_base_weight_for (apply_slash e o) o = Some w) as Hb' by exact Hb.
  rw /w_effective_weight_for Hb' Hb /= lookup_insert_eq /= Hb /w_effective_weight_for Hb /=.
  pose proof (w_reduction_u64 e He o). f_equal. set amt := slash_amount _ _.
  assert (0 <= amt) by (apply Z.mod_pos_bound; done).
  destruct (w_weight_at e He i o Hi) as (? & ? & ?). simplify_eq.
  rw /MAX_VALIDATOR_WEIGHT in H2. int_lia.
Qed.

Lemma apply_slash_other e o a :
  a ≠ o → w_effective_weight_for (apply_slash e o) a = w_effective_weight_for e a.
Proof.
  intros Hne. rw /w_effective_weight_for.
  change (w_base_weight_for (apply_slash e o) a) with (w_base_weight_for e a).
  by rw /= lookup_insert_ne.
Qed.

Lemma apply_slash_down e o :
  w_inv e → slashed_from o (w_validator_weights e) (w_validator_weights (apply_slash e o)).
Proof.
  intros He. pose proof (apply_slash_inv e o He) as He'. split.
  - apply set_eq. intros a. rw !elem_of_dom. split; intros [w [Ha _]%w_weights_lookup]; try done;
      eexists; apply w_weights_lookup; by eauto.
  - intros a w w' [Ha ->]%w_weights_lookup [_ ->]%w_weights_lookup; [|done..].
    destruct (decide (a = o)) as [->|Hne]; [|by rw apply_slash_other].
    apply list_elem_of_lookup in Ha as [i Hi]. destruct (w_weight_at e He i o Hi) as (w & Hw & Hr).
    rw (apply_slash_effective e o i w) //. pose proof (w_reduction_u64 e He o).
    rw /w_effective_weight_for (w_base_weight e He i o w) //=. set x := sat_sub w _.
    assert (0 <= slash_amount x (slash_weight_bps (w_config e))) by (apply Z.mod_pos_bound; done).
    assert (0 <= x) by (rw /x; int_lia). split; [int_lia|done].
Qed.

#[global] Program Instance wpoa_laws `{Hashes} : EngineLaws WPoaEngine := {| engine_wf := w_inv |}.
Next Obligation. intros. by apply apply_slash_inv. Qed.
Next Obligation. intros. apply verify_seal_with_ok. Qed.
Next Obligation.
  intros ? e b s b' (Hp & Hh & Hs)%sign_as_ok. split_and!; [|done..].
  apply bool_decide_eq_true. by rw Hp.
Qed.
Next Obligation.
  intros ? e h. rw /= /w_verify_header. case_guard H0; [done|]. cbv zeta.
  case_guard Hp; [|done]. intros _. by apply bool_decide_eq_true.
Qed.
Next Obligation.
  intros ? [[[] ?] ? ? ? ? ?].
  rw /= /w_restore_penalty_state /w_penalty_state sorted_slashed sorted_reductions //.
Qed.
Next Obligation.
  intros. rw /= /w_restore_penalty_state /w_penalty_state sorted_slashed sorted_reductions //.
Qed.
Next Obligation. intros. by apply apply_slash_down. Qed.

(** ** Rotation of the proposer by views *)

Section rotation.
Context `{Hashes} (e : WPoaEngine) (n : Z) (e_inv : w_inv e) (n_pos : 0 <= n).
Context (some_auth : authorities (w_config e) ≠ []).
Local Abbreviation auths := (authorities (w_config e)).
Local Abbreviation count := (Z.of_nat (length auths)).

Lemma base_is_authority : base_proposer_for_block e n ∈ auths.
Proof using All.
  rw /base_proposer_for_block.
  destruct (weighted_proposer_some (validator_set e) n) as (v & Hv & ->);
    [by apply w_vs_wf|by apply w_vs_small| |done|].
  - intros E. destruct auths as [|a l] eqn:Ea; [done|].
    assert (a ∈ address <$> active_validators (validator_set e)) as Hin.
    { apply w_active_validators; [done|]. rw Ea. set_solver. }
    rw E in Hin. set_solver.
  - apply w_active_validators; [done|]. by apply list_elem_of_fmap_2.
Qed.

Lemma rotated_perm : rotated e n ≡ₚ auths.
Proof.
  rw /rotated. cbv zeta. rw Permutation_app_comm. by rw take_drop.
Qed.

Lemma rotated_head : rotated e n !! 0%nat = Some (base_proposer_for_block e n).
Proof using All.
  rw /rotated. cbv zeta. pose proof base_is_authority as [i Hi]%list_elem_of_lookup.
  rw (position_of_nodup _ i) //; [apply e_inv|]. simpl.
  rw lookup_app_l.
  - rw length_drop. apply lookup_lt_Some in Hi. lia.
  - by rw lookup_drop Nat.add_0_r.
Qed.

Lemma in_view_eq view :
  0 <= view →
  rotated e n !! Z.to_nat (view mod count) = Some (proposer_for_block_in_view e n view).
Proof using All.
  intros Hview. rw /proposer_for_block_in_view. assert (0 < count).
  { by destruct auths; [|simpl; lia]. }
  assert (length (rotated e n) = length auths) as Hlen by (by rw rotated_perm).
  destruct (view =? 0) eqn:E0.
  - apply Z.eqb_eq in E0 as ->. rw Z.mod_0_l; [lia|]. apply rotated_head.
  - destruct auths as [|a l] eqn:Ea; [done|]. rw -Ea in Hlen *.
    rw /select_proposer. destruct (rotated e n) as [|r rs] eqn:Er; [by rw Ea in Hlen|].
    rw /round_robin_index -Er (proj2 (Nat.eqb_neq _ _)); [by rw Er|]. simpl.
    rw Er Hlen. destruct (lookup_lt_is_Some_2 (r :: rs) (Z.to_nat (view mod Z.of_nat (length auths))))
      as [x ->]; [|done].
    rw Hlen. pose proof (Z.mod_pos_bound view (Z.of_nat (length auths))). rw Ea in H1 *. lia.
Qed.
End rotation.

(** ** Tallying view changes *)

(** What changes the view between two reconfigurations. *)
Inductive view_input :=
| VMessage (msg : ViewChangeMessage)
| VProgress (now_ms : Z).

(** The total the node passes along: the sum of the validator weights. *)
Definition view_total (e : WPoaEngine) : Z := map_total (w_validator_weights e).

Definition view_step (e : WPoaEngine) (i : view_input) : WPoaEngine * bool :=
  match i with
  | VMessage msg => w_handle_view_change_message e msg (view_total e)
  | VProgress now => (reset_view_change_state e now, false)
  end.

Definition view_run (e : WPoaEngine) (ins : list view_input) : WPoaEngine :=
  foldl (λ e i, (view_step e i).1) e ins.

(** The quorum in force while the weights total [total]. *)
Definition view_quorum (total : Z) : Z := div_ceil (wrapping_mul 2 (Z.max total 1)) 3.

Lemma view_quorum_eq total :
  0 <= total → 2 * total <= u64_max → 2 * Z.max total 1 <= 3 * view_quorum total < 2 * Z.max total 1 + 3.
Proof.
  intros H0 Hm. rw /view_quorum /wrapping_mul Z.mod_small; [unfold u64_max in *; lia|].
  rw /div_ceil. destruct (_ =? 0) eqn:E; [apply Z.eqb_eq in E|apply Z.eqb_neq in E]; div_lia.
Qed.

Section views.
Context (m : gmap Address Z) (m_u64 : ∀ a w, m !! a = Some w → in_u64 w).
Context (m_total : 2 * map_total m <= u64_max).

(** The engine weighs validators by [m], and its tally for the current view
    holds only requests among [ins], below the quorum. *)
Record view_ok (ins : list view_input) (e : WPoaEngine) : Prop := {
  vok_weights : w_validator_weights e = m;
  vok_tally : tally_ok m (view_change_state e);
  vok_seen : ∀ x, x ∈ counted (view_change_state e) → VMessage x ∈ ins;
  vok_below : sumZ (weight_of m) (vc_validator <$> counted (view_change_state e))
    < view_quorum (map_total m);
}.

Lemma total_nonneg : 0 <= map_total m.
Proof using m_u64.
  apply set_sum_nonneg. intros. rw /weight_of. destruct (m !! x) eqn:E; simpl; [by eapply m_u64|done].
Qed.

Lemma quorum_pos : 0 < view_quorum (map_total m).
Proof using All. pose proof (view_quorum_eq (map_total m) total_nonneg m_total). lia. Qed.

Lemma view_ok_empty ins e :
  w_validator_weights e = m → counted (view_change_state e) = [] →
  unwrap_or 0 (pending_view_change_weights (view_change_state e)
    !! vcs_current_view (view_change_state e)) = 0 → view_ok ins e.
Proof using All.
  intros Hm Hc Hw. pose proof quorum_pos. split; [done| |rw Hc; set_solver|by rw Hc].
  split; rw ?Hc ?Hw //; [constructor|set_solver..].
Qed.

Lemma weights_frame e s : w_validator_weights (set_view_change_state e s) = w_validator_weights e.
Proof. done. Qed.

Lemma configured_tally s w t : tally_ok m s → tally_ok m (configure_quorum s w t).
Proof. intros []. by split. Qed.

(** The validators [X] asked for view [view] at height [h], by messages in [ins]. *)
Definition view_certificate (ins : list view_input) (view h : Z) (X : gset Address) : Prop :=
  X ⊆ dom m ∧ 2 * map_total m <= 3 * set_sum (weight_of m) X ∧
  ∀ v, v ∈ X → ∃ x, VMessage x ∈ ins ∧ vc_validator x = v ∧ vc_view x = view ∧
    vc_block_number x = h.

(** The message would be counted if its sender is not counted already. *)
Definition eligible (s : ViewChangeState) (msg : ViewChangeMessage) : Prop :=
  vc_view msg = vcs_current_view s ∧
  (vcs_chain_id s = 0 ∨ vc_chain_id msg = vcs_chain_id s) ∧
  0 < weight_of m (vc_validator msg) ∧
  ∀ x, x ∈ counted s → vc_block_number x = vc_block_number msg.

Lemma counted_certificate ins s msg :
  tally_ok m s → msg ∈ counted s → (∀ x, x ∈ counted s → VMessage x ∈ ins) →
  view_quorum (map_total m) <= sumZ (weight_of m) (vc_validator <$> counted s) →
  view_certificate ins (vcs_current_view s) (vc_block_number msg)
    (list_to_set (vc_validator <$> counted s)).
Proof using All.
  intros [Hnd Hk Hh _] Hmsg Hseen Hq. split_and!.
  - intros v (x & -> & Hx)%elem_of_list_to_set%list_elem_of_fmap.
    apply weight_of_pos_dom, Hk, Hx.
  - rw -sumZ_set //. pose proof (view_quorum_eq (map_total m) total_nonneg m_total). lia.
  - intros v (x & -> & Hx)%elem_of_list_to_set%list_elem_of_fmap.
    exists x. split_and!; [by apply Hseen|done|by apply Hk|by apply Hh].
Qed.

Lemma message_step ins e msg e' b :
  view_ok ins e → view_step e (VMessage msg) = (e', b) →
  view_ok (ins ++ [VMessage msg]) e' ∧
  (b = true → w_current_view e' = sat_add (w_current_view e) 1 ∧
     ∃ X, view_certificate (ins ++ [VMessage msg]) (w_current_view e) (vc_block_number msg) X) ∧
  (b = false → w_current_view e' = w_current_view e ∧
     vcs_chain_id (view_change_state e') = vcs_chain_id (view_change_state e) ∧
     (∀ x, x ∈ counted (view_change_state e') → x ∈ counted (view_change_state e) ∨ x = msg) ∧
     ∀ v, v ∈ vc_validator <$> counted (view_change_state e) ∨
          eligible (view_change_state e) msg ∧ v = vc_validator msg →
       v ∈ vc_validator <$> counted (view_change_state e')).
Proof using All.
  intros [Hm Ht Hs Hb]. rw /= /w_handle_view_change_message /view_total Hm.
  assert (Hs' : ∀ x, x ∈ counted (view_change_state e) → VMessage x ∈ ins ++ [VMessage msg]).
  { intros x Hx. apply elem_of_app. left. by apply Hs. }
  case_guard Hview.
  { intros [= <- <-]. split; [by split|]. split; [done|]. intros _.
    split_and!; [done..|by left|]. intros v [?|[[Hv _] _]]; [done|].
    apply negb_true_iff, Z.eqb_neq in Hview. congruence. }
  apply negb_false_iff, Z.eqb_eq in Hview. cbv zeta.
  set s1 := configure_quorum _ _ _. destruct (record_view_change s1 msg) as [s2 q] eqn:Hrec.
  assert (Hu : map_total m <= u64_max) by (pose proof total_nonneg; lia).
  destruct (record_spec m m_u64 Hu s1 msg s2 q eq_refl (configured_tally _ _ _ Ht) Hrec)
    as (Ht2 & (Hv2 & Hc2 & _) & Hcase).
  change (vcs_current_view s1) with (w_current_view e) in Hv2.
  change (counted s1) with (counted (view_change_state e)) in Hcase.
  destruct Hcase as [(Hn & Hcnt & ->)|(Hc & Hcnt & Hq)].
  - intros [= <- <-]. split; [split; simpl; rw ?Hcnt //|]. split; [done|]. intros _. simpl.
    rw Hcnt. split_and!; [done|done|by left|]. intros v [?|[(? & ? & ? & ?) ->]]; [done|].
    apply dec_stable. intros Hnot. by apply Hn.
  - assert (Hseen : ∀ x, x ∈ counted s2 → VMessage x ∈ ins ++ [VMessage msg]).
    { intros x. rw Hcnt. intros [?|E]%elem_of_app; [by apply Hs'|].
      apply list_elem_of_singleton in E as ->. apply elem_of_app. right. by left. }
    change (quorum_weight s1) with (view_quorum (map_total m)) in Hq.
    pose proof quorum_pos. rw Z.max_l in Hq; [lia|]. destruct q; intros [= <- <-].
    + split; [by apply view_ok_empty|]. split; [|done]. intros _.
      split; [by rw /w_current_view /= Hv2|]. eexists.
      rw -Hv2. apply counted_certificate; [done| |done|by apply Z.leb_le].
      rw Hcnt. apply elem_of_app. right. by left.
    + split; [split; try done; by apply Z.leb_gt|]. split; [done|]. intros _.
      simpl. rw Hcnt. split_and!; [done|done|set_solver|]. intros v. rw fmap_app. set_solver.
Qed.
End views.

Section progress.
Context (m : gmap Address Z) (m_u64 : ∀ a w, m !! a = Some w → in_u64 w).
Context (m_total : 2 * map_total m <= u64_max) (view chain h : Z).

(** A request for [view] at height [h] from a validator with weight. *)
Definition good_request (x : ViewChangeMessage) : Prop :=
  vc_view x = view ∧ (chain = 0 ∨ vc_chain_id x = chain) ∧ 0 < weight_of m (vc_validator x).

(** Either the view has advanced, or all good requests so far are counted. *)
Definition advancing (msgs : list ViewChangeMessage) (e : WPoaEngine) : Prop :=
  view < w_current_view e ∨
  (w_current_view e = view ∧ vcs_chain_id (view_change_state e) = chain ∧
   (∀ x, x ∈ counted (view_change_state e) → vc_block_number x = h) ∧
   ∀ x, x ∈ msgs → good_request x →
     vc_validator x ∈ vc_validator <$> counted (view_change_state e)).

Lemma advancing_step pre msgs e msg :
  view < u64_max → view_ok m pre e → advancing msgs e → vc_block_number msg = h →
  advancing (msgs ++ [msg]) (view_step e (VMessage msg)).1.
Proof using All.
  intros Hmax Hok Hadv Hh. destruct (view_step e (VMessage msg)) as [e' b] eqn:E.
  destruct (message_step m m_u64 m_total pre e msg e' b Hok E) as (_ & Htrue & Hfalse). simpl.
  destruct b.
  - destruct (Htrue eq_refl) as [Hv _]. left. rw Hv /sat_add.
    assert (view <= w_current_view e) by (destruct Hadv as [?|[? _]]; lia). clear - Hmax H.
    unfold u64_max in *. lia.
  - destruct (Hfalse eq_refl) as (Hv & Hc & Hsub & Hsup).
    destruct Hadv as [?|(Hview & Hch & Hhs & Hall)]; [left; congruence|right].
    split_and!; [congruence|congruence| |].
    + intros x [?|E']%Hsub; [by apply Hhs|congruence].
    + intros x [Hx|Hx]%elem_of_app Hgood; apply Hsup; [left; by apply Hall|right].
      apply list_elem_of_singleton in Hx as ->. destruct Hgood as (? & ? & ?).
      split; [|done]. split_and!; [by rw -/(w_current_view e); congruence|by rw Hch|done|].
      intros y Hy. rw Hhs //.
Qed.
End progress.

Lemma message_run_ok m pre e msgs :
  (∀ a w, m !! a = Some w → in_u64 w) → 2 * map_total m <= u64_max →
  view_ok m pre e → view_ok m (pre ++ (VMessage <$> msgs)) (view_run e (VMessage <$> msgs)).
Proof.
  intros Hm Ht. revert pre e. induction msgs as [|x msgs IH]; intros pre e Hok; [by rw app_nil_r|].
  rw fmap_cons cons_middle app_assoc. apply IH.
  by eapply message_step; [..|apply surjective_pairing].
Qed.

Lemma view_run_ok m pre e ins :
  (∀ a w, m !! a = Some w → in_u64 w) → 2 * map_total m <= u64_max →
  view_ok m pre e → view_ok m (pre ++ ins) (view_run e ins).
Proof.
  intros Hm Ht. revert pre e. induction ins as [|i ins IH]; intros pre e Hok; [by rw app_nil_r|].
  rw cons_middle app_assoc. apply IH. destruct i as [msg|now].
  - by eapply message_step; [..|apply surjective_pairing].
  - apply view_ok_empty; [done..|by destruct Hok|done|done].
Qed.

(** No request is pending: after construction, progress, or a view change. *)
Definition fresh_tally (e : WPoaEngine) : Prop :=
  pending_view_changes (view_change_state e) = ∅ ∧
  pending_view_change_weights (view_change_state e) = ∅.

Lemma fresh_view_ok e :
  w_inv e → fresh_tally e → 2 * view_total e <= u64_max → view_ok (w_validator_weights e) [] e.
Proof.
  intros He [Hf1 Hf2] Ht. apply view_ok_empty; [|done|done| |].
  - intros a w Hw. apply w_effective_range in Hw; [|done]. rw /MAX_VALIDATOR_WEIGHT in Hw. int_lia.
  - by rw /counted Hf1 lookup_empty.
  - by rw Hf2 lookup_empty.
Qed.

Lemma w_weights_u64 e a w : w_inv e → w_validator_weights e !! a = Some w → in_u64 w.
Proof.
  intros He Hw. apply w_effective_range in Hw; [|done]. rw /MAX_VALIDATOR_WEIGHT in Hw. int_lia.
Qed.

(** ** Reachable engines *)

(** The operations that change an engine. *)
Inductive w_op :=
| OpSlashAuthority (a : Address)
| OpRestore (p : PenaltyState)
| OpSetWeights (auths : list Address) (ws : list Z)
| OpSetAuthorities (auths : list Address)
| OpView (i : view_input)
| OpSigner (s : Signer).

(** A panicking call leaves the engine as it was. *)
Definition w_run (e : WPoaEngine) (op : w_op) : WPoaEngine :=
  match op with
  | OpSlashAuthority a => apply_slash e a
  | OpRestore p => w_restore_penalty_state e p
  | OpSetWeights auths ws => unwrap_or e (w_set_authorities_with_weights e auths ws)
  | OpSetAuthorities auths => unwrap_or e (w_set_authorities e auths)
  | OpView i => (view_step e i).1
  | OpSigner s => with_signer e s
  end.

(** Arguments in range: distinct authorities, not too many, [u64] reductions. *)
Definition auths_ok (auths : list Address) : Prop :=
  NoDup auths ∧ Z.of_nat (length auths) * MAX_VALIDATOR_WEIGHT <= u64_max.

Definition w_op_ok (op : w_op) : Prop :=
  match op with
  | OpRestore p => ∀ q, q ∈ penalty_reductions p → in_u64 q.2
  | OpSetWeights auths _ | OpSetAuthorities auths => auths_ok auths
  | _ => True
  end.

Inductive w_reachable : WPoaEngine → Prop :=
| w_reach_new c wall :
    auths_ok (authorities (wc_poa c)) → in_u64 (slash_weight_bps (wc_poa c)) →
    w_reachable (wpoa_new c wall)
| w_reach_step e op : w_reachable e → w_op_ok op → w_reachable (w_run e op).

Lemma collect_map_elem l a w : collect_map l !! a = Some w → (a, w) ∈ l.
Proof.
  rw /collect_map. induction l as [|[k v] l IH] using rev_ind; [done|].
  rw foldl_app /=. intros [[-> ->]|[_ Ha]]%lookup_insert_Some; apply elem_of_app; [|by left; apply IH].
  right. by left.
Qed.

Lemma set_weights_inv e auths ws e' :
  w_inv e → auths_ok auths → w_set_authorities_with_weights e auths ws = Some e' → w_inv e'.
Proof.
  intros [H1 H2 H3 H4 H5 H6 H7] [Hnd Hsm]. rw /w_set_authorities_with_weights.
  destruct auths as [|a l] eqn:Ea; [done|]. rw -Ea in Hnd Hsm *. intros [= <-].
  split; simpl; [done|apply length_aligned|apply aligned_weights_range|done..].
Qed.

Lemma view_step_frame e i :
  ∃ s, (view_step e i).1 = set_view_change_state e s.
Proof.
  destruct i as [msg|now]; simpl; [|by eexists]. rw /w_handle_view_change_message.
  destruct (negb _); [by exists (view_change_state e); destruct e|]. cbv zeta.
  destruct (record_view_change _ _) as [s2 []]; by eexists.
Qed.

Lemma w_reachable_inv e : w_reachable e → w_inv e.
Proof.
  induction 1 as [c wall [Hnd Hsm] Hb|e op _ He Hop].
  - split; simpl; [done|apply length_aligned|apply aligned_weights_range|done..].
  - destruct op as [a|p|auths ws|auths|i|s]; simpl in *.
    + by apply apply_slash_inv.
    + destruct He. split; [done..|]. intros a r Ha%collect_map_elem. by apply Hop in Ha.
    + destruct (w_set_authorities_with_weights e auths ws) eqn:E; [|done].
      by eapply set_weights_inv.
    + rw /w_set_authorities. destruct (w_set_authorities_with_weights _ _ _) eqn:E; [|done].
      by eapply set_weights_inv.
    + destruct (view_step_frame e i) as [s ->]. by destruct He.
    + by destruct He.
Qed.

(** ** The first view of a proposer *)

Lemma list_find_seqZ (P : Z → Prop) `{∀ x, Decision (P x)} a len v :
  snd <$> list_find P (seqZ a len) = Some v ↔
  a <= v < a + len ∧ P v ∧ ∀ u, a <= u < v → ¬ P u.
Proof.
  split.
  - destruct (list_find P (seqZ a len)) as [[i x]|] eqn:E; [|done]. intros [= <-].
    apply list_find_Some in E as ([-> Hi]%lookup_seqZ & HP & Hmin).
    split_and!; [lia|lia|done|]. intros u Hu. apply (Hmin (Z.to_nat (u - a))).
    + apply lookup_seqZ. lia.
    + lia.
  - intros (Hr & HP & Hmin).
    rw (proj2 (list_find_Some P (seqZ a len) (Z.to_nat (v - a)) v)) //.
    split_and!; [apply lookup_seqZ; lia|done|]. intros j y [-> Hy]%lookup_seqZ Hj. apply Hmin. lia.
Qed.

(** ** Properties *)

(** C14: the view only advances on a quorum.  From an engine with no pending
    requests, after any sequence of view-change messages and block progress, a
    message that advances the view does so by one, and is backed by distinct
    validators of at least two thirds of the total effective weight who all
    asked for that view at that height. *)
Theorem view_change_certificate e ins msg e' :
  w_inv e → fresh_tally e → 2 * view_total e <= u64_max →
  w_handle_view_change_message (view_run e ins) msg (view_total (view_run e ins)) = (e', true) →
  w_current_view e' = sat_add (w_current_view (view_run e ins)) 1 ∧
  ∃ X, view_certificate (w_validator_weights e) (ins ++ [VMessage msg])
    (w_current_view (view_run e ins)) (vc_block_number msg) X.
Proof.
  intros He Hf Ht Hstep. pose proof (λ a w, w_weights_u64 e a w He) as Hu.
  pose proof (view_run_ok _ [] e ins Hu Ht (fresh_view_ok e He Hf Ht)) as Hok.
  destruct (message_step _ Hu Ht _ _ msg e' true Hok Hstep) as (_ & Htrue & _).
  by apply Htrue.
Qed.

(** C15: a silent proposer is rotated out.  From an engine with no pending
    requests, once validators [X] with positive weight totalling at least two
    thirds have asked for the current view, the view advances, whatever the
    order of the messages and whatever other messages for that height (wrong
    views, strangers, duplicates, foreign chains) are mixed in. *)
Theorem view_change_progress e msgs h X :
  w_inv e → fresh_tally e → 2 * view_total e <= u64_max → 0 < view_total e →
  w_current_view e < u64_max →
  (∀ x, x ∈ msgs → vc_block_number x = h) →
  (∀ v, v ∈ X → ∃ x, x ∈ msgs ∧ vc_validator x = v ∧
     good_request (w_validator_weights e) (w_current_view e)
       (vcs_chain_id (view_change_state e)) x) →
  2 * view_total e <= 3 * set_sum (weight_of (w_validator_weights e)) X →
  w_current_view e < w_current_view (view_run e (VMessage <$> msgs)).
Proof.
  intros He Hf Ht Hpos Hmax Hh HX Hq. pose proof (λ a w, w_weights_u64 e a w He) as Hu.
  set m := w_validator_weights e in Hu HX Hq *.
  pose proof (fresh_view_ok e He Hf Ht) as Hok0.
  assert (Hadv : advancing m (w_current_view e) (vcs_chain_id (view_change_state e)) h msgs
    (view_run e (VMessage <$> msgs))).
  { clear HX Hq. induction msgs as [|x msgs IH] using rev_ind.
    - right. destruct Hf as [Hf _]. rw /counted Hf lookup_empty. split_and!; [done..| |]; set_solver.
    - rw fmap_app /view_run foldl_app -/(view_run e (VMessage <$> msgs)).
      eapply advancing_step; [done..|by apply (message_run_ok m [])|apply IH|]; set_solver. }
  pose proof (message_run_ok m [] e msgs Hu Ht Hok0) as [_ Htally _ Hbelow].
  destruct Hadv as [?|(_ & _ & _ & Hall)]; [done|]. exfalso.
  assert (Hsub : X ⊆ list_to_set (vc_validator <$> counted (view_change_state (view_run e (VMessage <$> msgs))))).
  { intros v (x & Hx & <- & Hg)%HX. apply elem_of_list_to_set. by apply Hall. }
  apply (set_sum_mono (weight_of m)) in Hsub.
  - rw -sumZ_set in Hsub; [apply Htally|].
    change (view_total e) with (map_total m) in Ht, Hpos, Hq.
    pose proof (view_quorum_eq (map_total m) (total_nonneg m Hu) Ht). lia.
  - intros v _. by apply (weight_of_range m Hu).
Qed.

Lemma rotation_exact `{Hashes} e n k :
  w_inv e → 0 <= n → authorities (w_config e) ≠ [] → 0 <= k →
  proposer_for_block_in_view e n
    <$> seqZ k (Z.of_nat (length (authorities (w_config e)))) ≡ₚ authorities (w_config e).
Proof.
  intros He Hn Hne Hk. apply fmap_Some_perm.
  etrans; [|apply fmap_Permutation, (rotated_perm e n)].
  assert (length (rotated e n) = length (authorities (w_config e))) as Hlen by (by rw rotated_perm).
  assert (0 < Z.of_nat (length (authorities (w_config e)))).
  { by destruct (authorities (w_config e)); [|simpl; lia]. }
  rw -(lookup_seqZ_all (rotated e n)) Hlen.
  rw -(seqZ_mod_perm k (Z.of_nat (length (authorities (w_config e))))) //.
  rw -(list_fmap_compose (proposer_for_block_in_view e n) Some)
    -(list_fmap_compose (λ v, v mod _) (λ v, rotated e n !! Z.to_nat v)).
  apply (reflexive_eq (R := (≡ₚ))), list_fmap_ext.
  intros i v [-> Hi]%lookup_seqZ. rw /= in_view_eq //. lia.
Qed.

Lemma first_view_spec `{Hashes} e n p :
  w_inv e → 0 <= n → p ∈ authorities (w_config e) →
  ∃ v, first_view_for_proposer e n p = Some v ∧
    0 <= v < Z.of_nat (length (authorities (w_config e))) ∧
    proposer_for_block_in_view e n v = p ∧
    ∀ u, 0 <= u < v → proposer_for_block_in_view e n u ≠ p.
Proof.
  intros He Hn Hp. assert (authorities (w_config e) ≠ []) as Hne by (intros E; rw E in Hp; set_solver).
  assert (0 < Z.of_nat (length (authorities (w_config e)))) as Hpos.
  { by destruct (authorities (w_config e)); [|simpl; lia]. }
  rw /first_view_for_proposer (proj2 (w_active_iff e He p)) //=. case_decide as Hb.
  { exists 0. split_and!; [done..|]. intros u Hu. lia. }
  pose proof Hp as Hp0.
  rw -(rotation_exact e n 0) // list_elem_of_fmap in Hp0. destruct Hp0 as (v0 & -> & Hv0%elem_of_seqZ).
  assert (v0 ≠ 0) by (by intros ->). set P := λ view, proposer_for_block_in_view e n view = _.
  destruct (list_find P (seqZ 1 (Z.of_nat (length (authorities (w_config e)))))) as [[i v]|] eqn:E.
  - assert (Hv : snd <$> list_find P (seqZ 1 (Z.of_nat (length (authorities (w_config e))))) = Some v) by (by rw E).
    apply list_find_seqZ in Hv as (Hr & HP & Hmin). exists v.
    assert (v <= v0) by (destruct (decide (v <= v0)); [done|]; by destruct (Hmin v0 ltac:(lia))).
    split_and!; [done|lia|lia|done|]. intros u Hu. destruct (decide (u = 0)) as [->|]; [by intros E0; apply Hb|].
    apply Hmin. lia.
  - exfalso. apply list_find_None in E. rw Forall_forall in E. apply (E v0); [|done].
    apply elem_of_seqZ. lia.
Qed.

Lemma in_view_mod `{Hashes} e n v :
  w_inv e → 0 <= n → authorities (w_config e) ≠ [] → 0 <= v →
  proposer_for_block_in_view e n (v mod Z.of_nat (length (authorities (w_config e))))
    = proposer_for_block_in_view e n v.
Proof.
  intros He Hn Hne Hv.
  assert (0 < Z.of_nat (length (authorities (w_config e)))) as Hpos.
  { by destruct (authorities (w_config e)); [|simpl; lia]. }
  pose proof (Z.mod_pos_bound v _ Hpos). apply (inj Some).
  rw -!in_view_eq //; [lia|]. by rw Z.mod_mod; [lia|].
Qed.

(** View changes rotate the proposer fairly.  In every reachable engine
    with authorities (always configured distinct), over any run of as many
    consecutive views as there are authorities, each authority is the proposer of a given block exactly once; and
    [first_view_for_proposer] finds, for each authority, the least view in which
    it proposes. *)
Theorem view_rotation_fair `{Hashes} e n :
  w_reachable e → 0 <= n → authorities (w_config e) ≠ [] →
  (∀ k, 0 <= k →
     proposer_for_block_in_view e n
       <$> seqZ k (Z.of_nat (length (authorities (w_config e)))) ≡ₚ authorities (w_config e)) ∧
  ∀ p, p ∈ authorities (w_config e) →
    ∃ v, first_view_for_proposer e n p = Some v ∧
      0 <= v < Z.of_nat (length (authorities (w_config e))) ∧
      proposer_for_block_in_view e n v = p ∧
      ∀ u, 0 <= u < v → proposer_for_block_in_view e n u ≠ p.
Proof.
  intros He%w_reachable_inv Hn Hne. split.
  - intros k Hk. by apply rotation_exact.
  - intros p Hp. by apply first_view_spec.
Qed.

Lemma earliest_mono e ts v u : 0 <= u <= v → 0 <= view_timeout_secs e →
  sat_add ts (sat_mul (view_timeout_secs e) u) <= sat_add ts (sat_mul (view_timeout_secs e) v).
Proof. intros Hu Ht. rw /sat_add /sat_mul. nia. Qed.

Lemma view_timeout_nonneg e : 0 <= view_timeout_secs e.
Proof. rw /view_timeout_secs. change (div_ceil VIEW_CHANGE_TIMEOUT_MS 1000) with 10. lia. Qed.

(** importing finalized blocks needs no memory of past views.  The import
    check of a reachable engine with (distinct) authorities, whatever view it is
    in, accepts a header exactly
    when its proposer is the proposer of that block in some view [v], and for
    [v > 0] the block is at least [v] timeouts younger than its parent.  So a
    node that restarted accepts every block that was accepted live in view [v]
    once that much time had passed. *)
Theorem finalized_import_iff `{Hashes} e h parent :
  w_reachable e → 0 <= number h → authorities (w_config e) ≠ [] →
  verify_header_for_finalized_import e h parent = Ok tt ↔
  ∃ v, 0 <= v ∧ proposer_for_block_in_view e (number h) v = proposer h ∧
    (v = 0 ∨ sat_add (timestamp parent) (sat_mul (view_timeout_secs e) v) <= timestamp h).
Proof.
  intros He%w_reachable_inv Hn Hne. rw /= /w_verify_header_for_finalized_import. cbv zeta.
  assert (Hpos : 0 < Z.of_nat (length (authorities (w_config e)))).
  { by destruct (authorities (w_config e)); [|simpl; lia]. }
  split.
  - destruct (first_view_for_proposer e (number h) (proposer h)) as [v|] eqn:E; [|done].
    assert (proposer h ∈ authorities (w_config e)) as Hp.
    { apply (w_active_iff e He). rw /first_view_for_proposer in E. by destruct (is_active _ _). }
    destruct (first_view_spec e (number h) _ He Hn Hp) as (v' & E' & Hr & Hv & _). simplify_eq.
    destruct (v =? 0) eqn:E0; [apply Z.eqb_eq in E0|apply Z.eqb_neq in E0].
    { intros _. exists v. split_and!; [lia|done|by left]. }
    case_guard Hts; [done|]. intros _. apply Z.ltb_ge in Hts.
    exists v. split_and!; [lia|done|by right].
  - intros (v & Hv0 & Hv & Hts).
    assert (proposer h ∈ authorities (w_config e)) as Hp.
    { rw -Hv -(rotation_exact e (number h) v) //. apply list_elem_of_fmap_2, elem_of_seqZ. lia. }
    destruct (first_view_spec e (number h) _ He Hn Hp) as (u & -> & Hr & Hu & Hmin).
    destruct (u =? 0) eqn:E0; [done|]. apply Z.eqb_neq in E0.
    rw -(in_view_mod e) // in Hv. pose proof (Z.mod_pos_bound v _ Hpos).
    assert (u <= v mod Z.of_nat (length (authorities (w_config e)))).
    { destruct (decide (v mod Z.of_nat (length (authorities (w_config e))) < u)); [|lia].
      by destruct (Hmin (v mod Z.of_nat (length (authorities (w_config e)))) ltac:(lia)). }
    pose proof (Z.mod_le v _ Hv0 Hpos).
    destruct Hts as [->|Hts]; [lia|]. rw (proj2 (Z.ltb_ge _ _)) //.
    etrans; [|exact Hts]. apply earliest_mono; [lia|apply view_timeout_nonneg].
Qed.

(** ** Signed blocks at peers *)

(** Who signs, and what comes out. *)
Lemma sign_as_iff `{Hashes} expected wrap b s b' :
  sign_as expected wrap b s = Ok b' ↔
  proposer (header b) = expected ∧
  ∃ sig, sign s (as_bytes (header_hash (header b))) = Ok sig ∧ b' = set_proposer_seal b sig.
Proof.
  rw /sign_as. case_decide; [|naive_solver]. destruct (sign _ _) as [sig|]; naive_solver.
Qed.

(** Two engines on the same validators rotate proposers alike. *)
Lemma same_proposers `{Hashes} e e' n view :
  w_inv e → 0 <= n → authorities (w_config e) ≠ [] →
  validator_set e' = validator_set e → authorities (w_config e') = authorities (w_config e) →
  proposer_for_block_in_view e' n view = proposer_for_block_in_view e n view.
Proof.
  intros He Hn Hne Hv Ha.
  assert (Hb : base_proposer_for_block e' n = base_proposer_for_block e n).
  { rw /base_proposer_for_block Hv.
    destruct (weighted_proposer_some (validator_set e) n) as (v & _ & ->);
      [by apply w_vs_wf|by apply w_vs_small| |done|done].
    intros E. apply Hne. destruct (authorities (w_config e)) as [|a l] eqn:Ea; [done|].
    assert (a ∈ address <$> active_validators (validator_set e)) as Hin.
    { apply w_active_validators; [done|]. rw Ea. set_solver. }
    rw E in Hin. set_solver. }
  by rw /proposer_for_block_in_view /rotated Ha Hb.
Qed.
Lemma record_keeps_view s msg : vcs_current_view (record_view_change s msg).1 = vcs_current_view s.
Proof. rw /record_view_change. cbv zeta. by repeat case_match. Qed.
Lemma set_weights_view e auths ws : w_current_view (unwrap_or e (w_set_authorities_with_weights e auths ws)) = w_current_view e.
Proof. by destruct auths. Qed.
Lemma view_keeps_set e i : validator_set (w_run e (OpView i)) = validator_set e.
Proof. destruct i as [msg|now]; [|done]. cbn [w_run view_step]. rw /w_handle_view_change_message. by repeat case_match. Qed.
Lemma w_view_u64 e : w_reachable e → in_u64 (w_current_view e).
Proof.
  induction 1 as [c wall _ _|e op _ IH _]; [by rw /w_current_view /=; case_match|].
  destruct op as [a|p|auths ws|auths|[msg|now]|s]; cbn [w_run]; try done; [by rw set_weights_view..|].
  cbn [view_step]. rw /w_handle_view_change_message. case_match; [done|]. cbv zeta.
  set s1 := configure_quorum _ _ _. pose proof (record_keeps_view s1 msg) as Hv.
  assert (Hv1 : in_u64 (vcs_current_view (record_view_change s1 msg).1)) by (by rw Hv).
  destruct (record_view_change s1 msg) as [s2 []]; [|done]. rw /w_current_view /=. simpl in Hv1. int_lia.
Qed.

Lemma w_proposer_active `{Hashes} e n view :
  w_inv e → 0 <= n → authorities (w_config e) ≠ [] → 0 <= view →
  is_active (validator_set e) (proposer_for_block_in_view e n view) = true.
Proof.
  intros He Hn Hne Hv. apply (w_active_iff e He). rw -(rotation_exact e n view He Hn Hne Hv).
  apply list_elem_of_fmap_2, elem_of_seqZ. destruct (authorities (w_config e)); [done|]. simpl. lia.
Qed.

(** C36: a block that one node signs passes the checks of its peers.
    PoA: in a well-formed engine in which some authority has weight left (and
    the weights sum to a [u64]), [sign_block] succeeds exactly for the expected
    proposer and a signer that signs, and only attaches the seal; and full
    verification by a node with the same engine state accepts the block exactly
    when its time, its number and its parent are right.
    wPoA: let the signer and a peer be reachable engines with the same
    (non-empty) authorities and validators, in views of their own.  [sign_block]
    succeeds exactly for the proposer of the signer's view, and only attaches
    the seal.  A block that it or [seal_block] yields carries a seal that the
    peer accepts; a peer in the same view accepts the header; and a peer in any
    view accepts it as a finalized block, if the signer is in view 0 or the
    block is that many timeouts younger than its parent. *)
Theorem signed_block_accepted `{Hashes} (p : PoaEngine) (e peer : WPoaEngine) (b b' : Block) s v parent now :
  signer_verifies s v →
  poa_wf p → effective_total p <= u64_max →
  (∃ i, 0 < effective_weight_at p i ∧ is_Some (authorities (config p) !! i)) →
  w_reachable e → w_reachable peer → authorities (w_config e) ≠ [] → 0 <= number (header b) →
  validator_set peer = validator_set e → authorities (w_config peer) = authorities (w_config e) →
  (poa_sign_block p b s = Ok b' ↔
     proposer (header b) = expected_proposer_for_block p (number (header b)) ∧
     ∃ sig, sign s (as_bytes (header_hash (header b))) = Ok sig ∧ b' = set_proposer_seal b sig) ∧
  (poa_sign_block p b s = Ok b' → ∃ sig, proposer_seal b' = Some sig ∧
     (verify_header_with_parent p (header b') parent sig (public_key s) v now = Ok tt ↔
        sat_add (timestamp parent) (block_time_secs (config p)) <= timestamp (header b)
          <= sat_add now (max_future_secs (config p)) ∧
        number (header b) = number parent + 1 ∧ number parent + 1 <= u64_max ∧
        parent_hash (header b) = header_hash parent)) ∧
  (w_sign_block e b s = Ok b' ↔
     proposer (header b) = proposer_for_block_in_view e (number (header b)) (w_current_view e) ∧
     ∃ sig, sign s (as_bytes (header_hash (header b))) = Ok sig ∧ b' = set_proposer_seal b sig) ∧
  (w_sign_block e b s = Ok b' ∨ signer e = Some s ∧ w_seal_block e b = Ok b' →
     header b' = header b ∧
     (∃ sig, proposer_seal b' = Some sig ∧ verify_seal peer (header b') sig (public_key s) v = Ok tt) ∧
     (w_current_view peer = w_current_view e → w_verify_header peer (header b') = Ok tt) ∧
     (w_current_view e = 0 ∨
        sat_add (timestamp parent) (sat_mul (view_timeout_secs peer) (w_current_view e)) <= timestamp (header b) →
      w_verify_header_for_finalized_import peer (header b') parent = Ok tt)).
Proof.
  intros Hsv Hwf Htot Hex He Hpeer Hne Hn Hvs Ha. split_and!; [apply sign_as_iff| |apply sign_as_iff|].
  - intros (Hp & sig & Hsig & ->)%sign_as_iff. exists sig. split; [done|]. rw verify_header_with_parent_iff /=.
    destruct (expected_active p (number (header b)) Hwf Htot Hex) as (i & Hi & Hw).
    destruct (effective_weight_for_at p Hwf i _ Hi) as [Ew _]. rw -Hp in Ew.
    assert (Hk : verify v (public_key s) (as_bytes (header_hash (header b))) sig = Ok true) by (by apply Hsv).
    rw Ew /=. split; [naive_solver|]. intros (? & ? & ? & ?). split_and!; [lia|done|lia..|done|done].
  - intros Hs. assert (Hsign : ∃ wrap, sign_as (w_proposer_for_block e (number (header b))) wrap b s = Ok b').
    { destruct Hs as [Hs|[Hsg Hs]]; [by eexists|]. rw /w_seal_block Hsg in Hs. by eexists. }
    destruct Hsign as (wrap & (Hp & sig & Hsig & ->)%sign_as_iff). cbn [header set_proposer_seal proposer_seal].
    pose proof (w_reachable_inv e He) as Hi. pose proof (w_view_u64 e He) as Hview.
    assert (Hp' : proposer_for_block_in_view peer (number (header b)) (w_current_view e) = proposer (header b))
      by (by rw Hp (same_proposers e peer)).
    split_and!; [done| | |].
    + exists sig. split; [done|]. apply verify_seal_with_ok. by apply Hsv.
    + intros Hv. rw /w_verify_header /w_proposer_for_block Hv Hp' -Hp'.
      rw (w_proposer_active peer) //; [by apply w_reachable_inv|congruence|apply Hview|]. by rw decide_True.
    + intros Ht. apply (finalized_import_iff peer); [done|done|congruence|].
      exists (w_current_view e). split_and!; [apply Hview|done|done].
Qed.

(** [set_authorities] applies old penalties a second time.  It takes the
    effective weights, from which the reductions are already subtracted, as the
    new base weights, and keeps the reductions: an authority with reduction [r]
    and effective weight [w] ends up with [max(w, 1) - r] (or 0), not with [w]. *)
Theorem set_authorities_reapplies_reductions e auths e' a w :
  w_inv e → auths_ok auths → a ∈ auths → w_validator_weights e !! a = Some w →
  w_set_authorities e auths = Some e' →
  w_validator_weights e' !! a =
    Some (sat_sub (Z.max w 1) (unwrap_or 0 (w_slash_weights e !! a))).
Proof.
  intros He Ha Hin Hw Hset. pose proof (set_weights_inv e auths _ e' He Ha Hset) as He'.
  apply list_elem_of_lookup in Hin as [i Hi].
  assert (authorities (w_config e') = auths ∧ w_slash_weights e' = w_slash_weights e ∧
    authority_weights (w_config e') =
      aligned_weights auths ((λ a, unwrap_or 1 (w_validator_weights e !! a)) <$> auths))
    as (Hauths & Hslash & Hws).
  { rw /w_set_authorities /w_set_authorities_with_weights in Hset.
    by destruct auths; simplify_eq/=. }
  apply w_weights_lookup; [done|]. rw Hauths. split; [by eapply list_elem_of_lookup_2|].
  rw /w_effective_weight_for Hslash (w_base_weight e' He' i a (clamp 1 MAX_VALIDATOR_WEIGHT w)) /=.
  - by rw Hauths.
  - by rw Hws /aligned_weights list_lookup_imap Hi /= list_lookup_fmap Hi /= Hw.
  - apply w_effective_range in Hw; [|done]. f_equal. int_lia.
Qed.

(** ** Sample engine *)

#[local] Existing Instance toy_hashes.

Definition w_poa : PoaConfig :=
  MkPoaConfig [p_addr 1; p_addr 2; p_addr 3] [] 5 60 0 ∅ 1000.
Definition w_sample : WPoaEngine := wpoa_new (wpoa_with_weights w_poa [100; 200; 300]) 0.

Lemma w_poa_ok : auths_ok (authorities w_poa).
Proof. split; [by apply (bool_decide_unpack _); vm_compute|by vm_compute]. Qed.

Lemma w_sample_reachable : w_reachable w_sample.
Proof. constructor; [apply w_poa_ok|done]. Qed.

Lemma w_sample_inv : w_inv w_sample.
Proof. apply w_reachable_inv, w_sample_reachable. Qed.

Lemma w_sample_total : view_total w_sample = 600.
Proof. by vm_compute. Qed.

Definition w_request (v : Address) : ViewChangeMessage := MkViewChangeMessage 7 1 0 ZERO v [].

Lemma view_change_certificate_witness :
  ∃ X, view_certificate (w_validator_weights w_sample)
    [VMessage (w_request (p_addr 2)); VMessage (w_request (p_addr 3))] 0 1 X.
Proof.
  set (e := view_run w_sample [VMessage (w_request (p_addr 2))]).
  assert (Hq : (w_handle_view_change_message e (w_request (p_addr 3)) (view_total e)).2 = true)
    by (by vm_compute).
  destruct (view_change_certificate w_sample [VMessage (w_request (p_addr 2))]
    (w_request (p_addr 3)) _ w_sample_inv (conj eq_refl eq_refl)
    ltac:(by rw w_sample_total)
    (eq_trans (surjective_pairing _) (f_equal (pair _) Hq))) as [_ Hcert].
  exact Hcert.
Defined.

Lemma view_change_progress_witness :
  0 < w_current_view (view_run w_sample
    (VMessage <$> [w_request (p_addr 2); w_request (p_addr 9); w_request (p_addr 3)])).
Proof.
  apply (view_change_progress w_sample
    [w_request (p_addr 2); w_request (p_addr 9); w_request (p_addr 3)] 1 {[p_addr 2; p_addr 3]}
    w_sample_inv).
  - done.
  - by rw w_sample_total.
  - by rw w_sample_total.
  - done.
  - intros x Hx. repeat (apply elem_of_cons in Hx as [->|Hx]; [done|]). by apply elem_of_nil in Hx.
  - intros v [Hv|Hv]%elem_of_union; apply elem_of_singleton in Hv as ->.
    + exists (w_request (p_addr 2)). split_and!; [left|done|]. split_and!; [done|by left|by vm_compute].
    + exists (w_request (p_addr 3)). split_and!; [do 2 right; left|done|].
      split_and!; [done|by left|by vm_compute].
  - by vm_compute.
Defined.

Lemma view_rotation_fair_witness :
  proposer_for_block_in_view w_sample 5 <$> seqZ 0 3 ≡ₚ [p_addr 1; p_addr 2; p_addr 3].
Proof.
  apply (view_rotation_fair w_sample 5 w_sample_reachable); done.
Defined.

Lemma finalized_import_iff_witness :
  verify_header_for_finalized_import w_sample
    (sample_header 5 30 (proposer_for_block_in_view w_sample 5 2)) (sample_header 4 10 ZERO) = Ok tt.
Proof.
  apply (finalized_import_iff w_sample _ _ w_sample_reachable); [done|done|].
  exists 2. split_and!; [done|done|]. right. by vm_compute.
Defined.

(** A signer that has moved to view 1, and a block of the proposer of that view. *)
Definition w_moved : WPoaEngine :=
  foldl w_run w_sample [OpView (VMessage (w_request (p_addr 2))); OpView (VMessage (w_request (p_addr 3)))].
Definition w_block : Block :=
  {| header := sample_header 5 40 (proposer_for_block_in_view w_moved 5 1); proposer_seal := None |}.

Lemma w_moved_reachable : w_reachable w_moved.
Proof. do 2 (apply w_reach_step; [|exact I]). apply w_sample_reachable. Qed.
Lemma w_moved_same :
  w_current_view w_moved = 1 ∧ authorities (w_config w_moved) = authorities w_poa ∧
  validator_set w_sample = validator_set w_moved ∧ authorities (w_config w_sample) = authorities (w_config w_moved).
Proof. split_and!; [vm_compute; reflexivity..|by rw !view_keeps_set|vm_compute; reflexivity]. Qed.

Lemma signed_block_accepted_witness :
  w_current_view w_moved = 1 ∧ w_current_view w_sample = 0 ∧
  ∃ b', w_sign_block w_moved w_block toy_signer = Ok b' ∧
    w_verify_header_for_finalized_import w_sample (header b') (sample_header 4 10 ZERO) = Ok tt.
Proof.
  destruct w_moved_same as (Hv & Ha & Hvs & Has). split_and!; [exact Hv|vm_compute; reflexivity|].
  set (sig := MkPQSignature Dilithium3 (as_bytes (header_hash (header w_block)))).
  destruct (signed_block_accepted p_weighted w_moved w_sample w_block (set_proposer_seal w_block sig)
    toy_signer toy_verifier (sample_header 4 10 ZERO) 50 toy_signer_verifies p_weighted_wf
    ltac:(by rw p_weighted_total) ltac:(by exists 0%nat; split; [vm_compute|eexists])
    w_moved_reachable w_sample_reachable ltac:(by rw Ha) ltac:(cbn; lia) Hvs Has) as (_ & _ & Hs & Hpeer).
  assert (E : w_sign_block w_moved w_block toy_signer = Ok (set_proposer_seal w_block sig)).
  { apply Hs. rw Hv. split; [reflexivity|]. exists sig. split; reflexivity. }
  exists (set_proposer_seal w_block sig). split; [exact E|]. apply Hpeer; [left; exact E|]. right. rw Hv. by vm_compute.
Defined.

Lemma set_authorities_reapplies_reductions_witness :
  ∃ e', w_set_authorities (apply_slash w_sample (p_addr 1)) [p_addr 1; p_addr 2; p_addr 3] = Some e' ∧
    w_validator_weights (apply_slash w_sample (p_addr 1)) !! p_addr 1 = Some 90 ∧
    w_validator_weights e' !! p_addr 1 = Some 80.
Proof.
  destruct (w_set_authorities (apply_slash w_sample (p_addr 1)) [p_addr 1; p_addr 2; p_addr 3])
    as [e'|] eqn:E; [|done].
  exists e'. split; [done|]. assert (Hw : w_validator_weights (apply_slash w_sample (p_addr 1))
    !! p_addr 1 = Some 90) by (by vm_compute). split; [done|].
  rw (set_authorities_reapplies_reductions (apply_slash w_sample (p_addr 1))
    [p_addr 1; p_addr 2; p_addr 3] e' (p_addr 1) 90
    (apply_slash_inv _ _ w_sample_inv) w_poa_ok ltac:(left) Hw E).
  by vm_compute.
Defined.
