(* ===== verification/ForkChoice.v ===== *)
(** * Fork choice

    crates/consensus/src/fork_choice.rs: the block tree, the score order and the
    canonical head.  Traversals of the tree take fuel; [subtree_total] and
    [protect_total] show that the fuel used is always enough.  The order in
    which a hash map yields its entries is left open by the source; the model
    uses [map_to_list] and the theorems do not depend on it. *)

From S2P Require Import Prelude Primitives.

Record BlockScore := MkBlockScore {
  is_finalized : Z;
  score_weight : Z;
  score_number : Z;
  score_hash : ShellHash;
}.

Definition set_is_finalized (f : Z) (s : BlockScore) : BlockScore :=
  MkBlockScore f (score_weight s) (score_number s) (score_hash s).
Definition set_score_weight (w : Z) (s : BlockScore) : BlockScore :=
  MkBlockScore (is_finalized s) w (score_number s) (score_hash s).

(** [Ordering::then] *)
Definition then_cmp (c d : comparison) : comparison := match c with Eq => d | _ => c end.

Definition score_cmp (a b : BlockScore) : comparison :=
  then_cmp (is_finalized a ?= is_finalized b)
    (then_cmp (score_weight a ?= score_weight b)
       (then_cmp (score_number a ?= score_number b)
          (bytes_cmp (as_bytes (score_hash b)) (as_bytes (score_hash a))))).

Definition score_gt (a b : BlockScore) : bool :=
  match score_cmp a b with Gt => true | _ => false end.

Record ForkChoice := MkForkChoice {
  parent_map : gmap ShellHash ShellHash;
  scores : gmap ShellHash BlockScore;
  finalized_root : option ShellHash;
  fc_head : ShellHash;
  head_score : BlockScore;
}.

Definition fork_choice_new (genesis : ShellHash) : ForkChoice :=
  let score := MkBlockScore 0 0 0 genesis in
  MkForkChoice {[genesis := ZERO]} {[genesis := score]} None genesis score.

Definition set_head (s : ForkChoice) (h : ShellHash) (sc : BlockScore) : ForkChoice :=
  MkForkChoice (parent_map s) (scores s) (finalized_root s) h sc.

Definition flagged (s : ForkChoice) (h : ShellHash) : bool :=
  match scores s !! h with Some sc => is_finalized sc =? 1 | None => false end.

Definition add_block (s : ForkChoice) (h parent : ShellHash) (number weight : Z)
    (on_finalized_chain : bool) : ForkChoice * bool :=
  let fin := match finalized_root s with
             | Some _ => flagged s parent
             | None => on_finalized_chain
             end in
  let score := MkBlockScore (if fin then 1 else 0) weight number h in
  let s' := MkForkChoice (<[h := parent]> (parent_map s)) (<[h := score]> (scores s))
              (finalized_root s) (fc_head s) (head_score s) in
  if score_gt score (head_score s) then (set_head s' h score, true) else (s', false).

Definition update_attested_weight (s : ForkChoice) (h : ShellHash) (w : Z) : ForkChoice * bool :=
  match scores s !! h with
  | None => (s, false)
  | Some score =>
      let updated := set_score_weight w score in
      let s' := MkForkChoice (parent_map s) (<[h := updated]> (scores s)) (finalized_root s)
                  (fc_head s) (head_score s) in
      if decide (h = fc_head s) then (set_head s' (fc_head s) updated, false)
      else if score_gt updated (head_score s) then (set_head s' h updated, true)
      else (s', false)
  end.

(** [Iterator::max_by]: of equal elements the last one. *)
Definition max_step (acc : option (ShellHash * BlockScore)) (p : ShellHash * BlockScore) :
    option (ShellHash * BlockScore) :=
  match acc with
  | None => Some p
  | Some q => match score_cmp q.2 p.2 with Gt => Some q | _ => Some p end
  end.
Definition max_score (l : list (ShellHash * BlockScore)) : option (ShellHash * BlockScore) :=
  foldl max_step None l.

Definition recalculate_head (s : ForkChoice) : ForkChoice :=
  match max_score (map_to_list (scores s)) with
  | Some (h, score) => set_head s h score
  | None => s
  end.

(** The walk of [chain_between], newest first; [None] is the bail-out on a
    broken or cyclic chain. *)
Fixpoint walk_up (fuel : nat) (pm : gmap ShellHash ShellHash) (current to : ShellHash) :
    option (list ShellHash) :=
  if decide (current = to) then Some []
  else
    match fuel with
    | O => None
    | S fuel' =>
        p ← pm !! current;
        l ← walk_up fuel' pm p to;
        Some (current :: l)
    end.

Definition chain_between (s : ForkChoice) (from to : ShellHash) : list ShellHash :=
  reverse (unwrap_or [] (walk_up (size (parent_map s) + 1) (parent_map s) from to)).

(** The children index built from the parent map. *)
Definition children_of (pm : gmap ShellHash ShellHash) (p : ShellHash) : list ShellHash :=
  (filter (λ q, q.2 = p) (map_to_list pm)).*1.

(** Depth-first, marking when popped; the stack's top is the list's head. *)
Fixpoint mark_loop (fuel : nat) (pm : gmap ShellHash ShellHash) (stack : list ShellHash)
    (marked : gset ShellHash) : option (gset ShellHash) :=
  match stack with
  | [] => Some marked
  | p :: rest =>
      match fuel with
      | O => None
      | S fuel' =>
          if decide (p ∈ marked) then mark_loop fuel' pm rest marked
          else mark_loop fuel' pm (reverse (children_of pm p) ++ rest) ({[p]} ∪ marked)
      end
  end.

Definition subtree (pm : gmap ShellHash ShellHash) (root : ShellHash) : gset ShellHash :=
  unwrap_or ∅ (mark_loop (size pm + 1) pm [root] ∅).

Definition mark_finalized (s : ForkChoice) (h : ShellHash) : ForkChoice * bool :=
  match scores s !! h with
  | None => (s, false)
  | Some _ =>
      let refused := match finalized_root s with
                     | Some r => negb (bool_decide (r = h))
                                 && bool_decide (chain_between s h r = [])
                     | None => false
                     end in
      if refused then (s, false)
      else
        let cleared := set_is_finalized 0 <$> scores s in
        let marked := subtree (parent_map s) h in
        let scores' :=
          map_imap (λ k sc, Some (if decide (k ∈ marked) then set_is_finalized 1 sc else sc)) cleared in
        let s' := recalculate_head
          (MkForkChoice (parent_map s) scores' (Some h) (fc_head s) (head_score s)) in
        (s', negb (bool_decide (fc_head s' = fc_head s)))
  end.

Definition fc_contains (s : ForkChoice) (h : ShellHash) : bool := bool_decide (is_Some (scores s !! h)).

(** Marking when pushed: only newly seen children are pushed. *)
Definition push_new (acc : list ShellHash * gset ShellHash) (c : ShellHash) :
    list ShellHash * gset ShellHash :=
  if decide (c ∈ acc.2) then acc else (c :: acc.1, {[c]} ∪ acc.2).

Fixpoint protect_loop (fuel : nat) (pm : gmap ShellHash ShellHash) (stack : list ShellHash)
    (protected : gset ShellHash) : option (gset ShellHash) :=
  match stack with
  | [] => Some protected
  | p :: rest =>
      match fuel with
      | O => None
      | S fuel' =>
          let '(stack', protected') := foldl push_new (rest, protected) (children_of pm p) in
          protect_loop fuel' pm stack' protected'
      end
  end.

Definition protected_set (pm : gmap ShellHash ShellHash) (root : ShellHash) : gset ShellHash :=
  unwrap_or ∅ (protect_loop (size pm + 1) pm [root] {[root]}).

(** [min_by] on the hash bytes. *)
Definition min_step (acc : option ShellHash) (h : ShellHash) : option ShellHash :=
  match acc with
  | None => Some h
  | Some g => match bytes_cmp (as_bytes g) (as_bytes h) with Gt => Some h | _ => Some g end
  end.

Definition finalized_at (s : ForkChoice) (n : Z) : option ShellHash :=
  foldl min_step None
    (filter (λ p, is_finalized p.2 = 1 ∧ score_number p.2 = n) (map_to_list (scores s))).*1.

Definition fc_prune_below (s : ForkChoice) (n : Z) : ForkChoice :=
  match finalized_at s n with
  | None => s
  | Some f =>
      let protected := protected_set (parent_map s) f in
      let scores' := set_is_finalized 1 <$> filter (λ p, p.1 ∈ protected) (scores s) in
      let pm := <[f := ZERO]> (filter (λ p, p.1 ∈ protected) (parent_map s)) in
      recalculate_head (MkForkChoice pm scores' (Some f) (fc_head s) (head_score s))
  end.

Definition remove_subtree (s : ForkChoice) (root : ShellHash) : ForkChoice * bool :=
  if bool_decide (finalized_root s = Some root)
     || bool_decide (parent_map s !! root = Some ZERO)
     || negb (fc_contains s root)
  then (s, false)
  else
    let removed := subtree (parent_map s) root in
    if match finalized_root s with Some f => bool_decide (f ∈ removed) | None => false end
    then (s, false)
    else
      (recalculate_head (MkForkChoice
         (filter (λ p, p.1 ∉ removed) (parent_map s))
         (filter (λ p, p.1 ∉ removed) (scores s))
         (finalized_root s) (fc_head s) (head_score s)), true).

(** The walk of [find_common_ancestor], from a block to its root: the source's
    loop has no bound, the model's has [fuel] steps. *)
Fixpoint ancestors (fuel : nat) (pm : gmap ShellHash ShellHash) (current : ShellHash) :
    option (list ShellHash) :=
  match fuel with
  | O => None
  | S fuel' =>
      match pm !! current with
      | Some p => if decide (p = ZERO) then Some [current]
                  else l ← ancestors fuel' pm p; Some (current :: l)
      | None => Some [current]
      end
  end.

Fixpoint search_up (fuel : nat) (pm : gmap ShellHash ShellHash) (seen : list ShellHash)
    (current : ShellHash) : option (option ShellHash) :=
  match fuel with
  | O => None
  | S fuel' =>
      if decide (current ∈ seen) then Some (Some current)
      else
        match pm !! current with
        | Some p => if decide (p = ZERO) then Some None else search_up fuel' pm seen p
        | None => Some None
        end
  end.

(** [None] when a walk runs out of fuel; [Some None] is the source's [None]. *)
Definition find_common_ancestor (fuel : nat) (s : ForkChoice) (a b : ShellHash) :
    option (option ShellHash) :=
  la ← ancestors fuel (parent_map s) a;
  search_up fuel (parent_map s) la b.

Definition block_count (s : ForkChoice) : nat := size (scores s).

(** ** The score order *)

Definition score_le (a b : BlockScore) : Prop := score_cmp a b ≠ Gt.

Lemma score_cmp_eq a b :
  score_cmp a b =
  then_cmp (is_finalized a ?= is_finalized b)
    (then_cmp (score_weight a ?= score_weight b)
       (then_cmp (score_number a ?= score_number b)
          (b256_unsigned (score_hash b) ?= b256_unsigned (score_hash a)))).
Proof. by rw /score_cmp bytes_cmp_as_bytes. Qed.

(** Case analysis on the fields the scores in the goal are compared by. *)
Ltac score_cases :=
  unfold score_le, score_gt; rw ?score_cmp_eq; unfold then_cmp; intros;
  repeat match goal with
  | |- context [?x ?= ?y] => destruct (Z.compare_spec x y)
  | H : context [?x ?= ?y] |- _ => destruct (Z.compare_spec x y)
  end; try done; try lia.

Lemma score_le_refl a : score_le a a.
Proof. score_cases. Qed.

Lemma score_le_trans a b c : score_le a b → score_le b c → score_le a c.
Proof. score_cases. Qed.

Lemma score_le_total a b : score_le a b ∨ score_le b a.
Proof. score_cases; first [by left|by right]. Qed.

Lemma score_gt_true a b : score_gt a b = true → score_le b a.
Proof. score_cases. Qed.

Lemma score_gt_false a b : score_gt a b = false → score_le a b.
Proof. score_cases. Qed.

Lemma score_le_fields a b :
  score_le a b → score_le b a →
  is_finalized a = is_finalized b ∧ score_weight a = score_weight b ∧
  score_number a = score_number b ∧ b256_unsigned (score_hash a) = b256_unsigned (score_hash b).
Proof. score_cases. Qed.

Lemma score_le_antisym a b : score_le a b → score_le b a → a = b.
Proof.
  intros H1 H2. destruct (score_le_fields a b H1 H2) as (? & ? & ? & Hh%b256_eq).
  destruct a, b; simpl in *; congruence.
Qed.

(** Flagged scores are above all others. *)
Lemma score_le_flag a b : score_le a b → is_finalized a <= is_finalized b.
Proof. score_cases. Qed.

Lemma score_le_weight s w : score_weight s <= w → score_le s (set_score_weight w s).
Proof. score_cases; simpl in *; lia. Qed.

(** ** The maximum *)

Lemma max_score_acc acc l q :
  foldl max_step acc l = Some q →
  (acc = Some q ∨ q ∈ l) ∧ (∀ p, acc = Some p ∨ p ∈ l → score_le p.2 q.2).
Proof.
  revert acc. induction l as [|x l IH]; intros acc; simpl.
  { intros ->. split; [by left|]. intros p [[= ->]|?]; [apply score_le_refl|set_solver]. }
  intros [Hq Hall]%IH. destruct acc as [a|]; simpl in *.
  - destruct (score_cmp a.2 x.2) eqn:E; split.
    1,3,5: naive_solver set_solver.
    + assert (score_le a.2 x.2) by (rw /score_le E //).
      intros p [[= ->]|[->|?]%elem_of_cons]; [|by apply Hall; auto..].
      eapply score_le_trans; [done|]. apply Hall. auto.
    + assert (score_le a.2 x.2) by (rw /score_le E //).
      intros p [[= ->]|[->|?]%elem_of_cons]; [|by apply Hall; auto..].
      eapply score_le_trans; [done|]. apply Hall. auto.
    + assert (score_le x.2 a.2) by (apply score_gt_true; by rw /score_gt E).
      intros p [[= ->]|[->|?]%elem_of_cons]; [by apply Hall; auto| |by apply Hall; auto].
      eapply score_le_trans; [done|]. apply Hall. auto.
  - split; [naive_solver set_solver|]. intros p [?|[->|?]%elem_of_cons]; [done|by apply Hall; auto..].
Qed.

Lemma max_score_some l : l ≠ [] → is_Some (max_score l).
Proof.
  rw /max_score. destruct l as [|x l]; [done|]. intros _. simpl. generalize x.
  induction l as [|y l IH]; intros z; simpl; [by eexists|].
  by destruct (score_cmp _ _); apply IH.
Qed.

(** [h] with score [sc] is the maximum of the tracked blocks. *)
Definition is_max (m : gmap ShellHash BlockScore) (h : ShellHash) (sc : BlockScore) : Prop :=
  m !! h = Some sc ∧ ∀ k sk, m !! k = Some sk → score_le sk sc.

Lemma recalculate_head_max s h0 sc0 :
  scores s !! h0 = Some sc0 →
  scores (recalculate_head s) = scores s ∧ parent_map (recalculate_head s) = parent_map s ∧
  finalized_root (recalculate_head s) = finalized_root s ∧
  is_max (scores s) (fc_head (recalculate_head s)) (head_score (recalculate_head s)).
Proof.
  intros H0. rw /recalculate_head.
  destruct (max_score_some (map_to_list (scores s))) as [[h sc] Hmax].
  { intros E. apply elem_of_map_to_list in H0. rw E in H0. set_solver. }
  rw Hmax /=. split_and!; [done..|]. apply max_score_acc in Hmax as [[?|Hin] Hall]; [done|].
  split; [by apply elem_of_map_to_list|]. intros k sk Hk.
  apply (Hall (k, sk)). right. by apply elem_of_map_to_list.
Qed.

(** ** Traversals compute the set of descendants *)

(** [x] is [r] or below it in the tree. *)
Definition desc (pm : gmap ShellHash ShellHash) : relation ShellHash :=
  rtc (λ p c, pm !! c = Some p).

Lemma elem_of_children pm p c : c ∈ children_of pm p ↔ pm !! c = Some p.
Proof.
  rw /children_of list_elem_of_fmap. split.
  - intros ([c' p'] & -> & [<- Hm]%list_elem_of_filter). by apply elem_of_map_to_list.
  - intros Hc. exists (c, p). split; [done|]. apply list_elem_of_filter.
    split; [done|]. by apply elem_of_map_to_list.
Qed.

(** Edges of the tree whose parent is not in [X]. *)
Definition open_edges (pm : gmap ShellHash ShellHash) (X : gset ShellHash) : nat :=
  length (filter (λ q, q.2 ∉ X) (map_to_list pm)).

Lemma open_edges_insert pm X p :
  p ∉ X → open_edges pm X = (open_edges pm ({[p]} ∪ X) + length (children_of pm p))%nat.
Proof.
  intros Hp. rw /open_edges /children_of length_fmap.
  induction (map_to_list pm) as [|[c q] l IH]; [done|]. rw !filter_cons /=.
  destruct (decide (q = p)) as [->|Hne].
  - rw decide_True // decide_False; [set_solver|]. simpl. lia.
  - destruct (decide (q ∉ X)); [rw decide_True; [set_solver|]|rw decide_False; [set_solver|]];
      simpl; lia.
Qed.

Lemma open_edges_le pm X : (open_edges pm X <= size pm)%nat.
Proof. rw /open_edges -length_map_to_list. apply length_filter. Qed.

Section traversal.
Context (pm : gmap ShellHash ShellHash) (root : ShellHash).

(** A set that contains the root and is closed under children holds every
    descendant. *)
Lemma closed_desc (X : gset ShellHash) :
  root ∈ X → (∀ p c, p ∈ X → pm !! c = Some p → c ∈ X) → ∀ x, desc pm root x → x ∈ X.
Proof.
  intros Hr Hc. apply (rtc_ind_r (λ x, x ∈ X)); [done|]. intros y z _ Hyz Hy. by eapply Hc.
Qed.

Lemma mark_loop_spec fuel stack marked :
  (length stack + open_edges pm marked <= fuel)%nat →
  (∀ x, x ∈ stack ∨ x ∈ marked → desc pm root x) →
  root ∈ marked ∨ root ∈ stack →
  (∀ p c, p ∈ marked → pm !! c = Some p → c ∈ marked ∨ c ∈ stack) →
  ∃ res, mark_loop fuel pm stack marked = Some res ∧ ∀ x, x ∈ res ↔ desc pm root x.
Proof.
  revert stack marked. induction fuel as [|fuel IH]; intros [|p rest] marked Hf Hd Hr Hc; simpl in *;
    try lia.
  1,2: exists marked; split; [done|]; intros x; split; [by auto|];
    apply closed_desc; [set_solver|]; intros q c Hq Hqc; destruct (Hc q c Hq Hqc); set_solver.
  case_decide as Hp.
  - apply IH; [lia|set_solver| |].
    + destruct Hr as [?|[->|?]%elem_of_cons]; auto.
    + intros q c Hq Hqc. destruct (Hc q c Hq Hqc) as [?|[->|?]%elem_of_cons]; auto.
  - apply IH.
    + rw length_app length_reverse. pose proof (open_edges_insert pm marked p Hp). lia.
    + intros x [[Hx%elem_of_reverse%elem_of_children|Hx]%elem_of_app|[Hx|Hx]%elem_of_union].
      * eapply rtc_r; [|exact Hx]. apply Hd. set_solver.
      * apply Hd. set_solver.
      * apply Hd. set_solver.
      * apply Hd. set_solver.
    + set_solver.
    + intros q c [->%elem_of_singleton|Hq]%elem_of_union Hqc.
      * right. apply elem_of_app. left. by apply elem_of_reverse, elem_of_children.
      * destruct (Hc q c Hq Hqc) as [?|[->|?]%elem_of_cons]; set_solver.
Qed.

(** The fuel of [subtree] is enough, and it collects exactly the descendants. *)
Lemma subtree_total :
  mark_loop (size pm + 1) pm [root] ∅ = Some (subtree pm root) ∧
  ∀ x, x ∈ subtree pm root ↔ desc pm root x.
Proof.
  destruct (mark_loop_spec (size pm + 1) [root] ∅) as (res & E & Hres).
  - simpl. pose proof (open_edges_le pm ∅). lia.
  - intros x [->%list_elem_of_singleton|Hx]; [apply rtc_refl|set_solver].
  - right. by left.
  - set_solver.
  - rw /subtree E. done.
Qed.

Lemma push_new_spec cs st pr st' pr' :
  (∀ c, c ∈ cs → c ∈ dom pm) → foldl push_new (st, pr) cs = (st', pr') →
  (∀ x, x ∈ pr' ↔ x ∈ pr ∨ x ∈ cs) ∧ (∀ x, x ∈ st' ↔ x ∈ st ∨ x ∈ cs ∧ x ∉ pr) ∧
  (length st' + size (dom pm ∖ pr') = length st + size (dom pm ∖ pr))%nat.
Proof.
  revert st pr. induction cs as [|c cs IH]; intros st pr Hdom; simpl.
  { intros [= -> ->]. split_and!; [set_solver..|done]. }
  rw {2}/push_new /=. case_decide as Hc; (intros (H1 & H2 & H3)%IH; [clear IH|set_solver]).
  - split_and!; [set_solver| |done]. intros x. rw H2. set_solver.
  - split_and!.
    + set_solver.
    + intros x. rw H2. destruct (decide (x = c)) as [->|]; set_solver.
    + assert (c ∈ dom pm) by (apply Hdom; set_solver).
      assert (dom pm ∖ pr = {[c]} ∪ dom pm ∖ ({[c]} ∪ pr)) as ->.
      { apply set_eq. intros x. destruct (decide (x = c)); set_solver. }
      rw size_union ?size_singleton; [set_solver|]. simpl in H3. lia.
Qed.

Lemma protect_loop_spec fuel stack pr :
  (length stack + size (dom pm ∖ pr) <= fuel)%nat →
  (∀ x, x ∈ stack → x ∈ pr) → (∀ x, x ∈ pr → desc pm root x) → root ∈ pr →
  (∀ p c, p ∈ pr → p ∉ stack → pm !! c = Some p → c ∈ pr) →
  ∃ res, protect_loop fuel pm stack pr = Some res ∧ ∀ x, x ∈ res ↔ desc pm root x.
Proof.
  revert stack pr. induction fuel as [|fuel IH]; intros [|p rest] pr Hf Hs Hd Hr Hc; simpl in *;
    try lia.
  1,2: exists pr; split; [done|]; intros x; split; [by auto|];
    apply closed_desc; [done|]; intros q c Hq; apply Hc; [done|set_solver].
  destruct (foldl push_new (rest, pr) (children_of pm p)) as [st' pr'] eqn:E.
  apply push_new_spec in E as (H1 & H2 & H3).
  2:{ intros c Hc'%elem_of_children. by eapply elem_of_dom_2. }
  apply IH.
  - lia.
  - intros x. rw H1 H2. set_solver.
  - intros x [?|Hx%elem_of_children]%H1; [by apply Hd|]. eapply rtc_r; [|exact Hx].
    apply Hd, Hs. set_solver.
  - apply H1. by left.
  - intros q c Hq Hnq Hqc. apply H1. destruct (decide (q = p)) as [->|Hne].
    + right. by apply elem_of_children.
    + left. rw H1 in Hq. rw H2 in Hnq.
      destruct (decide (q ∈ pr)) as [Hqp|Hqp]; [|exfalso; apply Hnq; right; naive_solver].
      eapply (Hc q); [done| |done]. set_solver.
Qed.

Lemma protect_total :
  protect_loop (size pm + 1) pm [root] {[root]} = Some (protected_set pm root) ∧
  ∀ x, x ∈ protected_set pm root ↔ desc pm root x.
Proof.
  destruct (protect_loop_spec (size pm + 1) [root] {[root]}) as (res & E & Hres).
  - simpl. assert (size (dom pm ∖ {[root]}) <= size pm)%nat; [|lia].
    rw -size_dom. apply subseteq_size. set_solver.
  - set_solver.
  - intros x ->%elem_of_singleton. apply rtc_refl.
  - set_solver.
  - set_solver.
  - rw /protected_set E. done.
Qed.
End traversal.

(** ** Invariant *)

(** Some tracked block has no parent, which is what [ZERO] stands for. *)
Definition has_base (pm : gmap ShellHash ShellHash) : Prop :=
  pm !! ZERO = None ∧ ∃ b, pm !! b = Some ZERO.

(** The head is tracked under its score, and flagged once a block is finalized. *)
Definition head_ok (fr : option ShellHash) (m : gmap ShellHash BlockScore) (h : ShellHash)
    (sc : BlockScore) : Prop :=
  m !! h = Some sc ∧ ∀ r, fr = Some r → is_finalized sc = 1.

Record fc_inv (s : ForkChoice) : Prop := {
  fci_dom : dom (parent_map s) = dom (scores s);
  fci_hash : ∀ h sc, scores s !! h = Some sc →
    score_hash sc = h ∧ (is_finalized sc = 0 ∨ is_finalized sc = 1);
  fci_head : head_ok (finalized_root s) (scores s) (fc_head s) (head_score s);
  fci_root : ∀ r, finalized_root s = Some r →
    flagged s r = true ∧ ∀ h, flagged s h = true → desc (parent_map s) r h;
  fci_base : has_base (parent_map s);
}.

Lemma flagged_iff s h :
  flagged s h = true ↔ ∃ sc, scores s !! h = Some sc ∧ is_finalized sc = 1.
Proof.
  rw /flagged. destruct (scores s !! h) as [sc|]; [|naive_solver]. rw Z.eqb_eq. naive_solver.
Qed.

Lemma desc_mono pm pm' x y : pm ⊆ pm' → desc pm x y → desc pm' x y.
Proof.
  intros Hsub. apply rtc_subrel. intros p c Hc. by eapply lookup_weaken.
Qed.

Lemma fork_choice_new_inv g : g ≠ ZERO → fc_inv (fork_choice_new g).
Proof.
  intros Hg. split; simpl; [by rw !dom_singleton_L| | |done|].
  3:{ split; [by rw lookup_singleton_ne|]. exists g. by rw lookup_singleton_eq. }
  - intros h sc [<- <-]%lookup_singleton_Some. by auto.
  - split; [by rw lookup_singleton_eq|done].
Qed.

Lemma fork_choice_new_max g :
  is_max (scores (fork_choice_new g)) (fc_head (fork_choice_new g)) (head_score (fork_choice_new g)).
Proof.
  split; simpl; [by rw lookup_singleton_eq|]. intros k sk [<- <-]%lookup_singleton_Some.
  apply score_le_refl.
Qed.

(** Inserting a block keeps the head fine, if the block becomes the head only
    when it scores higher. *)
Lemma head_ok_insert fr m h sc h0 sc0 b :
  head_ok fr m h0 sc0 → h ≠ h0 → (is_finalized sc = 0 ∨ is_finalized sc = 1) →
  (b = true → score_le sc0 sc) →
  head_ok fr (<[h := sc]> m) (if b then h else h0) (if b then sc else sc0).
Proof.
  intros [H0 Hfl] Hne Hsc Hle. destruct b.
  - split; [by rw lookup_insert_eq|]. intros r Hr.
    pose proof (score_le_flag _ _ (Hle eq_refl)). pose proof (Hfl r Hr). lia.
  - split; [by rw lookup_insert_ne|done].
Qed.

Lemma is_max_insert m h sc h0 sc0 b :
  is_max m h0 sc0 → h ≠ h0 →
  (b = true → score_le sc0 sc) → (b = false → score_le sc sc0) →
  is_max (<[h := sc]> m) (if b then h else h0) (if b then sc else sc0).
Proof.
  intros [H0 Hmax] Hne Ht Hf. destruct b.
  - split; [by rw lookup_insert_eq|]. intros k sk [[<- <-]|[_ Hk]]%lookup_insert_Some;
      [apply score_le_refl|]. eapply score_le_trans; [by eapply Hmax|by apply Ht].
  - split; [by rw lookup_insert_ne|]. intros k sk [[<- <-]|[_ Hk]]%lookup_insert_Some;
      [by apply Hf|by eapply Hmax].
Qed.

Lemma add_block_inv s h p n w fin :
  fc_inv s → scores s !! h = None → h ≠ ZERO → fc_inv (add_block s h p n w fin).1.
Proof.
  intros [Hdom Hhash Hmax Hroot Hbase] Hnew Hz.
  assert (Hne : h ≠ fc_head s) by (intros ->; destruct Hmax; congruence).
  assert (Hpm : parent_map s ⊆ <[h := p]> (parent_map s)).
  { apply insert_subseteq, not_elem_of_dom. rw Hdom. by apply not_elem_of_dom. }
  rw /add_block. set fl := match finalized_root s with Some _ => _ | None => _ end.
  set sc := MkBlockScore _ _ _ _. set b := score_gt sc (head_score s).
  assert (Hs : (if b then (set_head (MkForkChoice (<[h := p]> (parent_map s)) (<[h := sc]> (scores s))
      (finalized_root s) (fc_head s) (head_score s)) h sc, true)
    else (MkForkChoice (<[h := p]> (parent_map s)) (<[h := sc]> (scores s))
      (finalized_root s) (fc_head s) (head_score s), false)).1
    = MkForkChoice (<[h := p]> (parent_map s)) (<[h := sc]> (scores s)) (finalized_root s)
        (if b then h else fc_head s) (if b then sc else head_score s)) by (by destruct b).
  rw Hs. split; simpl.
  - rw !dom_insert_L Hdom //.
  - intros k sk [[<- <-]|[_ Hk]]%lookup_insert_Some; [|by apply Hhash].
    simpl. split; [done|]. destruct fl; auto.
  - apply head_ok_insert; [done..| |apply score_gt_true]. rw /sc /=. destruct fl; auto.
  - intros r Hr. destruct (Hroot r Hr) as [Hfr Hdesc]. split.
    + apply flagged_iff in Hfr as (scr & Hscr & Hfin). apply flagged_iff. exists scr.
      simpl. rw lookup_insert_ne //. congruence.
    + intros k (sk & Hk & Hfin)%flagged_iff. simpl in Hk.
      apply lookup_insert_Some in Hk as [[<- <-]|[_ Hk]].
      * rw /sc /= /fl Hr in Hfin. destruct (flagged s p) eqn:Hp; [|done].
        eapply rtc_r; [eapply desc_mono; [exact Hpm|exact (Hdesc p Hp)]|].
        exact (lookup_insert_eq _ _ _).
      * eapply desc_mono; [exact Hpm|]. apply Hdesc, flagged_iff. eauto.
  - destruct Hbase as [H0 [b' Hb']]. split; [by rw lookup_insert_ne|].
    exists b'. by eapply lookup_weaken.
Qed.

Lemma update_weight_inv s h w : fc_inv s → fc_inv (update_attested_weight s h w).1.
Proof.
  intros Hinv. rw /update_attested_weight.
  destruct (scores s !! h) as [sc|] eqn:Hsc; [|done]. cbv zeta.
  destruct Hinv as [Hdom Hhash Hmax Hroot Hbase]. set sc' := set_score_weight w sc.
  assert (Hcommon : ∀ hd hs, head_ok (finalized_root s) (<[h := sc']> (scores s)) hd hs →
    fc_inv (MkForkChoice (parent_map s) (<[h := sc']> (scores s)) (finalized_root s) hd hs)).
  { intros hd hs Hm.
    assert (Hflag : ∀ k, flagged (MkForkChoice (parent_map s) (<[h := sc']> (scores s))
      (finalized_root s) hd hs) k = flagged s k).
    { intros k. rw /flagged /=. destruct (decide (h = k)) as [<-|?];
        [by rw lookup_insert_eq Hsc|by rw lookup_insert_ne]. }
    split; simpl; [|..|done| |done].
    - rw dom_insert_L Hdom. apply elem_of_dom_2 in Hsc. set_solver.
    - intros k sk [[<- <-]|[_ Hk]]%lookup_insert_Some; [exact (Hhash _ _ Hsc)|by apply Hhash].
    - intros r Hr. rw Hflag. destruct (Hroot r Hr) as [? Hd]. split; [done|].
      intros k. rw Hflag. apply Hd. }
  case_decide as Hh; [|destruct (score_gt sc' (head_score s)) eqn:Hgt]; apply Hcommon; simpl.
  - subst h. destruct Hmax as [Hhd Hfl]. simplify_eq. by split; [rw lookup_insert_eq|].
  - apply (head_ok_insert _ (scores s) h sc' (fc_head s) (head_score s) true);
      [done..|exact (proj2 (Hhash _ _ Hsc))|by intros; apply score_gt_true].
  - apply (head_ok_insert _ (scores s) h sc' (fc_head s) (head_score s) false);
      [done..|exact (proj2 (Hhash _ _ Hsc))|done].
Qed.

(** The state after [recalculate_head] on a state that is fine but for its head. *)
Lemma recalculated_inv pm sc fr hd hs :
  dom pm = dom sc → has_base pm →
  (∀ h x, sc !! h = Some x → score_hash x = h ∧ (is_finalized x = 0 ∨ is_finalized x = 1)) →
  (∀ r, fr = Some r → (∃ x, sc !! r = Some x ∧ is_finalized x = 1) ∧
     ∀ h x, sc !! h = Some x → is_finalized x = 1 → desc pm r h) →
  let s' := recalculate_head (MkForkChoice pm sc fr hd hs) in
  fc_inv s' ∧ scores s' = sc ∧ parent_map s' = pm ∧ finalized_root s' = fr.
Proof.
  intros Hdom Hbase Hhash Hroot. cbv zeta. destruct Hbase as [Hz [b Hb]].
  assert (is_Some (sc !! b)) as [x0 H0] by (apply elem_of_dom; rw -Hdom; by eapply elem_of_dom_2).
  destruct (recalculate_head_max (MkForkChoice pm sc fr hd hs) b x0 H0) as (Hs & Hp & Hf & Hm).
  set s' := recalculate_head _ in Hs Hp Hf Hm *. simpl in *.
  split_and!; [|done..]. split; rw ?Hs ?Hp ?Hf //; [| |by split; [|exists b]].
  { split; [by apply Hm|]. intros r Hr. destruct (Hroot r Hr) as [(x & Hx & Hfin) _].
    destruct Hm as [Hh Hm]. pose proof (score_le_flag _ _ (Hm r x Hx)).
    destruct (Hhash _ _ Hh) as [_ ?]. lia. }
  intros r Hr. destruct (Hroot r Hr) as [Hfr Hd]. rw flagged_iff Hs. split; [done|].
  intros h (x & Hx & Hfin)%flagged_iff. rw Hs in Hx. by eapply Hd.
Qed.

(** The flags after finalizing [h]. *)
Definition refinalized (s : ForkChoice) (h : ShellHash) : gmap ShellHash BlockScore :=
  map_imap (λ k sc, Some (if decide (k ∈ subtree (parent_map s) h) then set_is_finalized 1 sc else sc))
    (set_is_finalized 0 <$> scores s).

Lemma refinalized_lookup s h k :
  refinalized s h !! k =
  (λ sc, set_is_finalized (if decide (k ∈ subtree (parent_map s) h) then 1 else 0) sc) <$> scores s !! k.
Proof.
  rw /refinalized map_lookup_imap lookup_fmap. destruct (scores s !! k) as [sc|]; simpl; [|done].
  by case_decide.
Qed.

Definition accepts_finalized (s : ForkChoice) (h : ShellHash) : Prop :=
  is_Some (scores s !! h) ∧
  ∀ r, finalized_root s = Some r → r = h ∨ chain_between s h r ≠ [].

Lemma mark_finalized_cases s h :
  (¬ accepts_finalized s h ∧ mark_finalized s h = (s, false)) ∨
  (accepts_finalized s h ∧
   (mark_finalized s h).1 = recalculate_head
     (MkForkChoice (parent_map s) (refinalized s h) (Some h) (fc_head s) (head_score s)) ∧
   (mark_finalized s h).2 = negb (bool_decide (fc_head (mark_finalized s h).1 = fc_head s))).
Proof.
  rw /mark_finalized /accepts_finalized.
  destruct (scores s !! h) as [sc|] eqn:Hsc; [|left; split; [by intros [[] _]|done]].
  destruct (finalized_root s) as [r|]; [|right; split_and!; [by eexists|done..]].
  case_bool_decide as Hr; simpl; [right; split_and!; [by eexists| |done..]|].
  { intros ? [= <-]. by left. }
  case_bool_decide as Hc; [left|right].
  - split; [|done]. intros [_ [?|?]%(λ H, H r eq_refl)]; done.
  - split_and!; [by eexists| |done..]. intros ? [= <-]. by right.
Qed.

Lemma mark_finalized_accepted s h :
  fc_inv s → accepts_finalized s h →
  let s' := (mark_finalized s h).1 in
  fc_inv s' ∧ scores s' = refinalized s h ∧ parent_map s' = parent_map s ∧ finalized_root s' = Some h.
Proof.
  intros [Hdom Hhash _ _ Hbase] Hacc. destruct (mark_finalized_cases s h) as [[? _]|(_ & -> & _)]; [done|].
  destruct Hacc as [[sc Hsc] _]. cbv zeta.
  destruct (subtree_total (parent_map s) h) as [_ Hsub].
  assert (Hh : refinalized s h !! h = Some (set_is_finalized 1 sc)).
  { rw refinalized_lookup Hsc /= decide_True //. apply Hsub, rtc_refl. }
  apply recalculated_inv; [|done| |].
  - rw Hdom. apply set_eq. intros k. rw !elem_of_dom refinalized_lookup fmap_is_Some //.
  - intros k x. rw refinalized_lookup. intros (y & Hy & ->)%fmap_Some_1.
    split; [exact (proj1 (Hhash _ _ Hy))|]. simpl. case_decide; auto.
  - intros r [= <-]. split; [by eauto|]. intros k x. rw refinalized_lookup.
    intros (y & Hy & ->)%fmap_Some_1. simpl. case_decide as Hk; [|done]. intros _. by apply Hsub.
Qed.

Lemma min_step_some l acc g :
  foldl min_step acc l = Some g → acc = Some g ∨ g ∈ l.
Proof.
  revert acc. induction l as [|x l IH]; intros acc; simpl; [by left|].
  intros [H|H]%IH; [|right; set_solver]. destruct acc as [a|]; unfold min_step in H.
  - destruct (bytes_cmp _ _); simplify_eq; [by left|by left|right; set_solver].
  - simplify_eq. right. set_solver.
Qed.

Lemma finalized_at_flagged s n f :
  finalized_at s n = Some f → ∃ sc, scores s !! f = Some sc ∧ is_finalized sc = 1 ∧ score_number sc = n.
Proof.
  intros [?|H]%min_step_some; [done|]. apply list_elem_of_fmap in H as ([k sc] & -> & H).
  apply list_elem_of_filter in H as [[? ?] Hk%elem_of_map_to_list]. by eauto.
Qed.

(** Paths that stay inside a set survive restriction to it. *)
Lemma desc_restrict pm pm' r h :
  (∀ p c, c ≠ r → desc pm r p → pm !! c = Some p → pm' !! c = Some p) →
  desc pm r h → desc pm' r h.
Proof.
  intros Hkeep Hd.
  assert (Hboth : desc pm r h ∧ desc pm' r h); [|by destruct Hboth].
  revert h Hd. apply (rtc_ind_r (λ h, desc pm r h ∧ desc pm' r h)).
  - split; apply rtc_refl.
  - intros y z _ Hyz [Hy Hy']. split; [by eapply rtc_r|].
    destruct (decide (z = r)) as [->|Hne]; [apply rtc_refl|].
    eapply rtc_r; [exact Hy'|]. by apply Hkeep.
Qed.

Lemma prune_below_spec s n f :
  fc_inv s → finalized_at s n = Some f →
  let s' := fc_prune_below s n in
  fc_inv s' ∧ finalized_root s' = Some f ∧
  (∀ h, is_Some (scores s' !! h) ↔ is_Some (scores s !! h) ∧ desc (parent_map s) f h) ∧
  (∀ h, flagged s' h = true ↔ is_Some (scores s' !! h)).
Proof.
  intros [Hdom Hhash _ _ Hbase] Hf. cbv zeta. rw /fc_prune_below Hf.
  destruct (protect_total (parent_map s) f) as [_ Hprot].
  set pr := protected_set _ _ in Hprot *.
  set sc := set_is_finalized 1 <$> _. set pm := <[f := ZERO]> _.
  destruct (finalized_at_flagged s n f Hf) as (scf & Hscf & Hfin & _).
  assert (Hfpr : f ∈ pr) by apply Hprot, rtc_refl.
  assert (Hsc : ∀ h x, sc !! h = Some x ↔ ∃ y, scores s !! h = Some y ∧ x = set_is_finalized 1 y ∧ h ∈ pr).
  { intros h x. rw /sc lookup_fmap fmap_Some. split.
    - intros (y & [? ?]%map_lookup_filter_Some & ->). by eauto.
    - intros (y & ? & -> & ?). exists y. by rw map_lookup_filter_Some. }
  destruct (recalculated_inv pm sc (Some f) (fc_head s) (head_score s))
    as (Hinv & Hs & Hp & Hr).
  - apply set_eq. intros h. rw /pm dom_insert_L elem_of_union elem_of_singleton !elem_of_dom. split.
    + intros [->|[p [Hp Hin]%map_lookup_filter_Some]]; [exists (set_is_finalized 1 scf); apply Hsc; eauto|].
      apply elem_of_dom_2 in Hp. rw Hdom in Hp. apply elem_of_dom in Hp as [y Hy].
      eexists. apply Hsc. eauto.
    + intros [x (y & Hy & -> & Hin)%Hsc]. right. apply elem_of_dom_2 in Hy. rw -Hdom in Hy.
      apply elem_of_dom in Hy as [p Hp]. exists p. by apply map_lookup_filter_Some.
  - destruct Hbase as [Hz _]. split; [|exists f; apply lookup_insert_eq].
    assert (f ≠ ZERO) by (intros ->; apply not_elem_of_dom in Hz; rw Hdom in Hz;
      by apply Hz; eapply elem_of_dom_2).
    rw /pm lookup_insert_ne // map_lookup_filter_None. by left.
  - intros h x (y & Hy & -> & _)%Hsc. split; [exact (proj1 (Hhash _ _ Hy))|by right].
  - intros r [= <-]. split; [eexists; split; [apply Hsc; by eauto|done]|].
    intros h x (y & Hy & -> & Hin)%Hsc _. apply Hprot in Hin. revert Hin. apply desc_restrict.
    intros p c Hne Hp Hc. rw /pm lookup_insert_ne //. apply map_lookup_filter_Some.
    split; [done|]. apply Hprot. by eapply rtc_r.
  - split_and!; [done..| |]; intros h.
    + rw Hs -Hprot. split; [intros [x (y & ? & _ & ?)%Hsc]; by eauto|].
      intros [[y Hy] Hin]. eexists. apply Hsc. eauto.
    + rw flagged_iff Hs. split; [naive_solver|]. intros [x Hx]. exists x. split; [done|].
      by apply Hsc in Hx as (y & _ & -> & _).
Qed.

(** The removed subtree never contains a base block. *)
Lemma base_not_below pm root b :
  pm !! ZERO = None → pm !! b = Some ZERO → is_Some (pm !! root) → pm !! root ≠ Some ZERO →
  ¬ desc pm root b.
Proof.
  intros Hz Hb Hroot Hne Hd. apply rtc_inv_r in Hd as [->|(y & Hd & Hy)]; [done|].
  assert (y = ZERO) as -> by congruence.
  apply rtc_inv_r in Hd as [->|(z & _ & Hz')]; [|congruence].
  rw Hz in Hroot. by destruct Hroot.
Qed.

Lemma remove_subtree_cases s root :
  remove_subtree s root = (s, false) ∨
  (is_Some (scores s !! root) ∧ parent_map s !! root ≠ Some ZERO ∧
   (∀ r, finalized_root s = Some r → ¬ desc (parent_map s) root r) ∧
   remove_subtree s root =
     (recalculate_head (MkForkChoice
         (filter (λ p, p.1 ∉ subtree (parent_map s) root) (parent_map s))
         (filter (λ p, p.1 ∉ subtree (parent_map s) root) (scores s))
         (finalized_root s) (fc_head s) (head_score s)), true)).
Proof.
  rw /remove_subtree. destruct (_ || _ || _) eqn:E; [by left|].
  apply orb_false_iff in E as [E Hin%negb_false_iff%bool_decide_eq_true].
  apply orb_false_iff in E as [_ Hz%bool_decide_eq_false].
  destruct (subtree_total (parent_map s) root) as [_ Hsub]. cbv zeta.
  destruct (finalized_root s) as [r|]; [case_bool_decide as Hf; [by left|]|];
    right; (split_and!; [done..| |done]); [|done].
  intros ? [= <-]. by rw -Hsub.
Qed.

Lemma remove_subtree_spec s root :
  fc_inv s → (remove_subtree s root).2 = true →
  let s' := (remove_subtree s root).1 in
  fc_inv s' ∧ finalized_root s' = finalized_root s ∧
  (∀ r, finalized_root s = Some r → ¬ desc (parent_map s) root r) ∧
  ∀ h x, scores s' !! h = Some x ↔ scores s !! h = Some x ∧ ¬ desc (parent_map s) root h.
Proof.
  intros [Hdom Hhash _ Hroot [Hz [b Hb]]].
  destruct (remove_subtree_cases s root) as [->|([sc Hsc] & Hnz & Hnr & ->)]; [done|].
  intros _. cbv zeta. destruct (subtree_total (parent_map s) root) as [_ Hsub].
  set rm := subtree (parent_map s) root in Hsub *. cbn [fst].
  set pm' := filter _ (parent_map s). set sc' := filter _ (scores s).
  assert (Hsc' : ∀ h x, sc' !! h = Some x ↔ scores s !! h = Some x ∧ ¬ desc (parent_map s) root h).
  { intros h x. by rw /sc' map_lookup_filter_Some Hsub. }
  assert (Hpm' : ∀ h x, pm' !! h = Some x ↔ parent_map s !! h = Some x ∧ ¬ desc (parent_map s) root h).
  { intros h x. by rw /pm' map_lookup_filter_Some Hsub. }
  destruct (recalculated_inv pm' sc' (finalized_root s) (fc_head s) (head_score s)) as (Hinv & -> & _ & ->).
  - apply set_eq. intros h. rw !elem_of_dom. split.
    + intros [x [Hx Hn]%Hpm']. apply elem_of_dom_2 in Hx. rw Hdom in Hx. apply elem_of_dom in Hx as [y Hy].
      exists y. by apply Hsc'.
    + intros [x [Hx Hn]%Hsc']. apply elem_of_dom_2 in Hx. rw -Hdom in Hx. apply elem_of_dom in Hx as [y Hy].
      exists y. by apply Hpm'.
  - split.
    + destruct (pm' !! ZERO) eqn:E; [|done]. apply Hpm' in E as [E _]. congruence.
    + exists b. apply Hpm'. split; [done|]. apply base_not_below; [done..| |done].
      apply elem_of_dom. rw Hdom. by eapply elem_of_dom_2.
  - intros h x [Hx _]%Hsc'. by apply Hhash.
  - intros r Hr. destruct (Hroot r Hr) as [(y & Hy & Hfin)%flagged_iff Hd]. split.
    + exists y. split; [|done]. apply Hsc'. auto.
    + intros h x [Hx Hn]%Hsc' Hfx. assert (desc (parent_map s) r h) as Hrh.
      { apply Hd, flagged_iff. eauto. }
      clear Hx Hfx x. revert h Hrh Hn. apply (rtc_ind_r (λ h, ¬ desc _ root h → desc pm' r h)).
      * intros _. apply rtc_refl.
      * intros p c _ Hpc IH Hn. eapply rtc_r; [apply IH|apply Hpm'; by split].
        intros Hp. apply Hn. by eapply rtc_r.
  - split_and!; done.
Qed.

(** ** Chains *)

(** [l] is a chain of children, oldest first, on top of [b]. *)
Fixpoint linked (pm : gmap ShellHash ShellHash) (b : ShellHash) (l : list ShellHash) : Prop :=
  match l with
  | [] => True
  | x :: l' => pm !! x = Some b ∧ linked pm x l'
  end.

Lemma linked_snoc pm b l x :
  linked pm b (l ++ [x]) ↔ linked pm b l ∧ pm !! x = Some (default b (last l)).
Proof.
  revert b. induction l as [|y l IH]; intros b; simpl; [naive_solver|].
  rw IH. assert (default y (last l) = default b (last (y :: l))) as ->; [|naive_solver].
  destruct l as [|z l]; [done|]. rw last_cons_cons.
  destruct (last (z :: l)) eqn:E; [done|]. by apply last_None in E.
Qed.

Lemma linked_desc pm b l : linked pm b l → desc pm b (default b (last l)).
Proof.
  revert b. induction l as [|x l IH]; intros b; simpl; [intros _; apply rtc_refl|].
  intros [Hx Hl]. eapply rtc_l; [exact Hx|].
  assert (default x (last l) = default b (last (x :: l))) as <-; [|by apply IH].
  destruct l as [|z l]; [done|]. rw last_cons_cons.
  destruct (last (z :: l)) eqn:E; [done|]. by apply last_None in E.
Qed.

Lemma walk_up_spec fuel pm a b l :
  walk_up fuel pm a b = Some l ↔
  linked pm b (reverse l) ∧ (default b (last (reverse l)) = a) ∧ (b ∉ l) ∧ (length l <= fuel)%nat.
Proof.
  revert a l. induction fuel as [|fuel IH]; intros a l; simpl.
  - case_decide as Hab.
    + split; [by intros [= <-]; split_and!; [..|set_solver|]|].
      intros (_ & _ & _ & Hl). destruct l; simpl in Hl; [done|lia].
    + split; [done|]. intros (_ & Hd & _ & Hl). destruct l; simpl in Hl; [|lia]. by destruct Hab.
  - case_decide as Hab.
    + subst b. split; [intros [= <-]; by split_and!; [..|set_solver|simpl; lia]|].
      intros (_ & Hd & Hn & _). destruct l as [|x l]; [done|]. rw reverse_cons last_snoc /= in Hd. set_solver.
    + split.
      * destruct (pm !! a) as [p|] eqn:Hp; [|done]. simpl.
        destruct (walk_up fuel pm p b) as [k|] eqn:Hk; [|done]. intros [= <-].
        apply IH in Hk as (Hl & Hlast & Hn & Hlen). rw reverse_cons linked_snoc last_snoc /= Hlast.
        split_and!; [done..|set_solver|lia].
      * intros (Hl & Hlast & Hn & Hlen). destruct l as [|x l]; [by destruct Hab|].
        rw reverse_cons last_snoc /= in Hlast. subst x. rw reverse_cons linked_snoc in Hl.
        destruct Hl as [Hl Ha]. rw Ha /=.
        rw (proj2 (IH _ l)) //. split_and!; [done|done|set_solver|simpl in Hlen; lia].
Qed.

Lemma chain_between_desc s a b : chain_between s a b ≠ [] → desc (parent_map s) b a.
Proof.
  rw /chain_between. destruct (walk_up _ _ a b) as [l|] eqn:E; [|done]. intros _.
  apply walk_up_spec in E as (Hl & <- & _). by apply linked_desc.
Qed.

(** ** Reachable states *)

Inductive fc_op :=
| OpAddBlock (h parent : ShellHash) (number weight : Z) (on_finalized_chain : bool)
| OpUpdateWeight (h : ShellHash) (w : Z)
| OpMarkFinalized (h : ShellHash)
| OpPrune (n : Z)
| OpRemove (h : ShellHash)
| OpRecalculate.

Definition fc_run (s : ForkChoice) (op : fc_op) : ForkChoice :=
  match op with
  | OpAddBlock h p n w f => (add_block s h p n w f).1
  | OpUpdateWeight h w => (update_attested_weight s h w).1
  | OpMarkFinalized h => (mark_finalized s h).1
  | OpPrune n => fc_prune_below s n
  | OpRemove h => (remove_subtree s h).1
  | OpRecalculate => recalculate_head s
  end.

(** The flag that [add_block] gives a block. *)
Definition added_flag (s : ForkChoice) (p : ShellHash) (f : bool) : Z :=
  if match finalized_root s with Some _ => flagged s p | None => f end then 1 else 0.

(** The block is tracked already, under the same parent, number and flag, and a
    new weight does not lower the head: what happens when a side-fork block is
    imported again. *)
Definition registered_again (s : ForkChoice) (h p : ShellHash) (n w : Z) (f : bool) : Prop :=
  ∃ sc, scores s !! h = Some sc ∧ parent_map s !! h = Some p ∧ score_number sc = n ∧
    is_finalized sc = added_flag s p f ∧ (h = fc_head s → score_weight sc <= w).

(** A block is registered under a hash that is not zero, and if it is known,
    as the block it is. *)
Definition fc_op_ok (s : ForkChoice) (op : fc_op) : Prop :=
  match op with
  | OpAddBlock h p n w f => h ≠ ZERO ∧ (scores s !! h = None ∨ registered_again s h p n w f)
  | _ => True
  end.

(** The operation does not lower the weight of the current head. *)
Definition keeps_head_weight (s : ForkChoice) (op : fc_op) : Prop :=
  match op with
  | OpUpdateWeight h w => h = fc_head s → score_weight (head_score s) <= w
  | _ => True
  end.

Inductive fc_reachable : ForkChoice → Prop :=
| fc_reach_new g : g ≠ ZERO → fc_reachable (fork_choice_new g)
| fc_reach_step s op : fc_reachable s → fc_op_ok s op → fc_reachable (fc_run s op).

(** States reached without ever lowering the weight of the head. *)
Inductive fc_steady : ForkChoice → Prop :=
| fc_steady_new g : g ≠ ZERO → fc_steady (fork_choice_new g)
| fc_steady_step s op :
    fc_steady s → fc_op_ok s op → keeps_head_weight s op → fc_steady (fc_run s op).

(** Registering a block again only updates its weight. *)
Lemma add_again s h p n w f :
  fc_inv s → registered_again s h p n w f → (add_block s h p n w f).1 = (update_attested_weight s h w).1.
Proof.
  intros Hinv (sc & Hsc & Hp & <- & Hf & Hw). destruct (fci_hash s Hinv h sc Hsc) as [Hh _].
  rw /add_block /update_attested_weight Hsc insert_id // -/(added_flag s p f) -Hf. cbv zeta.
  assert (E : MkBlockScore (is_finalized sc) w (score_number sc) h = set_score_weight w sc) by (by rw -Hh).
  clear Hh. rw E. case_decide as Hd; [|by destruct (score_gt _ _)]. subst h.
  destruct (fci_head s Hinv) as [Hhd _]. simplify_eq.
  destruct (score_gt _ _) eqn:Hgt; [done|].
  assert (Heq : set_score_weight w (head_score s) = head_score s).
  { apply score_le_antisym; [by apply score_gt_false|by apply score_le_weight, Hw]. }
  by rw Heq.
Qed.

Lemma fc_run_inv s op : fc_inv s → fc_op_ok s op → fc_inv (fc_run s op).
Proof.
  intros Hinv Hok. destruct op as [h p n w f|h w|h|n|h|]; simpl in *.
  - destruct Hok as [Hz [Hnew|Hagain]]; [by apply add_block_inv|]. rw add_again //. by apply update_weight_inv.
  - by apply update_weight_inv.
  - destruct (mark_finalized_cases s h) as [[_ ->]|[Hacc _]]; [done|].
    by apply mark_finalized_accepted.
  - destruct (finalized_at s n) as [f|] eqn:E; [by apply (prune_below_spec s n f)|].
    by rw /fc_prune_below E.
  - destruct (remove_subtree s h).2 eqn:E; [by apply (remove_subtree_spec s h)|].
    destruct (remove_subtree_cases s h) as [->|(_ & _ & _ & E')]; [done|]. by rw E' in E.
  - destruct Hinv as [Hdom Hhash Hmax Hroot Hbase].
    destruct (recalculated_inv (parent_map s) (scores s) (finalized_root s) (fc_head s) (head_score s))
      as [H _]; [done..| |by destruct s].
    intros r Hr. destruct (Hroot r Hr) as [Hf%flagged_iff Hd]. split; [done|].
    intros h x Hx Hfx. apply Hd, flagged_iff. eauto.
Qed.

Lemma fc_reachable_inv s : fc_reachable s → fc_inv s.
Proof. induction 1; [by apply fork_choice_new_inv|by apply fc_run_inv]. Qed.

Lemma recalculate_scores t : scores (recalculate_head t) = scores t.
Proof. rw /recalculate_head. by destruct (max_score _) as [[]|]. Qed.

Lemma recalculated_max t :
  fc_inv (recalculate_head t) →
  is_max (scores (recalculate_head t)) (fc_head (recalculate_head t)) (head_score (recalculate_head t)).
Proof.
  intros [_ _ [Hh _] _ _]. rw recalculate_scores in Hh *.
  by apply (recalculate_head_max t _ _ Hh).
Qed.

Lemma add_block_max s h p n w fin :
  is_max (scores s) (fc_head s) (head_score s) → scores s !! h = None →
  let s' := (add_block s h p n w fin).1 in is_max (scores s') (fc_head s') (head_score s').
Proof.
  intros Hmax Hnew. assert (h ≠ fc_head s) by (intros ->; destruct Hmax; congruence).
  rw /add_block. cbv zeta. set sc := MkBlockScore _ _ _ _.
  pose proof (is_max_insert (scores s) h sc (fc_head s) (head_score s) (score_gt sc (head_score s))
    Hmax ltac:(done) (score_gt_true _ _) (score_gt_false _ _)) as H'.
  by destruct (score_gt sc (head_score s)).
Qed.

Lemma update_weight_max s h w :
  is_max (scores s) (fc_head s) (head_score s) →
  (h = fc_head s → score_weight (head_score s) <= w) →
  let s' := (update_attested_weight s h w).1 in is_max (scores s') (fc_head s') (head_score s').
Proof.
  intros Hmax Hw. rw /update_attested_weight.
  destruct (scores s !! h) as [sc|] eqn:Hsc; [|done]. cbv zeta. set sc' := set_score_weight w sc.
  case_decide as Hh.
  - subst h. destruct Hmax as [Hhd Hall]. simplify_eq. split; simpl; [by rw lookup_insert_eq|].
    intros k sk [[<- <-]|[_ Hk]]%lookup_insert_Some; [apply score_le_refl|].
    eapply score_le_trans; [by eapply Hall|]. apply score_le_weight. by apply Hw.
  - pose proof (is_max_insert (scores s) h sc' (fc_head s) (head_score s) (score_gt sc' (head_score s))
      Hmax Hh (score_gt_true _ _) (score_gt_false _ _)) as H'.
    by destruct (score_gt sc' (head_score s)).
Qed.

Lemma fc_run_max s op :
  fc_inv s → is_max (scores s) (fc_head s) (head_score s) → fc_op_ok s op → keeps_head_weight s op →
  is_max (scores (fc_run s op)) (fc_head (fc_run s op)) (head_score (fc_run s op)).
Proof.
  intros Hinv Hmax Hok Hw. pose proof (fc_run_inv s op Hinv Hok) as Hinv'.
  destruct op as [h p n w f|h w|h|n|h|]; simpl in *.
  - destruct Hok as [Hz [Hnew|Hagain]]; [by apply add_block_max|]. rw add_again //.
    apply update_weight_max; [done|]. intros ->. destruct Hagain as (sc & Hsc & _ & _ & _ & Hle), Hmax as [Hhd _].
    simplify_eq. by apply Hle.
  - by apply update_weight_max.
  - destruct (mark_finalized_cases s h) as [[_ ->]|(_ & E & _)]; [done|].
    rw E in Hinv' *. by apply recalculated_max.
  - rw /fc_prune_below in Hinv' *. destruct (finalized_at s n); [|done]. by apply recalculated_max.
  - destruct (remove_subtree_cases s h) as [->|(_ & _ & _ & E)]; [done|].
    rw E /= in Hinv' *. by apply recalculated_max.
  - by apply recalculated_max.
Qed.

Lemma fc_steady_reachable s : fc_steady s → fc_reachable s.
Proof. induction 1; by constructor. Qed.

Lemma fc_steady_max s : fc_steady s → is_max (scores s) (fc_head s) (head_score s).
Proof.
  induction 1 as [g Hg|s op Hs IH Hok Hw]; [apply fork_choice_new_max|].
  apply fc_run_max; [by apply fc_reachable_inv, fc_steady_reachable|done..].
Qed.

Lemma is_max_unique m h1 s1 h2 s2 :
  (∀ h sc, m !! h = Some sc → score_hash sc = h) →
  is_max m h1 s1 → is_max m h2 s2 → h1 = h2 ∧ s1 = s2.
Proof.
  intros Hh [H1 Hm1] [H2 Hm2].
  assert (s1 = s2) as -> by (apply score_le_antisym; [by eapply Hm2|by eapply Hm1]).
  split; [|done]. by rw -(Hh _ _ H1) -(Hh _ _ H2).
Qed.

Lemma head_extends_root s r :
  fc_inv s → finalized_root s = Some r → desc (parent_map s) r (fc_head s).
Proof.
  intros [_ _ [Hh Hfl] Hroot _] Hr. apply (Hroot r Hr), flagged_iff. eauto.
Qed.

Lemma add_root s h p n w f : finalized_root (add_block s h p n w f).1 = finalized_root s.
Proof. rw /add_block. cbv zeta. by case_match. Qed.

Lemma update_root s h w : finalized_root (update_attested_weight s h w).1 = finalized_root s.
Proof. rw /update_attested_weight. destruct (scores s !! h); [|done]. cbv zeta. by repeat case_match. Qed.

Lemma root_moves_down s op r :
  fc_inv s → fc_op_ok s op → finalized_root s = Some r →
  ∃ r', finalized_root (fc_run s op) = Some r' ∧ desc (parent_map s) r r'.
Proof.
  intros Hinv Hok Hr. destruct op as [h p n w f|h w|h|n|h|]; simpl.
  - exists r. rw add_root. split; [done|apply rtc_refl].
  - exists r. rw update_root. split; [done|apply rtc_refl].
  - destruct (mark_finalized_cases s h) as [[_ ->]|[Hacc _]]; [exists r; split; [done|apply rtc_refl]|].
    exists h. split; [by apply mark_finalized_accepted|].
    destruct (proj2 Hacc r Hr) as [->|Hc]; [apply rtc_refl|by apply chain_between_desc].
  - destruct (finalized_at s n) as [f|] eqn:E.
    + exists f. split; [by apply (prune_below_spec s n f)|].
      apply finalized_at_flagged in E as (sc & Hsc & Hf & _).
      apply (fci_root s Hinv r Hr), flagged_iff. eauto.
    + rw /fc_prune_below E. exists r. split; [done|apply rtc_refl].
  - exists r. split; [|apply rtc_refl]. destruct (remove_subtree s h).2 eqn:E.
    + by rw -Hr; apply (remove_subtree_spec s h).
    + destruct (remove_subtree_cases s h) as [->|(_ & _ & _ & E')]; [done|]. by rw E' in E.
  - exists r. split; [|apply rtc_refl]. rw /recalculate_head. by destruct (max_score _) as [[]|].
Qed.

(** ** Common ancestors *)

Section ancestry.
Context (pm : gmap ShellHash ShellHash) (rank : ShellHash → nat).
Context (ranked : ∀ c p, pm !! c = Some p → p ≠ ZERO → (rank p < rank c)%nat).
Context (zero_free : pm !! ZERO = None).

Lemma desc_inv x a : desc pm x a → x = a ∨ ∃ p, pm !! a = Some p ∧ desc pm x p.
Proof. intros Hd. apply rtc_inv_r in Hd as [?|(p & ? & ?)]; eauto. Qed.

Lemma ancestors_spec fuel a :
  (rank a < fuel)%nat → a ≠ ZERO →
  ∃ l, ancestors fuel pm a = Some l ∧ ∀ y, y ∈ l ↔ y ≠ ZERO ∧ desc pm y a.
Proof using ranked zero_free.
  revert a. induction fuel as [|fuel IH]; intros a Hf Ha; [lia|]. simpl.
  assert (Hbase : (∀ p, pm !! a = Some p → p = ZERO) →
    ∀ y, y ∈ [a] ↔ y ≠ ZERO ∧ desc pm y a).
  { intros Hp y. rw list_elem_of_singleton. split.
    - intros ->. split; [done|apply rtc_refl].
    - intros [Hy [->|(p & Hpa & Hd)]%desc_inv]; [done|]. apply Hp in Hpa as ->.
      apply desc_inv in Hd as [->|(q & ? & _)]; [done|congruence]. }
  destruct (pm !! a) as [p|] eqn:Hp; [|by exists [a]; split; [|apply Hbase]].
  case_decide as Hz; [exists [a]; split; [done|]; apply Hbase; naive_solver|].
  destruct (IH p) as (l & -> & Hl); [|done|].
  { pose proof (ranked a p Hp Hz). lia. }
  exists (a :: l). split; [done|]. intros y. rw elem_of_cons Hl. split.
  - intros [->|[Hy Hd]]; [split; [done|apply rtc_refl]|]. split; [done|]. by eapply rtc_r.
  - intros [Hy [->|(q & Hq & Hd)]%desc_inv]; [by left|right]. split; [done|]. congruence.
Qed.

Lemma search_up_spec fuel seen b :
  (rank b < fuel)%nat → b ≠ ZERO →
  ∃ res, search_up fuel pm seen b = Some res ∧
    match res with
    | Some x => x ∈ seen ∧ x ≠ ZERO ∧ desc pm x b ∧
        ∀ y, y ∈ seen → y ≠ ZERO → desc pm y b → desc pm y x
    | None => ∀ y, y ∈ seen → y ≠ ZERO → ¬ desc pm y b
    end.
Proof using ranked zero_free.
  revert b. induction fuel as [|fuel IH]; intros b Hf Hb; [lia|]. simpl.
  case_decide as Hin; [exists (Some b); by split_and!; [..|apply rtc_refl|]|].
  assert (Hstop : (∀ p, pm !! b = Some p → p = ZERO) → ∀ y, y ∈ seen → y ≠ ZERO → ¬ desc pm y b).
  { intros Hp y Hy Hz [->|(p & Hpb & Hd)]%desc_inv; [done|]. apply Hp in Hpb as ->.
    apply desc_inv in Hd as [->|(q & ? & _)]; [done|congruence]. }
  destruct (pm !! b) as [p|] eqn:Hp; [|by exists None; split; [|apply Hstop]].
  case_decide as Hz; [exists None; split; [done|]; apply Hstop; naive_solver|].
  destruct (IH p) as (res & -> & Hres); [|done|].
  { pose proof (ranked b p Hp Hz). lia. }
  exists res. split; [done|]. destruct res as [x|].
  - destruct Hres as (? & ? & ? & Hlow). split_and!; [done..|by eapply rtc_r|].
    intros y Hy Hyz [->|(q & Hq & Hd)]%desc_inv; [done|]. apply Hlow; congruence.
  - intros y Hy Hyz [->|(q & Hq & Hd)]%desc_inv; [done|]. apply (Hres y); congruence.
Qed.
End ancestry.

(** ** Properties *)

(** C6: the head is the unique best block, whatever the order of events, as long
    as no update lowers the weight of the current head.  In every state reached
    that way the head is tracked and its score is the maximum of all tracked
    scores; two nodes that track the same scores have the same head, however
    they got there; and [recalculate_head] restores the maximum in any state,
    after a lowered weight too.  Blocks are registered under non-zero hashes; a
    known block may be registered again (as when a side-fork block is imported
    twice) with its parent, number and flag and, if it is the head, with no less
    weight. *)
Theorem head_is_best s s' t :
  fc_steady s → fc_steady s' → fc_reachable t →
  is_max (scores s) (fc_head s) (head_score s) ∧
  (scores s = scores s' → fc_head s = fc_head s') ∧
  is_max (scores t) (fc_head (recalculate_head t)) (head_score (recalculate_head t)).
Proof.
  intros Hs Hs' Ht. pose proof (fc_reachable_inv s (fc_steady_reachable s Hs)) as Hinv.
  split_and!; [by apply fc_steady_max| |].
  - intros E. eapply (is_max_unique (scores s)); [|by apply fc_steady_max|rw E; by apply fc_steady_max].
    intros h sc Hh. by apply (fci_hash s Hinv).
  - rw -(recalculate_scores t). apply recalculated_max.
    apply (fc_run_inv t OpRecalculate); [by apply fc_reachable_inv|done].
Qed.

(** C3: finality is never reverted.  Whatever happens next in a reachable state
    with finalized block [r] (new blocks, votes, finalizations, pruning,
    removal of invalid subtrees, weights that go up or down), there is still a
    finalized block, it is [r] or a descendant of [r], and the canonical head is
    that block or a descendant of it.  Blocks are registered under non-zero
    hashes; a known block may be registered again with its parent, number and
    flag and, if it is the head, with no less weight. *)
Theorem finality_never_reverts s op r :
  fc_reachable s → fc_op_ok s op → finalized_root s = Some r →
  ∃ r', finalized_root (fc_run s op) = Some r' ∧ desc (parent_map s) r r' ∧
    desc (parent_map (fc_run s op)) r' (fc_head (fc_run s op)).
Proof.
  intros Hs%fc_reachable_inv Hok Hr.
  destruct (root_moves_down s op r Hs Hok Hr) as (r' & Hr' & Hd).
  exists r'. split_and!; [done..|]. apply head_extends_root; [by apply fc_run_inv|done].
Qed.

(** finalizing a block flags exactly the block and its descendants.  The
    request is accepted exactly when the block is tracked and is the finalized
    block or above it in the tree; then every tracked block is flagged if and
    only if it descends from the block, the new head does, and the answer says
    whether the head changed.  Otherwise nothing changes. *)
Theorem mark_finalized_flags s h :
  fc_reachable s →
  let '(s', changed) := mark_finalized s h in
  (accepts_finalized s h →
     (∀ k, flagged s' k = true ↔ is_Some (scores s !! k) ∧ desc (parent_map s) h k) ∧
     desc (parent_map s) h (fc_head s') ∧ finalized_root s' = Some h ∧
     (changed = true ↔ fc_head s' ≠ fc_head s)) ∧
  (¬ accepts_finalized s h → s' = s ∧ changed = false).
Proof.
  intros Hs%fc_reachable_inv. destruct (mark_finalized s h) as [s' changed] eqn:E. split.
  - intros Hacc. destruct (mark_finalized_accepted s h Hs Hacc) as (Hinv & Hsc & Hpm & Hr).
    destruct (mark_finalized_cases s h) as [[? _]|(_ & _ & Hch)]; [done|].
    rw E /= in Hinv Hsc Hpm Hr Hch. destruct (subtree_total (parent_map s) h) as [_ Hsub].
    split_and!; [|rw -Hpm; by apply head_extends_root|done|].
    + intros k. rw flagged_iff Hsc refinalized_lookup -Hsub. split.
      * intros (x & (y & Hy & ->)%fmap_Some_1 & Hf). simpl in Hf. case_decide; [by eauto|done].
      * intros [[y Hy] Hk]. rw Hy decide_True //=. by eauto.
    + rw Hch negb_true_iff bool_decide_eq_false. done.
  - intros Hn. destruct (mark_finalized_cases s h) as [[_ E']|[? _]]; [|done].
    rw E in E'. by simplify_eq.
Qed.

(** Pruning and removal delete exactly one side of the tree.  Pruning at the
    height of a finalized block [f] keeps exactly the tracked descendants of [f];
    a successful removal of [root] deletes exactly the tracked descendants of
    [root], and never the finalized block; a failed one changes nothing. *)
Theorem tree_surgery_exact s n root :
  fc_reachable s →
  (∀ f, finalized_at s n = Some f →
     ∀ h, is_Some (scores (fc_prune_below s n) !! h) ↔
       (is_Some (scores s !! h) ∧ desc (parent_map s) f h)) ∧
  (let '(s', removed) := remove_subtree s root in
   if removed then
     (∀ h x, scores s' !! h = Some x ↔ scores s !! h = Some x ∧ ¬ desc (parent_map s) root h) ∧
     ∀ r, finalized_root s = Some r → is_Some (scores s' !! r)
   else s' = s).
Proof.
  intros Hs%fc_reachable_inv. split.
  - intros f Hf. by apply (prune_below_spec s n f).
  - destruct (remove_subtree s root) as [s' []] eqn:E.
    + destruct (remove_subtree_spec s root Hs) as (_ & _ & Hnr & Hsc); [by rw E|].
      rw E /= in Hsc. split; [done|]. intros r Hr.
      destruct (fci_root s Hs r Hr) as [(x & Hx & _)%flagged_iff _].
      exists x. apply Hsc. auto.
    + destruct (remove_subtree_cases s root) as [E'|(_ & _ & _ & E')]; rw E in E'; by simplify_eq.
Qed.

(** [chain_between] returns the chain from [b] (exclusive) to [a], oldest
    first.  A non-empty result is a chain of children on top of [b] that ends in
    [a] and does not contain [b]; and every such chain of at most one block more
    than are tracked is found. *)
Theorem chain_between_exact s a b l :
  l ≠ [] → (length l <= size (parent_map s) + 1)%nat →
  (chain_between s a b = l ↔ linked (parent_map s) b l ∧ last l = Some a ∧ b ∉ l).
Proof.
  intros Hne Hlen. rw /chain_between.
  assert (Hrev : ∀ k : list ShellHash, k ≠ [] → reverse (unwrap_or []
    (walk_up (size (parent_map s) + 1) (parent_map s) a b)) = k ↔
    walk_up (size (parent_map s) + 1) (parent_map s) a b = Some (reverse k)).
  { intros k Hk. destruct (walk_up _ _ _ _) as [w|]; simpl.
    - split; [by intros <-; rw reverse_involutive|by intros [= ->]; rw reverse_involutive].
    - split; [by intros <-|done]. }
  rw Hrev // walk_up_spec reverse_involutive length_reverse elem_of_reverse.
  destruct (last l) as [x|] eqn:El; [|by apply last_None in El]. simpl. naive_solver.
Qed.

(** [find_common_ancestor] returns the lowest common ancestor.  In a state
    whose parents have smaller rank than their children (block numbers do), the
    two walks end within the ranks of [a] and [b], and the answer is a common
    ancestor that descends from every other one, or that there is none. *)
Theorem common_ancestor_lowest s rank a b :
  fc_reachable s → a ≠ ZERO → b ≠ ZERO →
  (∀ c p, parent_map s !! c = Some p → p ≠ ZERO → (rank p < rank c)%nat) →
  ∃ res, find_common_ancestor (S (rank a + rank b)) s a b = Some res ∧
    match res with
    | Some x => desc (parent_map s) x a ∧ desc (parent_map s) x b ∧
        ∀ y, y ≠ ZERO → desc (parent_map s) y a → desc (parent_map s) y b → desc (parent_map s) y x
    | None => ∀ y, y ≠ ZERO → desc (parent_map s) y a → ¬ desc (parent_map s) y b
    end.
Proof.
  intros Hs%fc_reachable_inv Ha Hb Hrank. destruct (fci_base s Hs) as [Hz _].
  destruct (ancestors_spec _ rank Hrank Hz (S (rank a + rank b)) a) as (la & Hla & Hin); [lia|done|].
  destruct (search_up_spec _ rank Hrank Hz (S (rank a + rank b)) la b) as (res & Hres & Hspec); [lia|done|].
  exists res. rw /find_common_ancestor Hla. split; [exact Hres|]. destruct res as [x|].
  - destruct Hspec as ((Hxz & Hxa)%Hin & _ & Hxb & Hlow). split_and!; [done..|].
    intros y Hy Hya Hyb. apply Hlow; [by apply Hin|done..].
  - intros y Hy Hya. apply Hspec; [by apply Hin|done].
Qed.

(** ** Sample tree: 1 with children 2 and 4, and 3 on top of 2 *)

Definition f_hash (n : Z) : ShellHash := b256_of_Z n.
Definition f_tree : ForkChoice :=
  foldl fc_run (fork_choice_new (f_hash 1))
    [OpAddBlock (f_hash 2) (f_hash 1) 1 0 false; OpAddBlock (f_hash 3) (f_hash 2) 2 0 false;
     OpAddBlock (f_hash 4) (f_hash 1) 1 5 false].
Definition f_final : ForkChoice := fc_run f_tree (OpMarkFinalized (f_hash 2)).

Lemma f_ne a b : a mod (u256_max + 1) <> b mod (u256_max + 1) → f_hash a ≠ f_hash b.
Proof. intros Hne E. apply Hne. exact (f_equal b256_unsigned E). Qed.

Lemma f_tree_steady : fc_steady f_tree.
Proof.
  apply fc_steady_step; [apply fc_steady_step; [apply fc_steady_step; [apply fc_steady_new|..]|..]|..];
    try done; try (split; [|by left; vm_compute]); by apply (f_ne _ 0).
Qed.

Lemma f_tree_reachable : fc_reachable f_tree.
Proof. apply fc_steady_reachable, f_tree_steady. Qed.

Lemma f_final_reachable : fc_reachable f_final.
Proof. by apply fc_reach_step; [apply f_tree_reachable|]. Qed.

Lemma f_final_root : finalized_root f_final = Some (f_hash 2).
Proof.
  assert (Hb : bool_decide (finalized_root f_final = Some (f_hash 2)) = true) by (by vm_compute).
  by apply bool_decide_eq_true in Hb.
Qed.

Lemma head_is_best_witness : is_max (scores f_tree) (fc_head f_tree) (head_score f_tree).
Proof.
  exact (proj1 (head_is_best f_tree f_tree f_tree f_tree_steady f_tree_steady f_tree_reachable)).
Defined.

(** The bound on C6 is needed: lowering the head's weight leaves it the head,
    below a sibling. *)
Lemma lowered_head_not_best :
  let t := fc_run (fc_run f_tree (OpUpdateWeight (f_hash 2) 3)) (OpUpdateWeight (f_hash 4) 1) in
  fc_reachable t ∧ ¬ is_max (scores t) (fc_head t) (head_score t).
Proof.
  set t := fc_run _ _. split.
  - apply fc_reach_step; [apply fc_reach_step; [apply f_tree_reachable|done]|done].
  - intros [_ Hmax].
    destruct (scores t !! f_hash 2) as [sc|] eqn:E.
    + apply Hmax in E as Hle. revert Hle. rw /score_le.
      assert (Hb : (match scores t !! f_hash 2 with
                    | Some sc => match score_cmp sc (head_score t) with Gt => true | _ => false end
                    | None => false end) = true) by (by vm_compute).
      rw E in Hb. by destruct (score_cmp sc (head_score t)).
    + assert (Hb : bool_decide (scores t !! f_hash 2 = None) = false) by (by vm_compute).
      by apply bool_decide_eq_false in Hb.
Qed.

Lemma finality_never_reverts_witness :
  ∃ r', finalized_root (fc_run f_final (OpUpdateWeight (f_hash 4) 1000)) = Some r' ∧
    desc (parent_map f_final) (f_hash 2) r'.
Proof.
  destruct (finality_never_reverts f_final (OpUpdateWeight (f_hash 4) 1000) (f_hash 2)
    f_final_reachable I f_final_root) as (r' & H1 & H2 & _).
  exact (ex_intro _ r' (conj H1 H2)).
Defined.

Lemma mark_finalized_flags_witness :
  desc (parent_map f_tree) (f_hash 2) (fc_head (mark_finalized f_tree (f_hash 2)).1).
Proof.
  pose proof (mark_finalized_flags f_tree (f_hash 2) f_tree_reachable) as H.
  destruct (mark_finalized f_tree (f_hash 2)) as [s' changed]. destruct H as [H _].
  apply H. split; [|by intros r Hr; vm_compute in Hr].
  assert (Hb : bool_decide (is_Some (scores f_tree !! f_hash 2)) = true) by (by vm_compute).
  by apply bool_decide_eq_true in Hb.
Defined.

Lemma tree_surgery_exact_witness :
  is_Some (scores (remove_subtree f_final (f_hash 4)).1 !! f_hash 2).
Proof.
  destruct (tree_surgery_exact f_final 1 (f_hash 4) f_final_reachable) as [_ H].
  destruct (remove_subtree f_final (f_hash 4)) as [s' removed] eqn:E.
  assert (Hb : (remove_subtree f_final (f_hash 4)).2 = true) by (by vm_compute).
  rw E /= in Hb. subst removed. apply H, f_final_root.
Defined.

Lemma chain_between_exact_witness :
  chain_between f_tree (f_hash 3) (f_hash 1) = [f_hash 2; f_hash 3].
Proof.
  apply (chain_between_exact f_tree (f_hash 3) (f_hash 1) [f_hash 2; f_hash 3]); [done|by vm_compute; lia|].
  assert (Hl : ∀ c p, bool_decide (parent_map f_tree !! f_hash c = Some (f_hash p)) = true →
    parent_map f_tree !! f_hash c = Some (f_hash p)) by (intros c p; apply bool_decide_eq_true).
  split_and!; [cbn [linked]; split_and!; [by apply Hl; vm_compute..|done]|done|].
  rw !not_elem_of_cons. by split_and!; [apply f_ne|apply f_ne|apply not_elem_of_nil].
Defined.

(** The tree's block numbers as ranks. *)
Definition f_rank (h : ShellHash) : nat :=
  match scores f_tree !! h with Some sc => S (Z.to_nat (score_number sc)) | None => 0%nat end.

Lemma common_ancestor_lowest_witness :
  ∃ res, find_common_ancestor 6 f_tree (f_hash 3) (f_hash 4) = Some res.
Proof.
  destruct (common_ancestor_lowest f_tree f_rank (f_hash 3) (f_hash 4) f_tree_reachable)
    as (res & H & _); [by apply (f_ne _ 0)|by apply (f_ne _ 0)| |exists res; exact H].
  intros c p Hc Hp.
  assert (Hall : map_Forall (λ c p, p = ZERO ∨ (f_rank p < f_rank c)%nat) (parent_map f_tree)).
  { apply (bool_decide_unpack _). by vm_compute. }
  by destruct (Hall c p Hc).
Defined.
