(* ===== verification/Slashing.v ===== *)
(** * Slashing evidence

    crates/consensus/src/slashing.rs: equivocation proofs, their construction
    from blocks and from slash records, their verification, and the detectors of
    double signing and of offline validators. *)

From S2P Require Import Prelude Primitives Block.

Record EquivocationProof := MkEquivocationProof {
  offender : Address;
  header_a : BlockHeader;
  header_b : BlockHeader;
  hash_a : ShellHash;
  hash_b : ShellHash;
  seal_a : option PQSignature;
  seal_b : option PQSignature;
}.

Inductive SlashType := DoubleSign | Offline.

Inductive SlashEvidence :=
| DoubleSignEvidence (ha hb : BlockHeader)
| OfflineEvidence (last_block current_block : Z).

Record SlashRecord := MkSlashRecord {
  slash_validator : Address;
  slash_type : SlashType;
  slash_block_number : Z;
  evidence : SlashEvidence;
}.

Record SlashingConfig := MkSlashingConfig {
  double_sign_slash_bps : Z;
  offline_slash_bps : Z;
  offline_window_blocks : Z;
}.

Definition SlashingConfig_default : SlashingConfig := MkSlashingConfig 1000 100 50.

Definition slashing_validate (c : SlashingConfig) : result unit string :=
  if 10000 <? double_sign_slash_bps c then Err "double_sign_slash_bps > 10000"
  else if 10000 <? offline_slash_bps c then Err "offline_slash_bps > 10000"
  else Ok tt.

Definition detect_offline (validator : Address) (last_proposed current : Z) (c : SlashingConfig) :
    option SlashRecord :=
  if current <=? last_proposed then None
  else if sat_sub current last_proposed <=? offline_window_blocks c then None
  else Some (MkSlashRecord validator Offline current (OfflineEvidence last_proposed current)).

Section evidence.
Context `{Hashes}.

Definition from_slash_record (r : SlashRecord) : option EquivocationProof :=
  match evidence r with
  | DoubleSignEvidence ha hb =>
      if decide (header_hash ha = header_hash hb) then None
      else Some (MkEquivocationProof (slash_validator r) ha hb (header_hash ha) (header_hash hb)
                   None None)
  | OfflineEvidence _ _ => None
  end.

Definition from_blocks (a b : Block) : option EquivocationProof :=
  sa ← proposer_seal a;
  sb ← proposer_seal b;
  if negb (number (header a) =? number (header b))
     || negb (bool_decide (proposer (header a) = proposer (header b)))
     || bool_decide (header_hash (header a) = header_hash (header b))
  then None
  else Some (MkEquivocationProof (proposer (header a)) (header a) (header b)
               (header_hash (header a)) (header_hash (header b)) (Some sa) (Some sb)).

Definition verify_proof (p : EquivocationProof) : bool :=
  if negb (number (header_a p) =? number (header_b p)) then false
  else if negb (bool_decide (proposer (header_a p) = offender p))
          || negb (bool_decide (proposer (header_b p) = offender p)) then false
  else bool_decide (header_hash (header_a p) = hash_a p)
       && bool_decide (header_hash (header_b p) = hash_b p)
       && negb (bool_decide (hash_a p = hash_b p)).

Definition verify_signed (p : EquivocationProof) (pubkey : list Z) (v : Verifier) : bool :=
  if negb (verify_proof p) then false
  else
    match seal_a p, seal_b p with
    | Some sa, Some sb =>
        if sig_is_empty sa || sig_is_empty sb then false
        else
          match verify v pubkey (as_bytes (hash_a p)) sa with
          | Err _ => false
          | Ok valid_a =>
              if negb valid_a then false
              else match verify v pubkey (as_bytes (hash_b p)) sb with
                   | Ok valid_b => valid_b
                   | Err _ => false
                   end
          end
    | _, _ => false
    end.

Definition detect_double_sign (h1 h2 : BlockHeader) : option SlashRecord :=
  if negb (number h1 =? number h2) then None
  else if negb (bool_decide (proposer h1 = proposer h2)) then None
  else if decide (header_hash h1 = header_hash h2) then None
  else Some (MkSlashRecord (proposer h1) DoubleSign (number h1) (DoubleSignEvidence h1 h2)).

(** ** Lemmas *)

(** Two headers of one proposer at one height with different hashes. *)
Definition conflicting (h1 h2 : BlockHeader) : Prop :=
  number h1 = number h2 ∧ proposer h1 = proposer h2 ∧ header_hash h1 ≠ header_hash h2.

Lemma verify_proof_iff p :
  (verify_proof p = true) ↔
  (conflicting (header_a p) (header_b p) ∧ proposer (header_a p) = offender p ∧
   hash_a p = header_hash (header_a p) ∧ hash_b p = header_hash (header_b p)).
Proof.
  rw /verify_proof /conflicting. destruct (number _ =? number _) eqn:E; simpl;
    [apply Z.eqb_eq in E|apply Z.eqb_neq in E; naive_solver].
  repeat case_bool_decide; simpl; naive_solver congruence.
Qed.

Lemma verify_signed_iff p pk v :
  (verify_signed p pk v = true) ↔
  (verify_proof p = true ∧ ∃ sa sb, seal_a p = Some sa ∧ seal_b p = Some sb ∧
    sig_is_empty sa = false ∧ sig_is_empty sb = false ∧
    verify v pk (as_bytes (hash_a p)) sa = Ok true ∧
    verify v pk (as_bytes (hash_b p)) sb = Ok true).
Proof.
  rw /verify_signed. destruct (verify_proof p); simpl; [|naive_solver].
  destruct (seal_a p) as [sa|]; [|naive_solver]. destruct (seal_b p) as [sb|]; [|naive_solver].
  transitivity (sig_is_empty sa = false ∧ sig_is_empty sb = false ∧
    verify v pk (as_bytes (hash_a p)) sa = Ok true ∧
    verify v pk (as_bytes (hash_b p)) sb = Ok true).
  - destruct (sig_is_empty sa); simpl; [by split; [|intros (? & _)]|].
    destruct (sig_is_empty sb); simpl; [by split; [|intros (_ & ? & _)]|].
    destruct (verify v pk _ sa) as [[]|]; simpl; [|by split; [|intros (_ & _ & ? & _)]..].
    destruct (verify v pk _ sb) as [[]|]; [by split|by split; [|intros (_ & _ & _ & ?)]..].
  - split; [intros (? & ? & ? & ?); split; [done|]; by exists sa, sb|].
    intros (_ & sa' & sb' & [= <-] & [= <-] & ? & ? & ? & ?). done.
Qed.
End evidence.

(** ** Properties *)

(** Double-sign detection is exact and produces verifiable evidence.  The
    detector fires exactly on two headers of one proposer at one height with
    different hashes; it then names that proposer and height, and the proof
    built from its record passes verification. *)
Theorem detect_double_sign_exact `{Hashes} h1 h2 :
  (is_Some (detect_double_sign h1 h2) ↔ conflicting h1 h2) ∧
  (conflicting h1 h2 →
   ∃ r p, detect_double_sign h1 h2 = Some r ∧ slash_validator r = proposer h1 ∧
     slash_block_number r = number h1 ∧ from_slash_record r = Some p ∧ verify_proof p = true).
Proof.
  rw /detect_double_sign.
  assert (Hyes : conflicting h1 h2 → (if negb (number h1 =? number h2) then None
    else if negb (bool_decide (proposer h1 = proposer h2)) then None
    else if decide (header_hash h1 = header_hash h2) then None
    else Some (MkSlashRecord (proposer h1) DoubleSign (number h1) (DoubleSignEvidence h1 h2)))
    = Some (MkSlashRecord (proposer h1) DoubleSign (number h1) (DoubleSignEvidence h1 h2))).
  { intros (Hn & Hp & Hh). by rw Hn Z.eqb_refl bool_decide_true //= decide_False. }
  split.
  - split; [|intros Hc; by rw Hyes].
    destruct (number h1 =? number h2) eqn:E; simpl; [apply Z.eqb_eq in E|by intros []].
    case_bool_decide; simpl; [|by intros []]. case_decide; [by intros []|]. done.
  - intros Hc. eexists _, _. split_and!; [by apply Hyes|done|done| |].
    + rw /from_slash_record /= decide_False //. by apply Hc.
    + apply verify_proof_iff. split_and!; [done..|]. simpl. by destruct Hc.
Qed.

(** C25: an honest validator cannot be framed.  Assume a signature verifies only
    on messages the validator signed, and that the validator never signed two
    different header hashes for one height: then no equivocation proof against
    it passes [verify_signed], whatever headers, hashes and seals it carries. *)
Theorem honest_never_framed `{Hashes} (p : EquivocationProof) pk v (signed : list Z → Prop) :
  (∀ msg sig, verify v pk msg sig = Ok true → signed msg) →
  (∀ h1 h2, signed (as_bytes (header_hash h1)) → signed (as_bytes (header_hash h2)) →
     number h1 = number h2 → header_hash h1 = header_hash h2) →
  verify_signed p pk v = false.
Proof.
  intros Hunf Hhonest. destruct (verify_signed p pk v) eqn:E; [|done].
  apply verify_signed_iff in E as (((Hn & _ & Hh) & _ & Ha & Hb)%verify_proof_iff &
    sa & sb & _ & _ & _ & _ & Hsa & Hsb).
  rw Ha in Hsa. rw Hb in Hsb. destruct Hh. by eapply Hhonest; eauto.
Qed.

(** Evidence from two sealed blocks convicts.  If one signer sealed two
    conflicting blocks with non-empty seals, [from_blocks] builds a proof that
    names their proposer and passes [verify_signed] under the signer's key. *)
Theorem sealed_conflict_convicts `{Hashes} (a b : Block) s v sa sb :
  signer_verifies s v → conflicting (header a) (header b) →
  proposer_seal a = Some sa → sign s (as_bytes (header_hash (header a))) = Ok sa →
  proposer_seal b = Some sb → sign s (as_bytes (header_hash (header b))) = Ok sb →
  sig_is_empty sa = false → sig_is_empty sb = false →
  ∃ p, from_blocks a b = Some p ∧ offender p = proposer (header a) ∧
    verify_signed p (public_key s) v = true.
Proof.
  intros Hv Hc Ha Hsa Hb Hsb Hea Heb. destruct Hc as (Hn & Hp & Hh).
  rw /from_blocks Ha Hb /= Hn Z.eqb_refl (bool_decide_true _ Hp) (bool_decide_false _ Hh) /=.
  eexists. split_and!; [done..|]. apply verify_signed_iff. split; [by apply verify_proof_iff|].
  exists sa, sb. split_and!; [done..|by apply Hv|by apply Hv].
Qed.

(** The offline detector fires exactly when more than the configured number
    of blocks passed since the validator's last block. *)
Theorem detect_offline_exact validator last cur c :
  0 <= last → 0 <= offline_window_blocks c →
  (is_Some (detect_offline validator last cur c) ↔ offline_window_blocks c < cur - last).
Proof.
  intros Hl Hw. rw /detect_offline. destruct (cur <=? last) eqn:E1.
  { apply Z.leb_le in E1. split; [by intros []|lia]. }
  apply Z.leb_gt in E1. destruct (_ <=? offline_window_blocks c) eqn:E2.
  - apply Z.leb_le in E2. split; [by intros []|int_lia].
  - apply Z.leb_gt in E2. split; [int_lia|by eexists].
Qed.

(** ** Sample evidence *)

#[local] Existing Instance toy_hashes.

Definition e_header (ts : Z) : BlockHeader := sample_header 4 ts (b256_of_Z 7).
Definition e_block (ts : Z) : Block :=
  {| header := e_header ts;
     proposer_seal := Some (MkPQSignature Dilithium3 (as_bytes (header_hash (e_header ts)))) |}.

Lemma e_conflicting : conflicting (e_header 1) (e_header 2).
Proof.
  assert (Hb : bool_decide (header_hash (e_header 1) = header_hash (e_header 2)) = false)
    by (by vm_compute).
  refine (conj eq_refl (conj eq_refl _)). exact (proj1 (bool_decide_eq_false _) Hb).
Qed.

Lemma sealed_conflict_convicts_witness :
  ∃ p, from_blocks (e_block 1) (e_block 2) = Some p ∧ offender p = b256_of_Z 7 ∧
    verify_signed p (public_key toy_signer) toy_verifier = true.
Proof.
  exact (sealed_conflict_convicts (e_block 1) (e_block 2) toy_signer toy_verifier _ _
    toy_signer_verifies e_conflicting eq_refl eq_refl eq_refl eq_refl eq_refl eq_refl).
Defined.

(** A validator that signed one header only. *)
Definition e_signed (msg : list Z) : Prop := msg = as_bytes (header_hash (sample_header 4 1 ZERO)).
Definition e_verifier : Verifier :=
  {| verify pk msg sig := Ok (bool_decide (msg = as_bytes (header_hash (sample_header 4 1 ZERO))));
     verifier_sig_type := Dilithium3 |}.

Lemma honest_never_framed_witness :
  verify_signed (MkEquivocationProof ZERO (sample_header 4 1 ZERO) (sample_header 4 2 ZERO)
    (header_hash (sample_header 4 1 ZERO)) (header_hash (sample_header 4 2 ZERO)) None None)
    [] e_verifier = false.
Proof.
  apply (honest_never_framed _ [] e_verifier e_signed).
  - intros msg sig E. injection E as E. by apply bool_decide_eq_true in E.
  - intros h1 h2 H1 H2 _. unfold e_signed in H1, H2. apply as_bytes_inj. congruence.
Defined.

Lemma detect_offline_exact_witness :
  is_Some (detect_offline (b256_of_Z 7) 10 61 SlashingConfig_default).
Proof. by apply (detect_offline_exact (b256_of_Z 7) 10 61 SlashingConfig_default). Defined.
