(* ===== verification/Window.v ===== *)
(** * Proof windows

    crates/consensus/src/window.rs: exclusive claims on the right to prove a
    block, their expiry, and the count of expired claims per prover. *)

From S2P Require Import Prelude Primitives.

Record WindowConfig := MkWindowConfig {
  window_size_blocks : Z;
  claim_timeout_blocks : Z;
  max_expired_claims : Z;
}.
Definition WindowConfig_default : WindowConfig := MkWindowConfig 100 20 3.

Inductive WindowState :=
| Unclaimed
| Claimed (claimer : Address) (claimed_at_block expires_at_block : Z)
| Fulfilled (prover : Address)
| Expired.

#[global] Instance WindowState_eq_dec : EqDecision WindowState.
Proof. solve_decision. Defined.

Inductive WindowError :=
| AlreadyClaimed (block_number : Z) (claimer : Address)
| AlreadyFulfilled (block_number : Z)
| WindowExpired (block_number : Z)
| NotClaimer (block_number : Z) (expected got : Address)
| NotClaimed (block_number : Z).

Record ProofWindowManager := MkProofWindowManager {
  win_config : WindowConfig;
  windows : gmap Z WindowState;
  expired_claims : gmap Address Z;
}.

Definition window_new (c : WindowConfig) : ProofWindowManager := MkProofWindowManager c ∅ ∅.

Definition increment_expired_claim (ec : gmap Address Z) (p : Address) : gmap Address Z :=
  <[p := Z.min (unwrap_or 0 (ec !! p) + 1) u32_max]> ec.

Definition set_window (m : ProofWindowManager) (n : Z) (st : WindowState) : ProofWindowManager :=
  MkProofWindowManager (win_config m) (<[n := st]> (windows m)) (expired_claims m).
Definition count_expired (m : ProofWindowManager) (p : Address) : ProofWindowManager :=
  MkProofWindowManager (win_config m) (windows m) (increment_expired_claim (expired_claims m) p).

(** A fresh claim made at [current]. *)
Definition new_claim (m : ProofWindowManager) (claimer : Address) (current : Z) : WindowState :=
  Claimed claimer current (sat_add current (claim_timeout_blocks (win_config m))).

Definition claim (m : ProofWindowManager) (n : Z) (claimer : Address) (current : Z) :
    ProofWindowManager * result unit WindowError :=
  if sat_add n (window_size_blocks (win_config m)) <? current
  then (set_window m n Expired, Err (WindowExpired n))
  else
    match windows m !! n with
    | None | Some Unclaimed => (set_window m n (new_claim m claimer current), Ok tt)
    | Some (Claimed existing _ expires) =>
        if expires <=? current then
          (set_window (count_expired m existing) n (new_claim m claimer current), Ok tt)
        else (m, Err (AlreadyClaimed n existing))
    | Some (Fulfilled _) => (m, Err (AlreadyFulfilled n))
    | Some Expired => (m, Err (WindowExpired n))
    end.

Definition fulfill (m : ProofWindowManager) (n : Z) (prover : Address) (current : Z) :
    ProofWindowManager * result unit WindowError :=
  match windows m !! n with
  | Some (Claimed claimer _ expires) =>
      if decide (claimer = prover) then
        if expires <? current then
          (set_window (count_expired m prover) n Expired, Err (WindowExpired n))
        else (set_window m n (Fulfilled prover), Ok tt)
      else (m, Err (NotClaimer n claimer prover))
  | Some (Fulfilled _) => (m, Err (AlreadyFulfilled n))
  | None | Some Unclaimed => (m, Err (NotClaimed n))
  | Some Expired => (m, Err (WindowExpired n))
  end.

Definition window_state (m : ProofWindowManager) (n : Z) : WindowState :=
  unwrap_or Unclaimed (windows m !! n).

Definition expired_claim_count (m : ProofWindowManager) (p : Address) : Z :=
  unwrap_or 0 (expired_claims m !! p).

Definition is_unreliable (m : ProofWindowManager) (p : Address) : bool :=
  max_expired_claims (win_config m) <=? expired_claim_count m p.

(** The claimer of a claim that has run out at [current]. *)
Definition stale_claimer (current : Z) (st : WindowState) : option Address :=
  match st with
  | Claimed claimer _ expires => if expires <? current then Some claimer else None
  | _ => None
  end.

(** The second loop of the source changes nothing. *)
Definition advance (m : ProofWindowManager) (current : Z) : ProofWindowManager :=
  MkProofWindowManager (win_config m)
    ((λ st, match stale_claimer current st with Some _ => Expired | None => st end) <$> windows m)
    (foldl increment_expired_claim (expired_claims m)
       (omap (λ p, stale_claimer current p.2) (map_to_list (windows m)))).

Definition gc (m : ProofWindowManager) (current : Z) : ProofWindowManager :=
  let cutoff := sat_sub current (sat_add (window_size_blocks (win_config m)) 10) in
  MkProofWindowManager (win_config m) (filter (λ p, cutoff < p.1) (windows m)) (expired_claims m).

(** ** Traces *)

Inductive win_op :=
| OpClaim (n : Z) (claimer : Address) (current : Z)
| OpFulfill (n : Z) (prover : Address) (current : Z)
| OpAdvance (current : Z)
| OpGc (current : Z).

Definition win_run (m : ProofWindowManager) (op : win_op) : ProofWindowManager :=
  match op with
  | OpClaim n a c => (claim m n a c).1
  | OpFulfill n a c => (fulfill m n a c).1
  | OpAdvance c => advance m c
  | OpGc c => gc m c
  end.

(** The claim was made inside the window, at [at_], by an operation of [tr]. *)
Definition claimed_in (cfg : WindowConfig) (tr : list win_op) (n : Z) (p : Address) (at_ : Z) : Prop :=
  OpClaim n p at_ ∈ tr ∧ at_ <= sat_add n (window_size_blocks cfg).

Definition state_ok (cfg : WindowConfig) (tr : list win_op) (n : Z) (st : WindowState) : Prop :=
  match st with
  | Claimed p at_ expires =>
      claimed_in cfg tr n p at_ ∧ expires = sat_add at_ (claim_timeout_blocks cfg)
  | Fulfilled p => ∃ at_ c, claimed_in cfg tr n p at_ ∧ OpFulfill n p c ∈ tr ∧
      c <= sat_add at_ (claim_timeout_blocks cfg)
  | _ => True
  end.

Definition win_ok (cfg : WindowConfig) (tr : list win_op) (m : ProofWindowManager) : Prop :=
  win_config m = cfg ∧ ∀ n st, windows m !! n = Some st → state_ok cfg tr n st.

Lemma state_ok_mono cfg tr op n st : state_ok cfg tr n st → state_ok cfg (tr ++ [op]) n st.
Proof.
  rw /state_ok /claimed_in. destruct st; try done; [set_solver|].
  intros (at_ & c & [? ?] & ? & ?). exists at_, c. set_solver.
Qed.

Lemma win_ok_mono cfg tr op m : win_ok cfg tr m → win_ok cfg (tr ++ [op]) m.
Proof. intros [? Hst]. split; [done|]. intros n st Hn. by apply state_ok_mono, Hst. Qed.

Lemma set_window_ok cfg tr m n st :
  win_ok cfg tr m → state_ok cfg tr n st → win_ok cfg tr (set_window m n st).
Proof.
  intros [? Hst] Hn. split; [done|]. simpl.
  intros k x [[<- <-]|[_ Hk]]%lookup_insert_Some; [done|by apply Hst].
Qed.

Lemma count_expired_ok cfg tr m p : win_ok cfg tr m → win_ok cfg tr (count_expired m p).
Proof. done. Qed.

Lemma win_run_ok cfg tr m op : win_ok cfg tr m → win_ok cfg (tr ++ [op]) (win_run m op).
Proof.
  intros Hm. pose proof (win_ok_mono cfg tr op m Hm) as Hm'. destruct Hm as [Hcfg Hst].
  assert (Hop : op ∈ tr ++ [op]) by set_solver.
  destruct op as [n p c|n p c|c|c]; simpl.
  - rw /claim Hcfg. destruct (_ <? c) eqn:Hw; [by apply set_window_ok|]. apply Z.ltb_ge in Hw.
    assert (Hnew : state_ok cfg (tr ++ [OpClaim n p c]) n (new_claim m p c)).
    { rw /new_claim Hcfg. by split_and!. }
    destruct (windows m !! n) as [[|e a x|e|]|]; try done; [by apply set_window_ok| |by apply set_window_ok].
    destruct (x <=? c); [|done]. apply set_window_ok; [by apply count_expired_ok|done].
  - rw /fulfill. destruct (windows m !! n) as [[|e a x|e|]|] eqn:Hn; try done.
    case_decide as He; [subst e|done].
    destruct (x <? c) eqn:Hx; [apply set_window_ok; [by apply count_expired_ok|done]|].
    apply set_window_ok; [done|]. apply Z.ltb_ge in Hx.
    destruct Hm' as [_ Hst']. apply Hst' in Hn as [Hc ->]. by exists a, c.
  - split; [done|]. simpl. intros n st. rw lookup_fmap. intros (st0 & Hn & ->)%fmap_Some_1.
    destruct (stale_claimer c st0); [done|]. by apply Hm'.
  - split; [done|]. simpl. intros n st [Hn _]%map_lookup_filter_Some. by apply Hm'.
Qed.

Lemma win_runs_ok cfg tr : win_ok cfg tr (foldl win_run (window_new cfg) tr).
Proof.
  induction tr as [|op tr IH] using rev_ind; [by split|]. rw foldl_app. by apply win_run_ok.
Qed.

(** ** Counting expired claims *)

Lemma increments_count ec l p :
  0 <= unwrap_or 0 (ec !! p) <= u32_max →
  unwrap_or 0 (foldl increment_expired_claim ec l !! p)
    = Z.min (unwrap_or 0 (ec !! p) + Z.of_nat (length (filter (λ q, q = p) l))) u32_max.
Proof.
  revert ec. induction l as [|q l IH]; intros ec Hr; simpl; [lia|].
  rw filter_cons. destruct (decide (q = p)) as [->|Hne].
  - rw IH /increment_expired_claim lookup_insert_eq /=; [unfold u32_max in *; lia|].
    simpl. unfold u32_max in *. lia.
  - rw IH /increment_expired_claim lookup_insert_ne //.
Qed.

(** ** Properties *)

(** C35: a proof is accepted only from the prover who holds the claim, and at the
    latest one window plus one claim timeout after the block, which is reached.
    Whatever sequence of claims, fulfilments, block imports and collections a
    manager processes, a window recorded as fulfilled by [p] was claimed by [p]
    at block [n + window] or before and fulfilled by [p] within the timeout of
    that claim.  Both bounds are exact: whenever they are [u64] values, a new
    manager grants a claim at [n + window] and accepts its proof at [n + window +
    timeout].  This is later than the module documentation says, which has
    proofs only before [n + window] and rejects them after the window closes. *)
Theorem fulfilled_in_time cfg :
  0 <= window_size_blocks cfg → 0 <= claim_timeout_blocks cfg →
  (∀ tr n p, window_state (foldl win_run (window_new cfg) tr) n = Fulfilled p →
     ∃ at_ c, OpClaim n p at_ ∈ tr ∧ OpFulfill n p c ∈ tr ∧
       at_ <= sat_add n (window_size_blocks cfg) ∧
       c <= sat_add at_ (claim_timeout_blocks cfg) ∧
       c <= n + window_size_blocks cfg + claim_timeout_blocks cfg) ∧
  (∀ n p, n + window_size_blocks cfg + claim_timeout_blocks cfg <= u64_max →
     window_state (foldl win_run (window_new cfg)
       [OpClaim n p (n + window_size_blocks cfg);
        OpFulfill n p (n + window_size_blocks cfg + claim_timeout_blocks cfg)]) n = Fulfilled p).
Proof.
  intros Hw Ht. split.
  - intros tr n p. rw /window_state. destruct (windows _ !! n) as [st|] eqn:Hn; [|done]. simpl. intros ->.
    destruct (win_runs_ok cfg tr) as [_ Hst]. apply Hst in Hn as (at_ & c & [? ?] & ? & ?).
    exists at_, c. split_and!; [done..|]. unfold sat_add in *. lia.
  - intros n p Hm. assert (E1 : sat_add n (window_size_blocks cfg) = n + window_size_blocks cfg) by (unfold sat_add; lia).
    assert (E2 : sat_add (n + window_size_blocks cfg) (claim_timeout_blocks cfg) =
      n + window_size_blocks cfg + claim_timeout_blocks cfg) by (unfold sat_add; lia).
    cbn [foldl win_run]. rw /claim /= E1 Z.ltb_irrefl lookup_empty /= /new_claim /= E2.
    by rw /fulfill /= lookup_insert_eq decide_True // Z.ltb_irrefl /window_state /= lookup_insert_eq.
Qed.

(** A claim is exclusive until it runs out.  In a manager, claiming an open
    window that somebody holds fails and changes nothing before the expiry
    block; from the expiry block on it succeeds, hands the window over with a
    fresh expiry and adds one expired claim to the previous holder. *)
Theorem claim_exclusive m n p at_ expires q cur :
  windows m !! n = Some (Claimed p at_ expires) →
  cur <= sat_add n (window_size_blocks (win_config m)) →
  (cur < expires → claim m n q cur = (m, Err (AlreadyClaimed n p))) ∧
  (expires <= cur → 0 <= expired_claim_count m p < u32_max →
     let '(m', r) := claim m n q cur in
     r = Ok tt ∧ window_state m' n = new_claim m q cur ∧
     expired_claim_count m' p = expired_claim_count m p + 1 ∧
     ∀ k, k ≠ n → windows m' !! k = windows m !! k).
Proof.
  intros Hn Hw. rw /claim (proj2 (Z.ltb_ge _ _)) // Hn. split.
  - intros Hlt. by rw (proj2 (Z.leb_gt _ _)).
  - intros Hge Hc. rw (proj2 (Z.leb_le _ _)) //. split_and!; [done| | |].
    + by rw /window_state /= lookup_insert_eq.
    + rw /expired_claim_count /= /increment_expired_claim lookup_insert_eq /=.
      rw /expired_claim_count in Hc. lia.
    + intros k Hk. by rw /= lookup_insert_ne.
Qed.

(** Importing a block expires exactly the claims that have run out and
    charges exactly their holders: every other window is untouched, and a
    prover's count grows by the number of its stale claims (capped at [u32]). *)
Theorem advance_exact m cur n p :
  0 <= expired_claim_count m p <= u32_max →
  window_state (advance m cur) n =
    match stale_claimer cur (window_state m n) with Some _ => Expired | None => window_state m n end ∧
  expired_claim_count (advance m cur) p =
    Z.min (expired_claim_count m p + Z.of_nat (length (filter (λ q, q = p)
      (omap (λ w, stale_claimer cur w.2) (map_to_list (windows m)))))) u32_max.
Proof.
  intros Hr. split; [|by apply increments_count].
  rw /window_state /= lookup_fmap. by destruct (windows m !! n).
Qed.

(** Collection never reopens a window.  A window of a block other than
    genesis that [gc] drops at block [cur] cannot be claimed again at [cur] or
    any later block. *)
Theorem gc_never_reopens m cur n later p :
  0 < n → 0 <= window_size_blocks (win_config m) → n + window_size_blocks (win_config m) <= u64_max →
  is_Some (windows m !! n) → windows (gc m cur) !! n = None → cur <= later →
  (claim (gc m cur) n p later).2 = Err (WindowExpired n).
Proof.
  intros Hn Hw Hmax [st Hst] Hgc Hlater.
  apply map_lookup_filter_None in Hgc as [Hgc|Hgc]; [congruence|].
  specialize (Hgc st Hst). simpl in Hgc. rw /claim /= (proj2 (Z.ltb_lt _ _)) //.
  rw /sat_add /sat_sub in Hgc *. lia.
Qed.

(** an expired claim is not released once a block has been imported.  The
    same claim request that [claim] would grant at block [cur] on a run-out
    claim inside an open window is refused forever after [advance] ran at
    [cur]. *)
Theorem expired_claim_not_released m n p at_ expires q cur later :
  windows m !! n = Some (Claimed p at_ expires) → expires < cur →
  cur <= sat_add n (window_size_blocks (win_config m)) →
  (claim m n q cur).2 = Ok tt ∧ (claim (advance m cur) n q later).2 = Err (WindowExpired n).
Proof.
  intros Hn Hx Hw. split.
  - rw /claim (proj2 (Z.ltb_ge _ _)) // Hn (proj2 (Z.leb_le _ _)) //. lia.
  - rw /claim. destruct (_ <? later); [done|].
    by rw /= lookup_fmap Hn /= (proj2 (Z.ltb_lt _ _)).
Qed.

(** A late claim forgets that a window was fulfilled.  A claim after the
    window has closed is refused, but overwrites the recorded fulfilment. *)
Theorem late_claim_forgets_fulfilment m n p q cur :
  windows m !! n = Some (Fulfilled p) →
  sat_add n (window_size_blocks (win_config m)) < cur →
  (claim m n q cur).2 = Err (WindowExpired n) ∧ window_state (claim m n q cur).1 n = Expired.
Proof.
  intros Hn Hw. rw /claim (proj2 (Z.ltb_lt _ _)) //. split; [done|].
  by rw /window_state /= lookup_insert_eq.
Qed.

(** ** Sample run *)

Definition w_prover (n : Z) : Address := b256_of_Z n.
Definition w_trace : list win_op :=
  [OpClaim 5 (w_prover 1) 6; OpAdvance 7; OpFulfill 5 (w_prover 1) 8].
Definition w_claimed : ProofWindowManager :=
  set_window (window_new WindowConfig_default) 5 (Claimed (w_prover 1) 6 26).
Definition w_fulfilled : ProofWindowManager :=
  set_window (window_new WindowConfig_default) 5 (Fulfilled (w_prover 1)).

Lemma fulfilled_in_time_witness :
  (∃ at_ c, OpClaim 5 (w_prover 1) at_ ∈ w_trace ∧ OpFulfill 5 (w_prover 1) c ∈ w_trace ∧ c <= 125) ∧
  window_state (foldl win_run (window_new WindowConfig_default)
    [OpClaim 5 (w_prover 1) 105; OpFulfill 5 (w_prover 1) 125]) 5 = Fulfilled (w_prover 1).
Proof.
  assert (Hs : bool_decide (window_state (foldl win_run (window_new WindowConfig_default) w_trace) 5
    = Fulfilled (w_prover 1)) = true) by (by vm_compute).
  destruct (fulfilled_in_time WindowConfig_default ltac:(done) ltac:(done)) as [H1 H2]. split.
  - destruct (H1 w_trace 5 (w_prover 1) (bool_decide_eq_true_1 _ Hs)) as (at_ & c & K1 & K2 & _ & _ & K3).
    exact (ex_intro _ at_ (ex_intro _ c (conj K1 (conj K2 K3)))).
  - exact (H2 5 (w_prover 1) ltac:(done)).
Defined.

Lemma claim_exclusive_witness :
  claim w_claimed 5 (w_prover 2) 25 = (w_claimed, Err (AlreadyClaimed 5 (w_prover 1))).
Proof.
  exact (proj1 (claim_exclusive w_claimed 5 (w_prover 1) 6 26 (w_prover 2) 25
    eq_refl ltac:(done)) ltac:(done)).
Defined.

Lemma advance_exact_witness : window_state (advance w_claimed 27) 5 = Expired.
Proof. exact (proj1 (advance_exact w_claimed 27 5 (w_prover 1) ltac:(done))). Defined.

Lemma gc_never_reopens_witness :
  (claim (gc w_fulfilled 200) 5 (w_prover 2) 200).2 = Err (WindowExpired 5).
Proof.
  exact (gc_never_reopens w_fulfilled 200 5 200 (w_prover 2) ltac:(done) ltac:(done) ltac:(done)
    (ex_intro _ (Fulfilled (w_prover 1)) eq_refl) eq_refl ltac:(done)).
Defined.

Lemma expired_claim_not_released_witness :
  (claim w_claimed 5 (w_prover 2) 30).2 = Ok tt ∧
  (claim (advance w_claimed 30) 5 (w_prover 2) 31).2 = Err (WindowExpired 5).
Proof.
  exact (expired_claim_not_released w_claimed 5 (w_prover 1) 6 26 (w_prover 2) 30 31
    eq_refl ltac:(done) ltac:(done)).
Defined.

Lemma late_claim_forgets_fulfilment_witness :
  window_state (claim w_fulfilled 5 (w_prover 2) 106).1 5 = Expired.
Proof.
  exact (proj2 (late_claim_forgets_fulfilment w_fulfilled 5 (w_prover 1) (w_prover 2) 106
    eq_refl ltac:(done))).
Defined.
