(* ===== verification/RateLimiter.v ===== *)
(** * Proof submission rate limiting

    crates/consensus/src/rate_limiter.rs: a token bucket per address.  A
    monotonic clock reading is a number of nanoseconds and an argument of every
    operation; durations are nanoseconds. *)

From S2P Require Import Prelude Primitives.

Record RateLimiterConfig := MkRateLimiterConfig {
  initial_tokens : Z;
  refill_rate : Z;
  refill_interval : Z;
  gc_after : Z;
}.
Definition RateLimiterConfig_default : RateLimiterConfig :=
  MkRateLimiterConfig 10 5 60000000000 600000000000.

Record Bucket := MkBucket {
  tokens : Z;
  last_refill : Z;
  last_used : Z;
}.

Definition bucket_new (initial now : Z) : Bucket := MkBucket initial now now.

Definition refill (b : Bucket) (c : RateLimiterConfig) (now : Z) : Bucket :=
  let elapsed := Z.max (now - last_refill b) 0 in
  let interval := Z.max (refill_interval c) 1 in
  if interval <=? elapsed then
    let periods := elapsed / interval in
    let add := Z.min (Z.min (periods * refill_rate c) u128_max) u64_max in
    MkBucket (Z.min (sat_add (tokens b) add) (initial_tokens c))
      (now - elapsed mod interval) (last_used b)
  else b.

Record ProofRateLimiter := MkProofRateLimiter {
  rl_config : RateLimiterConfig;
  buckets : gmap Address Bucket;
}.

Definition rate_limiter_new (c : RateLimiterConfig) : ProofRateLimiter := MkProofRateLimiter c ∅.

(** The bucket of [a], created on first use, after its refill at [now]. *)
Definition refilled (l : ProofRateLimiter) (a : Address) (now : Z) : Bucket :=
  refill (unwrap_or (bucket_new (initial_tokens (rl_config l)) now) (buckets l !! a))
    (rl_config l) now.

Definition set_bucket (l : ProofRateLimiter) (a : Address) (b : Bucket) : ProofRateLimiter :=
  MkProofRateLimiter (rl_config l) (<[a := b]> (buckets l)).

Definition try_consume_at (l : ProofRateLimiter) (a : Address) (now : Z) : ProofRateLimiter * bool :=
  let b := refilled l a now in
  if 0 <? tokens b
  then (set_bucket l a (MkBucket (tokens b - 1) (last_refill b) now), true)
  else (set_bucket l a (MkBucket (tokens b) (last_refill b) now), false).

Definition tokens_remaining_at (l : ProofRateLimiter) (a : Address) (now : Z) :
    ProofRateLimiter * Z :=
  let b := refilled l a now in (set_bucket l a b, tokens b).

Definition gc_at (l : ProofRateLimiter) (now : Z) : ProofRateLimiter :=
  MkProofRateLimiter (rl_config l)
    (filter (λ p, Z.max (now - last_used p.2) 0 < gc_after (rl_config l)) (buckets l)).

(** ** Traces *)

Inductive rl_op := RConsume (a : Address) | RRemaining (a : Address) | RGc.

(** Runs the operations at their times; counts the submissions of [a] that were
    allowed. *)
Fixpoint rl_run (a : Address) (l : ProofRateLimiter) (tr : list (Z * rl_op)) :
    ProofRateLimiter * Z :=
  match tr with
  | [] => (l, 0)
  | (now, op) :: tr' =>
      let '(l1, n1) :=
        match op with
        | RConsume b =>
            let '(l1, ok) := try_consume_at l b now in
            (l1, if ok && bool_decide (b = a) then 1 else 0)
        | RRemaining b => ((tokens_remaining_at l b now).1, 0)
        | RGc => (gc_at l now, 0)
        end in
      let '(l2, n2) := rl_run a l1 tr' in (l2, n1 + n2)
  end.

(** Times never go back, starting from [t]. *)
Fixpoint ordered (t : Z) (tr : list (Z * rl_op)) : Prop :=
  match tr with
  | [] => True
  | (now, _) :: tr' => t <= now ∧ ordered now tr'
  end.

Definition final_time (t : Z) (tr : list (Z * rl_op)) : Z := foldl (λ _ p, p.1) t tr.

Record config_ok (c : RateLimiterConfig) : Prop := {
  cfg_initial : in_u64 (initial_tokens c);
  cfg_rate : in_u64 (refill_rate c);
  cfg_interval : 0 < refill_interval c;
  (** A bucket idle long enough to be collected would be full again. *)
  cfg_gc : initial_tokens c <= refill_rate c * (gc_after c / refill_interval c);
}.

Section bound.
Context (c : RateLimiterConfig) (c_ok : config_ok c) (a : Address) (t0 : Z).
Local Abbreviation I := (refill_interval c).

(** Refills earned from [t0] to [t]. *)
Definition earned (t : Z) : Z := refill_rate c * ((t - t0) / I).

(** After [n] allowed submissions of [a], at time [t]. *)
Definition rl_ok (l : ProofRateLimiter) (n t : Z) : Prop :=
  rl_config l = c ∧
  match buckets l !! a with
  | Some b => 0 <= tokens b <= initial_tokens c ∧ t0 <= last_refill b <= t ∧
      t0 <= last_used b <= t ∧ n + tokens b <= initial_tokens c + earned (last_refill b) ∧
      n <= initial_tokens c + earned (last_used b)
  | None => n <= earned t
  end.

Lemma earned_mono t t' : t <= t' → earned t <= earned t'.
Proof using c_ok.
  intros Ht. rw /earned. apply Z.mul_le_mono_nonneg_l; [apply c_ok|].
  apply Z.div_le_mono; [apply c_ok|lia].
Qed.

Lemma earned_periods t p : earned (t + p * I) = earned t + refill_rate c * p.
Proof using c_ok.
  pose proof (cfg_interval c c_ok). rw /earned.
  replace (t + p * I - t0) with ((t - t0) + p * I) by lia. rw Z.div_add; [lia|]. lia.
Qed.

Lemma earned_nonneg t : t0 <= t → 0 <= earned t.
Proof using c_ok.
  intros Ht. pose proof (earned_mono t0 t Ht). rw {1}/earned Z.sub_diag Z.div_0_l in H;
    [pose proof (cfg_interval c c_ok); lia|]. lia.
Qed.

Lemma refill_ok b n t now :
  0 <= tokens b <= initial_tokens c → t0 <= last_refill b <= t → t <= now →
  n + tokens b <= initial_tokens c + earned (last_refill b) →
  let b' := refill b c now in
  0 <= tokens b' <= initial_tokens c ∧ t0 <= last_refill b' <= now ∧
  last_used b' = last_used b ∧ n + tokens b' <= initial_tokens c + earned (last_refill b').
Proof using c_ok.
  intros Htok Hlr Hnow Hn. pose proof (cfg_interval c c_ok). pose proof (cfg_rate c c_ok).
  pose proof (cfg_initial c c_ok). rw /refill Z.max_l; [lia|]. cbv zeta. rw Z.max_l; [lia|].
  destruct (_ <=? _) eqn:E; [apply Z.leb_le in E|apply Z.leb_gt in E; split_and!; lia].
  set p := (now - last_refill b) / I.
  assert (Hp : now - (now - last_refill b) mod I = last_refill b + p * I).
  { rw /p. pose proof (Z.div_mod (now - last_refill b) I). lia. }
  pose proof (Z.mod_pos_bound (now - last_refill b) I).
  assert (0 < p) by (apply Z.div_str_pos; lia). simpl. rw Hp earned_periods.
  unfold in_u64 in *. assert (0 <= p * refill_rate c) by nia.
  assert (0 <= p * I) by nia.
  rw /sat_add /u128_max /u64_max in H0 H1 *. split_and!; lia.
Qed.

Lemma refilled_ok l n t now :
  rl_ok l n t → t0 <= t <= now →
  let b' := refilled l a now in
  0 <= tokens b' <= initial_tokens c ∧ t0 <= last_refill b' <= now ∧
  t0 <= last_used b' <= now ∧
  n + tokens b' <= initial_tokens c + earned (last_refill b') ∧
  n <= initial_tokens c + earned (last_used b').
Proof using c_ok.
  intros [Hc Hb] Ht. rw /refilled Hc. pose proof (cfg_initial c c_ok) as Hi. unfold in_u64 in Hi.
  destruct (buckets l !! a) as [b|]; simpl.
  - destruct Hb as (? & ? & ? & ? & ?).
    destruct (refill_ok b n t now) as (? & ? & Hlu & ?); [done..|lia|done|].
    rw Hlu. split_and!; lia.
  - pose proof (earned_mono t now ltac:(lia)).
    destruct (refill_ok (bucket_new (initial_tokens c) now) n now now) as (? & ? & Hlu & ?);
      simpl; try lia. simpl in Hlu. rw Hlu. split_and!; lia.
Qed.

Lemma set_other l b x n t : b ≠ a → rl_ok l n t → rl_ok (set_bucket l b x) n t.
Proof. intros Hne [? Hb]. split; [done|]. by rw /= lookup_insert_ne. Qed.

Lemma rl_ok_later l n t now : rl_ok l n t → t <= now → rl_ok l n now.
Proof using c_ok.
  intros [? Hb] Ht. split; [done|]. destruct (buckets l !! a).
  - destruct Hb as (? & ? & ? & ? & ?). split_and!; lia.
  - pose proof (earned_mono t now Ht). lia.
Qed.

Lemma consume_ok l n t b now l' ok :
  rl_ok l n t → t0 <= t <= now → try_consume_at l b now = (l', ok) →
  rl_ok l' (n + if ok && bool_decide (b = a) then 1 else 0) now.
Proof using c_ok.
  intros Hl Ht. rw /try_consume_at. case_bool_decide as Hb.
  - subst b. destruct (refilled_ok l n t now Hl Ht) as (? & ? & ? & Hn & Hn').
    destruct Hl as [Hc _]. case_guard Htok; intros [= <- <-]; (split; [done|]);
      rw /= lookup_insert_eq /=; [apply Z.ltb_lt in Htok|apply Z.ltb_ge in Htok];
      pose proof (earned_mono (last_refill (refilled l a now)) now ltac:(lia));
      split_and!; lia.
  - rw andb_false_r Z.add_0_r. intros Heq.
    assert (∃ x, l' = set_bucket l b x) as [x ->] by (destruct (0 <? _); simplify_eq; by eexists).
    apply set_other; [done|]. apply (rl_ok_later l n t); [done|lia].
Qed.

Lemma remaining_ok l n t b now :
  rl_ok l n t → t0 <= t <= now → rl_ok (tokens_remaining_at l b now).1 n now.
Proof using c_ok.
  intros Hl Ht. rw /tokens_remaining_at /=. destruct (decide (b = a)) as [->|Hne].
  - destruct (refilled_ok l n t now Hl Ht) as (? & ? & ? & ? & ?). destruct Hl as [Hc _].
    split; [done|]. rw /= lookup_insert_eq. split_and!; lia.
  - apply set_other; [done|]. apply (rl_ok_later l n t); [done|lia].
Qed.

Lemma gc_ok l n t now : rl_ok l n t → t0 <= t <= now → rl_ok (gc_at l now) n now.
Proof using c_ok.
  intros Hl Ht. apply (rl_ok_later l n t now) in Hl as [Hc Hb]; [|lia]. split; [done|].
  rw /gc_at /=. destruct (buckets l !! a) as [b|] eqn:E.
  - destruct (decide (Z.max (now - last_used b) 0 < gc_after c)) as [Hk|Hk].
    + by rw (map_lookup_filter_Some_2 _ _ _ b) // Hc.
    + rw (proj2 (map_lookup_filter_None _ _ _)) //.
      { right. intros b' Hb'. rw Hc. by simplify_eq. }
      destruct Hb as (Htk & ? & ? & ? & Hn).
      pose proof (cfg_interval c c_ok). pose proof (cfg_gc c c_ok) as Hgc.
      pose proof (earned_periods (last_used b) (gc_after c / I)) as Hp.
      pose proof (Z.mul_div_le (gc_after c) I ltac:(lia)).
      pose proof (earned_mono (last_used b + gc_after c / I * I) now).
      destruct (decide (gc_after c <= 0)) as [Hz|]; [|lia].
      assert (gc_after c / I <= 0) by (apply Z.div_le_upper_bound; lia).
      pose proof (cfg_rate c c_ok) as [Hr _].
      assert (refill_rate c * (gc_after c / I) <= 0) by nia.
      pose proof (earned_mono (last_used b) now ltac:(lia)). lia.
  - rw (proj2 (map_lookup_filter_None _ _ _)) //. by left.
Qed.

Lemma rl_run_ok l n t tr l' k :
  rl_ok l n t → t0 <= t → ordered t tr → rl_run a l tr = (l', k) →
  rl_ok l' (n + k) (final_time t tr) ∧ t <= final_time t tr.
Proof using c_ok.
  revert l n t k. induction tr as [|[now op] tr IH]; intros l n t k Hl Ht Hord; simpl.
  { intros [= <- <-]. by rw Z.add_0_r. }
  destruct Hord as [Hnow Hord].
  assert (Hstep : ∀ l1 n1, rl_ok l1 (n + n1) now →
    (let '(l2, n2) := rl_run a l1 tr in (l2, n1 + n2)) = (l', k) →
    rl_ok l' (n + k) (final_time now tr) ∧ t <= final_time now tr).
  { intros l1 n1 H1. destruct (rl_run a l1 tr) as [l2 n2] eqn:E. intros [= <- <-].
    destruct (IH l1 (n + n1) now n2 H1 ltac:(lia) Hord E) as [H2 ?].
    rw Z.add_assoc. split; [done|lia]. }
  destruct op as [b|b|].
  - destruct (try_consume_at l b now) as [l1 ok] eqn:E. apply Hstep.
    by apply (consume_ok l n t b now).
  - apply Hstep. rw Z.add_0_r. by apply (remaining_ok l n t).
  - apply Hstep. rw Z.add_0_r. by apply (gc_ok l n t).
Qed.
End bound.

(** ** Properties *)

(** The rate limit holds over any period.  Whatever submissions, queries and
    collections happen in whatever order (the clock never going back), from a
    fresh limiter at time [t0] to time [t], an address is allowed at most
    [initial_tokens] submissions plus [refill_rate] per full refill interval
    elapsed; collection cannot be used to regain tokens early, provided an idle
    bucket is only collected once it would be full. *)
Theorem rate_limit_bound c a t0 tr l n :
  config_ok c → ordered t0 tr → rl_run a (rate_limiter_new c) tr = (l, n) →
  n <= initial_tokens c + refill_rate c * ((final_time t0 tr - t0) / refill_interval c).
Proof.
  intros Hc Hord Hrun.
  destruct (rl_run_ok c Hc a t0 (rate_limiter_new c) 0 t0 tr l n) as [[_ Hb] Hle]; [|lia|done..|].
  { split; [done|]. rw /= lookup_empty. by apply earned_nonneg. }
  rw -/(earned c t0 (final_time t0 tr)) Z.add_0_l in Hb *.
  pose proof (cfg_initial c Hc) as [Hi _].
  destruct (buckets l !! a) as [b|]; [|lia]. destruct Hb as (_ & _ & ? & _ & ?).
  pose proof (earned_mono c Hc t0 (last_used b) (final_time t0 tr) ltac:(lia)). lia.
Qed.

Definition r_trace : list (Z * rl_op) :=
  [(0, RConsume (b256_of_Z 1)); (1, RConsume (b256_of_Z 2)); (2, RConsume (b256_of_Z 1));
   (60000000001, RGc); (60000000002, RConsume (b256_of_Z 1))].

Lemma rate_limit_bound_witness :
  (rl_run (b256_of_Z 1) (rate_limiter_new RateLimiterConfig_default) r_trace).2 <= 15.
Proof.
  exact (rate_limit_bound RateLimiterConfig_default (b256_of_Z 1) 0 r_trace _ _
    ltac:(by split) ltac:(by split_and!) (surjective_pairing _)).
Defined.
