(* ===== verification/Provers.v ===== *)
(** * Prover registry and peer scoring

    crates/consensus/src/prover_registry.rs: registration, reputation, decay
    and removal of provers; crates/consensus/src/peer_scoring.rs: scores of
    peers. *)

From S2P Require Import Prelude Primitives.

(** ** Registry *)

Record ProverRegistryConfig := MkProverRegistryConfig {
  min_stake : Z;
  initial_reputation : Z;
  min_reputation : Z;
  reputation_per_proof : Z;
  penalty_expired_claim : Z;
  penalty_invalid_proof : Z;
  decay_per_100_blocks : Z;
}.
Definition ProverRegistryConfig_default : ProverRegistryConfig :=
  MkProverRegistryConfig 1000 100 0 10 (-20) (-50) (-1).

Record ProverRecord := MkProverRecord {
  stake : Z;
  reputation : Z;
  registered_at_block : Z;
  last_active_block : Z;
  proofs_submitted : Z;
}.

Inductive RegistryError :=
| InsufficientStake (provided required : Z)
| AlreadyRegistered
| NotRegistered.

Record ProverRegistry := MkProverRegistry {
  reg_config : ProverRegistryConfig;
  provers : gmap Address ProverRecord;
  decay_accounted_through : gmap Address Z;
}.

Definition registry_new (c : ProverRegistryConfig) : ProverRegistry := MkProverRegistry c ∅ ∅.

Definition set_reputation (r : ProverRecord) (x : Z) : ProverRecord :=
  MkProverRecord (stake r) x (registered_at_block r) (last_active_block r) (proofs_submitted r).

Definition register (g : ProverRegistry) (a : Address) (st current : Z) :
    result ProverRegistry RegistryError :=
  if st <? min_stake (reg_config g) then Err (InsufficientStake st (min_stake (reg_config g)))
  else
    match provers g !! a with
    | Some _ => Err AlreadyRegistered
    | None =>
        Ok (MkProverRegistry (reg_config g)
          (<[a := MkProverRecord st (initial_reputation (reg_config g)) current current 0]> (provers g))
          (<[a := current]> (decay_accounted_through g)))
    end.

Definition deregister (g : ProverRegistry) (a : Address) : result ProverRegistry RegistryError :=
  match provers g !! a with
  | None => Err NotRegistered
  | Some _ => Ok (MkProverRegistry (reg_config g) (delete a (provers g))
                    (delete a (decay_accounted_through g)))
  end.

Definition record_proof (g : ProverRegistry) (a : Address) (current : Z) :
    result ProverRegistry RegistryError :=
  match provers g !! a with
  | None => Err NotRegistered
  | Some r =>
      let cap := i64_sat_mul (initial_reputation (reg_config g)) 2 in
      let rep := Z.min (i64_sat_add (reputation r) (reputation_per_proof (reg_config g))) cap in
      let r' := MkProverRecord (stake r) rep (registered_at_block r)
                  (Z.max (last_active_block r) current) (sat_add (proofs_submitted r) 1) in
      let baseline := unwrap_or current (decay_accounted_through g !! a) in
      Ok (MkProverRegistry (reg_config g) (<[a := r']> (provers g))
            (<[a := Z.max baseline current]> (decay_accounted_through g)))
  end.

Definition penalize (g : ProverRegistry) (a : Address) (penalty : Z) :
    result ProverRegistry RegistryError :=
  match provers g !! a with
  | None => Err NotRegistered
  | Some r =>
      Ok (MkProverRegistry (reg_config g)
        (<[a := set_reputation r (i64_sat_add (reputation r) penalty)]> (provers g))
        (decay_accounted_through g))
  end.

(** One record's share of [advance]: its new reputation and baseline. *)
Definition decay_record (c : ProverRegistryConfig) (current : Z) (r : ProverRecord) (entry : Z) :
    ProverRecord * Z :=
  let baseline := Z.max entry (last_active_block r) in
  let periods := sat_sub current baseline / 100 in
  if 0 <? periods then
    let decay_periods := Z.min periods i64_max in
    (set_reputation r (i64_sat_add (reputation r) (i64_sat_mul (decay_per_100_blocks c) decay_periods)),
     sat_add baseline (sat_mul periods 100))
  else (r, entry).

Definition decayed (g : ProverRegistry) (current : Z) (a : Address) (r : ProverRecord) :
    ProverRecord * Z :=
  decay_record (reg_config g) current r
    (unwrap_or (last_active_block r) (decay_accounted_through g !! a)).

(** A record survives when its decayed reputation exceeds the minimum. *)
Definition survives (g : ProverRegistry) (current : Z) (a : Address) (r : ProverRecord) : bool :=
  min_reputation (reg_config g) <? reputation (decayed g current a r).1.

Definition registry_advance (g : ProverRegistry) (current : Z) : ProverRegistry :=
  MkProverRegistry (reg_config g)
    (map_imap (λ a r, if survives g current a r then Some (decayed g current a r).1 else None)
       (provers g))
    (merge (λ r d, match r with Some entry => entry | None => d end)
       (map_imap (λ a r, Some (if survives g current a r then Some (decayed g current a r).2 else None))
          (provers g))
       (decay_accounted_through g)).

Definition is_registered (g : ProverRegistry) (a : Address) : bool :=
  bool_decide (is_Some (provers g !! a)).

(** ** Peer scoring *)

(** [PeerId] wraps a string. *)
Record PeerScoringConfig := MkPeerScoringConfig {
  initial_score : Z;
  max_peer_score : Z;
  disconnect_threshold : Z;
  delta_valid_proof : Z;
  delta_challenge_response : Z;
  delta_unanswered_challenge : Z;
  delta_invalid_proof : Z;
  delta_equivocation : Z;
  delta_duplicate_message : Z;
}.
Definition PeerScoringConfig_default : PeerScoringConfig :=
  MkPeerScoringConfig 100 200 0 5 3 (-10) (-20) (-100) (-2).

Inductive PeerEvent :=
| ValidProofDelivered
| TimelyChannelResponse
| UnansweredChallenge
| InvalidProofPayload
| EquivocationDetected
| DuplicateMessage.

Record PeerScorer := MkPeerScorer {
  ps_config : PeerScoringConfig;
  peer_scores : gmap string Z;
}.

Definition event_delta (c : PeerScoringConfig) (e : PeerEvent) : Z :=
  match e with
  | ValidProofDelivered => delta_valid_proof c
  | TimelyChannelResponse => delta_challenge_response c
  | UnansweredChallenge => delta_unanswered_challenge c
  | InvalidProofPayload => delta_invalid_proof c
  | EquivocationDetected => delta_equivocation c
  | DuplicateMessage => delta_duplicate_message c
  end.

(** [i64] addition in a build without overflow checks. *)
Definition i64_wrapping_add (a b : Z) : Z := (a + b - i64_min) mod (u64_max + 1) + i64_min.

Definition peer_score (s : PeerScorer) (peer : string) : Z :=
  unwrap_or (initial_score (ps_config s)) (peer_scores s !! peer).

Definition record_event (s : PeerScorer) (peer : string) (e : PeerEvent) : PeerScorer :=
  MkPeerScorer (ps_config s)
    (<[peer := Z.min (i64_wrapping_add (peer_score s peer) (event_delta (ps_config s) e))
                 (max_peer_score (ps_config s))]> (peer_scores s)).

Definition should_disconnect (s : PeerScorer) (peer : string) : bool :=
  peer_score s peer <? disconnect_threshold (ps_config s).

Definition peers_to_disconnect (s : PeerScorer) : list string :=
  (filter (λ p, p.2 < disconnect_threshold (ps_config s)) (map_to_list (peer_scores s))).*1.

Definition remove_peer (s : PeerScorer) (peer : string) : PeerScorer :=
  MkPeerScorer (ps_config s) (delete peer (peer_scores s)).

(** ** The registry's invariant *)

(** The operations of the registry with their arguments; a rejected call
    leaves the registry as it was. *)
Inductive RegistryOp :=
| OpRegister (a : Address) (st current : Z)
| OpDeregister (a : Address)
| OpRecordProof (a : Address) (current : Z)
| OpPenalize (a : Address) (penalty : Z)
| OpAdvance (current : Z).

Definition or_unchanged (g : ProverRegistry) (r : result ProverRegistry RegistryError) :
    ProverRegistry :=
  match r with Ok g' => g' | Err _ => g end.

Definition run_op (g : ProverRegistry) (o : RegistryOp) : ProverRegistry :=
  match o with
  | OpRegister a st current => or_unchanged g (register g a st current)
  | OpDeregister a => or_unchanged g (deregister g a)
  | OpRecordProof a current => or_unchanged g (record_proof g a current)
  | OpPenalize a penalty => or_unchanged g (penalize g a penalty)
  | OpAdvance current => registry_advance g current
  end.

(** The block numbers of an operation are [u64] values. *)
Definition op_in_range (o : RegistryOp) : Prop :=
  match o with
  | OpRegister _ _ current | OpRecordProof _ current | OpAdvance current => in_u64 current
  | OpDeregister _ | OpPenalize _ _ => True
  end.

Definition in_i64 (x : Z) : Prop := i64_min <= x <= i64_max.

(** What a stored record and its decay baseline satisfy. *)
Definition record_ok (c : ProverRegistryConfig) (r : ProverRecord) (entry : Z) : Prop :=
  min_stake c <= stake r ∧ in_i64 (reputation r) ∧
  0 <= last_active_block r <= entry ∧ entry <= u64_max.

Definition registry_ok (g : ProverRegistry) : Prop :=
  ∀ a, match provers g !! a, decay_accounted_through g !! a with
       | Some r, Some entry => record_ok (reg_config g) r entry
       | None, None => True
       | _, _ => False
       end.

Definition config_ok (c : ProverRegistryConfig) : Prop :=
  in_i64 (initial_reputation c) ∧ -50 <= decay_per_100_blocks c <= 0.

Lemma i64_clamp_in x : in_i64 (i64_clamp x).
Proof. unfold in_i64. int_lia. Qed.

Lemma advance_lookup g current a :
  provers (registry_advance g current) !! a =
    (provers g !! a ≫= λ r, if survives g current a r then Some (decayed g current a r).1 else None).
Proof. by rw /= map_lookup_imap. Qed.

Lemma advance_lookup_decay g current a :
  decay_accounted_through (registry_advance g current) !! a =
    match provers g !! a with
    | Some r => if survives g current a r then Some (decayed g current a r).2 else None
    | None => decay_accounted_through g !! a
    end.
Proof. rw /= lookup_merge map_lookup_imap. by destruct (provers g !! a), (decay_accounted_through g !! a). Qed.

Lemma decay_record_ok c current r entry :
  in_u64 current → record_ok c r entry →
  record_ok c (decay_record c current r entry).1 (decay_record c current r entry).2.
Proof.
  intros Hc (Hs & Hr & Hl & Hu). unfold decay_record.
  case: (Z.ltb_spec 0 (sat_sub current (entry `max` last_active_block r) / 100)) => Hp //=.
  split_and!; simpl; [done|apply i64_clamp_in|lia|div_lia..].
Qed.

Lemma run_op_ok g o :
  config_ok (reg_config g) → op_in_range o → registry_ok g → registry_ok (run_op g o).
Proof.
  intros [Hi _] Hr Hok. destruct o as [a st cur|a|a cur|a pen|cur]; simpl in *.
  - unfold register. case: (Z.ltb_spec st _) => Hst //=.
    destruct (provers g !! a) as [r|] eqn:Ha; simpl; [done|].
    intros b. destruct (decide (a = b)) as [<-|Hb]; simpl.
    + rw !lookup_insert_eq. unfold record_ok; simpl. unfold in_u64 in Hr. split_and!; try lia; apply Hi.
    + rw !lookup_insert_ne //. apply Hok.
  - unfold deregister. destruct (provers g !! a) eqn:Ha; simpl; [|done].
    intros b. destruct (decide (a = b)) as [<-|Hb]; simpl.
    + by rw !lookup_delete_eq.
    + rw !lookup_delete_ne //. apply Hok.
  - unfold record_proof. destruct (provers g !! a) as [r|] eqn:Ha; simpl; [|done].
    intros b. pose proof (Hok a) as Hoka. rw Ha in Hoka.
    destruct (decay_accounted_through g !! a) as [e|] eqn:He; [|done].
    destruct (decide (a = b)) as [<-|Hb]; simpl.
    + rw !lookup_insert_eq /=. destruct Hoka as (? & ? & ? & ?).
      unfold record_ok, in_u64, in_i64 in *; simpl. split_and!; int_lia.
    + rw !lookup_insert_ne //. apply Hok.
  - unfold penalize. destruct (provers g !! a) as [r|] eqn:Ha; simpl; [|done].
    intros b. pose proof (Hok b) as Hokb.
    destruct (decide (a = b)) as [<-|Hb]; simpl; [|by rw lookup_insert_ne].
    rw lookup_insert_eq. rw Ha in Hokb.
    destruct (decay_accounted_through g !! a); [|done].
    destruct Hokb as (? & ? & ? & ?). repeat split; simpl; try apply i64_clamp_in; lia.
  - intros a. rw advance_lookup advance_lookup_decay. pose proof (Hok a) as Hoka.
    destruct (provers g !! a) as [r|] eqn:Ha; simpl; [|by destruct (_ !! a)].
    destruct (decay_accounted_through g !! a) as [e|] eqn:He; [|done].
    destruct (survives g cur a r) eqn:Hs; [|done].
    unfold decayed. rw He /=. by apply decay_record_ok.
Qed.

Lemma run_op_config g o : reg_config (run_op g o) = reg_config g.
Proof.
  destruct o; simpl; unfold register, deregister, record_proof, penalize;
    by repeat case_match.
Qed.

Lemma registry_reachable_ok c ops :
  config_ok c → Forall op_in_range ops →
  registry_ok (foldl run_op (registry_new c) ops) ∧ reg_config (foldl run_op (registry_new c) ops) = c.
Proof.
  intros Hc. induction ops as [|o ops IH] using rev_ind => Hr.
  - by split; [intros a|].
  - apply Forall_app in Hr as [Hr [Ho _]%Forall_cons].
    rw foldl_app /=. destruct (IH Hr) as [Hok Hcfg]. split.
    + apply run_op_ok; [by rw Hcfg|done..].
    + by rw run_op_config.
Qed.

(** ** Decay is independent of how often it is applied *)

(** Whole periods of a hundred idle blocks since the baseline. *)
Definition idle_periods (current entry : Z) : Z := sat_sub current entry / 100.

Lemma idle_periods_bounds current entry :
  in_u64 current → 0 <= entry → 0 <= idle_periods current entry <= 184467440737095516 ∧
    (0 < idle_periods current entry → entry + 100 * idle_periods current entry <= current).
Proof. intros. unfold idle_periods. div_lia. Qed.

Lemma decay_record_closed c current r entry :
  config_ok c → record_ok c r entry → in_u64 current →
  decay_record c current r entry =
    (set_reputation r (i64_clamp (reputation r + decay_per_100_blocks c * idle_periods current entry)),
     entry + 100 * idle_periods current entry).
Proof.
  intros [_ Hd] (_ & Hr & Hl & Hu) Hc. unfold decay_record.
  rw (Z.max_l entry); [lia|]. fold (idle_periods current entry).
  destruct (idle_periods_bounds current entry) as [Hp Hle]; [done|lia|].
  move: (idle_periods current entry) Hp Hle => p Hp Hle.
  case: (Z.ltb_spec 0 p) => Hp0.
  - assert (Hdp : i64_sat_mul (decay_per_100_blocks c) (p `min` i64_max) = decay_per_100_blocks c * p).
    { rw Z.min_l; [unfold i64_max; lia|].
      assert (-50 * p <= decay_per_100_blocks c * p <= 0) by nia.
      unfold i64_sat_mul, i64_clamp, i64_min, i64_max. lia. }
    rw Hdp. f_equal. unfold in_u64, sat_add, sat_mul, u64_max in *. lia.
  - assert (p = 0) as -> by lia. rw Z.mul_0_r Z.add_0_r. f_equal; [|lia].
    destruct r; unfold set_reputation, i64_clamp, in_i64 in *; simpl in *. f_equal. lia.
Qed.

Lemma decay_record_compose c c1 c2 r entry :
  config_ok c → record_ok c r entry → in_u64 c2 → 0 <= c1 <= c2 →
  decay_record c c2 (decay_record c c1 r entry).1 (decay_record c c1 r entry).2 =
    decay_record c c2 r entry.
Proof.
  intros Hcfg Hok Hc2 Hc.
  assert (Hc1 : in_u64 c1) by (unfold in_u64 in *; lia).
  pose proof (decay_record_ok c c1 r entry Hc1 Hok) as Hok1.
  rw (decay_record_closed _ _ _ _ Hcfg Hok1 Hc2) (decay_record_closed _ _ _ _ Hcfg Hok Hc1)
     (decay_record_closed _ _ _ _ Hcfg Hok Hc2) /=.
  assert (Hsum : idle_periods c2 (entry + 100 * idle_periods c1 entry) =
                 idle_periods c2 entry - idle_periods c1 entry).
  { clear - Hc Hok. destruct Hok as (_ & _ & ? & ?). unfold idle_periods, sat_sub.
    Z.to_euclidean_division_equations. lia. }
  assert (Hmono : 0 <= idle_periods c1 entry <= idle_periods c2 entry).
  { clear - Hc Hok. destruct Hok as (_ & _ & ? & ?). unfold idle_periods, sat_sub.
    Z.to_euclidean_division_equations. lia. }
  rw Hsum. move: (idle_periods c1 entry) (idle_periods c2 entry) Hmono => p1 p2 Hmono.
  destruct Hcfg as [_ Hd], Hok as (_ & Hr & _).
  f_equal; [|lia]. destruct r as [st rep reg la ps]; unfold set_reputation; simpl in *. f_equal.
  assert (decay_per_100_blocks c * p1 <= 0) by nia.
  assert (decay_per_100_blocks c * (p2 - p1) <= 0) by nia.
  rw -[in RHS](Zplus_minus p1 p2) Z.mul_add_distr_l.
  unfold i64_clamp, in_i64, i64_min, i64_max in *. lia.
Qed.


Lemma decay_record_antitone c c1 c2 r entry :
  config_ok c → record_ok c r entry → in_u64 c2 → 0 <= c1 <= c2 →
  reputation (decay_record c c2 r entry).1 <= reputation (decay_record c c1 r entry).1.
Proof.
  intros Hcfg Hok Hc2 Hc. rw -(decay_record_compose c c1 c2) //.
  assert (Hc1 : in_u64 c1) by (unfold in_u64 in *; lia).
  pose proof (decay_record_ok c c1 r entry Hc1 Hok) as Hok1.
  move: (decay_record c c1 r entry) Hok1 => [r1 e1] /= Hok1.
  rw (decay_record_closed _ _ _ _ Hcfg Hok1 Hc2) /=.
  destruct Hok1 as (_ & Hr & He & _), Hcfg as [_ Hd].
  destruct (idle_periods_bounds c2 e1) as [Hp _]; [done|lia|].
  assert (decay_per_100_blocks c * idle_periods c2 e1 <= 0) by nia.
  unfold i64_clamp, in_i64 in *. lia.
Qed.

(** ** Correctness of the registry *)

(** A prover's fate at an epoch boundary: its decayed record and baseline, or
    removal. *)
Definition fate (c : ProverRegistryConfig) (current : Z) (re : ProverRecord * Z) :
    option (ProverRecord * Z) :=
  if min_reputation c <? reputation (decay_record c current re.1 re.2).1
  then Some (decay_record c current re.1 re.2) else None.

(** The record and the baseline the registry holds for an address. *)
Definition entry_of (g : ProverRegistry) (a : Address) : option (ProverRecord * Z) :=
  match provers g !! a, decay_accounted_through g !! a with
  | Some r, Some e => Some (r, e)
  | _, _ => None
  end.

Lemma advance_entry g current a :
  registry_ok g → entry_of (registry_advance g current) a = entry_of g a ≫= fate (reg_config g) current.
Proof.
  intros Hok. unfold entry_of. rw advance_lookup advance_lookup_decay.
  pose proof (Hok a) as Hoka.
  destruct (provers g !! a) as [r|] eqn:Ha; [|done].
  destruct (decay_accounted_through g !! a) as [e|] eqn:He; [|done].
  unfold survives, decayed, fate. rw He /=. destruct (decay_record _ _ _ _) as [r' e']; simpl. by destruct (_ <? _).
Qed.

Lemma registry_ext g h :
  registry_ok g → registry_ok h → reg_config g = reg_config h →
  (∀ a, entry_of g a = entry_of h a) → g = h.
Proof.
  destruct g as [c ps ds], h as [c' ps' ds']. unfold registry_ok, entry_of; simpl.
  intros Hg Hh -> He. f_equal; apply map_eq => a;
    specialize (Hg a); specialize (Hh a); specialize (He a); repeat case_match; naive_solver.
Qed.

Lemma fate_split c c1 c2 re :
  config_ok c → record_ok c re.1 re.2 → in_u64 c2 → 0 <= c1 <= c2 →
  fate c c1 re ≫= fate c c2 = fate c c2 re.
Proof.
  intros Hc Hok Hc2 Hle. unfold fate at 2. destruct (_ <? _) eqn:Hs; simpl.
  - unfold fate. by rw !decay_record_compose.
  - unfold fate. pose proof (decay_record_antitone c c1 c2 re.1 re.2 Hc Hok Hc2 Hle).
    by rw (proj2 (Z.ltb_ge _ _)); [lia|].
Qed.

(** Every registry reached from an empty one by any sequence of
    registrations, exits, proofs, penalties and epoch boundaries holds only
    provers with the minimum stake, keeps a decay baseline for exactly the
    registered provers, at or after their last activity, and a reputation that
    never leaves the [i64] range; and advancing it at an earlier block and then
    at a later one leaves the same registry as advancing once at the later
    block: how often the epoch hook runs changes neither a reputation nor who
    is removed.  The decay is between 0 and -50 points per hundred blocks (the
    default is -1), which keeps the product of decay and periods in range. *)
Theorem registry_advance_split (c : ProverRegistryConfig) (ops : list RegistryOp) (c1 c2 : Z) :
  config_ok c → Forall op_in_range ops → in_u64 c2 → 0 <= c1 <= c2 →
  let g := foldl run_op (registry_new c) ops in
  registry_ok g ∧ registry_advance (registry_advance g c1) c2 = registry_advance g c2.
Proof.
  intros Hc Hops Hc2 Hle g.
  destruct (registry_reachable_ok c ops Hc Hops) as [Hok Hcfg]. fold g in Hok, Hcfg.
  split; [done|]. assert (Hc1 : in_u64 c1) by (unfold in_u64 in *; lia).
  rw -Hcfg in Hc.
  pose proof (run_op_ok g (OpAdvance c1) Hc Hc1 Hok) as Hok1.
  apply registry_ext; [exact (run_op_ok (registry_advance g c1) (OpAdvance c2) Hc Hc2 Hok1)
    |exact (run_op_ok g (OpAdvance c2) Hc Hc2 Hok)|done|intros a].
  rw (advance_entry _ _ _ Hok1) !(advance_entry _ _ _ Hok).
  destruct (entry_of g a) as [[r e]|] eqn:He; [|done]. simpl.
  apply fate_split; [done| |done..].
  specialize (Hok a). unfold entry_of in He. by repeat case_match; simplify_eq.
Qed.

(** A registered prover loses two points over 250 idle blocks either way. *)
Lemma registry_advance_split_witness :
  let g := foldl run_op (registry_new ProverRegistryConfig_default)
             [OpRegister (b256_of_Z 7) 1000 5] in
  registry_ok g ∧ registry_advance (registry_advance g 130) 255 = registry_advance g 255.
Proof.
  apply (registry_advance_split ProverRegistryConfig_default
           [OpRegister (b256_of_Z 7) 1000 5] 130 255).
  - unfold config_ok, in_i64; simpl; int_lia.
  - repeat constructor; unfold u64_max; simpl; lia.
  - unfold in_u64, u64_max; lia.
  - lia.
Defined.
