(* ===== verification/Fee.v ===== *)
(** * Fees

    crates/core/src/fee.rs: the gas price a transaction pays, the base fee of
    the next block and the blob gas price.  [U256] is the big-integer type of
    an external crate: its operations are parameters whose laws speak only of
    results that fit in 256 bits. *)

From S2P Require Import Prelude.

Definition INITIAL_BASE_FEE : Z := 1000000000.
Definition BASE_FEE_CHANGE_DENOMINATOR : Z := 8.

Definition effective_gas_price (max_fee max_priority_fee base_fee : Z) : Z :=
  Z.min max_fee (sat_add base_fee max_priority_fee).

Definition miner_tip (max_fee max_priority_fee base_fee : Z) : Z :=
  sat_sub (effective_gas_price max_fee max_priority_fee base_fee) base_fee.

(** [u128] products of two [u64] values, saturating. *)
Definition base_fee_delta (parent_base_fee gas_delta gas_target : Z) : Z :=
  Z.min (Z.min (parent_base_fee * gas_delta) u128_max / gas_target / BASE_FEE_CHANGE_DENOMINATOR)
    u64_max.

Definition calculate_base_fee (parent_gas_used parent_gas_limit parent_base_fee : Z) : Z :=
  if parent_base_fee =? 0 then INITIAL_BASE_FEE
  else
    let gas_target := parent_gas_limit / 2 in
    if gas_target =? 0 then parent_base_fee
    else if parent_gas_used =? gas_target then parent_base_fee
    else if gas_target <? parent_gas_used then
      let delta := base_fee_delta parent_base_fee (sat_sub parent_gas_used gas_target) gas_target in
      sat_add parent_base_fee (Z.max delta 1)
    else
      let delta := base_fee_delta parent_base_fee (sat_sub gas_target parent_gas_used) gas_target in
      Z.max (sat_sub parent_base_fee delta) 1.

Definition TARGET_BLOB_GAS_PER_BLOCK : Z := 393216.
Definition BLOB_GAS_PER_BLOB : Z := 131072.
Definition MAX_BLOB_GAS_PER_BLOCK : Z := 786432.
Definition MIN_BLOB_BASE_FEE : Z := 1.
Definition BLOB_BASE_FEE_UPDATE_FRACTION : Z := 3338477.

Definition calc_excess_blob_gas (parent_excess parent_used : Z) : Z :=
  sat_sub (sat_add parent_excess parent_used) TARGET_BLOB_GAS_PER_BLOCK.

(** The operations of [U256] the code uses. *)
Class U256Ops := {
  u256_add : Z → Z → Z;
  u256_sub : Z → Z → Z;
  u256_mul : Z → Z → Z;
  u256_div : Z → Z → Z;
}.

(** They are the integer operations wherever the result is representable. *)
Class U256Laws (U : U256Ops) : Prop := {
  u256_add_exact a b : 0 <= a → 0 <= b → a + b <= u256_max → u256_add a b = a + b;
  u256_sub_exact a b : 0 <= b <= a → a <= u256_max → u256_sub a b = a - b;
  u256_mul_exact a b : 0 <= a → 0 <= b → a * b <= u256_max → u256_mul a b = a * b;
  u256_div_exact a b : 0 <= a <= u256_max → 0 < b <= u256_max → u256_div a b = a / b;
}.

Section FakeExponential.
Context `{U : U256Ops}.

(** The loop; [None] is fuel exhausted or a panic of [to::<u64>()]. *)
Fixpoint fake_exponential_loop (fuel : nat) (numerator denominator saturation_limit : Z)
    (i output numerator_accum : Z) : option Z :=
  match fuel with
  | O => None
  | S fuel =>
      if numerator_accum =? 0 then u64_try_from (u256_div output denominator)
      else if u256_sub saturation_limit output <=? numerator_accum then Some u64_max
      else
        let output := u256_add output numerator_accum in
        let numerator_accum :=
          u256_div (u256_mul numerator_accum numerator) (u256_mul denominator i) in
        match checked_add i 1 with
        | Some next =>
            fake_exponential_loop fuel numerator denominator saturation_limit next output
              numerator_accum
        | None => Some u64_max
        end
  end.

(** Iterations that suffice for all [u64] arguments. *)
Definition fake_exponential_fuel : nat := 400.

Definition fake_exponential (factor numerator denominator : Z) : option Z :=
  if denominator =? 0 then Some u64_max
  else
    fake_exponential_loop fake_exponential_fuel numerator denominator
      (u256_mul u64_max denominator) 1 0 (u256_mul factor denominator).

Definition calc_blob_gas_price (excess_blob_gas : Z) : option Z :=
  fake_exponential MIN_BLOB_BASE_FEE excess_blob_gas BLOB_BASE_FEE_UPDATE_FRACTION.
End FakeExponential.

(** ** The series the loop sums *)

(** Term [n] of [factor * denominator * (numerator / denominator)^n / n!], each
    step rounded down, and the sum of the first [n]. *)
Fixpoint exp_term (factor numerator denominator : Z) (n : nat) : Z :=
  match n with
  | O => factor * denominator
  | S k => exp_term factor numerator denominator k * numerator / (denominator * (Z.of_nat k + 1))
  end.

Fixpoint exp_sum (factor numerator denominator : Z) (n : nat) : Z :=
  match n with
  | O => 0
  | S k => exp_sum factor numerator denominator k + exp_term factor numerator denominator k
  end.

Section Series.
Context (f x d : Z) (Hf : in_u64 f) (Hx : in_u64 x) (Hd : 0 < d <= u64_max).
Local Abbreviation term := (exp_term f x d).
Local Abbreviation psum := (exp_sum f x d).
Local Abbreviation limit := (u64_max * d).

Lemma term_nonneg n : 0 <= term n.
Proof.
  unfold in_u64 in *. induction n as [|n IH]; simpl; [nia|]. apply Z.div_pos; nia.
Qed.

Lemma psum_mono n m : (n ≤ m)%nat → psum n <= psum m.
Proof. induction 1 as [|m ? IH]; [lia|]. simpl. pose proof (term_nonneg m). lia. Qed.

Lemma psum_nonneg n : 0 <= psum n.
Proof. apply (psum_mono 0 n). lia. Qed.

Lemma term_le_psum n : term n <= psum (S n).
Proof. simpl. pose proof (psum_nonneg n). lia. Qed.

Lemma term_zero n m : (n ≤ m)%nat → term n = 0 → term m = 0.
Proof.
  induction 1 as [|m ? IH]; [done|]. intros Hz. simpl. by rw (IH Hz) Z.mul_0_l Zdiv_0_l.
Qed.

Lemma psum_stable n m : (n ≤ m)%nat → term n = 0 → psum m = psum n.
Proof.
  induction 1 as [|m Hle IH]; [done|]. intros Hz. simpl. rw (IH Hz) (term_zero n m) //. lia.
Qed.

(** Far from the limit the terms at least double. *)
Lemma term_doubles n :
  0 < f → 128 * d <= x → (n ≤ 64)%nat → 2 ^ Z.of_nat n * d <= term n.
Proof.
  intros Hf0 Hx128. induction n as [|n IH] => Hn; [simpl; nia|].
  specialize (IH ltac:(lia)). cbn [exp_term]. rw Nat2Z.inj_succ Z.pow_succ_r; [lia|].
  apply Z.div_le_lower_bound; [nia|].
  pose proof (term_nonneg n). assert (2 * (Z.of_nat n + 1) * d <= x) by nia. nia.
Qed.

(** Past the 256th step they at least halve. *)
Lemma term_halves k j :
  255 <= Z.of_nat k → x < 128 * d → term k < 2 ^ 128 → (j ≤ 128)%nat →
  term (k + j) < 2 ^ (128 - Z.of_nat j).
Proof.
  intros Hk Hx128 H255. induction j as [|j IH] => Hj; [by rw Nat.add_0_r Z.sub_0_r|].
  specialize (IH ltac:(lia)). rw Nat.add_succ_r. cbn [exp_term].
  pose proof (term_nonneg (k + j)) as H0.
  replace (128 - Z.of_nat j) with (Z.succ (128 - Z.of_nat (S j))) in IH by lia.
  rw Z.pow_succ_r in IH; [lia|].
  apply Z.div_lt_upper_bound; [nia|].
  move: (2 ^ (128 - Z.of_nat (S j))) (term (k + j)%nat) IH H0 => p t Ht H0.
  assert (2 * x <= d * (Z.of_nat (k + j) + 1)) by nia. nia.
Qed.

(** The loop halts: a term vanishes or the limit is reached. *)
Lemma series_halts :
  ∃ m, (m < 400)%nat ∧ (term m = 0 ∨ limit <= psum (S m)).
Proof.
  destruct (decide (f = 0)) as [->|Hf0]; [exists 0%nat; split; [lia|by left]|].
  unfold in_u64 in *.
  destruct (decide (128 * d <= x)) as [Hge|Hlt].
  - exists 64%nat. split; [lia|right].
    pose proof (term_doubles 64 ltac:(lia) Hge ltac:(lia)) as Hd64.
    pose proof (term_le_psum 64) as Hle. revert Hd64 Hle.
    generalize (term 64) (psum 65) => t s. unfold u64_max. cbn. nia.
  - destruct (decide (limit <= psum (S (Z.to_nat 255)))) as [?|Hlim]; [by exists (Z.to_nat 255); split; [lia|right]|].
    exists (Z.to_nat 255 + 128)%nat. split; [lia|left].
    pose proof (term_le_psum (Z.to_nat 255)) as Hle.
    assert (H255 : term (Z.to_nat 255) < 2 ^ 128).
    { apply Z.le_lt_trans with limit; [lia|]. unfold u64_max in *. nia. }
    pose proof (term_halves (Z.to_nat 255) 128 ltac:(lia) ltac:(lia) H255 ltac:(lia)) as Hlast.
    pose proof (term_nonneg (Z.to_nat 255 + 128)). change (2 ^ (128 - Z.of_nat 128)) with 1 in Hlast. lia.
Qed.
End Series.

(** ** The loop computes the capped sum *)

Section Exact.
Context {U : U256Ops} {UL : U256Laws U}.
Context (f x d : Z) (Hf : in_u64 f) (Hx : in_u64 x) (Hd : 0 < d <= u64_max).
Local Abbreviation term := (exp_term f x d).
Local Abbreviation psum := (exp_sum f x d).
Local Abbreviation limit := (u64_max * d).

Lemma limit_small : 0 < limit < 2 ^ 128.
Proof. unfold u64_max in *. nia. Qed.

(** The update of [numerator_accum] never leaves 256 bits. *)
Lemma next_term n :
  Z.of_nat n < 400 → term n < limit →
  u256_div (u256_mul (term n) x) (u256_mul d (Z.of_nat n + 1)) = term (S n).
Proof.
  intros Hn Ht. pose proof (term_nonneg f x d Hf Hx Hd n). pose proof limit_small.
  unfold in_u64, u64_max in *.
  assert (term n * x <= u256_max) by (change u256_max with (2 ^ 256 - 1); nia).
  assert (d * (Z.of_nat n + 1) <= u256_max) by (change u256_max with (2 ^ 256 - 1); nia).
  rw !u256_mul_exact; [lia..|]. rw u256_div_exact //; nia.
Qed.

Lemma capped_sum n N :
  (n ≤ N)%nat → term n = 0 → psum n <= limit →
  u64_try_from (u256_div (psum n) d) = Some (Z.min u64_max (psum N / d)).
Proof.
  intros HN Hz Hle. rw (psum_stable f x d n N) //.
  pose proof (psum_nonneg f x d Hf Hx Hd n). pose proof limit_small.
  rw u256_div_exact; [change u256_max with (2 ^ 256 - 1); lia
                     |change u256_max with (2 ^ 256 - 1); unfold u64_max in *; lia|].
  assert (0 <= psum n / d <= u64_max).
  { split; [apply Z.div_pos; lia|]. apply Z.div_le_upper_bound; lia. }
  unfold u64_try_from. rw Z.min_r; [lia|].
  by rw (proj2 (Z.leb_le 0 _)) ?(proj2 (Z.leb_le _ u64_max)); try lia.
Qed.

Lemma saturated_sum n N :
  (n ≤ N)%nat → limit <= psum n → u64_max = Z.min u64_max (psum N / d).
Proof.
  intros HN Hle. rw Z.min_l //. pose proof (psum_mono f x d Hf Hx Hd n N HN).
  apply Z.div_le_lower_bound; lia.
Qed.

Lemma loop_exact fuel n N :
  (n + fuel ≤ N)%nat → Z.of_nat (n + fuel) <= 400 → psum n <= limit →
  (∃ m, (n ≤ m < n + fuel)%nat ∧ (term m = 0 ∨ limit <= psum (S m))) →
  fake_exponential_loop fuel x d limit (Z.of_nat n + 1) (psum n) (term n) =
    Some (Z.min u64_max (psum N / d)).
Proof.
  revert n. induction fuel as [|fuel IH] => n HN Hsmall Hle [m [Hm Hhalt]]; [lia|].
  cbn [fake_exponential_loop]. pose proof limit_small as Hlim.
  pose proof (psum_nonneg f x d Hf Hx Hd n). pose proof (term_nonneg f x d Hf Hx Hd n).
  destruct (Z.eqb_spec (term n) 0) as [Hz|Hnz]; [apply capped_sum; [lia|done..]|].
  rw u256_sub_exact; [lia|change u256_max with (2 ^ 256 - 1); lia|].
  destruct (Z.leb_spec (limit - psum n) (term n)) as [Hsat|Hgo].
  { f_equal. apply (saturated_sum (S n)); [lia|]. simpl. lia. }
  rw u256_add_exact; [lia|lia|change u256_max with (2 ^ 256 - 1); lia|].
  rw next_term; [lia|lia|]. unfold checked_add.
  rw (proj2 (Z.leb_le _ u64_max)); [unfold u64_max; lia|].
  replace (Z.of_nat n + 1 + 1) with (Z.of_nat (S n) + 1) by lia.
  apply (IH (S n)); [lia|lia|simpl; lia|].
  exists m. split; [|done].
  destruct (decide (m = n)) as [->|]; [|lia]. destruct Hhalt; [done|simpl in *; lia].
Qed.

Lemma fake_exponential_sum N :
  (400 ≤ N)%nat → fake_exponential f x d = Some (Z.min u64_max (psum N / d)).
Proof.
  intros HN. unfold fake_exponential. pose proof limit_small.
  rw (proj2 (Z.eqb_neq d 0)); [lia|].
  rw !u256_mul_exact; try (unfold in_u64 in *; change u256_max with (2 ^ 256 - 1); nia).
  apply (loop_exact 400 0 N); [done|done|simpl; lia|].
  destruct (series_halts f x d Hf Hx Hd) as (m & Hm & ?). exists m. split; [lia|done].
Qed.
End Exact.

Lemma exp_term_mono f d x y n :
  0 <= f → 0 < d → 0 <= x <= y → 0 <= exp_term f x d n <= exp_term f y d n.
Proof.
  intros Hf Hd Hxy. induction n as [|n IH]; simpl; [nia|]. split.
  - apply Z.div_pos; nia.
  - apply Z.div_le_mono; nia.
Qed.

Lemma exp_sum_mono f d x y n :
  0 <= f → 0 < d → 0 <= x <= y → exp_sum f x d n <= exp_sum f y d n.
Proof.
  intros Hf Hd Hxy. induction n as [|n IH]; simpl; [lia|].
  pose proof (exp_term_mono f d x y n Hf Hd Hxy). lia.
Qed.

Lemma base_fee_delta_exact b g t :
  in_u64 b → in_u64 g → 0 < t → 0 <= b * g / t / 8 <= u64_max → base_fee_delta b g t = b * g / t / 8.
Proof.
  intros Hb Hg Ht Hd. unfold base_fee_delta, BASE_FEE_CHANGE_DENOMINATOR.
  rw (Z.min_l (b * g)); [unfold in_u64, u64_max, u128_max in *; nia|]. lia.
Qed.

(** [b * g / t] stays below [b] plus its excess over the target. *)
Lemma fee_fraction_le b g t :
  0 <= b → 0 < t → 0 <= g <= t → 0 <= b * g / t / 8 <= b / 8.
Proof.
  intros Hb Ht Hg. split; [repeat apply Z.div_pos; nia|].
  apply Z.div_le_mono; [lia|]. apply Z.div_le_upper_bound; nia.
Qed.

(** ** Properties of the fee rules *)

(** The loop behind the blob price terminates within 400 iterations on all
    [u64] arguments with a non-zero denominator, never leaves 256 bits, and
    returns the sum of the Taylor series of [factor * e^(numerator/denominator)]
    (each term rounded down, any number of terms from 400 on) divided by the
    denominator, capped at [u64::MAX]. *)
Theorem fake_exponential_exact `{UL : U256Laws} (factor numerator denominator : Z) (N : nat) :
  in_u64 factor → in_u64 numerator → 0 < denominator <= u64_max → (400 ≤ N)%nat →
  fake_exponential factor numerator denominator =
    Some (Z.min u64_max (exp_sum factor numerator denominator N / denominator)).
Proof. intros Hf Hx Hd HN. by apply fake_exponential_sum. Qed.

(** The blob gas price is defined for every excess, is at least the minimum
    fee, and never falls when the excess grows. *)
Theorem blob_price_monotone `{UL : U256Laws} (e1 e2 : Z) :
  0 <= e1 <= e2 → in_u64 e2 →
  ∃ p1 p2, calc_blob_gas_price e1 = Some p1 ∧ calc_blob_gas_price e2 = Some p2 ∧
           MIN_BLOB_BASE_FEE <= p1 <= p2 ∧ p2 <= u64_max.
Proof.
  intros He He2. set d := BLOB_BASE_FEE_UPDATE_FRACTION.
  assert (Hd : 0 < d <= u64_max) by (unfold d, BLOB_BASE_FEE_UPDATE_FRACTION, u64_max; lia).
  assert (H1 : in_u64 1) by (unfold in_u64, u64_max; lia).
  assert (He1 : in_u64 e1) by (unfold in_u64 in *; lia).
  assert (∃ N, (400 ≤ N)%nat) as [N HN] by (by exists 400%nat).
  exists (Z.min u64_max (exp_sum 1 e1 d N / d)), (Z.min u64_max (exp_sum 1 e2 d N / d)).
  split_and!; [exact (fake_exponential_sum 1 e1 d H1 He1 Hd N HN)
    |exact (fake_exponential_sum 1 e2 d H1 He2 Hd N HN)| | |lia].
  - pose proof (psum_mono 1 e1 d H1 He1 Hd 1 N ltac:(lia)) as Hs. cbn [exp_sum exp_term] in Hs.
    unfold MIN_BLOB_BASE_FEE.
    apply Z.min_glb; [unfold u64_max; lia|]. apply Z.div_le_lower_bound; lia.
  - apply Z.min_le_compat_l, Z.div_le_mono; [lia|]. apply exp_sum_mono; lia.
Qed.

(** The base fee of the next block is positive and a [u64]; it moves in the
    direction of the parent's gas use; one block lowers it by at most an eighth,
    and, when the parent respects an even gas limit, raises it by at most an
    eighth or by one. *)
Theorem base_fee_bounds (used limit base : Z) :
  in_u64 used → in_u64 limit → 0 < base <= u64_max →
  let next := calculate_base_fee used limit base in
  1 <= next <= u64_max ∧
  (limit / 2 < used → limit / 2 ≠ 0 → Z.min (base + 1) u64_max <= next) ∧
  (used < limit / 2 → next <= base) ∧
  base - base / 8 <= next ∧
  (used <= limit → limit mod 2 = 0 → next <= base + Z.max 1 (base / 8)).
Proof.
  intros Hu Hl Hb next. unfold next, calculate_base_fee, in_u64 in *.
  assert (Hb8 : 0 <= base / 8 <= base) by div_lia.
  rw (proj2 (Z.eqb_neq base 0)); [lia|]. set t := limit / 2.
  assert (Ht : 0 <= t <= u64_max ∧ (limit mod 2 = 0 → limit = 2 * t)) by (unfold t; div_lia).
  clearbody t. destruct Ht as [Ht Heven].
  case: (Z.eqb_spec t 0) => Ht0; [lia|]. case: (Z.eqb_spec used t) => Hut; [lia|].
  case: (Z.ltb_spec t used) => Hlt.
  - assert (Hd0 : 0 <= base_fee_delta base (sat_sub used t) t).
    { unfold base_fee_delta, sat_sub, u128_max, u64_max, BASE_FEE_CHANGE_DENOMINATOR.
      apply Z.min_glb; [|lia]. repeat apply Z.div_pos; nia. }
    assert (Heq : used <= limit → limit mod 2 = 0 →
                  base_fee_delta base (sat_sub used t) t <= base / 8).
    { intros Hul He. specialize (Heven He).
      pose proof (fee_fraction_le base (sat_sub used t) t ltac:(lia) ltac:(lia)
        ltac:(unfold sat_sub; lia)) as Hf.
      rw base_fee_delta_exact; unfold in_u64, sat_sub in *; lia. }
    move: (base_fee_delta _ _ _) Hd0 Heq => delta Hd0 Heq. unfold sat_add. split_and!; lia.
  - pose proof (fee_fraction_le base (sat_sub t used) t ltac:(lia) ltac:(lia)
      ltac:(unfold sat_sub; lia)) as Hf.
    rw base_fee_delta_exact; [unfold in_u64, sat_sub in *; lia..|].
    move: (base * _ / t / 8) Hf => delta Hf. unfold sat_sub. split_and!; lia.
Qed.

(** ** Witnesses *)

(** [U256] arithmetic modulo [2^256]. *)
#[local] Instance wrapping_u256 : U256Ops := {|
  u256_add a b := (a + b) mod (u256_max + 1);
  u256_sub a b := (a - b) mod (u256_max + 1);
  u256_mul a b := (a * b) mod (u256_max + 1);
  u256_div a b := a / b;
|}.

#[local] Instance wrapping_u256_laws : U256Laws wrapping_u256.
Proof. split; intros; simpl; try rw Z.mod_small; lia. Qed.

Lemma fake_exponential_exact_witness :
  fake_exponential 1 10000000 3338477 =
    Some (Z.min u64_max (exp_sum 1 10000000 3338477 400 / 3338477)) ∧
  fake_exponential 1 10000000 3338477 = Some 19.
Proof.
  split; [|by vm_compute].
  exact (fake_exponential_exact 1 10000000 3338477 400 ltac:(split; done) ltac:(split; done)
           ltac:(split; done) ltac:(done)).
Defined.

Lemma blob_price_monotone_witness :
  ∃ p1 p2, calc_blob_gas_price 0 = Some p1 ∧ calc_blob_gas_price 10000000 = Some p2 ∧
           MIN_BLOB_BASE_FEE <= p1 <= p2 ∧ p2 <= u64_max.
Proof.
  exact (blob_price_monotone 0 10000000 ltac:(lia) ltac:(split; done)).
Defined.

Lemma base_fee_bounds_witness :
  let next := calculate_base_fee 30000000 30000000 1000000000 in
  1 <= next <= u64_max ∧
  (30000000 / 2 < 30000000 → 30000000 / 2 ≠ 0 → Z.min (1000000000 + 1) u64_max <= next) ∧
  (30000000 < 30000000 / 2 → next <= 1000000000) ∧
  1000000000 - 1000000000 / 8 <= next ∧
  (30000000 <= 30000000 → 30000000 mod 2 = 0 → next <= 1000000000 + Z.max 1 (1000000000 / 8)).
Proof.
  exact (base_fee_bounds 30000000 30000000 1000000000 ltac:(split; done) ltac:(split; done)
           ltac:(split; done)).
Defined.

(** An odd gas limit lets a full block raise the fee by more than an eighth. *)
Lemma odd_limit_exceeds_eighth :
  calculate_base_fee 3 3 1000 = 1250 ∧ 1000 + 1000 / 8 < 1250.
Proof. by vm_compute. Qed.
