(* ===== verification/Rlp.v ===== *)
(** * RLP

    The wire encodings of the chain are RLP, through the external crate
    [alloy_rlp]: its primitives are the parameters of the class [Rlp], with the
    laws the code relies on in [RlpLaws].  On top of them: the decoder monad,
    the element loop and the length check that the decoders of crates/core
    share, and the codecs of 32-byte arrays (crates/primitives).  RlpImpl.v
    implements RLP and shows that it obeys the laws. *)

From S2P Require Import Prelude Primitives.

(** ** Decoders *)

(** [alloy_rlp::Error]; [Panicked] stands for an [unreachable!()]. *)
Inductive RlpError :=
| Overflow
| LeadingZero
| InputTooShort
| NonCanonicalSingleByte
| NonCanonicalSize
| UnexpectedLength
| UnexpectedString
| UnexpectedList
| ListLengthMismatch (expected got : Z)
| Custom (msg : string)
| Panicked.

(** A decoder advances a byte slice. *)
Definition decoder (A : Type) : Type := list Z → result (A * list Z) RlpError.

Definition dret {A} (a : A) : decoder A := λ buf, Ok (a, buf).
Definition dfail {A} (e : RlpError) : decoder A := λ _, Err e.
Definition dbind {A B} (m : decoder A) (k : A → decoder B) : decoder B := λ buf,
  match m buf with Ok (a, buf') => k a buf' | Err e => Err e end.
(** [buf.len()]. *)
Definition dlen : decoder Z := λ buf, Ok (Z.of_nat (length buf), buf).

Notation "'let!' x ':=' m 'in' k" := (dbind m (λ x, k))
  (at level 10, x pattern, m at level 100, k at level 200) : shell_scope.

(** [if !cond { return Err(e) }]. *)
Definition dguard (cond : bool) (e : RlpError) : decoder unit :=
  if cond then dret tt else dfail e.

(** [usize] addition and sums in a build without overflow checks. *)
Definition wrapping_add (a b : Z) : Z := (a + b) mod (u64_max + 1).
Definition usize_sum {A} (f : A → Z) (l : list A) : Z := sumZ f l mod (u64_max + 1).

(** A successful run of the decoder takes at least one byte. *)
Definition shrinks {A} (d : decoder A) : Prop := ∀ buf x rest,
  d buf = Ok (x, rest) → (length rest < length buf)%nat.

Class Rlp := {
  (** [Header { list, payload_length }]: [encode], [length] and [decode]. *)
  header_encode : bool → Z → list Z;
  header_length : bool → Z → Z;
  header_decode : decoder (bool * Z);
  (** Byte slices: [encode], [length], [Header::decode_bytes(buf, false)] and
      [<[u8; 32]>::decode]. *)
  bytes_encode : list Z → list Z;
  bytes_length : list Z → Z;
  bytes_decode : decoder (list Z);
  array32_decode : decoder (list Z);
  (** Unsigned integers; the argument of the decoder is the type's maximum. *)
  uint_encode : Z → list Z;
  uint_length : Z → Z;
  uint_decode : Z → decoder Z;
}.

Definition bytes_ok (l : list Z) : Prop := Forall (λ b, 0 <= b < 256) l.

(** What the crate documents: decoding inverts encoding and leaves the rest of
    the buffer, a decoded header never promises more than the buffer holds, the
    lengths are those of the encodings, lists and strings start with different
    bytes, and decoding takes bytes from the buffer. *)
Class RlpLaws (R : Rlp) : Prop := {
  header_decode_encode n rest : 0 <= n <= Z.of_nat (length rest) → n <= u64_max →
    header_decode (header_encode true n ++ rest) = Ok (true, n, rest);
  header_decode_bound buf l n rest :
    header_decode buf = Ok (l, n, rest) → 0 <= n <= Z.of_nat (length rest);
  header_length_encode n : 0 <= n <= u64_max →
    header_length true n = Z.of_nat (length (header_encode true n)) ∧ header_length true n <= 9;
  header_list_byte n : 0 <= n <= u64_max →
    ∃ b t, header_encode true n = b :: t ∧ Z.land b 192 = 192;
  bytes_decode_encode l rest : bytes_ok l → Z.of_nat (length l) <= u64_max →
    bytes_decode (bytes_encode l ++ rest) = Ok (l, rest);
  array32_decode_encode l rest : bytes_ok l → length l = 32%nat →
    array32_decode (bytes_encode l ++ rest) = Ok (l, rest);
  bytes_length_encode l : bytes_ok l → Z.of_nat (length l) <= u64_max →
    bytes_length l = Z.of_nat (length (bytes_encode l)) ∧
    1 <= bytes_length l <= Z.of_nat (length l) + 9;
  bytes_encode_nil : bytes_encode [] = [128];
  uint_decode_encode m x rest : 0 <= x <= m → m <= u256_max →
    uint_decode m (uint_encode x ++ rest) = Ok (x, rest);
  uint_length_encode x : 0 <= x <= u256_max →
    uint_length x = Z.of_nat (length (uint_encode x)) ∧ 1 <= uint_length x <= 33;
  header_decode_shrinks buf n rest :
    header_decode buf = Ok (true, n, rest) → (length rest < length buf)%nat;
  bytes_decode_shrinks : shrinks bytes_decode;
  array32_decode_shrinks : shrinks array32_decode;
  uint_decode_shrinks m : shrinks (uint_decode m);
}.

Definition u8_max : Z := 255.

(** [rlp_payload_end] of crates/core. *)
Definition rlp_payload_end (buf_len payload_length : Z) : result Z RlpError :=
  if payload_length <=? buf_len then Ok (buf_len - payload_length) else Err InputTooShort.

Definition dlift {A} (r : result A RlpError) : decoder A := λ buf,
  match r with Ok a => Ok (a, buf) | Err e => Err e end.

(** [while buf.len() > end { if items.len() == max { return Err(..) }
    items.push(f(buf)?) }], [room] being the items still allowed. *)
Fixpoint decode_while {A} (room : nat) (msg : string) (f : decoder A) (end_ : Z) (acc : list A) :
    decoder (list A) := λ buf,
  if end_ <? Z.of_nat (length buf) then
    match room with
    | O => Err (Custom msg)
    | S room =>
        match f buf with
        | Ok (x, buf') => decode_while room msg f end_ (acc ++ [x]) buf'
        | Err e => Err e
        end
    end
  else Ok (acc, buf).

(** [while buf.len() > end { items.push(f(buf)?) }], without a limit on the
    number of elements.  [fuel] bounds the rounds; it never runs out when it is
    the number of bytes and every element takes one (lemma [decode_loop_fuel]). *)
Fixpoint decode_loop {A} (fuel : nat) (f : decoder A) (end_ : Z) (acc : list A) :
    decoder (list A) := λ buf,
  if end_ <? Z.of_nat (length buf) then
    match fuel with
    | O => Err Panicked
    | S fuel =>
        match f buf with
        | Ok (x, buf') => decode_loop fuel f end_ (acc ++ [x]) buf'
        | Err e => Err e
        end
    end
  else Ok (acc, buf).
Definition decode_until {A} (f : decoder A) (end_ : Z) : decoder (list A) := λ buf,
  decode_loop (length buf) f end_ [] buf.

(** [if buf.len() != end { return Err(ListLengthMismatch { .. }) }], for a list
    that started with [start] bytes left. *)
Definition check_end (start end_ expected : Z) : decoder unit := λ buf,
  let len := Z.of_nat (length buf) in
  if len =? end_ then Ok (tt, buf) else Err (ListLengthMismatch expected (sat_sub start len)).

(** [consumed != header.payload_length] at the end of a record. *)
Definition check_consumed (start expected : Z) : decoder unit := λ buf,
  let consumed := sat_sub start (Z.of_nat (length buf)) in
  if consumed =? expected then Ok (tt, buf) else Err (ListLengthMismatch expected consumed).

(** ** 32-byte arrays and optional addresses *)

Definition b256_from_bytes (l : list Z) : b256 := b256_of_Z (from_be_bytes l).

Section codecs.
Context {R : Rlp}.

Definition b256_encode (a : b256) : list Z := bytes_encode (as_bytes a).
Definition b256_length (a : b256) : Z := bytes_length (as_bytes a).
Definition b256_decode : decoder b256 :=
  let! l := array32_decode in dret (b256_from_bytes l).

(** [None] is written as an empty string. *)
Definition opt_address_encode (a : option Address) : list Z :=
  match a with Some a => b256_encode a | None => bytes_encode [] end.
Definition opt_address_length (a : option Address) : Z :=
  match a with Some a => b256_length a | None => 1 end.
Definition opt_address_decode (msg : string) : decoder (option Address) :=
  let! raw := bytes_decode in
  match raw with
  | [] => dret None
  | _ =>
      if (length raw =? 32)%nat then dret (Some (b256_from_bytes raw))
      else dfail (Custom msg)
  end.

(** A list header followed by its payload. *)
Definition list_encode (payload_length : Z) (payload : list Z) : list Z :=
  header_encode true payload_length ++ payload.
Definition list_length (payload_length : Z) : Z :=
  sat_add (header_length true payload_length) payload_length.

(** [Header::decode] of a list. *)
Definition list_header_decode : decoder Z :=
  let! h := header_decode in
  if h.1 then dret h.2 else dfail UnexpectedString.

(** The elements of a list of at most [max] items. *)
Definition decode_items {A} (max : nat) (msg : string) (f : decoder A) (payload_length : Z) :
    decoder (list A) :=
  let! start := dlen in
  let! end_ := dlift (rlp_payload_end start payload_length) in
  let! items := decode_while max msg f end_ [] in
  let! _ := check_end start end_ payload_length in
  dret items.

(** The elements of a list without a limit on their number. *)
Definition decode_all {A} (f : decoder A) (payload_length : Z) : decoder (list A) :=
  let! start := dlen in
  let! end_ := dlift (rlp_payload_end start payload_length) in
  let! items := decode_until f end_ in
  let! _ := check_end start end_ payload_length in
  dret items.
End codecs.

(** ** Laws of the derived codecs *)

(** [dec] inverts [enc] on [ok] values, up to the normal form [nf], whatever
    follows in the buffer. *)
Definition decodes {A} (enc : A → list Z) (dec : decoder A) (nf : A → A) (x : A) : Prop :=
  ∀ rest, dec (enc x ++ rest) = Ok (nf x, rest).

Lemma be_bytes_ok n z : bytes_ok (be_bytes n z).
Proof.
  induction n as [|n IH]; simpl; [by constructor|]. constructor; [|done].
  by apply Z.mod_pos_bound.
Qed.

Lemma as_bytes_ok a : bytes_ok (as_bytes a).
Proof. apply be_bytes_ok. Qed.

Lemma b256_from_as_bytes a : b256_from_bytes (as_bytes a) = a.
Proof.
  rw /b256_from_bytes /as_bytes from_be_bytes_be_bytes b256_pow. pose proof (b256_range a).
  rw Z.mod_small; [lia|]. apply b256_of_Z_unsigned.
Qed.

#[export] Hint Resolve be_bytes_ok as_bytes_ok : bytes.

Section laws.
Context {R : Rlp} {RL : RlpLaws R}.

Lemma b256_decodes a : decodes b256_encode b256_decode id a.
Proof.
  intros rest. rw /b256_decode /b256_encode /dbind array32_decode_encode;
    [apply as_bytes_ok|apply length_as_bytes|]. by rw /= /dret b256_from_as_bytes.
Qed.

Lemma b256_length_encode a :
  b256_length a = Z.of_nat (length (b256_encode a)) ∧ 1 <= b256_length a <= 41.
Proof.
  rw /b256_length /b256_encode.
  destruct (bytes_length_encode (as_bytes a)) as [? H];
    [apply as_bytes_ok|by rw length_as_bytes|]. split; [done|]. rw length_as_bytes in H. lia.
Qed.

Lemma opt_address_decodes msg a : decodes opt_address_encode (opt_address_decode msg) id a.
Proof.
  intros rest. rw /opt_address_decode /dbind. destruct a as [a|]; simpl.
  - rw /b256_encode bytes_decode_encode; [apply as_bytes_ok|by rw length_as_bytes|].
    destruct (as_bytes a) as [|b l] eqn:E; [by pose proof (length_as_bytes a); rw E in H|].
    rw -E length_as_bytes /= /dret b256_from_as_bytes. done.
  - rw bytes_decode_encode; [by constructor|done|done].
Qed.

Lemma opt_address_length_encode a :
  opt_address_length a = Z.of_nat (length (opt_address_encode a)) ∧ 1 <= opt_address_length a <= 41.
Proof.
  destruct a as [a|]; simpl; [apply b256_length_encode|]. by rw bytes_encode_nil.
Qed.

Lemma list_header_decodes n rest :
  0 <= n <= Z.of_nat (length rest) → n <= u64_max →
  list_header_decode (header_encode true n ++ rest) = Ok (n, rest).
Proof. intros. by rw /list_header_decode /dbind header_decode_encode. Qed.

Lemma list_length_encode n payload :
  n = Z.of_nat (length payload) → n <= u64_max - 9 →
  list_length n = Z.of_nat (length (list_encode n payload)) ∧ n <= list_length n <= n + 9.
Proof.
  intros Hn Hle. rw /list_length /list_encode length_app Nat2Z.inj_add.
  destruct (header_length_encode n) as [H1 H2]; [lia|]. rw -H1 -Hn.
  unfold sat_add, u64_max in *. lia.
Qed.

Lemma decode_while_encode {A} (enc : A → list Z) dec nf msg (l : list A) room acc rest :
  (length l ≤ room)%nat →
  (∀ x, x ∈ l → decodes enc dec nf x ∧ (0 < length (enc x))%nat) →
  decode_while room msg dec (Z.of_nat (length rest)) acc ((l ≫= enc) ++ rest) =
    Ok (acc ++ (nf <$> l), rest).
Proof.
  revert room acc. induction l as [|x l IH]; intros room acc Hroom Hl.
  - rw /= app_nil_r. destruct room; simpl; by rw Z.ltb_irrefl.
  - destruct room as [|room]; [simpl in *; lia|].
    destruct (Hl x) as [Hx Hpos]; [set_solver|].
    cbn [decode_while]. rw bind_cons (proj2 (Z.ltb_lt _ _)).
    { rw !length_app. lia. }
    rw -app_assoc (Hx ((l ≫= enc) ++ rest)) IH; [simpl in *; lia|set_solver|].
    by rw fmap_cons -app_assoc.
Qed.

Lemma decode_items_encode {A} (enc : A → list Z) dec nf msg max (l : list A) n rest :
  (length l ≤ max)%nat → n = Z.of_nat (length (l ≫= enc)) →
  (∀ x, x ∈ l → decodes enc dec nf x ∧ (0 < length (enc x))%nat) →
  decode_items max msg dec n ((l ≫= enc) ++ rest) = Ok (nf <$> l, rest).
Proof.
  intros Hmax Hn Hl. rw /decode_items /dbind /dlen /dlift /rlp_payload_end.
  rw (proj2 (Z.leb_le _ _)); [rw length_app; lia|].
  replace (Z.of_nat (length ((l ≫= enc) ++ rest)) - n) with (Z.of_nat (length rest))
    by (rw length_app; lia).
  rw (decode_while_encode enc dec nf) //. by rw /check_end Z.eqb_refl.
Qed.
End laws.

(** ** What a decoder consumes *)

Definition keeps {A} (d : decoder A) : Prop := ∀ buf x rest,
  d buf = Ok (x, rest) → (length rest ≤ length buf)%nat.

Lemma shrinks_keeps {A} (d : decoder A) : shrinks d → keeps d.
Proof. intros H buf x rest E. pose proof (H _ _ _ E). lia. Qed.
Lemma dbind_shrinks {A B} (m : decoder A) (k : A → decoder B) :
  shrinks m → (∀ x, keeps (k x)) → shrinks (dbind m k).
Proof.
  intros Hm Hk buf y rest. rw /dbind. destruct (m buf) as [[x buf']|e] eqn:E; [|done].
  intros H. pose proof (Hm _ _ _ E). pose proof (Hk _ _ _ _ H). lia.
Qed.
Lemma dbind_keeps {A B} (m : decoder A) (k : A → decoder B) :
  keeps m → (∀ x, keeps (k x)) → keeps (dbind m k).
Proof.
  intros Hm Hk buf y rest. rw /dbind. destruct (m buf) as [[x buf']|e] eqn:E; [|done].
  intros H. pose proof (Hm _ _ _ E). pose proof (Hk _ _ _ _ H). lia.
Qed.
Lemma dret_keeps {A} (a : A) : keeps (dret a).
Proof. by intros buf x rest [= _ <-]. Qed.
Lemma dfail_keeps {A} e : keeps (A := A) (dfail e).
Proof. by intros buf x rest H. Qed.
Lemma dlen_keeps : keeps dlen.
Proof. by intros buf x rest [= _ <-]. Qed.
Lemma dlift_keeps {A} (r : result A RlpError) : keeps (dlift r).
Proof. intros buf x rest. rw /dlift. destruct r; [by intros [= _ <-]|done]. Qed.
Lemma dguard_keeps c e : keeps (dguard c e).
Proof. destruct c; [apply dret_keeps|apply dfail_keeps]. Qed.
Lemma check_end_keeps s e n : keeps (check_end s e n).
Proof. intros buf x rest. rw /check_end. case_match; [by intros [= _ <-]|done]. Qed.
Lemma check_consumed_keeps s n : keeps (check_consumed s n).
Proof. intros buf x rest. rw /check_consumed. case_match; [by intros [= _ <-]|done]. Qed.
Lemma decode_while_keeps {A} room msg (f : decoder A) e acc : keeps f → keeps (decode_while room msg f e acc).
Proof.
  intros Hf. revert acc. induction room as [|room IH]; intros acc buf x rest; simpl;
    (case_match; [|by intros [= _ <-]]); [done|].
  destruct (f buf) as [[y buf']|] eqn:E; [|done]. intros HH. pose proof (Hf _ _ _ E).
  pose proof (IH _ _ _ _ HH). lia.
Qed.
Lemma decode_loop_keeps {A} fuel (f : decoder A) e acc : keeps f → keeps (decode_loop fuel f e acc).
Proof.
  intros Hf. revert acc. induction fuel as [|fuel IH]; intros acc buf x rest; simpl;
    (case_match; [|by intros [= _ <-]]); [done|].
  destruct (f buf) as [[y buf']|] eqn:E; [|done]. intros HH. pose proof (Hf _ _ _ E).
  pose proof (IH _ _ _ _ HH). lia.
Qed.

(** More rounds than bytes change nothing: the loop never runs out of fuel. *)
Lemma decode_loop_fuel {A} (f : decoder A) end_ n m acc buf :
  shrinks f → 0 <= end_ → (length buf ≤ n)%nat → (length buf ≤ m)%nat →
  decode_loop n f end_ acc buf = decode_loop m f end_ acc buf.
Proof.
  intros Hf He. revert m acc buf. induction n as [|n IH]; intros m acc buf Hn Hm.
  - destruct buf; [|simpl in *; lia]. destruct m; simpl; by rw (proj2 (Z.ltb_ge _ _)); [|].
  - simpl. destruct m as [|m]; simpl.
    + destruct buf; [|simpl in *; lia]. by rw /= (proj2 (Z.ltb_ge _ _)).
    + case_match; [|done]. destruct (f buf) as [[y buf']|] eqn:E; [|done].
      pose proof (Hf _ _ _ E). apply IH; lia.
Qed.

(** The unlimited loop does what the limited one does below its limit. *)
Lemma decode_loop_while {A} n msg (f : decoder A) end_ acc buf r :
  decode_while n msg f end_ acc buf = Ok r → decode_loop n f end_ acc buf = Ok r.
Proof.
  revert acc buf. induction n as [|n IH]; intros acc buf; simpl; (case_match; [|done]); [done|].
  destruct (f buf) as [[y buf']|]; [apply IH|done].
Qed.

Lemma length_concat_ge {A} (enc : A → list Z) (l : list A) :
  (∀ x, x ∈ l → (0 < length (enc x))%nat) → (length l ≤ length (l ≫= enc))%nat.
Proof.
  induction l as [|x l IH]; intros H; [done|]. rw bind_cons length_app /=.
  pose proof (H x ltac:(set_solver)). specialize (IH ltac:(set_solver)). lia.
Qed.

Create HintDb consume.
#[export] Hint Resolve dret_keeps dfail_keeps dlen_keeps dlift_keeps dguard_keeps check_end_keeps
  check_consumed_keeps decode_while_keeps decode_loop_keeps : consume.

Section consumes.
Context {R : Rlp} {RL : RlpLaws R}.

Lemma decode_all_encode {A} (enc : A → list Z) dec nf (l : list A) n rest :
  n = Z.of_nat (length (l ≫= enc)) →
  (∀ x, x ∈ l → decodes enc dec nf x ∧ (0 < length (enc x))%nat) →
  decode_all dec n ((l ≫= enc) ++ rest) = Ok (nf <$> l, rest).
Proof.
  intros Hn Hl. rw /decode_all /dbind /dlen /dlift /rlp_payload_end.
  rw (proj2 (Z.leb_le _ _)); [rw length_app; lia|].
  replace (Z.of_nat (length ((l ≫= enc) ++ rest)) - n) with (Z.of_nat (length rest))
    by (rw length_app; lia).
  rw /decode_until (decode_loop_while _ EmptyString _ _ _ _ (nf <$> l, rest)).
  { rw (decode_while_encode enc dec nf) //.
    rw length_app. pose proof (length_concat_ge enc l). naive_solver lia. }
  by rw /check_end Z.eqb_refl.
Qed.

Lemma list_header_shrinks : shrinks list_header_decode.
Proof.
  intros buf n rest. rw /list_header_decode /dbind. destruct (header_decode buf) as [[[l k] b]|] eqn:E; [|done].
  destruct l; [|done]. intros [= <- <-]. by eapply header_decode_shrinks.
Qed.
Lemma b256_decode_shrinks : shrinks b256_decode.
Proof. apply dbind_shrinks; [apply array32_decode_shrinks|intros; apply dret_keeps]. Qed.
End consumes.
#[export] Hint Resolve list_header_shrinks b256_decode_shrinks bytes_decode_shrinks uint_decode_shrinks
  array32_decode_shrinks : consume.

(** Walks through a decoder, branch by branch. *)
Ltac keeps_step :=
  first
  [ solve [auto with consume]
  | solve [apply shrinks_keeps; auto with consume]
  | apply dbind_keeps; [|intros ?]
  | match goal with |- keeps (match ?x with _ => _ end) => destruct x end
  | match goal with |- keeps (if ?x then _ else _) => destruct x end ].
Ltac solve_keeps := repeat keeps_step.
Ltac solve_shrinks := apply dbind_shrinks; [auto with consume|intros ?; solve_keeps].
