(* ===== verification/RlpImpl.v ===== *)
(** * An implementation of RLP

    Recursive length prefix encoding, as its specification gives it, and the
    proof that it obeys [RlpLaws]: the laws the codecs are verified against can
    hold.  Used to evaluate the codecs on concrete values. *)

From S2P Require Import Prelude Primitives Rlp.

(** The shortest big-endian form of a positive integer. *)
Definition byte_width (x : Z) : nat := if x =? 0 then 0%nat else S (Z.to_nat (Z.log2 x / 8)).
Definition min_be (x : Z) : list Z := be_bytes (byte_width x) x.

Definition impl_header_encode (is_list : bool) (n : Z) : list Z :=
  let base := if is_list then 192 else 128 in
  if n <? 56 then [base + n] else base + 55 + Z.of_nat (byte_width n) :: min_be n.

Definition impl_bytes_encode (l : list Z) : list Z :=
  match l with
  | [b] => if b <? 128 then [b] else impl_header_encode false 1 ++ l
  | _ => impl_header_encode false (Z.of_nat (length l)) ++ l
  end.

Definition impl_uint_encode (x : Z) : list Z := impl_bytes_encode (min_be x).

(** A header whose length follows in [k] bytes. *)
Definition long_header (is_list : bool) (k : nat) (t : list Z) : result (bool * Z * list Z) RlpError :=
  let n := from_be_bytes (take k t) in
  if (0 <=? n) && (n <=? Z.of_nat (length (drop k t))) then Ok (is_list, n, drop k t)
  else Err InputTooShort.

Definition short_header (is_list : bool) (n : Z) (t : list Z) : result (bool * Z * list Z) RlpError :=
  if n <=? Z.of_nat (length t) then Ok (is_list, n, t) else Err InputTooShort.

Definition impl_header_decode : decoder (bool * Z) := λ buf,
  match buf with
  | [] => Err InputTooShort
  | b :: t =>
      if b <? 128 then Ok (false, 1, buf)
      else if b <? 184 then short_header false (b - 128) t
      else if b <? 192 then long_header false (Z.to_nat (b - 183)) t
      else if b <? 248 then short_header true (b - 192) t
      else long_header true (Z.to_nat (b - 247)) t
  end.

Definition impl_bytes_decode : decoder (list Z) := λ buf,
  match impl_header_decode buf with
  | Ok (true, _, _) => Err UnexpectedList
  | Ok (false, n, rest) => Ok (take (Z.to_nat n) rest, drop (Z.to_nat n) rest)
  | Err e => Err e
  end.

#[export] Instance rlp_impl : Rlp := {|
  header_encode := impl_header_encode;
  header_length l n := Z.of_nat (length (impl_header_encode l n));
  header_decode := impl_header_decode;
  bytes_encode := impl_bytes_encode;
  bytes_length l := Z.of_nat (length (impl_bytes_encode l));
  bytes_decode := impl_bytes_decode;
  array32_decode :=
    let! l := impl_bytes_decode in
    if (length l =? 32)%nat then dret l else dfail UnexpectedLength;
  uint_encode := impl_uint_encode;
  uint_length x := Z.of_nat (length (impl_uint_encode x));
  uint_decode m :=
    let! l := impl_bytes_decode in
    if from_be_bytes l <=? m then dret (from_be_bytes l) else dfail Overflow;
|}.

Lemma byte_width_spec x : 0 <= x → x < 256 ^ Z.of_nat (byte_width x).
Proof.
  intros Hx. rw /byte_width. destruct (Z.eqb_spec x 0) as [->|Hne]; [done|].
  pose proof (Z.log2_spec x ltac:(lia)) as [_ Hlt]. pose proof (Z.log2_nonneg x).
  eapply Z.lt_le_trans; [exact Hlt|]. change 256 with (2 ^ 8). rw -Z.pow_mul_r; [lia..|].
  apply Z.pow_le_mono_r; [lia|]. div_lia.
Qed.

Lemma byte_width_le x k : 0 <= x < 256 ^ Z.of_nat k → (byte_width x ≤ k)%nat.
Proof.
  intros [Hx Hlt]. rw /byte_width. destruct (Z.eqb_spec x 0) as [->|Hne]; [lia|].
  change 256 with (2 ^ 8) in Hlt. rw -Z.pow_mul_r in Hlt; [lia..|].
  apply Z.log2_lt_pow2 in Hlt; [|lia]. pose proof (Z.log2_nonneg x). div_lia.
Qed.

Lemma min_be_value x : 0 <= x → from_be_bytes (min_be x) = x.
Proof.
  intros Hx. rw /min_be from_be_bytes_be_bytes Z.mod_small //. split; [done|].
  by apply byte_width_spec.
Qed.

Lemma length_min_be x : length (min_be x) = byte_width x.
Proof. apply length_be_bytes. Qed.

Lemma u64_width n : 0 <= n <= u64_max → (byte_width n ≤ 8)%nat.
Proof. intros Hn. apply byte_width_le. unfold u64_max in Hn. change (256 ^ Z.of_nat 8) with (2 ^ 64). lia. Qed.

Lemma width_pos n : 56 <= n → (1 ≤ byte_width n)%nat.
Proof. intros Hn. rw /byte_width (proj2 (Z.eqb_neq _ _)); [lia|]. lia. Qed.

(** ** The laws *)

(** A header followed by [rest], whatever its kind. *)
Lemma impl_header_decode_encode l n rest :
  0 <= n <= Z.of_nat (length rest) → n <= u64_max →
  impl_header_decode (impl_header_encode l n ++ rest) = Ok (l, n, rest).
Proof.
  intros Hn Hu. rw /impl_header_encode. destruct (Z.ltb_spec n 56) as [Hs|Hs].
  - destruct l; simpl.
    + repeat (rw (proj2 (Z.ltb_ge _ _)); [lia|]). rw (proj2 (Z.ltb_lt _ _)); [lia|].
      rw /short_header Z.add_simpl_l (proj2 (Z.leb_le _ _)) //; lia.
    + rw (proj2 (Z.ltb_ge _ _)); [lia|]. rw (proj2 (Z.ltb_lt _ _)); [lia|].
      rw /short_header Z.add_simpl_l (proj2 (Z.leb_le _ _)) //; lia.
  - pose proof (u64_width n ltac:(lia)). pose proof (width_pos n Hs).
    assert (Hlong : long_header l (byte_width n) (min_be n ++ rest) = Ok (l, n, rest)).
    { rw /long_header -(length_min_be n) take_app_length drop_app_length min_be_value; [lia|].
      by rw (proj2 (Z.leb_le 0 n)) ?(proj2 (Z.leb_le n _)); try lia. }
    destruct l; simpl.
    + repeat (rw (proj2 (Z.ltb_ge _ _)); [lia|]).
      replace (Z.to_nat _) with (byte_width n) by lia. done.
    + do 2 (rw (proj2 (Z.ltb_ge _ _)); [lia|]). rw (proj2 (Z.ltb_lt _ _)); [lia|].
      replace (Z.to_nat _) with (byte_width n) by lia. done.
Qed.

Lemma impl_header_decode_bound buf l n rest :
  impl_header_decode buf = Ok (l, n, rest) → 0 <= n <= Z.of_nat (length rest).
Proof.
  rw /impl_header_decode /short_header /long_header. destruct buf as [|b t]; [done|].
  intros H. repeat case_match; simplify_eq; simpl; lia.
Qed.

Lemma impl_bytes_decode_encode l rest :
  bytes_ok l → Z.of_nat (length l) <= u64_max →
  impl_bytes_decode (impl_bytes_encode l ++ rest) = Ok (l, rest).
Proof.
  intros Hl Hlen.
  assert (Hgen : impl_bytes_decode
    ((impl_header_encode false (Z.of_nat (length l)) ++ l) ++ rest) = Ok (l, rest)).
  { rw /impl_bytes_decode -app_assoc impl_header_decode_encode; [rw length_app; lia|done|].
    by rw Nat2Z.id take_app_length drop_app_length. }
  rw /impl_bytes_encode. destruct l as [|b [|b' l]]; [done| |done].
  destruct (Z.ltb_spec b 128) as [Hb|Hb]; [|done].
  rw /impl_bytes_decode /= (proj2 (Z.ltb_lt _ _)) //.
Qed.

Lemma length_header_le l n :
  0 <= n <= u64_max → 1 <= Z.of_nat (length (impl_header_encode l n)) <= 9.
Proof.
  intros Hn. rw /impl_header_encode. destruct (n <? 56); simpl; [lia|].
  rw length_min_be. pose proof (u64_width n Hn). lia.
Qed.

Lemma length_bytes_le l :
  Z.of_nat (length l) <= u64_max →
  1 <= Z.of_nat (length (impl_bytes_encode l)) <= Z.of_nat (length l) + 9.
Proof.
  intros Hl. pose proof (length_header_le false (Z.of_nat (length l)) ltac:(lia)).
  rw /impl_bytes_encode. destruct l as [|b [|b' l]]; [simpl; lia| |rw length_app; lia].
  destruct (b <? 128); simpl; lia.
Qed.

Lemma list_byte b : 192 <= b < 256 → Z.land b 192 = 192.
Proof.
  intros Hb. assert (Hall : Forall (λ b, Z.land b 192 = 192) (seqZ 192 64))
    by (vm_compute; repeat constructor).
  rw Forall_forall in Hall. apply Hall, elem_of_seqZ. lia.
Qed.

Lemma impl_header_shrinks buf l n rest :
  impl_header_decode buf = Ok (l, n, rest) →
  (l = true → (length rest < length buf)%nat) ∧
  (l = false → (length (drop (Z.to_nat n) rest) < length buf)%nat).
Proof.
  rw /impl_header_decode /short_header /long_header. destruct buf as [|b t]; [done|].
  intros H. repeat case_match; simplify_eq; split; intros; simplify_eq; rw ?length_drop /=; lia.
Qed.

Lemma impl_bytes_shrinks : shrinks impl_bytes_decode.
Proof.
  intros buf x rest. rw /impl_bytes_decode. destruct (impl_header_decode buf) as [[[[] n] r]|] eqn:E; try done.
  intros [= <- <-]. by apply (impl_header_shrinks _ _ _ _ E).
Qed.

#[export] Instance rlp_impl_laws : RlpLaws rlp_impl.
Proof.
  assert (Hmin : ∀ x, 0 <= x <= u256_max → (byte_width x ≤ 32)%nat).
  { intros x Hx. apply byte_width_le. rw b256_pow. lia. }
  split.
  - intros. by apply impl_header_decode_encode.
  - intros. by eapply impl_header_decode_bound.
  - intros n Hn. split; [done|]. by apply length_header_le.
  - intros n Hn. simpl. rw /impl_header_encode. destruct (Z.ltb_spec n 56) as [Hs|Hs].
    + exists (192 + n), []. split; [done|]. apply list_byte. lia.
    + pose proof (u64_width n Hn). eexists _, _. split; [done|]. apply list_byte. lia.
  - intros. by apply impl_bytes_decode_encode.
  - intros l rest Hl Hlen. simpl. rw /dbind impl_bytes_decode_encode //; [by rw Hlen|].
    by rw Hlen Nat.eqb_refl.
  - intros l _ Hlen. split; [done|]. by apply length_bytes_le.
  - done.
  - intros m x rest Hx Hm. pose proof (Hmin x ltac:(lia)). simpl.
    rw /dbind /impl_uint_encode impl_bytes_decode_encode.
    + apply be_bytes_ok.
    + rw length_min_be. unfold u64_max. lia.
    + rw min_be_value; [lia|]. rw (proj2 (Z.leb_le _ _)) //; lia.
  - intros x Hx. pose proof (Hmin x Hx). split; [done|]. simpl. rw /impl_uint_encode /impl_bytes_encode.
    pose proof (length_min_be x) as Hl. destruct (min_be x) as [|b [|b' l]].
    + simpl. lia.
    + destruct (b <? 128); simpl; lia.
    + rw length_app /impl_header_encode (proj2 (Z.ltb_lt _ _)); [rw Hl; lia|]. simpl in *. lia.
  - intros buf n rest E. by apply (impl_header_shrinks _ _ _ _ E).
  - apply impl_bytes_shrinks.
  - apply dbind_shrinks; [apply impl_bytes_shrinks|]. intros l. case_match; [apply dret_keeps|apply dfail_keeps].
  - intros m. apply dbind_shrinks; [apply impl_bytes_shrinks|]. intros l. case_match; [apply dret_keeps|apply dfail_keeps].
Qed.
