(* ===== verification/Transaction.v ===== *)
(** * Transactions

    The types of crates/core/src/transaction.rs (transactions, access lists,
    inner calls, session authorizations, account-abstraction bundles and the
    signed envelope), their structural validation and their constructors, with the
    size check of [PQSignature] (crates/crypto/src/signature.rs).  Byte strings are
    lists of bytes; [U256] values are integers up to [u256_max]. *)

From S2P Require Import Prelude Primitives Fee Rlp.

(** ** Types *)

Record AccessListItem := MkAccessListItem {
  al_address : Address;
  storage_keys : list ShellHash;
}.
#[global] Instance AccessListItem_eq_dec : EqDecision AccessListItem.
Proof. solve_decision. Defined.

Record Transaction := MkTransaction {
  tx_chain_id : Z;
  tx_nonce : Z;
  tx_to : option Address;
  tx_value : Z;
  tx_data : list Z;
  tx_gas_limit : Z;
  max_fee_per_gas : Z;
  max_priority_fee_per_gas : Z;
  access_list : option (list AccessListItem);
  tx_type : Z;
  max_fee_per_blob_gas : option Z;
  blob_versioned_hashes : option (list ShellHash);
}.
#[global] Instance Transaction_eq_dec : EqDecision Transaction.
Proof. solve_decision. Defined.

Record SessionAuth := MkSessionAuth {
  session_pubkey : list Z;
  session_algo : Z;
  session_target : option Address;
  value_cap : Z;
  expiry_block : Z;
  root_signature : list Z;
  session_signature : list Z;
}.
#[global] Instance SessionAuth_eq_dec : EqDecision SessionAuth.
Proof. solve_decision. Defined.

Record InnerCall := MkInnerCall {
  ic_to : option Address;
  ic_value : Z;
  ic_data : list Z;
  ic_gas_limit : Z;
}.
#[global] Instance InnerCall_eq_dec : EqDecision InnerCall.
Proof. solve_decision. Defined.

Record AaBundle := MkAaBundle {
  inner_calls : list InnerCall;
  paymaster : option Address;
  paymaster_signature : option (list Z);
  paymaster_context : option (list Z);
  session_auth : option SessionAuth;
}.
#[global] Instance AaBundle_eq_dec : EqDecision AaBundle.
Proof. solve_decision. Defined.

Inductive PubkeyMode :=
| Embedded (key : list Z)
| Reference.
#[global] Instance PubkeyMode_eq_dec : EqDecision PubkeyMode.
Proof. solve_decision. Defined.

(** The cached hash of the source is a function of the other fields. *)
Record SignedTransaction := MkSignedTransaction {
  st_from : Address;
  st_tx : Transaction;
  st_signature : PQSignature;
  pubkey_mode : PubkeyMode;
  aa_bundle : option AaBundle;
}.
#[global] Instance SignedTransaction_eq_dec : EqDecision SignedTransaction.
Proof. solve_decision. Defined.

(** ** Constants *)

Definition MAX_BLOB_HASHES_PER_TX : nat := 6.
Definition BLOB_VERSIONED_HASH_VERSION_KZG : Z := 1.
Definition MAX_ACCESS_LIST_ENTRIES : nat := Z.to_nat 256.
Definition MAX_ACCESS_LIST_STORAGE_KEYS : nat := Z.to_nat 512.
Definition AA_BUNDLE_TX_TYPE : Z := 126.
Definition MAX_INNER_CALLS : nat := 16.
Definition MAX_INNER_CALLDATA : Z := 128 * 1024.
Definition MAX_PAYMASTER_CONTEXT : Z := 4 * 1024.
Definition MAX_SESSION_PUBKEY : Z := 4 * 1024.
Definition AA_INNER_CALL_INTRINSIC_GAS : Z := 4000.
Definition PQ_VERIFY_GAS : Z := 10000.
Definition AA_BUNDLE_PRESENCE_FLAG : Z := 1.
Definition MAX_SIGNATURE_BYTES : Z := 51200.
Definition MAX_ML_DSA_65_SIG_BYTES : Z := 4096.

(** [x.len()]. *)
Definition len {A} (l : list A) : Z := Z.of_nat (length l).
Lemma len_nonneg {A} (l : list A) : 0 <= len l.
Proof. unfold len. lia. Qed.
(** [x.is_empty()]. *)
Definition is_empty {A} (l : list A) : bool := match l with [] => true | _ => false end.

(** ** Structural validation *)

Definition blob_gas (tx : Transaction) : Z :=
  match blob_versioned_hashes tx with
  | Some hashes => sat_mul (len hashes) BLOB_GAS_PER_BLOB
  | None => 0
  end.

Definition validate_access_list (tx : Transaction) : result unit string :=
  match access_list tx with
  | None => Ok tt
  | Some items =>
      if (MAX_ACCESS_LIST_ENTRIES <? length items)%nat
      then Err "access list exceeds maximum entry count"%string
      else if existsb (λ i, (MAX_ACCESS_LIST_STORAGE_KEYS <? length (storage_keys i))%nat) items
      then Err "access list entry exceeds maximum storage key count"%string
      else Ok tt
  end.

(** [hash.as_bytes()[0]]. *)
Definition first_byte (h : ShellHash) : Z := b256_unsigned h / 256 ^ 31.

Definition validate_blob_tx (tx : Transaction) : result unit string :=
  if negb (tx_type tx =? 3) then
    if bool_decide (is_Some (max_fee_per_blob_gas tx))
    then Err "non-blob tx cannot have max_fee_per_blob_gas"%string
    else if bool_decide (is_Some (blob_versioned_hashes tx))
    then Err "non-blob tx cannot have blob_versioned_hashes"%string
    else Ok tt
  else
    match blob_versioned_hashes tx with
    | None => Err "blob tx (type 3) must have blob_versioned_hashes"%string
    | Some hashes =>
        if is_empty hashes then Err "blob tx must have at least 1 blob hash"%string
        else if (MAX_BLOB_HASHES_PER_TX <? length hashes)%nat
        then Err "blob tx exceeds maximum blob hash count (6)"%string
        else if bool_decide (max_fee_per_blob_gas tx = None)
        then Err "blob tx must have max_fee_per_blob_gas"%string
        else if bool_decide (tx_to tx = None)
        then Err "blob tx cannot be a contract creation"%string
        else if existsb (λ h, negb (first_byte h =? BLOB_VERSIONED_HASH_VERSION_KZG)) hashes
        then Err "blob tx has unsupported versioned hash version"%string
        else Ok tt
    end.

Definition is_contract_creation (tx : Transaction) : bool := bool_decide (tx_to tx = None).

(** The pairing of paymaster, signature and context. *)
Definition validate_paymaster (b : AaBundle) : result unit string :=
  match paymaster b, paymaster_signature b, paymaster_context b with
  | None, None, None => Ok tt
  | Some _, Some sig, None =>
      if negb (is_empty sig) then Ok tt
      else Err "aa bundle: paymaster set but signature missing/empty"%string
  | Some _, None, Some ctx =>
      if negb (is_empty ctx) then
        if MAX_PAYMASTER_CONTEXT <? len ctx
        then Err "aa bundle: paymaster_context exceeds MAX_PAYMASTER_CONTEXT"%string
        else Ok tt
      else Err "aa bundle: invalid paymaster field combination"%string
  | Some _, None, None => Err "aa bundle: paymaster set but signature missing/empty"%string
  | Some _, Some _, Some _ =>
      Err "aa bundle: paymaster_signature and paymaster_context are mutually exclusive"%string
  | None, Some _, _ => Err "aa bundle: paymaster_signature set but paymaster missing"%string
  | None, None, Some _ => Err "aa bundle: paymaster_context set but paymaster missing"%string
  end.

Definition validate_session (sa : SessionAuth) : result unit string :=
  if is_empty (session_pubkey sa) then Err "aa bundle: session_auth.session_pubkey is empty"%string
  else if MAX_SESSION_PUBKEY <? len (session_pubkey sa)
  then Err "aa bundle: session_auth.session_pubkey exceeds size limit"%string
  else if expiry_block sa =? 0 then Err "aa bundle: session_auth.expiry_block must be > 0"%string
  else if is_empty (root_signature sa)
  then Err "aa bundle: session_auth.root_signature is empty"%string
  else if MAX_SIGNATURE_BYTES <? len (root_signature sa)
  then Err "aa bundle: session_auth.root_signature exceeds size limit"%string
  else if is_empty (session_signature sa)
  then Err "aa bundle: session_auth.session_signature is empty"%string
  else if MAX_SIGNATURE_BYTES <? len (session_signature sa)
  then Err "aa bundle: session_auth.session_signature exceeds size limit"%string
  else Ok tt.

Definition validate_structure (b : AaBundle) : result unit string :=
  if is_empty (inner_calls b) then Err "aa bundle: inner_calls must be non-empty"%string
  else if (MAX_INNER_CALLS <? length (inner_calls b))%nat
  then Err "aa bundle: inner_calls exceeds MAX_INNER_CALLS"%string
  else if existsb (λ c, MAX_INNER_CALLDATA <? len (ic_data c)) (inner_calls b)
  then Err "aa bundle: inner call data exceeds MAX_INNER_CALLDATA"%string
  else
    let? _ := validate_paymaster b in
    match session_auth b with Some sa => validate_session sa | None => Ok tt end.

(** Inner gas is a [u128] sum; at most [usize] calls of [u64] gas cannot wrap. *)
Definition inner_gas_sum (b : AaBundle) : Z := sumZ ic_gas_limit (inner_calls b).

Definition checked_add_u256 (a b : Z) : option Z := if a + b <=? u256_max then Some (a + b) else None.

Fixpoint checked_value_sum (acc : Z) (l : list InnerCall) : option Z :=
  match l with
  | [] => Some acc
  | c :: l => match checked_add_u256 acc (ic_value c) with
              | Some acc => checked_value_sum acc l
              | None => None
              end
  end.
Definition checked_inner_value_sum (b : AaBundle) : option Z := checked_value_sum 0 (inner_calls b).
Definition inner_value_sum (b : AaBundle) : Z := unwrap_or u256_max (checked_inner_value_sum b).

Definition intrinsic_gas_surcharge (b : AaBundle) : Z :=
  let extras := sat_sub (len (inner_calls b)) 1 in
  let call_gas := sat_mul extras AA_INNER_CALL_INTRINSIC_GAS in
  let session_gas := match session_auth b with Some _ => sat_mul 2 PQ_VERIFY_GAS | None => 0 end in
  sat_add call_gas session_gas.

(** ** The signed envelope *)

Definition signed_new (from : Address) (tx : Transaction) (sig : PQSignature) : SignedTransaction :=
  MkSignedTransaction from tx sig Reference None.
Definition with_pubkey (from : Address) (tx : Transaction) (sig : PQSignature) (pk : list Z) :
    SignedTransaction :=
  MkSignedTransaction from tx sig (Embedded pk) None.

Definition with_aa_bundle (from : Address) (tx : Transaction) (sig : PQSignature) (m : PubkeyMode)
    (b : AaBundle) : result SignedTransaction string :=
  if negb (tx_type tx =? AA_BUNDLE_TX_TYPE)
  then Err "with_aa_bundle: tx.tx_type must equal AA_BUNDLE_TX_TYPE (0x7E)"%string
  else
    let? _ := validate_structure b in
    if tx_gas_limit tx <? inner_gas_sum b
    then Err "with_aa_bundle: sum(inner.gas_limit) exceeds outer gas_limit"%string
    else if bool_decide (paymaster b = Some from)
    then Err "with_aa_bundle: paymaster must differ from sender"%string
    else
      match checked_inner_value_sum b with
      | Some s =>
          if s <=? tx_value tx then Ok (MkSignedTransaction from tx sig m (Some b))
          else Err "with_aa_bundle: sum(inner.value) exceeds outer value"%string
      | None => Err "with_aa_bundle: sum(inner.value) overflows U256"%string
      end.

Definition is_aa_bundle (t : SignedTransaction) : bool :=
  (tx_type (st_tx t) =? AA_BUNDLE_TX_TYPE) && bool_decide (is_Some (aa_bundle t)).
Definition sender (t : SignedTransaction) : Address := st_from t.

Definition sig_type_as_u8 (t : SignatureType) : Z :=
  match t with Dilithium3 => 0 | MlDsa65 => 1 | SphincsSha2256f => 2 end.
Definition sig_type_from_u8 (v : Z) : option SignatureType :=
  if v =? 0 then Some Dilithium3
  else if v =? 1 then Some MlDsa65
  else if v =? 2 then Some SphincsSha2256f
  else None.

Definition validate_size (s : PQSignature) : bool :=
  let max := match sig_type s with
             | Dilithium3 | MlDsa65 => MAX_ML_DSA_65_SIG_BYTES
             | SphincsSha2256f => MAX_SIGNATURE_BYTES
             end in
  negb (max <? len (sig_data s)).
