(* ===== verification/TxCodec.v ===== *)
(** * Transaction codec

    The RLP encoders and decoders of crates/core/src/transaction.rs and of
    [PQSignature] in crates/crypto/src/signature.rs, and the proof that decoding
    inverts encoding.  A header is written from the lengths the code computes
    separately ([fields_len] and the like), so the proof includes that these are
    the lengths of what is written, with the saturating and wrapping [usize]
    arithmetic of the source. *)

From S2P Require Import Prelude Primitives Fee Rlp RlpImpl Transaction.

Section encoders.
Context {R : Rlp}.

(** ** Encoders *)

Definition hashes_payload (l : list ShellHash) : Z := usize_sum b256_length l.

(** One access-list entry: [address, [key, ...]]. *)
Definition entry_payload (i : AccessListItem) : Z :=
  sat_add (b256_length (al_address i)) (list_length (hashes_payload (storage_keys i))).
Definition encode_access_item (i : AccessListItem) : list Z :=
  header_encode true (entry_payload i) ++ b256_encode (al_address i) ++
  header_encode true (hashes_payload (storage_keys i)) ++ (storage_keys i ≫= b256_encode).

Definition items_payload (l : list AccessListItem) : Z :=
  usize_sum (λ i, list_length (entry_payload i)) l.

Definition encode_access_list (tx : Transaction) : list Z :=
  match access_list tx with
  | None => header_encode true 0
  | Some items => header_encode true (items_payload items) ++ (items ≫= encode_access_item)
  end.
Definition access_list_rlp_len (tx : Transaction) : Z :=
  match access_list tx with
  | None => header_length true 0
  | Some items => list_length (items_payload items)
  end.

Definition encode_blob_hashes (tx : Transaction) : list Z :=
  match blob_versioned_hashes tx with
  | None => header_encode true 0
  | Some hashes => header_encode true (hashes_payload hashes) ++ (hashes ≫= b256_encode)
  end.
Definition blob_hashes_rlp_len (tx : Transaction) : Z :=
  match blob_versioned_hashes tx with
  | None => header_length true 0
  | Some hashes => list_length (hashes_payload hashes)
  end.

(** The flag and the fee: 0 for [None], 1 for [Some]. *)
Definition blob_fee_encode (fee : option Z) : list Z :=
  match fee with
  | Some fee => uint_encode 1 ++ uint_encode fee
  | None => uint_encode 0 ++ uint_encode 0
  end.
Definition blob_fee_length (fee : option Z) : Z :=
  match fee with
  | Some fee => sat_add (uint_length 1) (uint_length fee)
  | None => sat_add (uint_length 0) (uint_length 0)
  end.

Definition tx_fields_len (tx : Transaction) : Z :=
  sat_add (sat_add (sat_add (sat_add (sat_add (sat_add (sat_add (sat_add (sat_add (sat_add (sat_add
    (uint_length (tx_chain_id tx)) (uint_length (tx_nonce tx))) (opt_address_length (tx_to tx)))
    (uint_length (tx_value tx))) (bytes_length (tx_data tx))) (uint_length (tx_gas_limit tx)))
    (uint_length (max_fee_per_gas tx))) (uint_length (max_priority_fee_per_gas tx)))
    (access_list_rlp_len tx)) (uint_length (tx_type tx)))
    (blob_fee_length (max_fee_per_blob_gas tx))) (blob_hashes_rlp_len tx).

Definition tx_payload (tx : Transaction) : list Z :=
  uint_encode (tx_chain_id tx) ++ uint_encode (tx_nonce tx) ++ opt_address_encode (tx_to tx) ++
  uint_encode (tx_value tx) ++ bytes_encode (tx_data tx) ++ uint_encode (tx_gas_limit tx) ++
  uint_encode (max_fee_per_gas tx) ++ uint_encode (max_priority_fee_per_gas tx) ++
  encode_access_list tx ++ uint_encode (tx_type tx) ++
  blob_fee_encode (max_fee_per_blob_gas tx) ++ encode_blob_hashes tx.
Definition tx_encode (tx : Transaction) : list Z := list_encode (tx_fields_len tx) (tx_payload tx).
Definition tx_length (tx : Transaction) : Z := list_length (tx_fields_len tx).

Definition call_fields_len (c : InnerCall) : Z :=
  sat_add (sat_add (sat_add (opt_address_length (ic_to c)) (uint_length (ic_value c)))
    (bytes_length (ic_data c))) (uint_length (ic_gas_limit c)).
Definition call_payload (c : InnerCall) : list Z :=
  opt_address_encode (ic_to c) ++ uint_encode (ic_value c) ++ bytes_encode (ic_data c) ++
  uint_encode (ic_gas_limit c).
Definition call_encode (c : InnerCall) : list Z := list_encode (call_fields_len c) (call_payload c).
Definition call_length (c : InnerCall) : Z := list_length (call_fields_len c).

(** Big-endian bytes without leading zeros, at least one byte. *)
Fixpoint trim_zeros (l : list Z) : list Z :=
  match l with
  | [] => []
  | [b] => [b]
  | b :: t => if b =? 0 then trim_zeros t else l
  end.
Definition value_trimmed (v : Z) : list Z := trim_zeros (be_bytes 32 v).

(** Plain [+] on [usize] in the source. *)
Definition session_fields_len (s : SessionAuth) : Z :=
  wrapping_add (wrapping_add (wrapping_add (wrapping_add (wrapping_add (wrapping_add
    (bytes_length (session_pubkey s)) (uint_length (session_algo s)))
    (opt_address_length (session_target s))) (bytes_length (value_trimmed (value_cap s))))
    (uint_length (expiry_block s))) (bytes_length (root_signature s)))
    (bytes_length (session_signature s)).
Definition session_payload (s : SessionAuth) : list Z :=
  bytes_encode (session_pubkey s) ++ uint_encode (session_algo s) ++
  opt_address_encode (session_target s) ++ bytes_encode (value_trimmed (value_cap s)) ++
  uint_encode (expiry_block s) ++ bytes_encode (root_signature s) ++
  bytes_encode (session_signature s).
Definition session_encode (s : SessionAuth) : list Z :=
  list_encode (session_fields_len s) (session_payload s).
Definition session_length (s : SessionAuth) : Z := list_length (session_fields_len s).

(** An optional byte string; empty strings count as absent. *)
Definition opt_bytes_encode (o : option (list Z)) : list Z :=
  match o with
  | Some l => if negb (is_empty l) then bytes_encode l else bytes_encode []
  | None => bytes_encode []
  end.
Definition opt_bytes_length (o : option (list Z)) : Z :=
  match o with
  | Some l => if negb (is_empty l) then bytes_length l else 1
  | None => 1
  end.

Definition calls_payload (l : list InnerCall) : Z := usize_sum call_length l.

(** [AaBundle::encode_inner_calls]. *)
Definition encode_inner_calls (b : AaBundle) : list Z :=
  header_encode true (calls_payload (inner_calls b)) ++ (inner_calls b ≫= call_encode).

Definition bundle_fields_len (b : AaBundle) : Z :=
  sat_add (sat_add (sat_add (sat_add (list_length (calls_payload (inner_calls b)))
    (opt_address_length (paymaster b))) (opt_bytes_length (paymaster_signature b)))
    (opt_bytes_length (paymaster_context b)))
    (match session_auth b with Some s => session_length s | None => 1 end).
Definition bundle_payload (b : AaBundle) : list Z :=
  encode_inner_calls b ++ opt_address_encode (paymaster b) ++
  opt_bytes_encode (paymaster_signature b) ++ opt_bytes_encode (paymaster_context b) ++
  match session_auth b with Some s => session_encode s | None => bytes_encode [] end.
Definition bundle_encode (b : AaBundle) : list Z :=
  list_encode (bundle_fields_len b) (bundle_payload b).
Definition bundle_length (b : AaBundle) : Z := list_length (bundle_fields_len b).

Definition sig_fields_len (s : PQSignature) : Z :=
  sat_add (uint_length (sig_type_as_u8 (sig_type s))) (bytes_length (sig_data s)).
Definition sig_payload (s : PQSignature) : list Z :=
  uint_encode (sig_type_as_u8 (sig_type s)) ++ bytes_encode (sig_data s).
Definition sig_encode (s : PQSignature) : list Z := list_encode (sig_fields_len s) (sig_payload s).
Definition sig_length (s : PQSignature) : Z := list_length (sig_fields_len s).

Definition pubkey_encode (m : PubkeyMode) : list Z :=
  match m with Embedded pk => bytes_encode pk | Reference => bytes_encode [] end.
Definition pubkey_length (m : PubkeyMode) : Z :=
  match m with Embedded pk => bytes_length pk | Reference => 1 end.

Definition signed_fields_len (t : SignedTransaction) : Z :=
  sat_add (sat_add (sat_add (sat_add (b256_length (st_from t)) (tx_length (st_tx t)))
    (sig_length (st_signature t))) (pubkey_length (pubkey_mode t)))
    (match aa_bundle t with Some b => sat_add 1 (bundle_length b) | None => 0 end).
Definition signed_payload (t : SignedTransaction) : list Z :=
  b256_encode (st_from t) ++ tx_encode (st_tx t) ++ sig_encode (st_signature t) ++
  pubkey_encode (pubkey_mode t) ++
  match aa_bundle t with Some b => AA_BUNDLE_PRESENCE_FLAG :: bundle_encode b | None => [] end.
Definition signed_encode (t : SignedTransaction) : list Z :=
  list_encode (signed_fields_len t) (signed_payload t).
End encoders.

(** ** Decoders *)

Section decoders.
Context {R : Rlp}.

(** The keys loop is not followed by a check of its own end. *)
Definition decode_access_item : decoder AccessListItem :=
  let! entry_len := list_header_decode in
  let! entry_remaining := dlen in
  let! entry_end := dlift (rlp_payload_end entry_remaining entry_len) in
  let! address := b256_decode in
  let! keys_len := list_header_decode in
  let! keys_start := dlen in
  let! keys_end := dlift (rlp_payload_end keys_start keys_len) in
  let! keys := decode_while MAX_ACCESS_LIST_STORAGE_KEYS
                 "access list entry exceeds maximum storage key count" b256_decode keys_end [] in
  let! _ := check_end entry_remaining entry_end entry_len in
  dret (MkAccessListItem address keys).

Definition decode_access_list : decoder (option (list AccessListItem)) :=
  let! n := list_header_decode in
  if n =? 0 then dret None
  else
    let! items := decode_items MAX_ACCESS_LIST_ENTRIES "access list exceeds maximum entry count"
                    decode_access_item n in
    dret (Some items).

Definition decode_blob_hashes : decoder (option (list ShellHash)) :=
  let! n := list_header_decode in
  if n =? 0 then dret None
  else
    let! hashes := decode_items MAX_BLOB_HASHES_PER_TX
                     "blob transaction exceeds maximum blob hash count" b256_decode n in
    dret (Some hashes).

Definition decode_blob_fee : decoder (option Z) :=
  let! flag := uint_decode u8_max in
  let! raw := uint_decode u64_max in
  if flag =? 0 then dret None
  else if flag =? 1 then dret (Some raw)
  else dfail (Custom "invalid max_fee_per_blob_gas presence flag").

(** In the source the flag, the raw fee and their match come before the blob
    hashes, as here. *)
Definition tx_decode : decoder Transaction :=
  let! n := list_header_decode in
  let! remaining := dlen in
  let! chain_id := uint_decode u64_max in
  let! nonce := uint_decode u64_max in
  let! to := opt_address_decode "invalid 'to' address length: expected 32 bytes or empty" in
  let! value := uint_decode u256_max in
  let! data := bytes_decode in
  let! gas_limit := uint_decode u64_max in
  let! max_fee := uint_decode u64_max in
  let! max_priority_fee := uint_decode u64_max in
  let! access := decode_access_list in
  let! type_ := uint_decode u8_max in
  let! blob_fee := decode_blob_fee in
  let! blob_hashes := decode_blob_hashes in
  let! _ := check_consumed remaining n in
  dret (MkTransaction chain_id nonce to value data gas_limit max_fee max_priority_fee access type_
          blob_fee blob_hashes).

Definition call_decode : decoder InnerCall :=
  let! n := list_header_decode in
  let! remaining := dlen in
  let! to := opt_address_decode "invalid 'to' address length: expected 32 bytes or empty" in
  let! value := uint_decode u256_max in
  let! data := bytes_decode in
  let! _ := dguard (negb (MAX_INNER_CALLDATA <? len data)) (Custom "inner call data exceeds size limit") in
  let! gas_limit := uint_decode u64_max in
  let! _ := check_consumed remaining n in
  dret (MkInnerCall to value data gas_limit).

(** A byte string of bounded size. *)
Definition decode_limited (max : Z) (msg : string) : decoder (list Z) :=
  let! raw := bytes_decode in
  let! _ := dguard (negb (max <? len raw)) (Custom msg) in
  dret raw.

Definition decode_value_cap : decoder Z :=
  let! raw := decode_limited 32 "session_auth: value_cap exceeds 32 bytes" in
  let! _ := dguard (match raw with [] => false | b :: t => negb ((0 <? len t) && (b =? 0)) end)
              (Custom "session_auth: value_cap must use minimal big-endian encoding") in
  dret (from_be_bytes raw).

Definition session_decode : decoder SessionAuth :=
  let! n := list_header_decode in
  let! remaining := dlen in
  let! pubkey := decode_limited MAX_SESSION_PUBKEY "session_auth: session_pubkey exceeds size limit" in
  let! algo := uint_decode u64_max in
  let! _ := dguard (negb (u8_max <? algo))
              (Custom "session_auth: session_algo out of range (must fit u8)") in
  let! target := opt_address_decode
                   "session_auth: invalid target address length: expected 32 bytes or empty" in
  let! cap := decode_value_cap in
  let! expiry := uint_decode u64_max in
  let! root_sig := decode_limited MAX_SIGNATURE_BYTES "session_auth: root_signature exceeds size limit" in
  let! session_sig := decode_limited MAX_SIGNATURE_BYTES
                        "session_auth: session_signature exceeds size limit" in
  let! _ := check_consumed remaining n in
  dret (MkSessionAuth pubkey algo target cap expiry root_sig session_sig).

Definition decode_opt_bytes (max : Z) (msg : string) : decoder (option (list Z)) :=
  let! raw := decode_limited max msg in
  dret (if is_empty raw then None else Some raw).

(** The trailing field: absent, a list, or the empty marker. *)
Definition decode_session_field (remaining n : Z) : decoder (option SessionAuth) := λ buf,
  let consumed := sat_sub remaining (Z.of_nat (length buf)) in
  if consumed <? n then
    if match buf with b :: _ => Z.land b 192 =? 192 | [] => false end
    then dbind session_decode (λ s, dret (Some s)) buf
    else dbind bytes_decode (λ marker,
           dbind (dguard (is_empty marker)
                    (Custom "invalid session_auth marker: expected list or empty bytes"))
             (λ _, dret None)) buf
  else Ok (None, buf).

Definition bundle_decode : decoder AaBundle :=
  let! n := list_header_decode in
  let! remaining := dlen in
  let! calls_len := list_header_decode in
  let! calls := decode_items MAX_INNER_CALLS "aa bundle exceeds maximum inner call count"
                  call_decode calls_len in
  let! pm := opt_address_decode "invalid paymaster address length: expected 32 bytes or empty" in
  let! pm_sig := decode_opt_bytes MAX_SIGNATURE_BYTES "paymaster signature exceeds size limit" in
  let! pm_ctx := decode_opt_bytes MAX_PAYMASTER_CONTEXT "paymaster context exceeds size limit" in
  let! session := decode_session_field remaining n in
  let! _ := check_consumed remaining n in
  dret (MkAaBundle calls pm pm_sig pm_ctx session).

(** Decoding is confined to the declared payload; [Panicked] stands for the
    [unreachable!] of a payload longer than the buffer. *)
Definition sig_decode : decoder PQSignature := λ buf,
  match list_header_decode buf with
  | Err e => Err e
  | Ok (n, buf) =>
      if len buf <? n then Err Panicked
      else
        let payload := take (Z.to_nat n) buf in
        let inner :=
          let! ty := uint_decode u8_max in
          let! ty := dlift (ok_or (sig_type_from_u8 ty) (Custom "unknown signature type")) in
          let! data := bytes_decode in
          dret (MkPQSignature ty data) in
        match inner payload with
        | Err e => Err e
        | Ok (s, rest) =>
            if negb (is_empty rest) then Err (ListLengthMismatch n (sat_sub n (len rest)))
            else if validate_size s then Ok (s, drop (Z.to_nat n) buf)
            else Err (Custom "signature exceeds size limit")
        end
  end.

Definition pubkey_decode : decoder PubkeyMode :=
  let! raw := bytes_decode in
  dret (if is_empty raw then Reference else Embedded raw).

(** The optional trailing bundle, announced by its flag byte. *)
Definition decode_bundle_field (remaining n : Z) (type_ : Z) : decoder (option AaBundle) := λ buf,
  let consumed := sat_sub remaining (Z.of_nat (length buf)) in
  if consumed <? n then
    match buf with
    | [] => Err (Custom "missing aa bundle presence flag")
    | flag :: buf =>
        if negb (flag =? AA_BUNDLE_PRESENCE_FLAG) then Err (Custom "invalid aa bundle presence flag")
        else if negb (type_ =? AA_BUNDLE_TX_TYPE)
        then Err (Custom "aa bundle requires AA_BUNDLE_TX_TYPE")
        else dbind bundle_decode (λ b, dret (Some b)) buf
    end
  else Ok (None, buf).

Definition signed_decode : decoder SignedTransaction :=
  let! n := list_header_decode in
  let! remaining := dlen in
  let! from := b256_decode in
  let! tx := tx_decode in
  let! sig := sig_decode in
  let! mode := pubkey_decode in
  let! bundle := decode_bundle_field remaining n (tx_type tx) in
  let! _ := check_consumed remaining n in
  dret (MkSignedTransaction from tx sig mode bundle).
End decoders.

(** ** Lengths *)

(** [v] is the length of [l], and at most [b]. *)
Definition sized (v : Z) (l : list Z) (b : Z) : Prop := v = len l ∧ v <= b.

Lemma len_app {A} (l k : list A) : len (l ++ k) = len l + len k.
Proof. rw /len length_app. lia. Qed.

Lemma sized_app v1 l1 b1 v2 l2 b2 :
  sized v1 l1 b1 → sized v2 l2 b2 → b1 + b2 <= u64_max → sized (sat_add v1 v2) (l1 ++ l2) (b1 + b2).
Proof. rw /sized /len length_app /sat_add. lia. Qed.

Lemma sized_app_wrap v1 l1 b1 v2 l2 b2 :
  sized v1 l1 b1 → sized v2 l2 b2 → b1 + b2 <= u64_max →
  sized (wrapping_add v1 v2) (l1 ++ l2) (b1 + b2).
Proof. rw /sized /len length_app /wrapping_add. intros [-> ?] [-> ?] ?. rw Z.mod_small; lia. Qed.

Lemma sized_weaken v l b b' : sized v l b → b <= b' → sized v l b'.
Proof. rw /sized. lia. Qed.

Lemma sized_sum {A} (f : A → Z) (enc : A → list Z) (l : list A) b (n : Z) :
  (∀ x, x ∈ l → sized (f x) (enc x) b) → len l <= n → 0 <= b → b * n <= u64_max →
  sized (usize_sum f l) (l ≫= enc) (b * n).
Proof.
  intros Hf Hn Hb0 Hb.
  assert (Hs : sumZ f l = len (l ≫= enc) ∧ sumZ f l <= b * len l).
  { clear Hb Hn. induction l as [|x l IH]; [by rw /len sumZ_nil /=; lia|].
    destruct (Hf x) as [E ?]; [set_solver|]. destruct IH as [IH ?]; [set_solver|].
    rw sumZ_cons bind_cons /len length_app in IH E *. simpl. unfold len in *. lia. }
  assert (b * len l <= b * n) by nia.
  rw /sized /usize_sum Z.mod_small; [unfold len in *; lia|]. lia.
Qed.

Section sizes.
Context {R : Rlp} {RL : RlpLaws R}.

Lemma sized_list n payload b :
  sized n payload b → b + 9 <= u64_max →
  sized (list_length n) (list_encode n payload) (9 + b).
Proof.
  intros [Hn Hb] Hle. destruct (list_length_encode n payload) as [? ?]; [done|lia|].
  split; [done|lia].
Qed.

Lemma sized_uint x : 0 <= x <= u256_max → sized (uint_length x) (uint_encode x) 33.
Proof. intros Hx. destruct (uint_length_encode x Hx). by split; [|lia]. Qed.

Lemma sized_bytes l b :
  bytes_ok l → len l <= b → b <= u64_max → sized (bytes_length l) (bytes_encode l) (9 + b).
Proof.
  intros Hok Hl Hb. destruct (bytes_length_encode l) as [? ?]; [done|unfold len in *; lia|].
  split; [done|unfold len in *; lia].
Qed.

Lemma sized_b256 a : sized (b256_length a) (b256_encode a) 41.
Proof. destruct (b256_length_encode a). by split; [|lia]. Qed.

Lemma sized_opt_address a : sized (opt_address_length a) (opt_address_encode a) 41.
Proof. destruct (opt_address_length_encode a). by split; [|lia]. Qed.

Lemma sized_header n : 0 <= n <= u64_max → sized (header_length true n) (header_encode true n) 9.
Proof. intros Hn. destruct (header_length_encode n Hn). by split. Qed.
End sizes.

(** A [u64] or smaller value is a [U256]. *)
Lemma u64_in_u256 x : in_u64 x → 0 <= x <= u256_max.
Proof. unfold in_u64, u64_max. change u256_max with (2 ^ 256 - 1). lia. Qed.

Create HintDb sized.
#[export] Hint Resolve sized_b256 sized_opt_address u64_in_u256 : sized.

(** ** Well-formed values

    Values of the source's types, with byte strings shorter than [2^40] bytes
    and the list sizes that the validators (and the decoders) accept. *)

Definition small_bytes (l : list Z) : Prop := bytes_ok l ∧ len l <= 2 ^ 40.

Definition item_wf (i : AccessListItem) : Prop :=
  (length (storage_keys i) ≤ MAX_ACCESS_LIST_STORAGE_KEYS)%nat.

Record tx_wf (tx : Transaction) : Prop := {
  twf_chain_id : in_u64 (tx_chain_id tx);
  twf_nonce : in_u64 (tx_nonce tx);
  twf_value : 0 <= tx_value tx <= u256_max;
  twf_data : small_bytes (tx_data tx);
  twf_gas_limit : in_u64 (tx_gas_limit tx);
  twf_max_fee : in_u64 (max_fee_per_gas tx);
  twf_priority_fee : in_u64 (max_priority_fee_per_gas tx);
  twf_access_list : ∀ l, access_list tx = Some l →
    (length l ≤ MAX_ACCESS_LIST_ENTRIES)%nat ∧ ∀ i, i ∈ l → item_wf i;
  twf_type : 0 <= tx_type tx <= u8_max;
  twf_blob_fee : ∀ f, max_fee_per_blob_gas tx = Some f → in_u64 f;
  twf_blob_hashes : ∀ l, blob_versioned_hashes tx = Some l → (length l ≤ MAX_BLOB_HASHES_PER_TX)%nat;
}.

Record call_wf (c : InnerCall) : Prop := {
  cwf_value : 0 <= ic_value c <= u256_max;
  cwf_data : bytes_ok (ic_data c) ∧ len (ic_data c) <= MAX_INNER_CALLDATA;
  cwf_gas_limit : in_u64 (ic_gas_limit c);
}.

Record session_wf (s : SessionAuth) : Prop := {
  swf_pubkey : bytes_ok (session_pubkey s) ∧ len (session_pubkey s) <= MAX_SESSION_PUBKEY;
  swf_algo : 0 <= session_algo s <= u8_max;
  swf_cap : 0 <= value_cap s <= u256_max;
  swf_expiry : in_u64 (expiry_block s);
  swf_root : bytes_ok (root_signature s) ∧ len (root_signature s) <= MAX_SIGNATURE_BYTES;
  swf_session : bytes_ok (session_signature s) ∧ len (session_signature s) <= MAX_SIGNATURE_BYTES;
}.

Definition opt_bytes_wf (max : Z) (o : option (list Z)) : Prop :=
  ∀ l, o = Some l → bytes_ok l ∧ len l <= max.

Record bundle_wf (b : AaBundle) : Prop := {
  bwf_calls : (length (inner_calls b) ≤ MAX_INNER_CALLS)%nat ∧ ∀ c, c ∈ inner_calls b → call_wf c;
  bwf_sig : opt_bytes_wf MAX_SIGNATURE_BYTES (paymaster_signature b);
  bwf_ctx : opt_bytes_wf MAX_PAYMASTER_CONTEXT (paymaster_context b);
  bwf_session : ∀ s, session_auth b = Some s → session_wf s;
}.

Record signed_wf (t : SignedTransaction) : Prop := {
  gwf_tx : tx_wf (st_tx t);
  gwf_sig : bytes_ok (sig_data (st_signature t)) ∧ validate_size (st_signature t) = true;
  gwf_key : ∀ pk, pubkey_mode t = Embedded pk → small_bytes pk;
  gwf_bundle : ∀ b, aa_bundle t = Some b → tx_type (st_tx t) = AA_BUNDLE_TX_TYPE ∧ bundle_wf b;
}.

(** What decoding yields: empty lists and strings come back as absent. *)
Definition some_nonempty {A} (o : option (list A)) : option (list A) :=
  match o with Some [] => None | _ => o end.

Definition tx_nf (tx : Transaction) : Transaction :=
  MkTransaction (tx_chain_id tx) (tx_nonce tx) (tx_to tx) (tx_value tx) (tx_data tx)
    (tx_gas_limit tx) (max_fee_per_gas tx) (max_priority_fee_per_gas tx)
    (some_nonempty (access_list tx)) (tx_type tx) (max_fee_per_blob_gas tx)
    (some_nonempty (blob_versioned_hashes tx)).

Definition bundle_nf (b : AaBundle) : AaBundle :=
  MkAaBundle (inner_calls b) (paymaster b) (some_nonempty (paymaster_signature b))
    (some_nonempty (paymaster_context b)) (session_auth b).

Definition pubkey_nf (m : PubkeyMode) : PubkeyMode :=
  match m with Embedded [] => Reference | Embedded pk => Embedded pk | Reference => Reference end.

Definition signed_nf (t : SignedTransaction) : SignedTransaction :=
  MkSignedTransaction (st_from t) (tx_nf (st_tx t)) (st_signature t)
    (pubkey_nf (pubkey_mode t)) (bundle_nf <$> aa_bundle t).

(** ** Decoding steps *)

Lemma dbind_decodes {A B} (enc : A → list Z) dec nf x (k : A → decoder B) rest :
  decodes enc dec nf x → dbind dec k (enc x ++ rest) = k (nf x) rest.
Proof. intros H. by rw /dbind H. Qed.

Lemma dbind_dlen {B} (k : Z → decoder B) buf : dbind dlen k buf = k (len buf) buf.
Proof. done. Qed.

Lemma dbind_guard {B} (c : bool) e (k : unit → decoder B) buf :
  c = true → dbind (dguard c e) k buf = k tt buf.
Proof. by intros ->. Qed.

Lemma dbind_consumed {B} n (payload rest : list Z) (k : unit → decoder B) :
  n = len payload → dbind (check_consumed (len (payload ++ rest)) n) k rest = k tt rest.
Proof.
  intros ->. rw /dbind /check_consumed /sat_sub /len length_app.
  rw (proj2 (Z.eqb_eq _ _)) //. lia.
Qed.

Lemma dbind_end {B} start end_ n rest (k : unit → decoder B) :
  end_ = len rest → dbind (check_end start end_ n) k rest = k tt rest.
Proof. intros ->. by rw /dbind /check_end Z.eqb_refl. Qed.

Section roundtrip.
Context {R : Rlp} {RL : RlpLaws R}.

Lemma dbind_header {B} n rest (k : Z → decoder B) :
  0 <= n <= len rest → n <= u64_max →
  dbind list_header_decode k (header_encode true n ++ rest) = k n rest.
Proof. intros. by rw /dbind list_header_decodes. Qed.

Lemma uint_decodes m x : 0 <= x <= m → m <= u256_max → decodes uint_encode (uint_decode m) id x.
Proof. intros Hx Hm rest. by apply uint_decode_encode. Qed.

Lemma u64_decodes x : in_u64 x → decodes uint_encode (uint_decode u64_max) id x.
Proof. intros Hx. by apply uint_decodes. Qed.

Lemma bytes_decodes l : bytes_ok l → len l <= u64_max → decodes bytes_encode bytes_decode id l.
Proof. intros Hl Hn rest. by apply bytes_decode_encode. Qed.

Lemma limited_decodes max msg l :
  bytes_ok l → len l <= max → max <= u64_max → decodes bytes_encode (decode_limited max msg) id l.
Proof.
  intros Hl Hn Hm rest. rw /decode_limited (dbind_decodes _ _ id); [apply bytes_decodes; [done|lia]|].
  rw dbind_guard //. by apply negb_true_iff, Z.ltb_ge.
Qed.

Lemma opt_bytes_decodes max msg o :
  opt_bytes_wf max o → 0 <= max <= u64_max →
  decodes opt_bytes_encode (decode_opt_bytes max msg) some_nonempty o.
Proof.
  intros Ho Hm rest. rw /decode_opt_bytes.
  destruct o as [[|b l]|]; simpl.
  1,3: by rw (dbind_decodes _ _ id); [apply limited_decodes; [by constructor|rw /len /=; lia..]|].
  destruct (Ho _ eq_refl) as [? ?]. by rw (dbind_decodes _ _ id); [apply limited_decodes; [done|lia..]|].
Qed.

Lemma sized_opt_bytes max o :
  opt_bytes_wf max o → 0 <= max → max <= u64_max - 9 →
  sized (opt_bytes_length o) (opt_bytes_encode o) (9 + max).
Proof.
  intros Ho Hm Hu. destruct o as [[|b l]|]; simpl.
  1,3: rw bytes_encode_nil; split; [done|lia].
  destruct (Ho _ eq_refl). apply sized_bytes; [done|done|lia].
Qed.
End roundtrip.

(** ** Round trips, bottom up *)

Section records.
Context {R : Rlp} {RL : RlpLaws R}.

Lemma sized_hashes l n :
  len l <= n → 41 * n <= u64_max → sized (hashes_payload l) (l ≫= b256_encode) (41 * n).
Proof. intros Hl Hn. apply sized_sum; [|done..]. intros x _. apply sized_b256. Qed.

Lemma entry_sized i :
  item_wf i →
  sized (entry_payload i)
    (b256_encode (al_address i) ++
     list_encode (hashes_payload (storage_keys i)) (storage_keys i ≫= b256_encode)) (41 + (9 + 41 * 512)).
Proof.
  intros Hi. apply sized_app; [apply sized_b256|apply sized_list; [|done]|done].
  apply sized_hashes; [|done]. unfold item_wf, MAX_ACCESS_LIST_STORAGE_KEYS, len in *. lia.
Qed.

Lemma item_sized i :
  item_wf i → sized (list_length (entry_payload i)) (encode_access_item i) (9 + (41 + (9 + 41 * 512))).
Proof. intros Hi. by apply sized_list; [apply entry_sized|]. Qed.

Lemma b256_nonempty a : (0 < length (b256_encode a))%nat.
Proof. destruct (b256_length_encode a). lia. Qed.

Lemma item_decodes i : item_wf i → decodes encode_access_item decode_access_item id i.
Proof.
  intros Hi rest. destruct (entry_sized i Hi) as [He Hb].
  assert (Hk : sized (hashes_payload (storage_keys i)) (storage_keys i ≫= b256_encode) (41 * 512)).
  { apply sized_hashes; [|done]. unfold item_wf, MAX_ACCESS_LIST_STORAGE_KEYS, len in *. lia. }
  destruct Hk as [Hk Hkb]. rw /list_encode in He.
  rw /encode_access_item /decode_access_item -!app_assoc.
  rw dbind_header; [rw He /len !length_app; lia|unfold u64_max; lia|]. rw dbind_dlen.
  rw {1}/dbind /dlift /rlp_payload_end (proj2 (Z.leb_le _ _)); [rw He /len !length_app; lia|].
  rw (dbind_decodes _ _ id); [apply b256_decodes|].
  rw dbind_header; [rw Hk /len !length_app; lia|unfold u64_max; lia|]. rw dbind_dlen.
  rw {1}/dbind /dlift /rlp_payload_end (proj2 (Z.leb_le _ _)); [rw Hk /len !length_app; lia|].
  replace (len ((storage_keys i ≫= b256_encode) ++ rest) - hashes_payload (storage_keys i))
    with (len rest) by (rw Hk /len !length_app; lia).
  rw {1}/dbind (decode_while_encode b256_encode _ id); [done|intros; split; [apply b256_decodes|apply b256_nonempty]|].
  rw dbind_end; [rw He /len !length_app; lia|]. rw list_fmap_id /=. by destruct i.
Qed.

Lemma items_sized l :
  (length l ≤ MAX_ACCESS_LIST_ENTRIES)%nat → (∀ i, i ∈ l → item_wf i) →
  sized (items_payload l) (l ≫= encode_access_item) ((9 + (41 + (9 + 41 * 512))) * 256).
Proof.
  intros Hl Hi. apply sized_sum; [|unfold MAX_ACCESS_LIST_ENTRIES, len in *; lia|done..].
  intros i Hin. by apply item_sized, Hi.
Qed.

Lemma encode_item_nonempty i : item_wf i → (0 < length (encode_access_item i))%nat.
Proof. intros Hi. rw /encode_access_item !length_app. pose proof (b256_nonempty (al_address i)). lia. Qed.

(** A list field: absent and empty lists are both written as an empty list. *)
Lemma list_field_decodes {A} (enc : A → list Z) dec max msg n (l : list A) b rest :
  sized n (l ≫= enc) b → b <= u64_max → (length l ≤ max)%nat →
  (∀ x, x ∈ l → decodes enc dec id x ∧ (0 < length (enc x))%nat) →
  dbind list_header_decode (λ n, if n =? 0 then dret None
    else let! items := decode_items max msg dec n in dret (Some items))
    (header_encode true n ++ (l ≫= enc) ++ rest) = Ok (some_nonempty (Some l), rest).
Proof.
  intros [Hn Hb] Hu Hmax Hl. rw dbind_header; [rw Hn /len length_app; lia|lia|].
  destruct l as [|x l]; [by rw Hn|].
  destruct (Hl x) as [_ Hx]; [set_solver|].
  rw (proj2 (Z.eqb_neq _ _)); [rw Hn bind_cons /len length_app; lia|].
  by rw {1}/dbind (decode_items_encode enc dec id) // list_fmap_id.
Qed.

Lemma access_list_decodes tx rest :
  tx_wf tx →
  decode_access_list (encode_access_list tx ++ rest) = Ok (some_nonempty (access_list tx), rest).
Proof.
  intros Hwf. rw /decode_access_list /encode_access_list.
  destruct (access_list tx) as [l|] eqn:E.
  - destruct (twf_access_list tx Hwf l E) as [Hl Hi]. rw -app_assoc.
    apply (list_field_decodes _ _ _ _ _ _ _ _ (items_sized l Hl Hi)); [done|done|].
    intros i Hin. split; [by apply item_decodes, Hi|by apply encode_item_nonempty, Hi].
  - by rw dbind_header; [rw /len; lia|done|].
Qed.

Lemma blob_hashes_decodes tx rest :
  tx_wf tx →
  decode_blob_hashes (encode_blob_hashes tx ++ rest) = Ok (some_nonempty (blob_versioned_hashes tx), rest).
Proof.
  intros Hwf. rw /decode_blob_hashes /encode_blob_hashes.
  destruct (blob_versioned_hashes tx) as [l|] eqn:E.
  - pose proof (twf_blob_hashes tx Hwf l E) as Hl. rw -app_assoc.
    apply (list_field_decodes _ _ _ _ _ _ (41 * 6)); [apply sized_hashes|..]; [|done|done|done|].
    + unfold MAX_BLOB_HASHES_PER_TX, len in *. lia.
    + intros h _. split; [apply b256_decodes|apply b256_nonempty].
  - by rw dbind_header; [rw /len; lia|done|].
Qed.

Lemma blob_fee_decodes o :
  (∀ f, o = Some f → in_u64 f) → decodes blob_fee_encode decode_blob_fee id o.
Proof.
  intros Ho rest. rw /decode_blob_fee. destruct o as [f|]; simpl; rw -app_assoc;
    rw (dbind_decodes _ _ id); [by apply uint_decodes| |by apply uint_decodes|];
    by rw (dbind_decodes _ _ id); [apply u64_decodes; first [by apply Ho|done]|].
Qed.
End records.

Section envelopes.
Context {R : Rlp} {RL : RlpLaws R}.

(** ** Transactions *)

Lemma access_list_sized tx :
  tx_wf tx → sized (access_list_rlp_len tx) (encode_access_list tx) (2 ^ 23).
Proof.
  intros Hwf. rw /access_list_rlp_len /encode_access_list.
  destruct (access_list tx) as [l|] eqn:E.
  - destruct (twf_access_list tx Hwf l E). eapply sized_weaken; [apply sized_list; [by apply items_sized|done]|done].
  - eapply sized_weaken; [by apply sized_header|done].
Qed.

Lemma blob_hashes_sized tx :
  tx_wf tx → sized (blob_hashes_rlp_len tx) (encode_blob_hashes tx) (9 + 41 * 6).
Proof.
  intros Hwf. rw /blob_hashes_rlp_len /encode_blob_hashes.
  destruct (blob_versioned_hashes tx) as [l|] eqn:E.
  - pose proof (twf_blob_hashes tx Hwf l E). apply sized_list; [|done]. apply sized_hashes; [|done].
    unfold MAX_BLOB_HASHES_PER_TX, len in *. lia.
  - eapply sized_weaken; [by apply sized_header|done].
Qed.

Lemma blob_fee_sized o :
  (∀ f, o = Some f → in_u64 f) → sized (blob_fee_length o) (blob_fee_encode o) (33 + 33).
Proof.
  intros Ho. destruct o as [f|]; simpl; (apply sized_app; [by apply sized_uint| |done]);
    apply sized_uint; [apply u64_in_u256; by apply Ho|done].
Qed.

Lemma tx_sized tx : tx_wf tx → sized (tx_fields_len tx) (tx_payload tx) (2 ^ 41).
Proof.
  intros Hwf. rw /tx_fields_len /tx_payload !app_assoc.
  pose proof (access_list_sized tx Hwf). pose proof (blob_hashes_sized tx Hwf).
  pose proof (blob_fee_sized _ (twf_blob_fee tx Hwf)).
  destruct Hwf as [? ? ? [? ?] ? ? ? _ [? ?] _ _].
  eapply sized_weaken.
  - repeat (eapply sized_app; [|first [eassumption|apply sized_opt_address
      |apply sized_uint; first [by apply u64_in_u256|done
         |unfold u8_max in *; change u256_max with (2 ^ 256 - 1); lia]
      |by apply (sized_bytes _ (2 ^ 40))]|]); [by apply sized_uint, u64_in_u256|done..].
  - done.
Qed.

Lemma tx_decodes tx : tx_wf tx → decodes tx_encode tx_decode tx_nf tx.
Proof.
  intros Hwf rest. destruct (tx_sized tx Hwf) as [Hn Hb].
  rw /tx_encode /list_encode /tx_decode -app_assoc.
  rw dbind_header; [rw Hn /len length_app; lia|unfold u64_max; lia|]. rw dbind_dlen.
  set start := len (tx_payload tx ++ rest). rw /tx_payload -!app_assoc.
  do 2 (rw (dbind_decodes _ _ id); [apply u64_decodes, Hwf|]).
  rw (dbind_decodes _ _ id); [apply opt_address_decodes|].
  rw (dbind_decodes _ _ id); [by apply uint_decodes; [apply Hwf|]|].
  rw (dbind_decodes _ _ id).
  { destruct (twf_data tx Hwf). apply bytes_decodes; [done|unfold u64_max; lia]. }
  do 3 (rw (dbind_decodes _ _ id); [apply u64_decodes, Hwf|]).
  rw {1}/dbind access_list_decodes //.
  rw (dbind_decodes _ _ id); [by apply uint_decodes; [apply Hwf|]|].
  rw (dbind_decodes _ _ id); [apply blob_fee_decodes, Hwf|].
  rw {1}/dbind blob_hashes_decodes //. by rw /start dbind_consumed.
Qed.

(** ** Inner calls and sessions *)

Lemma call_sized c :
  call_wf c → sized (call_fields_len c) (call_payload c) (41 + 33 + (9 + 131072) + 33).
Proof.
  intros [Hv [Hd1 Hd2] Hg]. rw /call_fields_len /call_payload !app_assoc.
  repeat (apply sized_app; [|first [by apply sized_uint|by apply sized_uint, u64_in_u256
    |by apply sized_bytes]|done]). apply sized_opt_address.
Qed.

Lemma call_decodes c : call_wf c → decodes call_encode call_decode id c.
Proof.
  intros Hwf rest. destruct (call_sized c Hwf) as [Hn Hb]. destruct Hwf as [Hv [Hd1 Hd2] Hg].
  rw /call_encode /list_encode /call_decode -app_assoc.
  rw dbind_header; [rw Hn /len length_app; lia|unfold u64_max; lia|]. rw dbind_dlen.
  set start := len (call_payload c ++ rest). rw /call_payload -!app_assoc.
  rw (dbind_decodes _ _ id); [apply opt_address_decodes|].
  rw (dbind_decodes _ _ id); [by apply uint_decodes|].
  rw (dbind_decodes _ _ id); [apply bytes_decodes; [done|unfold MAX_INNER_CALLDATA, u64_max in *; lia]|].
  rw dbind_guard; [by apply negb_true_iff, Z.ltb_ge|].
  rw (dbind_decodes _ _ id); [by apply u64_decodes|]. rw /start dbind_consumed //. by destruct c.
Qed.

Lemma trim_zeros_spec l :
  l ≠ [] → bytes_ok l →
  let t := trim_zeros l in
  bytes_ok t ∧ len t <= len l ∧ from_be_bytes t = from_be_bytes l ∧
  match t with [] => false | b :: t => negb ((0 <? len t) && (b =? 0)) end = true.
Proof.
  intros Hne Hok. cbv zeta. induction l as [|b [|b' l] IH]; [done|by split_and!|].
  apply Forall_cons in Hok as [Hb Hok]. specialize (IH ltac:(done) Hok) as (H1 & H2 & H3 & H4).
  change (trim_zeros (b :: b' :: l)) with (if b =? 0 then trim_zeros (b' :: l) else b :: b' :: l).
  destruct (Z.eqb_spec b 0) as [->|Hb0].
  - split_and!; [done| |by rw H3|done]. unfold len in *. cbn [length] in *. lia.
  - split_and!; [by constructor|done|done|]. rw (proj2 (Z.eqb_neq _ _) Hb0). by rw andb_false_r.
Qed.

Lemma value_cap_decodes v :
  0 <= v <= u256_max → decodes (λ v, bytes_encode (value_trimmed v)) decode_value_cap id v.
Proof.
  intros Hv rest. destruct (trim_zeros_spec (be_bytes 32 v)) as (H1 & H2 & H3 & H4);
    [by intros E%(f_equal length); rw length_be_bytes in E|apply be_bytes_ok|].
  rw /decode_value_cap (dbind_decodes bytes_encode _ id).
  { apply limited_decodes; [done|by rw /len length_be_bytes in H2|done]. }
  rw dbind_guard //. rw /dret /value_trimmed H3 from_be_bytes_be_bytes b256_pow Z.mod_small //. lia.
Qed.

Lemma value_trimmed_sized v :
  sized (bytes_length (value_trimmed v)) (bytes_encode (value_trimmed v)) (9 + 32).
Proof.
  destruct (trim_zeros_spec (be_bytes 32 v)) as (H1 & H2 & _);
    [by intros E%(f_equal length); rw length_be_bytes in E|apply be_bytes_ok|].
  apply sized_bytes; [done|by rw /len length_be_bytes in H2|done].
Qed.

Lemma session_sized s : session_wf s → sized (session_fields_len s) (session_payload s) (2 ^ 17).
Proof.
  intros [[? ?] ? ? ? [? ?] [? ?]]. rw /session_fields_len /session_payload !app_assoc.
  eapply sized_weaken.
  - repeat (eapply sized_app_wrap; [|first [apply sized_opt_address|apply value_trimmed_sized
      |apply sized_uint; first [by apply u64_in_u256
         |unfold u8_max in *; change u256_max with (2 ^ 256 - 1); lia]
      |by apply (sized_bytes _ MAX_SIGNATURE_BYTES)]|]);
      [by apply (sized_bytes _ MAX_SESSION_PUBKEY)|done..].
  - done.
Qed.

Lemma session_decodes s : session_wf s → decodes session_encode session_decode id s.
Proof.
  intros Hwf rest. destruct (session_sized s Hwf) as [Hn Hb].
  destruct Hwf as [[? ?] Ha Hv He [? ?] [? ?]].
  rw /session_encode /list_encode /session_decode -app_assoc.
  rw dbind_header; [rw Hn /len length_app; lia|unfold u64_max; lia|]. rw dbind_dlen.
  set start := len (session_payload s ++ rest). rw /session_payload -!app_assoc.
  rw (dbind_decodes _ _ id); [by apply limited_decodes|].
  rw (dbind_decodes _ _ id); [apply u64_decodes; unfold in_u64, u64_max, u8_max in *; lia|].
  rw dbind_guard; [apply negb_true_iff, Z.ltb_ge; apply Ha|].
  rw (dbind_decodes _ _ id); [apply opt_address_decodes|].
  rw (dbind_decodes (λ v, bytes_encode (value_trimmed v)) _ id); [by apply value_cap_decodes|].
  rw (dbind_decodes _ _ id); [by apply u64_decodes|].
  do 2 (rw (dbind_decodes _ _ id); [by apply limited_decodes|]).
  rw /start dbind_consumed //. by destruct s.
Qed.
End envelopes.

(** ** Bundles, signatures and signed transactions *)

Section signed.
Context {R : Rlp} {RL : RlpLaws R}.

Definition session_field (o : option SessionAuth) : list Z :=
  match o with Some s => session_encode s | None => bytes_encode [] end.

Lemma session_field_sized o :
  (∀ s, o = Some s → session_wf s) →
  sized (match o with Some s => session_length s | None => 1 end) (session_field o) (9 + 2 ^ 17).
Proof.
  intros Ho. destruct o as [s|]; simpl.
  - by apply sized_list; [apply session_sized, Ho|].
  - by rw bytes_encode_nil.
Qed.

Lemma session_field_nonempty o :
  (∀ s, o = Some s → session_wf s) → 0 < len (session_field o).
Proof.
  intros Ho. destruct o as [s|]; simpl; [|by rw bytes_encode_nil].
  destruct (session_sized s (Ho s eq_refl)) as [Hn Hb]. rw /session_encode /list_encode.
  destruct (header_list_byte (session_fields_len s)) as (b & t & -> & _); [unfold len, u64_max in *; lia|].
  rw /len /=. lia.
Qed.

Lemma session_field_decodes o remaining n rest :
  (∀ s, o = Some s → session_wf s) → sat_sub remaining (len (session_field o ++ rest)) < n →
  decode_session_field remaining n (session_field o ++ rest) = Ok (o, rest).
Proof.
  intros Ho Hn. rw /decode_session_field (proj2 (Z.ltb_lt _ _)) //.
  destruct o as [s|]; simpl.
  - destruct (session_sized s (Ho s eq_refl)) as [Hl Hb].
    destruct (header_list_byte (session_fields_len s)) as (b & t & Hh & Hland);
      [unfold len, u64_max in *; lia|].
    assert (match session_encode s ++ rest with b :: _ => Z.land b 192 =? 192 | [] => false end = true)
      as -> by (by rw /session_encode /list_encode Hh /= Hland).
    by rw (dbind_decodes _ _ id); [apply session_decodes, Ho|].
  - assert (match bytes_encode [] ++ rest with b :: _ => Z.land b 192 =? 192 | [] => false end = false)
      as -> by (by rw bytes_encode_nil).
    rw (dbind_decodes _ _ id); [by apply bytes_decodes; [constructor|]|]. done.
Qed.

Lemma calls_sized l :
  (length l ≤ MAX_INNER_CALLS)%nat → (∀ c, c ∈ l → call_wf c) →
  sized (calls_payload l) (l ≫= call_encode) ((9 + (41 + 33 + (9 + 131072) + 33)) * 16).
Proof.
  intros Hl Hc. apply sized_sum; [|unfold MAX_INNER_CALLS, len in *; lia|done..].
  intros c Hin. by apply sized_list; [apply call_sized, Hc|].
Qed.

Lemma bundle_sized b : bundle_wf b → sized (bundle_fields_len b) (bundle_payload b) (2 ^ 22).
Proof.
  intros [[Hl Hc] Hs Hx Ha]. rw /bundle_fields_len /bundle_payload !app_assoc.
  eapply sized_weaken.
  - repeat (eapply sized_app; [|first [apply sized_opt_address|by apply session_field_sized
      |by eapply sized_opt_bytes]|]); [by apply sized_list; [apply calls_sized|]|done..].
  - done.
Qed.

Lemma call_nonempty c : call_wf c → (0 < length (call_encode c))%nat.
Proof.
  intros Hc. destruct (call_sized c Hc) as [Hn Hb]. rw /call_encode /list_encode.
  destruct (header_list_byte (call_fields_len c)) as (b & t & -> & _); [unfold len, u64_max in *; lia|].
  simpl. lia.
Qed.

Lemma bundle_decodes b : bundle_wf b → decodes bundle_encode bundle_decode bundle_nf b.
Proof.
  intros Hwf rest. destruct (bundle_sized b Hwf) as [Hn Hb].
  destruct Hwf as [[Hl Hc] Hs Hx Ha]. destruct (calls_sized _ Hl Hc) as [Hcn Hcb].
  rw /bundle_encode /list_encode /bundle_decode -app_assoc.
  rw dbind_header; [rw Hn /len length_app; lia|unfold u64_max; lia|]. rw dbind_dlen.
  set start := len (bundle_payload b ++ rest).
  assert (Hstart : start = len (bundle_payload b) + len rest) by (rw /start /len length_app; lia).
  assert (Hlen : len (session_field (session_auth b)) <= len (bundle_payload b)).
  { rw /bundle_payload /len !length_app. fold (session_field (session_auth b)). lia. }
  rw /bundle_payload /encode_inner_calls -!app_assoc.
  rw dbind_header; [rw Hcn /len length_app; lia|unfold u64_max; lia|].
  rw {1}/dbind (decode_items_encode call_encode _ id); [done|done|..].
  { intros c Hin. split; [by apply call_decodes, Hc|by apply call_nonempty, Hc]. }
  rw (dbind_decodes _ _ id); [apply opt_address_decodes|].
  rw (dbind_decodes _ _ some_nonempty); [by apply opt_bytes_decodes|].
  rw (dbind_decodes _ _ some_nonempty); [by apply opt_bytes_decodes|].
  fold (session_field (session_auth b)).
  rw {1}/dbind session_field_decodes; [done|..].
  { pose proof (session_field_nonempty _ Ha). rw Hstart Hn /len length_app /sat_sub.
    unfold len in *. lia. }
  rw /start dbind_consumed // list_fmap_id. done.
Qed.

Lemma sig_type_roundtrip t : sig_type_from_u8 (sig_type_as_u8 t) = Some t.
Proof. by destruct t. Qed.

Lemma sig_bound s : validate_size s = true → len (sig_data s) <= MAX_SIGNATURE_BYTES.
Proof.
  rw /validate_size negb_true_iff Z.ltb_ge.
  unfold MAX_SIGNATURE_BYTES, MAX_ML_DSA_65_SIG_BYTES. by case_match; lia.
Qed.

Lemma sig_type_range t : 0 <= sig_type_as_u8 t <= 2.
Proof. by destruct t. Qed.

Lemma sig_sized s :
  bytes_ok (sig_data s) → validate_size s = true →
  sized (sig_fields_len s) (sig_payload s) (33 + (9 + 51200)).
Proof.
  intros Hok Hv%sig_bound. pose proof (sig_type_range (sig_type s)).
  apply sized_app; [apply sized_uint|by apply sized_bytes|done].
  change u256_max with (2 ^ 256 - 1). lia.
Qed.

Lemma sig_decodes s :
  bytes_ok (sig_data s) → validate_size s = true → decodes sig_encode sig_decode id s.
Proof.
  intros Hok Hv rest. destruct (sig_sized s Hok Hv) as [Hn Hb]. pose proof (sig_bound s Hv) as Hs.
  pose proof (sig_type_range (sig_type s)).
  rw /sig_decode /sig_encode /list_encode -app_assoc list_header_decodes;
    [rw Hn /len length_app; lia|unfold u64_max; lia|].
  rw (proj2 (Z.ltb_ge _ _)); [rw Hn /len length_app; lia|].
  rw Hn /len Nat2Z.id take_app_length drop_app_length.
  rw /sig_payload -(app_nil_r (bytes_encode _)) (dbind_decodes _ _ id).
  { apply uint_decodes; [unfold u8_max; lia|done]. }
  rw {1}/dbind /dlift sig_type_roundtrip /= (dbind_decodes _ _ id).
  { apply bytes_decodes; [done|unfold MAX_SIGNATURE_BYTES, u64_max in *; lia]. }
  simpl. destruct s as [ty d]. by rw Hv.
Qed.

Lemma pubkey_decodes m :
  (∀ pk, m = Embedded pk → small_bytes pk) →
  decodes pubkey_encode pubkey_decode pubkey_nf m.
Proof.
  intros Hm rest. rw /pubkey_decode. destruct m as [pk|]; simpl.
  - destruct (Hm pk eq_refl) as [? ?].
    rw (dbind_decodes _ _ id); [apply bytes_decodes; [done|unfold u64_max; lia]|]. by destruct pk.
  - by rw (dbind_decodes _ _ id); [apply bytes_decodes; [constructor|]|].
Qed.
End signed.

(** ** The theorems *)

Section theorems.
Context {R : Rlp} {RL : RlpLaws R}.

Definition bundle_field (o : option AaBundle) : list Z :=
  match o with Some b => AA_BUNDLE_PRESENCE_FLAG :: bundle_encode b | None => [] end.

Lemma pubkey_sized m :
  (∀ pk, m = Embedded pk → small_bytes pk) → sized (pubkey_length m) (pubkey_encode m) (9 + 2 ^ 40).
Proof.
  intros Hk. destruct m as [pk|]; simpl; [|by rw bytes_encode_nil].
  destruct (Hk pk eq_refl). by apply sized_bytes.
Qed.

Lemma bundle_field_sized o :
  (∀ b, o = Some b → bundle_wf b) →
  sized (match o with Some b => sat_add 1 (bundle_length b) | None => 0 end) (bundle_field o)
    (1 + (9 + 2 ^ 22)).
Proof.
  intros Hb. destruct o as [b|]; [|done].
  apply (sized_app 1 [_] 1); [done| |done]. by apply sized_list; [apply bundle_sized, Hb|].
Qed.

Lemma app5_rest (l1 l2 l3 l4 l5 rest : list Z) :
  (l1 ++ l2 ++ l3 ++ l4 ++ l5) ++ rest = l1 ++ l2 ++ l3 ++ l4 ++ l5 ++ rest.
Proof. by rw -!app_assoc. Qed.

Lemma sized_app5 v1 v2 v3 v4 v5 l1 l2 l3 l4 l5 b1 b2 b3 b4 b5 :
  sized v1 l1 b1 → sized v2 l2 b2 → sized v3 l3 b3 → sized v4 l4 b4 → sized v5 l5 b5 →
  b1 + b2 + b3 + b4 + b5 <= u64_max →
  sized (sat_add (sat_add (sat_add (sat_add v1 v2) v3) v4) v5) (l1 ++ l2 ++ l3 ++ l4 ++ l5)
    (b1 + b2 + b3 + b4 + b5).
Proof. rw /sized /len !length_app /sat_add. lia. Qed.

Lemma signed_sized t : signed_wf t → sized (signed_fields_len t) (signed_payload t) (2 ^ 43).
Proof.
  intros [Ht [Hs1 Hs2] Hk Hb]. eapply sized_weaken.
  - apply sized_app5; [apply sized_b256|by apply sized_list; [apply tx_sized|]
      |by apply sized_list; [apply sig_sized|]|by apply pubkey_sized|apply bundle_field_sized|done].
    intros b Hbb. by apply Hb.
  - done.
Qed.

Lemma bundle_field_decodes o remaining n ty rest :
  (∀ b, o = Some b → ty = AA_BUNDLE_TX_TYPE ∧ bundle_wf b) →
  let field := match o with Some b => AA_BUNDLE_PRESENCE_FLAG :: bundle_encode b | None => [] end in
  sat_sub remaining (len rest) = n → len field <= n →
  sat_sub remaining (len (field ++ rest)) = n - len field →
  decode_bundle_field remaining n ty (field ++ rest) = Ok (bundle_nf <$> o, rest).
Proof.
  intros Ho field Hn Hle Hc. rw /decode_bundle_field. fold (len (field ++ rest)). rw Hc /field.
  destruct o as [b|]; simpl.
  - destruct (Ho b eq_refl) as [-> Hwf]. rw (proj2 (Z.ltb_lt _ _)); [rw /len /=; lia|].
    by rw (dbind_decodes _ _ bundle_nf); [apply bundle_decodes|].
  - rw Z.sub_0_r Z.ltb_irrefl. done.
Qed.

Lemma signed_decodes t : signed_wf t → decodes signed_encode signed_decode signed_nf t.
Proof.
  intros Hwf rest. destruct (signed_sized t Hwf) as [Hn Hb]. destruct Hwf as [Ht [Hs1 Hs2] Hk Hbd].
  rw /signed_encode /list_encode /signed_decode -app_assoc.
  rw dbind_header; [rw Hn /len length_app; lia|unfold u64_max; lia|]. rw dbind_dlen.
  set start := len (signed_payload t ++ rest).
  assert (Hstart : start = len (signed_payload t) + len rest) by (rw /start /len length_app; lia).
  rw /signed_payload app5_rest.
  rw (dbind_decodes _ _ id); [apply b256_decodes|].
  rw (dbind_decodes _ _ tx_nf); [by apply tx_decodes|].
  rw (dbind_decodes _ _ id); [by apply sig_decodes|].
  rw (dbind_decodes _ _ pubkey_nf);
    [by apply pubkey_decodes|].
  rw {1}/dbind bundle_field_decodes.
  - done.
  - rw Hstart Hn /sat_sub. unfold len. lia.
  - rw Hn /signed_payload /len !length_app. lia.
  - rw Hstart Hn /sat_sub /signed_payload /len !length_app. lia.
  - rw /start dbind_consumed; [exact Hn|reflexivity].
Qed.

(** Re-encoding a decoded value gives the same bytes. *)
Lemma empty_list_field : list_length 0 = header_length true 0.
Proof.
  destruct (header_length_encode 0) as [Hl ?]; [done|]. rw /list_length /sat_add.
  unfold u64_max in *. lia.
Qed.

Lemma access_list_nf tx :
  access_list_rlp_len (tx_nf tx) = access_list_rlp_len tx ∧
  encode_access_list (tx_nf tx) = encode_access_list tx.
Proof.
  rw /access_list_rlp_len /encode_access_list /=. destruct (access_list tx) as [[|]|]; [|done..].
  rw /items_payload /usize_sum sumZ_nil app_nil_r Zmod_0_l. by split; [rw empty_list_field|].
Qed.

Lemma blob_hashes_nf tx :
  blob_hashes_rlp_len (tx_nf tx) = blob_hashes_rlp_len tx ∧
  encode_blob_hashes (tx_nf tx) = encode_blob_hashes tx.
Proof.
  rw /blob_hashes_rlp_len /encode_blob_hashes /=.
  destruct (blob_versioned_hashes tx) as [[|]|]; [|done..].
  rw /hashes_payload /usize_sum sumZ_nil app_nil_r Zmod_0_l. by split; [rw empty_list_field|].
Qed.

Lemma tx_nf_same tx :
  tx_fields_len (tx_nf tx) = tx_fields_len tx ∧ tx_encode (tx_nf tx) = tx_encode tx.
Proof.
  destruct (access_list_nf tx) as [Ha1 Ha2], (blob_hashes_nf tx) as [Hh1 Hh2].
  by rw /tx_encode /tx_fields_len /tx_payload Ha1 Ha2 Hh1 Hh2.
Qed.

Lemma opt_bytes_nf o :
  opt_bytes_encode (some_nonempty o) = opt_bytes_encode o ∧
  opt_bytes_length (some_nonempty o) = opt_bytes_length o.
Proof. by destruct o as [[|]|]. Qed.

Lemma bundle_nf_same b :
  bundle_fields_len (bundle_nf b) = bundle_fields_len b ∧ bundle_encode (bundle_nf b) = bundle_encode b.
Proof.
  destruct (opt_bytes_nf (paymaster_signature b)) as [E1 L1].
  destruct (opt_bytes_nf (paymaster_context b)) as [E2 L2].
  by rw /bundle_encode /bundle_fields_len /bundle_payload /= E1 L1 E2 L2.
Qed.

Lemma pubkey_nf_same m :
  (∀ pk, m = Embedded pk → small_bytes pk) →
  pubkey_length (pubkey_nf m) = pubkey_length m ∧ pubkey_encode (pubkey_nf m) = pubkey_encode m.
Proof.
  intros Hm. destruct m as [[|b pk]|]; [|done..]. split; [|done]. simpl.
  destruct (bytes_length_encode []) as [-> _]; [by constructor|done|]. by rw bytes_encode_nil.
Qed.

Lemma signed_encode_nf t : signed_wf t → signed_encode (signed_nf t) = signed_encode t.
Proof.
  intros Hwf. destruct (tx_nf_same (st_tx t)) as [T1 T2].
  destruct (pubkey_nf_same _ (gwf_key t Hwf)) as [P1 P2].
  rw /signed_encode /signed_fields_len /signed_payload /signed_nf /tx_length /= T1 T2 P1 P2.
  destruct (aa_bundle t) as [b|]; [|done]. simpl. destruct (bundle_nf_same b) as [B1 B2].
  by rw /bundle_length B1 B2.
Qed.

(** C32: a signed transaction survives the wire.  For every RLP library that
    obeys the laws, decoding the encoding of a well-formed signed transaction
    (sizes within the validators' limits, a bundle only under its type) consumes
    exactly the encoding and returns the transaction with empty optional lists
    and strings read as absent; encoding that again gives the same bytes.  In
    particular every header length the code computes separately is right. *)
Theorem signed_roundtrip (t : SignedTransaction) (rest : list Z) :
  signed_wf t →
  signed_decode (signed_encode t ++ rest) = Ok (signed_nf t, rest) ∧
  signed_encode (signed_nf t) = signed_encode t.
Proof. intros Hwf. split; [by apply signed_decodes|by apply signed_encode_nf]. Qed.

(** The keys loop reads one key whatever positive length was declared. *)
Lemma decode_one_key k n rest :
  0 < n <= len (b256_encode k) →
  decode_while MAX_ACCESS_LIST_STORAGE_KEYS "access list entry exceeds maximum storage key count"
    b256_decode (len (b256_encode k ++ rest) - n) [] (b256_encode k ++ rest) = Ok ([k], rest).
Proof.
  intros Hn. change MAX_ACCESS_LIST_STORAGE_KEYS with (S (Z.to_nat 511)).
  generalize (Z.to_nat 511) => room. cbn [decode_while]. fold (len (b256_encode k ++ rest)).
  rw (proj2 (Z.ltb_lt _ _)); [lia|]. rw b256_decodes.
  assert (Hend : (len (b256_encode k ++ rest) - n <? Z.of_nat (length rest)) = false)
    by (apply Z.ltb_ge; rw len_app; unfold len in *; lia).
  destruct room; cbn [decode_while]; by rw Hend.
Qed.

(** Access-list entries have more than one accepted encoding.  The decoder
    does not check that the storage keys end where their header says: an entry
    with one key is accepted under every header length [n] from 1 up to the
    length of the key, and decodes to the same entry. *)
Theorem access_entry_malleable (a : Address) (k : ShellHash) (n : Z) (rest : list Z) :
  0 < n <= len (b256_encode k) →
  let body := b256_encode a ++ header_encode true n ++ b256_encode k in
  decode_access_item (header_encode true (len body) ++ body ++ rest) =
    Ok (MkAccessListItem a [k], rest).
Proof.
  intros Hn body.
  destruct (sized_b256 k) as [_ Hk], (sized_b256 a) as [Ea Ha], (sized_b256 k) as [Ek _].
  destruct (sized_header n) as [Eh Hh]; [unfold u64_max; lia|].
  pose proof (len_nonneg rest). pose proof (len_nonneg body). pose proof (len_nonneg (b256_encode k)).
  assert (Hbody : len body <= 91) by (rw /body !len_app; lia).
  rw /decode_access_item dbind_header; [rw len_app; lia|unfold u64_max; lia|].
  rw dbind_dlen {1}/dbind /dlift /rlp_payload_end (proj2 (Z.leb_le _ _)); [rw len_app; lia|].
  assert (He : len (body ++ rest) - len body = len rest) by (rw len_app; lia).
  rw He. set start := len (body ++ rest). rw /body -!app_assoc.
  rw (dbind_decodes _ _ id); [apply b256_decodes|].
  rw dbind_header; [rw len_app; lia|unfold u64_max; lia|].
  rw dbind_dlen {1}/dbind /dlift /rlp_payload_end (proj2 (Z.leb_le _ _)); [rw len_app; lia|].
  rw {1}/dbind (decode_one_key k n rest); [lia|]. by rw dbind_end.
Qed.
End theorems.

(** ** Witnesses *)

(** A transfer with an access list, in a bundle of one call paid by account 9. *)
Definition sample_tx : Transaction :=
  MkTransaction 1 7 (Some (b256_of_Z 5)) 1000 [1; 0; 2] 100000 50 2
    (Some [MkAccessListItem (b256_of_Z 5) [b256_of_Z 3; b256_of_Z 4]]) 126 None (Some []).
Definition sample_bundle : AaBundle :=
  MkAaBundle [MkInnerCall None 10 [7] 30000] (Some (b256_of_Z 9)) (Some [1; 2; 3]) (Some [])
    (Some (MkSessionAuth [1] 0 None 77 100 [4] [5])).
Definition sample_signed : SignedTransaction :=
  MkSignedTransaction (b256_of_Z 1) sample_tx (MkPQSignature MlDsa65 [9; 9]) (Embedded [200; 1])
    (Some sample_bundle).

Ltac wf_bytes := repeat constructor; unfold u64_max, u8_max, len; simpl; lia.

Lemma sample_tx_wf : tx_wf sample_tx.
Proof.
  split; simpl; [done..|by split; [wf_bytes|]|done|done|done| |done|done|].
  - intros l [= <-]. split; [unfold MAX_ACCESS_LIST_ENTRIES; simpl; lia|].
    intros i ->%list_elem_of_singleton. unfold item_wf, MAX_ACCESS_LIST_STORAGE_KEYS. simpl. lia.
  - intros l [= <-]. simpl. lia.
Qed.

Lemma sample_bundle_wf : bundle_wf sample_bundle.
Proof.
  split; simpl.
  - split; [unfold MAX_INNER_CALLS; lia|]. intros c ->%list_elem_of_singleton. split; simpl; [done|by split; [wf_bytes|]|done].
  - intros l [= <-]. by split; [wf_bytes|].
  - intros l [= <-]. by split; [wf_bytes|].
  - intros s [= <-]. split; simpl; [by split; [wf_bytes|]|done|done|done|by split; [wf_bytes|]..].
Qed.

Lemma sample_signed_wf : signed_wf sample_signed.
Proof.
  split; simpl; [apply sample_tx_wf|by split; [wf_bytes|]|..].
  - intros pk [= <-]. by split; [wf_bytes|].
  - intros b [= <-]. split; [done|apply sample_bundle_wf].
Qed.

Lemma signed_roundtrip_witness :
  signed_decode (signed_encode sample_signed ++ [1; 2]) = Ok (signed_nf sample_signed, [1; 2]).
Proof. exact (proj1 (signed_roundtrip sample_signed [1; 2] sample_signed_wf)). Defined.

Lemma access_entry_malleable_witness :
  let a := b256_of_Z 5 in
  let k := b256_of_Z 3 in
  let body n := b256_encode a ++ header_encode true n ++ b256_encode k in
  body 1 ≠ body 33 ∧
  decode_access_item (header_encode true (len (body 1)) ++ body 1 ++ []) =
    Ok (MkAccessListItem a [k], []) ∧
  decode_access_item (header_encode true (len (body 33)) ++ body 33 ++ []) =
    Ok (MkAccessListItem a [k], []).
Proof.
  intros a k body. split; [|split].
  - assert (Hb : bool_decide (body 1 = body 33) = false) by (by vm_compute).
    by apply bool_decide_eq_false in Hb.
  - exact (access_entry_malleable a k 1 [] ltac:(vm_compute; done)).
  - exact (access_entry_malleable a k 33 [] ltac:(vm_compute; done)).
Defined.
