(* ===== verification/TxHash.v ===== *)
(** * Signing payloads

    The byte strings of crates/core/src/transaction.rs that are hashed and
    signed: the transaction's signing payload, the bundle payload of its sender,
    the paymaster's authorization, the session key's authorization and the
    transaction identifier.  What each of them binds, that they cannot be taken
    for one another, and where the transaction's own payload is ambiguous. *)

From S2P Require Import Prelude Primitives Fee Rlp RlpImpl Transaction TxCodec.

(** [b"PQTX_SIGNING_V2\0"] *)
Definition PQTX_SIGNING_DOMAIN : list Z :=
  [80; 81; 84; 88; 95; 83; 73; 71; 78; 73; 78; 71; 95; 86; 50; 0].
(** [b"PQTX_BUNDLE_V1\0\0"] *)
Definition PQTX_BUNDLE_DOMAIN : list Z :=
  [80; 81; 84; 88; 95; 66; 85; 78; 68; 76; 69; 95; 86; 49; 0; 0].
(** [b"PQTX_PAYMASTER_V"] *)
Definition PQTX_PAYMASTER_DOMAIN : list Z :=
  [80; 81; 84; 88; 95; 80; 65; 89; 77; 65; 83; 84; 69; 82; 95; 86].
(** [b"PQTX_IDENTITY_V1"] *)
Definition PQTX_ID_DOMAIN : list Z :=
  [80; 81; 84; 88; 95; 73; 68; 69; 78; 84; 73; 84; 89; 95; 86; 49].
(** [b"PQTX_SESSION_V2\0"] *)
Definition PQTX_SESSION_DOMAIN : list Z :=
  [80; 81; 84; 88; 95; 83; 69; 83; 83; 73; 79; 78; 95; 86; 50; 0].

Section payloads.
Context {R : Rlp} {H : Hashes}.

(** [None] is written as 32 zero bytes. *)
Definition to_bytes (to : option Address) : list Z :=
  match to with Some a => as_bytes a | None => replicate 32 0 end.

Definition blob_bytes (tx : Transaction) : list Z :=
  if tx_type tx =? 3 then
    be_bytes 8 (unwrap_or 0 (max_fee_per_blob_gas tx)) ++
    match blob_versioned_hashes tx with Some hashes => hashes ≫= as_bytes | None => [] end
  else [].

Definition signing_preimage (tx : Transaction) (sig_type : Z) : list Z :=
  PQTX_SIGNING_DOMAIN ++ be_bytes 8 (tx_chain_id tx) ++ be_bytes 8 (tx_nonce tx) ++
  to_bytes (tx_to tx) ++ be_bytes 32 (tx_value tx) ++ tx_data tx ++
  be_bytes 8 (tx_gas_limit tx) ++ be_bytes 8 (max_fee_per_gas tx) ++
  be_bytes 8 (max_priority_fee_per_gas tx) ++ encode_access_list tx ++
  [sig_type; tx_type tx] ++ blob_bytes tx.

Definition signing_hash (tx : Transaction) (sig_type : Z) : ShellHash :=
  blake3_hash (signing_preimage tx sig_type).

Definition auth_preimage (s : SessionAuth) (chain_id : Z) : list Z :=
  PQTX_SESSION_DOMAIN ++ session_pubkey s ++ [session_algo s] ++
  match session_target s with Some a => 1 :: as_bytes a | None => 0 :: replicate 32 0 end ++
  be_bytes 32 (value_cap s) ++ be_bytes 8 (expiry_block s) ++ be_bytes 8 chain_id.
Definition auth_hash (s : SessionAuth) (chain_id : Z) : ShellHash :=
  blake3_hash (auth_preimage s chain_id).

(** The bundle without its signatures. *)
Definition session_signing_fields_len (s : SessionAuth) : Z :=
  sat_add (sat_add (sat_add (sat_add (bytes_length (session_pubkey s)) (uint_length (session_algo s)))
    (opt_address_length (session_target s))) (bytes_length (value_trimmed (value_cap s))))
    (uint_length (expiry_block s)).
Definition session_encode_for_signing (s : SessionAuth) : list Z :=
  header_encode true (session_signing_fields_len s) ++ bytes_encode (session_pubkey s) ++
  uint_encode (session_algo s) ++ opt_address_encode (session_target s) ++
  bytes_encode (value_trimmed (value_cap s)) ++ uint_encode (expiry_block s).

Definition bundle_signing_fields_len (b : AaBundle) : Z :=
  sat_add (sat_add (sat_add (list_length (calls_payload (inner_calls b)))
    (opt_address_length (paymaster b))) (opt_bytes_length (paymaster_context b)))
    (match session_auth b with Some s => list_length (session_signing_fields_len s) | None => 0 end).
Definition bundle_encode_for_signing (b : AaBundle) : list Z :=
  header_encode true (bundle_signing_fields_len b) ++ encode_inner_calls b ++
  opt_address_encode (paymaster b) ++ opt_bytes_encode (paymaster_context b) ++
  match session_auth b with Some s => session_encode_for_signing s | None => [] end.

Definition st_signing_hash (t : SignedTransaction) : ShellHash :=
  signing_hash (st_tx t) (sig_type_as_u8 (sig_type (st_signature t))).

Definition batch_preimage (t : SignedTransaction) (b : AaBundle) : list Z :=
  PQTX_BUNDLE_DOMAIN ++ as_bytes (st_signing_hash t) ++ bundle_encode_for_signing b.
Definition batch_signing_hash (t : SignedTransaction) : option ShellHash :=
  match aa_bundle t with
  | None => None
  | Some b =>
      if negb (tx_type (st_tx t) =? AA_BUNDLE_TX_TYPE) then None
      else Some (blake3_hash (batch_preimage t b))
  end.

Definition paymaster_preimage (from : Address) (batch_hash : ShellHash) : list Z :=
  PQTX_PAYMASTER_DOMAIN ++ as_bytes from ++ as_bytes batch_hash.
Definition paymaster_signing_hash (t : SignedTransaction) : option ShellHash :=
  match aa_bundle t with
  | None => None
  | Some b =>
      match paymaster b, batch_signing_hash t with
      | Some _, Some h => Some (blake3_hash (paymaster_preimage (st_from t) h))
      | _, _ => None
      end
  end.

Definition sender_signing_hash (t : SignedTransaction) : ShellHash :=
  unwrap_or (st_signing_hash t) (batch_signing_hash t).

Definition id_preimage (from : Address) (h : ShellHash) : list Z :=
  PQTX_ID_DOMAIN ++ as_bytes from ++ as_bytes h.
(** [SignedTransaction::hash]. *)
Definition tx_hash (t : SignedTransaction) : ShellHash :=
  blake3_hash (id_preimage (st_from t) (sender_signing_hash t)).
End payloads.

(** ** Bytes of 256-bit values *)

Lemma be_bytes_add_mul n x y : be_bytes n (x + y * 256 ^ Z.of_nat n) = be_bytes n x.
Proof.
  revert y. induction n as [|n IH]; intros y; [done|].
  assert (Hp : 256 ^ Z.of_nat (S n) = 256 * 256 ^ Z.of_nat n)
    by (rw Nat2Z.inj_succ Z.pow_succ_r; lia).
  assert (0 < 256 ^ Z.of_nat n) by lia. cbn [be_bytes]. f_equal.
  - rw Hp Z.mul_assoc Z.div_add; [lia|]. by rw Z_mod_plus_full.
  - rw Hp Z.mul_assoc. apply IH.
Qed.

Lemma be_bytes_from l : bytes_ok l → be_bytes (length l) (from_be_bytes l) = l.
Proof.
  induction l as [|b l IH]; intros Hok; [done|]. apply Forall_cons in Hok as [Hb Hok].
  rw (from_be_bytes_app [b]). change (from_be_bytes [b]) with (0 * 256 + b). cbn [length be_bytes].
  rw Z.mul_0_l Z.add_0_l.
  assert (Hr : 0 <= from_be_bytes l < 256 ^ Z.of_nat (length l)).
  { rw -(IH Hok) from_be_bytes_be_bytes length_be_bytes. apply Z.mod_pos_bound. lia. }
  f_equal.
  - rw Z.div_add_l; [lia|]. rw (Z.div_small (from_be_bytes l)) // Z.add_0_r Z.mod_small //.
  - rw Z.add_comm be_bytes_add_mul. by apply IH.
Qed.

Lemma as_bytes_from l : bytes_ok l → length l = 32%nat → as_bytes (b256_from_bytes l) = l.
Proof.
  intros Hok Hl. rw /as_bytes /b256_from_bytes. cbn [b256_unsigned b256_of_Z].
  assert (Hr : from_be_bytes l mod (u256_max + 1) = from_be_bytes l).
  { rw -{1}(be_bytes_from l Hok) from_be_bytes_be_bytes Hl b256_pow.
    rw Zmod_mod -b256_pow -Hl -from_be_bytes_be_bytes be_bytes_from //. }
  by rw Hr -{1}Hl be_bytes_from.
Qed.

Lemma as_bytes_ZERO : as_bytes ZERO = replicate 32 0.
Proof. by vm_compute. Qed.

(** ** Separation of the payloads *)

Section separation.
Context {R : Rlp} {RL : RlpLaws R} {H : Hashes}.

Inductive payload :=
| PTx (tx : Transaction) (sig_type : Z)
| PBundle (t : SignedTransaction) (b : AaBundle)
| PPaymaster (from : Address) (batch_hash : ShellHash)
| PId (from : Address) (signing : ShellHash)
| PSession (s : SessionAuth) (chain_id : Z).

Definition payload_bytes (p : payload) : list Z :=
  match p with
  | PTx tx st => signing_preimage tx st
  | PBundle t b => batch_preimage t b
  | PPaymaster f h => paymaster_preimage f h
  | PId f h => id_preimage f h
  | PSession s c => auth_preimage s c
  end.

Definition payload_wf (p : payload) : Prop :=
  match p with PSession s c => session_wf s ∧ in_u64 c | _ => True end.

(** What equal payloads of one kind share; payloads of two kinds share nothing.
    Transactions are the subject of their own theorem. *)
Definition same_content (p q : payload) : Prop :=
  match p, q with
  | PTx _ _, PTx _ _ => True
  | PBundle t b, PBundle t' b' =>
      st_signing_hash t = st_signing_hash t' ∧
      bundle_encode_for_signing b = bundle_encode_for_signing b'
  | PPaymaster f h, PPaymaster f' h' | PId f h, PId f' h' => f = f' ∧ h = h'
  | PSession s c, PSession s' c' =>
      session_pubkey s = session_pubkey s' ∧ session_algo s = session_algo s' ∧
      session_target s = session_target s' ∧ value_cap s = value_cap s' ∧
      expiry_block s = expiry_block s' ∧ c = c'
  | _, _ => False
  end.

Lemma u256_bytes_inj a b :
  be_bytes 32 a = be_bytes 32 b → 0 <= a <= u256_max → 0 <= b <= u256_max → a = b.
Proof. intros E Ha Hb. apply (be_bytes_inj 32); rw ?b256_pow; [lia..|done]. Qed.

Lemma session_preimage_binds s s' c c' :
  session_wf s → session_wf s' → in_u64 c → in_u64 c' →
  auth_preimage s c = auth_preimage s' c' → same_content (PSession s c) (PSession s' c').
Proof.
  intros [_ _ Hv He _ _] [_ _ Hv' He' _ _] Hc Hc' E. rw /auth_preimage in E.
  apply app_inv_head, app_inj_2 in E as [Ek E].
  2:{ rw !length_app !length_be_bytes. destruct (session_target s), (session_target s');
      by rw /= ?length_as_bytes ?length_replicate. }
  apply app_inj_1 in E as [[= Ea] E]; [|done]. apply app_inj_1 in E as [Et E].
  2:{ destruct (session_target s), (session_target s'); by rw /= ?length_as_bytes ?length_replicate. }
  peel_bytes E. cbn [same_content]. split_and!; [done|done| |by apply u256_bytes_inj|by apply be_u64_inj..].
  destruct (session_target s), (session_target s'); [|done..].
  f_equal. apply as_bytes_inj. exact (f_equal (@tail Z) Et).
Qed.

(** C34: the five signed or hashed payloads cannot be taken for one another, and
    all but the transaction's own bind their content.  A payload of one kind is
    never a payload of another kind; equal paymaster and identifier payloads
    agree on the account and the hash, equal bundle payloads on the transaction's
    signing hash and the encoded bundle, and equal session authorizations on the
    key, algorithm, target, value cap, expiry and chain. *)
Theorem payloads_separated (p q : payload) :
  payload_wf p → payload_wf q → payload_bytes p = payload_bytes q → same_content p q.
Proof.
  assert (Hdom : ∀ d d' r r' : list Z, length d = length d' → d ≠ d' → d ++ r = d' ++ r' → False).
  { intros d d' r r' Hl Hne [? _]%app_inj_1; done. }
  destruct p, q; cbn [payload_wf payload_bytes]; intros Hp Hq E;
    try (exfalso; eapply Hdom in E; [done|done|by intros ?; simplify_eq]).
  - done.
  - rw /batch_preimage in E. apply app_inv_head, app_inj_1 in E as [E1 E2];
      [|by rw !length_as_bytes]. split; [by apply as_bytes_inj|done].
  - rw /paymaster_preimage in E. apply app_inv_head, app_inj_1 in E as [E1 E2];
      [|by rw !length_as_bytes]. by split; apply as_bytes_inj.
  - rw /id_preimage in E. apply app_inv_head, app_inj_1 in E as [E1 E2];
      [|by rw !length_as_bytes]. by split; apply as_bytes_inj.
  - destruct Hp, Hq. by apply session_preimage_binds.
Qed.

(** ** What the transaction's payload binds *)

Lemma access_list_prefix_free t1 t2 r1 r2 :
  tx_wf t1 → tx_wf t2 → encode_access_list t1 ++ r1 = encode_access_list t2 ++ r2 →
  some_nonempty (access_list t1) = some_nonempty (access_list t2) ∧ r1 = r2.
Proof.
  intros H1 H2 E. pose proof (access_list_decodes t1 r1 H1) as D1.
  pose proof (access_list_decodes t2 r2 H2) as D2. rw E D2 in D1. by injection D1.
Qed.

Lemma hashes_bytes_inj (l k : list ShellHash) : l ≫= as_bytes = k ≫= as_bytes → l = k.
Proof.
  revert k. induction l as [|x l IH]; intros [|y k] E; [done|..].
  1,2: by apply (f_equal length) in E; rw bind_cons length_app length_as_bytes in E.
  rw !bind_cons in E. apply app_inj_1 in E as [E1 E2]; [|by rw !length_as_bytes].
  f_equal; [by apply as_bytes_inj|by apply IH].
Qed.

(** Blob fields as the payload sees them. *)
Definition signed_blob (tx : Transaction) : Z * list ShellHash :=
  if tx_type tx =? 3
  then (unwrap_or 0 (max_fee_per_blob_gas tx), unwrap_or [] (blob_versioned_hashes tx))
  else (0, []).

Lemma blob_bytes_inj t1 t2 :
  tx_wf t1 → tx_wf t2 → tx_type t1 = tx_type t2 → blob_bytes t1 = blob_bytes t2 →
  signed_blob t1 = signed_blob t2.
Proof.
  intros H1 H2 Ht. rw /blob_bytes /signed_blob Ht. destruct (tx_type t2 =? 3); [|done].
  intros [E1 E2]%app_inj_1; [|by rw !length_be_bytes]. f_equal.
  - apply be_u64_inj; [done|..].
    + destruct (max_fee_per_blob_gas t1) eqn:F; [exact (twf_blob_fee t1 H1 _ F)|done].
    + destruct (max_fee_per_blob_gas t2) eqn:F; [exact (twf_blob_fee t2 H2 _ F)|done].
  - destruct (blob_versioned_hashes t1), (blob_versioned_hashes t2); simpl; apply hashes_bytes_inj; done.
Qed.

Lemma length_to_bytes to : length (to_bytes to) = 32%nat.
Proof. destruct to as [a|]; [exact (length_as_bytes a)|done]. Qed.

(** What a sender's signature commits to.  Two well-formed transactions with
    call data of the same length and the same signing payload agree on the chain,
    the nonce, the value, the call data, the gas limit and both fees, the
    signature and transaction types, the blob fields (for blob transactions), on
    the access list up to absent versus empty, and on the recipient up to a
    contract creation versus the zero address. *)
Theorem signing_payload_binds (t1 t2 : Transaction) (s1 s2 : Z) :
  tx_wf t1 → tx_wf t2 → length (tx_data t1) = length (tx_data t2) →
  signing_preimage t1 s1 = signing_preimage t2 s2 →
  tx_chain_id t1 = tx_chain_id t2 ∧ tx_nonce t1 = tx_nonce t2 ∧
  unwrap_or ZERO (tx_to t1) = unwrap_or ZERO (tx_to t2) ∧ tx_value t1 = tx_value t2 ∧
  tx_data t1 = tx_data t2 ∧ tx_gas_limit t1 = tx_gas_limit t2 ∧
  max_fee_per_gas t1 = max_fee_per_gas t2 ∧
  max_priority_fee_per_gas t1 = max_priority_fee_per_gas t2 ∧
  some_nonempty (access_list t1) = some_nonempty (access_list t2) ∧
  s1 = s2 ∧ tx_type t1 = tx_type t2 ∧ signed_blob t1 = signed_blob t2.
Proof.
  intros H1 H2 Hl E. rw /signing_preimage in E. apply app_inv_head in E.
  apply app_inj_1 in E as [E1 E]; [|by rw !length_be_bytes].
  apply app_inj_1 in E as [E2 E]; [|by rw !length_be_bytes].
  apply app_inj_1 in E as [E3 E]; [|by rw !length_to_bytes].
  apply app_inj_1 in E as [E4 E]; [|by rw !length_be_bytes].
  apply app_inj_1 in E as [E5 E]; [|done].
  apply app_inj_1 in E as [E6 E]; [|by rw !length_be_bytes].
  apply app_inj_1 in E as [E7 E]; [|by rw !length_be_bytes].
  apply app_inj_1 in E as [E8 E]; [|by rw !length_be_bytes].
  apply (access_list_prefix_free t1 t2) in E as [E9 E]; [|done..].
  apply app_inj_1 in E as [[= Es Et] E]; [|done].
  split_and!; [apply be_u64_inj; [done|apply H1|apply H2]|apply be_u64_inj; [done|apply H1|apply H2]
    | |apply u256_bytes_inj; [done|apply H1|apply H2]|done
    |apply be_u64_inj; [done|apply H1|apply H2]|apply be_u64_inj; [done|apply H1|apply H2]
    |apply be_u64_inj; [done|apply H1|apply H2]|done|done|done|by apply blob_bytes_inj].
  apply as_bytes_inj. destruct (tx_to t1), (tx_to t2); simpl in *; by rw ?as_bytes_ZERO.
Qed.
End separation.

(** ** Where the transaction's payload is ambiguous *)

(** The storage key that spells a gas limit, two fees and an empty list. *)
Definition forged_key (gas_limit max_fee priority_fee : Z) : ShellHash :=
  b256_from_bytes (replicate 7 0 ++ be_bytes 8 gas_limit ++ be_bytes 8 max_fee ++
    be_bytes 8 priority_fee ++ [192]).

(** A transaction without call data whose access list holds that key. *)
Definition honest_tx (cid nonce : Z) (to : option Address) (value gas fee prio : Z) (a : Address)
    (gas' fee' prio' : Z) : Transaction :=
  MkTransaction cid nonce to value [] gas fee prio
    (Some [MkAccessListItem a [forged_key gas' fee' prio']]) 2 None None.

(** The transaction the same payload also spells: call data in place of the
    access list, another gas limit and other fees. *)
Definition forged_data (gas fee prio : Z) (a : Address) : list Z :=
  be_bytes 8 gas ++ be_bytes 8 fee ++ be_bytes 8 prio ++
  [248; 69; 248; 67; 160] ++ as_bytes a ++ [225; 160] ++ replicate 7 0.
Definition forged_tx (cid nonce : Z) (to : option Address) (value gas fee prio : Z) (a : Address)
    (gas' fee' prio' : Z) : Transaction :=
  MkTransaction cid nonce to value (forged_data gas fee prio a) gas' fee' prio' None 2 None None.

Lemma impl_b256_encode k : b256_encode k = 160 :: as_bytes k.
Proof.
  pose proof (length_as_bytes k) as Hl. rw /b256_encode.
  assert (Hgen : ∀ l, length l = 32%nat → impl_bytes_encode l = 160 :: l).
  { intros [|b [|b' l]] E; [done..|]. by rw /impl_bytes_encode E. }
  by apply Hgen.
Qed.

Lemma impl_b256_length k : b256_length k = 33.
Proof.
  destruct (b256_length_encode k) as [-> _]. rw impl_b256_encode. cbn [length]. by rw length_as_bytes.
Qed.

Lemma bind_one {A B} (f : A → list B) x : [x] ≫= f = f x.
Proof. by rw bind_cons app_nil_r. Qed.

Lemma one_entry_encoding tx a k :
  access_list tx = Some [MkAccessListItem a [k]] →
  encode_access_list tx = [248; 69; 248; 67; 160] ++ as_bytes a ++ [225; 160] ++ as_bytes k.
Proof.
  intros E.
  assert (Hk : hashes_payload [k] = 33)
    by (by rw /hashes_payload /usize_sum sumZ_cons sumZ_nil impl_b256_length).
  assert (He : entry_payload (MkAccessListItem a [k]) = 67)
    by (rw /entry_payload; cbn [al_address storage_keys]; by rw Hk impl_b256_length).
  assert (Hi : items_payload [MkAccessListItem a [k]] = 69)
    by (by rw /items_payload /usize_sum sumZ_cons sumZ_nil He).
  rw /encode_access_list E Hi bind_one /encode_access_item He. cbn [al_address storage_keys].
  rw Hk bind_one !impl_b256_encode. done.
Qed.

Lemma forged_key_bytes g f p :
  as_bytes (forged_key g f p) =
    replicate 7 0 ++ be_bytes 8 g ++ be_bytes 8 f ++ be_bytes 8 p ++ [192].
Proof.
  apply as_bytes_from.
  - repeat apply Forall_app_2; [by repeat constructor|apply be_bytes_ok..|by repeat constructor].
  - by rw !length_app !length_be_bytes.
Qed.

(** C37: one signature can authorize two transactions.  Whatever hash function is
    used, the signing hash of a transaction without call data whose access list
    holds a suitable storage key is also the signing hash of a transaction with
    the same chain, nonce, recipient and value but with call data, without the
    access list, and with a gas limit and fees chosen freely through the key;
    and a contract creation has the signing hash of the same call to the zero
    address. *)
Theorem signing_hash_ambiguous `{Hashes} cid nonce to value gas fee prio a gas' fee' prio' data sig_type :
  let honest := honest_tx cid nonce to value gas fee prio a gas' fee' prio' in
  let forged := forged_tx cid nonce to value gas fee prio a gas' fee' prio' in
  let create := MkTransaction cid nonce None value data gas fee prio None 2 None None in
  let call := MkTransaction cid nonce (Some ZERO) value data gas fee prio None 2 None None in
  tx_data honest ≠ tx_data forged ∧
  signing_hash honest sig_type = signing_hash forged sig_type ∧
  is_contract_creation create ≠ is_contract_creation call ∧
  signing_hash create sig_type = signing_hash call sig_type.
Proof.
  intros honest forged create call. split_and!.
  - rw /= /forged_data. intros E%(f_equal length). by rw !length_app !length_be_bytes in E.
  - rw /signing_hash. f_equal. rw /signing_preimage.
    rw (one_entry_encoding honest a (forged_key gas' fee' prio')) // forged_key_bytes.
    change (encode_access_list forged) with [192].
    cbn [tx_chain_id tx_nonce tx_to tx_value tx_data tx_gas_limit max_fee_per_gas
         max_priority_fee_per_gas tx_type honest forged honest_tx forged_tx].
    rw /forged_data app_nil_l -!app_assoc. done.
  - assert (is_contract_creation create = true) as -> by (by apply bool_decide_eq_true_2).
    assert (is_contract_creation call = false) as -> by (by apply bool_decide_eq_false_2). done.
  - by rw /signing_hash; f_equal.
Qed.

(** ** Witnesses *)

#[local] Instance zero_hashes : Hashes := {| keccak256 _ := ZERO; blake3_hash _ := ZERO |}.

Lemma payloads_separated_witness :
  same_content (PId (b256_of_Z 1) (b256_of_Z 2)) (PId (b256_of_Z 1) (b256_of_Z 2)).
Proof.
  exact (payloads_separated (PId (b256_of_Z 1) (b256_of_Z 2)) (PId (b256_of_Z 1) (b256_of_Z 2))
           I I eq_refl).
Defined.

Lemma signing_payload_binds_witness : tx_data sample_tx = tx_data (tx_nf sample_tx).
Proof.
  refine (proj1 (proj2 (proj2 (proj2 (proj2 (signing_payload_binds sample_tx (tx_nf sample_tx) 1 1
            sample_tx_wf _ eq_refl _)))))).
  - split; simpl; apply sample_tx_wf || (try done).
  - rw /signing_preimage. by rw (proj2 (access_list_nf sample_tx)).
Defined.
