(* ===== verification/TxValidation.v ===== *)
(** * Transaction validation

    crates/pqvm/src/tx_validation.rs: the checks a signed transaction passes
    before it is executed ([validate_tx]) and when a block that carries it is
    imported ([validate_tx_for_import]), with the intrinsic gas of
    crates/primitives/src/gas_constants.rs.  [validate_aa_tx] runs signature
    verifiers and validation contracts on the state it may only read; its
    outcome, errors already converted, is an argument of the definitions.  So
    are the readers of the world state, which may fail. *)

From S2P Require Import Prelude Primitives Fee Rlp Transaction.

Definition INTRINSIC_GAS_TX : Z := 21000.
Definition GAS_CONTRACT_CREATION : Z := 32000.
Definition GAS_PER_ZERO_BYTE : Z := 4.
Definition GAS_PER_NONZERO_BYTE : Z := 16.
Definition ACCESS_LIST_ADDRESS_COST : Z := 2400.
Definition ACCESS_LIST_STORAGE_KEY_COST : Z := 1900.

Inductive StorageError :=
| NotFound
| InvalidInput (msg : string)
| Database (msg : string)
| Serialization (msg : string)
| TrieError (msg : string)
| Codec (msg : string)
| StateError (msg : string).

(** The texts of [InvalidAaBundle], with the values they print. *)
Inductive AaBundleFault :=
| TypeAndPresence (ty : Z) (present : bool)
| Structure (msg : string)
| PaymasterIsSender
| GasBudget (inner_sum surcharge gas_limit : Z)
| ValueOverflow
| ValueBudget (inner_value value : Z).

(** The constructors this file raises; [AaFailed] stands for those that
    [validate_aa_tx] raises. *)
Inductive TxValidationError :=
| NonceMismatch (expected got : Z)
| NonceOverflow
| InsufficientBalance (needed have : Z)
| ChainIdMismatch (expected got : Z)
| UnsupportedTransactionType (ty : Z)
| PriorityFeeAboveMaxFee (priority_fee max_fee : Z)
| GasTooLow (gas : Z)
| Storage (e : StorageError)
| InvalidAccessList (msg : string)
| InvalidBlobTx (msg : string)
| InvalidAaBundle (fault : AaBundleFault)
| PaymasterInsufficientBalance (paymaster : Address) (needed have : Z)
| AaFailed (kind : string).

(** ** Intrinsic gas *)

Definition compute_intrinsic_gas (data : list Z) (is_create : bool)
    (access_list : option (list AccessListItem)) : Z :=
  let gas := INTRINSIC_GAS_TX in
  let gas := if is_create then sat_add gas GAS_CONTRACT_CREATION else gas in
  let gas := foldl (λ gas byte,
    if byte =? 0 then sat_add gas GAS_PER_ZERO_BYTE else sat_add gas GAS_PER_NONZERO_BYTE) gas data in
  match access_list with
  | Some l =>
      foldl (λ gas item,
        let gas := sat_add gas ACCESS_LIST_ADDRESS_COST in
        sat_add gas (sat_mul ACCESS_LIST_STORAGE_KEY_COST (len (storage_keys item)))) gas l
  | None => gas
  end.

Definition total_intrinsic_gas (t : SignedTransaction) (aa_extra_gas : Z) :
    result Z TxValidationError :=
  let tx := st_tx t in
  let is_create := is_contract_creation tx && negb (is_aa_bundle t) in
  ok_or (checked_add (compute_intrinsic_gas (tx_data tx) is_create (access_list tx)) aa_extra_gas)
    (GasTooLow (tx_gas_limit tx)).

(** ** Stateless checks *)

Definition ensure_nonce_can_advance (nonce : Z) : result unit TxValidationError :=
  match checked_add nonce 1 with Some _ => Ok tt | None => Err NonceOverflow end.

Definition validate_transaction_type (ty : Z) : result unit TxValidationError :=
  if ((0 <=? ty) && (ty <=? 3)) || (ty =? AA_BUNDLE_TX_TYPE) then Ok tt
  else Err (UnsupportedTransactionType ty).

Definition validate_fee_caps (tx : Transaction) : result unit TxValidationError :=
  if max_fee_per_gas tx <? max_priority_fee_per_gas tx
  then Err (PriorityFeeAboveMaxFee (max_priority_fee_per_gas tx) (max_fee_per_gas tx))
  else Ok tt.

Definition checked_mul_u256 (a b : Z) : option Z := if a * b <=? u256_max then Some (a * b) else None.

Definition max_transaction_gas_cost (tx : Transaction) : option Z :=
  execution_gas_cost ← checked_mul_u256 (tx_gas_limit tx) (max_fee_per_gas tx);
  blob_gas_cost ← checked_mul_u256 (blob_gas tx) (unwrap_or 0 (max_fee_per_blob_gas tx));
  checked_add_u256 execution_gas_cost blob_gas_cost.

(** The sum is a [u128]; the result is cast to [u64] once it is known to fit. *)
Definition validate_aa_bundle_structure (t : SignedTransaction) : result Z TxValidationError :=
  let tx := st_tx t in
  let is_aa_type := tx_type tx =? AA_BUNDLE_TX_TYPE in
  let has_bundle := bool_decide (is_Some (aa_bundle t)) in
  if negb (eqb is_aa_type has_bundle) then Err (InvalidAaBundle (TypeAndPresence (tx_type tx) has_bundle))
  else
    match aa_bundle t with
    | None => Ok 0
    | Some bundle =>
        let? _ := map_err (λ e, InvalidAaBundle (Structure e)) (validate_structure bundle) in
        if bool_decide (paymaster bundle = Some (st_from t)) then Err (InvalidAaBundle PaymasterIsSender)
        else
          let inner_sum := inner_gas_sum bundle in
          let surcharge := intrinsic_gas_surcharge bundle in
          let combined := Z.min (inner_sum + surcharge) u128_max in
          if tx_gas_limit tx <? combined
          then Err (InvalidAaBundle (GasBudget inner_sum surcharge (tx_gas_limit tx)))
          else
            match checked_inner_value_sum bundle with
            | None => Err (InvalidAaBundle ValueOverflow)
            | Some s =>
                if tx_value tx <? s then Err (InvalidAaBundle (ValueBudget s (tx_value tx)))
                else Ok (combined mod (u64_max + 1))
            end
    end.

(** The checks before the first state access, the same in both pipelines. *)
Definition validate_static (t : SignedTransaction) (expected_chain_id : Z) :
    result unit TxValidationError :=
  let tx := st_tx t in
  if negb (tx_chain_id tx =? expected_chain_id)
  then Err (ChainIdMismatch expected_chain_id (tx_chain_id tx))
  else
    let? _ := validate_transaction_type (tx_type tx) in
    let? _ := validate_fee_caps tx in
    let? _ := map_err InvalidAccessList (validate_access_list tx) in
    let? _ := map_err InvalidBlobTx (validate_blob_tx tx) in
    let? aa_extra_gas := validate_aa_bundle_structure t in
    let? _ := ensure_nonce_can_advance (tx_nonce tx) in
    let? intrinsic := total_intrinsic_gas t aa_extra_gas in
    if tx_gas_limit tx <? intrinsic then Err (GasTooLow (tx_gas_limit tx)) else Ok tt.

(** ** Checks against the state *)

Record AaValidationOutcome := MkAaValidationOutcome {
  out_pubkey : list Z;
  should_register_pubkey : bool;
  protocol_checks_nonce : bool;
}.

(** What validation reads: the world state, the outcome of [validate_aa_tx]
    (at the head, or at the block being imported), and whether a write to the
    chain store succeeds. *)
Record TxEnv := MkTxEnv {
  get_nonce : Address → result Z StorageError;
  get_balance : Address → result Z StorageError;
  validate_aa_tx : SignedTransaction → result AaValidationOutcome TxValidationError;
  validate_aa_tx_at_block : SignedTransaction → Z → result AaValidationOutcome TxValidationError;
  store_put : Address → list Z → result unit StorageError;
}.

Definition check_nonce (tx : Transaction) (account_nonce : Z) : result unit TxValidationError :=
  if negb (tx_nonce tx =? account_nonce) then Err (NonceMismatch account_nonce (tx_nonce tx)) else Ok tt.

(** The sender pays gas and value: a bundle without a paymaster, or no bundle. *)
Definition check_sender_pays (env : TxEnv) (t : SignedTransaction) : result unit TxValidationError :=
  match c ← max_transaction_gas_cost (st_tx t); checked_add_u256 c (tx_value (st_tx t)) with
  | None =>
      let? have := map_err Storage (get_balance env (st_from t)) in
      Err (InsufficientBalance u256_max have)
  | Some needed =>
      let? balance := map_err Storage (get_balance env (st_from t)) in
      if balance <? needed then Err (InsufficientBalance needed balance) else Ok tt
  end.

(** The paymaster pays the gas, the sender the value. *)
Definition check_paymaster_pays (env : TxEnv) (t : SignedTransaction) (pm : Address) :
    result unit TxValidationError :=
  let needed_gas := unwrap_or u256_max (max_transaction_gas_cost (st_tx t)) in
  let? pm_balance := map_err Storage (get_balance env pm) in
  if pm_balance <? needed_gas then Err (PaymasterInsufficientBalance pm needed_gas pm_balance)
  else
    let? balance := map_err Storage (get_balance env (st_from t)) in
    if balance <? tx_value (st_tx t) then Err (InsufficientBalance (tx_value (st_tx t)) balance)
    else Ok tt.

Definition check_balances (env : TxEnv) (t : SignedTransaction) : result unit TxValidationError :=
  match aa_bundle t with
  | Some bundle =>
      match paymaster bundle with
      | Some pm => check_paymaster_pays env t pm
      | None => check_sender_pays env t
      end
  | None => check_sender_pays env t
  end.

(** [chain_store.put_pubkey]; the public keys on chain are the state of
    [validate_tx]. *)
Abbreviation Pubkeys := (gmap Address (list Z)).
Definition put_pubkey (env : TxEnv) (keys : Pubkeys) (a : Address) (pk : list Z) :
    result unit TxValidationError * Pubkeys :=
  match store_put env a pk with
  | Ok _ => (Ok tt, <[a := pk]> keys)
  | Err e => (Err (Storage e), keys)
  end.

Definition validate_tx (env : TxEnv) (keys : Pubkeys) (t : SignedTransaction)
    (expected_chain_id : Z) : result (list Z) TxValidationError * Pubkeys :=
  let checked :=
    let? _ := validate_static t expected_chain_id in
    let? validation := validate_aa_tx env t in
    let? _ := (if protocol_checks_nonce validation then
                 let? account_nonce := map_err Storage (get_nonce env (st_from t)) in
                 check_nonce (st_tx t) account_nonce
               else Ok tt) in
    let? _ := check_balances env t in
    Ok validation in
  match checked with
  | Err e => (Err e, keys)
  | Ok validation =>
      if should_register_pubkey validation then
        match put_pubkey env keys (st_from t) (out_pubkey validation) with
        | (Ok _, keys) => (Ok (out_pubkey validation), keys)
        | (Err e, keys) => (Err e, keys)
        end
      else (Ok (out_pubkey validation), keys)
  end.

Definition validate_tx_for_import_inner (env : TxEnv) (t : SignedTransaction)
    (expected_chain_id : Z) (expected_nonce : option Z) (validation_header : option Z) :
    result unit TxValidationError :=
  let? _ := validate_static t expected_chain_id in
  let? validation := (match validation_header with
                      | Some header => validate_aa_tx_at_block env t header
                      | None => validate_aa_tx env t
                      end) in
  if protocol_checks_nonce validation then
    let? account_nonce := (match expected_nonce with
                           | Some expected => Ok expected
                           | None => map_err Storage (get_nonce env (st_from t))
                           end) in
    check_nonce (st_tx t) account_nonce
  else Ok tt.

Definition validate_tx_for_import (env : TxEnv) (t : SignedTransaction) (expected_chain_id : Z) :=
  validate_tx_for_import_inner env t expected_chain_id None None.
Definition validate_tx_for_import_with_expected_nonce (env : TxEnv) (t : SignedTransaction)
    (expected_chain_id expected_nonce : Z) :=
  validate_tx_for_import_inner env t expected_chain_id (Some expected_nonce) None.
Definition validate_tx_for_import_at_block (env : TxEnv) (t : SignedTransaction)
    (expected_chain_id : Z) (expected_nonce : option Z) (validation_header : Z) :=
  validate_tx_for_import_inner env t expected_chain_id expected_nonce (Some validation_header).

(** ** Gas, exactly *)

Definition byte_gas (byte : Z) : Z := if byte =? 0 then GAS_PER_ZERO_BYTE else GAS_PER_NONZERO_BYTE.
Definition item_gas (item : AccessListItem) : Z :=
  ACCESS_LIST_ADDRESS_COST + ACCESS_LIST_STORAGE_KEY_COST * len (storage_keys item).

(** The intrinsic gas as an integer: no saturation. *)
Definition intrinsic_gas_exact (data : list Z) (is_create : bool)
    (access_list : option (list AccessListItem)) : Z :=
  INTRINSIC_GAS_TX + (if is_create then GAS_CONTRACT_CREATION else 0) + sumZ byte_gas data +
  sumZ item_gas (unwrap_or [] access_list).

Lemma byte_gas_range b : 0 <= byte_gas b <= 16.
Proof. rw /byte_gas. case_match; done. Qed.

Lemma item_gas_nonneg i : 0 <= item_gas i.
Proof.
  rw /item_gas /ACCESS_LIST_ADDRESS_COST /ACCESS_LIST_STORAGE_KEY_COST.
  pose proof (len_nonneg (storage_keys i)). lia.
Qed.

(** The saturating additions compute the exact sum, capped. *)
Lemma data_gas_capped g data :
  0 <= g <= u64_max →
  foldl (λ gas byte, if byte =? 0 then sat_add gas GAS_PER_ZERO_BYTE
    else sat_add gas GAS_PER_NONZERO_BYTE) g data = Z.min (g + sumZ byte_gas data) u64_max.
Proof.
  intros Hg. rw -foldl_sat_add //; [intros; apply byte_gas_range|]. clear Hg. revert g.
  induction data as [|x data IH]; intros g; [done|]. rw /= IH /byte_gas. by destruct (x =? 0).
Qed.

Lemma list_gas_capped g l :
  0 <= g <= u64_max →
  foldl (λ gas item, let gas := sat_add gas ACCESS_LIST_ADDRESS_COST in
    sat_add gas (sat_mul ACCESS_LIST_STORAGE_KEY_COST (len (storage_keys item)))) g l =
  Z.min (g + sumZ item_gas l) u64_max.
Proof.
  revert g. induction l as [|x l IH]; intros g Hg; cbn [foldl]; [rw sumZ_nil; lia|].
  assert (0 <= sumZ item_gas l) by (apply sumZ_nonneg; intros; apply item_gas_nonneg).
  assert (Hx : 0 <= ACCESS_LIST_STORAGE_KEY_COST * len (storage_keys x))
    by (pose proof (len_nonneg (storage_keys x)); unfold ACCESS_LIST_STORAGE_KEY_COST; lia).
  cbv zeta. rw IH; [|rw sumZ_cons; generalize dependent (sumZ item_gas l); intros; rw /item_gas]; unfold sat_mul, sat_add, ACCESS_LIST_ADDRESS_COST in *;
    generalize dependent (ACCESS_LIST_STORAGE_KEY_COST * len (storage_keys x)); intros; lia.
Qed.

Lemma compute_intrinsic_gas_capped data is_create al :
  compute_intrinsic_gas data is_create al = Z.min (intrinsic_gas_exact data is_create al) u64_max.
Proof.
  rw /compute_intrinsic_gas /intrinsic_gas_exact.
  set (g := if is_create then sat_add _ _ else _).
  assert (g = INTRINSIC_GAS_TX + (if is_create then GAS_CONTRACT_CREATION else 0)) as <-
    by (subst g; by destruct is_create).
  assert (0 <= g <= u64_max) by (subst g; by destruct is_create).
  assert (0 <= sumZ byte_gas data) by (apply sumZ_nonneg; intros; apply byte_gas_range).
  cbv zeta. rw data_gas_capped //. destruct al as [l|]; simpl; [|rw sumZ_nil; f_equal; lia].
  assert (0 <= sumZ item_gas l) by (apply sumZ_nonneg; intros; apply item_gas_nonneg).
  rw (list_gas_capped (Z.min _ _)); lia.
Qed.

(** ** What the values are

    The ranges are those of the source's types; that calldata is shorter than
    [2^40] bytes is the one restriction, far above any message the network
    accepts. *)
Record tx_ranges (tx : Transaction) : Prop := {
  rg_nonce : in_u64 (tx_nonce tx);
  rg_gas_limit : in_u64 (tx_gas_limit tx);
  rg_max_fee : in_u64 (max_fee_per_gas tx);
  rg_blob_fee : ∀ f, max_fee_per_blob_gas tx = Some f → in_u64 f;
  rg_value : 0 <= tx_value tx <= u256_max;
  rg_data : len (tx_data tx) <= 2 ^ 40;
}.
Definition bundle_ranges (b : AaBundle) : Prop :=
  ∀ c, c ∈ inner_calls b → in_u64 (ic_gas_limit c) ∧ 0 <= ic_value c <= u256_max.
Definition signed_ranges (t : SignedTransaction) : Prop :=
  tx_ranges (st_tx t) ∧ ∀ b, aa_bundle t = Some b → bundle_ranges b.
Definition env_ranges (env : TxEnv) : Prop :=
  ∀ a b, get_balance env a = Ok b → 0 <= b <= u256_max.

(** ** Admissible transactions, without machine arithmetic *)

(** The most a transaction can pay for execution and blob gas. *)
Definition gas_cost (tx : Transaction) : Z :=
  tx_gas_limit tx * max_fee_per_gas tx +
  len (unwrap_or [] (blob_versioned_hashes tx)) * BLOB_GAS_PER_BLOB * unwrap_or 0 (max_fee_per_blob_gas tx).

(** The gas a bundle reserves for its calls: their limits, the surcharge for
    each call after the first, and two signature checks for a session key. *)
Definition bundle_gas (b : AaBundle) : Z :=
  sumZ ic_gas_limit (inner_calls b) + (len (inner_calls b) - 1) * AA_INNER_CALL_INTRINSIC_GAS +
  (if bool_decide (is_Some (session_auth b)) then 2 * PQ_VERIFY_GAS else 0).

Record bundle_admissible (t : SignedTransaction) (b : AaBundle) : Prop := {
  ba_structure : validate_structure b = Ok tt;
  ba_paymaster : paymaster b ≠ Some (st_from t);
  ba_value : sumZ ic_value (inner_calls b) <= tx_value (st_tx t);
}.

Record admissible (chain_id : Z) (t : SignedTransaction) : Prop := {
  ad_chain : tx_chain_id (st_tx t) = chain_id;
  ad_type : tx_type (st_tx t) ∈ [0; 1; 2; 3; AA_BUNDLE_TX_TYPE];
  ad_fees : max_priority_fee_per_gas (st_tx t) <= max_fee_per_gas (st_tx t);
  ad_access : validate_access_list (st_tx t) = Ok tt;
  ad_blob : validate_blob_tx (st_tx t) = Ok tt;
  ad_presence : tx_type (st_tx t) = AA_BUNDLE_TX_TYPE ↔ is_Some (aa_bundle t);
  ad_bundle : ∀ b, aa_bundle t = Some b → bundle_admissible t b;
  ad_nonce : tx_nonce (st_tx t) < u64_max;
  ad_gas :
    intrinsic_gas_exact (tx_data (st_tx t))
      (bool_decide (tx_to (st_tx t) = None ∧ aa_bundle t = None)) (access_list (st_tx t)) +
    (if aa_bundle t is Some b then bundle_gas b else 0) <= tx_gas_limit (st_tx t);
}.

(** Who pays what. *)
Definition solvent (env : TxEnv) (t : SignedTransaction) : Prop :=
  match b ← aa_bundle t; paymaster b with
  | Some pm =>
      (∃ b, get_balance env pm = Ok b ∧ gas_cost (st_tx t) <= b) ∧
      (∃ b, get_balance env (st_from t) = Ok b ∧ tx_value (st_tx t) <= b)
  | None => ∃ b, get_balance env (st_from t) = Ok b ∧ gas_cost (st_tx t) + tx_value (st_tx t) <= b
  end.

(** ** The checks, one by one *)

Lemma checked_value_sum_exact l acc :
  0 <= acc <= u256_max → (∀ c, c ∈ l → 0 <= ic_value c) →
  checked_value_sum acc l =
    if acc + sumZ ic_value l <=? u256_max then Some (acc + sumZ ic_value l) else None.
Proof.
  revert acc. induction l as [|c l IH]; intros acc Ha Hl; cbn [checked_value_sum].
  { rw sumZ_nil Z.add_0_r. by rw (proj2 (Z.leb_le _ _)); [lia|]. }
  assert (0 <= ic_value c) by (apply Hl; set_solver).
  assert (0 <= sumZ ic_value l) by (apply sumZ_nonneg; set_solver).
  rw sumZ_cons /checked_add_u256. destruct (Z.leb_spec (acc + ic_value c) u256_max).
  - rw IH; [lia|set_solver|]. by rw Z.add_assoc.
  - by rw (proj2 (Z.leb_gt _ _)); [lia|].
Qed.

Lemma structure_calls b :
  validate_structure b = Ok tt → 1 <= len (inner_calls b) <= Z.of_nat MAX_INNER_CALLS.
Proof.
  rw /validate_structure /len !guard_ok Nat.ltb_ge.
  destruct (inner_calls b); simpl; [naive_solver|]. lia.
Qed.

Lemma bundle_gas_exact b :
  validate_structure b = Ok tt → bundle_ranges b →
  inner_gas_sum b + intrinsic_gas_surcharge b = bundle_gas b ∧ 0 <= bundle_gas b <= u128_max.
Proof.
  intros Hs%structure_calls Hr. unfold MAX_INNER_CALLS in Hs.
  assert (0 <= sumZ ic_gas_limit (inner_calls b)).
  { apply sumZ_nonneg. intros c Hc. apply Hr in Hc. unfold in_u64 in Hc. lia. }
  assert (sumZ ic_gas_limit (inner_calls b) <= u64_max * len (inner_calls b)).
  { apply sumZ_le_len. intros c Hc. apply Hr in Hc. unfold in_u64 in Hc. lia. }
  rw /bundle_gas /inner_gas_sum /intrinsic_gas_surcharge.
  unfold AA_INNER_CALL_INTRINSIC_GAS, PQ_VERIFY_GAS, sat_sub, sat_mul, sat_add, u64_max, u128_max in *.
  destruct (session_auth b); simpl; lia.
Qed.

Lemma bundle_structure_ok t g :
  signed_ranges t →
  validate_aa_bundle_structure t = Ok g ↔
  (tx_type (st_tx t) = AA_BUNDLE_TX_TYPE ↔ is_Some (aa_bundle t)) ∧
  (∀ b, aa_bundle t = Some b → bundle_admissible t b) ∧
  g = (if aa_bundle t is Some b then bundle_gas b else 0) ∧
  (∀ b, aa_bundle t = Some b → bundle_gas b <= tx_gas_limit (st_tx t)).
Proof.
  intros [Hr Hb]. rw /validate_aa_bundle_structure. cbv zeta. rw guard_ok.
  assert (Hp : negb (eqb (tx_type (st_tx t) =? AA_BUNDLE_TX_TYPE) (bool_decide (is_Some (aa_bundle t)))) = false ↔
    (tx_type (st_tx t) = AA_BUNDLE_TX_TYPE ↔ is_Some (aa_bundle t))).
  { destruct (Z.eqb_spec (tx_type (st_tx t)) AA_BUNDLE_TX_TYPE); case_bool_decide; simpl; naive_solver. }
  rw Hp. apply and_iff_compat_l. clear Hp.
  destruct (aa_bundle t) as [b|]; [|naive_solver]. specialize (Hb b eq_refl).
  assert (Hv : checked_inner_value_sum b = if sumZ ic_value (inner_calls b) <=? u256_max
    then Some (sumZ ic_value (inner_calls b)) else None).
  { rw /checked_inner_value_sum checked_value_sum_exact //. intros c Hc. apply Hb in Hc. lia. }
  assert (Hg := rg_gas_limit _ Hr). assert (Hval := rg_value _ Hr).
  rw bind_ok. split.
  - intros ([] & Hs%map_err_ok & Hk). revert Hk. rw !guard_ok Hv.
    destruct (bundle_gas_exact b Hs Hb) as [-> ?]. rw bool_decide_eq_false Z.ltb_ge Z.min_l; [lia|].
    destruct (Z.leb_spec (sumZ ic_value (inner_calls b)) u256_max); [|naive_solver].
    rw guard_ok Z.ltb_ge. intros (? & ? & ? & [= <-]). rw Z.mod_small; [unfold in_u64 in *; lia|].
    split_and!; try done; intros ? [= <-]; [by constructor|done].
  - intros (Ha & -> & Hgas). destruct (Ha b eq_refl) as [Hs Hpm Hle]. specialize (Hgas b eq_refl).
    exists tt. rw map_err_ok. split; [done|]. destruct (bundle_gas_exact b Hs Hb) as [-> ?].
    rw !guard_ok bool_decide_eq_false Z.ltb_ge Z.min_l; [lia|]. split_and!; [done..|].
    rw Hv (proj2 (Z.leb_le _ _)); [lia|]. rw guard_ok Z.ltb_ge. split; [done|].
    rw Z.mod_small; [unfold in_u64 in *; lia|done].
Qed.

Lemma access_list_gas_bound tx :
  validate_access_list tx = Ok tt →
  0 <= sumZ item_gas (unwrap_or [] (access_list tx)) <= 2 ^ 30.
Proof.
  intros Hv. split; [apply sumZ_nonneg; intros; apply item_gas_nonneg|]. revert Hv.
  rw /validate_access_list. destruct (access_list tx) as [l|]; simpl; [|by rw sumZ_nil].
  rw !guard_ok Nat.ltb_ge. intros (Hl & Hk & _).
  assert (sumZ item_gas l <= 1000000 * Z.of_nat (length l)).
  { apply sumZ_le_len. intros i Hi. rw /item_gas /len.
    assert (length (storage_keys i) ≤ MAX_ACCESS_LIST_STORAGE_KEYS)%nat.
    { apply Nat.ltb_ge. apply not_true_iff_false. intros Hlt. apply not_true_iff_false in Hk.
      apply Hk, existsb_exists. exists i. by rw -list_elem_of_In. }
    unfold MAX_ACCESS_LIST_STORAGE_KEYS, ACCESS_LIST_ADDRESS_COST, ACCESS_LIST_STORAGE_KEY_COST in *.
    lia. }
  unfold MAX_ACCESS_LIST_ENTRIES in Hl. lia.
Qed.

Lemma intrinsic_gas_fits tx c :
  tx_ranges tx → validate_access_list tx = Ok tt →
  0 <= intrinsic_gas_exact (tx_data tx) c (access_list tx) <= 2 ^ 50.
Proof.
  intros Hr Ha%access_list_gas_bound. rw /intrinsic_gas_exact.
  assert (0 <= sumZ byte_gas (tx_data tx)) by (apply sumZ_nonneg; intros; apply byte_gas_range).
  assert (sumZ byte_gas (tx_data tx) <= 16 * len (tx_data tx))
    by (apply sumZ_le_len; intros; apply byte_gas_range).
  pose proof (rg_data _ Hr). unfold INTRINSIC_GAS_TX, GAS_CONTRACT_CREATION. destruct c; lia.
Qed.

Lemma intrinsic_gas_ok t extra :
  tx_ranges (st_tx t) → validate_access_list (st_tx t) = Ok tt →
  (tx_type (st_tx t) = AA_BUNDLE_TX_TYPE ↔ is_Some (aa_bundle t)) →
  0 <= extra →
  (∃ g, total_intrinsic_gas t extra = Ok g ∧ (tx_gas_limit (st_tx t) <? g) = false) ↔
  intrinsic_gas_exact (tx_data (st_tx t))
    (bool_decide (tx_to (st_tx t) = None ∧ aa_bundle t = None)) (access_list (st_tx t)) + extra
  <= tx_gas_limit (st_tx t).
Proof.
  intros Hr Ha Hp He. rw /total_intrinsic_gas. cbv zeta.
  assert (is_contract_creation (st_tx t) && negb (is_aa_bundle t) =
    bool_decide (tx_to (st_tx t) = None ∧ aa_bundle t = None)) as ->.
  { rw /is_contract_creation /is_aa_bundle. destruct (aa_bundle t) as [b|].
    - rw (proj2 (Z.eqb_eq _ _)) /=; [apply Hp; eauto|]. rw andb_false_r. symmetry.
      apply bool_decide_eq_false. naive_solver.
    - rw (bool_decide_eq_false_2 (is_Some None)) ?andb_false_r /= ?andb_true_r; [by intros []|].
      apply bool_decide_ext. naive_solver. }
  set (c := bool_decide _). pose proof (intrinsic_gas_fits _ c Hr Ha) as Hf.
  pose proof (rg_gas_limit _ Hr). rw compute_intrinsic_gas_capped Z.min_l /checked_add; [unfold u64_max; lia|].
  destruct (Z.leb_spec (intrinsic_gas_exact (tx_data (st_tx t)) c (access_list (st_tx t)) + extra) u64_max);
    cbn [ok_or]; unfold in_u64 in *; split.
  - intros (g & [= <-] & ?%Z.ltb_ge). lia.
  - intros. eexists. split; [done|]. by apply Z.ltb_ge.
  - by intros (? & [=] & _).
  - lia.
Qed.

Lemma transaction_type_ok ty :
  validate_transaction_type ty = Ok tt ↔ ty ∈ [0; 1; 2; 3; AA_BUNDLE_TX_TYPE].
Proof.
  rw /validate_transaction_type !elem_of_cons elem_of_nil.
  destruct (_ || _) eqn:E.
  - split; [intros _|done]. revert E. rw orb_true_iff andb_true_iff !Z.leb_le Z.eqb_eq. lia.
  - split; [done|]. revert E. rw orb_false_iff andb_false_iff !Z.leb_gt Z.eqb_neq. lia.
Qed.

Lemma nonce_can_advance_ok n :
  in_u64 n → ensure_nonce_can_advance n = Ok tt ↔ n < u64_max.
Proof.
  intros Hn. rw /ensure_nonce_can_advance /checked_add.
  destruct (Z.leb_spec (n + 1) u64_max); split; intros; try done; lia.
Qed.

Lemma validate_static_ok t chain_id :
  signed_ranges t → validate_static t chain_id = Ok tt ↔ admissible chain_id t.
Proof.
  intros Hr. assert (Hrt := proj1 Hr). assert (Hn := rg_nonce _ Hrt).
  rw /validate_static. cbv zeta.
  rw guard_ok negb_false_iff Z.eqb_eq !bind_unit_ok !map_err_ok transaction_type_ok.
  rw {1}/validate_fee_caps guard_ok Z.ltb_ge bind_ok. split.
  - intros (? & ? & [? _] & ? & ? & g & Hg%bundle_structure_ok & Hk); [|done].
    destruct Hg as (Hp & Hb & -> & Hle). revert Hk. rw bind_unit_ok nonce_can_advance_ok // bind_ok.
    intros [? (i & Hi & Hlt%guard_ok)]. constructor; try done. apply intrinsic_gas_ok; try done; [|naive_solver].
    destruct (aa_bundle t) as [b|] eqn:E; [|done].
    apply (bundle_gas_exact b); [apply (Hb b eq_refl)|by apply (proj2 Hr)].
  - intros [? ? ? Ha ? Hp Hb ? Hgas]. split_and!; try done.
    assert (He : 0 <= if aa_bundle t is Some b then bundle_gas b else 0).
    { destruct (aa_bundle t) as [b|] eqn:E; [|done].
      apply (bundle_gas_exact b); [apply (Hb b eq_refl)|by apply (proj2 Hr)]. }
    eexists. rw bundle_structure_ok // bind_unit_ok nonce_can_advance_ok // bind_ok. split_and!; try done.
    + intros b E. rw E in Hgas. pose proof (intrinsic_gas_fits _
        (bool_decide (tx_to (st_tx t) = None ∧ aa_bundle t = None)) Hrt Ha) as Hf. rw E in Hf. lia.
    + apply intrinsic_gas_ok in Hgas as (g & -> & Hlt); [|done..]. exists g. by rw Hlt.
Qed.

Lemma blob_count tx :
  validate_blob_tx tx = Ok tt → len (unwrap_or [] (blob_versioned_hashes tx)) <= 6.
Proof.
  rw /validate_blob_tx /len. destruct (negb _).
  - rw !guard_ok bool_decide_eq_false. intros (_ & Hb%bool_decide_eq_false & _).
    destruct (blob_versioned_hashes tx); [by destruct Hb; eauto|done].
  - destruct (blob_versioned_hashes tx) as [l|]; simpl; [|lia].
    rw !guard_ok Nat.ltb_ge /MAX_BLOB_HASHES_PER_TX. lia.
Qed.

(** The checked arithmetic on the cost never overflows. *)
Lemma gas_cost_exact tx :
  tx_ranges tx → validate_blob_tx tx = Ok tt →
  max_transaction_gas_cost tx = Some (gas_cost tx) ∧ 0 <= gas_cost tx.
Proof.
  intros Hr Hn%blob_count. rw /gas_cost /max_transaction_gas_cost.
  pose proof (rg_gas_limit _ Hr). pose proof (rg_max_fee _ Hr).
  assert (Hbg : blob_gas tx = len (unwrap_or [] (blob_versioned_hashes tx)) * BLOB_GAS_PER_BLOB).
  { rw /blob_gas. destruct (blob_versioned_hashes tx) as [l|]; [|done].
    rw /sat_mul Z.min_l //. simpl in Hn. unfold BLOB_GAS_PER_BLOB, u64_max. lia. }
  assert (Hfee : in_u64 (unwrap_or 0 (max_fee_per_blob_gas tx))).
  { pose proof (rg_blob_fee _ Hr) as Hf. destruct (max_fee_per_blob_gas tx); [by apply Hf|done]. }
  pose proof (len_nonneg (unwrap_or [] (blob_versioned_hashes tx))) as Hl. rw Hbg.
  set (n := len _) in *. set (fee := unwrap_or 0 (max_fee_per_blob_gas tx)) in *.
  assert (0 <= tx_gas_limit tx * max_fee_per_gas tx <= u64_max * u64_max) by (unfold in_u64 in *; nia).
  assert (0 <= n * BLOB_GAS_PER_BLOB * fee <= 786432 * u64_max)
    by (unfold in_u64, BLOB_GAS_PER_BLOB in *; nia).
  assert (u64_max * u64_max + 786432 * u64_max <= u256_max) by done.
  rw /checked_mul_u256 !(proj2 (Z.leb_le _ u256_max)); [lia..|].
  rw /= /checked_add_u256 (proj2 (Z.leb_le _ u256_max)); [lia|]. split; [done|lia].
Qed.

Lemma read_balance_ok env a (e : Z → TxValidationError) needed :
  (let? b := map_err Storage (get_balance env a) in if b <? needed then Err (e b) else Ok tt) = Ok tt ↔
  ∃ b, get_balance env a = Ok b ∧ needed <= b.
Proof.
  rw bind_ok. setoid_rewrite map_err_ok. setoid_rewrite guard_ok. setoid_rewrite Z.ltb_ge. naive_solver.
Qed.

Lemma check_balances_ok env t :
  signed_ranges t → env_ranges env → validate_blob_tx (st_tx t) = Ok tt →
  check_balances env t = Ok tt ↔ solvent env t.
Proof.
  intros [Hr _] He Hb. destruct (gas_cost_exact _ Hr Hb) as [Hc ?]. pose proof (rg_value _ Hr).
  assert (Hs : check_sender_pays env t = Ok tt ↔
    ∃ b, get_balance env (st_from t) = Ok b ∧ gas_cost (st_tx t) + tx_value (st_tx t) <= b).
  { rw /check_sender_pays Hc /= /checked_add_u256.
    destruct (Z.leb_spec (gas_cost (st_tx t) + tx_value (st_tx t)) u256_max); [apply read_balance_ok|].
    rw bind_ok. split; [naive_solver|]. intros (b & Hg & ?). apply He in Hg. lia. }
  rw /check_balances /solvent. destruct (aa_bundle t) as [b|]; simpl; [|done].
  destruct (paymaster b) as [pm|]; [|done]. rw /check_paymaster_pays Hc /= bind_ok.
  setoid_rewrite map_err_ok. setoid_rewrite guard_ok. setoid_rewrite Z.ltb_ge.
  setoid_rewrite read_balance_ok. naive_solver.
Qed.

(** ** Admission and import *)

(** The nonce check, when the validation outcome leaves it to the protocol. *)
Definition nonce_current (env : TxEnv) (t : SignedTransaction) (o : AaValidationOutcome) : Prop :=
  protocol_checks_nonce o = true → get_nonce env (st_from t) = Ok (tx_nonce (st_tx t)).

Lemma check_nonce_ok tx n : check_nonce tx n = Ok tt ↔ tx_nonce tx = n.
Proof. rw /check_nonce guard_ok negb_false_iff Z.eqb_eq. naive_solver. Qed.

Lemma read_nonce_ok env t o :
  (if protocol_checks_nonce o then
     let? n := map_err Storage (get_nonce env (st_from t)) in check_nonce (st_tx t) n
   else Ok tt) = Ok tt ↔ nonce_current env t o.
Proof.
  rw /nonce_current. destruct (protocol_checks_nonce o); [|done]. rw bind_ok.
  setoid_rewrite map_err_ok. setoid_rewrite check_nonce_ok. naive_solver.
Qed.

(** C33: Admission accepts exactly the right transactions. On values in the
    ranges of their types and calldata below 2^40 bytes, [validate_tx] succeeds
    exactly when the transaction is admissible (chain, type, fee caps, list
    sizes, blob rules, a bundle exactly on bundle types and within its value,
    a nonce that can advance, and a gas limit that covers intrinsic gas plus
    what the bundle reserves, all as integers), the account checks succeed, the
    nonce is current and whoever pays can pay in full: the sender gas and value,
    or the paymaster the gas and the sender the value. The sender's key is
    registered only on success, and a rejected transaction changes nothing. *)
Theorem admission_exact env keys t chain_id :
  signed_ranges t → env_ranges env →
  (∀ pk keys', validate_tx env keys t chain_id = (Ok pk, keys') ↔
    admissible chain_id t ∧ solvent env t ∧
    ∃ o, validate_aa_tx env t = Ok o ∧ nonce_current env t o ∧ pk = out_pubkey o ∧
      if should_register_pubkey o
      then store_put env (st_from t) pk = Ok tt ∧ keys' = <[st_from t := pk]> keys
      else keys' = keys) ∧
  (∀ e keys', validate_tx env keys t chain_id = (Err e, keys') → keys' = keys).
Proof.
  intros Hr He. rw /validate_tx. set (checked := result_bind _ _). cbv zeta.
  assert (Hck : ∀ o, checked = Ok o ↔ admissible chain_id t ∧ solvent env t ∧
    validate_aa_tx env t = Ok o ∧ nonce_current env t o).
  { intros o. subst checked. rw bind_unit_ok validate_static_ok // bind_ok.
    setoid_rewrite bind_unit_ok. setoid_rewrite bind_unit_ok. setoid_rewrite read_nonce_ok.
    split.
    - intros (? & o' & ? & ? & ? & [= <-]). split_and!; try done.
      apply check_balances_ok; try done. by eapply ad_blob.
    - intros (Ha & ? & ? & ?). split; [done|]. exists o. split_and!; try done.
      apply check_balances_ok; try done. apply Ha. }
  clearbody checked. rw /put_pubkey. destruct checked as [o|e].
  - destruct (proj1 (Hck o) eq_refl) as (? & ? & Ho & ?). rw Ho. destruct (should_register_pubkey o) eqn:Ereg.
    + destruct (store_put env (st_from t) (out_pubkey o)) as [[]|e] eqn:Est.
      * split; [|done]. intros pk keys'. split; [intros [= <- <-]|].
        { split_and!; try done. exists o. by rw Ereg. }
        intros (_ & _ & o' & [= <-] & _ & -> & Hk). rw Ereg in Hk. by destruct Hk as [_ ->].
      * split; [|by intros ? ? [= _ <-]]. intros pk keys'. split; [done|].
        intros (_ & _ & o' & [= <-] & _ & -> & Hk). rw Ereg in Hk. destruct Hk as [Hk _]. congruence.
    + split; [|done]. intros pk keys'. split; [intros [= <- <-]|].
      * split_and!; try done. exists o. by rw Ereg.
      * intros (_ & _ & o' & [= <-] & _ & -> & Hk). rw Ereg in Hk. by subst.
  - split; [|by intros ? ? [= _ <-]]. intros pk keys'. split; [done|].
    intros (Ha & Hs & o & Ho & Hn & _). by pose proof (proj2 (Hck o) (conj Ha (conj Hs (conj Ho Hn)))).
Qed.

(** Import checks everything admission checks but the balances, at the state
    the caller names. On values in the ranges of their types and calldata below
    2^40 bytes, an imported transaction is accepted exactly when it is
    admissible, the account checks of the head or of the given header succeed,
    and the nonce is the expected one: the caller's, or the account's. Hence
    every transaction [validate_tx] admits is accepted by
    [validate_tx_for_import] in the same state. *)
Theorem import_exact env t chain_id expected_nonce header :
  signed_ranges t →
  (validate_tx_for_import_inner env t chain_id expected_nonce header = Ok tt ↔
    admissible chain_id t ∧
    ∃ o, match header with
         | Some h => validate_aa_tx_at_block env t h
         | None => validate_aa_tx env t
         end = Ok o ∧
      match expected_nonce with
      | Some n => protocol_checks_nonce o = true → tx_nonce (st_tx t) = n
      | None => nonce_current env t o
      end) ∧
  (∀ keys keys' pk, env_ranges env → validate_tx env keys t chain_id = (Ok pk, keys') →
    validate_tx_for_import env t chain_id = Ok tt).
Proof.
  intros Hr. split.
  - rw /validate_tx_for_import_inner bind_unit_ok validate_static_ok // bind_ok.
    apply and_iff_compat_l. f_equiv. intros o. f_equiv.
    destruct expected_nonce as [n|]; [|apply read_nonce_ok].
    destruct (protocol_checks_nonce o); simpl; [rw check_nonce_ok; naive_solver|naive_solver].
  - intros keys keys' pk He. rw /validate_tx /validate_tx_for_import /validate_tx_for_import_inner.
    destruct (validate_static t chain_id) as [[]|]; [|done]. cbn [result_bind].
    destruct (validate_aa_tx env t) as [o|]; [|done]. cbn [result_bind].
    by destruct (protocol_checks_nonce o); [destruct (result_bind (map_err _ _) _) as [[]|]|].
Qed.

(** ** An instance *)

Definition transfer : SignedTransaction :=
  MkSignedTransaction (b256_of_Z 7)
    (MkTransaction 1 5 (Some (b256_of_Z 9)) 1000 [1; 0; 255] 30000 10 2
       (Some [MkAccessListItem (b256_of_Z 9) [b256_of_Z 1]]) 2 None None)
    (MkPQSignature MlDsa65 []) (Embedded [1; 2; 3]) None.

Definition transfer_env : TxEnv :=
  MkTxEnv (λ _, Ok 5) (λ _, Ok 301000) (λ _, Ok (MkAaValidationOutcome [1; 2; 3] true true))
    (λ _ _, Ok (MkAaValidationOutcome [1; 2; 3] true true)) (λ _ _, Ok tt).

Lemma transfer_ranges : signed_ranges transfer.
Proof. split; [|done]. by constructor. Qed.
Lemma transfer_env_ranges : env_ranges transfer_env.
Proof. by intros ? ? [= <-]. Qed.

Lemma admission_exact_witness :
  validate_tx transfer_env ∅ transfer 1 = (Ok [1; 2; 3], <[b256_of_Z 7 := [1; 2; 3]]> ∅) ∧
  admissible 1 transfer ∧ solvent transfer_env transfer.
Proof.
  assert (H : validate_tx transfer_env ∅ transfer 1 = (Ok [1; 2; 3], <[b256_of_Z 7 := [1; 2; 3]]> ∅))
    by reflexivity.
  split; [done|].
  destruct (admission_exact transfer_env ∅ transfer 1 transfer_ranges transfer_env_ranges) as [Hx _].
  apply Hx in H as (Ha & Hs & _). done.
Defined.

Lemma import_exact_witness :
  validate_tx_for_import transfer_env transfer 1 = Ok tt ∧
  validate_tx_for_import_with_expected_nonce transfer_env transfer 1 6 ≠ Ok tt.
Proof.
  split.
  - destruct (import_exact transfer_env transfer 1 None None transfer_ranges) as [_ Hi].
    apply (Hi ∅ (<[b256_of_Z 7 := [1; 2; 3]]> ∅) [1; 2; 3]); [apply transfer_env_ranges|reflexivity].
  - intros H. destruct (import_exact transfer_env transfer 1 (Some 6) None transfer_ranges) as [Hi _].
    apply Hi in H as (_ & o & [= <-] & Hn). by specialize (Hn eq_refl).
Defined.
