(* ===== verification/BTree.v ===== *)
(** * Ordered maps

    Rust's [BTreeMap] as a finite map whose iteration is sorted by key: [iter],
    [first_key_value], [range(k..)] and [range(..k)], over any key type with a
    total order. *)

From S2P Require Import Prelude.
From stdpp Require Import sorting.

Section BTree.
Context {K A : Type} `{Countable K} (le : K → K → Prop).
Context `{∀ x y, Decision (le x y)} `{!TotalOrder le}.
Implicit Types (m : gmap K A) (k : K).

Definition entry_le (p q : K * A) : Prop := le p.1 q.1.
#[global] Instance entry_le_dec p q : Decision (entry_le p q) := decide (le p.1 q.1).

(** [iter()]: ascending by key. *)
Definition bt_iter m : list (K * A) := merge_sort entry_le (map_to_list m).
(** [first_key_value()] *)
Definition bt_first m : option (K * A) := head (bt_iter m).
(** [range(k..)] *)
Definition bt_from k m : list (K * A) := filter (λ p, le k p.1) (bt_iter m).
(** [range(..k)] *)
Definition bt_below k m : list (K * A) := filter (λ p, ¬ le k p.1) (bt_iter m).

Lemma bt_iter_perm m : bt_iter m ≡ₚ map_to_list m.
Proof. apply merge_sort_Permutation. Qed.

Lemma elem_of_bt_iter m k a : (k, a) ∈ bt_iter m ↔ m !! k = Some a.
Proof. by rw bt_iter_perm elem_of_map_to_list. Qed.

Lemma bt_iter_keys_NoDup m : NoDup (bt_iter m).*1.
Proof. rw bt_iter_perm. apply NoDup_fst_map_to_list. Qed.

Lemma bt_iter_NoDup m : NoDup (bt_iter m).
Proof. eapply NoDup_fmap_1, bt_iter_keys_NoDup. Qed.

Lemma bt_iter_length m : length (bt_iter m) = size m.
Proof. by rw bt_iter_perm length_map_to_list. Qed.

#[local] Instance entry_le_trans : Transitive entry_le.
Proof. intros x y z ? ?. rw /entry_le. by trans y.1. Qed.
#[local] Instance entry_le_total : Total entry_le.
Proof. intros x y. apply (total le). Qed.

Lemma bt_iter_sorted m : StronglySorted entry_le (bt_iter m).
Proof. apply StronglySorted_merge_sort; apply _. Qed.

Lemma bt_filter_keys_NoDup (P : K * A → Prop) `{∀ x, Decision (P x)} m : NoDup (filter P (bt_iter m)).*1.
Proof.
  apply (sublist_NoDup _ (bt_iter m).*1); [apply bt_iter_keys_NoDup|]. apply fmap_sublist, sublist_filter.
Qed.

(** Collecting the iteration, or part of it, into a map again. *)
Lemma list_to_map_bt_filter (P : K * A → Prop) `{∀ x, Decision (P x)} m :
  list_to_map (filter P (bt_iter m)) = filter P m.
Proof.
  apply map_eq. intros k. apply option_eq. intros v.
  rw -elem_of_list_to_map; [apply bt_filter_keys_NoDup|]. rw map_lookup_filter_Some list_elem_of_filter elem_of_bt_iter. tauto.
Qed.
Lemma list_to_map_bt_iter m : list_to_map (bt_iter m) = m.
Proof.
  apply map_eq. intros k. apply option_eq. intros v.
  by rw -elem_of_list_to_map; [apply bt_iter_keys_NoDup|rw elem_of_bt_iter].
Qed.

(** Filtering keeps the order. *)
Lemma filter_sorted (P : K * A → Prop) `{∀ x, Decision (P x)} l :
  StronglySorted entry_le l → StronglySorted entry_le (filter P l).
Proof.
  induction 1 as [|p l Hs IH Hall]; [constructor|]. rw filter_cons. case_decide; [|done].
  constructor; [done|]. rw Forall_forall. intros q [_ Hq]%list_elem_of_filter. by rw Forall_forall in Hall; apply Hall.
Qed.
Lemma bt_iter_filter (P : K * A → Prop) `{∀ x, Decision (P x)} m :
  bt_iter (filter P m) = filter P (bt_iter m).
Proof.
  apply (StronglySorted_unique_strong entry_le); [|apply bt_iter_sorted|apply filter_sorted, bt_iter_sorted|].
  - intros [k1 a1] [k2 a2] [Hk1 _]%elem_of_bt_iter%map_lookup_filter_Some [_ Hk2%elem_of_bt_iter]%list_elem_of_filter Hle Hge.
    assert (k1 = k2) as -> by (by apply (anti_symm le)). congruence.
  - apply NoDup_Permutation; [apply bt_iter_NoDup|apply NoDup_filter, bt_iter_NoDup|].
    intros [k a]. rw elem_of_bt_iter map_lookup_filter_Some list_elem_of_filter elem_of_bt_iter. tauto.
Qed.

Lemma bt_first_None m : bt_first m = None ↔ m = ∅.
Proof.
  rw /bt_first. split.
  - intros Hn. apply map_empty. intros k. destruct (m !! k) as [a|] eqn:E; [|done].
    apply elem_of_bt_iter in E. destruct (bt_iter m); [by apply not_elem_of_nil in E|done].
  - intros ->. destruct (bt_iter ∅) as [|[k a] l] eqn:E; [done|].
    assert (Hk : (k, a) ∈ bt_iter ∅) by (rw E; left). by apply elem_of_bt_iter in Hk.
Qed.

Lemma bt_first_Some m k a :
  bt_first m = Some (k, a) ↔ m !! k = Some a ∧ ∀ k', is_Some (m !! k') → le k k'.
Proof.
  rw /bt_first. pose proof (bt_iter_sorted m) as Hs. pose proof (elem_of_bt_iter m) as He.
  destruct (bt_iter m) as [|[k0 a0] l]; simpl.
  - split; [done|]. intros [Hk%He _]. by apply not_elem_of_nil in Hk.
  - apply StronglySorted_inv in Hs as [_ Hall]. rw Forall_forall in Hall.
    assert (Hk0 : m !! k0 = Some a0) by (apply He; left).
    assert (Hmin : ∀ k', is_Some (m !! k') → le k0 k').
    { intros k' [a' [Hin|Hin]%He%elem_of_cons]; [by simplify_eq|]. by apply (Hall (k', a')). }
    split; [by intros [= <- <-]|]. intros [Hk Hle].
    assert (k0 = k) as -> by (apply (anti_symm le); [apply Hmin; eauto|apply Hle; eauto]).
    congruence.
Qed.

Lemma elem_of_bt_from m k0 k a : (k, a) ∈ bt_from k0 m ↔ le k0 k ∧ m !! k = Some a.
Proof. by rw list_elem_of_filter elem_of_bt_iter. Qed.
Lemma elem_of_bt_below m k0 k a : (k, a) ∈ bt_below k0 m ↔ ¬ le k0 k ∧ m !! k = Some a.
Proof. by rw list_elem_of_filter elem_of_bt_iter. Qed.

(** The first entry at or above [k] is the one at [k] if there is one. *)
Lemma bt_from_head m k a :
  m !! k = Some a → head (bt_from k m) = Some (k, a).
Proof.
  intros Hk. rw /bt_from. pose proof (bt_iter_sorted m) as Hs.
  apply elem_of_bt_iter in Hk. pose proof (bt_iter_keys_NoDup m) as Hnd.
  induction (bt_iter m) as [|[k0 a0] l IH]; [by apply not_elem_of_nil in Hk|].
  apply StronglySorted_inv in Hs as [Hs Hall]. rw Forall_forall in Hall.
  rw fmap_cons in Hnd. apply NoDup_cons in Hnd as [Hnin Hnd]. rw filter_cons /=.
  apply elem_of_cons in Hk as [[= <- <-]|Hk].
  - by rw decide_True.
  - rw decide_False; [|by apply IH]. intros Hle. apply Hnin.
    assert (k0 = k) as -> by (apply (anti_symm le); [by apply (Hall (k, a))|done]).
    by apply (list_elem_of_fmap_2 fst _ (k, a)).
Qed.
End BTree.

#[global] Instance Z_le_total_order : TotalOrder Z.le.
Proof. split; [apply _|]. intros x y. rw /strict. lia. Qed.
