(* ===== verification/Mempool.v ===== *)
(** * The transaction pool

    crates/mempool (config.rs, error.rs, pool.rs): the pool's four indexes, its
    admission checks, replacement by fee, eviction under capacity pressure,
    balance reservations, pruning, and the selection of transactions for a
    block.  Every public method takes the pool's lock once (the two pruning
    methods twice), so the state changes of concurrent calls are sequences of
    the operations below.  What admission reads from the chain, the outcome of
    [validate_aa_tx] and the size [serde_json] writes are arguments. *)

From S2P Require Import Prelude Primitives Block Fee Rlp Transaction TxHash TxValidation BTree.

Definition MAX_TX_SIZE : Z := 128 * 1024.
Definition DEFAULT_MAX_POOL_BYTES : Z := 256 * 1024 * 1024.

Record MempoolConfig := MkMempoolConfig {
  max_pool_size : Z;
  max_pool_bytes : Z;
  max_per_sender : Z;
  pool_chain_id : Z;
  min_gas_price : Z;
  replacement_fee_bump_pct : Z;
}.

Definition default_config : MempoolConfig := MkMempoolConfig 4096 DEFAULT_MAX_POOL_BYTES 64 1 0 10.

(** The texts of [InvalidTransaction], with the values they print. *)
Inductive Invalid :=
| BadType (e : TxValidationError)
| HeadHeaderMissing
| AboveBlockGasLimit (gas limit : Z)
| BelowBaseFee (fee base_fee : Z)
| BelowBlobBaseFee (fee base_fee : Z)
| PriorityAboveMax
| BadAccessList (msg : string)
| BadBlob (msg : string)
| BadBundle (e : TxValidationError)
| SerializationFailed
| TooLarge (size : Z)
| NonceExhausted
| SequenceExhausted.

(** [AccountCheck] stands for what [map_aa_validation_error] returns. *)
Inductive MempoolError :=
| PoolFull (capacity : Z)
| PoolBytesFull (capacity : Z)
| SenderQueueFull (sender : Address) (count : Z)
| Duplicate (hash : ShellHash)
| PoolChainIdMismatch (expected got : Z)
| GasPriceTooLow (got min : Z)
| PoolGasTooLow (got minimum : Z)
| NonceTooLow (got pending : Z)
| NonceGap (expected got : Z)
| PoolInsufficientBalance (needed have : Z)
| ReplacementFeeTooLow (got required : Z)
| InvalidTransaction (why : Invalid)
| PoolStorage (e : StorageError)
| AccountCheck (kind : string).

(** ** State *)

Record ReservationTotal := MkReservationTotal {
  low : Z;
  overflow_units : Z;
}.

(** Higher fee first, then earlier arrival. *)
Record PriorityKey := MkPriorityKey {
  neg_priority_fee : Z;
  key_seq : Z;
}.
#[global] Instance PriorityKey_eq_dec : EqDecision PriorityKey.
Proof. solve_decision. Defined.
#[global] Instance PriorityKey_countable : Countable PriorityKey :=
  inj_countable' (λ k, (neg_priority_fee k, key_seq k)) (λ p, MkPriorityKey p.1 p.2)
    ltac:(by intros []).

Definition key_le (a b : PriorityKey) : Prop :=
  neg_priority_fee a < neg_priority_fee b ∨
  neg_priority_fee a = neg_priority_fee b ∧ key_seq a <= key_seq b.
#[global] Instance key_le_dec a b : Decision (key_le a b).
Proof. rw /key_le. apply _. Defined.
#[global] Instance key_le_total_order : TotalOrder key_le.
Proof.
  split; [split; [split|]|].
  - intros []. right. simpl. lia.
  - intros [] [] []. rw /key_le /=. lia.
  - intros [] []. rw /key_le /=. intros. f_equal; lia.
  - intros [a b] [c d]. rw /strict /key_le /=. destruct (decide (a = c ∧ b = d)) as [[-> ->]|Hne].
    + right. by left.
    + destruct (decide (a < c ∨ a = c ∧ b < d)); [left|right; right]; lia.
Qed.

Record PoolEntry := MkPoolEntry {
  entry_tx : SignedTransaction;
  priority_key : PriorityKey;
  serialized_size : Z;
  validated_root_hash : option ShellHash;
}.

Record PoolInner := MkPoolInner {
  by_hash : gmap ShellHash PoolEntry;
  by_sender : gmap Address (gmap Z ShellHash);
  by_priority : gmap PriorityKey ShellHash;
  pool_seq : Z;
  total_bytes : Z;
  accepted_total : Z;
  reserved_by_account : gmap Address ReservationTotal;
}.

Definition pool_new : PoolInner := MkPoolInner ∅ ∅ ∅ 0 0 0 ∅.

(** ** Reservations *)

Definition reservation_default : ReservationTotal := MkReservationTotal 0 0.

Definition reservation_add (t : ReservationTotal) (cost : Z) : ReservationTotal :=
  let sum := low t + cost in
  MkReservationTotal (sum mod (u256_max + 1))
    (sat_add (overflow_units t) (if u256_max <? sum then 1 else 0)).

Definition reservation_subtract (t : ReservationTotal) (cost : Z) : ReservationTotal :=
  let borrowed := low t <? cost in
  if borrowed && (overflow_units t =? 0) then reservation_default
  else MkReservationTotal ((low t - cost) mod (u256_max + 1))
    (sat_sub (overflow_units t) (if borrowed then 1 else 0)).

Definition saturating_u256 (t : ReservationTotal) : Z :=
  if overflow_units t =? 0 then low t else u256_max.

Definition reservation_is_zero (t : ReservationTotal) : bool :=
  (overflow_units t =? 0) && (low t =? 0).

Definition add_or_max (a b : Z) : Z := unwrap_or u256_max (checked_add_u256 a b).

Definition max_gas_cost (t : SignedTransaction) : Z :=
  let tx := st_tx t in
  let execution_gas_cost :=
    unwrap_or u256_max (checked_mul_u256 (tx_gas_limit tx) (max_fee_per_gas tx)) in
  let blob_gas_cost :=
    unwrap_or u256_max (checked_mul_u256 (blob_gas tx) (unwrap_or 0 (max_fee_per_blob_gas tx))) in
  add_or_max execution_gas_cost blob_gas_cost.

Definition gas_payer (t : SignedTransaction) : Address :=
  match b ← aa_bundle t; paymaster b with
  | Some pm => if bool_decide (pm ≠ sender t) then pm else sender t
  | None => sender t
  end.

Definition reservation_costs (t : SignedTransaction) : list (Address * Z) :=
  if bool_decide (gas_payer t = sender t)
  then [(sender t, add_or_max (max_gas_cost t) (tx_value (st_tx t))); (sender t, 0)]
  else [(sender t, tx_value (st_tx t)); (gas_payer t, max_gas_cost t)].

Definition reservation_cost_for (t : SignedTransaction) (account : Address) : Z :=
  foldl add_or_max 0 (snd <$> filter (λ p, p.1 = account) (reservation_costs t)).

Definition add_reservation (m : gmap Address ReservationTotal) (p : Address * Z) :
    gmap Address ReservationTotal :=
  if p.2 =? 0 then m
  else <[p.1 := reservation_add (unwrap_or reservation_default (m !! p.1)) p.2]> m.
Definition add_reservations (m : gmap Address ReservationTotal) (t : SignedTransaction) :=
  foldl add_reservation m (reservation_costs t).

Definition remove_reservation (m : gmap Address ReservationTotal) (p : Address * Z) :
    gmap Address ReservationTotal :=
  if p.2 =? 0 then m
  else
    match m !! p.1 with
    | Some total =>
        let total := reservation_subtract total p.2 in
        if reservation_is_zero total then delete p.1 m else <[p.1 := total]> m
    | None => m
    end.
Definition remove_reservations (m : gmap Address ReservationTotal) (t : SignedTransaction) :=
  foldl remove_reservation m (reservation_costs t).

Definition reserved_total_excluding (inner : PoolInner) (account : Address)
    (excluded : gset ShellHash) : ReservationTotal :=
  foldl (λ total entry, reservation_subtract total (reservation_cost_for (entry_tx entry) account))
    (unwrap_or reservation_default (reserved_by_account inner !! account))
    (omap (λ hash, by_hash inner !! hash) (elements excluded)).

(** ** Removal *)

Definition remove_entry (inner : PoolInner) (hash : ShellHash) : PoolInner * bool :=
  match by_hash inner !! hash with
  | Some entry =>
      let s := sender (entry_tx entry) in
      let nonce := tx_nonce (st_tx (entry_tx entry)) in
      let by_sender' :=
        match by_sender inner !! s with
        | Some q => let q := delete nonce q in
                    if bool_decide (q = ∅) then delete s (by_sender inner)
                    else <[s := q]> (by_sender inner)
        | None => by_sender inner
        end in
      (MkPoolInner (delete hash (by_hash inner)) by_sender'
         (delete (priority_key entry) (by_priority inner)) (pool_seq inner)
         (sat_sub (total_bytes inner) (serialized_size entry)) (accepted_total inner)
         (remove_reservations (reserved_by_account inner) (entry_tx entry)), true)
  | None => (inner, false)
  end.

Definition remove_all (inner : PoolInner) (hashes : list ShellHash) : PoolInner :=
  foldl (λ i h, (remove_entry i h).1) inner hashes.

Definition entry_and_descendant_hashes (inner : PoolInner) (hash : ShellHash) : list ShellHash :=
  match by_hash inner !! hash with
  | None => []
  | Some entry =>
      match by_sender inner !! sender (entry_tx entry) with
      | Some queue => (bt_from Z.le (tx_nonce (st_tx (entry_tx entry))) queue).*2
      | None => [hash]
      end
  end.

(** [filter(remove_entry).count()]: removes each, counts those that were there. *)
Definition remove_count (p : PoolInner * Z) (hash : ShellHash) : PoolInner * Z :=
  let '(inner, removed) := remove_entry p.1 hash in (inner, if removed then p.2 + 1 else p.2).
Definition remove_entry_and_descendants (inner : PoolInner) (hash : ShellHash) : PoolInner * Z :=
  foldl remove_count (inner, 0) (entry_and_descendant_hashes inner hash).

Definition reset_seq (inner : PoolInner) : PoolInner :=
  if bool_decide (by_hash inner = ∅)
  then MkPoolInner (by_hash inner) (by_sender inner) (by_priority inner) 0 (total_bytes inner)
         (accepted_total inner) (reserved_by_account inner)
  else inner.

Definition pool_remove (inner : PoolInner) (hash : ShellHash) : PoolInner * bool :=
  let '(inner, removed) := remove_entry inner hash in (reset_seq inner, removed).
Definition remove_with_descendants (inner : PoolInner) (hash : ShellHash) : PoolInner * Z :=
  let '(inner, removed) := remove_entry_and_descendants inner hash in (reset_seq inner, removed).
Definition remove_batch (inner : PoolInner) (hashes : list ShellHash) : PoolInner :=
  reset_seq (remove_all inner hashes).

(** The part of [prune_nonce_too_low] under the write lock; the senders and
    their nonces were read before it was taken. *)
Definition prune_below (inner : PoolInner) (canonical_nonces : gmap Address Z) : PoolInner * Z :=
  let stale_hashes :=
    map_to_list canonical_nonces ≫= λ '(s, canonical_nonce),
      match by_sender inner !! s with
      | Some queue => (bt_below Z.le canonical_nonce queue).*2
      | None => []
      end in
  (reset_seq (remove_all inner stale_hashes), len stale_hashes).

(** The parts of an account the pool reads. *)
Record AccountView := MkAccountView {
  pq_pubkey_hash : ShellHash;
  validation_code_hash : option ShellHash;
}.

Definition canonical_nonces (get_nonce : Address → result Z StorageError) (senders : gset Address) :
    gmap Address Z :=
  omap (λ r, match r with Ok n => Some n | Err _ => None end)
    (set_to_map (C := gset Address) (λ s, (s, get_nonce s)) senders).

Definition prune_nonce_too_low (inner : PoolInner) (get_nonce : Address → result Z StorageError) :
    PoolInner * Z :=
  prune_below inner (canonical_nonces get_nonce (dom (by_sender inner))).

Definition canonical_roots (get_account : Address → result (option AccountView) StorageError)
    (senders : gset Address) : gmap Address ShellHash :=
  omap (λ r, match r with
             | Ok (Some account) =>
                 if bool_decide (validation_code_hash account = None) &&
                    bool_decide (pq_pubkey_hash account ≠ ZERO)
                 then Some (pq_pubkey_hash account) else None
             | _ => None
             end)
    (set_to_map (C := gset Address) (λ s, (s, get_account s)) senders).

Definition root_stale (roots : gmap Address ShellHash) (entry : PoolEntry) : bool :=
  match validated_root_hash entry, roots !! st_from (entry_tx entry) with
  | Some validated, Some canonical => bool_decide (canonical ≠ validated)
  | _, _ => false
  end.

(** The part of [prune_rotated_roots] under the write lock. *)
Definition remove_stale (p : PoolInner * Z) (hash : ShellHash) : PoolInner * Z :=
  let '(inner, removed) := remove_entry_and_descendants p.1 hash in (inner, p.2 + removed).
Definition prune_roots (inner : PoolInner) (roots : gmap Address ShellHash) : PoolInner * Z :=
  let stale := (map_to_list (filter (λ p, root_stale roots p.2 = true) (by_hash inner))).*1 in
  let '(inner, removed) := foldl remove_stale (inner, 0) stale in
  (reset_seq inner, removed).

Definition prune_rotated_roots (inner : PoolInner)
    (get_account : Address → result (option AccountView) StorageError) : PoolInner * Z :=
  prune_roots inner (canonical_roots get_account (dom (by_sender inner))).

Definition pool_clear (inner : PoolInner) : PoolInner :=
  MkPoolInner ∅ ∅ ∅ 0 0 (accepted_total inner) ∅.

(** ** Admission *)

Definition checked_u128 (x : Z) : option Z := if x <=? u128_max then Some x else None.

Definition replacement_fee_required (old_fee bump_pct : Z) : option Z :=
  if bump_pct =? 0 then Some old_fee
  else
    multiplier ← checked_u128 (bump_pct + 100);
    numerator ← checked_u128 (old_fee * multiplier);
    sum ← checked_u128 (numerator + 99);
    minimum_bump ← checked_u128 (old_fee + 1);
    u64_try_from (Z.max (sum / 100) minimum_bump).

Fixpoint next_nonce_loop (keys : list Z) (expected : Z) : Z :=
  match keys with
  | [] => expected
  | k :: keys =>
      if k <? expected then next_nonce_loop keys expected
      else if k =? expected then next_nonce_loop keys (sat_add expected 1)
      else expected
  end.
Definition next_expected_nonce (q : option (gmap Z ShellHash)) (chain_nonce : Z) : Z :=
  match q with
  | Some q => next_nonce_loop (bt_iter Z.le q).*1 chain_nonce
  | None => chain_nonce
  end.

Definition pending_nonce (inner : PoolInner) (s : Address) (chain_nonce : Z) : Z :=
  next_expected_nonce (by_sender inner !! s) chain_nonce.

(** What admission reads besides the pool. *)
Record PoolEnv := MkPoolEnv {
  pe_nonce : Address → result Z StorageError;
  pe_balance : Address → result Z StorageError;
  pe_account : Address → result (option AccountView) StorageError;
  pe_head_hash : result (option ShellHash) StorageError;
  pe_header : ShellHash → result (option BlockHeader) StorageError;
  pe_validate_aa_tx : SignedTransaction → result AaValidationOutcome MempoolError;
  pe_serialized_size : SignedTransaction → option Z;
}.

Section admission.
Context {R : Rlp} {H : Hashes} {U : U256Ops}.
Implicit Types (cfg : MempoolConfig) (env : PoolEnv) (t : SignedTransaction) (inner : PoolInner).

(** The checks against the head; the result is its base fee.  The blob price
    is defined on every excess a header can hold ([Fee.fake_exponential]
    returns on all [u64] values). *)
Definition validate_at_head env t : result Z MempoolError :=
  let tx := st_tx t in
  let? head_hash := map_err PoolStorage (pe_head_hash env) in
  match head_hash with
  | None => Ok 0
  | Some head_hash =>
      let? head := map_err PoolStorage (pe_header env head_hash) in
      let? head := ok_or head (InvalidTransaction HeadHeaderMissing) in
      if gas_limit head <? tx_gas_limit tx
      then Err (InvalidTransaction (AboveBlockGasLimit (tx_gas_limit tx) (gas_limit head)))
      else if max_fee_per_gas tx <? base_fee_per_gas head
      then Err (InvalidTransaction (BelowBaseFee (max_fee_per_gas tx) (base_fee_per_gas head)))
      else if tx_type tx =? 3 then
        let next_excess := calc_excess_blob_gas (excess_blob_gas head) (blob_gas_used head) in
        let blob_base_fee := unwrap_or 0 (calc_blob_gas_price next_excess) in
        match max_fee_per_blob_gas tx with
        | Some fee =>
            if fee <? blob_base_fee then Err (InvalidTransaction (BelowBlobBaseFee fee blob_base_fee))
            else Ok (base_fee_per_gas head)
        | None => Ok (base_fee_per_gas head)
        end
      else Ok (base_fee_per_gas head)
  end.

Definition validate_stateless cfg env t : result (Z * Z * option ShellHash) MempoolError :=
  let tx := st_tx t in
  if negb (tx_chain_id tx =? pool_chain_id cfg)
  then Err (PoolChainIdMismatch (pool_chain_id cfg) (tx_chain_id tx))
  else
    let? _ := map_err (λ e, InvalidTransaction (BadType e)) (validate_transaction_type (tx_type tx)) in
    let? base_fee := validate_at_head env t in
    if max_fee_per_gas tx <? max_priority_fee_per_gas tx then Err (InvalidTransaction PriorityAboveMax)
    else if max_fee_per_gas tx <? min_gas_price cfg
    then Err (GasPriceTooLow (max_fee_per_gas tx) (min_gas_price cfg))
    else
      let? _ := map_err (λ e, InvalidTransaction (BadAccessList e)) (validate_access_list tx) in
      let? _ := map_err (λ e, InvalidTransaction (BadBlob e)) (validate_blob_tx tx) in
      let? aa_extra_gas :=
        map_err (λ e, InvalidTransaction (BadBundle e)) (validate_aa_bundle_structure t) in
      let? intrinsic :=
        ok_or (checked_add (compute_intrinsic_gas (tx_data tx)
                 (is_contract_creation tx && negb (is_aa_bundle t)) (access_list tx)) aa_extra_gas)
          (PoolGasTooLow (tx_gas_limit tx) u64_max) in
      if tx_gas_limit tx <? intrinsic then Err (PoolGasTooLow (tx_gas_limit tx) intrinsic)
      else
        let? tx_size := ok_or (pe_serialized_size env t) (InvalidTransaction SerializationFailed) in
        if MAX_TX_SIZE <? tx_size then Err (InvalidTransaction (TooLarge tx_size))
        else
          let? validation := pe_validate_aa_tx env t in
          let? account := map_err PoolStorage (pe_account env (st_from t)) in
          let uses_default_validator :=
            match account with Some a => bool_decide (validation_code_hash a = None) | None => true end in
          let account_key_hash :=
            match account with
            | Some a => if bool_decide (pq_pubkey_hash a ≠ ZERO) then Some (pq_pubkey_hash a) else None
            | None => None
            end in
          Ok (tx_size, base_fee,
              if uses_default_validator
              then Some (unwrap_or (blake3_hash (out_pubkey validation)) account_key_hash) else None).

(** The balance floor of one transaction. *)
Definition balance_floor env t : result unit MempoolError :=
  let gas_cost := max_gas_cost t in
  let payer := gas_payer t in
  let? payer_gas_balance := map_err PoolStorage (pe_balance env payer) in
  if payer_gas_balance <? gas_cost then Err (PoolInsufficientBalance gas_cost payer_gas_balance)
  else
    let? sender_balance := map_err PoolStorage (pe_balance env (sender t)) in
    if bool_decide (payer ≠ sender t) then
      if sender_balance <? tx_value (st_tx t)
      then Err (PoolInsufficientBalance (tx_value (st_tx t)) sender_balance) else Ok tt
    else
      match checked_add_u256 gas_cost (tx_value (st_tx t)) with
      | None => Err (PoolInsufficientBalance u256_max sender_balance)
      | Some needed =>
          if sender_balance <? needed then Err (PoolInsufficientBalance needed sender_balance) else Ok tt
      end.

(** The fees of a replacement against those of the entry it replaces. *)
Fixpoint check_bumps (bump : Z) (pairs : list (Z * Z)) : result unit MempoolError :=
  match pairs with
  | [] => Ok tt
  | (old_fee, new_fee) :: pairs =>
      match replacement_fee_required old_fee bump with
      | None => Err (ReplacementFeeTooLow new_fee u64_max)
      | Some required =>
          if new_fee <? required then Err (ReplacementFeeTooLow new_fee required)
          else check_bumps bump pairs
      end
  end.

Definition fee_pairs (old : option PoolEntry) (tx : Transaction) : list (Z * Z) :=
  let '(old_priority_fee, old_max_fee, old_blob_fee) :=
    match old with
    | Some e => let o := st_tx (entry_tx e) in
                (max_priority_fee_per_gas o, max_fee_per_gas o, max_fee_per_blob_gas o)
    | None => (0, 0, None)
    end in
  [(old_priority_fee, max_priority_fee_per_gas tx); (old_max_fee, max_fee_per_gas tx)] ++
  match old_blob_fee with
  | Some old_fee => [(old_fee, unwrap_or 0 (max_fee_per_blob_gas tx))]
  | None => []
  end.

(** The nonce must replace a queued one or be the next. *)
Definition check_slot cfg inner t (existing : option ShellHash) (chain_nonce : Z) :
    result unit MempoolError :=
  let nonce := tx_nonce (st_tx t) in
  let expected := next_expected_nonce (by_sender inner !! sender t) chain_nonce in
  if nonce <? chain_nonce then Err (NonceTooLow nonce chain_nonce)
  else
    match existing with
    | Some h => check_bumps (replacement_fee_bump_pct cfg) (fee_pairs (by_hash inner !! h) (st_tx t))
    | None =>
        if expected <? nonce then Err (NonceGap expected nonce)
        else if nonce <? expected then Err (NonceTooLow nonce expected)
        else Ok tt
    end.
End admission.

(** ** Capacity *)

(** An eviction candidate: tip, arrival, hash. *)
Definition candidate_t : Type := Z * Z * ShellHash.

Definition candidate_of (inner : PoolInner) (evicted : gset ShellHash) (base_fee : Z)
    (incoming_sender : Address) (incoming_nonce : Z) (p : PriorityKey * ShellHash) :
    option candidate_t :=
  if bool_decide (p.2 ∈ evicted) then None
  else
    entry ← by_hash inner !! p.2;
    if bool_decide (sender (entry_tx entry) = incoming_sender) &&
       (tx_nonce (st_tx (entry_tx entry)) <=? incoming_nonce)
    then None
    else
      let tx := st_tx (entry_tx entry) in
      Some (miner_tip (max_fee_per_gas tx) (max_priority_fee_per_gas tx) base_fee, key_seq p.1, p.2).

(** [a] does not come after [b]: lower tip, then later arrival. *)
Definition candidate_le (a b : candidate_t) : bool :=
  (a.1.1 <? b.1.1) || ((a.1.1 =? b.1.1) && (b.1.2 <=? a.1.2)).

(** [Iterator::min_by]: the first of the least elements. *)
Definition min_candidate (l : list candidate_t) : option candidate_t :=
  match l with
  | [] => None
  | x :: l => Some (foldl (λ m y, if candidate_le m y then m else y) x l)
  end.

Definition pick_candidate (inner : PoolInner) (evicted : gset ShellHash) (incoming_tip base_fee : Z)
    (incoming_sender : Address) (incoming_nonce : Z) : option ShellHash :=
  match min_candidate (omap (candidate_of inner evicted base_fee incoming_sender incoming_nonce)
          (bt_iter key_le (by_priority inner))) with
  | Some (tip, _, hash) => if tip <? incoming_tip then Some hash else None
  | None => None
  end.

Definition add_evicted (inner : PoolInner) (p : gset ShellHash * Z) (hash : ShellHash) :
    gset ShellHash * Z :=
  if bool_decide (hash ∈ p.1) then p
  else ({[hash]} ∪ p.1,
        match by_hash inner !! hash with
        | Some entry => sat_add p.2 (serialized_size entry)
        | None => p.2
        end).

(** The loop; [None] only when the fuel runs out. *)
Fixpoint evict_loop (fuel : nat) (cfg : MempoolConfig) (inner : PoolInner) (incoming_tip base_fee : Z)
    (incoming_sender : Address) (incoming_nonce incoming_size : Z) (evicted : gset ShellHash)
    (evicted_bytes : Z) : option (result (gset ShellHash * Z) MempoolError) :=
  match fuel with
  | O => None
  | S fuel =>
      let projected_count :=
        sat_add (sat_sub (Z.of_nat (size (by_hash inner))) (Z.of_nat (size evicted))) 1 in
      let projected_bytes := checked_add (sat_sub (total_bytes inner) evicted_bytes) incoming_size in
      let count_fits := projected_count <=? max_pool_size cfg in
      let fits :=
        bytes ← projected_bytes;
        if count_fits && (bytes <=? max_pool_bytes cfg) then Some bytes else None in
      match fits with
      | Some bytes => Some (Ok (evicted, bytes))
      | None =>
          match pick_candidate inner evicted incoming_tip base_fee incoming_sender incoming_nonce with
          | None => Some (Err (if count_fits then PoolBytesFull (max_pool_bytes cfg)
                               else PoolFull (max_pool_size cfg)))
          | Some candidate =>
              let '(evicted, evicted_bytes) :=
                foldl (add_evicted inner) (evicted, evicted_bytes)
                  (entry_and_descendant_hashes inner candidate) in
              evict_loop fuel cfg inner incoming_tip base_fee incoming_sender incoming_nonce
                incoming_size evicted evicted_bytes
          end
      end
  end.

(** Every round evicts at least one more entry of the pool. *)
Definition capacity_evictions (cfg : MempoolConfig) (inner : PoolInner) (evicted : gset ShellHash)
    (incoming_tip base_fee : Z) (incoming_sender : Address) (incoming_nonce incoming_size : Z) :
    option (result (gset ShellHash * Z) MempoolError) :=
  let evicted_bytes :=
    foldl (λ total entry, sat_add total (serialized_size entry)) 0
      (omap (λ hash, by_hash inner !! hash) (elements evicted)) in
  evict_loop (S (size (by_hash inner))) cfg inner incoming_tip base_fee incoming_sender incoming_nonce
    incoming_size evicted evicted_bytes.

Fixpoint check_reserved (env : PoolEnv) (inner : PoolInner) (excluded : gset ShellHash)
    (costs : list (Address * Z)) : result unit MempoolError :=
  match costs with
  | [] => Ok tt
  | (account, incoming) :: costs =>
      if incoming =? 0 then check_reserved env inner excluded costs
      else
        let needed_total :=
          reservation_add (reserved_total_excluding inner account excluded) incoming in
        let needed := saturating_u256 needed_total in
        let? have := map_err PoolStorage (pe_balance env account) in
        if (0 <? overflow_units needed_total) || (have <? needed)
        then Err (PoolInsufficientBalance needed have)
        else check_reserved env inner excluded costs
  end.
Definition ensure_pending_balance_available (env : PoolEnv) (inner : PoolInner) (t : SignedTransaction)
    (excluded : gset ShellHash) : result unit MempoolError :=
  check_reserved env inner excluded (reservation_costs t).

(** ** Insertion *)

Section insertion.
Context {R : Rlp} {H : Hashes} {U : U256Ops}.

(** The checks before the lock is taken: size, base fee, root and chain nonce. *)
Definition insert_prepare (cfg : MempoolConfig) (env : PoolEnv) (t : SignedTransaction) :
    result (Z * Z * option ShellHash * Z) MempoolError :=
  let? v := validate_stateless cfg env t in
  let? _ := balance_floor env t in
  if tx_nonce (st_tx t) =? u64_max then Err (InvalidTransaction NonceExhausted)
  else
    let? chain_nonce := map_err PoolStorage (pe_nonce env (sender t)) in
    Ok (v, chain_nonce).

Definition existing_entry (inner : PoolInner) (t : SignedTransaction) : option ShellHash :=
  q ← by_sender inner !! sender t; q !! tx_nonce (st_tx t).

(** The stateful checks: the set to evict and the bytes after insertion. *)
Definition insert_plan (cfg : MempoolConfig) (env : PoolEnv) (inner : PoolInner)
    (t : SignedTransaction) (size base_fee chain_nonce : Z) :
    option (result (gset ShellHash * Z) MempoolError) :=
  let tx := st_tx t in
  let existing_hash := existing_entry inner t in
  let sender_count :=
    match by_sender inner !! sender t with Some q => Z.of_nat (base.size q) | None => 0 end in
  if bool_decide (is_Some (by_hash inner !! tx_hash t)) then Some (Err (Duplicate (tx_hash t)))
  else
    match check_slot cfg inner t existing_hash chain_nonce with
    | Err e => Some (Err e)
    | Ok _ =>
        if bool_decide (existing_hash = None) && (max_per_sender cfg <=? sender_count)
        then Some (Err (SenderQueueFull (sender t) sender_count))
        else
          evictions ← capacity_evictions cfg inner
            (match existing_hash with Some h => {[h]} | None => ∅ end)
            (miner_tip (max_fee_per_gas tx) (max_priority_fee_per_gas tx) base_fee)
            base_fee (sender t) (tx_nonce tx) size;
          Some (let? r := evictions in
                let? _ := ensure_pending_balance_available env inner t r.1 in
                Ok r)
    end.

Definition insert_entry (inner : PoolInner) (t : SignedTransaction) (size projected_bytes : Z)
    (root : option ShellHash) (seq next_seq : Z) : PoolInner :=
  let hash := tx_hash t in
  let key := MkPriorityKey (- max_priority_fee_per_gas (st_tx t)) seq in
  let q := unwrap_or ∅ (by_sender inner !! sender t) in
  MkPoolInner (<[hash := MkPoolEntry t key size root]> (by_hash inner))
    (<[sender t := <[tx_nonce (st_tx t) := hash]> q]> (by_sender inner))
    (<[key := hash]> (by_priority inner)) next_seq projected_bytes
    (sat_add (accepted_total inner) 1) (add_reservations (reserved_by_account inner) t).

(** [insert]; [None] only when the eviction loop runs out of fuel. *)
Definition pool_insert (cfg : MempoolConfig) (env : PoolEnv) (inner : PoolInner)
    (t : SignedTransaction) : option (result ShellHash MempoolError * PoolInner) :=
  match insert_prepare cfg env t with
  | Err e => Some (Err e, inner)
  | Ok (size, base_fee, root, chain_nonce) =>
      plan ← insert_plan cfg env inner t size base_fee chain_nonce;
      Some (match plan with
            | Err e => (Err e, inner)
            | Ok (evicted, projected_bytes) =>
                match checked_add (pool_seq inner) 1 with
                | None => (Err (InvalidTransaction SequenceExhausted), inner)
                | Some next_seq =>
                    let seq := pool_seq inner in
                    let inner := remove_all inner (elements evicted) in
                    (Ok (tx_hash t), insert_entry inner t size projected_bytes root seq next_seq)
                end
            end)
  end.
End insertion.

(** ** Views *)

Definition pool_get (inner : PoolInner) (hash : ShellHash) : option SignedTransaction :=
  entry_tx <$> by_hash inner !! hash.
Definition pool_contains (inner : PoolInner) (hash : ShellHash) : bool :=
  bool_decide (is_Some (by_hash inner !! hash)).
Definition pool_len (inner : PoolInner) : Z := Z.of_nat (size (by_hash inner)).
Definition pool_is_empty (inner : PoolInner) : bool := bool_decide (by_hash inner = ∅).
Definition size_bytes (inner : PoolInner) : Z := total_bytes inner.
Definition admission_stats (inner : PoolInner) : Z * Z := (pool_len inner, accepted_total inner).
Definition sender_count (inner : PoolInner) (s : Address) : Z :=
  match by_sender inner !! s with Some q => Z.of_nat (size q) | None => 0 end.
Definition sender_txs (inner : PoolInner) (s : Address) : list ShellHash :=
  match by_sender inner !! s with Some q => (bt_iter Z.le q).*2 | None => [] end.

(** [pending]: the loop over the priority index stops at the limit. *)
Definition pending (inner : PoolInner) (limit : Z) : list SignedTransaction :=
  take (Z.to_nat limit)
    (omap (λ p, entry_tx <$> by_hash inner !! p.2) (bt_iter key_le (by_priority inner))).

(** ** Selection for a block *)

Section selection.
Context (is_eligible : SignedTransaction → bool) (priority_fee : SignedTransaction → Z).
Implicit Types (inner : PoolInner) (ready : gmap PriorityKey (Address * ShellHash)).

Definition selection_key (entry : PoolEntry) : PriorityKey :=
  MkPriorityKey (- priority_fee (entry_tx entry)) (key_seq (priority_key entry)).

Definition add_ready inner ready (s : Address) (hash : ShellHash) :=
  match by_hash inner !! hash with
  | Some entry =>
      if is_eligible (entry_tx entry) then <[selection_key entry := (s, hash)]> ready else ready
  | None => ready
  end.

Definition initial_ready inner : gmap PriorityKey (Address * ShellHash) :=
  foldl (λ ready p, match bt_first Z.le p.2 with
                    | Some (_, hash) => add_ready inner ready p.1 hash
                    | None => ready
                    end) ∅ (map_to_list (by_sender inner)).

(** The next nonce of the sender, if it is queued, eligible, and its key is not
    the one just taken. *)
Definition push_next inner ready (taken : PriorityKey) (s : Address) (nonce : Z) :=
  match by_sender inner !! s with
  | None => ready
  | Some queue =>
      match checked_add nonce 1 with
      | None => ready
      | Some next_nonce =>
          match head (bt_from Z.le next_nonce queue) with
          | None => ready
          | Some (queued_nonce, next_hash) =>
              if negb (queued_nonce =? next_nonce) then ready
              else
                match by_hash inner !! next_hash with
                | None => ready
                | Some next_entry =>
                    if bool_decide (selection_key next_entry ≠ taken) &&
                       is_eligible (entry_tx next_entry)
                    then <[selection_key next_entry := (s, next_hash)]> ready
                    else ready
                end
          end
      end
  end.

(** The loop; [None] only when the fuel runs out. *)
Fixpoint select_loop (fuel : nat) inner (limit : Z) ready (selected : list SignedTransaction) :
    option (list SignedTransaction) :=
  match fuel with
  | O => None
  | S fuel =>
      if limit <=? len selected then Some selected
      else
        match bt_first key_le ready with
        | None => Some selected
        | Some (key, (s, hash)) =>
            let ready := delete key ready in
            match by_hash inner !! hash with
            | None => select_loop fuel inner limit ready selected
            | Some entry =>
                select_loop fuel inner limit
                  (push_next inner ready key s (tx_nonce (st_tx (entry_tx entry))))
                  (selected ++ [entry_tx entry])
            end
        end
  end.

(** Every round takes an entry of the pool it will not take again. *)
Definition pending_for_block_matching inner (limit : Z) : option (list SignedTransaction) :=
  select_loop (S (size (by_hash inner))) inner limit (initial_ready inner) [].
End selection.

Definition pending_for_block (inner : PoolInner) (limit : Z) : option (list SignedTransaction) :=
  pending_for_block_matching (λ _, true) (λ t, max_priority_fee_per_gas (st_tx t)) inner limit.

Definition pending_for_block_at_fees (inner : PoolInner) (limit base_fee blob_base_fee : Z) :
    option (list SignedTransaction) :=
  pending_for_block_matching
    (λ t, (base_fee <=? max_fee_per_gas (st_tx t)) &&
          (negb (tx_type (st_tx t) =? 3) ||
           (blob_base_fee <=? unwrap_or 0 (max_fee_per_blob_gas (st_tx t)))))
    (λ t, miner_tip (max_fee_per_gas (st_tx t)) (max_priority_fee_per_gas (st_tx t)) base_fee)
    inner limit.

Definition pending_for_block_at_base_fee (inner : PoolInner) (limit base_fee : Z) :
    option (list SignedTransaction) :=
  pending_for_block_at_fees inner limit base_fee 0.
