(* ===== verification/MempoolInv.v ===== *)
(** * The invariant of the transaction pool

    The four indexes of the pool describe one set of transactions: the sender
    queues and the priority index list exactly the entries, the byte counter is
    the sum of their sizes, the reservations are exactly what they cost each
    account, and the configured limits hold.  Every operation keeps this true. *)

From S2P Require Import Prelude Primitives Block Fee Rlp Transaction TxHash TxValidation BTree Mempool.

(** ** Reservation totals *)

(** [t] is the exact total [v]. *)
Definition reserves (t : ReservationTotal) (v : Z) : Prop :=
  v = overflow_units t * 2 ^ 256 + low t ∧ 0 <= low t <= u256_max ∧ 0 <= overflow_units t <= u64_max.

Lemma reserves_default : reserves reservation_default 0.
Proof. by rw /reserves /= /u256_max /u64_max. Qed.

Lemma reserves_add t v c :
  reserves t v → 0 <= c <= u256_max → v + c < u64_max * 2 ^ 256 → reserves (reservation_add t c) (v + c).
Proof.
  intros (-> & Hl & Ho) Hc Hv. rw /reserves /reservation_add. cbv zeta. cbn [low overflow_units].
  assert (u256_max + 1 = 2 ^ 256) as E by done.
  pose proof (Z.mod_pos_bound (low t + c) (2 ^ 256) ltac:(done)).
  pose proof (Z.div_mod (low t + c) (2 ^ 256) ltac:(done)) as Hd. rw E. unfold sat_add.
  destruct (Z.ltb_spec u256_max (low t + c)).
  - assert ((low t + c) / 2 ^ 256 = 1) as Hq by (symmetry; apply (Z.div_unique _ _ _ (low t + c - 2 ^ 256)); lia).
    rw Hq in Hd. lia.
  - assert ((low t + c) / 2 ^ 256 = 0) as Hq by (apply Z.div_small; lia).
    rw Hq in Hd. lia.
Qed.

Lemma reserves_subtract t v c :
  reserves t v → 0 <= c <= u256_max → c <= v → reserves (reservation_subtract t c) (v - c).
Proof.
  intros (-> & Hl & Ho) Hc Hv. rw /reservation_subtract. cbv zeta.
  assert (u256_max + 1 = 2 ^ 256) as E by done.
  destruct (Z.ltb_spec (low t) c) as [Hlt|Hge]; simpl.
  - destruct (Z.eqb_spec (overflow_units t) 0); [lia|]. rw /reserves /sat_sub E. cbn [low overflow_units].
    assert ((low t - c) mod 2 ^ 256 = low t - c + 2 ^ 256) as ->
      by (symmetry; apply (Z.mod_unique _ _ (-1)); lia). lia.
  - rw /reserves /sat_sub E. cbn [low overflow_units]. rw Z.mod_small; lia.
Qed.

Lemma reserves_is_zero t v : reserves t v → reservation_is_zero t = true ↔ v = 0.
Proof. intros (-> & Hl & Ho). rw /reservation_is_zero andb_true_iff !Z.eqb_eq. lia. Qed.

Lemma reserves_saturating t v : reserves t v → v <= u256_max → saturating_u256 t = v ∧ overflow_units t = 0.
Proof.
  intros (-> & Hl & Ho) Hv. assert (overflow_units t = 0) as E by (unfold u256_max in *; lia).
  rw /saturating_u256 E. split; [|done]. simpl. lia.
Qed.

(** The total of an account, absent when nothing is reserved. *)
Definition reserved_as (o : option ReservationTotal) (v : Z) : Prop :=
  reserves (unwrap_or reservation_default o) v ∧ (o = None ↔ v = 0).

(** ** What a transaction reserves *)

(** The ranges of the source's types that the pool's arithmetic relies on. *)
Record pool_typed (t : SignedTransaction) : Prop := {
  pt_nonce : in_u64 (tx_nonce (st_tx t));
  pt_value : 0 <= tx_value (st_tx t) <= u256_max;
  pt_gas : 0 <= tx_gas_limit (st_tx t);
  pt_fee : 0 <= max_fee_per_gas (st_tx t);
  pt_priority : 0 <= max_priority_fee_per_gas (st_tx t);
  pt_blob_fee : 0 <= unwrap_or 0 (max_fee_per_blob_gas (st_tx t));
}.

Lemma add_or_max_range a b : 0 <= a → 0 <= b → 0 <= add_or_max a b <= u256_max.
Proof.
  intros. rw /add_or_max /checked_add_u256. destruct (Z.leb_spec (a + b) u256_max); simpl; [lia|done].
Qed.

Lemma checked_mul_range a b :
  0 <= a → 0 <= b → 0 <= unwrap_or u256_max (checked_mul_u256 a b) <= u256_max.
Proof.
  intros. rw /checked_mul_u256. destruct (Z.leb_spec (a * b) u256_max); simpl; [nia|done].
Qed.

Lemma max_gas_cost_range t : pool_typed t → 0 <= max_gas_cost t <= u256_max.
Proof.
  intros Ht. assert (0 <= blob_gas (st_tx t)).
  { rw /blob_gas. destruct (blob_versioned_hashes (st_tx t)) as [l|]; [|done].
    pose proof (len_nonneg l). unfold sat_mul, BLOB_GAS_PER_BLOB, u64_max. lia. }
  apply add_or_max_range; apply checked_mul_range; by try apply Ht.
Qed.

(** The amount account [a] owes of a list of costs. *)
Definition owed (a : Address) (p : Address * Z) : Z := if decide (p.1 = a) then p.2 else 0.

Definition costs_ok (l : list (Address * Z)) : Prop := ∀ p, p ∈ l → 0 <= p.2 <= u256_max.

Lemma reservation_costs_ok t : pool_typed t → costs_ok (reservation_costs t).
Proof.
  intros Ht p. pose proof (max_gas_cost_range t Ht). pose proof (pt_value _ Ht).
  rw /reservation_costs. case_bool_decide; rw !elem_of_cons elem_of_nil;
    intros [->|[->|[]]]; simpl; first [lia|apply add_or_max_range; lia].
Qed.

Lemma reservation_cost_for_owed t a :
  pool_typed t → reservation_cost_for t a = sumZ (owed a) (reservation_costs t).
Proof.
  intros Ht. pose proof (max_gas_cost_range t Ht). pose proof (pt_value _ Ht).
  assert (Hadd : ∀ x, 0 <= x <= u256_max → add_or_max 0 x = x ∧ add_or_max x 0 = x).
  { intros x Hx. rw /add_or_max /checked_add_u256 Z.add_0_r Z.add_0_l.
    by rw (proj2 (Z.leb_le x _)); [lia|]. }
  rw /reservation_cost_for /reservation_costs /owed. case_bool_decide as Hp.
  - pose proof (add_or_max_range (max_gas_cost t) (tx_value (st_tx t)) ltac:(lia) ltac:(lia)).
    rw !filter_cons filter_nil /= !sumZ_cons sumZ_nil /=.
    case_decide; simpl; rw ?(proj1 (Hadd _ _)) ?(proj2 (Hadd _ _)); lia.
  - rw !filter_cons filter_nil /= !sumZ_cons sumZ_nil /=.
    repeat case_decide; simpl; try congruence; rw ?(proj1 (Hadd _ _)); lia.
Qed.

Lemma reservation_cost_range t a : pool_typed t → 0 <= reservation_cost_for t a <= u256_max.
Proof.
  intros Ht. rw reservation_cost_for_owed //. pose proof (reservation_costs_ok t Ht) as Hc.
  assert (Hz : ∀ p, p ∈ reservation_costs t → 0 <= owed a p <= u256_max).
  { intros p Hp%Hc. rw /owed. case_decide; unfold u256_max in *; lia. }
  revert Hz. rw /reservation_costs. case_bool_decide as Hp; intros Hz.
  - rw !sumZ_cons sumZ_nil {2 4}/owed /=. pose proof (Hz _ ltac:(left)). repeat case_decide; lia.
  - pose proof (Hz _ ltac:(left)) as H1. pose proof (Hz _ ltac:(right; left)) as H2. revert H1 H2.
    rw !sumZ_cons sumZ_nil /owed /=. repeat case_decide; try lia. congruence.
Qed.

(** ** Updating the reservations *)

Section reservations.
Implicit Types (m : gmap Address ReservationTotal) (v : Address → Z).

Lemma reserved_as_range o (x : Z) : reserved_as o x → 0 <= x.
Proof. intros [(-> & ? & ?) _]. lia. Qed.

Lemma add_reservation_ok m v p :
  (∀ a, reserved_as (m !! a) (v a)) → 0 <= p.2 <= u256_max →
  (∀ a, v a + owed a p < u64_max * 2 ^ 256) →
  ∀ a, reserved_as (add_reservation m p !! a) (v a + owed a p).
Proof.
  intros Hm Hp Hv a. destruct p as [b c]. specialize (Hm a) as Ha. specialize (Hv a).
  rw /add_reservation /owed in Hv *. simpl in *. destruct (Z.eqb_spec c 0) as [->|Hc].
  { by case_decide; rw Z.add_0_r. }
  case_decide as E; [subst b|].
  - rw lookup_insert_eq. destruct Ha as [Ha Hn]. pose proof (reserves_add _ _ _ Ha Hp Hv) as Hr.
    split; [done|]. split; [done|]. pose proof (reserved_as_range _ _ (conj Ha Hn)). lia.
  - by rw lookup_insert_ne // Z.add_0_r.
Qed.

Lemma remove_reservation_ok m v p :
  (∀ a, reserved_as (m !! a) (v a)) → 0 <= p.2 <= u256_max → (∀ a, owed a p <= v a) →
  ∀ a, reserved_as (remove_reservation m p !! a) (v a - owed a p).
Proof.
  intros Hm Hp Hv a. destruct p as [b c]. specialize (Hm a) as Ha. specialize (Hv a).
  rw /remove_reservation /owed in Hv *. simpl in *. destruct (Z.eqb_spec c 0) as [->|Hc].
  { by case_decide; rw Z.sub_0_r. }
  case_decide as E; [subst b|].
  - destruct (m !! a) as [t|]; [|destruct Ha as [_ Ha]; assert (v a = 0) by (by apply Ha); lia].
    destruct Ha as [Ha _]. pose proof (reserves_subtract _ _ _ Ha Hp Hv) as Hr. simpl in Hr.
    destruct (reservation_is_zero _) eqn:Ez.
    + rw lookup_delete_eq. apply (reserves_is_zero _ _ Hr) in Ez. rw Ez.
      split; [apply reserves_default|done].
    + rw lookup_insert_eq. split; [done|]. split; [done|]. intros Hz.
      apply (reserves_is_zero _ _ Hr) in Hz. congruence.
  - destruct (m !! b) as [t|]; [|by rw Z.sub_0_r].
    destruct (reservation_is_zero _); rw ?lookup_delete_ne ?lookup_insert_ne // Z.sub_0_r //.
Qed.

Lemma owed_nonneg a l : costs_ok l → 0 <= sumZ (owed a) l.
Proof.
  intros Hl. apply sumZ_nonneg. intros p Hp%Hl. rw /owed. case_decide; lia.
Qed.

Lemma foldl_add_reservation l : ∀ m v,
  (∀ a, reserved_as (m !! a) (v a)) → costs_ok l →
  (∀ a, v a + sumZ (owed a) l < u64_max * 2 ^ 256) →
  ∀ a, reserved_as (foldl add_reservation m l !! a) (v a + sumZ (owed a) l).
Proof.
  induction l as [|p l IH]; intros m v Hm Hl Hv a; simpl.
  { by rw sumZ_nil Z.add_0_r. }
  assert (Hc : costs_ok l) by (intros q Hq; apply Hl; by right).
  assert (Hp : 0 <= p.2 <= u256_max) by (apply Hl; left).
  rw sumZ_cons Z.add_assoc. apply (IH _ (λ a, v a + owed a p)); [|done|].
  - apply add_reservation_ok; [done..|]. intros b. specialize (Hv b). rw sumZ_cons in Hv.
    pose proof (owed_nonneg b l Hc). lia.
  - intros b. specialize (Hv b). rw sumZ_cons in Hv. lia.
Qed.

Lemma foldl_remove_reservation l : ∀ m v,
  (∀ a, reserved_as (m !! a) (v a)) → costs_ok l → (∀ a, sumZ (owed a) l <= v a) →
  ∀ a, reserved_as (foldl remove_reservation m l !! a) (v a - sumZ (owed a) l).
Proof.
  induction l as [|p l IH]; intros m v Hm Hl Hv a; simpl.
  { by rw sumZ_nil Z.sub_0_r. }
  assert (Hc : costs_ok l) by (intros q Hq; apply Hl; by right).
  assert (Hp : 0 <= p.2 <= u256_max) by (apply Hl; left).
  rw sumZ_cons Z.sub_add_distr. apply (IH _ (λ a, v a - owed a p)); [|done|].
  - apply remove_reservation_ok; [done..|]. intros b. specialize (Hv b). rw sumZ_cons in Hv.
    pose proof (owed_nonneg b l Hc). lia.
  - intros b. specialize (Hv b). rw sumZ_cons in Hv. lia.
Qed.
End reservations.

(** ** The invariant *)

(** The hash queued for a sender at a nonce. *)
Definition queued (inner : PoolInner) (s : Address) (n : Z) : option ShellHash :=
  q ← by_sender inner !! s; q !! n.

(** Limits that are [usize] values, the count below the largest. *)
Record config_ok (cfg : MempoolConfig) : Prop := {
  co_size : 0 <= max_pool_size cfg < u64_max;
  co_bytes : in_u64 (max_pool_bytes cfg);
}.

Section invariant.
Context {R : Rlp} {H : Hashes} (cfg : MempoolConfig).

(** One entry on its own. *)
Record entry_ok (inner : PoolInner) (h : ShellHash) (e : PoolEntry) : Prop := {
  eo_hash : tx_hash (entry_tx e) = h;
  eo_typed : pool_typed (entry_tx e);
  eo_size : 0 <= serialized_size e <= MAX_TX_SIZE;
  eo_fee : neg_priority_fee (priority_key e) = - max_priority_fee_per_gas (st_tx (entry_tx e));
  eo_seq : 0 <= key_seq (priority_key e) < pool_seq inner;
}.

Record pool_ok (inner : PoolInner) : Prop := {
  ok_entries : ∀ h e, by_hash inner !! h = Some e → entry_ok inner h e;
  ok_sender : ∀ s n h, queued inner s n = Some h ↔
    ∃ e, by_hash inner !! h = Some e ∧ sender (entry_tx e) = s ∧ tx_nonce (st_tx (entry_tx e)) = n;
  ok_queues : ∀ s q, by_sender inner !! s = Some q →
    q ≠ ∅ ∧ Z.of_nat (size q) <= max_per_sender cfg;
  ok_priority : ∀ k h, by_priority inner !! k = Some h ↔
    ∃ e, by_hash inner !! h = Some e ∧ priority_key e = k;
  ok_arrival : ∀ h e h' e', by_hash inner !! h = Some e → by_hash inner !! h' = Some e' →
    key_seq (priority_key e) = key_seq (priority_key e') → h = h';
  ok_bytes : total_bytes inner = map_sum serialized_size (by_hash inner);
  ok_reserved : ∀ a, reserved_as (reserved_by_account inner !! a)
    (map_sum (λ e, reservation_cost_for (entry_tx e) a) (by_hash inner));
  ok_count : Z.of_nat (size (by_hash inner)) <= max_pool_size cfg;
  ok_total : total_bytes inner <= max_pool_bytes cfg;
  ok_seq : in_u64 (pool_seq inner);
}.

Lemma pool_new_ok : config_ok cfg → pool_ok pool_new.
Proof.
  intros [Hs Hb]. split; cbn [by_hash by_sender by_priority total_bytes reserved_by_account pool_seq pool_new].
  - done.
  - intros s n h. rw /queued lookup_empty /=. split; [done|]. by intros (? & ? & _).
  - done.
  - intros k h. rw !lookup_empty. split; [done|]. by intros (? & ? & _).
  - done.
  - by rw map_sum_empty.
  - intros a. rw map_sum_empty lookup_empty. split; [apply reserves_default|done].
  - rw map_size_empty. unfold in_u64 in *. lia.
  - unfold in_u64 in *. lia.
  - done.
Qed.

Lemma entry_size_nonneg inner h e :
  pool_ok inner → by_hash inner !! h = Some e → 0 <= serialized_size e.
Proof. intros Hok He. apply (ok_entries _ Hok h e He). Qed.

Lemma entry_cost_range inner a h e :
  pool_ok inner → by_hash inner !! h = Some e → 0 <= reservation_cost_for (entry_tx e) a <= u256_max.
Proof. intros Hok He. apply reservation_cost_range. by apply (ok_entries _ Hok h e He). Qed.

(** *** Removal *)

Lemma remove_entry_by_hash inner h : by_hash (remove_entry inner h).1 = delete h (by_hash inner).
Proof.
  rw /remove_entry. destruct (by_hash inner !! h) eqn:E; [done|]. by rw delete_id.
Qed.

Lemma remove_entry_seq inner h : pool_seq (remove_entry inner h).1 = pool_seq inner.
Proof. rw /remove_entry. by destruct (by_hash inner !! h). Qed.

Lemma remove_entry_queued inner h e s n :
  by_hash inner !! h = Some e →
  queued (remove_entry inner h).1 s n =
    if decide (s = sender (entry_tx e) ∧ n = tx_nonce (st_tx (entry_tx e))) then None
    else queued inner s n.
Proof.
  intros He. rw /remove_entry He /queued /=. set (s0 := sender _). set (n0 := tx_nonce _).
  destruct (decide (s = s0)) as [->|Hs].
  - destruct (by_sender inner !! s0) as [q|] eqn:Eq; simpl; [|by rw Eq; case_decide].
    case_bool_decide as Hq.
    + rw lookup_delete_eq /=. case_decide as E; [done|].
      apply (f_equal (.!! n)) in Hq. rw lookup_empty lookup_delete_ne // in Hq.
      intros ->. by apply E.
    + rw lookup_insert_eq /=. case_decide as E.
      * destruct E as [_ ->]. by rw lookup_delete_eq.
      * rw lookup_delete_ne //. intros ->. by apply E.
  - rw (decide_False (P := s = s0 ∧ _)); [by intros [? _]|].
    destruct (by_sender inner !! s0) as [q|] eqn:Eq; simpl; [|done].
    case_bool_decide; rw ?lookup_delete_ne ?lookup_insert_ne //.
Qed.

Lemma remove_entry_queues inner h s q :
  by_sender (remove_entry inner h).1 !! s = Some q →
  (∀ s q, by_sender inner !! s = Some q → q ≠ ∅) →
  q ≠ ∅ ∧ ∃ q', by_sender inner !! s = Some q' ∧ (size q ≤ size q')%nat.
Proof.
  intros Hq Hne. revert Hq. rw /remove_entry.
  destruct (by_hash inner !! h) as [e|]; simpl; [|intros; split; eauto].
  destruct (by_sender inner !! sender (entry_tx e)) as [q0|] eqn:Eq; simpl; [|intros; split; eauto].
  case_bool_decide as Hempty.
  - intros [? ?]%lookup_delete_Some. split; eauto.
  - intros [[<- <-]|[? ?]]%lookup_insert_Some; [|split; eauto]. split; [done|]. exists q0. split; [done|].
    apply map_subseteq_size, delete_subseteq.
Qed.

Lemma remove_entry_reserved inner h e :
  pool_ok inner → by_hash inner !! h = Some e →
  ∀ a, reserved_as (reserved_by_account (remove_entry inner h).1 !! a)
    (map_sum (λ e, reservation_cost_for (entry_tx e) a) (delete h (by_hash inner))).
Proof.
  intros Hok He a. assert (Ht := eo_typed _ _ _ (ok_entries _ Hok h e He)).
  rw (map_sum_delete _ _ _ e) // reservation_cost_for_owed // /remove_entry He /= /remove_reservations.
  apply (foldl_remove_reservation _ _
    (λ a, map_sum (λ e, reservation_cost_for (entry_tx e) a) (by_hash inner))).
  - apply (ok_reserved _ Hok).
  - by apply reservation_costs_ok.
  - intros b. rw -reservation_cost_for_owed //.
    apply (map_sum_elem_le (λ e, reservation_cost_for (entry_tx e) b) _ h); [|done].
    intros. by eapply entry_cost_range.
Qed.

Lemma remove_entry_priority inner h e k :
  by_hash inner !! h = Some e →
  by_priority (remove_entry inner h).1 !! k =
    if decide (k = priority_key e) then None else by_priority inner !! k.
Proof.
  intros He. rw /remove_entry He /=. case_decide as E; [subst; apply lookup_delete_eq|].
  by rw lookup_delete_ne.
Qed.

Lemma remove_entry_sender inner h e s n h' :
  pool_ok inner → by_hash inner !! h = Some e →
  queued (remove_entry inner h).1 s n = Some h' ↔
  ∃ e', by_hash (remove_entry inner h).1 !! h' = Some e' ∧ sender (entry_tx e') = s ∧
    tx_nonce (st_tx (entry_tx e')) = n.
Proof.
  intros Hok He. rw (remove_entry_queued _ _ _ _ _ He) remove_entry_by_hash. case_decide as E.
  - split; [done|]. intros (e' & [Hne He']%lookup_delete_Some & <- & <-). destruct Hne.
    destruct E as [E1 E2].
    assert (Q : queued inner (sender (entry_tx e')) (tx_nonce (st_tx (entry_tx e'))) = Some h)
      by (apply (ok_sender _ Hok); eauto).
    assert (Q' : queued inner (sender (entry_tx e')) (tx_nonce (st_tx (entry_tx e'))) = Some h')
      by (apply (ok_sender _ Hok); eauto). congruence.
  - rw (ok_sender _ Hok). split; intros (e' & He' & <- & <-); exists e'; [|by apply lookup_delete_Some in He' as [_ ?]].
    split; [|done]. apply lookup_delete_Some. split; [|done]. intros <-. apply E. by simplify_eq.
Qed.

Lemma remove_entry_keys inner h e k h' :
  pool_ok inner → by_hash inner !! h = Some e →
  by_priority (remove_entry inner h).1 !! k = Some h' ↔
  ∃ e', by_hash (remove_entry inner h).1 !! h' = Some e' ∧ priority_key e' = k.
Proof.
  intros Hok He. rw (remove_entry_priority _ _ _ _ He) remove_entry_by_hash. case_decide as E.
  - split; [done|]. intros (e' & [Hne He']%lookup_delete_Some & Hk). destruct Hne.
    assert (P : by_priority inner !! k = Some h) by (apply (ok_priority _ Hok); subst; eauto).
    assert (P' : by_priority inner !! k = Some h') by (apply (ok_priority _ Hok); eauto). congruence.
  - rw (ok_priority _ Hok). split; intros (e' & He' & <-); exists e'; [|by apply lookup_delete_Some in He' as [_ ?]].
    split; [|done]. apply lookup_delete_Some. split; [|done]. intros <-. apply E. by simplify_eq.
Qed.

Lemma remove_entry_ok inner h : pool_ok inner → pool_ok (remove_entry inner h).1.
Proof.
  intros Hok. destruct (by_hash inner !! h) as [e|] eqn:He; [|by rw /remove_entry He].
  pose proof (remove_entry_by_hash inner h) as Hbh.
  assert (Htot : total_bytes (remove_entry inner h).1 = total_bytes inner - serialized_size e).
  { rw /remove_entry He /= /sat_sub Z.max_l //. rw (ok_bytes _ Hok).
    pose proof (map_sum_elem_le serialized_size _ h e (λ h e, entry_size_nonneg inner h e Hok) He). lia. }
  pose proof (entry_size_nonneg _ _ _ Hok He).
  split.
  - intros h' e'. rw Hbh. intros [_ He']%lookup_delete_Some. destruct (ok_entries _ Hok h' e' He').
    split; try done. by rw remove_entry_seq.
  - intros. by eapply remove_entry_sender.
  - intros s q Hq. destruct (remove_entry_queues _ _ _ _ Hq) as (Hne & q' & Hq' & Hsz).
    { intros. by eapply (ok_queues _ Hok). }
    split; [done|]. destruct (ok_queues _ Hok s q' Hq'). lia.
  - intros. by eapply remove_entry_keys.
  - intros h1 e1 h2 e2. rw Hbh. intros [_ ?]%lookup_delete_Some [_ ?]%lookup_delete_Some.
    by eapply (ok_arrival _ Hok).
  - by rw Htot Hbh (map_sum_delete _ _ _ e) // (ok_bytes _ Hok).
  - rw Hbh. by apply (remove_entry_reserved _ _ e).
  - rw Hbh. pose proof (ok_count _ Hok).
    pose proof (map_subseteq_size _ _ (delete_subseteq (by_hash inner) h)). lia.
  - rw Htot. pose proof (ok_total _ Hok). lia.
  - rw remove_entry_seq. apply (ok_seq _ Hok).
Qed.

Lemma remove_all_ok inner l : pool_ok inner → pool_ok (remove_all inner l).
Proof.
  rw /remove_all. revert inner. induction l as [|h l IH]; intros inner Hok; [done|].
  by apply IH, remove_entry_ok.
Qed.

Lemma remove_all_by_hash inner l :
  by_hash (remove_all inner l) = filter (λ p, p.1 ∉ l) (by_hash inner).
Proof.
  rw /remove_all. revert inner. induction l as [|h l IH]; intros inner; simpl.
  - symmetry. apply map_filter_id. intros. apply not_elem_of_nil.
  - rw IH remove_entry_by_hash. apply map_eq. intros k. apply option_eq. intros e.
    rw !map_lookup_filter_Some lookup_delete_Some /=. set_solver.
Qed.

Lemma remove_all_seq inner l : pool_seq (remove_all inner l) = pool_seq inner.
Proof.
  rw /remove_all. revert inner. induction l as [|h l IH]; intros inner; [done|].
  by rw /= IH remove_entry_seq.
Qed.

Lemma reset_seq_ok inner : pool_ok inner → pool_ok (reset_seq inner).
Proof.
  intros Hok. rw /reset_seq. case_bool_decide as E; [|done]. destruct Hok.
  split; try done. intros h e. cbn [by_hash]. by rw E.
Qed.

Lemma remove_count_fst p h : (remove_count p h).1 = (remove_entry p.1 h).1.
Proof. rw /remove_count. by destruct (remove_entry p.1 h). Qed.

Lemma remove_descendants_all inner h :
  (remove_entry_and_descendants inner h).1 = remove_all inner (entry_and_descendant_hashes inner h).
Proof.
  rw /remove_entry_and_descendants /remove_all. generalize (entry_and_descendant_hashes inner h).
  intros l. change inner with (inner, 0).1 at 2. generalize (inner, 0). clear inner.
  induction l as [|x l IH]; intros p; [done|]. by rw /= IH remove_count_fst.
Qed.
End invariant.
