(* ===== verification/MempoolEvict.v ===== *)
(** * Eviction under capacity pressure

    What the eviction loop of the pool chooses: it always returns, the set it
    returns makes room for the incoming transaction, and an entry is only chosen
    for a better-paying newcomer, together with the entries that need it. *)

From S2P Require Import Prelude Primitives Block Fee Rlp Transaction TxHash TxValidation BTree Mempool.
From S2P Require Import MempoolInv.

(** ** Candidates *)

(** The tip of an entry at a base fee. *)
Definition tip_of (base_fee : Z) (e : PoolEntry) : Z :=
  miner_tip (max_fee_per_gas (st_tx (entry_tx e))) (max_priority_fee_per_gas (st_tx (entry_tx e))) base_fee.
Definition nonce_of (e : PoolEntry) : Z := tx_nonce (st_tx (entry_tx e)).
Definition sender_of (e : PoolEntry) : Address := sender (entry_tx e).

Lemma min_candidate_spec l x :
  min_candidate l = Some x → x ∈ l ∧ ∀ y, y ∈ l → x.1.1 <= y.1.1.
Proof.
  destruct l as [|z l]; simpl; [done|]. intros [= <-]. revert z.
  induction l as [|y l IH]; intros z; simpl; [set_solver by lia|].
  destruct (IH (if candidate_le z y then z else y)) as [Hin Hmin].
  destruct (candidate_le z y) eqn:E.
  - split; [set_solver|]. intros w [->|[->|Hw]%elem_of_cons]%elem_of_cons; [apply Hmin; set_solver| |apply Hmin; set_solver].
    trans z.1.1; [apply Hmin; set_solver|]. revert E. rw /candidate_le orb_true_iff andb_true_iff Z.ltb_lt Z.eqb_eq. lia.
  - split; [set_solver|]. intros w [->|Hw]%elem_of_cons; [|by apply Hmin].
    trans y.1.1; [apply Hmin; set_solver|]. revert E. rw /candidate_le orb_false_iff andb_false_iff Z.ltb_ge. lia.
Qed.

Lemma min_candidate_None l : min_candidate l = None → l = [].
Proof. by destruct l. Qed.

Section eviction.
Context {R : Rlp} {H : Hashes} (cfg : MempoolConfig) (inner : PoolInner) (Hok : pool_ok cfg inner).
Context (Hcfg : config_ok cfg) (tip base_fee : Z) (s : Address) (nonce incoming : Z) (Hinc : 0 <= incoming).
Local Abbreviation entries := (by_hash inner).

(** The newcomer may displace an entry: not one its own sender needs first. *)
Definition evictable (e : PoolEntry) : Prop := sender_of e = s → nonce < nonce_of e.

Lemma elem_of_candidates ev c :
  c ∈ omap (candidate_of inner ev base_fee s nonce) (bt_iter key_le (by_priority inner)) ↔
  ∃ e, entries !! c.2 = Some e ∧ (c.2 ∉ ev) ∧ evictable e ∧
    c.1 = (tip_of base_fee e, key_seq (priority_key e)).
Proof.
  rw list_elem_of_omap. split.
  - intros ([k h] & Hin%elem_of_bt_iter & Hc). revert Hc. rw /candidate_of /=.
    case_bool_decide; [done|]. destruct (entries !! h) as [e|] eqn:E; [|done]. simpl.
    destruct (_ && _) eqn:Eg; [done|]. intros [= <-]. exists e. simpl. split_and!; try done.
    + intros Hs. revert Eg. rw andb_false_iff Z.leb_gt bool_decide_eq_false /nonce_of. naive_solver.
    + apply (ok_priority _ _ Hok) in Hin as (e' & He' & <-). by simplify_eq.
  - destruct c as [[t q] h]. simpl. intros (e & He & Hh & Hev & [= -> ->]).
    exists (priority_key e, h). rw elem_of_bt_iter (ok_priority _ _ Hok). split; [eauto|].
    rw /candidate_of /= bool_decide_eq_false_2 // He /=.
    destruct (_ && _) eqn:Eg; [|done]. apply andb_true_iff in Eg as [Es%bool_decide_eq_true En%Z.leb_le].
    specialize (Hev Es). unfold nonce_of in Hev. lia.
Qed.

Lemma pick_candidate_Some ev h :
  pick_candidate inner ev tip base_fee s nonce = Some h →
  ∃ e, entries !! h = Some e ∧ (h ∉ ev) ∧ evictable e ∧ tip_of base_fee e < tip.
Proof.
  rw /pick_candidate. destruct (min_candidate _) as [[[t q] h']|] eqn:E; [|done].
  apply min_candidate_spec in E as [Hin _]. apply elem_of_candidates in Hin as (e & ? & ? & ? & [= -> ->]).
  destruct (Z.ltb_spec (tip_of base_fee e) tip); [|done]. intros [= ->]. eauto.
Qed.

Lemma pick_candidate_None ev h e :
  pick_candidate inner ev tip base_fee s nonce = None →
  entries !! h = Some e → h ∉ ev → evictable e → tip <= tip_of base_fee e.
Proof.
  intros Hp He Hh Hev. assert (Hc : (tip_of base_fee e, key_seq (priority_key e), h) ∈
    omap (candidate_of inner ev base_fee s nonce) (bt_iter key_le (by_priority inner)))
    by (apply elem_of_candidates; eauto).
  revert Hp. rw /pick_candidate. destruct (min_candidate _) as [[[t q] h']|] eqn:E.
  - apply min_candidate_spec in E as [_ Hmin]. apply Hmin in Hc. simpl in Hc.
    destruct (Z.ltb_spec t tip); [done|lia].
  - apply min_candidate_None in E. rw E in Hc. by apply not_elem_of_nil in Hc.
Qed.

(** ** Descendants *)

Lemma elem_of_descendants h e h' :
  entries !! h = Some e →
  h' ∈ entry_and_descendant_hashes inner h ↔
  ∃ e', entries !! h' = Some e' ∧ sender_of e' = sender_of e ∧ nonce_of e <= nonce_of e'.
Proof.
  intros He. rw /entry_and_descendant_hashes He.
  assert (Hq : queued inner (sender_of e) (nonce_of e) = Some h) by (apply (ok_sender _ _ Hok); eauto).
  rw /queued in Hq. destruct (by_sender inner !! sender_of e) as [q|] eqn:Eq; [|done].
  rw /sender_of in Eq. rw Eq list_elem_of_fmap. split.
  - intros ([n h''] & -> & [Hle Hn]%elem_of_bt_from). simpl.
    assert (Hq' : queued inner (sender_of e) n = Some h'') by (by rw /queued /sender_of Eq).
    apply (ok_sender _ _ Hok) in Hq' as (e' & ? & ? & <-). eauto.
  - intros (e' & He' & Hs & Hle). exists (nonce_of e', h'). split; [done|]. apply elem_of_bt_from.
    split; [done|].
    assert (Hq' : queued inner (sender_of e) (nonce_of e') = Some h') by (apply (ok_sender _ _ Hok); eauto).
    by rw /queued /sender_of Eq in Hq'.
Qed.

Lemma descendants_sub h : h ∈ dom entries → list_to_set (entry_and_descendant_hashes inner h) ⊆ dom entries.
Proof.
  intros [e He]%elem_of_dom h' (e' & ? & _)%elem_of_list_to_set%(elem_of_descendants _ _ _ He).
  by apply elem_of_dom.
Qed.

(** ** The loop *)

(** Why an entry goes: it is, or it builds on, a lower-paying entry. *)
Definition displaced (h : ShellHash) : Prop :=
  ∃ e hc c, entries !! h = Some e ∧ entries !! hc = Some c ∧ sender_of c = sender_of e ∧
    nonce_of c <= nonce_of e ∧ evictable c ∧ tip_of base_fee c < tip.

(** A planned eviction that starts from the set [init]. *)
Record evict_ok (init ev : gset ShellHash) (bytes : Z) : Prop := {
  ev_sub : ev ⊆ dom entries;
  ev_init : init ⊆ ev;
  ev_bytes : bytes = map_sum serialized_size (chosen ev entries);
  ev_why : ∀ h, h ∈ ev → h ∉ init → displaced h;
  ev_closed : ∀ h e h' e', h ∈ ev → h ∉ init → entries !! h = Some e → entries !! h' = Some e' →
    sender_of e' = sender_of e → nonce_of e <= nonce_of e' → h' ∈ ev;
}.

Lemma sizes_nonneg X h e : chosen X entries !! h = Some e → 0 <= serialized_size e.
Proof. intros [He _]%lookup_chosen. by eapply entry_size_nonneg. Qed.

Lemma chosen_bytes_le X : 0 <= map_sum serialized_size (chosen X entries) <= total_bytes inner.
Proof.
  rw (ok_bytes _ _ Hok) (map_sum_split serialized_size entries X).
  assert (0 <= map_sum serialized_size (chosen X entries))
    by (apply map_sum_nonneg; intros; by eapply sizes_nonneg).
  assert (0 <= map_sum serialized_size (filter (λ p, p.1 ∉ X) entries)).
  { apply map_sum_nonneg. intros k a [? _]%map_lookup_filter_Some. by eapply entry_size_nonneg. }
  lia.
Qed.

Lemma pool_bytes_u64 : in_u64 (total_bytes inner).
Proof.
  pose proof (chosen_bytes_le ∅). pose proof (ok_total _ _ Hok). pose proof (co_bytes _ Hcfg).
  unfold in_u64 in *. lia.
Qed.

Lemma add_evicted_all l ev :
  list_to_set l ⊆ dom entries →
  foldl (add_evicted inner) (ev, map_sum serialized_size (chosen ev entries)) l =
    (list_to_set l ∪ ev, map_sum serialized_size (chosen (list_to_set l ∪ ev) entries)).
Proof.
  revert ev. induction l as [|h l IH]; intros ev Hl; simpl.
  { by rw union_empty_l_L. }
  assert (Hh : h ∈ dom entries) by set_solver.
  assert (Hx : add_evicted inner (ev, map_sum serialized_size (chosen ev entries)) h =
    ({[h]} ∪ ev, map_sum serialized_size (chosen ({[h]} ∪ ev) entries))).
  { rw /add_evicted /=. case_bool_decide as Hin.
    - assert ({[h]} ∪ ev = ev) as -> by set_solver. done.
    - apply elem_of_dom in Hh as [e He]. rw He. f_equal.
      pose proof (chosen_bytes_le ({[h]} ∪ ev)) as Hle. pose proof pool_bytes_u64.
      rw (chosen_add _ _ _ e) // map_sum_insert ?chosen_lookup_None // in Hle *.
      unfold sat_add, in_u64 in *. lia. }
  rw Hx IH; [set_solver|].
  assert (list_to_set l ∪ ({[h]} ∪ ev) = {[h]} ∪ list_to_set l ∪ ev) as -> by set_solver. done.
Qed.

Lemma evict_step init ev bytes c :
  evict_ok init ev bytes → pick_candidate inner ev tip base_fee s nonce = Some c →
  ∃ ev' bytes', foldl (add_evicted inner) (ev, bytes) (entry_and_descendant_hashes inner c) = (ev', bytes') ∧
    evict_ok init ev' bytes' ∧ (size ev < size ev')%nat.
Proof.
  intros [Hsub Hini -> Hwhy Hcl] (e & He & Hnin & Hev & Htip)%pick_candidate_Some.
  assert (Hds : list_to_set (entry_and_descendant_hashes inner c) ⊆ dom entries).
  { apply descendants_sub. by apply elem_of_dom. }
  set (D := list_to_set (entry_and_descendant_hashes inner c) : gset ShellHash) in *.
  assert (HD : ∀ h, h ∈ D ↔ ∃ e', entries !! h = Some e' ∧ sender_of e' = sender_of e ∧ nonce_of e <= nonce_of e').
  { intros h. rw elem_of_list_to_set. by apply elem_of_descendants. }
  eexists _, _. split; [by apply add_evicted_all|]. split; [split|].
  - set_solver.
  - set_solver.
  - done.
  - intros h [(e' & ? & ? & ?)%HD|?]%elem_of_union Hi; [|by apply Hwhy]. by exists e', c, e.
  - intros h e1 h' e2 Hh Hi He1 He2 Hs Hn. apply elem_of_union.
    apply elem_of_union in Hh as [(e' & ? & ? & ?)%HD|Hh]; [left|right; by eapply Hcl].
    apply HD. exists e2. simplify_eq. split_and!; [done|congruence|lia].
  - apply subset_size. split; [set_solver|]. intros Hc. apply Hnin, Hc, elem_of_union. left.
    apply HD. exists e. split_and!; [done..|lia].
Qed.

(** What it means to fit. *)
Definition fits (ev : gset ShellHash) : Prop :=
  Z.of_nat (size entries) - Z.of_nat (size ev) + 1 <= max_pool_size cfg ∧
  total_bytes inner - map_sum serialized_size (chosen ev entries) + incoming <= max_pool_bytes cfg.

(** The largest set the newcomer can displace is not enough. *)
Definition refused (init : gset ShellHash) : Prop :=
  ∃ ev b, evict_ok init ev b ∧ ¬ fits ev ∧
    ∀ h e, entries !! h = Some e → h ∉ ev → evictable e → tip <= tip_of base_fee e.

#[local] Instance fits_dec ev : Decision (fits ev).
Proof. rw /fits. apply _. Defined.

(** The test the loop makes. *)
Lemma fits_test init ev b :
  evict_ok init ev b →
  (bytes ← checked_add (sat_sub (total_bytes inner) b) incoming;
   if (sat_add (sat_sub (Z.of_nat (size entries)) (Z.of_nat (size ev))) 1 <=? max_pool_size cfg) &&
      (bytes <=? max_pool_bytes cfg) then Some bytes else None) =
  if decide (fits ev) then Some (total_bytes inner - b + incoming) else None.
Proof.
  intros Hev. pose proof (subseteq_size _ _ (ev_sub _ _ _ Hev)) as Hs. rw size_dom in Hs.
  rw (ev_bytes _ _ _ Hev). pose proof (chosen_bytes_le ev). pose proof (ok_count _ _ Hok).
  destruct Hcfg as [Hc Hb]. unfold in_u64 in Hb. rw /checked_add /sat_sub !Z.max_l; [lia..|].
  rw /sat_add Z.min_l; [lia|]. case_decide as Hf; unfold fits in Hf.
  - rw (proj2 (Z.leb_le _ u64_max)); [lia|]. simpl. by rw !(proj2 (Z.leb_le _ _)); [lia..|].
  - destruct (_ <=? u64_max); [|done]. simpl.
    destruct (_ && _) eqn:E; [|done]. rw andb_true_iff !Z.leb_le in E. lia.
Qed.

(** The loop returns: room for the newcomer, or no entry left that it outbids. *)
Lemma evict_loop_spec init fuel : ∀ ev bytes,
  evict_ok init ev bytes → (size entries < fuel + size ev)%nat →
  ∃ r, evict_loop fuel cfg inner tip base_fee s nonce incoming ev bytes = Some r ∧
  (fits ev → r = Ok (ev, total_bytes inner - bytes + incoming)) ∧
  match r with
  | Ok (ev', bytes') => fits ev' ∧ ∃ b, evict_ok init ev' b ∧ bytes' = total_bytes inner - b + incoming
  | Err e => refused init ∧ (e = PoolBytesFull (max_pool_bytes cfg) ∨ e = PoolFull (max_pool_size cfg))
  end.
Proof.
  induction fuel as [|fuel IH]; intros ev bytes Hev Hfuel.
  { pose proof (subseteq_size _ _ (ev_sub _ _ _ Hev)) as Hs. rw size_dom in Hs. lia. }
  cbn [evict_loop]. cbv zeta. rw (fits_test _ _ _ Hev). case_decide as Hf.
  { eexists. split; [done|]. split; [done|]. eauto. }
  destruct (pick_candidate _ _ _ _ _ _) as [c|] eqn:Ec.
  - destruct (evict_step _ _ _ _ Hev Ec) as (ev' & bytes' & -> & Hev' & Hlt).
    destruct (IH ev' bytes' Hev' ltac:(lia)) as (r & Hr & _ & Hspec).
    exists r. split; [done|]. split; [done|]. done.
  - eexists. split; [done|]. split; [done|]. split; [|by case_match; eauto].
    exists ev, bytes. split; [done|]. split; [done|]. intros h e He Hh Hx.
    by eapply pick_candidate_None.
Qed.

(** The plan the pool starts with: nothing, or the entry to be replaced. *)
Lemma evict_start init :
  init ⊆ dom entries →
  evict_ok init init (foldl (λ total e, sat_add total (serialized_size e)) 0
    (omap (λ h, entries !! h) (elements init))).
Proof.
  intros Hi. split; try done.
  rw foldl_sat_add; [|done|].
  - intros e (h & _ & He)%list_elem_of_omap. by eapply entry_size_nonneg.
  - rw (sum_omap_elements serialized_size). pose proof (chosen_bytes_le init). pose proof pool_bytes_u64.
    unfold in_u64 in *. lia.
Qed.

Lemma capacity_evictions_spec init :
  init ⊆ dom entries →
  ∃ r, capacity_evictions cfg inner init tip base_fee s nonce incoming = Some r ∧
  (fits init → ∃ bytes, r = Ok (init, bytes)) ∧
  match r with
  | Ok (ev', bytes') => fits ev' ∧ ∃ b, evict_ok init ev' b ∧ bytes' = total_bytes inner - b + incoming
  | Err e => refused init ∧ (e = PoolBytesFull (max_pool_bytes cfg) ∨ e = PoolFull (max_pool_size cfg))
  end.
Proof.
  intros Hi. rw /capacity_evictions.
  destruct (evict_loop_spec init (S (size entries)) _ _ (evict_start init Hi) ltac:(lia)) as (r & ? & Hf & ?).
  exists r. split; [done|]. split; [|done]. intros Hfit. eauto.
Qed.
End eviction.
