(* ===== verification/MempoolInsert.v ===== *)
(** * Insertion into the pool

    Insertion keeps the invariant, never spends more than an account has, makes
    a replacement pay for itself, and displaces only what the newcomer outbids. *)

From S2P Require Import Prelude Primitives Block Fee Rlp Transaction TxHash TxValidation BTree Mempool.
From S2P Require Import MempoolInv MempoolEvict.

Section insertion.
Context {R : Rlp} {H : Hashes} {U : U256Ops} (cfg : MempoolConfig) (Hcfg : config_ok cfg).
Local Abbreviation pool_ok := (pool_ok cfg).

(** ** Adding an entry *)

(** The queue of a sender, empty when it has none. *)
Definition queue_of (inner : PoolInner) (s : Address) : gmap Z ShellHash :=
  unwrap_or ∅ (by_sender inner !! s).

Lemma queued_queue inner s n : queued inner s n = queue_of inner s !! n.
Proof. rw /queued /queue_of. by destruct (by_sender inner !! s). Qed.

(** The slot the newcomer takes is free and the limits leave room for it. *)
Record insertable (inner : PoolInner) (t : SignedTransaction) (sz bytes : Z) : Prop := {
  in_typed : pool_typed t;
  in_size : 0 <= sz <= MAX_TX_SIZE;
  in_fresh : by_hash inner !! tx_hash t = None;
  in_slot : queued inner (sender t) (tx_nonce (st_tx t)) = None;
  in_queue : Z.of_nat (size (queue_of inner (sender t))) < max_per_sender cfg;
  in_count : Z.of_nat (size (by_hash inner)) < max_pool_size cfg;
  in_bytes : bytes = total_bytes inner + sz ∧ bytes <= max_pool_bytes cfg;
  in_seq : pool_seq inner + 1 <= u64_max;
}.

Section add.
Context (inner : PoolInner) (t : SignedTransaction) (sz bytes : Z) (root : option ShellHash).
Context (Hok : pool_ok inner) (Hin : insertable inner t sz bytes).
Local Abbreviation inner' :=
  (insert_entry inner t sz bytes root (pool_seq inner) (pool_seq inner + 1)).
Local Abbreviation key := (MkPriorityKey (- max_priority_fee_per_gas (st_tx t)) (pool_seq inner)).
Local Abbreviation entry := (MkPoolEntry t key sz root).

Lemma lookup_inserted h e :
  by_hash inner' !! h = Some e ↔ (h = tx_hash t ∧ e = entry) ∨ by_hash inner !! h = Some e.
Proof.
  cbn [insert_entry by_hash]. rw lookup_insert_Some. pose proof (in_fresh _ _ _ _ Hin).
  destruct (decide (tx_hash t = h)) as [<-|]; naive_solver.
Qed.

Lemma inserted_queue s n :
  queued inner' s n =
    if decide (s = sender t ∧ n = tx_nonce (st_tx t)) then Some (tx_hash t) else queued inner s n.
Proof.
  rw !queued_queue /queue_of. cbn [insert_entry by_sender].
  destruct (decide (s = sender t)) as [->|Hs].
  - rw lookup_insert_eq /=. destruct (decide (n = tx_nonce (st_tx t))) as [->|Hn].
    + by rw lookup_insert_eq decide_True.
    + rw lookup_insert_ne // decide_False //. by intros [_ ?].
  - rw lookup_insert_ne // decide_False //. by intros [? _].
Qed.

Lemma inserted_queues s q :
  by_sender inner' !! s = Some q → q ≠ ∅ ∧ Z.of_nat (size q) <= max_per_sender cfg.
Proof.
  cbn [insert_entry by_sender]. intros [[<- <-]|[_ Hq]]%lookup_insert_Some; [|by eapply ok_queues].
  split; [apply insert_non_empty|]. pose proof (in_queue _ _ _ _ Hin) as Hq.
  rw map_size_insert_None; [|unfold queue_of in Hq; lia].
  pose proof (in_slot _ _ _ _ Hin) as Hs. by rw queued_queue in Hs.
Qed.

Lemma inserted_priority k h :
  by_priority inner' !! k = Some h ↔ ∃ e, by_hash inner' !! h = Some e ∧ priority_key e = k.
Proof.
  setoid_rewrite lookup_inserted. cbn [insert_entry by_priority]. rw lookup_insert_Some (ok_priority _ _ Hok).
  split.
  - intros [[<- <-]|[_ (e & ? & <-)]]; [exists entry|exists e]; auto.
  - intros (e & [[-> ->]|He] & <-); [by left|right]. split; [|eauto].
    intros Hk. destruct (ok_entries _ _ Hok _ _ He) as [_ _ _ _ Hs]. rw -Hk /= in Hs. lia.
Qed.

Lemma inserted_reserved a :
  reserved_as (reserved_by_account inner' !! a)
    (map_sum (λ e, reservation_cost_for (entry_tx e) a) (by_hash inner')).
Proof.
  cbn [insert_entry by_hash reserved_by_account].
  rw map_sum_insert; [apply (in_fresh _ _ _ _ Hin)|]. cbn [entry_tx].
  pose proof (in_typed _ _ _ _ Hin) as Ht. rw reservation_cost_for_owed // Z.add_comm.
  apply (foldl_add_reservation _ _
    (λ a, map_sum (λ e, reservation_cost_for (entry_tx e) a) (by_hash inner))).
  - apply (ok_reserved _ _ Hok).
  - by apply reservation_costs_ok.
  - intros b. rw -reservation_cost_for_owed //. pose proof (reservation_cost_range t b Ht).
    assert (map_sum (λ e, reservation_cost_for (entry_tx e) b) (by_hash inner) <=
      u256_max * Z.of_nat (size (by_hash inner))).
    { apply map_sum_le_size. intros. eapply entry_cost_range; eauto. }
    pose proof (in_count _ _ _ _ Hin). pose proof (co_size _ Hcfg). unfold u256_max, u64_max in *. lia.
Qed.

Lemma insert_entry_ok : pool_ok inner'.
Proof.
  split.
  - intros h e [[-> ->]|He]%lookup_inserted.
    + destruct Hin. pose proof (ok_seq _ _ Hok) as Hs. unfold in_u64 in Hs.
      split; cbn [insert_entry pool_seq entry_tx serialized_size priority_key neg_priority_fee key_seq]; try done. lia.
    + destruct (ok_entries _ _ Hok h e He). split; try done. cbn [insert_entry pool_seq]. lia.
  - intros s n h. rw inserted_queue. setoid_rewrite lookup_inserted. case_decide as E.
    + destruct E as [-> ->]. split; [intros [= <-]; exists entry; auto|].
      intros (e & [[-> ->]|He] & Hs & Hn); [done|].
      assert (queued inner (sender t) (tx_nonce (st_tx t)) = Some h) as Hq by (apply (ok_sender _ _ Hok); eauto).
      by rw (in_slot _ _ _ _ Hin) in Hq.
    + rw (ok_sender _ _ Hok). split; [naive_solver|].
      intros (e & [[-> ->]|He] & Hs & Hn); [|eauto]. by destruct E.
  - apply inserted_queues.
  - apply inserted_priority.
  - intros h e h' e' [[-> ->]|He]%lookup_inserted [[-> ->]|He']%lookup_inserted; [done|..]; simpl; intros Hs.
    + pose proof (eo_seq _ _ _ (ok_entries _ _ Hok _ _ He')). lia.
    + pose proof (eo_seq _ _ _ (ok_entries _ _ Hok _ _ He)). lia.
    + by eapply (ok_arrival _ _ Hok).
  - cbn [insert_entry by_hash total_bytes]. rw map_sum_insert; [apply (in_fresh _ _ _ _ Hin)|].
    rw (proj1 (in_bytes _ _ _ _ Hin)) (ok_bytes _ _ Hok). cbn [serialized_size]. lia.
  - apply inserted_reserved.
  - cbn [insert_entry by_hash]. rw map_size_insert_None; [apply (in_fresh _ _ _ _ Hin)|].
    pose proof (in_count _ _ _ _ Hin). lia.
  - apply (in_bytes _ _ _ _ Hin).
  - pose proof (ok_seq _ _ Hok). pose proof (in_seq _ _ _ _ Hin). cbn [insert_entry pool_seq].
    unfold in_u64 in *. lia.
Qed.
End add.

(** ** The plan *)

Definition replaced (inner : PoolInner) (t : SignedTransaction) : gset ShellHash :=
  match existing_entry inner t with Some h => {[h]} | None => ∅ end.

Definition incoming_tip (base_fee : Z) (t : SignedTransaction) : Z :=
  miner_tip (max_fee_per_gas (st_tx t)) (max_priority_fee_per_gas (st_tx t)) base_fee.

Lemma existing_queued inner t : existing_entry inner t = queued inner (sender t) (tx_nonce (st_tx t)).
Proof. done. Qed.

Lemma replaced_sub inner t : pool_ok inner → replaced inner t ⊆ dom (by_hash inner).
Proof.
  intros Hok. rw /replaced existing_queued. destruct (queued _ _ _) as [h|] eqn:E; [|set_solver].
  apply (ok_sender _ _ Hok) in E as (e & He & _). apply singleton_subseteq_l. by apply elem_of_dom.
Qed.

(** What a successful plan guarantees. *)
Record planned (env : PoolEnv) (inner : PoolInner) (t : SignedTransaction) (sz base_fee chain_nonce : Z)
    (ev : gset ShellHash) (bytes : Z) : Prop := {
  pl_fresh : by_hash inner !! tx_hash t = None;
  pl_slot : check_slot cfg inner t (existing_entry inner t) chain_nonce = Ok tt;
  pl_queue : existing_entry inner t = None →
    Z.of_nat (size (queue_of inner (sender t))) < max_per_sender cfg;
  pl_fits : fits cfg inner sz ev;
  pl_evict : ∃ b, evict_ok inner (incoming_tip base_fee t) base_fee (sender t) (tx_nonce (st_tx t))
    (replaced inner t) ev b ∧ bytes = total_bytes inner - b + sz;
  pl_minimal : fits cfg inner sz (replaced inner t) → ev = replaced inner t;
  pl_balance : check_reserved env inner ev (reservation_costs t) = Ok tt;
}.

Lemma insert_plan_spec env inner t sz base_fee chain_nonce :
  pool_ok inner → 0 <= sz →
  ∃ r, insert_plan cfg env inner t sz base_fee chain_nonce = Some r ∧
    match r with
    | Ok (ev, bytes) => planned env inner t sz base_fee chain_nonce ev bytes
    | Err e => True
    end.
Proof.
  intros Hok Hsz. rw /insert_plan. cbv zeta. case_bool_decide as Hdup; [by eexists|].
  destruct (check_slot _ _ _ _ _) as [[]|e] eqn:Eslot; [|by eexists].
  destruct (_ && _) eqn:Eq; [by eexists|].
  destruct (capacity_evictions_spec cfg inner Hok Hcfg (incoming_tip base_fee t) base_fee (sender t)
    (tx_nonce (st_tx t)) sz Hsz (replaced inner t) (replaced_sub _ _ Hok)) as (r & Hr & Hmin & Hspec).
  rw /replaced in Hr. rw /incoming_tip in Hr. rw Hr /=. eexists. split; [done|].
  destruct r as [[ev bytes]|e]; [|done]. simpl. rw /ensure_pending_balance_available.
  destruct (check_reserved _ _ _ _) as [[]|] eqn:Eb; [|done]. destruct Hspec as (Hf & b & Hev & Hb).
  split; try done.
  - by apply eq_None_not_Some.
  - intros Hn. revert Eq. rw Hn bool_decide_eq_true_2 // andb_true_l Z.leb_gt /queue_of.
    by destruct (by_sender inner !! sender t).
  - eauto.
  - intros Hfit. by destruct (Hmin Hfit) as (? & [= -> ->]).
Qed.

(** After the planned removals the newcomer fits. *)
Section removed.
Context (env : PoolEnv) (inner : PoolInner) (t : SignedTransaction) (sz base_fee chain_nonce : Z).
Context (ev : gset ShellHash) (bytes : Z) (Hok : pool_ok inner).
Context (Hpl : planned env inner t sz base_fee chain_nonce ev bytes).
Local Abbreviation rest := (remove_all inner (elements ev)).

Lemma rest_by_hash : by_hash rest = filter (λ p, p.1 ∉ ev) (by_hash inner).
Proof. rw remove_all_by_hash. apply map_filter_ext. intros h e _. by rw /= elem_of_elements. Qed.

Lemma lookup_rest h e : by_hash rest !! h = Some e ↔ by_hash inner !! h = Some e ∧ h ∉ ev.
Proof. by rw rest_by_hash map_lookup_filter_Some. Qed.

Lemma rest_queued s n h : queued rest s n = Some h ↔ queued inner s n = Some h ∧ h ∉ ev.
Proof.
  rw (ok_sender _ _ (remove_all_ok _ _ _ Hok)) (ok_sender _ _ Hok). setoid_rewrite lookup_rest. naive_solver.
Qed.

Lemma rest_slot : queued rest (sender t) (tx_nonce (st_tx t)) = None.
Proof.
  apply eq_None_not_Some. intros [h [Hq Hh]%rest_queued]. apply Hh.
  destruct (pl_evict _ _ _ _ _ _ _ _ Hpl) as (b & Hev & _). apply (ev_init _ _ _ _ _ _ _ _ Hev).
  rw /replaced existing_queued Hq. set_solver.
Qed.

Lemma rest_queue : Z.of_nat (size (queue_of rest (sender t))) < max_per_sender cfg.
Proof.
  assert (Hsub : queue_of rest (sender t) ⊆ delete (tx_nonce (st_tx t)) (queue_of inner (sender t))).
  { apply map_subseteq_spec. intros n h Hn. apply lookup_delete_Some. rw -queued_queue in Hn *.
    split; [|by rw -queued_queue; apply rest_queued]. intros <-. by rw rest_slot in Hn. }
  apply map_subseteq_size in Hsub.
  destruct (existing_entry inner t) as [h|] eqn:E.
  - rw existing_queued queued_queue in E.
    rw map_size_delete_Some // in Hsub. assert (Hne : size (queue_of inner (sender t)) ≠ 0%nat).
    { intros Hz%map_size_empty_inv. by rw Hz lookup_empty in E. }
    rw /queue_of in Hne Hsub *. destruct (by_sender inner !! sender t) as [q|] eqn:Eq; [|done].
    pose proof (proj2 (ok_queues _ _ Hok _ _ Eq)). simpl in *. lia.
  - pose proof (pl_queue _ _ _ _ _ _ _ _ Hpl E). rw existing_queued queued_queue in E.
    rw map_size_delete_None // in Hsub. lia.
Qed.

Lemma rest_insertable :
  pool_typed t → 0 <= sz <= MAX_TX_SIZE → pool_seq inner + 1 <= u64_max → insertable rest t sz bytes.
Proof.
  intros Ht Hsz Hseq. destruct (pl_evict _ _ _ _ _ _ _ _ Hpl) as (b & Hev & Hb).
  pose proof (ev_sub _ _ _ _ _ _ _ _ Hev) as Hsub. destruct (pl_fits _ _ _ _ _ _ _ _ Hpl) as [Hc Hby].
  split; try done.
  - apply eq_None_not_Some. intros [e [He _]%lookup_rest]. by rw (pl_fresh _ _ _ _ _ _ _ _ Hpl) in He.
  - apply rest_slot.
  - apply rest_queue.
  - rw rest_by_hash. pose proof (filter_notin_size _ _ Hsub). lia.
  - assert (total_bytes rest = total_bytes inner - b) as ->.
    { rw (ok_bytes _ _ (remove_all_ok _ _ _ Hok)) rest_by_hash (ok_bytes _ _ Hok).
      rw (map_sum_split serialized_size (by_hash inner) ev) (ev_bytes _ _ _ _ _ _ _ _ Hev). lia. }
    rw (ev_bytes _ _ _ _ _ _ _ _ Hev) in Hb *. lia.
  - by rw remove_all_seq.
Qed.
End removed.

(** ** The whole insertion *)

Lemma validate_stateless_size env t sz base_fee root :
  validate_stateless cfg env t = Ok (sz, base_fee, root) →
  pe_serialized_size env t = Some sz ∧ sz <= MAX_TX_SIZE.
Proof.
  rw /validate_stateless. cbv zeta. rw guard_ok bind_unit_ok bind_ok.
  intros (_ & _ & bf & _ & Hk). revert Hk. rw !guard_ok !bind_unit_ok bind_ok.
  intros (_ & _ & _ & _ & g & _ & Hk). revert Hk. rw bind_ok. intros (i & _ & Hk). revert Hk.
  rw guard_ok bind_ok. intros (_ & x & Hx & Hk). revert Hk. rw guard_ok Z.ltb_ge bind_ok.
  intros (Hle & o & _ & Hk). revert Hk. rw bind_ok. intros (a & _ & [= <- _ _]).
  split; [|done]. by destruct (pe_serialized_size env t); simplify_eq/=.
Qed.

(** What a successful insertion did. *)
Record inserted (env : PoolEnv) (inner : PoolInner) (t : SignedTransaction) (ev : gset ShellHash)
    (inner' : PoolInner) : Prop := {
  is_plan : ∃ sz base_fee root chain_nonce bytes,
    insert_prepare cfg env t = Ok (sz, base_fee, root, chain_nonce) ∧
    planned env inner t sz base_fee chain_nonce ev bytes ∧
    inner' = insert_entry (remove_all inner (elements ev)) t sz bytes root (pool_seq inner)
      (pool_seq inner + 1);
}.

(** The sizes [serde_json] reports are [usize] values. *)
Definition size_typed (env : PoolEnv) : Prop := ∀ t sz, pe_serialized_size env t = Some sz → 0 <= sz.

Lemma pool_insert_spec env inner t :
  pool_ok inner → pool_typed t → size_typed env →
  ∃ r inner', pool_insert cfg env inner t = Some (r, inner') ∧ pool_ok inner' ∧
    match r with
    | Ok h => h = tx_hash t ∧ ∃ ev, inserted env inner t ev inner'
    | Err _ => inner' = inner
    end.
Proof.
  intros Hok Ht Hst. rw /pool_insert.
  destruct (insert_prepare cfg env t) as [[[[sz base_fee] root] chain_nonce]|e] eqn:Ep;
    [|by eexists _, _].
  assert (Hsz : 0 <= sz <= MAX_TX_SIZE).
  { move: Ep. rw /insert_prepare bind_ok. intros ([[sz' bf] rt] & Hv & Hk). revert Hk.
    rw bind_unit_ok guard_ok bind_ok. intros (_ & _ & n & _ & [= <- <- <- <-]).
    apply validate_stateless_size in Hv as [? ?]. split; [by eapply Hst|done]. }
  destruct (insert_plan_spec env inner t sz base_fee chain_nonce Hok ltac:(lia)) as (r & -> & Hr). simpl.
  destruct r as [[ev bytes]|e]; [|by eexists _, _].
  rw /checked_add. destruct (Z.leb_spec (pool_seq inner + 1) u64_max); [|by eexists _, _].
  eexists _, _. split; [done|]. split.
  - rw -(remove_all_seq inner (elements ev)). apply insert_entry_ok; [by apply remove_all_ok|].
    by eapply rest_insertable.
  - split; [done|]. exists ev. split. by eexists _, _, _, _, _.
Qed.

(** The entries afterwards. *)
Lemma inserted_lookup env inner t ev inner' h e :
  inserted env inner t ev inner' →
  by_hash inner' !! h = Some e →
  (h = tx_hash t ∧ entry_tx e = t) ∨ by_hash inner !! h = Some e ∧ h ∉ ev.
Proof.
  intros [(sz & bf & root & n & bytes & _ & Hpl & ->)]. cbn [insert_entry by_hash].
  intros [[<- <-]|[_ He]]%lookup_insert_Some; [by left|right]. by apply lookup_rest.
Qed.

(** ** Solvency *)

(** What the pool has reserved of an account. *)
Definition reserved_of (inner : PoolInner) (a : Address) : Z :=
  map_sum (λ e, reservation_cost_for (entry_tx e) a) (by_hash inner).

Lemma foldl_subtract_reserves a l : ∀ t v,
  reserves t v → (∀ e, e ∈ l → 0 <= reservation_cost_for (entry_tx e) a <= u256_max) →
  sumZ (λ e, reservation_cost_for (entry_tx e) a) l <= v →
  reserves (foldl (λ t e, reservation_subtract t (reservation_cost_for (entry_tx e) a)) t l)
    (v - sumZ (λ e, reservation_cost_for (entry_tx e) a) l).
Proof.
  induction l as [|e l IH]; intros t v Hr Hl Hv; simpl; [by rw sumZ_nil Z.sub_0_r|].
  rw sumZ_cons in Hv *. assert (0 <= sumZ (λ e, reservation_cost_for (entry_tx e) a) l).
  { apply sumZ_nonneg. intros. apply Hl. by right. }
  rw Z.sub_add_distr. apply IH; [|intros; apply Hl; by right|lia].
  apply reserves_subtract; [done|apply Hl; left|lia].
Qed.

Lemma reserved_excluding inner a ev :
  pool_ok inner →
  reserves (reserved_total_excluding inner a ev)
    (map_sum (λ e, reservation_cost_for (entry_tx e) a) (filter (λ p, p.1 ∉ ev) (by_hash inner))).
Proof.
  intros Hok. set (f := λ e, reservation_cost_for (entry_tx e) a).
  assert (Hs : map_sum f (filter (λ p, p.1 ∉ ev) (by_hash inner)) =
    reserved_of inner a - sumZ f (omap (λ h, by_hash inner !! h) (elements ev))).
  { rw (sum_omap_elements f) /reserved_of (map_sum_split f (by_hash inner) ev). lia. }
  rw Hs. apply foldl_subtract_reserves.
  - apply (ok_reserved _ _ Hok).
  - intros e (h & _ & He)%list_elem_of_omap. by eapply entry_cost_range.
  - rw (sum_omap_elements f) /reserved_of (map_sum_split f (by_hash inner) ev).
    assert (0 <= map_sum f (filter (λ p, p.1 ∉ ev) (by_hash inner))); [|lia].
    apply map_sum_nonneg. intros k e [He _]%map_lookup_filter_Some. subst f. simpl.
    pose proof (entry_cost_range _ _ a _ _ Hok He). lia.
Qed.

(** A nonzero cost is all its account owes. *)
Lemma cost_is_owed t a c :
  pool_typed t → (a, c) ∈ reservation_costs t → c ≠ 0 → reservation_cost_for t a = c.
Proof.
  intros Ht Hin Hc. rw reservation_cost_for_owed //. revert Hin. rw /reservation_costs.
  case_bool_decide as Hp; rw !elem_of_cons elem_of_nil !sumZ_cons sumZ_nil /owed /=;
    intros [[= -> ->]|[[= -> ->]|[]]]; repeat case_decide; try congruence; lia.
Qed.

Lemma check_reserved_ok env inner ev l a c :
  check_reserved env inner ev l = Ok tt → (a, c) ∈ l → c ≠ 0 →
  ∃ b, pe_balance env a = Ok b ∧
    overflow_units (reservation_add (reserved_total_excluding inner a ev) c) <= 0 ∧
    saturating_u256 (reservation_add (reserved_total_excluding inner a ev) c) <= b.
Proof.
  induction l as [|[a' c'] l IH]; intros Hk Hin Hc; [by apply not_elem_of_nil in Hin|].
  cbn [check_reserved] in Hk. cbv zeta in Hk. destruct (Z.eqb_spec c' 0) as [->|Hc'].
  { apply elem_of_cons in Hin as [[= -> ->]|Hin]; [done|by apply IH]. }
  apply bind_ok in Hk as (b & Hb%map_err_ok & Hk). apply guard_ok in Hk as [Hg Hk].
  apply orb_false_iff in Hg as [?%Z.ltb_ge ?%Z.ltb_ge].
  apply elem_of_cons in Hin as [[= -> ->]|Hin]; [|by apply IH]. eauto.
Qed.

Lemma inserted_solvent env inner t ev inner' a c :
  pool_ok inner → pool_typed t → size_typed env → inserted env inner t ev inner' →
  (a, c) ∈ reservation_costs t → c ≠ 0 →
  ∃ b, pe_balance env a = Ok b ∧ reserved_of inner' a <= b.
Proof.
  intros Hok Ht Hst [(sz & bf & root & n & bytes & _ & Hpl & ->)] Hin Hc.
  destruct (check_reserved_ok _ _ _ _ _ _ (pl_balance _ _ _ _ _ _ _ _ Hpl) Hin Hc) as (b & Hb & Ho & Hs).
  exists b. split; [done|]. rw /reserved_of. cbn [insert_entry by_hash].
  rw map_sum_insert; [|cbn [entry_tx]; rw (cost_is_owed _ _ _ Ht Hin Hc)].
  { apply eq_None_not_Some. intros [e [He _]%lookup_rest]. by rw (pl_fresh _ _ _ _ _ _ _ _ Hpl) in He. }
  rw rest_by_hash Z.add_comm. set (v := map_sum _ _).
  pose proof (reserved_excluding inner a ev Hok) as Hr. fold v in Hr.
  assert (Hcr : 0 <= c <= u256_max) by apply (reservation_costs_ok t Ht _ Hin).
  assert (v + c < u64_max * 2 ^ 256).
  { assert (v <= u256_max * Z.of_nat (size (filter (λ p, p.1 ∉ ev) (by_hash inner)))).
    { apply map_sum_le_size. intros k e [He _]%map_lookup_filter_Some.
      pose proof (entry_cost_range _ _ a _ _ Hok He). lia. }
    pose proof (map_size_filter (λ p : ShellHash * PoolEntry, p.1 ∉ ev) (by_hash inner)).
    pose proof (ok_count _ _ Hok). pose proof (co_size _ Hcfg). unfold u256_max, u64_max in *. lia. }
  pose proof (reserves_add _ _ _ Hr Hcr ltac:(done)) as Hra.
  assert (Hz : overflow_units (reservation_add (reserved_total_excluding inner a ev) c) = 0)
    by (destruct Hra as (_ & _ & ?); lia).
  destruct Hra as (Hv & _ & _). rw /saturating_u256 Hz Z.eqb_refl in Hs. rw Hz in Hv. lia.
Qed.
End insertion.
