(* ===== verification/MempoolProps.v ===== *)
(** * Correctness of the transaction pool

    The pool as a state machine over its operations, and what holds in every
    state it can reach. *)

From S2P Require Import Prelude Primitives Block Fee Rlp RlpImpl Transaction TxHash TxValidation BTree.
From S2P Require Import Mempool MempoolInv MempoolEvict MempoolInsert.

(** ** The state machine

    Pruning reads the chain before it takes the lock: its steps carry whatever
    was read, so that other operations may come in between. *)

Inductive PoolOp :=
| OpInsert (env : PoolEnv) (t : SignedTransaction)
| OpRemove (hash : ShellHash)
| OpRemoveWithDescendants (hash : ShellHash)
| OpRemoveBatch (hashes : list ShellHash)
| OpPruneNonces (canonical : gmap Address Z)
| OpPruneRoots (roots : gmap Address ShellHash)
| OpClear.

Section machine.
Context {R : Rlp} {H : Hashes} {U : U256Ops} (cfg : MempoolConfig).

Definition pool_step (inner : PoolInner) (op : PoolOp) : option PoolInner :=
  match op with
  | OpInsert env t => snd <$> pool_insert cfg env inner t
  | OpRemove h => Some (pool_remove inner h).1
  | OpRemoveWithDescendants h => Some (remove_with_descendants inner h).1
  | OpRemoveBatch l => Some (remove_batch inner l)
  | OpPruneNonces c => Some (prune_below inner c).1
  | OpPruneRoots r => Some (prune_roots inner r).1
  | OpClear => Some (pool_clear inner)
  end.

Definition pool_run (ops : list PoolOp) (inner : PoolInner) : option PoolInner :=
  foldl (λ o op, i ← o; pool_step i op) (Some inner) ops.

(** Values in the ranges of their types. *)
Definition op_typed (op : PoolOp) : Prop :=
  match op with OpInsert env t => pool_typed t ∧ size_typed env | _ => True end.

Definition pool_reachable (inner : PoolInner) : Prop :=
  ∃ ops, Forall op_typed ops ∧ pool_run ops pool_new = Some inner.

(** ** Every operation keeps the invariant *)

Lemma remove_descendants_ok inner h :
  pool_ok cfg inner → pool_ok cfg (remove_entry_and_descendants inner h).1.
Proof. rw remove_descendants_all. apply remove_all_ok. Qed.

Lemma remove_stale_fst p h : (remove_stale p h).1 = (remove_entry_and_descendants p.1 h).1.
Proof. rw /remove_stale. by destruct (remove_entry_and_descendants p.1 h). Qed.

Lemma foldl_remove_stale_ok l : ∀ p, pool_ok cfg p.1 → pool_ok cfg (foldl remove_stale p l).1.
Proof.
  induction l as [|h l IH]; intros p Hp; [done|]. apply IH. rw remove_stale_fst.
  by apply remove_descendants_ok.
Qed.

Lemma pool_clear_ok inner : config_ok cfg → pool_ok cfg (pool_clear inner).
Proof. intros Hc. destruct (pool_new_ok cfg Hc). by split. Qed.

Lemma pool_step_ok inner op :
  config_ok cfg → pool_ok cfg inner → op_typed op →
  ∃ inner', pool_step inner op = Some inner' ∧ pool_ok cfg inner'.
Proof.
  intros Hc Hok Hop. destruct op as [env t|h|h|l|c|r|]; simpl in Hop |- *.
  - destruct Hop as [Ht Hst]. destruct (pool_insert_spec cfg Hc env inner t Hok Ht Hst) as (r & i & -> & ? & _).
    by eexists.
  - eexists. split; [done|]. rw /pool_remove. pose proof (remove_entry_ok cfg inner h Hok) as Hr.
    destruct (remove_entry inner h). by apply reset_seq_ok.
  - eexists. split; [done|]. rw /remove_with_descendants.
    pose proof (remove_descendants_ok inner h Hok) as Hr.
    destruct (remove_entry_and_descendants inner h). by apply reset_seq_ok.
  - eexists. split; [done|]. by apply reset_seq_ok, remove_all_ok.
  - eexists. split; [done|]. by apply reset_seq_ok, remove_all_ok.
  - eexists. split; [done|]. rw /prune_roots.
    pose proof (foldl_remove_stale_ok
      (map_to_list (filter (λ p, root_stale r p.2 = true) (by_hash inner))).*1 (inner, 0) Hok) as Hr.
    destruct (foldl _ _ _). by apply reset_seq_ok.
  - eexists. split; [done|]. by apply pool_clear_ok.
Qed.

Lemma pool_run_app ops op inner : pool_run (ops ++ [op]) inner = i ← pool_run ops inner; pool_step i op.
Proof. by rw /pool_run foldl_app. Qed.

Lemma pool_run_ok ops :
  config_ok cfg → Forall op_typed ops → ∃ inner, pool_run ops pool_new = Some inner ∧ pool_ok cfg inner.
Proof.
  intros Hc. induction ops as [|op ops IH] using rev_ind; intros Hops.
  { exists pool_new. split; [done|by apply pool_new_ok]. }
  apply Forall_app in Hops as [Hops Hop]. apply Forall_cons in Hop as [Hop _]. destruct (IH Hops) as (i & Hi & Hok).
  rw pool_run_app Hi. exact (pool_step_ok i op Hc Hok Hop).
Qed.

Lemma reachable_ok inner : config_ok cfg → pool_reachable inner → pool_ok cfg inner.
Proof. intros Hc (ops & Hops & Hr). destruct (pool_run_ok ops Hc Hops) as (i & ? & ?). congruence. Qed.
End machine.

(** ** Replacement fees *)

(** [new] beats [old] by the configured percentage. *)
Definition outbids (bump old new : Z) : Prop :=
  old * (100 + bump) <= new * 100 ∧ (bump ≠ 0 → old < new).

Lemma checked_u128_Some x y : checked_u128 x = Some y → y = x.
Proof. rw /checked_u128. by case_match; intros [= <-]. Qed.

Lemma replacement_fee_bound old bump required :
  0 <= old → 0 <= bump → replacement_fee_required old bump = Some required →
  outbids bump old required.
Proof.
  intros Ho Hb. rw /replacement_fee_required /outbids. destruct (Z.eqb_spec bump 0) as [->|Hne].
  { intros [= <-]. lia. }
  intros (m & ->%checked_u128_Some & Hq)%bind_Some. apply bind_Some in Hq as (n & ->%checked_u128_Some & Hq).
  apply bind_Some in Hq as (u & ->%checked_u128_Some & Hq). apply bind_Some in Hq as (v & ->%checked_u128_Some & Hq).
  revert Hq. rw /u64_try_from. destruct (_ && _); [|done]. intros [= <-]. pose proof (Z.div_mod (old * (bump + 100) + 99) 100 ltac:(done)).
  pose proof (Z.mod_pos_bound (old * (bump + 100) + 99) 100 ltac:(done)). lia.
Qed.

Lemma check_bumps_ok bump pairs old new :
  0 <= bump → check_bumps bump pairs = Ok tt → (old, new) ∈ pairs → 0 <= old → outbids bump old new.
Proof.
  intros Hb. induction pairs as [|[o n] pairs IH]; cbn [check_bumps]; intros Hk Hin Ho.
  { by apply not_elem_of_nil in Hin. }
  destruct (replacement_fee_required o bump) as [required|] eqn:Er; [|done].
  apply guard_ok in Hk as [Hn%Z.ltb_ge Hk].
  apply elem_of_cons in Hin as [[= -> ->]|Hin]; [|by apply IH].
  destruct (replacement_fee_bound _ _ _ Ho Hb Er) as [? ?]. split; [lia|]. intros. lia.
Qed.

(** ** Pruning *)

Section pruning.
Context {R : Rlp} {H : Hashes} (cfg : MempoolConfig).
Implicit Types (inner : PoolInner) (h : ShellHash) (e : PoolEntry).

Lemma reset_seq_by_hash inner : by_hash (reset_seq inner) = by_hash inner.
Proof. rw /reset_seq. by case_bool_decide. Qed.

Lemma remove_all_lookup inner l h e :
  by_hash (remove_all inner l) !! h = Some e ↔ by_hash inner !! h = Some e ∧ h ∉ l.
Proof. by rw remove_all_by_hash map_lookup_filter_Some. Qed.

Lemma sender_queued inner h e :
  pool_ok cfg inner → by_hash inner !! h = Some e → queued inner (sender_of e) (nonce_of e) = Some h.
Proof. intros Hok He. apply (ok_sender _ _ Hok). eauto. Qed.

(** The entries below the nonce read for their sender. *)
Lemma prune_below_lookup inner c h e :
  pool_ok cfg inner →
  by_hash (prune_below inner c).1 !! h = Some e ↔
  by_hash inner !! h = Some e ∧ ∀ n, c !! sender_of e = Some n → n <= nonce_of e.
Proof.
  intros Hok. rw /prune_below. cbn [fst]. rw reset_seq_by_hash remove_all_lookup.
  split; intros [He Hx]; (split; [done|]).
  - intros n Hn. apply Z.nlt_ge. intros Hlt. apply Hx. apply list_elem_of_bind.
    exists (sender_of e, n). rw elem_of_map_to_list. split; [|done].
    pose proof (sender_queued _ _ _ Hok He) as Hq. rw /queued in Hq.
    destruct (by_sender inner !! sender_of e) as [q|]; [|done]. apply list_elem_of_fmap.
    exists (nonce_of e, h). split; [done|]. apply elem_of_bt_below. split; [lia|done].
  - intros ([s n] & Hin & Hn%elem_of_map_to_list)%list_elem_of_bind.
    destruct (by_sender inner !! s) as [q|] eqn:Eq; [|by apply not_elem_of_nil in Hin].
    apply list_elem_of_fmap in Hin as ([k h'] & -> & [Hk Hq]%elem_of_bt_below).
    assert (Hs : queued inner s k = Some h') by (by rw /queued Eq).
    apply (ok_sender _ _ Hok) in Hs as (e' & He' & <- & <-). simpl in He. simplify_eq.
    by apply Hk, Hx.
Qed.

Lemma canonical_nonces_lookup get_nonce X s n :
  canonical_nonces get_nonce X !! s = Some n ↔ s ∈ X ∧ get_nonce s = Ok n.
Proof.
  rw /canonical_nonces lookup_omap_Some. setoid_rewrite lookup_set_to_map; [|done]. split.
  - intros (r & Hr & s' & Hs & [= -> <-]). by destruct (get_nonce s); simplify_eq.
  - intros [Hs Hn]. exists (Ok n). split; [done|]. exists s. by rw Hn.
Qed.

Lemma canonical_roots_lookup get_account X s r :
  canonical_roots get_account X !! s = Some r ↔
  s ∈ X ∧ r ≠ ZERO ∧ get_account s = Ok (Some (MkAccountView r None)).
Proof.
  rw /canonical_roots lookup_omap_Some. setoid_rewrite lookup_set_to_map; [|done]. split.
  - intros (x & Hx & s' & Hs & [= -> <-]). destruct (get_account s) as [[[pk code]|]|]; [|done..].
    simpl in Hx. repeat case_bool_decide; simplify_eq/=. done.
  - intros (Hs & Hr & Ha). exists (get_account s). split; [|by exists s].
    rw Ha. cbn [validation_code_hash pq_pubkey_hash]. by rw !bool_decide_eq_true_2.
Qed.

Lemma sender_in_dom inner h e :
  pool_ok cfg inner → by_hash inner !! h = Some e → sender_of e ∈ dom (by_sender inner).
Proof.
  intros Hok He. pose proof (sender_queued _ _ _ Hok He) as Hq. rw /queued in Hq.
  apply elem_of_dom. destruct (by_sender inner !! sender_of e); [eauto|done].
Qed.

(** [e] is, or follows, an entry of [l]. *)
Definition follows inner (l : list ShellHash) e : Prop :=
  ∃ c ec, c ∈ l ∧ by_hash inner !! c = Some ec ∧ sender_of ec = sender_of e ∧ nonce_of ec <= nonce_of e.

Lemma descendants_lookup inner x h e :
  pool_ok cfg inner →
  by_hash (remove_entry_and_descendants inner x).1 !! h = Some e ↔
  by_hash inner !! h = Some e ∧ ¬ follows inner [x] e.
Proof.
  intros Hok. rw remove_descendants_all remove_all_lookup /follows.
  destruct (by_hash inner !! x) as [ex|] eqn:Ex.
  - rw (elem_of_descendants cfg inner Hok _ _ _ Ex). setoid_rewrite list_elem_of_singleton.
    split; intros [He Hn]; (split; [done|]).
    + intros (c & ec & -> & Hc & Hs & Hle). apply Hn. exists e. split; [done|]. simplify_eq. done.
    + intros (e' & He' & Hs & Hle). apply Hn. exists x, ex. simplify_eq. done.
  - rw /entry_and_descendant_hashes Ex. setoid_rewrite list_elem_of_singleton.
    split; intros [He _]; (split; [done|]); [|apply not_elem_of_nil].
    intros (c & ec & -> & Hc & _). congruence.
Qed.

Lemma foldl_stale_lookup l h e : ∀ p,
  pool_ok cfg p.1 →
  by_hash (foldl remove_stale p l).1 !! h = Some e ↔ by_hash p.1 !! h = Some e ∧ ¬ follows p.1 l e.
Proof.
  induction l as [|x l IH]; intros p Hok; simpl.
  { split; [|tauto]. intros He. split; [done|]. by intros (c & ? & ?%not_elem_of_nil & _). }
  rw IH remove_stale_fst; [by apply remove_descendants_ok|]. rw descendants_lookup //.
  split.
  - intros [[He Hx] Hl]. split; [done|]. intros (c & ec & [->|Hc]%elem_of_cons & Hec & Hs & Hle).
    + apply Hx. exists x, ec. by split; [left|].
    + apply Hl. exists c, ec. split; [done|]. split; [|done]. apply descendants_lookup; [done|].
      split; [done|]. intros (y & ey & ->%list_elem_of_singleton & Hy & Hsy & Hley). apply Hx.
      exists x, ey. split; [by left|]. split; [done|]. split; [congruence|lia].
  - intros [He Hn]. split.
    + split; [done|]. intros (c & ec & ->%list_elem_of_singleton & Hrest). apply Hn. exists x, ec. by split; [left|].
    + intros (c & ec & Hc & [Hec _]%descendants_lookup & Hrest); [|done].
      apply Hn. exists c, ec. split; [by right|]. done.
Qed.

Lemma prune_roots_lookup inner roots h e :
  pool_ok cfg inner →
  by_hash (prune_roots inner roots).1 !! h = Some e ↔
  by_hash inner !! h = Some e ∧
  ¬ follows inner (map_to_list (filter (λ p, root_stale roots p.2 = true) (by_hash inner))).*1 e.
Proof.
  intros Hok. rw /prune_roots.
  pose proof (foldl_stale_lookup (map_to_list (filter (λ p, root_stale roots p.2 = true) (by_hash inner))).*1
    h e (inner, 0) Hok) as Hf.
  destruct (foldl _ _ _) as [i n]. cbn [fst] in *. by rw reset_seq_by_hash.
Qed.
End pruning.

(** ** The properties *)

(** C26: The pool's indexes always agree. Whatever operations run, in any order,
    each returns (the eviction loop included) and afterwards: the sender queues
    and the priority index list exactly the retained transactions, so no sender
    has two at one nonce; the byte counter is the sum of their sizes; the
    balance reserved for every account is exactly what they can cost it, with no
    loss to overflow; and the configured limits on count, bytes and queue length
    hold. The count limit is assumed below 2^64 - 1. *)
Theorem pool_invariant `{R : Rlp, H : Hashes, U : U256Ops} cfg ops :
  config_ok cfg → Forall op_typed ops →
  ∃ inner, pool_run cfg ops pool_new = Some inner ∧ pool_ok cfg inner.
Proof. apply pool_run_ok. Qed.

(** C30: The pool never promises more than an account has. When an insertion into
    a reachable pool succeeds, each account that pays for the new transaction
    (the sender, and the paymaster if there is one) has, in the state it was
    checked against, a balance that covers everything all retained transactions
    can cost it, the new one included. *)
Theorem insert_solvent `{R : Rlp, H : Hashes, U : U256Ops} cfg inner env t h inner' a c :
  config_ok cfg → pool_reachable cfg inner → op_typed (OpInsert env t) →
  pool_insert cfg env inner t = Some (Ok h, inner') →
  (a, c) ∈ reservation_costs t → c ≠ 0 →
  ∃ b, pe_balance env a = Ok b ∧ reserved_of inner' a <= b.
Proof.
  intros Hc Hr%reachable_ok [Ht Hst] Hi Ha Hne; [|done].
  destruct (pool_insert_spec cfg Hc env inner t Hr Ht Hst) as (r & i & Hi' & _ & Hspec).
  simplify_eq. destruct Hspec as (_ & ev & Hins). by eapply inserted_solvent.
Qed.

(** Insertion displaces only what it must and what it outbids. When an
    insertion into a reachable pool succeeds, the pool is the old one without an
    evicted set and with the new transaction. The set holds the transaction at
    the same sender and nonce, if any; every other member is, or follows in its
    sender's queue, a transaction whose tip at the head's base fee is below the
    newcomer's, and never one the newcomer itself has to wait for; and with it
    go all transactions that follow it. If there is room, nothing else is
    evicted. *)
Theorem insert_displaces `{R : Rlp, H : Hashes, U : U256Ops} cfg inner env t h inner' :
  config_ok cfg → pool_reachable cfg inner → op_typed (OpInsert env t) →
  pool_insert cfg env inner t = Some (Ok h, inner') →
  h = tx_hash t ∧ pool_get inner' h = Some t ∧
  ∃ sz base_fee ev,
    (∀ h', h' ≠ h → by_hash inner' !! h' = if decide (h' ∈ ev) then None else by_hash inner !! h') ∧
    replaced inner t ⊆ ev ∧
    (fits cfg inner sz (replaced inner t) → ev = replaced inner t) ∧
    ∀ h', h' ∈ ev → h' ∉ replaced inner t →
      displaced inner (incoming_tip base_fee t) base_fee (sender t) (tx_nonce (st_tx t)) h' ∧
      ∀ e' h'' e'', by_hash inner !! h' = Some e' → by_hash inner !! h'' = Some e'' →
        sender_of e'' = sender_of e' → nonce_of e' <= nonce_of e'' → h'' ∈ ev.
Proof.
  intros Hc Hr%reachable_ok [Ht Hst] Hi; [|done].
  destruct (pool_insert_spec cfg Hc env inner t Hr Ht Hst) as (r & i & Hi' & _ & Hspec).
  simplify_eq. destruct Hspec as (-> & ev & [(sz & bf & root & n & bytes & _ & Hpl & ->)]).
  split; [done|]. split; [by rw /pool_get /= lookup_insert_eq|]. exists sz, bf, ev.
  destruct (pl_evict _ _ _ _ _ _ _ _ _ Hpl) as (b & Hev & _). split_and!.
  - intros h' Hne. cbn [insert_entry by_hash]. rw lookup_insert_ne // rest_by_hash. apply lookup_filter_notin.
  - apply (ev_init _ _ _ _ _ _ _ _ Hev).
  - apply (pl_minimal _ _ _ _ _ _ _ _ _ Hpl).
  - intros h' Hh' Hnr. split; [by eapply ev_why|]. intros. by eapply ev_closed.
Qed.

(** A replacement pays for itself. When an insertion into a reachable pool
    succeeds at a sender and nonce the pool already holds, the old transaction
    is gone, and the new one beats it in the priority fee, the fee cap and (if
    the old one has one) the blob fee cap: each is at least the old one raised
    by the configured percentage, and strictly above it unless that is zero. *)
Theorem replacement_pays `{R : Rlp, H : Hashes, U : U256Ops} cfg inner env t h inner' h0 e0 :
  config_ok cfg → 0 <= replacement_fee_bump_pct cfg → pool_reachable cfg inner →
  op_typed (OpInsert env t) → pool_insert cfg env inner t = Some (Ok h, inner') →
  by_hash inner !! h0 = Some e0 → sender_of e0 = sender t → nonce_of e0 = tx_nonce (st_tx t) →
  pool_contains inner' h0 = false ∧
  let old := st_tx (entry_tx e0) in
  let bump := replacement_fee_bump_pct cfg in
  outbids bump (max_priority_fee_per_gas old) (max_priority_fee_per_gas (st_tx t)) ∧
  outbids bump (max_fee_per_gas old) (max_fee_per_gas (st_tx t)) ∧
  ∀ f, max_fee_per_blob_gas old = Some f → outbids bump f (unwrap_or 0 (max_fee_per_blob_gas (st_tx t))).
Proof.
  intros Hc Hb Hr%reachable_ok [Ht Hst] Hi He Hs Hn; [|done].
  destruct (pool_insert_spec cfg Hc env inner t Hr Ht Hst) as (r & i & Hi' & _ & Hspec).
  simplify_eq. destruct Hspec as (-> & ev & Hins).
  assert (Hq : existing_entry inner t = Some h0)
    by (rw existing_queued -Hs -Hn; by apply (sender_queued cfg)).
  assert (Hold := eo_typed _ _ _ (ok_entries _ _ Hr _ _ He)).
  pose proof Hins as [(sz & bf & root & n & bytes & _ & Hpl & _)]. split.
  - apply bool_decide_eq_false. intros [e [[Hh He']|[_ Hh]]%(inserted_lookup _ _ _ _ _ _ _ _ Hins)].
    + subst h0. by rw (pl_fresh _ _ _ _ _ _ _ _ _ Hpl) in He.
    + destruct (pl_evict _ _ _ _ _ _ _ _ _ Hpl) as (b & Hev & _). apply Hh.
      apply (ev_init _ _ _ _ _ _ _ _ Hev). rw /replaced Hq. set_solver.
  - pose proof (pl_slot _ _ _ _ _ _ _ _ _ Hpl) as Hsl. revert Hsl. rw /check_slot. cbv zeta.
    rw guard_ok Hq He. intros [_ Hk]. destruct Hold. split_and!.
    + eapply check_bumps_ok; [done..| |done]. rw /fee_pairs. set_solver.
    + eapply check_bumps_ok; [done..| |done]. rw /fee_pairs. set_solver.
    + intros f Hf. rw Hf in pt_blob_fee. eapply check_bumps_ok; [done..| |done]. rw /fee_pairs Hf. set_solver.
Qed.

(** Pruning removes exactly what canonical state has overtaken. On a
    reachable pool, [prune_nonce_too_low] keeps a transaction exactly when its
    nonce is not below the nonce read for its sender (a sender whose nonce could
    not be read is skipped), and [prune_rotated_roots] keeps it exactly when it
    neither was validated against a key its sender's account has replaced, in an
    account without a custom validator, nor follows such a transaction in its
    sender's queue. *)
Theorem prune_exact `{R : Rlp, H : Hashes, U : U256Ops} cfg inner get_nonce get_account h e :
  config_ok cfg → pool_reachable cfg inner →
  (by_hash (prune_nonce_too_low inner get_nonce).1 !! h = Some e ↔
    by_hash inner !! h = Some e ∧ ∀ n, get_nonce (sender_of e) = Ok n → n <= nonce_of e) ∧
  (by_hash (prune_rotated_roots inner get_account).1 !! h = Some e ↔
    by_hash inner !! h = Some e ∧
    ¬ ∃ hc c validated root, by_hash inner !! hc = Some c ∧ sender_of c = sender_of e ∧
        nonce_of c <= nonce_of e ∧ validated_root_hash c = Some validated ∧
        get_account (sender_of e) = Ok (Some (MkAccountView root None)) ∧
        root ≠ ZERO ∧ root ≠ validated).
Proof.
  intros Hc Hr%reachable_ok; [|done]. split.
  - rw /prune_nonce_too_low (prune_below_lookup cfg) //. setoid_rewrite canonical_nonces_lookup.
    split; intros [He Hn]; (split; [done|]); [|naive_solver].
    intros n Hg. apply Hn. split; [by eapply sender_in_dom|done].
  - rw (prune_roots_lookup cfg) //. split; intros [He Hn]; (split; [done|]); intros Hx; apply Hn.
    + destruct Hx as (hc & c & v & root & Hh & Hs & Hle & Hv & Ha & Hz & Hne).
      exists hc, c. split_and!; [|done..]. apply list_elem_of_fmap. exists (hc, c). split; [done|].
      apply elem_of_map_to_list, map_lookup_filter_Some. split; [done|]. rw /root_stale Hv /=.
      assert (canonical_roots get_account (dom (by_sender inner)) !! st_from (entry_tx c) = Some root) as ->.
      { apply canonical_roots_lookup. split; [by eapply (sender_in_dom cfg inner hc)|].
        split; [done|]. change (st_from (entry_tx c)) with (sender_of c). by rw Hs. }
      by apply bool_decide_eq_true.
    + destruct Hx as (hc & c & Hin & Hh & Hs & Hle).
      apply list_elem_of_fmap in Hin as ([hc' c'] & -> & Hin). simpl in Hh.
      apply elem_of_map_to_list, map_lookup_filter_Some in Hin as [Hc' Hst].
      assert (c' = c) as -> by congruence. revert Hst.
      rw /root_stale /=. destruct (validated_root_hash c) as [v|] eqn:Ev; [|done].
      destruct (canonical_roots _ _ !! _) as [root|] eqn:Er; [|done]. intros Hne%bool_decide_eq_true.
      apply canonical_roots_lookup in Er as (_ & Hz & Ha). exists hc', c, v, root. split_and!; try done.
      by rw -Hs.
Qed.

(** Making room always ends. On a reachable pool, planning the evictions for
    an incoming transaction of any size returns: either a set whose removal lets
    the newcomer fit both limits, with the byte count afterwards, or a refusal,
    and then even the set of all transactions that the newcomer may displace
    would not make enough room. *)
Theorem evictions_terminate `{R : Rlp, H : Hashes, U : U256Ops} cfg inner t base_fee sz :
  config_ok cfg → pool_reachable cfg inner → 0 <= sz →
  ∃ r, capacity_evictions cfg inner (replaced inner t) (incoming_tip base_fee t) base_fee (sender t)
      (tx_nonce (st_tx t)) sz = Some r ∧
  match r with
  | Ok (ev, bytes) =>
      fits cfg inner sz ev ∧
      bytes = total_bytes inner - map_sum serialized_size (chosen ev (by_hash inner)) + sz
  | Err e =>
      refused cfg inner (incoming_tip base_fee t) base_fee (sender t) (tx_nonce (st_tx t)) sz (replaced inner t)
  end.
Proof.
  intros Hc Hr%reachable_ok Hsz; [|done].
  destruct (capacity_evictions_spec cfg inner Hr Hc (incoming_tip base_fee t) base_fee (sender t)
    (tx_nonce (st_tx t)) sz Hsz (replaced inner t) ltac:(by eapply replaced_sub)) as (r & Hr' & _ & Hs).
  exists r. split; [done|]. destruct r as [[ev bytes]|e]; [|apply Hs].
  destruct Hs as (Hf & b & Hev & ->). split; [done|]. by rw (ev_bytes _ _ _ _ _ _ _ _ Hev).
Qed.

(** ** A pool of two, and a third transaction *)

#[local] Instance pool_hashes : Hashes := {| keccak256 := toy_hash; blake3_hash := toy_hash |}.
#[local] Existing Instance wrapping_u256.

Definition small_config : MempoolConfig := MkMempoolConfig 2 1000 2 1 0 10.

Definition pay (from nonce max_fee prio : Z) : SignedTransaction :=
  MkSignedTransaction (b256_of_Z from)
    (MkTransaction 1 nonce (Some (b256_of_Z 99)) 1000 [] 30000 max_fee prio None 2 None None)
    (MkPQSignature MlDsa65 []) Reference None.

Definition rich_env : PoolEnv :=
  MkPoolEnv (λ _, Ok 5) (λ _, Ok 1000000000000) (λ _, Ok None) (Ok None) (λ _, Ok None)
    (λ _, Ok (MkAaValidationOutcome [1; 2; 3] false true)) (λ _, Some 200).

Definition two_ops : list PoolOp := [OpInsert rich_env (pay 1 5 10 1); OpInsert rich_env (pay 2 5 20 2)].
Definition two_pool : PoolInner := unwrap_or pool_new (pool_run small_config two_ops pool_new).

Lemma small_config_ok : config_ok small_config.
Proof. by split. Qed.
Lemma pay_typed from nonce max_fee prio :
  in_u64 nonce → 0 <= max_fee → 0 <= prio → op_typed (OpInsert rich_env (pay from nonce max_fee prio)).
Proof. intros. split; [by split|]. by intros ? ? [= <-]. Qed.
Lemma two_ops_typed : Forall op_typed two_ops.
Proof. apply Forall_cons. split; [by apply pay_typed|]. apply Forall_cons. split; [by apply pay_typed|done]. Qed.
Lemma two_reachable : pool_reachable small_config two_pool.
Proof.
  exists two_ops. split; [apply two_ops_typed|]. rw /two_pool.
  by destruct (pool_run_ok small_config two_ops small_config_ok two_ops_typed) as (i & -> & _).
Qed.

(** An insertion that succeeds. *)
Definition accepted (r : option (result ShellHash MempoolError * PoolInner)) : bool :=
  match r with Some (Ok _, _) => true | _ => false end.
Lemma accepted_Some r : accepted r = true → ∃ h i, r = Some (Ok h, i).
Proof. destruct r as [[[h|] i]|]; [eauto|done..]. Qed.

Lemma third_accepted :
  ∃ h i, pool_insert small_config rich_env two_pool (pay 3 5 30 5) = Some (Ok h, i).
Proof. apply accepted_Some. by vm_compute. Qed.

Lemma third_typed : op_typed (OpInsert rich_env (pay 3 5 30 5)).
Proof. by apply pay_typed. Qed.
Lemma third_cost : (b256_of_Z 3, 901000) ∈ reservation_costs (pay 3 5 30 5).
Proof. by left. Qed.
Lemma bump_accepted :
  ∃ h i, pool_insert small_config rich_env two_pool (pay 1 5 11 2) = Some (Ok h, i).
Proof. apply accepted_Some. by vm_compute. Qed.
Lemma bump_typed : op_typed (OpInsert rich_env (pay 1 5 11 2)).
Proof. by apply pay_typed. Qed.

(** The newcomer displaces the entry with the lowest tip, and only that one. *)
Lemma third_contents :
  match pool_insert small_config rich_env two_pool (pay 3 5 30 5) with
  | Some (_, i) => pool_contains i (tx_hash (pay 1 5 10 1)) = false ∧
                   pool_contains i (tx_hash (pay 2 5 20 2)) = true
  | None => False
  end.
Proof. vm_compute. by split. Qed.

Lemma first_entry :
  ∃ e, by_hash two_pool !! tx_hash (pay 1 5 10 1) = Some e ∧ entry_tx e = pay 1 5 10 1.
Proof.
  assert (Hg : bool_decide (pool_get two_pool (tx_hash (pay 1 5 10 1)) = Some (pay 1 5 10 1)) = true)
    by (by vm_compute).
  apply bool_decide_eq_true, fmap_Some in Hg as (e & ? & ?). eauto.
Qed.

Lemma pool_invariant_witness :
  ∃ inner, pool_run small_config two_ops pool_new = Some inner ∧ pool_ok small_config inner.
Proof.
  apply (pool_invariant small_config two_ops small_config_ok two_ops_typed).
Defined.

Lemma insert_solvent_witness :
  ∃ h inner' b, pool_insert small_config rich_env two_pool (pay 3 5 30 5) = Some (Ok h, inner') ∧
    pe_balance rich_env (b256_of_Z 3) = Ok b ∧ reserved_of inner' (b256_of_Z 3) <= b.
Proof.
  destruct third_accepted as (h & i & Hi).
  destruct (insert_solvent small_config two_pool rich_env (pay 3 5 30 5) h i (b256_of_Z 3) 901000
    small_config_ok two_reachable third_typed Hi third_cost ltac:(discriminate)) as (b & Hb & Hle).
  exists h, i, b. exact (conj Hi (conj Hb Hle)).
Defined.

Lemma insert_displaces_witness :
  ∃ h i, pool_insert small_config rich_env two_pool (pay 3 5 30 5) = Some (Ok h, i) ∧
    pool_get i h = Some (pay 3 5 30 5) ∧
    pool_contains i (tx_hash (pay 1 5 10 1)) = false ∧ pool_contains i (tx_hash (pay 2 5 20 2)) = true.
Proof.
  destruct third_accepted as (h & i & Hi). exists h, i.
  destruct (insert_displaces small_config two_pool rich_env (pay 3 5 30 5) h i small_config_ok
    two_reachable third_typed Hi) as (_ & Hg & _).
  split; [exact Hi|]. split; [exact Hg|].
  pose proof third_contents as Hc. rw Hi in Hc. exact Hc.
Defined.

Lemma replacement_pays_witness :
  ∃ h i, pool_insert small_config rich_env two_pool (pay 1 5 11 2) = Some (Ok h, i) ∧
    pool_contains i (tx_hash (pay 1 5 10 1)) = false.
Proof.
  destruct bump_accepted as (h & i & Hi). exists h, i. split; [exact Hi|].
  destruct first_entry as (e & He & Ht).
  destruct (replacement_pays small_config two_pool rich_env (pay 1 5 11 2) h i (tx_hash (pay 1 5 10 1)) e
    small_config_ok ltac:(discriminate) two_reachable bump_typed Hi He) as [Hc _].
  - rw /sender_of Ht. reflexivity.
  - rw /nonce_of Ht. reflexivity.
  - exact Hc.
Defined.

Lemma prune_exact_witness :
  ∃ e, by_hash two_pool !! tx_hash (pay 1 5 10 1) = Some e ∧
    by_hash (prune_nonce_too_low two_pool (λ _, Ok 6)).1 !! tx_hash (pay 1 5 10 1) ≠ Some e.
Proof.
  destruct first_entry as (e & He & Ht). exists e. split; [exact He|]. intros Hp.
  destruct (prune_exact small_config two_pool (λ _, Ok 6) (λ _, Ok None) (tx_hash (pay 1 5 10 1)) e
    small_config_ok two_reachable) as [Hx _].
  apply Hx in Hp as [_ Hn]. specialize (Hn 6 eq_refl). rw /nonce_of Ht /= in Hn. lia.
Defined.

Lemma evictions_terminate_witness :
  ∃ r, capacity_evictions small_config two_pool (replaced two_pool (pay 3 5 30 5))
    (incoming_tip 0 (pay 3 5 30 5)) 0 (b256_of_Z 3) 5 200 = Some r.
Proof.
  destruct (evictions_terminate small_config two_pool (pay 3 5 30 5) 0 200 small_config_ok two_reachable
    ltac:(lia)) as (r & Hr & _).
  exists r. exact Hr.
Defined.
