(* ===== verification/MempoolSelect.v ===== *)
(** * Block selection from the pool

    The loop that picks transactions for a block: it returns, respects every
    sender's nonce order, always takes the best-paying transaction that is
    ready, and stops early only when none is. *)

From S2P Require Import Prelude Primitives Block Fee Rlp RlpImpl Transaction TxHash TxValidation BTree.
From S2P Require Import Mempool MempoolInv MempoolEvict MempoolInsert MempoolProps.

Section selection.
Context {R : Rlp} {H : Hashes} (cfg : MempoolConfig) (inner : PoolInner) (Hok : pool_ok cfg inner).
Context (is_eligible : SignedTransaction → bool) (priority_fee : SignedTransaction → Z).
Local Abbreviation entries := (by_hash inner).
Local Abbreviation skey := (selection_key priority_fee).
Implicit Types (h : ShellHash) (e : PoolEntry) (sel : list SignedTransaction).

(** The lowest nonce its sender has queued. *)
Definition is_first e : Prop :=
  ∀ h' e', entries !! h' = Some e' → sender_of e' = sender_of e → nonce_of e <= nonce_of e'.

(** Selectable once [sel] is selected: its sender's first, or the successor of a
    selected transaction. *)
Definition is_ready sel e : Prop :=
  is_eligible (entry_tx e) = true ∧ (entry_tx e ∉ sel) ∧
  (is_first e ∨ ∃ t, t ∈ sel ∧ sender t = sender_of e ∧ tx_nonce (st_tx t) + 1 = nonce_of e).

(** ** Entries are determined by their transaction, slot or key *)

Lemma entry_by_tx h e h' e' :
  entries !! h = Some e → entries !! h' = Some e' → entry_tx e = entry_tx e' → h = h' ∧ e = e'.
Proof.
  intros He He' Ht. assert (h = h') as <-.
  { rw -(eo_hash _ _ _ (ok_entries _ _ Hok _ _ He)) -(eo_hash _ _ _ (ok_entries _ _ Hok _ _ He')). by rw Ht. }
  split; [done|congruence].
Qed.

Lemma entry_by_slot h e h' e' :
  entries !! h = Some e → entries !! h' = Some e' → sender_of e = sender_of e' →
  nonce_of e = nonce_of e' → h = h' ∧ e = e'.
Proof.
  intros He He' Hs Hn. pose proof (sender_queued _ _ _ _ Hok He) as Q.
  pose proof (sender_queued _ _ _ _ Hok He') as Q'. rw Hs Hn in Q.
  assert (h = h') as <- by congruence. split; [done|congruence].
Qed.

Lemma entry_by_key h e h' e' :
  entries !! h = Some e → entries !! h' = Some e' → skey e = skey e' → h = h' ∧ e = e'.
Proof.
  intros He He' Hk%(f_equal key_seq). assert (h = h') as <- by by eapply (ok_arrival _ _ Hok).
  split; [done|congruence].
Qed.

(** ** The ready map *)

(** [ready] lists exactly the selectable entries. *)
Definition ready_ok (ready : gmap PriorityKey (Address * ShellHash)) sel : Prop :=
  ∀ k s h, ready !! k = Some (s, h) ↔
    ∃ e, entries !! h = Some e ∧ k = skey e ∧ s = sender_of e ∧ is_ready sel e.

Lemma bt_first_is_first s q n h :
  by_sender inner !! s = Some q → bt_first Z.le q = Some (n, h) ↔
  ∃ e, entries !! h = Some e ∧ sender_of e = s ∧ nonce_of e = n ∧ is_first e.
Proof.
  intros Hq. rw bt_first_Some. assert (Hqu : ∀ n, queued inner s n = q !! n) by (intros; by rw /queued Hq).
  setoid_rewrite <-Hqu. split.
  - intros [(e & He & Hs & Hn)%(ok_sender _ _ Hok) Hmin]. exists e. split_and!; try done.
    intros h' e' He' Hs'. rw /nonce_of Hn. apply Hmin. exists h'. apply (ok_sender _ _ Hok). exists e'.
    rw -Hs. done.
  - intros (e & He & Hs & Hn & Hf). split; [apply (ok_sender _ _ Hok); eauto|].
    intros k' [h' (e' & He' & Hs' & <-)%(ok_sender _ _ Hok)]. rw -Hn. apply (Hf h' e' He'). by rw Hs.
Qed.

Lemma initial_fold l :
  (∀ s q, (s, q) ∈ l → by_sender inner !! s = Some q) →
  ∀ k s h, foldl (λ ready p, match bt_first Z.le p.2 with
                             | Some (_, hash) => add_ready is_eligible priority_fee inner ready p.1 hash
                             | None => ready
                             end) ∅ l !! k = Some (s, h) ↔
    ∃ e, s ∈ l.*1 ∧ entries !! h = Some e ∧ k = skey e ∧ s = sender_of e ∧ is_first e ∧
      is_eligible (entry_tx e) = true.
Proof.
  induction l as [|[s0 q0] l IH] using rev_ind; intros Hl k s h.
  { rw lookup_empty. split; [done|]. by intros (e & ?%not_elem_of_nil & _). }
  assert (Hq0 : by_sender inner !! s0 = Some q0) by (apply Hl; set_solver).
  assert (Hmem : s ∈ (l ++ [(s0, q0)]).*1 ↔ s ∈ l.*1 ∨ s = s0)
    by (by rw fmap_app elem_of_app /= list_elem_of_singleton).
  setoid_rewrite Hmem. rw foldl_app. cbn [foldl fst snd].
  specialize (IH ltac:(set_solver)). set (old := foldl _ _ _) in *.
  destruct (bt_first Z.le q0) as [[n0 h0]|] eqn:Eb.
  - destruct (proj1 (bt_first_is_first _ _ _ _ Hq0) Eb) as (e0 & He0 & Hs0 & Hn0 & Hf0).
    rw /add_ready He0. destruct (is_eligible (entry_tx e0)) eqn:Eel.
    + rw lookup_insert_Some. rw IH. split.
      * intros [[<- [= <- <-]]|[_ (e & ? & ?)]]; [exists e0; auto 10|exists e; tauto].
      * intros (e & [Hin| ->] & He & -> & -> & Hf & Hel).
        -- destruct (decide (skey e0 = skey e)) as [Hk|Hk]; [left|right; split; [done|exists e; auto 10]].
           destruct (entry_by_key _ _ _ _ He0 He Hk) as [-> ->]. by rw Hs0.
        -- left. assert (nonce_of e = nonce_of e0).
           { apply Z.le_antisymm; [apply (Hf h0 e0 He0)|apply (Hf0 h e He)]; congruence. }
           destruct (entry_by_slot _ _ _ _ He0 He) as [-> ->]; [congruence..|]. split; congruence.
    + rw IH. split; [intros (e & ? & ?); exists e; tauto|].
      intros (e & [Hin| ->] & He & -> & Hs & Hf & Hel); [exists e; auto 10|]. exfalso.
      assert (nonce_of e = nonce_of e0).
      { apply Z.le_antisymm; [apply (Hf h0 e0 He0)|apply (Hf0 h e He)]; congruence. }
      destruct (entry_by_slot _ _ _ _ He0 He) as [-> ->]; congruence.
  - apply bt_first_None in Eb. by destruct (ok_queues _ _ Hok _ _ Hq0).
Qed.

Lemma initial_ready_ok : ready_ok (initial_ready is_eligible priority_fee inner) [].
Proof.
  intros k s h. rw /initial_ready initial_fold.
  { intros s' q'. by rw elem_of_map_to_list. }
  rw /is_ready. split.
  - intros (e & _ & He & -> & -> & Hf & Hel). exists e. split_and!; try done; [apply not_elem_of_nil|by left].
  - intros (e & He & -> & -> & Hel & _ & [Hf|(t & ?%not_elem_of_nil & _)]); [|done]. exists e. split_and!; try done.
    apply (sender_in_dom _ _ _ _ Hok) in He as [q Hq]%elem_of_dom. apply list_elem_of_fmap.
    exists (sender_of e, q). by rw elem_of_map_to_list.
Qed.

(** ** The loop *)

(** Each pick was ready, and no ready entry came before it in the order. *)
Definition picks_ok sel : Prop :=
  ∀ l1 t l2, sel = l1 ++ t :: l2 →
    ∃ h e, entries !! h = Some e ∧ entry_tx e = t ∧ is_ready l1 e ∧
      ∀ h' e', entries !! h' = Some e' → is_ready l1 e' → key_le (skey e) (skey e').

Lemma picks_snoc sel h e :
  picks_ok sel → entries !! h = Some e → is_ready sel e →
  (∀ h' e', entries !! h' = Some e' → is_ready sel e' → key_le (skey e) (skey e')) →
  picks_ok (sel ++ [entry_tx e]).
Proof.
  intros Hp He Hr Hmin l1 t l2 Hs. destruct l2 as [|x l2 _] using rev_ind.
  - apply app_inj_tail in Hs as [<- <-]. eauto 10.
  - rw app_comm_cons app_assoc in Hs. apply app_inj_tail in Hs as [Hs _]. by apply (Hp _ _ l2).
Qed.

Lemma picks_entry sel t :
  picks_ok sel → t ∈ sel → ∃ h e, entries !! h = Some e ∧ entry_tx e = t.
Proof.
  intros Hp (l1 & l2 & Hs)%list_elem_of_split. destruct (Hp _ _ _ Hs) as (h & e & ? & ? & _). eauto.
Qed.

Lemma picks_NoDup sel : picks_ok sel → NoDup sel.
Proof.
  induction sel as [|t sel IH] using rev_ind; intros Hp; [constructor|].
  apply NoDup_app. split; [|split].
  - apply IH. intros l1 t' l2 ->. apply (Hp l1 t' (l2 ++ [t])). by rw -app_assoc.
  - destruct (Hp sel t [] eq_refl) as (h & e & He & <- & (_ & Hn & _) & _).
    by intros x Hx ->%list_elem_of_singleton.
  - apply NoDup_singleton.
Qed.

(** The picks are distinct entries, so there are no more than the pool holds. *)
Lemma picks_length sel : picks_ok sel → (length sel ≤ size entries)%nat.
Proof.
  intros Hp. rw -(length_map_to_list entries) -(length_fmap (λ p, entry_tx p.2)).
  apply submseteq_length, NoDup_submseteq; [by apply picks_NoDup|].
  intros t (h & e & He & <-)%(picks_entry _ _ Hp). apply list_elem_of_fmap. exists (h, e).
  by rw elem_of_map_to_list.
Qed.

(** The successor of an entry that is not selected is not selected either. *)
Lemma successor_not_picked sel h e h' e' :
  picks_ok sel → entries !! h = Some e → entry_tx e ∉ sel → entries !! h' = Some e' →
  sender_of e' = sender_of e → nonce_of e' = nonce_of e + 1 → entry_tx e' ∉ sel.
Proof.
  intros Hp He Hne He' Hs Hn (l1 & l2 & Hl)%list_elem_of_split.
  destruct (Hp _ _ _ Hl) as (h1 & e1 & He1 & Ht & (_ & _ & Hor) & _).
  destruct (entry_by_tx _ _ _ _ He1 He' Ht) as [-> ->]. destruct Hor as [Hf|(t & Hin & Hst & Hnt)].
  - specialize (Hf h e He). rw Hn in Hf. specialize (Hf (eq_sym Hs)). lia.
  - assert (Hin' : t ∈ sel) by (rw Hl; set_solver).
    destruct (picks_entry _ _ Hp Hin') as (h2 & e2 & He2 & <-).
    destruct (entry_by_slot _ _ _ _ He2 He) as [-> ->]; [|unfold nonce_of in *; lia|done].
    rw -Hs -Hst. done.
Qed.

(** What becomes ready when [e] is selected. *)
Lemma is_ready_snoc sel h e h' e' :
  picks_ok sel → entries !! h = Some e → is_ready sel e → entries !! h' = Some e' →
  is_ready (sel ++ [entry_tx e]) e' ↔
  (h' ≠ h ∧ is_ready sel e') ∨
  (is_eligible (entry_tx e') = true ∧ sender_of e' = sender_of e ∧ nonce_of e' = nonce_of e + 1).
Proof.
  intros Hp He Hr He'. rw /is_ready. setoid_rewrite elem_of_app. setoid_rewrite list_elem_of_singleton.
  split.
  - intros (Hel & Hnin & Hor). assert (h' ≠ h) by (intros ->; simplify_eq; tauto).
    destruct Hor as [Hf|(t & [Ht| ->] & Hs & Hn)]; [left|left|right]; [tauto| |].
    + split; [done|]. split; [done|]. split; [tauto|]. right. eauto.
    + split; [done|]. unfold sender_of, nonce_of in *. split; [done|lia].
  - intros [(Hne & Hel & Hnin & Hor)|(Hel & Hs & Hn)].
    + split; [done|]. split.
      * intros [?|Heq]; [done|]. by destruct (entry_by_tx _ _ _ _ He' He Heq).
      * destruct Hor as [|(t & ? & ?)]; [by left|right; eauto].
    + split; [done|]. split.
      * intros [Hin|Heq].
        -- revert Hin. by eapply successor_not_picked; [..|apply Hr|done|done|done].
        -- destruct (entry_by_tx _ _ _ _ He' He Heq) as [_ ->]. lia.
      * right. exists (entry_tx e). unfold sender_of, nonce_of in *. split; [by right|]. split; [done|lia].
Qed.

(** [push_next] looks the successor up. *)
Lemma push_next_lookup ready taken h e :
  entries !! h = Some e →
  push_next is_eligible priority_fee inner ready taken (sender_of e) (nonce_of e) =
  match queued inner (sender_of e) (nonce_of e + 1) ≫= (entries !!.) with
  | Some e' =>
      if bool_decide (skey e' ≠ taken) && is_eligible (entry_tx e')
      then <[skey e' := (sender_of e, tx_hash (entry_tx e'))]> ready else ready
  | None => ready
  end.
Proof.
  intros He. pose proof (sender_queued _ _ _ _ Hok He) as Hq0. rw /push_next /queued in Hq0 *.
  destruct (by_sender inner !! sender_of e) as [q|] eqn:Eq; [|done]. cbn [mbind option_bind] in Hq0 |- *.
  assert (Hqu : ∀ n, queued inner (sender_of e) n = q !! n) by (intros; by rw /queued Eq).
  rw /checked_add. destruct (q !! (nonce_of e + 1)) as [h'|] eqn:En; cbn [mbind option_bind].
  - rw -Hqu in En. apply (ok_sender _ _ Hok) in En as (e' & He' & Hs & Hn).
    pose proof (pt_nonce _ (eo_typed _ _ _ (ok_entries _ _ Hok _ _ He'))) as Hr. rw Hn /in_u64 in Hr.
    rw (proj2 (Z.leb_le _ _)); [lia|]. rw (bt_from_head Z.le q _ h'); [rw -Hqu; apply (ok_sender _ _ Hok); eauto|].
    rw Z.eqb_refl He' (eo_hash _ _ _ (ok_entries _ _ Hok _ _ He')) //.
  - destruct (_ <=? u64_max); [|done]. destruct (head _) as [[k a]|] eqn:Eh; [|done].
    destruct (Z.eqb_spec k (nonce_of e + 1)) as [->|]; [|done]. exfalso.
    assert (Hin : (nonce_of e + 1, a) ∈ bt_from Z.le (nonce_of e + 1) q)
      by (destruct (bt_from _ _ _); simplify_eq/=; by left).
    apply elem_of_bt_from in Hin as [_ Hin]. congruence.
Qed.

(** [e'] is the eligible successor of [e]. *)
Definition succeeds e e' : Prop :=
  is_eligible (entry_tx e') = true ∧ sender_of e' = sender_of e ∧ nonce_of e' = nonce_of e + 1.

Lemma push_next_cases ready h e :
  entries !! h = Some e →
  let next := push_next is_eligible priority_fee inner ready (skey e) (sender_of e) (nonce_of e) in
  (∃ h1 e1, entries !! h1 = Some e1 ∧ succeeds e e1 ∧ next = <[skey e1 := (sender_of e1, h1)]> ready) ∨
  (∀ h1 e1, entries !! h1 = Some e1 → ¬ succeeds e e1) ∧ next = ready.
Proof.
  intros He. cbv zeta. rw (push_next_lookup _ _ _ _ He).
  assert (Hsucc : ∀ h1 e1, entries !! h1 = Some e1 → succeeds e e1 →
    queued inner (sender_of e) (nonce_of e + 1) = Some h1).
  { intros h1 e1 He1 (_ & <- & <-). by apply (sender_queued cfg). }
  destruct (queued inner (sender_of e) (nonce_of e + 1)) as [h1|] eqn:Eq; cbn [mbind option_bind].
  - apply (ok_sender _ _ Hok) in Eq as (e1 & He1 & Hs & Hn). rw He1.
    assert (skey e1 ≠ skey e) by (intros Hk; destruct (entry_by_key _ _ _ _ He1 He Hk) as [_ ->]; unfold nonce_of in Hn; lia).
    rw bool_decide_eq_true_2 //=. destruct (is_eligible (entry_tx e1)) eqn:Eel.
    + left. exists h1, e1. split; [done|]. split; [done|].
      by rw (eo_hash _ _ _ (ok_entries _ _ Hok _ _ He1)) -Hs.
    + right. split; [|done]. intros h2 e2 He2 Hs2. pose proof (Hsucc _ _ He2 Hs2) as [= ->].
      destruct Hs2 as [Hel _]. simplify_eq. congruence.
  - right. split; [|done]. intros h1 e1 He1 Hs1. by pose proof (Hsucc _ _ He1 Hs1).
Qed.

Lemma push_next_ok ready sel h e :
  ready_ok ready sel → picks_ok sel → entries !! h = Some e → is_ready sel e →
  ready_ok (push_next is_eligible priority_fee inner (delete (skey e) ready) (skey e) (sender_of e)
    (nonce_of e)) (sel ++ [entry_tx e]).
Proof.
  intros Hrd Hp He Hr k s h'.
  assert (Hdel : delete (skey e) ready !! k = Some (s, h') ↔
    ∃ e', entries !! h' = Some e' ∧ k = skey e' ∧ s = sender_of e' ∧ h' ≠ h ∧ is_ready sel e').
  { rw lookup_delete_Some Hrd. split.
    - intros (Hk & e' & He' & -> & -> & Hr'). exists e'. split_and!; try done. intros ->. by simplify_eq.
    - intros (e' & He' & -> & -> & Hne & Hr'). split; [|eauto 10]. intros Hk.
      by destruct (entry_by_key _ _ _ _ He He' Hk). }
  assert (Hsnoc := λ e' He', is_ready_snoc sel h e h' e' Hp He Hr He').
  destruct (push_next_cases (delete (skey e) ready) h e He) as [(h1 & e1 & He1 & Hs1 & ->)|[Hno ->]].
  - rw lookup_insert_Some Hdel. split.
    + intros [[<- [= <- <-]]|[_ (e' & He' & -> & -> & Hr')]].
      * exists e1. split_and!; try done. apply Hsnoc; [done|by right].
      * exists e'. split_and!; try done. apply Hsnoc; [done|by left].
    + intros (e' & He' & -> & -> & [Hr'|(Hel & Hs & Hn)]%Hsnoc); [| |done].
      * destruct (decide (skey e1 = skey e')) as [Hk|]; [left|right; split; [done|eauto 10]].
        by destruct (entry_by_key _ _ _ _ He1 He' Hk) as [-> ->].
      * left. destruct Hs1 as (_ & Hs1 & Hn1).
        by destruct (entry_by_slot _ _ _ _ He1 He') as [-> ->]; [congruence|congruence|].
  - rw Hdel. split; intros (e' & He' & -> & -> & Hr'); exists e'; split_and!; try done.
    + apply Hsnoc; [done|by left].
    + apply Hsnoc in Hr' as [[? _]|Hs]; [done| |done]. by destruct (Hno _ _ He').
    + apply Hsnoc in Hr' as [[_ ?]|Hs]; [done| |done]. by destruct (Hno _ _ He').
Qed.

Lemma select_loop_spec limit fuel : ∀ ready sel,
  ready_ok ready sel → picks_ok sel → len sel <= Z.max limit 0 → (size entries < fuel + length sel)%nat →
  ∃ out, select_loop is_eligible priority_fee fuel inner limit ready sel = Some out ∧
    picks_ok out ∧ len out <= Z.max limit 0 ∧
    (len out < limit → ∀ h e, entries !! h = Some e → ¬ is_ready out e).
Proof.
  induction fuel as [|fuel IH]; intros ready sel Hrd Hp Hlen Hfuel.
  { pose proof (picks_length _ Hp). lia. }
  cbn [select_loop]. destruct (Z.leb_spec limit (len sel)).
  { exists sel. split_and!; [done..|lia]. }
  destruct (bt_first key_le ready) as [[k [s h]]|] eqn:Eb.
  - apply (bt_first_Some key_le) in Eb as [Hk Hmin]. apply Hrd in Hk as (e & He & -> & -> & Hr). rw He.
    apply IH.
    + by eapply push_next_ok.
    + eapply picks_snoc; try done. intros h' e' He' Hr'. apply Hmin. exists (sender_of e', h').
      apply Hrd. eauto 10.
    + rw /len length_app /=. unfold len in *. lia.
    + rw length_app /=. lia.
  - apply bt_first_None in Eb. subst ready. exists sel. split_and!; [done..|]. intros _ h e He Hr.
    assert (Hk : (∅ : gmap PriorityKey (Address * ShellHash)) !! skey e = Some (sender_of e, h))
      by (apply Hrd; eauto 10).
    by rw lookup_empty in Hk.
Qed.
End selection.

(** ** The property *)

(** C31: Block building picks well. On a reachable pool, for any limit, any
    notion of eligibility and any fee to rank by, selection returns a list of at
    most the limit. Every pick is an eligible entry not picked before that is
    its sender's first queued transaction or follows, one nonce up, a transaction
    already picked; and no entry that was ready then ranks before it, by fee and
    then arrival. The list is short of the limit only if nothing ready is left.
    [pending_for_block_at_fees] is the instance for the next block's fees. *)
Theorem block_selection `{R : Rlp, H : Hashes, U : U256Ops} cfg inner is_eligible priority_fee limit :
  config_ok cfg → pool_reachable cfg inner →
  ∃ sel, pending_for_block_matching is_eligible priority_fee inner limit = Some sel ∧
    len sel <= Z.max limit 0 ∧
    (∀ l1 t l2, sel = l1 ++ t :: l2 →
      ∃ h e, by_hash inner !! h = Some e ∧ entry_tx e = t ∧ is_ready inner is_eligible l1 e ∧
        ∀ h' e', by_hash inner !! h' = Some e' → is_ready inner is_eligible l1 e' →
          key_le (selection_key priority_fee e) (selection_key priority_fee e')) ∧
    (len sel < limit → ∀ h e, by_hash inner !! h = Some e → ¬ is_ready inner is_eligible sel e).
Proof.
  intros Hc Hr%reachable_ok; [|done]. rw /pending_for_block_matching.
  destruct (select_loop_spec cfg inner Hr is_eligible priority_fee limit (S (size (by_hash inner)))
    (initial_ready is_eligible priority_fee inner) []) as (sel & Hs & Hp & Hl & Hd).
  - by eapply initial_ready_ok.
  - intros l1 t l2 Hn. by destruct l1.
  - rw /len /=. lia.
  - simpl. lia.
  - by exists sel.
Qed.

#[local] Existing Instance pool_hashes.
#[local] Existing Instance wrapping_u256.

Lemma block_selection_witness :
  pending_for_block_at_fees two_pool 1 0 0 = Some [pay 2 5 20 2] ∧
  ∃ sel, pending_for_block two_pool 5 = Some sel ∧ len sel <= 5.
Proof.
  split.
  - apply (bool_decide_unpack _). by vm_compute.
  - destruct (block_selection small_config two_pool (λ _, true) (λ t, max_priority_fee_per_gas (st_tx t)) 5
      small_config_ok two_reachable) as (sel & Hs & Hl & _).
    exists sel. exact (conj Hs Hl).
Defined.
