(* ===== verification/KvStore.v ===== *)
(** * Key-value stores

    crates/storage/src/kv_store.rs: write batches, the trait [KvStore] as a
    class of operations with its default methods, and the contract [KvLaws] that
    typed stores and overlays rely on; crates/storage/src/memory_db.rs: the
    in-memory store, with its own range scans.  A poisoned lock (a panic while it
    is held) is not modelled: the methods do not panic. *)

From S2P Require Import Prelude Primitives Fee Rlp Transaction TxValidation BTree.

Abbreviation bytes := (list Z) (only parsing).

(** serde_json on a record. *)
Class Json (A : Type) := {
  to_vec : A → result bytes string;
  from_slice : bytes → result A string;
}.
Class JsonLaws (A : Type) `{Json A} : Prop := {
  from_to_vec (x : A) b : to_vec x = Ok b → from_slice b = Ok x;
}.

(** ** The order of byte strings *)

Definition bytes_le (a b : bytes) : Prop := bytes_cmp a b ≠ Gt.
Definition bytes_lt (a b : bytes) : Prop := bytes_cmp a b = Lt.
#[global] Instance bytes_le_dec a b : Decision (bytes_le a b).
Proof. rw /bytes_le. apply _. Defined.
#[global] Instance bytes_lt_dec a b : Decision (bytes_lt a b).
Proof. rw /bytes_lt. apply _. Defined.

Lemma bytes_cmp_refl a : bytes_cmp a a = Eq.
Proof. induction a as [|x a IH]; [done|]. by rw /= Z.compare_refl. Qed.
Lemma bytes_cmp_eq a b : bytes_cmp a b = Eq ↔ a = b.
Proof.
  split; [|intros ->; apply bytes_cmp_refl]. revert b. induction a as [|x a IH]; intros [|y b]; simpl; try done.
  destruct (Z.compare_spec x y) as [->| |]; [|done..]. intros E. f_equal. by apply IH.
Qed.
Lemma bytes_cmp_antisym a b : bytes_cmp b a = CompOpp (bytes_cmp a b).
Proof.
  revert b. induction a as [|x a IH]; intros [|y b]; simpl; try done.
  rw (Z.compare_antisym x y). destruct (x ?= y); [apply IH|done..].
Qed.
Lemma bytes_lt_trans a b c : bytes_lt a b → bytes_lt b c → bytes_lt a c.
Proof.
  rw /bytes_lt. revert b c. induction a as [|x a IH]; intros [|y b] [|z c]; simpl; try done.
  destruct (Z.compare_spec x y) as [->|Hxy|]; [|intros _|done].
  - destruct (Z.compare_spec y z); [apply IH|done..].
  - destruct (Z.compare_spec y z) as [->|Hyz|]; [|intros _|done].
    + by rw (proj2 (Z.compare_lt_iff x z)).
    + rw (proj2 (Z.compare_lt_iff x z)) //. lia.
Qed.

Lemma bytes_le_lt_eq a b : bytes_le a b ↔ bytes_lt a b ∨ a = b.
Proof.
  rw /bytes_le /bytes_lt -bytes_cmp_eq. destruct (bytes_cmp a b); naive_solver.
Qed.
Lemma bytes_nle a b : ¬ bytes_le a b ↔ bytes_lt b a.
Proof. rw /bytes_le /bytes_lt (bytes_cmp_antisym a b). destruct (bytes_cmp a b); naive_solver. Qed.

#[global] Instance bytes_total_order : TotalOrder bytes_le.
Proof.
  split; [split; [split|]|].
  - intros a. rw /bytes_le bytes_cmp_refl. done.
  - intros a b c. rw !bytes_le_lt_eq. intros [?| ->] [?| ->]; auto. left. by eapply bytes_lt_trans.
  - intros a b. rw !bytes_le_lt_eq. intros [Hab|?] [Hba|?]; try done.
    pose proof (bytes_lt_trans _ _ _ Hab Hba) as Haa. by rw /bytes_lt bytes_cmp_refl in Haa.
  - intros a b. destruct (bytes_cmp a b) eqn:E.
    + right. left. by apply bytes_cmp_eq.
    + left. split; [by rw /bytes_le E|]. by rw bytes_nle.
    + right. right. split; [rw /bytes_le bytes_cmp_antisym E //|]. by rw bytes_nle /bytes_lt bytes_cmp_antisym E.
Qed.

(** ** Batches *)

Inductive WriteBatchOp :=
| BatchPut (key value : bytes)
| BatchDelete (key : bytes).
Definition WriteBatch : Type := list WriteBatchOp.

Definition batch_new : WriteBatch := [].
Definition batch_put (b : WriteBatch) (key value : bytes) : WriteBatch := b ++ [BatchPut key value].
Definition batch_delete (b : WriteBatch) (key : bytes) : WriteBatch := b ++ [BatchDelete key].

Abbreviation contents := (gmap bytes bytes).

Definition apply_op (m : contents) (op : WriteBatchOp) : contents :=
  match op with BatchPut k v => <[k := v]> m | BatchDelete k => delete k m end.
Definition apply_batch (m : contents) (b : WriteBatch) : contents := foldl apply_op m b.

(** ** Bounds of a prefix *)

Definition starts_with (key prefix : bytes) : bool := bool_decide (prefix `prefix_of` key).

(** [while next.last() == Some(&u8::MAX) { next.pop(); }], on the reverse. *)
Fixpoint pop_max (rev_next : bytes) : bytes :=
  match rev_next with
  | x :: l => if x =? u8_max then pop_max l else rev_next
  | [] => []
  end.

(** The least key above every key with the prefix, if there is one. *)
Definition prefix_end (prefix : bytes) : option bytes :=
  match pop_max (reverse prefix) with
  | last :: l => Some (reverse (last + 1 :: l))
  | [] => None
  end.

Definition bytes_max (a b : bytes) : bytes := if decide (bytes_le a b) then b else a.
Definition bytes_min (a b : bytes) : bytes := if decide (bytes_le a b) then a else b.

Definition prefix_range_bounds (prefix start : bytes) (end_ : option bytes) : bytes * option bytes :=
  let lower := bytes_max start prefix in
  let upper :=
    match prefix_end prefix, end_ with
    | Some prefix_end, Some end_ => Some (bytes_min prefix_end end_)
    | Some prefix_end, None => Some prefix_end
    | None, end_ => end_
    end in
  (lower, upper).

(** ** The interface *)

Abbreviation entry_list := (list (bytes * bytes)).

Class KvStore (S : Type) := {
  kv_get : S → bytes → result (option bytes) StorageError;
  kv_put : S → bytes → bytes → result unit StorageError * S;
  kv_delete : S → bytes → result unit StorageError * S;
  kv_flush : S → result unit StorageError;
  kv_write_batch : S → WriteBatch → result unit StorageError * S;
  kv_snapshot_prefixes : S → list bytes → Z → result contents StorageError;
  kv_scan_prefix : S → bytes → result entry_list StorageError;
  kv_scan_prefix_after : S → bytes → option bytes → Z → result entry_list StorageError;
}.

(** A visitor with its own state; it returns whether to go on. *)
Abbreviation visitor_t A := (A → bytes → bytes → result (bool * A) StorageError).

Fixpoint visit {A} (visitor : visitor_t A) (acc : A) (l : entry_list) : result A StorageError :=
  match l with
  | [] => Ok acc
  | (k, v) :: l =>
      let? r := visitor acc k v in
      if r.1 then visit visitor r.2 l else Ok r.2
  end.

Definition saturating_entry_len (key_len value_len : Z) : Z := sat_add key_len value_len.

(** [key >= start && end.is_none_or(|end| key < end)]. *)
Definition in_range (start : bytes) (end_ : option bytes) (key : bytes) : bool :=
  bool_decide (bytes_le start key) &&
  match end_ with Some e => bool_decide (bytes_lt key e) | None => true end.
(** [after.is_none_or(|after| key > after)]. *)
Definition is_after (after : option bytes) (key : bytes) : bool :=
  match after with Some a => bool_decide (bytes_lt a key) | None => true end.
(** [end.is_some_and(|end| start >= end)]. *)
Definition empty_range (start : bytes) (end_ : option bytes) : bool :=
  match end_ with Some e => bool_decide (bytes_le e start) | None => false end.

(** The default methods of the trait. *)
Section defaults.
Context {S : Type} `{KvStore S}.

Definition contains (s : S) (key : bytes) : result bool StorageError :=
  let? v := kv_get s key in Ok (bool_decide (is_Some v)).

Definition scan_prefix_range (s : S) (prefix start : bytes) (end_ : option bytes) :
    result entry_list StorageError :=
  if empty_range start end_ then Ok []
  else
    let? l := kv_scan_prefix s prefix in
    Ok (filter (λ p, in_range start end_ p.1 = true) l).

Definition visit_prefix_range {A} (s : S) (prefix start : bytes) (end_ : option bytes) (rev : bool)
    (visitor : visitor_t A) (acc : A) : result A StorageError :=
  let? entries := scan_prefix_range s prefix start end_ in
  visit visitor acc (if rev then reverse entries else entries).

Definition prefix_size_bytes (s : S) (prefix : bytes) : result Z StorageError :=
  let? l := kv_scan_prefix s prefix in
  Ok (foldl (λ total p, sat_add total (saturating_entry_len (len p.1) (len p.2))) 0 l).

(** The loop of the default [scan_prefix_after]. *)
Fixpoint collect_after (after : option bytes) (limit : Z) (out l : entry_list) : entry_list :=
  match l with
  | [] => out
  | p :: l =>
      if negb (is_after after p.1) then collect_after after limit out l
      else
        let out := out ++ [p] in
        if limit <=? len out then out else collect_after after limit out l
  end.
Definition scan_prefix_after (s : S) (prefix : bytes) (after : option bytes) (limit : Z) :
    result entry_list StorageError :=
  if limit =? 0 then Ok []
  else let? l := kv_scan_prefix s prefix in Ok (collect_after after limit [] l).

Definition scan_all (s : S) : result entry_list StorageError := kv_scan_prefix s [].

Definition visit_all {A} (s : S) (visitor : A → bytes → bytes → result A StorageError) (acc : A) :
    result A StorageError :=
  let? l := scan_all s in
  foldl (λ r p, let? acc := r in visitor acc p.1 p.2) (Ok acc) l.
End defaults.

(** ** The contract *)

(** The entries of a map under a prefix, ascending. *)
Definition entries_under (m : contents) (prefix : bytes) : entry_list :=
  filter (λ p, starts_with p.1 prefix = true) (bt_iter bytes_le m).

(** Of a map, the keys under one of the prefixes. *)
Definition under_any (prefixes : list bytes) (key : bytes) : bool :=
  existsb (λ p, starts_with key p) prefixes.
Definition keys_ok (m : contents) : Prop := ∀ k v, m !! k = Some v → bytes_ok k.

(** A failed operation has no effect; a successful one does what it does to a map. *)
Definition effect {S} (view : S → contents) (ok : S → Prop) (s : S) (r : result unit StorageError * S)
    (m : contents) : Prop :=
  ok r.2 ∧ match r.1 with Ok _ => view r.2 = m | Err _ => view r.2 = view s end.

(** [kv_ok] is the invariant of the store; a store may hold keys that are not
    byte strings only in the model, which the one law that minds says. *)
Class KvLaws (S : Type) `{KvStore S} := {
  kv_contents : S → contents;
  kv_ok : S → Prop;
  kv_get_spec s k o : kv_ok s → kv_get s k = Ok o → o = kv_contents s !! k;
  kv_put_spec s k v : kv_ok s → effect kv_contents kv_ok s (kv_put s k v) (<[k := v]> (kv_contents s));
  kv_delete_spec s k : kv_ok s → effect kv_contents kv_ok s (kv_delete s k) (delete k (kv_contents s));
  kv_write_spec s b : kv_ok s →
    effect kv_contents kv_ok s (kv_write_batch s b) (apply_batch (kv_contents s) b);
  kv_snapshot_spec s ps n m : kv_ok s → kv_snapshot_prefixes s ps n = Ok m →
    m = filter (λ p, under_any ps p.1 = true) (kv_contents s);
  kv_scan_spec s p l : kv_ok s → kv_scan_prefix s p = Ok l → l = entries_under (kv_contents s) p;
  kv_scan_after_spec s p after limit l :
    kv_ok s → keys_ok (kv_contents s) → 0 <= limit → kv_scan_prefix_after s p after limit = Ok l →
    l = take (Z.to_nat limit) (filter (λ e, is_after after e.1 = true) (entries_under (kv_contents s) p));
}.

(** ** The in-memory store *)

Record MemoryDb := MkMemoryDb { mem_data : contents }.
Definition memory_new : MemoryDb := MkMemoryDb ∅.
Definition memory_len (s : MemoryDb) : Z := Z.of_nat (size (mem_data s)).

Definition SNAPSHOT_ENTRY_OVERHEAD_BYTES : Z := 128.

(** The entries so far, with the bytes charged for them. *)
Definition insert_snapshot_entry (max_bytes : Z) (acc : contents * Z) (key value : bytes) :
    result (contents * Z) StorageError :=
  if bool_decide (is_Some (acc.1 !! key)) then Ok acc
  else
    let bytes :=
      sat_add (sat_add (sat_add acc.2 (len key)) (len value)) SNAPSHOT_ENTRY_OVERHEAD_BYTES in
    if max_bytes <? bytes then Err (Database "prefix snapshot exceeds memory limit")
    else Ok (<[key := value]> acc.1, bytes).

Definition mem_snapshot_prefixes (s : MemoryDb) (prefixes : list bytes) (max_bytes : Z) :
    result contents StorageError :=
  let? r := foldl (λ r p, let? acc := r in insert_snapshot_entry max_bytes acc p.1 p.2) (Ok (∅, 0))
              (filter (λ p, under_any prefixes p.1 = true) (bt_iter bytes_le (mem_data s))) in
  Ok r.1.

(** [data.range(start..end)]. *)
Definition mem_range (s : MemoryDb) (start : bytes) (end_ : option bytes) : entry_list :=
  filter (λ p, in_range start end_ p.1 = true) (bt_iter bytes_le (mem_data s)).

Definition mem_scan_prefix_range (s : MemoryDb) (prefix start : bytes) (end_ : option bytes) :
    result entry_list StorageError :=
  if empty_range start end_ then Ok []
  else Ok (filter (λ p, starts_with p.1 prefix && in_range start end_ p.1 = true)
             (bt_iter bytes_le (mem_data s))).

Definition mem_visit_prefix_range {A} (s : MemoryDb) (prefix start : bytes) (end_ : option bytes)
    (rev : bool) (visitor : visitor_t A) (acc : A) : result A StorageError :=
  let '(start, end_) := prefix_range_bounds prefix start end_ in
  if empty_range start end_ then Ok acc
  else
    let entries := mem_range s start end_ in
    visit visitor acc (if rev then reverse entries else entries).

Definition mem_prefix_size_bytes (s : MemoryDb) (prefix : bytes) : result Z StorageError :=
  Ok (foldl (λ total p, sat_add total (saturating_entry_len (len p.1) (len p.2))) 0
        (filter (λ p, starts_with p.1 prefix = true) (bt_iter bytes_le (mem_data s)))).

Definition mem_scan_prefix_after (s : MemoryDb) (prefix : bytes) (after : option bytes) (limit : Z) :
    result entry_list StorageError :=
  if limit =? 0 then Ok []
  else
    let '(start, end_) := prefix_range_bounds prefix (unwrap_or prefix after) None in
    if empty_range start end_ then Ok []
    else Ok (take (Z.to_nat limit) (filter (λ p, is_after after p.1 = true) (mem_range s start end_))).

(** Iteration is ascending already: the sort after it changes nothing. *)
#[global] Instance memory_store : KvStore MemoryDb := {|
  kv_get s k := Ok (mem_data s !! k);
  kv_put s k v := (Ok tt, MkMemoryDb (<[k := v]> (mem_data s)));
  kv_delete s k := (Ok tt, MkMemoryDb (delete k (mem_data s)));
  kv_flush _ := Ok tt;
  kv_write_batch s b := (Ok tt, MkMemoryDb (apply_batch (mem_data s) b));
  kv_snapshot_prefixes := mem_snapshot_prefixes;
  kv_scan_prefix s p := Ok (filter (λ e, starts_with e.1 p = true) (bt_iter bytes_le (mem_data s)));
  kv_scan_prefix_after := mem_scan_prefix_after;
|}.

(** ** Bounds are exact *)

(** [prefix_end] from the front. *)
Fixpoint next_prefix (l : bytes) : option bytes :=
  match l with
  | [] => None
  | x :: l => match next_prefix l with
              | Some e => Some (x :: e)
              | None => if x =? u8_max then None else Some [x + 1]
              end
  end.

Lemma pop_max_snoc l x :
  pop_max (l ++ [x]) = match pop_max l with [] => pop_max [x] | d => d ++ [x] end.
Proof.
  induction l as [|y l IH]; [done|]. cbn [app pop_max]. destruct (y =? u8_max); [apply IH|done].
Qed.

Lemma prefix_end_front l : prefix_end l = next_prefix l.
Proof.
  induction l as [|x l IH]; [done|]. rw /prefix_end reverse_cons pop_max_snoc.
  rw /prefix_end in IH. cbn [next_prefix]. destruct (pop_max (reverse l)) as [|y r].
  - rw -IH /=. destruct (x =? u8_max); [done|]. by rw reverse_singleton.
  - rw -IH. cbn [app]. f_equal. by rw app_comm_cons reverse_app reverse_singleton.
Qed.

Lemma next_prefix_spec p k :
  bytes_ok k →
  p `prefix_of` k ↔ bytes_le p k ∧ match next_prefix p with Some e => bytes_lt k e | None => True end.
Proof.
  rw /bytes_le /bytes_lt. revert k. induction p as [|x p IH]; intros k Hk.
  { split; [|intros; apply prefix_nil]. split; [by destruct k|done]. }
  destruct k as [|y k]; cbn [bytes_cmp next_prefix].
  { split; [|by intros [? _]]. by intros ?%prefix_nil_not. }
  apply Forall_cons in Hk as [Hy Hk].
  destruct (Z.compare_spec x y) as [->|Hlt|Hgt].
  - split.
    + intros Hp%prefix_cons_inv_2. apply (IH _ Hk) in Hp as [Hle Hup]. split; [done|].
      destruct (next_prefix p); simpl; [by rw Z.compare_refl|]. destruct (y =? u8_max); [done|].
      by rw /= (proj2 (Z.compare_lt_iff y (y + 1))); [lia|].
    + intros [Hle Hup]. apply prefix_cons, IH; [done|]. split; [done|].
      destruct (next_prefix p); [|done]. by rw /= Z.compare_refl in Hup.
  - split; [by intros ->%prefix_cons_inv_1; lia|]. intros [_ Hup]. exfalso.
    destruct (next_prefix p); simpl in Hup.
    + by rw (proj2 (Z.compare_gt_iff y x)) in Hup; [lia|].
    + destruct (Z.eqb_spec x u8_max); [unfold u8_max in *; lia|]. simpl in Hup.
      destruct (Z.compare_spec y (x + 1)); [|lia|done]. by destruct k.
  - split; [by intros ->%prefix_cons_inv_1; lia|]. by intros [? _].
Qed.

Lemma bytes_le_max a b k : bytes_le (bytes_max a b) k ↔ bytes_le a k ∧ bytes_le b k.
Proof.
  rw /bytes_max. case_decide as H; [split; [|tauto]; intros; split; [by etrans|done]|].
  apply bytes_nle in H. assert (bytes_le b a) by (apply bytes_le_lt_eq; by left).
  split; [|tauto]. intros. split; [done|by etrans].
Qed.

Lemma bytes_lt_min k a b : bytes_lt k (bytes_min a b) ↔ bytes_lt k a ∧ bytes_lt k b.
Proof.
  rw /bytes_min -!bytes_nle. case_decide as Hab.
  - split; [|tauto]. intros Hk. split; [done|]. intros Hb. apply Hk. by etrans.
  - apply bytes_nle in Hab. assert (bytes_le b a) by (apply bytes_le_lt_eq; by left).
    split; [|tauto]. intros Hk. split; [|done]. intros Ha. apply Hk. by etrans.
Qed.

Lemma prefix_le p k : p `prefix_of` k → bytes_le p k.
Proof.
  intros [r ->]. rw /bytes_le. induction p as [|x p IH]; [by destruct r|]. by rw /= Z.compare_refl.
Qed.

(** The computed range is the prefix within the given range. *)
Lemma bounds_exact prefix start end_ k :
  bytes_ok k →
  let r := prefix_range_bounds prefix start end_ in
  in_range r.1 r.2 k = starts_with k prefix && in_range start end_ k.
Proof.
  intros Hk. apply Bool.eq_iff_eq_true.
  rw /prefix_range_bounds prefix_end_front /in_range /starts_with /= !andb_true_iff !bool_decide_eq_true.
  rw (next_prefix_spec _ _ Hk) bytes_le_max. destruct (next_prefix prefix) as [e|], end_ as [e'|];
    rw ?bool_decide_eq_true ?bytes_lt_min; tauto.
Qed.

Lemma empty_range_none start end_ k : empty_range start end_ = true → in_range start end_ k = false.
Proof.
  rw /empty_range /in_range. destruct end_ as [e|]; [|done]. intros Hle%bool_decide_eq_true.
  apply andb_false_iff. destruct (decide (bytes_le start k)); [right|left; by apply bool_decide_eq_false].
  apply bool_decide_eq_false. intros Hlt%bytes_nle. apply Hlt. by etrans.
Qed.

(** ** The in-memory store keeps the contract *)

Section memory.
Implicit Types (s : MemoryDb) (p : bytes).

(** The entries of a bounded range, whether or not it is empty. *)
Lemma mem_range_bounds s prefix start end_ :
  keys_ok (mem_data s) →
  let r := prefix_range_bounds prefix start end_ in
  (if empty_range r.1 r.2 then [] else mem_range s r.1 r.2) =
  filter (λ e, starts_with e.1 prefix && in_range start end_ e.1 = true) (bt_iter bytes_le (mem_data s)).
Proof.
  intros Hks. cbv zeta.
  assert (Heq : mem_range s (prefix_range_bounds prefix start end_).1 (prefix_range_bounds prefix start end_).2 =
    filter (λ e, starts_with e.1 prefix && in_range start end_ e.1 = true) (bt_iter bytes_le (mem_data s))).
  { apply filter_ext_in. intros [k v] Hin%elem_of_bt_iter. simpl. by rw bounds_exact; [by eapply Hks|]. }
  rw -Heq. destruct (empty_range _ _) eqn:E; [|done]. symmetry. apply filter_none.
  intros [k v] _. simpl. by rw empty_range_none.
Qed.

Lemma mem_scan_after_ok s p after limit :
  keys_ok (mem_data s) → 0 <= limit →
  mem_scan_prefix_after s p after limit =
  Ok (take (Z.to_nat limit) (filter (λ e, is_after after e.1 = true) (entries_under (mem_data s) p))).
Proof.
  intros Hks Hl. rw /mem_scan_prefix_after. destruct (Z.eqb_spec limit 0) as [->|Hne]; [done|].
  pose proof (mem_range_bounds s p (unwrap_or p after) None Hks) as Hb. revert Hb.
  destruct (prefix_range_bounds p (unwrap_or p after) None) as [lo hi]. cbn [fst snd].
  intros Hb. assert (Hin : filter (λ e, is_after after e.1 = true) (if empty_range lo hi then [] else mem_range s lo hi) =
    filter (λ e, is_after after e.1 = true) (entries_under (mem_data s) p)).
  { rw Hb /entries_under !filter_filter_and. apply filter_ext_in. intros [k v] _. simpl.
    rw /in_range andb_true_r !andb_true_iff bool_decide_eq_true. destruct after as [a|]; simpl.
    - rw bool_decide_eq_true bytes_le_lt_eq. tauto.
    - rw /starts_with bool_decide_eq_true. split; [tauto|]. intros [Hp _]. split_and!; [done| |done].
      by apply prefix_le. }
  rw -Hin. destruct (empty_range lo hi); [|done]. by rw take_nil.
Qed.

Lemma collect_after_ok after limit l out :
  0 < limit → len out < limit →
  collect_after after limit out l =
  take (Z.to_nat limit) (out ++ filter (λ e, is_after after e.1 = true) l).
Proof.
  intros Hl. revert out. induction l as [|e l IH]; intros out Hout; cbn [collect_after].
  { rw app_nil_r take_ge //. unfold len in Hout. lia. }
  rw filter_cons. destruct (is_after after e.1) eqn:E; simpl.
  - rw (cons_middle _ _ (filter _ _)) app_assoc. destruct (Z.leb_spec limit (len (out ++ [e]))) as [Hge|Hlt].
    + rw /len in Hge Hout. assert (Hn : length (out ++ [e]) = Z.to_nat limit).
      { rw length_app /= in Hge |- *. lia. }
      by rw -Hn take_app_length.
    + by apply IH.
  - by apply IH.
Qed.

(** The in-memory scans agree with the default methods. *)
Lemma mem_scan_range_ok s prefix start end_ :
  mem_scan_prefix_range s prefix start end_ = scan_prefix_range s prefix start end_.
Proof.
  rw /mem_scan_prefix_range /scan_prefix_range. destruct (empty_range start end_); [done|].
  simpl. f_equal. rw filter_filter_and. apply filter_ext_in. intros e _. by rw andb_true_iff.
Qed.

Lemma mem_visit_ok {A} s prefix start end_ rev (visitor : visitor_t A) acc :
  keys_ok (mem_data s) →
  mem_visit_prefix_range s prefix start end_ rev visitor acc =
  visit_prefix_range s prefix start end_ rev visitor acc.
Proof.
  intros Hks. rw /mem_visit_prefix_range /visit_prefix_range -mem_scan_range_ok.
  pose proof (mem_range_bounds s prefix start end_ Hks) as Hb. revert Hb.
  destruct (prefix_range_bounds prefix start end_) as [lo hi]. cbn [fst snd]. intros Hb.
  assert (mem_scan_prefix_range s prefix start end_ = Ok (if empty_range lo hi then [] else mem_range s lo hi)) as ->.
  { rw Hb /mem_scan_prefix_range. destruct (empty_range start end_) eqn:E; [|done]. f_equal.
    symmetry. apply filter_none. intros e _. by rw empty_range_none // andb_false_r. }
  simpl. destruct (empty_range lo hi); [by destruct rev|done].
Qed.

Lemma default_scan_after s p after limit :
  0 <= limit →
  scan_prefix_after s p after limit =
  Ok (take (Z.to_nat limit) (filter (λ e, is_after after e.1 = true) (entries_under (mem_data s) p))).
Proof.
  intros Hl. rw /scan_prefix_after. destruct (Z.eqb_spec limit 0) as [->|Hne]; [done|].
  simpl. rw collect_after_ok //; unfold len; simpl; lia.
Qed.

(** *** Snapshots *)

Lemma insert_snapshot_ok max acc k v acc' :
  insert_snapshot_entry max acc k v = Ok acc' → acc.1 !! k = None → acc'.1 = <[k := v]> acc.1.
Proof.
  rw /insert_snapshot_entry. intros Hi Hk. rw Hk bool_decide_eq_false_2 in Hi; [by intros []|].
  case_match; [done|]. by simplify_eq.
Qed.

Lemma snapshot_fold max l : ∀ acc acc',
  NoDup l.*1 → (∀ k, k ∈ l.*1 → acc.1 !! k = None) →
  foldl (λ r e, let? acc := r in insert_snapshot_entry max acc e.1 e.2) (Ok acc) l = Ok acc' →
  acc'.1 = list_to_map l ∪ acc.1.
Proof.
  induction l as [|[k v] l IH]; intros acc acc' Hnd Hf; simpl.
  { intros [= <-]. by rw left_id_L. }
  apply NoDup_cons in Hnd as [Hk Hnd].
  destruct (insert_snapshot_entry max acc k v) as [acc1|e] eqn:E.
  - apply insert_snapshot_ok in E; [|apply Hf; left]. intros Hr. apply IH in Hr; [|done|].
    + rw Hr E. rw -insert_union_l -insert_union_r //. by apply not_elem_of_list_to_map_1.
    + intros k' Hk'. rw E lookup_insert_ne; [|apply Hf; by right]. by intros ->.
  - intros Hr. exfalso. revert Hr. clear. induction l as [|p l IH]; simpl; [done|apply IH].
Qed.

Lemma mem_snapshot_ok s ps n m :
  mem_snapshot_prefixes s ps n = Ok m → m = filter (λ e, under_any ps e.1 = true) (mem_data s).
Proof.
  rw /mem_snapshot_prefixes bind_ok. intros ([m' b] & Hf & [= <-]). simpl.
  set (l := filter _ (bt_iter bytes_le (mem_data s))) in Hf.
  apply snapshot_fold in Hf; [|apply bt_filter_keys_NoDup|intros; apply lookup_empty]. simpl in Hf. rw right_id_L in Hf. subst m'.
  apply list_to_map_bt_filter.
Qed.

#[global] Instance memory_laws : KvLaws MemoryDb.
Proof.
  refine {| kv_contents := mem_data; kv_ok _ := True |}; try done.
  - by intros s k o _ [= <-].
  - intros s ps n m _. apply mem_snapshot_ok.
  - by intros s p l _ [= <-].
  - intros s p after limit l _ Hks Hl. cbn [kv_scan_prefix_after memory_store].
    rw mem_scan_after_ok //. by intros [= <-].
Defined.

(** [MemoryDb] overrides four scanning methods of [KvStore] with its own code:
    [visit_prefix_range] walks a computed key range, [scan_prefix_after] starts
    from one, [scan_prefix_range] and [prefix_size_bytes] filter in one pass. When
    every stored key is a byte string, each returns exactly what the default
    method of the trait returns, with the same visits in the same order and
    the same errors of the visitor; so the half-open range
    [prefix_range_bounds] computes is exact even when the prefix ends in [0xff]
    bytes and has no successor. *)
Theorem native_scans_agree s prefix start end_ after limit :
  keys_ok (mem_data s) → 0 <= limit →
  mem_scan_prefix_range s prefix start end_ = scan_prefix_range s prefix start end_ ∧
  (∀ A rev (visitor : visitor_t A) acc,
     mem_visit_prefix_range s prefix start end_ rev visitor acc =
     visit_prefix_range s prefix start end_ rev visitor acc) ∧
  mem_prefix_size_bytes s prefix = prefix_size_bytes s prefix ∧
  mem_scan_prefix_after s prefix after limit = scan_prefix_after s prefix after limit.
Proof.
  intros Hks Hl. split_and!; [apply mem_scan_range_ok|intros; by apply mem_visit_ok|done|].
  by rw mem_scan_after_ok // default_scan_after.
Qed.

End memory.

Definition scan_example : MemoryDb := MkMemoryDb {[ [7; 255] := [1]; [7; 255; 3] := [2]; [8] := [3]; [255; 255] := [4] ]}.

Lemma native_scans_agree_witness :
  mem_scan_prefix_after scan_example [7; 255] (Some [7; 255]) 5 = Ok [([7; 255; 3], [2])] ∧
  mem_scan_prefix_after scan_example [7; 255] (Some [7; 255]) 5 =
    scan_prefix_after scan_example [7; 255] (Some [7; 255]) 5 ∧
  mem_visit_prefix_range scan_example [255; 255] [0] None true (λ n k _, Ok (true, n + len k)) 0 =
    visit_prefix_range scan_example [255; 255] [0] None true (λ n k _, Ok (true, n + len k)) 0.
Proof.
  assert (Hks : keys_ok (mem_data scan_example)).
  { apply map_Forall_to_list. vm_compute. by repeat constructor. }
  destruct (native_scans_agree scan_example [7; 255] [0] None (Some [7; 255]) 5 Hks ltac:(lia)) as (_ & _ & _ & H1).
  destruct (native_scans_agree scan_example [255; 255] [0] None None 5 Hks ltac:(lia)) as (_ & H2 & _).
  split_and!; [by vm_compute|exact H1|apply H2].
Defined.
