(* ===== verification/Overlay.v ===== *)
(** * Overlays

    crates/storage/src/overlay_store.rs: a copy-on-write view over a store.
    Writes are staged in [changes]; reads fall through to the base.  A view may
    be bounded ([with_write_limit]), frozen at a snapshot of some prefixes
    ([with_snapshot_prefixes]), and made durable in a private namespace of the
    base ([with_replay_namespace], [persist_replay_checkpoint]).

    The base is shared with other holders ([Arc<S>]): it is a field of the state,
    and another holder's write is a change of that field ([set_base]). *)

From S2P Require Import Prelude Primitives Fee Rlp Transaction TxValidation BTree KvStore.

Abbreviation staged := (gmap bytes (option bytes)).

Record OverlayStore (B : Type) := MkOverlay {
  base : B;
  write_limit : option Z;
  replay_namespace : option bytes;
  staged_bytes : Z;
  frozen_prefixes : list bytes;
  changes : staged;
}.
Arguments MkOverlay {B}.
Arguments base {B}.
Arguments write_limit {B}.
Arguments replay_namespace {B}.
Arguments staged_bytes {B}.
Arguments frozen_prefixes {B}.
Arguments changes {B}.

Section overlay.
Context {B : Type} `{KvStore B}.
Implicit Types (o : OverlayStore B) (b : B) (k p : bytes).

Definition set_base o b : OverlayStore B :=
  MkOverlay b (write_limit o) (replay_namespace o) (staged_bytes o) (frozen_prefixes o) (changes o).
Definition set_staged o (n : Z) (c : staged) : OverlayStore B :=
  MkOverlay (base o) (write_limit o) (replay_namespace o) n (frozen_prefixes o) c.

(** [key.len() + value.map_or(0, Vec::len) + 64] *)
Definition staged_size (key : bytes) (value : option bytes) : Z :=
  len key + match value with Some v => len v | None => 0 end + 64.

(** ** Construction *)

Definition overlay_new b : OverlayStore B := MkOverlay b None None 0 [] ∅.

Definition with_snapshot_prefixes b (prefixes : list bytes) (max_bytes : Z) :
    result (OverlayStore B) StorageError :=
  let? entries := kv_snapshot_prefixes b prefixes max_bytes in
  let n := foldl (λ n e, wrapping_add n (staged_size e.1 (Some e.2))) 0 (bt_iter bytes_le entries) in
  Ok (MkOverlay b None None n prefixes (Some <$> entries)).

Definition with_write_limit o (max_bytes : Z) : result (OverlayStore B) StorageError :=
  if max_bytes <? staged_bytes o then Err (Database "replay overlay write limit exceeded")
  else Ok (MkOverlay (base o) (Some max_bytes) (replay_namespace o) (staged_bytes o)
             (frozen_prefixes o) (changes o)).

Definition with_replay_namespace o (namespace : bytes) : result (OverlayStore B) StorageError :=
  if bool_decide (namespace = []) || bool_decide (frozen_prefixes o = [])
  then Err (InvalidInput "durable replay requires a private namespace and frozen prefixes")
  else Ok (MkOverlay (base o) (write_limit o) (Some namespace) (staged_bytes o)
             (frozen_prefixes o) (changes o)).

Definition reopen_replay b (namespace : bytes) (prefixes : list bytes) :
    result (OverlayStore B) StorageError :=
  with_replay_namespace (MkOverlay b None None 0 prefixes ∅) namespace.

(** ** Durable replay *)

(** [b"cursor"] and [b"data/"]. *)
Definition CURSOR : bytes := [99; 117; 114; 115; 111; 114].
Definition DATA : bytes := [100; 97; 116; 97; 47].

Definition replay_key o (suffix : bytes) : result bytes StorageError :=
  let? namespace := ok_or (replay_namespace o) (InvalidInput "replay namespace unavailable") in
  Ok (namespace ++ suffix).

Definition replay_checkpoint o : result (option bytes) StorageError :=
  let? k := replay_key o CURSOR in kv_get (base o) k.

Definition encode_replay_value (value : option bytes) : bytes :=
  match value with Some v => 1 :: v | None => [0] end.

Definition decode_replay_value (value : bytes) : result (option bytes) StorageError :=
  match value with
  | [0] => Ok None
  | 1 :: rest => Ok (Some rest)
  | _ => Err (Database "invalid persisted replay value")
  end.

(** [self.base.write_batch(batch)?; changes.clear(); self.staged_bytes.store(0)] *)
Definition flush_staged o (batch : WriteBatch) : result unit StorageError * OverlayStore B :=
  let '(r, b) := kv_write_batch (base o) batch in
  match r with
  | Ok _ => (Ok tt, set_staged (set_base o b) 0 ∅)
  | Err e => (Err e, set_base o b)
  end.

Definition persist_replay_checkpoint o (cursor : bytes) : result unit StorageError * OverlayStore B :=
  match (let? prefix := replay_key o DATA in
         let batch := foldl (λ batch e, batch_put batch (prefix ++ e.1) (encode_replay_value e.2))
                        batch_new (bt_iter bytes_le (changes o)) in
         let? key := replay_key o CURSOR in
         Ok (batch_put batch key cursor)) with
  | Ok batch => flush_staged o batch
  | Err e => (Err e, o)
  end.

(** The inner loop of [clear_replay]: the keys of up to [n] more entries. *)
Fixpoint clear_chunk (n : nat) (prefix : bytes) (after : option bytes) (batch : WriteBatch) b :
    result WriteBatch StorageError :=
  match n with
  | O => Ok batch
  | S n =>
      let? entries := kv_scan_prefix_after b prefix after 1 in
      match last entries with
      | None => Ok batch
      | Some (key, _) => clear_chunk n prefix (Some key) (batch_delete batch key) b
      end
  end.

(** The outer loop; [None] when the fuel runs out. *)
Fixpoint clear_loop (fuel : nat) (prefix : bytes) b : option (result unit StorageError * B) :=
  match fuel with
  | O => None
  | S fuel =>
      match clear_chunk 128 prefix None batch_new b with
      | Err e => Some (Err e, b)
      | Ok [] => Some (Ok tt, b)
      | Ok batch =>
          match kv_write_batch b batch with
          | (Ok _, b) => clear_loop fuel prefix b
          | (Err e, b) => Some (Err e, b)
          end
      end
  end.

Definition clear_replay (fuel : nat) o : option (result unit StorageError * OverlayStore B) :=
  match replay_key o CURSOR, replay_key o DATA with
  | Ok cursor, Ok prefix =>
      match kv_delete (base o) cursor with
      | (Ok _, b) => prod_map id (set_base o) <$> clear_loop fuel prefix b
      | (Err e, b) => Some (Err e, set_base o b)
      end
  | Err e, _ | _, Err e => Some (Err e, o)
  end.

(** ** Reading *)

Definition frozen o (key : bytes) : bool := under_any (frozen_prefixes o) key.

Definition unstaged_value o (key : bytes) : result (option bytes) StorageError :=
  let through := if frozen o key then Ok None else kv_get (base o) key in
  match replay_namespace o with
  | Some _ =>
      let? prefix := replay_key o DATA in
      let? stored := kv_get (base o) (prefix ++ key) in
      match stored with Some value => decode_replay_value value | None => through end
  | None => through
  end.

Definition overlay_get o (key : bytes) : result (option bytes) StorageError :=
  match changes o !! key with Some value => Ok value | None => unstaged_value o key end.

(** [Some(value) => entries.insert(key, value), None => entries.remove(key)] *)
Definition overlay_entry (entries : contents) (key : bytes) (value : option bytes) : contents :=
  match value with Some v => <[key := v]> entries | None => delete key entries end.

Definition merge_persisted (dlen : nat) (r : result contents StorageError) (e : bytes * bytes) :
    result contents StorageError :=
  let? entries := r in
  let? value := decode_replay_value e.2 in
  Ok (overlay_entry entries (drop dlen e.1) value).

Definition merged_entries o (prefix : bytes) : result contents StorageError :=
  let? l := if frozen o prefix then Ok [] else kv_scan_prefix (base o) prefix in
  let entries := list_to_map (filter (λ e, frozen o e.1 = false) l) in
  let? entries :=
    match replay_namespace o with
    | Some namespace =>
        let entries := filter (λ e, starts_with e.1 namespace = false) entries in
        let? data_prefix := replay_key o DATA in
        let? persisted := kv_scan_prefix (base o) (data_prefix ++ prefix) in
        foldl (merge_persisted (length data_prefix)) (Ok entries) persisted
    | None => Ok entries
    end in
  Ok (foldl (λ entries e, overlay_entry entries e.1 e.2) entries
        (filter (λ e, starts_with e.1 prefix = true) (bt_iter bytes_le (changes o)))).

Definition merged_scan o (prefix : bytes) : result entry_list StorageError :=
  let? entries := merged_entries o prefix in Ok (bt_iter bytes_le entries).

(** ** Writing *)

(** The last operation of a batch on each key. *)
Definition collapse (batch : WriteBatch) : staged :=
  foldl (λ updates op, match op with
                       | BatchPut key value => <[key := Some value]> updates
                       | BatchDelete key => <[key := None]> updates
                       end) ∅ batch.

(** The staged size after the updates, entry by entry. *)
Definition resize (c : staged) (n : Z) (e : bytes * option bytes) : Z :=
  let n := match c !! e.1 with Some old => wrapping_sub n (staged_size e.1 old) | None => n end in
  sat_add n (staged_size e.1 e.2).

Definition overlay_write_batch o (batch : WriteBatch) : result unit StorageError * OverlayStore B :=
  let updates := bt_iter bytes_le (collapse batch) in
  let n := foldl (resize (changes o)) (staged_bytes o) updates in
  if match write_limit o with Some limit => limit <? n | None => false end
  then (Err (Database "replay overlay write limit exceeded"), o)
  else (Ok tt, set_staged o n (foldl (λ c e, <[e.1 := e.2]> c) (changes o) updates)).

Definition overlay_put o (key value : bytes) : result unit StorageError * OverlayStore B :=
  overlay_write_batch o (batch_put batch_new key value).
Definition overlay_delete o (key : bytes) : result unit StorageError * OverlayStore B :=
  overlay_write_batch o (batch_delete batch_new key).

(** ** Commit *)

Definition stage_op (batch : WriteBatch) (e : bytes * option bytes) : WriteBatch :=
  match e.2 with Some value => batch_put batch e.1 value | None => batch_delete batch e.1 end.
Definition copy_op (batch : WriteBatch) (op : WriteBatchOp) : WriteBatch :=
  match op with BatchPut key value => batch_put batch key value | BatchDelete key => batch_delete batch key end.

Definition commit_with_batch o (additional : WriteBatch) : result unit StorageError * OverlayStore B :=
  if negb (bool_decide (frozen_prefixes o = []))
  then (Err (Database "cannot commit a frozen replay overlay"), o)
  else
    let batch := foldl stage_op batch_new (bt_iter bytes_le (changes o)) in
    flush_staged o (foldl copy_op batch additional).

Definition commit o : result unit StorageError * OverlayStore B := commit_with_batch o batch_new.

(** ** Journals *)

Definition checkpoint o : result staged StorageError := Ok (changes o).

(** [changes.range(prefix..)] up to the first key without the prefix. *)
Fixpoint while_prefix {A} (prefix : bytes) (l : list (bytes * A)) : list (bytes * A) :=
  match l with
  | [] => []
  | e :: l => if starts_with e.1 prefix then e :: while_prefix prefix l else []
  end.
Definition range_prefix {A} (prefix : bytes) (c : gmap bytes A) : list (bytes * A) :=
  while_prefix prefix (bt_from bytes_le prefix c).

Definition checkpoint_prefixes o (prefixes : list bytes) : result staged StorageError :=
  Ok (foldl (λ cp prefix, foldl (λ cp e, <[e.1 := e.2]> cp) cp (range_prefix prefix (changes o)))
        ∅ prefixes).

(** One staged entry against the checkpoint. *)
Definition previous_value o (cp : staged) (r : result staged StorageError) (e : bytes * option bytes) :
    result staged StorageError :=
  let? previous := r in
  if bool_decide (cp !! e.1 = Some e.2) then Ok previous
  else
    let? old_value := match cp !! e.1 with Some value => Ok value | None => unstaged_value o e.1 end in
    Ok (<[e.1 := old_value]> previous).

Definition previous_values_since o (cp : staged) (prefixes : list bytes) :
    result (list (bytes * option bytes)) StorageError :=
  let? previous :=
    foldl (λ r prefix, foldl (previous_value o cp) r (range_prefix prefix (changes o))) (Ok ∅) prefixes in
  Ok (bt_iter bytes_le previous).

(** [scan_prefix_after] is the default method. *)
#[global] Instance overlay_store : KvStore (OverlayStore B) := {|
  kv_get := overlay_get;
  kv_put := overlay_put;
  kv_delete := overlay_delete;
  kv_flush _ := Ok tt;
  kv_write_batch := overlay_write_batch;
  kv_snapshot_prefixes _ _ _ := Err (Database "consistent prefix snapshots unavailable");
  kv_scan_prefix := merged_scan;
  kv_scan_prefix_after o prefix after limit :=
    if limit =? 0 then Ok []
    else let? l := merged_scan o prefix in Ok (collect_after after limit [] l);
|}.

End overlay.
