(* ===== verification/OverlayView.v ===== *)
(** * What an overlay shows

    The contents seen through an overlay (Overlay.v) as a map: staged changes
    over persisted replay data over the part of the base that is not frozen.
    Every read of an overlay is a read of that map, so an overlay without a
    replay namespace over a lawful store is itself a lawful store. *)

From S2P Require Import Prelude Primitives Fee Rlp Transaction TxValidation BTree KvStore Overlay.

(** Staged changes on top of a map. *)
Definition apply_changes (c : staged) (m : contents) : contents :=
  merge (λ ov w, match ov with Some v => v | None => w end) c m.

Lemma lookup_apply_changes c m k :
  apply_changes c m !! k = match c !! k with Some v => v | None => m !! k end.
Proof. rw /apply_changes lookup_merge. by destruct (c !! k), (m !! k). Qed.

Lemma apply_changes_empty m : apply_changes ∅ m = m.
Proof. apply map_eq. intros k. by rw lookup_apply_changes lookup_empty. Qed.

Lemma lookup_overlay_entry m k v k' :
  overlay_entry m k v !! k' = if decide (k = k') then v else m !! k'.
Proof.
  rw /overlay_entry. destruct v; case_decide; subst;
    rw ?lookup_insert_eq ?lookup_insert_ne ?lookup_delete_eq ?lookup_delete_ne //.
Qed.

(** Staging entries one by one is applying the map they form. *)
Lemma overlay_fold l m :
  NoDup l.*1 →
  foldl (λ m (e : bytes * option bytes), overlay_entry m e.1 e.2) m l = apply_changes (list_to_map l) m.
Proof.
  revert m. induction l as [|[k v] l IH]; intros m Hnd; [by rw apply_changes_empty|].
  apply NoDup_cons in Hnd as [Hk Hnd]. simpl. rw IH //. apply map_eq. intros k'.
  rw !lookup_apply_changes lookup_overlay_entry. case_decide as Hkk; [subst k'|by rw lookup_insert_ne].
  by rw lookup_insert_eq not_elem_of_list_to_map_1.
Qed.

(** ** Batches *)

Lemma apply_batch_app m b b' : apply_batch m (b ++ b') = apply_batch (apply_batch m b) b'.
Proof. apply foldl_app. Qed.

Lemma apply_batch_stage m b l :
  apply_batch m (foldl stage_op b l) = foldl (λ m e, overlay_entry m e.1 e.2) (apply_batch m b) l.
Proof.
  revert b. induction l as [|[k v] l IH]; intros b; [done|]. simpl. rw IH. f_equal.
  by destruct v; rw /stage_op /= apply_batch_app.
Qed.

Lemma copy_ops b l : foldl copy_op b l = b ++ l.
Proof.
  revert b. induction l as [|op l IH]; intros b; simpl; [by rw app_nil_r|].
  rw IH. by destruct op; rw /= /batch_put /batch_delete -app_assoc.
Qed.

Lemma lookup_stage_op (u : staged) op k m :
  apply_changes (match op with BatchPut key value => <[key := Some value]> u
                             | BatchDelete key => <[key := None]> u end) m !! k =
  apply_op (apply_changes u m) op !! k.
Proof.
  destruct op as [k0 v|k0]; simpl; rw !lookup_apply_changes; destruct (decide (k0 = k)) as [->|];
    rw ?lookup_insert_eq ?lookup_insert_ne ?lookup_delete_eq ?lookup_delete_ne // lookup_apply_changes //.
Qed.

(** A collapsed batch over staged changes is the batch on what they show. *)
Lemma collapse_spec c m batch :
  apply_changes (collapse batch ∪ c) m = apply_batch (apply_changes c m) batch.
Proof.
  unfold collapse.
  assert (Hgen : ∀ u, apply_changes (foldl (λ updates op, match op with
       | BatchPut key value => <[key := Some value]> updates
       | BatchDelete key => <[key := None]> updates end) u batch ∪ c) m =
    apply_batch (apply_changes (u ∪ c) m) batch); [|by rw Hgen left_id_L].
  induction batch as [|op batch IH]; intros u; [done|]. simpl. rw IH. f_equal.
  apply map_eq. intros k. rw -lookup_stage_op. f_equal. by destruct op; rw insert_union_l.
Qed.

Lemma insert_fold {A} (l : list (bytes * A)) (c : gmap bytes A) :
  NoDup l.*1 → foldl (λ c e, <[e.1 := e.2]> c) c l = list_to_map l ∪ c.
Proof.
  revert c. induction l as [|[k v] l IH]; intros c Hnd; [by rw left_id_L|].
  apply NoDup_cons in Hnd as [Hk Hnd]. simpl. rw IH // -insert_union_l -insert_union_r //.
  by apply not_elem_of_list_to_map_1.
Qed.

(** ** Persisted replay data *)

Definition persisted (raw : bytes) : option bytes :=
  match decode_replay_value raw with Ok v => v | Err _ => None end.

Lemma replay_value_roundtrip v : decode_replay_value (encode_replay_value v) = Ok v.
Proof. by destruct v. Qed.

Lemma merge_persisted_err n e l : foldl (merge_persisted n) (Err e) l = Err e.
Proof. by induction l. Qed.

Lemma merge_persisted_ok n l m m' :
  foldl (merge_persisted n) (Ok m) l = Ok m' →
  m' = foldl (λ m e, overlay_entry m e.1 e.2) m ((λ e, (drop n e.1, persisted e.2)) <$> l).
Proof.
  revert m. induction l as [|[k raw] l IH]; intros m; simpl; [by intros [= <-]|].
  rw /merge_persisted /= -/(merge_persisted n) /persisted.
  destruct (decode_replay_value raw) as [v|e]; simpl; [apply IH|]. by rw merge_persisted_err.
Qed.

(** The replay data of a namespace: [data_prefix ++ k] holds the encoded value of [k]. *)
Lemma starts_with_app p k : starts_with (p ++ k) p = true.
Proof. apply bool_decide_eq_true. by exists k. Qed.
Lemma starts_with_iff k p : starts_with k p = true ↔ ∃ r, k = p ++ r.
Proof. by rw /starts_with bool_decide_eq_true. Qed.
Lemma starts_with_app_iff d k p : starts_with (d ++ k) (d ++ p) = starts_with k p.
Proof.
  apply Bool.eq_iff_eq_true. rw !starts_with_iff. split; intros [r Hr]; exists r.
  - rw -app_assoc in Hr. by apply app_inv_head in Hr.
  - by rw Hr app_assoc.
Qed.

Lemma elem_of_entries_under m p k v :
  (k, v) ∈ entries_under m p ↔ starts_with k p = true ∧ m !! k = Some v.
Proof. by rw /entries_under list_elem_of_filter elem_of_bt_iter. Qed.

Lemma persisted_NoDup m d p :
  NoDup ((λ e : bytes * bytes, (drop (length d) e.1, persisted e.2)) <$> entries_under m (d ++ p)).*1.
Proof.
  rw -list_fmap_compose (_ : fst ∘ _ = drop (length d) ∘ fst) // list_fmap_compose.
  apply NoDup_fmap_2_strong; [|apply bt_filter_keys_NoDup].
  assert (Hd : ∀ k, k ∈ (entries_under m (d ++ p)).*1 → ∃ r, k = d ++ r).
  { intros k ([k' v] & -> & [(r & ->)%starts_with_iff _]%elem_of_entries_under)%list_elem_of_fmap.
    exists (p ++ r). by rw app_assoc. }
  intros k1 k2 [r1 ->]%Hd [r2 ->]%Hd. rw !drop_app_length. by intros ->.
Qed.

Lemma lookup_persisted m d p k :
  (list_to_map ((λ e : bytes * bytes, (drop (length d) e.1, persisted e.2)) <$> entries_under m (d ++ p)) : staged)
    !! k = if starts_with k p then persisted <$> m !! (d ++ k) else None.
Proof.
  apply option_eq. intros v. rw -elem_of_list_to_map; [apply persisted_NoDup|].
  rw list_elem_of_fmap. split.
  - intros ([k' raw] & [= -> ->] & [Hp Hm]%elem_of_entries_under).
    apply starts_with_iff in Hp as [r ->]. rw -app_assoc drop_app_length starts_with_app /=.
    by rw -app_assoc in Hm; rw Hm.
  - destruct (starts_with k p) eqn:E; [|done]. intros (raw & Hm & ->)%fmap_Some.
    exists (d ++ k, raw). simpl. rw drop_app_length elem_of_entries_under starts_with_app_iff. done.
Qed.

(** ** The view *)

Section view.
Context {B : Type} `{KvLaws B}.
Implicit Types (o : OverlayStore B) (k p : bytes).

(** A key of the replay namespace, which scans leave out. *)
Definition hidden o k : bool :=
  match replay_namespace o with Some ns => starts_with k ns | None => false end.

Definition through o : contents :=
  filter (λ e, frozen o e.1 = false ∧ hidden o e.1 = false) (kv_contents (base o)).

Definition persisted_at o k : option (option bytes) :=
  match replay_namespace o with
  | Some ns => persisted <$> kv_contents (base o) !! (ns ++ DATA ++ k)
  | None => None
  end.

Definition shown o k : option bytes :=
  match changes o !! k with
  | Some v => v
  | None => match persisted_at o k with Some v => v | None => through o !! k end
  end.

Lemma frozen_under o p k : starts_with k p = true → frozen o p = true → frozen o k = true.
Proof.
  rw /frozen /under_any !existsb_exists. intros [r ->]%starts_with_iff (f & Hf & [r' ->]%starts_with_iff).
  exists f. split; [done|]. rw -app_assoc. apply starts_with_app.
Qed.

(** The part of the base a scan collects. *)
Lemma scan_base o p l k :
  kv_ok (base o) →
  (if frozen o p then Ok [] else kv_scan_prefix (base o) p) = Ok l →
  (list_to_map (filter (λ e, frozen o e.1 = false) l) : contents) !! k =
  if starts_with k p && negb (frozen o k) then kv_contents (base o) !! k else None.
Proof.
  intros Hok Hl. destruct (frozen o p) eqn:Ef.
  - simplify_eq/=. destruct (starts_with k p) eqn:Ek; [|done]. by rw (frozen_under _ p).
  - apply kv_scan_spec in Hl as ->; [|done]. rw /entries_under filter_filter_and list_to_map_bt_filter.
    apply option_eq. intros v. rw map_lookup_filter_Some /=.
    destruct (starts_with k p), (frozen o k); simpl; naive_solver.
Qed.

(** The persisted data a scan puts over them. *)
Lemma scan_persisted o p m0 m1 k :
  kv_ok (base o) →
  (∀ k, m0 !! k = if starts_with k p && negb (frozen o k) then kv_contents (base o) !! k else None) →
  match replay_namespace o with
  | Some namespace =>
      let entries := filter (λ e, starts_with e.1 namespace = false) m0 in
      let? data_prefix := replay_key o DATA in
      let? stored := kv_scan_prefix (base o) (data_prefix ++ p) in
      foldl (merge_persisted (length data_prefix)) (Ok entries) stored
  | None => Ok m0
  end = Ok m1 →
  m1 !! k = if starts_with k p
            then match persisted_at o k with Some v => v | None => through o !! k end else None.
Proof.
  intros Hok Hb. rw /replay_key /persisted_at /through /hidden. destruct (replay_namespace o) as [ns|] eqn:En; cbn [ok_or result_bind].
  - rw bind_ok. intros (l & Hl & Hm1). apply kv_scan_spec in Hl as ->; [|done].
    apply merge_persisted_ok in Hm1 as ->. rw overlay_fold; [apply persisted_NoDup|].
    rw lookup_apply_changes lookup_persisted -app_assoc.
    destruct (starts_with k p) eqn:Ep.
    + destruct (kv_contents (base o) !! (ns ++ DATA ++ k)); [done|]. cbn [fmap option_fmap option_map].
      apply option_eq. intros v. rw !map_lookup_filter_Some Hb Ep /=. destruct (frozen o k); simpl; naive_solver.
    + apply map_lookup_filter_None. left. by rw Hb Ep.
  - intros [= <-]. rw Hb. destruct (starts_with k p); [|done]. simpl. apply option_eq. intros v.
    rw map_lookup_filter_Some /=. destruct (frozen o k); simpl; naive_solver.
Qed.

Lemma merged_entries_ok o p m k :
  kv_ok (base o) → merged_entries o p = Ok m →
  m !! k = if starts_with k p then shown o k else None.
Proof.
  intros Hok. rw /merged_entries bind_ok. intros (l & Hl & Hm).
  apply bind_ok in Hm as (m1 & Hm1 & [= <-]).
  apply (scan_persisted _ p _ _ k Hok) in Hm1; [|intros k'; by apply (scan_base _ p)].
  rw overlay_fold; [apply bt_filter_keys_NoDup|]. rw list_to_map_bt_filter lookup_apply_changes /shown Hm1.
  destruct (starts_with k p) eqn:Ep.
  - destruct (changes o !! k) as [v|] eqn:Ec.
    + by rw (proj2 (map_lookup_filter_Some _ _ k v)).
    + rw (proj2 (map_lookup_filter_None _ _ k)); [by left|done].
  - rw (proj2 (map_lookup_filter_None _ _ k)); [|done]. right. intros v _. simpl. by rw Ep.
Qed.

(** Reads show the view, for keys outside the replay namespace. *)
Lemma overlay_get_ok o k v :
  kv_ok (base o) → hidden o k = false → overlay_get o k = Ok v → v = shown o k.
Proof.
  intros Hok Hh. rw /overlay_get /shown. destruct (changes o !! k) as [w|]; [by intros [= <-]|].
  assert (Ht : (if frozen o k then Ok None else kv_get (base o) k) = Ok v → v = through o !! k).
  { rw /through. intros Hv. destruct (frozen o k) eqn:Ef.
    - simplify_eq. symmetry. apply map_lookup_filter_None. right. intros w _. simpl. rw Ef. naive_solver.
    - apply kv_get_spec in Hv as ->; [|done]. apply option_eq. intros w. rw map_lookup_filter_Some /=. naive_solver. }
  rw /unstaged_value /persisted_at /replay_key. destruct (replay_namespace o) as [ns|]; [|done]. cbn [ok_or result_bind].
  rw bind_ok -app_assoc. intros (w & Hw & Hd). apply kv_get_spec in Hw as ->; [|done].
  destruct (kv_contents (base o) !! (ns ++ DATA ++ k)) as [raw|]; simpl; [|by apply Ht].
  rw /persisted. by rw Hd.
Qed.

End view.
