(* ===== verification/OverlayProps.v ===== *)
(** * Overlays keep their promises

    An overlay is a lawful store (an instance of the contract its own base keeps),
    a commit makes the base what the overlay showed, a durable replay survives
    being reopened, journals restore what they recorded, a frozen view does not
    see later writes, and the write limit is exact. *)

From S2P Require Import Prelude Primitives Fee Rlp Transaction TxValidation BTree KvStore Overlay OverlayView.

Section laws.
Context {B : Type} `{KvLaws B}.
Implicit Types (o : OverlayStore B) (k p : bytes).

Definition overlay_contents o : contents := apply_changes (changes o) (through o).
Definition plain o : Prop := kv_ok (base o) ∧ replay_namespace o = None.

Lemma shown_contents o k : replay_namespace o = None → shown o k = overlay_contents o !! k.
Proof. intros Hn. by rw /shown /persisted_at Hn /overlay_contents lookup_apply_changes. Qed.

Lemma write_batch_accepted o batch o' :
  overlay_write_batch o batch = (Ok tt, o') →
  ∃ n, o' = set_staged o n (collapse batch ∪ changes o).
Proof.
  rw /overlay_write_batch. case_match; [done|]. intros [= <-]. eexists. f_equal.
  rw insert_fold; [apply bt_iter_keys_NoDup|]. by rw list_to_map_bt_iter.
Qed.
Lemma write_batch_cases o batch :
  (∃ n, overlay_write_batch o batch = (Ok tt, set_staged o n (collapse batch ∪ changes o))) ∨
  (∃ e, overlay_write_batch o batch = (Err e, o)).
Proof.
  destruct (overlay_write_batch o batch) as [[[]|e] o'] eqn:E.
  - destruct (write_batch_accepted _ _ _ E) as [n ->]. eauto.
  - right. exists e. revert E. rw /overlay_write_batch. case_match; [|done]. by intros [= _ <-].
Qed.

Lemma overlay_write_effect o batch :
  plain o →
  effect overlay_contents plain o (overlay_write_batch o batch) (apply_batch (overlay_contents o) batch).
Proof.
  intros Hok. destruct (write_batch_cases o batch) as [[n ->]|[e ->]]; split; try done.
  by rw /= /overlay_contents /= collapse_spec.
Qed.

Lemma merged_scan_ok o p l :
  plain o → merged_scan o p = Ok l → l = entries_under (overlay_contents o) p.
Proof.
  intros [Hok Hn]. rw /merged_scan bind_ok. intros (m & Hm & [= <-]).
  rw /entries_under -bt_iter_filter. f_equal. apply map_eq. intros k.
  rw (merged_entries_ok o p) // shown_contents //. apply option_eq. intros v.
  rw map_lookup_filter_Some /=. destruct (starts_with k p); naive_solver.
Qed.

Lemma overlay_get_plain o k v : plain o → overlay_get o k = Ok v → v = overlay_contents o !! k.
Proof.
  intros [Hok Hn] Hv. rw -shown_contents //. apply overlay_get_ok; [done| |done]. by rw /hidden Hn.
Qed.

(** An overlay of a lawful store, or of such an overlay, is a lawful store. *)
#[global] Instance overlay_laws : KvLaws (OverlayStore B).
Proof.
  refine {| kv_contents := overlay_contents; kv_ok := plain |}.
  - intros o k v. apply overlay_get_plain.
  - intros o k v. apply overlay_write_effect.
  - intros o k. apply overlay_write_effect.
  - intros o batch. apply overlay_write_effect.
  - done.
  - intros o p l. apply merged_scan_ok.
  - intros o p after limit l Hok _ Hl. cbn [kv_scan_prefix_after overlay_store].
    destruct (Z.eqb_spec limit 0) as [->|Hne]; [by intros [= <-]|].
    rw bind_ok. intros (l' & Hl' & [= <-]). apply merged_scan_ok in Hl' as ->; [|done].
    rw collect_after_ok //; [lia|]. unfold len. simpl. lia.
Defined.

End laws.

(** ** Staging and committing *)

Section commit.
Context {B : Type} `{KvLaws B}.
Implicit Types (o : OverlayStore B) (k p : bytes).

(** A run of accepted batches. *)
Fixpoint write_all o (batches : list WriteBatch) : result unit StorageError * OverlayStore B :=
  match batches with
  | [] => (Ok tt, o)
  | batch :: batches =>
      match overlay_write_batch o batch with
      | (Ok _, o) => write_all o batches
      | (Err e, o) => (Err e, o)
      end
  end.

Lemma write_all_ok batches : ∀ o o',
  write_all o batches = (Ok tt, o') →
  ∃ n c, o' = set_staged o n c ∧ (∀ k, is_Some (changes o !! k) → is_Some (c !! k)) ∧
         ∀ m, apply_changes c m = foldl apply_batch (apply_changes (changes o) m) batches.
Proof.
  induction batches as [|batch batches IH]; intros o o'; simpl.
  { intros [= <-]. exists (staged_bytes o), (changes o). by destruct o. }
  destruct (write_batch_cases o batch) as [[n ->]|[e ->]]; [|done].
  intros (n' & c & -> & Hdom & Hc)%IH. exists n', c. split_and!; [by destruct o| |].
  - intros k Hk. apply Hdom. simpl. rw lookup_union. destruct (collapse batch !! k), Hk as [v ->]; simpl; eauto.
  - intros m. by rw Hc /= collapse_spec.
Qed.

Lemma flush_staged_cases o batch :
  kv_ok (base o) →
  (∃ b, flush_staged o batch = (Ok tt, set_staged (set_base o b) 0 ∅) ∧ kv_ok b ∧
        kv_contents b = apply_batch (kv_contents (base o)) batch) ∨
  (∃ e b, flush_staged o batch = (Err e, set_base o b) ∧ kv_ok b ∧ kv_contents b = kv_contents (base o)).
Proof.
  intros Hok. rw /flush_staged. destruct (kv_write_spec (base o) batch Hok) as [Hb He].
  destruct (kv_write_batch (base o) batch) as [[[]|e] b]; eauto 7.
Qed.

Lemma through_plain o : replay_namespace o = None → frozen_prefixes o = [] → through o = kv_contents (base o).
Proof.
  intros Hn Hf. rw /through map_filter_id //. intros k v _. by rw /frozen /hidden Hn Hf.
Qed.

Lemma commit_batch o m additional :
  apply_batch m (foldl copy_op (foldl stage_op batch_new (bt_iter bytes_le (changes o))) additional) =
  apply_batch (apply_changes (changes o) m) additional.
Proof.
  rw copy_ops apply_batch_app apply_batch_stage overlay_fold; [apply bt_iter_keys_NoDup|].
  by rw list_to_map_bt_iter.
Qed.

(** C17: an overlay refines its base.  Over any store that keeps the contract of
    [KvStore], staging any run of accepted batches leaves the base alone, and
    every successful read or scan of the overlay returns what applying those
    batches directly would have left; a successful commit then makes the base
    exactly that, followed by the additional batch, and empties the overlay.  A
    commit the base refuses changes neither the base's contents nor what the
    overlay shows.  The overlay is one that may be committed: nothing frozen, no
    replay namespace. *)
Theorem commit_refines o batches o1 additional :
  plain o → frozen_prefixes o = [] → write_all o batches = (Ok tt, o1) →
  let direct := foldl apply_batch (overlay_contents o) batches in
  base o1 = base o ∧
  (∀ k v, kv_get o1 k = Ok v → v = direct !! k) ∧
  (∀ p l, kv_scan_prefix o1 p = Ok l → l = entries_under direct p) ∧
  ∃ r o2, commit_with_batch o1 additional = (r, o2) ∧
    match r with
    | Ok _ => kv_contents (base o2) = apply_batch direct additional ∧
              overlay_contents o2 = kv_contents (base o2) ∧ changes o2 = ∅ ∧ staged_bytes o2 = 0
    | Err _ => kv_contents (base o2) = kv_contents (base o) ∧ overlay_contents o2 = direct
    end.
Proof.
  intros [Hok Hn] Hf Hw direct. destruct (write_all_ok _ _ _ Hw) as (n & c & -> & _ & Hc).
  set (o1 := set_staged o n c). assert (Hp : plain o1) by done.
  assert (Hd : overlay_contents o1 = direct) by (by rw /overlay_contents Hc).
  split_and!; [done|intros k v Hv; by rw -Hd; apply overlay_get_plain|intros p l Hl; by rw -Hd; apply merged_scan_ok|].
  rw /commit_with_batch (bool_decide_eq_true_2 (frozen_prefixes o1 = [])) //. cbn [negb].
  edestruct (flush_staged_cases o1) as [(b & -> & Hb & Hm)|(e & b & -> & Hb & Hm)]; [done| |];
    eexists _, _; (split; [done|]); cbn [base changes staged_bytes set_base set_staged].
  - rw commit_batch in Hm. split; [|split; [|done]].
    + by rw Hm -Hd /overlay_contents (through_plain o1).
    + by rw /overlay_contents apply_changes_empty through_plain.
  - split; [done|]. rw -Hd /overlay_contents. f_equal. by rw !through_plain.
Qed.

End commit.

(** ** Frozen views *)

Section frozen.
Context {B : Type} `{KvLaws B}.
Implicit Types (o : OverlayStore B) (b : B) (k p : bytes).

Lemma apply_changes_some m : apply_changes (Some <$> m) ∅ = m.
Proof.
  apply map_eq. intros k. rw lookup_apply_changes lookup_fmap lookup_empty. by destruct (m !! k).
Qed.

(** Under a frozen prefix only the staged entries count. *)
Lemma frozen_get o k :
  replay_namespace o = None → frozen o k = true → overlay_get o k = Ok (apply_changes (changes o) ∅ !! k).
Proof.
  intros Hn Hf. rw /overlay_get /unstaged_value Hn Hf lookup_apply_changes. by destruct (changes o !! k).
Qed.

Lemma frozen_scan o p :
  replay_namespace o = None → frozen o p = true →
  merged_scan o p = Ok (entries_under (apply_changes (changes o) ∅) p).
Proof.
  intros Hn Hf. rw /merged_scan /merged_entries Hn Hf. cbn [result_bind].
  change (list_to_map (filter _ [])) with (∅ : contents). do 2 f_equal.
  rw /entries_under -!bt_iter_filter. f_equal. rw overlay_fold; [apply bt_iter_keys_NoDup|].
  rw list_to_map_bt_iter. apply map_eq. intros k. rw lookup_apply_changes. apply option_eq. intros v.
  rw map_lookup_filter_Some lookup_apply_changes lookup_empty /=.
  destruct (starts_with k p) eqn:Ek.
  - destruct (changes o !! k) as [w|] eqn:Ec.
    + rw (proj2 (map_lookup_filter_Some _ _ k w)) //. naive_solver.
    + rw (proj2 (map_lookup_filter_None _ _ k)); [by left|]. naive_solver.
  - rw (proj2 (map_lookup_filter_None _ _ k)); [right; intros ? _; by rw /= Ek|]. naive_solver.
Qed.

(** A frozen view is isolated.  An overlay opened by [with_snapshot_prefixes]
    keeps answering reads and scans under the frozen prefixes from the snapshot,
    with its own accepted writes on top, whatever the base has become since; the
    answers never fail.  It cannot be committed. *)
Theorem snapshot_isolated b prefixes max_bytes o b' batches o1 :
  kv_ok b → with_snapshot_prefixes b prefixes max_bytes = Ok o →
  write_all (set_base o b') batches = (Ok tt, o1) →
  let seen := foldl apply_batch (filter (λ e, under_any prefixes e.1 = true) (kv_contents b)) batches in
  (∀ k, under_any prefixes k = true → overlay_get o1 k = Ok (seen !! k)) ∧
  (∀ p, under_any prefixes p = true → merged_scan o1 p = Ok (entries_under seen p)) ∧
  (prefixes ≠ [] → ∀ additional,
     commit_with_batch o1 additional = (Err (Database "cannot commit a frozen replay overlay"), o1)).
Proof.
  intros Hok Ho Hw seen. rw /with_snapshot_prefixes bind_ok in Ho. destruct Ho as (m & Hm & [= <-]).
  apply kv_snapshot_spec in Hm as ->; [|done].
  destruct (write_all_ok _ _ _ Hw) as (n & c & -> & _ & Hc). cbn [changes set_base] in Hc.
  specialize (Hc ∅). rw apply_changes_some in Hc. subst seen. rw -Hc. split_and!.
  - intros k Hk. by rw frozen_get.
  - intros p Hp. by rw frozen_scan.
  - intros Hne additional. rw /commit_with_batch (bool_decide_eq_false_2 _) //.
Qed.
End frozen.

(** ** The write limit *)

Section limit.
Context {B : Type} `{KvStore B}.
Implicit Types (o : OverlayStore B) (c : staged).

Definition staged_total c : Z := sumZ (λ e, staged_size e.1 e.2) (map_to_list c).
Definition over_limit (limit : option Z) (n : Z) : bool :=
  match limit with Some l => l <? n | None => false end.
(** The counter is the size of what is staged, within the limit. *)
Definition accounted o : Prop :=
  staged_bytes o = staged_total (changes o) ∧ over_limit (write_limit o) (staged_bytes o) = false.

Lemma staged_size_nonneg k v : 0 <= staged_size k v.
Proof. rw /staged_size /len. destruct v; lia. Qed.

Lemma staged_total_nonneg c : 0 <= staged_total c.
Proof. apply sumZ_nonneg. intros. apply staged_size_nonneg. Qed.

Lemma staged_total_insert c k v :
  staged_total (<[k := v]> c) =
  staged_total c - match c !! k with Some old => staged_size k old | None => 0 end + staged_size k v.
Proof.
  assert (Hnew : ∀ v c, c !! k = None → staged_total (<[k := v]> c) = staged_size k v + staged_total c).
  { intros v' c' Hk. by rw /staged_total (sumZ_perm _ _ _ (map_to_list_insert c' k v' Hk)). }
  destruct (c !! k) as [old|] eqn:E; [|rw Hnew //; lia].
  rw -(insert_delete_eq c) (Hnew v) ?lookup_delete_eq //.
  rw -{2}(insert_delete_id c k old) // (Hnew old) ?lookup_delete_eq //. lia.
Qed.

Lemma staged_total_elem c k v : c !! k = Some v → staged_size k v <= staged_total c.
Proof.
  intros Hk. apply (sumZ_elem_le (λ e, staged_size e.1 e.2) _ (k, v)); [|by apply elem_of_map_to_list].
  intros. apply staged_size_nonneg.
Qed.

(** The running size, entry by entry, is the size of the result. *)
Lemma resize_fold c l : ∀ a,
  NoDup l.*1 → (∀ k, k ∈ l.*1 → a !! k = c !! k) →
  staged_total a + sumZ (λ e, staged_size e.1 e.2) l <= u64_max →
  foldl (resize c) (staged_total a) l = staged_total (foldl (λ c e, <[e.1 := e.2]> c) a l).
Proof.
  induction l as [|[k v] l IH]; intros a Hnd Ha Hle; [done|]. rw sumZ_cons /= in Hle.
  rw fmap_cons in Hnd. apply NoDup_cons in Hnd as [Hk Hnd]. cbn [foldl fst snd].
  pose proof (staged_size_nonneg k v). pose proof (staged_total_nonneg a).
  assert (0 <= sumZ (λ e : bytes * option bytes, staged_size e.1 e.2) l).
  { apply sumZ_nonneg. intros. apply staged_size_nonneg. }
  assert (Hr : resize c (staged_total a) (k, v) = staged_total (<[k := v]> a)).
  { rw /resize staged_total_insert /= (Ha k); [left|]. destruct (c !! k) as [old|] eqn:E.
    - rw -(Ha k) in E; [left|]. pose proof (staged_total_elem _ _ _ E). pose proof (staged_size_nonneg k old).
      rw /wrapping_sub Z.mod_small; [lia|]. rw /sat_add. lia.
    - rw /sat_add. lia. }
  rw Hr. apply IH; [done| |].
  - intros k' Hk'. rw lookup_insert_ne; [by intros ->|]. apply Ha. by right.
  - pose proof (staged_total_insert a k v) as Hi. destruct (a !! k) as [old|].
    + pose proof (staged_size_nonneg k old). lia.
    + lia.
Qed.

(** The write limit is exact and a rejected batch changes nothing.  When the
    counter of staged bytes is the size of what is staged (keys, values and 64
    bytes an entry), a batch is accepted exactly when the staged data it leads
    to, duplicates and replaced entries counted once, is within the limit; then
    the counter is again that size.  Otherwise the overlay is unchanged.
    Setting a limit checks the same way, and a successful commit or checkpoint
    resets the counter with the data.  Assumed: what is staged and the batch
    together are within the address space, so the counter never saturates. *)
Theorem write_limit_exact o batch :
  accounted o →
  staged_total (changes o) + staged_total (collapse batch) <= u64_max →
  let c := collapse batch ∪ changes o in
  overlay_write_batch o batch =
    (if over_limit (write_limit o) (staged_total c)
     then (Err (Database "replay overlay write limit exceeded"), o)
     else (Ok tt, set_staged o (staged_total c) c)) ∧
  accounted (overlay_write_batch o batch).2 ∧
  (∀ limit o', with_write_limit o limit = Ok o' → accounted o') ∧
  (∀ additional o', commit_with_batch o additional = (Ok tt, o') → accounted o') ∧
  (∀ cursor o', persist_replay_checkpoint o cursor = (Ok tt, o') → accounted o').
Proof.
  intros [Hn Hlim] Hle c.
  assert (Hc : foldl (λ c e, <[e.1 := e.2]> c) (changes o) (bt_iter bytes_le (collapse batch)) = c).
  { rw insert_fold; [apply bt_iter_keys_NoDup|]. by rw list_to_map_bt_iter. }
  assert (Hw : overlay_write_batch o batch =
    if over_limit (write_limit o) (staged_total c)
    then (Err (Database "replay overlay write limit exceeded"), o)
    else (Ok tt, set_staged o (staged_total c) c)).
  { rw /overlay_write_batch Hn (resize_fold (changes o)) ?Hc //; [apply bt_iter_keys_NoDup|].
    by rw (sumZ_perm _ _ _ (bt_iter_perm bytes_le (collapse batch))). }
  assert (Hf : ∀ b o', flush_staged o b = (Ok tt, o') → accounted o').
  { intros b o'. rw /flush_staged. destruct (kv_write_batch (base o) b) as [[[]|] b']; [|done].
    intros [= <-]. split; [done|]. pose proof (staged_total_nonneg (changes o)). simpl.
    destruct (write_limit o); simpl in *; lia. }
  split_and!; [done| | | |].
  - rw Hw. destruct (over_limit (write_limit o) (staged_total c)) eqn:E; by split.
  - intros limit o'. rw /with_write_limit. destruct (limit <? staged_bytes o) eqn:E; [done|]. intros [= <-]. by split.
  - intros additional o'. rw /commit_with_batch. destruct (negb _); [done|]. apply Hf.
  - intros cursor o'. rw /persist_replay_checkpoint. destruct (result_bind _ _); [apply Hf|done].
Qed.
End limit.

(** ** Examples *)

Definition example_db : MemoryDb := MkMemoryDb {[ [112; 1] := [5]; [97] := [7] ]}.
Definition example_batches : list WriteBatch :=
  [[BatchPut [112; 1] [6]; BatchDelete [97]]; [BatchPut [98] [8]; BatchPut [98] [9]]].

Lemma commit_refines_witness :
  let o1 := (write_all (overlay_new example_db) example_batches).2 in
  let direct := foldl apply_batch (mem_data example_db) example_batches in
  ∃ r o2, commit_with_batch o1 [BatchPut [99] [1]] = (r, o2) ∧
    match r with
    | Ok _ => kv_contents (base o2) = apply_batch direct [BatchPut [99] [1]] ∧
              overlay_contents o2 = kv_contents (base o2) ∧ changes o2 = ∅ ∧ staged_bytes o2 = 0
    | Err _ => kv_contents (base o2) = mem_data example_db ∧ overlay_contents o2 = direct
    end.
Proof.
  destruct (commit_refines (overlay_new example_db) example_batches
    (write_all (overlay_new example_db) example_batches).2 [BatchPut [99] [1]]) as (_ & _ & _ & Hc).
  - by split.
  - done.
  - vm_compute. reflexivity.
  - exact Hc.
Defined.

Definition example_frozen : OverlayStore MemoryDb :=
  match with_snapshot_prefixes example_db [[112]] 1000 with Ok o => o | Err _ => overlay_new example_db end.

Lemma snapshot_isolated_witness :
  let o1 := (write_all (set_base example_frozen memory_new) [[BatchPut [112; 2] [1]]]).2 in
  overlay_get o1 [112; 1] = Ok (Some [5]) ∧
  commit_with_batch o1 [] = (Err (Database "cannot commit a frozen replay overlay"), o1).
Proof.
  destruct (snapshot_isolated example_db [[112]] 1000 example_frozen memory_new [[BatchPut [112; 2] [1]]]
    (write_all (set_base example_frozen memory_new) [[BatchPut [112; 2] [1]]]).2) as (Hg & _ & Hc).
  - done.
  - vm_compute. reflexivity.
  - vm_compute. reflexivity.
  - split; [|by apply Hc]. rw Hg; [done|]. vm_compute. reflexivity.
Defined.

Definition example_limited : OverlayStore MemoryDb := MkOverlay example_db (Some 200) None 66 [] {[ [98] := Some [4] ]}.

Lemma write_limit_exact_witness :
  overlay_write_batch example_limited [BatchPut [98] [1; 2]; BatchDelete [97]] =
    (Ok tt, set_staged example_limited 132 {[ [98] := Some [1; 2]; [97] := None ]}) ∧
  accounted (overlay_write_batch example_limited [BatchPut [98] [1; 2]; BatchDelete [97]]).2.
Proof.
  destruct (write_limit_exact example_limited [BatchPut [98] [1; 2]; BatchDelete [97]]) as (Hw & Ha & _).
  - by split.
  - by vm_compute.
  - split; [|exact Ha]. rw Hw. vm_compute. reflexivity.
Defined.
