(* ===== verification/OverlayReplay.v ===== *)
(** * Durable replay

    The private namespace of an overlay (Overlay.v): what [persist_replay_checkpoint]
    writes, that a reopened replay shows the same, and that [clear_replay] ends,
    removes the namespace and never leaves a cursor over missing data. *)

From S2P Require Import Prelude Primitives Fee Rlp Transaction TxValidation BTree KvStore Overlay OverlayView OverlayProps.

(** ** What is persisted *)

Definition persisted_map (d : bytes) (c : staged) : contents := kmap (d ++.) (encode_replay_value <$> c).

Lemma lookup_persisted_map d c k : persisted_map d c !! (d ++ k) = encode_replay_value <$> c !! k.
Proof. by rw /persisted_map lookup_kmap lookup_fmap. Qed.
Lemma persisted_map_None d c k : starts_with k d = false → persisted_map d c !! k = None.
Proof.
  intros Hk. apply lookup_kmap_None; [apply _|]. intros k' ->. by rw starts_with_app in Hk.
Qed.

Lemma apply_batch_persist d m b l :
  apply_batch m (foldl (λ batch e, batch_put batch (d ++ e.1) (encode_replay_value e.2)) b l) =
  foldl (λ m e, <[e.1 := e.2]> m) (apply_batch m b) ((λ e, (d ++ e.1, encode_replay_value e.2)) <$> l).
Proof.
  revert b. induction l as [|e l IH]; intros b; [done|]. simpl. rw IH. f_equal.
  by rw /batch_put apply_batch_app.
Qed.

Lemma persist_batch d m c key cursor :
  apply_batch m
    (batch_put (foldl (λ batch e, batch_put batch (d ++ e.1) (encode_replay_value e.2)) batch_new
                  (bt_iter bytes_le c)) key cursor) =
  <[key := cursor]> (persisted_map d c ∪ m).
Proof.
  rw /batch_put apply_batch_app apply_batch_persist /=. f_equal.
  assert (Hnd : NoDup ((λ e : bytes * option bytes, (d ++ e.1, encode_replay_value e.2)) <$> bt_iter bytes_le c).*1).
  { rw -list_fmap_compose (_ : fst ∘ _ = (d ++.) ∘ fst) // list_fmap_compose.
    apply NoDup_fmap_2; [apply _|apply bt_iter_keys_NoDup]. }
  rw insert_fold //. f_equal. apply map_eq. intros k. apply option_eq. intros v.
  rw -elem_of_list_to_map // list_elem_of_fmap lookup_kmap_Some. split.
  - intros ([k' w] & [= -> ->] & Hk%elem_of_bt_iter). exists k'. by rw lookup_fmap Hk.
  - intros (k' & -> & (w & <- & Hk)%lookup_fmap_Some). exists (k', w). by rw elem_of_bt_iter.
Qed.

(** ** Persisting and reopening *)

Section replay.
Context {B : Type} `{KvLaws B}.
Implicit Types (o : OverlayStore B) (b : B) (k p ns : bytes).

(** A base that answers: reads and scans of it do not fail. *)
Definition readable b : Prop :=
  (∀ k, kv_get b k = Ok (kv_contents b !! k)) ∧
  (∀ p, kv_scan_prefix b p = Ok (entries_under (kv_contents b) p)).

Lemma data_not_cursor ns k : ns ++ DATA ++ k ≠ ns ++ CURSOR.
Proof. by intros E%app_inv_head. Qed.

Lemma in_namespace ns s : starts_with (ns ++ s) ns = true.
Proof. apply starts_with_app. Qed.

(** What the base holds after the changes and the cursor are written. *)
Definition persisted_base (m : contents) ns (c : staged) (cursor : bytes) : contents :=
  <[ns ++ CURSOR := cursor]> (persisted_map (ns ++ DATA) c ∪ m).

Lemma persisted_base_data m ns c cursor k :
  persisted_base m ns c cursor !! (ns ++ DATA ++ k) =
  match c !! k with Some v => Some (encode_replay_value v) | None => m !! (ns ++ DATA ++ k) end.
Proof.
  rw /persisted_base lookup_insert_ne; [intros E; by apply (data_not_cursor ns k)|].
  rw lookup_union app_assoc lookup_persisted_map. destruct (c !! k); [|by rw /= left_id_L]. simpl.
  by destruct (m !! _).
Qed.

Lemma persisted_base_outside m ns c cursor k :
  starts_with k ns = false → persisted_base m ns c cursor !! k = m !! k.
Proof.
  intros Hk. rw /persisted_base lookup_insert_ne; [intros <-; by rw in_namespace in Hk|].
  rw lookup_union_r //. apply persisted_map_None. apply not_true_iff_false. intros [r ->]%starts_with_iff.
  by rw -app_assoc in_namespace in Hk.
Qed.

Lemma persist_cases o ns cursor :
  kv_ok (base o) → replay_namespace o = Some ns →
  (∃ b, persist_replay_checkpoint o cursor = (Ok tt, set_staged (set_base o b) 0 ∅) ∧ kv_ok b ∧
        kv_contents b = persisted_base (kv_contents (base o)) ns (changes o) cursor) ∨
  (∃ e b, persist_replay_checkpoint o cursor = (Err e, set_base o b) ∧ kv_ok b ∧
        kv_contents b = kv_contents (base o)).
Proof.
  intros Hok Hn. rw /persist_replay_checkpoint /replay_key Hn. cbn [ok_or result_bind].
  edestruct (flush_staged_cases o) as [(b & -> & Hb & Hm)|(e & b & -> & Hb & Hm)]; [done|left|right; eauto 6].
  exists b. split_and!; [done..|]. by rw Hm persist_batch.
Qed.

(** The same staged data, staged or persisted, shows the same. *)
Lemma persisted_shown o o' ns cursor k :
  replay_namespace o = Some ns → replay_namespace o' = Some ns →
  frozen_prefixes o' = frozen_prefixes o → changes o' = ∅ →
  kv_contents (base o') = persisted_base (kv_contents (base o)) ns (changes o) cursor →
  shown o' k = shown o k.
Proof.
  intros Hn Hn' Hf Hc Hm. rw /shown Hc lookup_empty /persisted_at Hn Hn' Hm persisted_base_data.
  destruct (changes o !! k) as [v|]; simpl; [by rw /persisted replay_value_roundtrip|].
  destruct (kv_contents (base o) !! _); [done|]. simpl. apply option_eq. intros v.
  rw /through !map_lookup_filter_Some /= /frozen Hf /hidden Hn Hn' Hm.
  destruct (starts_with k ns) eqn:E; [naive_solver|]. by rw persisted_base_outside.
Qed.

(** Reads of a readable base whose persisted data decodes. *)
Definition decodes o : Prop :=
  ∀ ns k raw, replay_namespace o = Some ns →
    kv_contents (base o) !! (ns ++ DATA ++ k) = Some raw → is_ok (decode_replay_value raw) = true.

Lemma merge_persisted_total n l : ∀ m,
  (∀ e, e ∈ l → is_ok (decode_replay_value e.2) = true) →
  ∃ m', foldl (merge_persisted n) (Ok m) l = Ok m'.
Proof.
  induction l as [|[k raw] l IH]; intros m Hl; [by exists m|]. simpl.
  rw /merge_persisted /= -/(merge_persisted n). pose proof (Hl (k, raw) ltac:(left)) as Hd. simpl in Hd.
  destruct (decode_replay_value raw) as [v|]; [|done]. apply IH. intros e He. apply Hl. by right.
Qed.

Lemma get_total o k :
  kv_ok (base o) → readable (base o) → decodes o → hidden o k = false → overlay_get o k = Ok (shown o k).
Proof.
  intros Hok [Hg _] Hd Hh. assert (∃ v, overlay_get o k = Ok v) as [v Hv].
  { rw /overlay_get. destruct (changes o !! k); [eauto|].
    assert (Ht : ∃ v, (if frozen o k then Ok None else kv_get (base o) k) = Ok v).
    { destruct (frozen o k); [eauto|]. rw Hg. eauto. }
    rw /unstaged_value. destruct (replay_namespace o) as [ns|] eqn:Hn; [|done]. rw /replay_key Hn.
    cbn [ok_or result_bind]. rw Hg -app_assoc. cbn [result_bind].
    destruct (kv_contents (base o) !! _) as [raw|] eqn:E; [|done].
    pose proof (Hd _ _ _ Hn E). destruct (decode_replay_value raw); [eauto|done]. }
  by rw Hv (overlay_get_ok o k v).
Qed.

Lemma scan_total o p :
  kv_ok (base o) → readable (base o) → decodes o →
  ∃ m, merged_scan o p = Ok (bt_iter bytes_le m) ∧
       ∀ k, m !! k = if starts_with k p then shown o k else None.
Proof.
  intros Hok [_ Hs] Hd. assert (∃ m, merged_entries o p = Ok m) as [m Hm].
  { rw /merged_entries. assert (∃ l, (if frozen o p then Ok [] else kv_scan_prefix (base o) p) = Ok l) as [l ->].
    { destruct (frozen o p); [eauto|]. rw Hs. eauto. }
    cbn [result_bind]. destruct (replay_namespace o) as [ns|] eqn:Hn; [|eauto].
    rw /replay_key Hn. cbn [ok_or result_bind]. rw Hs. cbn [result_bind].
    edestruct merge_persisted_total as [m' ->]; [|eauto].
    intros [k raw] [[r ->]%starts_with_iff Hk]%elem_of_entries_under. rw -!app_assoc in Hk. by eapply Hd. }
  exists m. rw /merged_scan Hm. split; [done|]. intros k. by apply merged_entries_ok.
Qed.

(** Overlays that show the same answer the same. *)
Lemma same_reads o o' :
  kv_ok (base o) → readable (base o) → decodes o →
  kv_ok (base o') → readable (base o') → decodes o' →
  (∀ k, hidden o' k = hidden o k) → (∀ k, shown o' k = shown o k) →
  (∀ k, hidden o k = false → overlay_get o' k = overlay_get o k) ∧
  (∀ p, merged_scan o' p = merged_scan o p).
Proof.
  intros Hok Hr Hd Hok' Hr' Hd' Hh Hs. split.
  - intros k Hk. by rw !get_total // ?Hh // Hs.
  - intros p. destruct (scan_total o p) as (m & -> & Hm); [done..|].
    destruct (scan_total o' p) as (m' & -> & Hm'); [done..|].
    do 2 f_equal. apply map_eq. intros k. by rw Hm Hm' Hs.
Qed.

Lemma persisted_decodes o o' ns cursor :
  replay_namespace o = Some ns → replay_namespace o' = Some ns → decodes o →
  kv_contents (base o') = persisted_base (kv_contents (base o)) ns (changes o) cursor → decodes o'.
Proof.
  intros Hn Hn' Hd Hm ns' k raw Hns. assert (ns' = ns) as -> by congruence.
  rw Hm persisted_base_data. destruct (changes o !! k) as [v|]; [|by apply Hd].
  intros [= <-]. by rw replay_value_roundtrip.
Qed.

(** C18: a replay checkpoint is durable.  After a successful
    [persist_replay_checkpoint], the same overlay with its memory released, and a
    new one opened by [reopen_replay] on the same base, namespace and prefixes
    (as after a restart), both answer every scan, and every read of a key
    outside the namespace, exactly as the overlay did before; the reopened one
    finds the cursor, and is again in the state the theorem starts from.  Only
    keys of the private namespace changed in the base.  Assumed: the base keeps
    its contract and answers reads, and what the namespace held before decodes
    (the caller's duty of a fresh or authenticated namespace). *)
Theorem replay_durable o ns cursor o' :
  kv_ok (base o) → readable (base o) → decodes o →
  replay_namespace o = Some ns → ns ≠ [] → frozen_prefixes o ≠ [] →
  persist_replay_checkpoint o cursor = (Ok tt, o') → readable (base o') →
  ∃ o'', reopen_replay (base o') ns (frozen_prefixes o) = Ok o'' ∧
    replay_checkpoint o'' = Ok (Some cursor) ∧ kv_ok (base o'') ∧ decodes o'' ∧
    (∀ k, starts_with k ns = false →
       overlay_get o' k = overlay_get o k ∧ overlay_get o'' k = overlay_get o k ∧
       kv_contents (base o') !! k = kv_contents (base o) !! k) ∧
    (∀ p, merged_scan o' p = merged_scan o p ∧ merged_scan o'' p = merged_scan o p) ∧
    changes o' = ∅ ∧ staged_bytes o' = 0.
Proof.
  intros Hok Hr Hd Hn Hne Hfr Hp Hr'.
  destruct (persist_cases o ns cursor Hok Hn) as [(b & E & Hb & Hm)|(e & b & E & _)]; rw E in Hp; simplify_eq.
  set (o' := set_staged (set_base o b) 0 ∅) in *.
  set (o'' := MkOverlay b None (Some ns) 0 (frozen_prefixes o) ∅).
  assert (Hd' : decodes o') by (by eapply (persisted_decodes o)).
  assert (Hd'' : decodes o'') by (by eapply (persisted_decodes o)).
  destruct (same_reads o o') as [Hg Hs]; try done; [intros k; by eapply (persisted_shown o)|].
  destruct (same_reads o o'') as [Hg' Hs']; try done;
    [intros k; by rw /hidden Hn|intros k; by eapply (persisted_shown o)|].
  exists o''. split_and!; try done.
  - rw /reopen_replay /with_replay_namespace /= !bool_decide_eq_false_2 //.
  - rw /replay_checkpoint /replay_key. cbn [replay_namespace base o'' ok_or result_bind].
    rw (proj1 Hr') Hm /persisted_base lookup_insert_eq //.
  - intros k Hk. rw Hg ?Hg'; [by rw /hidden Hn..|]. split_and!; [done..|]. cbn [base o' set_staged set_base].
    by rw Hm persisted_base_outside.
Qed.

(** ** Clearing *)

(** The batch of a chunk: deletions of stored keys under the prefix. *)
Lemma clear_chunk_ok n p b : ∀ after batch batch',
  kv_ok b → keys_ok (kv_contents b) → clear_chunk n p after batch b = Ok batch' →
  ∃ ks, batch' = batch ++ (BatchDelete <$> ks) ∧
    (∀ k, k ∈ ks → is_Some (kv_contents b !! k) ∧ starts_with k p = true) ∧
    (ks = [] → n ≠ 0%nat → after = None → entries_under (kv_contents b) p = []).
Proof.
  induction n as [|n IH]; intros after batch batch' Hok Hks; cbn [clear_chunk].
  { intros [= <-]. exists []. rw app_nil_r. split_and!; [done|set_solver|done]. }
  rw bind_ok. intros (l & Hl & Hc). apply kv_scan_after_spec in Hl; [|done..].
  destruct l as [|[k v] [|]]; simpl in Hl; [| |by destruct (filter _ _) as [|? []]].
  - injection Hc as <-. exists []. rw app_nil_r. split_and!; [done|set_solver|]. intros _ _ ->.
    destruct (entries_under _ p) as [|e l'] eqn:E; [done|]. exfalso. by rw filter_cons_True in Hl.
  - simpl in Hc. apply IH in Hc as (ks & -> & Hin & _); [|done..]. exists (k :: ks).
    rw /batch_delete -app_assoc. split_and!; [done| |done]. intros k' [->|Hk']%elem_of_cons; [|by apply Hin].
    assert (He : (k, v) ∈ filter (λ e, is_after after e.1 = true) (entries_under (kv_contents b) p)).
    { revert Hl. destruct (filter _ _) as [|e l']; [done|]. intros Hl. simplify_eq/=. left. }
    apply list_elem_of_filter in He as [_ [? ?]%elem_of_entries_under]. eauto.
Qed.

Lemma apply_deletes m ks k :
  apply_batch m (BatchDelete <$> ks) !! k = if decide (k ∈ ks) then None else m !! k.
Proof.
  revert m. induction ks as [|k' ks IH]; intros m; [done|]. simpl. rw IH.
  destruct (decide (k = k')) as [->|Hne].
  - rw lookup_delete_eq. repeat case_decide; set_solver.
  - rw lookup_delete_ne //. repeat case_decide; set_solver.
Qed.

Lemma entries_under_length m p : length (entries_under m p) = size (filter (λ e, starts_with e.1 p = true) m).
Proof. by rw /entries_under -bt_iter_filter bt_iter_length. Qed.

Lemma apply_deletes_subseteq m ks : apply_batch m (BatchDelete <$> ks) ⊆ m.
Proof. apply map_subseteq_spec. intros k v. rw apply_deletes. by case_decide. Qed.

(** Each chunk leaves fewer entries. *)
Lemma deletes_shrink m p k ks :
  is_Some (m !! k) → starts_with k p = true →
  (length (entries_under (apply_batch m (BatchDelete <$> (k :: ks))) p) < length (entries_under m p))%nat.
Proof.
  intros [v Hk] Hp. rw !entries_under_length.
  assert (Hf : filter (λ e, starts_with e.1 p = true) m !! k = Some v) by (by apply map_lookup_filter_Some).
  assert (Hd : size (delete k (filter (λ e, starts_with e.1 p = true) m)) =
               Nat.pred (size (filter (λ e, starts_with e.1 p = true) m))).
  { rw map_size_delete Hf //. }
  assert (Hpos : size (filter (λ e, starts_with e.1 p = true) m) ≠ 0%nat).
  { intros Hz%map_size_empty_inv. by rw Hz in Hf. }
  enough (size (filter (λ e, starts_with e.1 p = true) (apply_batch m (BatchDelete <$> (k :: ks))))
    <= size (delete k (filter (λ e, starts_with e.1 p = true) m)))%nat by lia.
  apply map_subseteq_size, map_subseteq_spec. intros k' v'.
  rw map_lookup_filter_Some apply_deletes lookup_delete_Some map_lookup_filter_Some.
  case_decide as Hin; [naive_solver|]. intros [??]. split_and!; [|done..]. intros ->. apply Hin. left.
Qed.

Lemma clear_loop_ok p fuel : ∀ b,
  kv_ok b → keys_ok (kv_contents b) → (length (entries_under (kv_contents b) p) < fuel)%nat →
  ∃ r b', clear_loop fuel p b = Some (r, b') ∧ kv_contents b' ⊆ kv_contents b ∧
    (∀ k, starts_with k p = false → kv_contents b' !! k = kv_contents b !! k) ∧
    (is_ok r = true → entries_under (kv_contents b') p = []).
Proof.
  induction fuel as [|fuel IH]; intros b Hok Hks Hlen; [lia|]. cbn [clear_loop].
  destruct (clear_chunk 128 p None batch_new b) as [batch|e] eqn:Ec; [|by eexists _, _].
  apply clear_chunk_ok in Ec as (ks & -> & Hin & Hnil); [|done..]. destruct ks as [|k ks].
  { eexists _, _. split_and!; [done..|]. intros _. by apply Hnil. }
  destruct (kv_write_spec b (BatchDelete <$> k :: ks) Hok) as [Hok' He].
  rw fmap_cons in Hok' He. rw fmap_cons. cbn [app batch_new].
  destruct (kv_write_batch b (BatchDelete k :: (BatchDelete <$> ks))) as [[[]|e] b']; cbn [fst snd] in He, Hok'.
  - rw -(fmap_cons BatchDelete) in He. destruct (Hin k) as [Hk Hp]; [left|].
    pose proof (deletes_shrink _ _ _ ks Hk Hp) as Hlt.
    pose proof (apply_deletes_subseteq (kv_contents b) (k :: ks)) as Hsub. rw -He in Hlt Hsub.
    destruct (IH b') as (r & b'' & -> & Hsub' & Hout & Hr); [done| |lia|].
    { intros k' v' Hk'. by eapply Hks, lookup_weaken. }
    exists r, b''. split_and!; [done|by etrans| |done]. intros k' Hk'. rw Hout // He apply_deletes.
    case_decide as Hin'; [|done]. apply Hin in Hin' as [_ ?]. congruence.
  - exists (Err e), b'. by rw He.
Qed.

(** A key of the replay: the cursor, or one under the data prefix. *)
Definition replay_entry ns k : bool := starts_with k (ns ++ DATA) || bool_decide (k = ns ++ CURSOR).

Lemma cursor_not_data ns : starts_with (ns ++ CURSOR) (ns ++ DATA) = false.
Proof. by rw starts_with_app_iff. Qed.

(** [clear_replay] always returns (with fuel above the number of persisted
    entries, so the loop of chunks ends on any base that keeps its contract), and
    touches nothing outside the namespace's cursor and data.  When it succeeds
    neither is left.  When it is interrupted by an error of the base, at any
    point, either the base's contents are unchanged or the cursor is gone: an
    interrupted cleanup never leaves a resumable cursor over incomplete data. *)
Theorem clear_replay_total o ns fuel :
  kv_ok (base o) → keys_ok (kv_contents (base o)) → replay_namespace o = Some ns →
  (length (entries_under (kv_contents (base o)) (ns ++ DATA)) < fuel)%nat →
  ∃ r b, clear_replay fuel o = Some (r, set_base o b) ∧
    kv_contents b ⊆ kv_contents (base o) ∧
    (∀ k, replay_entry ns k = false → kv_contents b !! k = kv_contents (base o) !! k) ∧
    match r with
    | Ok _ => kv_contents b !! (ns ++ CURSOR) = None ∧ ∀ k, kv_contents b !! (ns ++ DATA ++ k) = None
    | Err _ => kv_contents b = kv_contents (base o) ∨ kv_contents b !! (ns ++ CURSOR) = None
    end.
Proof.
  intros Hok Hks Hn Hlen. rw /clear_replay /replay_key Hn. cbn [ok_or result_bind].
  destruct (kv_delete_spec (base o) (ns ++ CURSOR) Hok) as [Hb He].
  destruct (kv_delete (base o) (ns ++ CURSOR)) as [[[]|e] b]; cbn [fst snd] in Hb, He.
  2: { exists (Err e), b. split_and!; [done|by rw He|by intros; rw He|by left]. }
  assert (Hsub : kv_contents b ⊆ kv_contents (base o)) by (rw He; apply delete_subseteq).
  destruct (clear_loop_ok (ns ++ DATA) fuel b) as (r & b' & -> & Hsub' & Hout & Hr); [done| | |].
  { intros k v Hk. by eapply Hks, lookup_weaken. }
  { eapply Nat.le_lt_trans; [|done]. rw !entries_under_length. apply map_subseteq_size.
    by apply map_filter_subseteq_mono. }
  assert (Hc : kv_contents b' !! (ns ++ CURSOR) = None).
  { rw Hout; [apply cursor_not_data|]. by rw He lookup_delete_eq. }
  exists r, b'. split_and!; [done|by etrans| |].
  - intros k [Hk Hne%bool_decide_eq_false]%orb_false_iff. by rw Hout // He lookup_delete_ne.
  - destruct r; [|by right]. split; [done|]. intros k. apply eq_None_not_Some. intros [v Hv].
    assert (Hin : (ns ++ DATA ++ k, v) ∈ entries_under (kv_contents b') (ns ++ DATA)).
    { apply elem_of_entries_under. by rw app_assoc starts_with_app -app_assoc. }
    rw Hr // in Hin. by apply not_elem_of_nil in Hin.
Qed.

End replay.

(** ** Examples *)

Definition replay_example : OverlayStore MemoryDb :=
  MkOverlay (MkMemoryDb {[ [112; 1] := [5] ]}) None (Some [110]) 0 [[112]]
    {[ [112; 1] := Some [6]; [112; 2] := None ]}.

Lemma memory_readable (s : MemoryDb) : readable s.
Proof. by split. Qed.

Lemma replay_durable_witness :
  ∃ o'', reopen_replay (base (persist_replay_checkpoint replay_example [9]).2) [110] [[112]] = Ok o'' ∧
    replay_checkpoint o'' = Ok (Some [9]) ∧ overlay_get o'' [112; 1] = Ok (Some [6]).
Proof.
  destruct (replay_durable replay_example [110] [9] (persist_replay_checkpoint replay_example [9]).2)
    as (o'' & Ho & Hc & _ & _ & Hg & _).
  - done.
  - apply memory_readable.
  - intros ns k raw [= <-]. cbn. by intros [[=] _]%lookup_singleton_Some.
  - done.
  - done.
  - done.
  - vm_compute. reflexivity.
  - apply memory_readable.
  - exists o''. split_and!; [exact Ho|exact Hc|]. destruct (Hg [112; 1]) as (_ & -> & _); by vm_compute.
Defined.

Lemma clear_replay_total_witness :
  let o := (persist_replay_checkpoint replay_example [9]).2 in
  ∃ r b, clear_replay 3 o = Some (r, set_base o b) ∧ kv_contents b !! [112; 1] = Some [5].
Proof.
  destruct (clear_replay_total (persist_replay_checkpoint replay_example [9]).2 [110] 3) as (r & b & Hc & _ & Ho & _).
  - done.
  - apply map_Forall_to_list. vm_compute. by repeat constructor.
  - done.
  - vm_compute. lia.
  - exists r, b. split; [exact Hc|]. rw Ho; [by vm_compute|done].
Defined.
