(* ===== verification/OverlayJournal.v ===== *)
(** * Journals of an overlay

    [checkpoint_prefixes] and [previous_values_since] (Overlay.v) record what a
    run of writes replaced; here is that the record is exact. *)

From stdpp Require Import sorting.
From S2P Require Import Prelude Primitives Fee Rlp Transaction TxValidation BTree KvStore Overlay OverlayView OverlayProps.

(** ** Ranges by prefix *)

(** The keys with a prefix are an interval. *)
Lemma prefix_convex p k k' :
  bytes_le p k → bytes_le k k' → p `prefix_of` k' → p `prefix_of` k.
Proof.
  rw /bytes_le. intros Hpk Hkk [r ->]. revert k Hpk Hkk. induction p as [|x p IH]; intros k; [intros; apply prefix_nil|].
  destruct k as [|y k]; simpl; [done|]. destruct (Z.compare_spec x y) as [->|Hlt|]; [| |done].
  - rw Z.compare_refl. intros ? ?. by apply prefix_cons, IH.
  - by rw (proj2 (Z.compare_gt_iff y x)).
Qed.

Lemma while_prefix_filter {A} (p : bytes) (l : list (bytes * A)) :
  StronglySorted (entry_le bytes_le) l → (∀ e, e ∈ l → bytes_le p e.1) →
  while_prefix p l = filter (λ e, starts_with e.1 p = true) l.
Proof.
  induction 1 as [|e l Hs IH Hall]; intros Hle; [done|]. simpl. rw filter_cons.
  destruct (starts_with e.1 p) eqn:E; simpl; [rw IH //; set_solver|].
  symmetry. apply filter_none. intros e' He' Hp. rw Forall_forall in Hall.
  apply bool_decide_eq_true in Hp. apply bool_decide_eq_false in E. apply E.
  eapply prefix_convex; [apply Hle; left|by apply (Hall e')|done].
Qed.

Lemma range_prefix_filter {A} (p : bytes) (c : gmap bytes A) :
  range_prefix p c = filter (λ e, starts_with e.1 p = true) (bt_iter bytes_le c).
Proof.
  rw /range_prefix /bt_from while_prefix_filter.
  - apply filter_sorted, (bt_iter_sorted bytes_le).
  - intros e [He _]%list_elem_of_filter. done.
  - rw filter_filter_and. apply filter_ext_in. intros e _. split; [by intros [_ ?]|].
    intros He. split; [|done]. apply prefix_le. by apply bool_decide_eq_true in He.
Qed.

Lemma elem_of_range {A} (p : bytes) (c : gmap bytes A) k v :
  (k, v) ∈ range_prefix p c ↔ starts_with k p = true ∧ c !! k = Some v.
Proof. by rw range_prefix_filter list_elem_of_filter elem_of_bt_iter. Qed.

Lemma foldl_bind {A C D} (f : D → C → D) (g : A → list C) d l :
  foldl (λ d x, foldl f d (g x)) d l = foldl f d (l ≫= g).
Proof. revert d. induction l as [|x l IH]; intros d; [done|]. by rw /= foldl_app IH. Qed.

Lemma elem_of_ranges {A} (ps : list bytes) (c : gmap bytes A) k v :
  (k, v) ∈ ps ≫= (λ p, range_prefix p c) ↔ under_any ps k = true ∧ c !! k = Some v.
Proof.
  rw list_elem_of_bind /under_any existsb_exists. setoid_rewrite elem_of_range.
  setoid_rewrite <-list_elem_of_In. naive_solver.
Qed.

Section journal.
Context {B : Type} `{KvStore B}.
Implicit Types (o : OverlayStore B) (cp : staged) (k : bytes).

(** A checkpoint of prefixes is the staged data under them. *)
Lemma insert_all_lookup (c acc : staged) l k :
  (∀ k v, (k, v) ∈ l → c !! k = Some v) →
  foldl (λ cp e, <[e.1 := e.2]> cp) acc l !! k = if decide (k ∈ l.*1) then c !! k else acc !! k.
Proof.
  revert acc. induction l as [|[k0 v0] l IH]; intros acc Hl; [done|]. simpl. rw IH; [set_solver|].
  destruct (decide (k = k0)) as [->|Hne].
  - rw lookup_insert_eq. rw (Hl k0 v0); [left|]. repeat case_decide; set_solver.
  - rw lookup_insert_ne //. repeat case_decide; set_solver.
Qed.

Lemma checkpoint_prefixes_ok o ps cp k :
  checkpoint_prefixes o ps = Ok cp → cp !! k = if under_any ps k then changes o !! k else None.
Proof.
  rw /checkpoint_prefixes foldl_bind. intros [= <-]. rw (insert_all_lookup (changes o)).
  { by intros k' v [_ ?]%elem_of_ranges. }
  assert (Hin : k ∈ (ps ≫= (λ p, range_prefix p (changes o))).*1 ↔ under_any ps k = true ∧ is_Some (changes o !! k)).
  { rw list_elem_of_fmap. split.
    - intros ([k' v] & -> & [? ?]%elem_of_ranges). simpl. eauto.
    - intros [? [v ?]]. exists (k, v). by rw elem_of_ranges. }
  rw lookup_empty. case_decide as Hd; rw Hin in Hd.
  - by destruct Hd as [-> _].
  - destruct (under_any ps k); [|done]. destruct (changes o !! k); [|done]. exfalso. apply Hd. eauto.
Qed.
(** ** What changed since a checkpoint *)

(** The value at the checkpoint, of a key now staged. *)
Definition old_value o cp k : result (option bytes) StorageError :=
  match cp !! k with Some value => Ok value | None => unstaged_value o k end.

Lemma previous_fold_err o cp e l : foldl (previous_value o cp) (Err e) l = Err e.
Proof. by induction l. Qed.

Lemma previous_fold o cp l : ∀ prev prev',
  (∀ k w, prev !! k = Some w → old_value o cp k = Ok w) →
  foldl (previous_value o cp) (Ok prev) l = Ok prev' →
  (∀ k w, prev' !! k = Some w ↔
     prev !! k = Some w ∨ (old_value o cp k = Ok w ∧ ∃ v, (k, v) ∈ l ∧ cp !! k ≠ Some v)) ∧
  (∀ k v, (k, v) ∈ l → cp !! k ≠ Some v → ∃ w, old_value o cp k = Ok w).
Proof.
  induction l as [|[k0 v0] l IH]; intros prev prev' Hinv; cbn [foldl].
  { intros [= <-]. split; [|set_solver]. set_solver. }
  rw {2}/previous_value. cbn [result_bind fst snd]. case_bool_decide as Hcp.
  - intros Hf. destruct (IH _ _ Hinv Hf) as [Hiff Hok]. split.
    + intros k w. rw Hiff. set_solver.
    + intros k v [?|?]%elem_of_cons ?; [by simplify_eq|eauto].
  - rw -/(old_value o cp k0). destruct (old_value o cp k0) as [w0|e] eqn:Eo; cbn [result_bind];
      [|by rw previous_fold_err].
    intros Hf. apply IH in Hf as [Hiff Hok].
    2: { intros k w [[<- <-]|[_ ?]]%lookup_insert_Some; eauto. }
    split.
    + intros k w. rw Hiff lookup_insert_Some. split.
      * intros [[[<- <-]|[_ ?]]|(Ho & v & Hin & Hc)]; [right|by left|right; split; [done|]].
        -- split; [done|]. exists v0. split; [left|done].
        -- exists v. split; [by right|done].
      * intros [Hp|(Ho & v & [Heq|Hin]%elem_of_cons & Hc)]; [left|left; left|right; eauto].
        -- destruct (decide (k0 = k)) as [->|]; [left; split; [done|]|by right]. apply Hinv in Hp. congruence.
        -- simplify_eq. split; [done|congruence].
    + intros k v [?|?]%elem_of_cons ?; [simplify_eq; eauto|eauto].
Qed.

Lemma previous_values_ok o cp ps l :
  previous_values_since o cp ps = Ok l →
  ∃ prev, l = bt_iter bytes_le prev ∧
    (∀ k w, prev !! k = Some w ↔ old_value o cp k = Ok w ∧ under_any ps k = true ∧
                                 is_Some (changes o !! k) ∧ changes o !! k ≠ cp !! k) ∧
    (∀ k, under_any ps k = true → is_Some (changes o !! k) → changes o !! k ≠ cp !! k → is_Some (prev !! k)).
Proof.
  rw /previous_values_since bind_ok foldl_bind. intros (prev & Hf & [= <-]). exists prev. split; [done|].
  apply previous_fold in Hf as [Hiff Hok]; [|done].
  assert (Hch : ∀ k, (∃ v, (k, v) ∈ ps ≫= (λ p, range_prefix p (changes o)) ∧ cp !! k ≠ Some v) ↔
    under_any ps k = true ∧ is_Some (changes o !! k) ∧ changes o !! k ≠ cp !! k).
  { intros k. setoid_rewrite elem_of_ranges. split; [intros (v & [? Hv] & ?)|intros (? & [v Hv] & ?)].
    - rw Hv. eauto.
    - exists v. split; [done|]. congruence. }
  assert (Hprev : ∀ k w, prev !! k = Some w ↔ old_value o cp k = Ok w ∧ under_any ps k = true ∧
                                 is_Some (changes o !! k) ∧ changes o !! k ≠ cp !! k).
  { intros k w. rw Hiff lookup_empty Hch. naive_solver. }
  split; [done|]. intros k Hu Hs Hne. destruct (proj2 (Hch k)) as (v & Hin & Hv); [done|].
  destruct (Hok k v Hin Hv) as [w Hw]. exists w. by apply Hprev.
Qed.

(** The overlay after more writes than before: same base, and what was staged
    still is. *)
Definition extends o o' : Prop := ∃ n c, o' = set_staged o n c ∧ ∀ k, is_Some (changes o !! k) → is_Some (c !! k).

Lemma extends_unstaged o o' k : extends o o' → unstaged_value o' k = unstaged_value o k.
Proof. by intros (n & c & -> & _). Qed.

(** The journal turns what is shown now into what was shown then. *)
Lemma journal_exact o o1 cp ps l k :
  extends o o1 → (∀ k, under_any ps k = true → cp !! k = changes o !! k) →
  previous_values_since o1 cp ps = Ok l → under_any ps k = true →
  overlay_get o k = match (list_to_map l : staged) !! k with Some w => Ok w | None => overlay_get o1 k end.
Proof.
  intros Hext Hcp (prev & -> & Hiff & Htot)%previous_values_ok Hu. rw list_to_map_bt_iter.
  destruct (prev !! k) as [w|] eqn:Ep.
  - apply Hiff in Ep as (Ho & _ & _ & _). by rw /old_value Hcp // (extends_unstaged o) // in Ho.
  - rw /overlay_get (extends_unstaged o) //. destruct (changes o1 !! k) as [v|] eqn:E1.
    + destruct (decide (changes o1 !! k = cp !! k)) as [Heq|Hne].
      * by rw -Hcp // -Heq E1.
      * destruct (Htot k) as [w Hw]; [done|by eexists|done|]. congruence.
    + destruct Hext as (n & c & -> & Hdom). simpl in E1. destruct (changes o !! k) as [v|] eqn:E0; [|done].
      destruct (Hdom k) as [w Hw]; [by eexists|]. congruence.
Qed.
End journal.
