(* ===== verification/MetadataUndo.v ===== *)
(** * Undo journals of address metadata

    crates/storage/src/chain_store.rs: public keys, guardian configurations and
    recovery proposals are keyed by address and overwritten in place, so each
    canonical block stages a journal of what it replaced
    ([stage_address_metadata_undo]); a reorganisation applies the journals of the
    abandoned blocks from tip to ancestor ([restore_address_metadata]).  The store
    is the overlay of Overlay.v.

    A block is its hash and whether it has transactions; the journal's JSON codec
    (serde_json) is a parameter. *)

From S2P Require Import Prelude Primitives Fee Rlp Transaction TxValidation BTree KvStore Overlay OverlayView OverlayProps OverlayJournal.

(** [b"pk/"], [b"gc/"], [b"rp/"] and [b"mu/"]. *)
Definition PUBKEY_BY_ADDR : bytes := [112; 107; 47].
Definition GUARDIAN_CONFIG : bytes := [103; 99; 47].
Definition RECOVERY_PROPOSAL : bytes := [114; 112; 47].
Definition ADDRESS_METADATA_UNDO : bytes := [109; 117; 47].

Definition ADDRESS_METADATA_PREFIXES : list bytes := [PUBKEY_BY_ADDR; GUARDIAN_CONFIG; RECOVERY_PROPOSAL].
Definition MAX_UNDO_BYTES : Z := 64 * 1024 * 1024.
Definition MAX_UNDO_ENTRIES : Z := 1000000.

Record AddressMetadataUndoEntry := MkUndo {
  undo_key_of : bytes;
  previous : option bytes;
}.

Definition address_metadata_undo_key (block_hash : ShellHash) : bytes :=
  ADDRESS_METADATA_UNDO ++ as_bytes block_hash.

Section undo.
Context {B : Type} `{KvStore B}.
Context {Blk : Type} (block_hash : Blk → ShellHash) (no_transactions : Blk → bool).
Context (to_vec : list AddressMetadataUndoEntry → result bytes string).
Context (from_slice : bytes → result (list AddressMetadataUndoEntry) string).
Implicit Types (o : OverlayStore B) (k : bytes).

Definition address_metadata_checkpoint o : result staged StorageError :=
  checkpoint_prefixes o ADDRESS_METADATA_PREFIXES.

Definition stage_address_metadata_undo o (hash : ShellHash) (cp : staged) :
    result unit StorageError * OverlayStore B :=
  match (let? entries := previous_values_since o cp ADDRESS_METADATA_PREFIXES in
         map_err Serialization (to_vec ((λ e, MkUndo e.1 e.2) <$> entries))) with
  | Ok encoded => overlay_put o (address_metadata_undo_key hash) encoded
  | Err e => (Err e, o)
  end.

Definition valid_undo_key k : bool :=
  existsb (λ prefix, starts_with k prefix && (len k =? len prefix + 32)) ADDRESS_METADATA_PREFIXES.

(** The loop over the entries of one journal. *)
Fixpoint restore_entries (seen : gset bytes) (entries : list AddressMetadataUndoEntry) o :
    result unit StorageError * OverlayStore B :=
  match entries with
  | [] => (Ok tt, o)
  | entry :: entries =>
      if negb (valid_undo_key (undo_key_of entry)) || bool_decide (undo_key_of entry ∈ seen)
      then (Err (Codec "invalid address metadata undo journal"), o)
      else
        match (match previous entry with
               | Some value => overlay_put o (undo_key_of entry) value
               | None => overlay_delete o (undo_key_of entry)
               end) with
        | (Ok _, o) => restore_entries ({[undo_key_of entry]} ∪ seen) entries o
        | (Err e, o) => (Err e, o)
        end
  end.

(** The body of the loop over blocks. *)
Definition restore_block o (block : Blk) : result unit StorageError * OverlayStore B :=
  match overlay_get o (address_metadata_undo_key (block_hash block)) with
  | Err e => (Err e, o)
  | Ok None =>
      if no_transactions block then (Ok tt, o)
      else (Err (Database "address metadata undo journal unavailable"), o)
  | Ok (Some encoded) =>
      if MAX_UNDO_BYTES <? len encoded
      then (Err (Codec "address metadata undo journal exceeds size limit"), o)
      else
        match from_slice encoded with
        | Err e => (Err (Codec e), o)
        | Ok entries =>
            if MAX_UNDO_ENTRIES <? len entries
            then (Err (Codec "address metadata undo journal exceeds entry limit"), o)
            else restore_entries ∅ entries o
        end
  end.

Fixpoint restore_blocks o (blocks : list Blk) : result unit StorageError * OverlayStore B :=
  match blocks with
  | [] => (Ok tt, o)
  | block :: blocks =>
      match restore_block o block with
      | (Ok _, o) => restore_blocks o blocks
      | (Err e, o) => (Err e, o)
      end
  end.

Definition restore_address_metadata o (old_chain : list Blk) : result unit StorageError * OverlayStore B :=
  restore_blocks o (reverse old_chain).

(** ** One block's writes with their journal *)

(** The importer's order: checkpoint, the block's writes, the journal. *)
Definition import_block o (block : Blk) (batches : list WriteBatch) :
    result unit StorageError * OverlayStore B :=
  match address_metadata_checkpoint o with
  | Err e => (Err e, o)
  | Ok cp =>
      match write_all o batches with
      | (Ok _, o) => stage_address_metadata_undo o (block_hash block) cp
      | (Err e, o) => (Err e, o)
      end
  end.

Fixpoint import_blocks o (blocks : list (Blk * list WriteBatch)) :
    result unit StorageError * OverlayStore B :=
  match blocks with
  | [] => (Ok tt, o)
  | (block, batches) :: blocks =>
      match import_block o block batches with
      | (Ok _, o) => import_blocks o blocks
      | (Err e, o) => (Err e, o)
      end
  end.

(** ** Staged writes *)

Definition op_key (op : WriteBatchOp) : bytes :=
  match op with BatchPut k _ => k | BatchDelete k => k end.
Definition touches (batches : list WriteBatch) k : Prop := k ∈ op_key <$> mjoin batches.

Lemma collapse_untouched batch k : k ∉ op_key <$> batch → collapse batch !! k = None.
Proof.
  rw /collapse. assert (Hgen : ∀ u : staged, k ∉ op_key <$> batch → foldl (λ updates op, match op with
       | BatchPut key value => <[key := Some value]> updates
       | BatchDelete key => <[key := None]> updates end) u batch !! k = u !! k); [|by apply Hgen].
  induction batch as [|op batch IH]; intros u Hk; [done|]. cbn [foldl]. rw IH; [set_solver|].
  destruct op; rw lookup_insert_ne //; set_solver.
Qed.

Lemma write_all_untouched batches k : ∀ o o',
  write_all o batches = (Ok tt, o') → ¬ touches batches k → changes o' !! k = changes o !! k.
Proof.
  induction batches as [|batch batches IH]; intros o o' Hw Hk; [by injection Hw as <-|].
  cbn [write_all] in Hw. rw /touches /= fmap_app in Hk.
  destruct (write_batch_cases o batch) as [[n E]|[e E]]; rw E in Hw; [|done].
  rw (IH _ _ Hw); [rw /touches; set_solver|]. cbn [changes set_staged].
  rw lookup_union_r //. apply collapse_untouched. set_solver.
Qed.

Lemma write_all_extends batches o o' : write_all o batches = (Ok tt, o') → extends o o'.
Proof. intros (n & c & -> & Hdom & _)%write_all_ok. by exists n, c. Qed.

Lemma extends_refl o : extends o o.
Proof. exists (staged_bytes o), (changes o). by destruct o. Qed.
Lemma extends_trans o o1 o2 : extends o o1 → extends o1 o2 → extends o o2.
Proof. intros (n & c & -> & Hc) (n' & c' & -> & Hc'). exists n', c'. split; [done|]. eauto. Qed.

Lemma put_changes o o' k v :
  overlay_put o k v = (Ok tt, o') → extends o o' ∧ changes o' = <[k := Some v]> (changes o).
Proof.
  intros Hw. rw /overlay_put in Hw. assert (Hw' : write_all o [batch_put batch_new k v] = (Ok tt, o')) by (by rw /= Hw).
  split; [by eapply write_all_extends|]. apply write_batch_accepted in Hw as [n ->]. simpl.
  by rw -insert_union_l left_id_L.
Qed.

Lemma same_changes o o' k : extends o o' → changes o' !! k = changes o !! k → overlay_get o' k = overlay_get o k.
Proof. intros Hext Hk. by rw /overlay_get Hk (extends_unstaged o). Qed.

(** ** Applying a journal *)

Lemma unlimited_write o batch :
  write_limit o = None → ∃ n, overlay_write_batch o batch = (Ok tt, set_staged o n (collapse batch ∪ changes o)).
Proof.
  intros Hl. destruct (write_batch_cases o batch) as [?|[e E]]; [done|]. by rw /overlay_write_batch Hl in E.
Qed.

Lemma restore_entries_ok l : ∀ seen o,
  write_limit o = None → NoDup l.*1 → (∀ k, k ∈ l.*1 → valid_undo_key k = true ∧ k ∉ seen) →
  ∃ n, restore_entries seen ((λ e, MkUndo e.1 e.2) <$> l) o =
       (Ok tt, set_staged o n (list_to_map l ∪ changes o)).
Proof.
  induction l as [|[k v] l IH]; intros seen o Hlim Hnd Hv.
  { exists (staged_bytes o). by rw /= left_id_L; destruct o. }
  rw fmap_cons in Hnd. apply NoDup_cons in Hnd as [Hk Hnd].
  rw fmap_cons. cbn [restore_entries undo_key_of previous fst snd].
  destruct (Hv k) as [Hval Hseen]; [left|]. rw Hval bool_decide_eq_false_2 //. cbn [negb orb].
  assert (∃ n, match v with Some value => overlay_put o k value | None => overlay_delete o k end =
    (Ok tt, set_staged o n (<[k := v]> (changes o)))) as [n ->].
  { destruct v; rw /overlay_put /overlay_delete; edestruct (unlimited_write o) as [n ->]; try done; exists n;
      do 2 f_equal; by rw /collapse /= -insert_union_l left_id_L. }
  destruct (IH ({[k]} ∪ seen) (set_staged o n (<[k := v]> (changes o)))) as [n' ->]; [done..| |].
  { intros k' Hk'. destruct (Hv k') as [??]; [by right|]. split; [done|]. set_solver. }
  exists n'. do 2 f_equal. simpl. rw -insert_union_l -insert_union_r //. by apply not_elem_of_list_to_map_1.
Qed.

(** ** Journals are recorded *)

(** What a block writes: no journals, and metadata only under an address. *)
Definition metadata_writes (batches : list WriteBatch) : Prop :=
  ∀ k, touches batches k → starts_with k ADDRESS_METADATA_UNDO = false ∧
    (under_any ADDRESS_METADATA_PREFIXES k = true → valid_undo_key k = true).

Lemma undo_not_metadata k :
  starts_with k ADDRESS_METADATA_UNDO = true → under_any ADDRESS_METADATA_PREFIXES k = false.
Proof. by intros [r ->]%starts_with_iff. Qed.

Lemma undo_key_starts hash : starts_with (address_metadata_undo_key hash) ADDRESS_METADATA_UNDO = true.
Proof. apply starts_with_app. Qed.

Lemma undo_key_inj h h' : address_metadata_undo_key h = address_metadata_undo_key h' → h = h'.
Proof. intros E%app_inv_head. by apply as_bytes_inj. Qed.

(** The journal of what is shown at [o] against what is shown at [o']. *)
Definition journals o o' (l : list (bytes * option bytes)) : Prop :=
  NoDup l.*1 ∧ (∀ k, k ∈ l.*1 → valid_undo_key k = true) ∧
  ∀ k, under_any ADDRESS_METADATA_PREFIXES k = true →
    overlay_get o k = match (list_to_map l : staged) !! k with Some w => Ok w | None => overlay_get o' k end.

Lemma previous_journal o o1 cp l batches :
  address_metadata_checkpoint o = Ok cp → write_all o batches = (Ok tt, o1) → metadata_writes batches →
  previous_values_since o1 cp ADDRESS_METADATA_PREFIXES = Ok l → journals o o1 l.
Proof.
  intros Hcp Hw Hm Hl. assert (Hag : ∀ k, under_any ADDRESS_METADATA_PREFIXES k = true → cp !! k = changes o !! k).
  { intros k Hu. by rw (checkpoint_prefixes_ok _ _ _ _ Hcp) Hu. }
  assert (He : ∀ k, under_any ADDRESS_METADATA_PREFIXES k = true →
    overlay_get o k = match (list_to_map l : staged) !! k with Some w => Ok w | None => overlay_get o1 k end).
  { intros k Hu. by eapply journal_exact; [eapply write_all_extends| |..]. }
  apply previous_values_ok in Hl as (prev & -> & Hiff & _). split_and!; [apply bt_iter_keys_NoDup| |done].
  intros k ([k' w] & -> & (_ & Hu & _ & Hne)%elem_of_bt_iter%Hiff)%list_elem_of_fmap. cbn [fst].
  destruct (decide (k' ∈ op_key <$> mjoin batches)) as [Ht|Ht]; [by apply Hm|]. exfalso. apply Hne.
  by rw (write_all_untouched _ _ _ _ Hw Ht) Hag.
Qed.

Context (codec : ∀ l bs, to_vec l = Ok bs → from_slice bs = Ok l).

Lemma import_block_ok o block batches o' :
  import_block o block batches = (Ok tt, o') → metadata_writes batches →
  extends o o' ∧
  (∃ l encoded, changes o' !! address_metadata_undo_key (block_hash block) = Some (Some encoded) ∧
     from_slice encoded = Ok ((λ e, MkUndo e.1 e.2) <$> l) ∧ journals o o' l) ∧
  (∀ h, h ≠ block_hash block →
     changes o' !! address_metadata_undo_key h = changes o !! address_metadata_undo_key h).
Proof.
  rw /import_block. destruct (address_metadata_checkpoint o) as [cp|] eqn:Hcp; [|done].
  destruct (write_all o batches) as [[[]|] o1] eqn:Hw; [|done]. intros Hs Hm.
  rw /stage_address_metadata_undo in Hs.
  destruct (previous_values_since o1 cp ADDRESS_METADATA_PREFIXES) as [l|] eqn:Hl; [|done]. simpl in Hs.
  destruct (to_vec _) as [encoded|] eqn:Hv in Hs; [|done]. apply put_changes in Hs as [Hext Hc].
  pose proof (write_all_extends _ _ _ Hw) as Hext1.
  destruct (previous_journal o o1 cp l batches) as (Hnd & Hval & Hj); [done..|].
  split_and!; [by eapply extends_trans| |].
  - exists l, encoded. rw Hc lookup_insert_eq. split_and!; [done|by apply codec|].
    split_and!; [done..|]. intros k Hu. rw Hj // (same_changes o1 o') // Hc lookup_insert_ne //.
    intros <-. by rw undo_not_metadata in Hu; [apply undo_key_starts|].
  - intros h Hne. rw Hc lookup_insert_ne; [by intros ?%undo_key_inj|]. apply (write_all_untouched _ _ _ _ Hw).
    intros [Ht _]%Hm. by rw undo_key_starts in Ht.
Qed.

Lemma import_blocks_untouched blocks h : ∀ o o',
  import_blocks o blocks = (Ok tt, o') → (∀ b, b ∈ blocks → metadata_writes b.2) →
  h ∉ block_hash ∘ fst <$> blocks →
  extends o o' ∧ changes o' !! address_metadata_undo_key h = changes o !! address_metadata_undo_key h.
Proof.
  induction blocks as [|[block batches] blocks IH]; intros o o' Hi Hm Hh.
  { injection Hi as <-. split; [apply extends_refl|done]. }
  cbn [import_blocks] in Hi. destruct (import_block o block batches) as [[[]|] o1] eqn:E; [|done].
  destruct (import_block_ok _ _ _ _ E) as (Hext & _ & Hother); [by apply (Hm (block, batches)); left|].
  destruct (IH _ _ Hi) as [Hext' ->]; [intros b Hb; apply Hm; by right|set_solver|].
  split; [by eapply extends_trans|]. apply Hother. set_solver.
Qed.

(** ** Journals are replayed *)

(** Every journal is within the limits of a restore. *)
Definition within_limits o (blocks : list Blk) : Prop :=
  ∀ block encoded l, block ∈ blocks →
    overlay_get o (address_metadata_undo_key (block_hash block)) = Ok (Some encoded) →
    from_slice encoded = Ok l → len encoded <= MAX_UNDO_BYTES ∧ len l <= MAX_UNDO_ENTRIES.

Lemma restore_blocks_app o bs bs' :
  restore_blocks o (bs ++ bs') =
  match restore_blocks o bs with (Ok _, o') => restore_blocks o' bs' | (Err e, o') => (Err e, o') end.
Proof.
  revert o. induction bs as [|block bs IH]; intros o; [done|]. simpl.
  by destruct (restore_block o block) as [[]].
Qed.

Lemma extends_limit o o' : extends o o' → write_limit o' = write_limit o.
Proof. by intros (n & c & -> & _). Qed.

Lemma restore_block_ok o o1 ox block l encoded :
  write_limit ox = None → overlay_get ox (address_metadata_undo_key (block_hash block)) = Ok (Some encoded) →
  from_slice encoded = Ok ((λ e, MkUndo e.1 e.2) <$> l) → within_limits ox [block] → journals o o1 l →
  (∀ k, under_any ADDRESS_METADATA_PREFIXES k = true → overlay_get ox k = overlay_get o1 k) →
  ∃ o2, restore_block ox block = (Ok tt, o2) ∧ extends ox o2 ∧
    (∀ k, under_any ADDRESS_METADATA_PREFIXES k = true → overlay_get o2 k = overlay_get o k) ∧
    (∀ k, under_any ADDRESS_METADATA_PREFIXES k = false → overlay_get o2 k = overlay_get ox k).
Proof.
  intros Hlim Hg Hf Hw (Hnd & Hval & Hj) Hx. destruct (Hw block encoded _ ltac:(left) Hg Hf) as [Hb He].
  rw /restore_block Hg Hf (proj2 (Z.ltb_ge _ _)) // (proj2 (Z.ltb_ge _ _)) //.
  destruct (restore_entries_ok l ∅ ox) as [n ->]; [done..|intros k Hk; split; [by apply Hval|set_solver]|].
  eexists. split; [done|]. assert (Hext : extends ox (set_staged ox n (list_to_map l ∪ changes ox))).
  { eexists _, _. split; [done|]. intros k [v Hk]. rw lookup_union Hk. destruct (list_to_map l !! k); simpl; eauto. }
  split_and!; [done| |].
  - intros k Hu. rw Hj // -Hx //. rw /overlay_get. cbn [changes set_staged]. rw lookup_union (extends_unstaged ox) //.
    destruct (list_to_map l !! k), (changes ox !! k); done.
  - intros k Hu. apply same_changes; [done|]. cbn [changes set_staged]. apply lookup_union_r.
    apply not_elem_of_list_to_map_1. intros Hk%Hval. rw /valid_undo_key existsb_exists in Hk.
    destruct Hk as (p & Hp & [Hs _]%andb_true_iff). apply not_true_iff_false in Hu. apply Hu, existsb_exists. eauto.
Qed.

(** C16: a reorganisation's metadata rollback is exact.  Take any run of blocks
    imported through an overlay, each taking a checkpoint, staging any accepted
    writes and then its undo journal; [restore_address_metadata] on those blocks
    (tip first) succeeds, and afterwards every read of an address-metadata key
    returns what it returned before the first block, and every other read what
    it returned after the last.  Assumed: serde_json decodes what it encoded,
    the blocks have distinct hashes, the overlay has no write limit, blocks write
    metadata only under an address and no journals themselves, and the journals
    are within the sizes a restore accepts. *)
Theorem restore_undoes_import blocks o o' :
  write_limit o = None → NoDup (block_hash ∘ fst <$> blocks) → (∀ b, b ∈ blocks → metadata_writes b.2) →
  import_blocks o blocks = (Ok tt, o') → within_limits o' blocks.*1 →
  ∃ o'', restore_address_metadata o' blocks.*1 = (Ok tt, o'') ∧ extends o' o'' ∧
    (∀ k, under_any ADDRESS_METADATA_PREFIXES k = true → overlay_get o'' k = overlay_get o k) ∧
    (∀ k, under_any ADDRESS_METADATA_PREFIXES k = false → overlay_get o'' k = overlay_get o' k).
Proof.
  rw /restore_address_metadata. revert o. induction blocks as [|[block batches] blocks IH]; intros o Hlim Hnd Hm Hi Hw.
  { injection Hi as <-. exists o. split_and!; [done|apply extends_refl|done..]. }
  cbn [import_blocks] in Hi. destruct (import_block o block batches) as [[[]|] o1] eqn:E; [|done].
  rw fmap_cons in Hnd. apply NoDup_cons in Hnd as [Hnew Hnd].
  destruct (import_block_ok _ _ _ _ E) as (Hext & (l & encoded & Hc & Hf & Hj) & _);
    [by apply (Hm (block, batches)); left|].
  destruct (import_blocks_untouched blocks (block_hash block) o1 o') as [Hext' Hsame]; [done| |done|].
  { intros b Hb. apply Hm. by right. }
  destruct (IH o1) as (ox & Hr & Hextx & Hmeta & Hother); [by rw (extends_limit o)|done| |done| |].
  { intros b Hb. apply Hm. by right. }
  { intros b e l' Hb. apply Hw. by right. }
  assert (Hg : overlay_get ox (address_metadata_undo_key (block_hash block)) = Ok (Some encoded)).
  { rw Hother; [apply undo_not_metadata, undo_key_starts|]. by rw /overlay_get Hsame Hc. }
  destruct (restore_block_ok o o1 ox block l encoded) as (o2 & Hr2 & Hext2 & Hm2 & Ho2); try done.
  { by rw (extends_limit o') // (extends_limit o1) // (extends_limit o). }
  { intros b e l' ->%list_elem_of_singleton. rw Hother; [apply undo_not_metadata, undo_key_starts|].
    apply Hw. left. }
  exists o2. rw fmap_cons reverse_cons restore_blocks_app Hr /= Hr2. split_and!; [done|by eapply extends_trans|done|].
  intros k Hk. by rw Ho2 // Hother.
Qed.
End undo.

(** ** Example *)

(** Some injective codec in the place of JSON. *)
Definition example_to_vec (l : list AddressMetadataUndoEntry) : result bytes string :=
  Ok [Zpos (encode ((λ e, (undo_key_of e, previous e)) <$> l))].
Definition example_from_slice (bs : bytes) : result (list AddressMetadataUndoEntry) string :=
  match bs with
  | [Zpos p] => ok_or (fmap (M := option) (fmap (M := list) (λ e, MkUndo e.1 e.2)) (decode p)) "malformed"
  | _ => Err "malformed"
  end.

Lemma example_codec l bs : example_to_vec l = Ok bs → example_from_slice bs = Ok l.
Proof.
  intros [= <-]. cbn [example_from_slice]. rw decode_encode. simpl. f_equal. rw -list_fmap_compose.
  rw -{2}(list_fmap_id l). apply list_fmap_ext. by intros ? [].
Qed.

Definition example_key : bytes := PUBKEY_BY_ADDR ++ as_bytes (b256_of_Z 77).
Definition example_blocks : list (Z * list WriteBatch) :=
  [(1, [[BatchPut example_key [1]]]); (2, [[BatchDelete example_key; BatchPut [98] [2]]])].
Definition example_overlay : OverlayStore MemoryDb := overlay_new memory_new.
Definition example_imported : OverlayStore MemoryDb :=
  (import_blocks b256_of_Z example_to_vec example_overlay example_blocks).2.

Lemma restore_undoes_import_witness :
  ∃ o'', restore_address_metadata b256_of_Z (λ _, false) example_from_slice example_imported [1; 2] = (Ok tt, o'') ∧
    overlay_get o'' example_key = overlay_get example_overlay example_key.
Proof.
  destruct (restore_undoes_import b256_of_Z (λ _, false) example_to_vec example_from_slice example_codec
    example_blocks example_overlay example_imported) as (o'' & Hr & _ & Hm & _).
  - done.
  - refine (bool_decide_unpack _ _). vm_compute. exact I.
  - intros b [->|[->|[]%not_elem_of_nil]%elem_of_cons]%elem_of_cons k Hk; rw /touches /= in Hk;
      repeat (apply elem_of_cons in Hk as [->|Hk]; [by vm_compute|]); by apply not_elem_of_nil in Hk.
  - vm_compute. reflexivity.
  - intros block encoded l [->|[->|[]%not_elem_of_nil]%elem_of_cons]%elem_of_cons Hg Hf;
      vm_compute in Hg; injection Hg as <-; vm_compute in Hf; injection Hf as <-; by vm_compute.
  - exists o''. split; [exact Hr|]. apply Hm. vm_compute. reflexivity.
Defined.
