(* ===== verification/Keccak.v ===== *)
(** * Keccak-256 at compile time

    crates/pqvm/src/system_contracts.rs computes function selectors with a small
    Keccak of its own ([const_keccak256]): lanes in a flat array of 25 words, the
    steps rho and pi in place along one cycle, and a byte-wise sponge. *)

From S2P Require Import Prelude Primitives Rlp.

(** ** 64-bit words *)

Definition word_mask : Z := u64_max.
Definition rotate_left (x n : Z) : Z :=
  Z.lor (Z.land (Z.shiftl x n) word_mask) (Z.shiftr x ((64 - n) mod 64)).
(** [!x] *)
Definition word_not (x : Z) : Z := Z.lxor x word_mask.

Declare Scope word_scope.
Delimit Scope word_scope with word.
Infix "⊕" := Z.lxor (at level 50, left associativity) : word_scope.
#[local] Open Scope word_scope.

(** ** The permutation *)

Abbreviation lanes := (list Z) (only parsing).

Definition RATE : nat := 136.

Definition RC : list Z :=
  [0x0000000000000001; 0x0000000000008082; 0x800000000000808A; 0x8000000080008000;
   0x000000000000808B; 0x0000000080000001; 0x8000000080008081; 0x8000000000008009;
   0x000000000000008A; 0x0000000000000088; 0x0000000080008009; 0x000000008000000A;
   0x000000008000808B; 0x800000000000008B; 0x8000000000008089; 0x8000000000008003;
   0x8000000000008002; 0x8000000000000080; 0x000000000000800A; 0x800000008000000A;
   0x8000000080008081; 0x8000000000008080; 0x0000000080000001; 0x8000000080008008].
Definition ROT : list Z :=
  [1; 3; 6; 10; 15; 21; 28; 36; 45; 55; 2; 14; 27; 41; 56; 8; 25; 43; 62; 18; 39; 61; 20; 44].
Definition PI : list nat :=
  [10; 7; 11; 17; 18; 3; 5; 16; 8; 21; 24; 4; 15; 23; 19; 13; 12; 2; 20; 14; 22; 9; 6; 1]%nat.

Definition theta (state : lanes) : lanes :=
  let c := (λ x, (state !!! x) ⊕ (state !!! (x + 5)) ⊕ (state !!! (x + 10)) ⊕ (state !!! (x + 15))
                 ⊕ (state !!! (x + 20)))%nat <$> seq 0 5 in
  let d := (λ x, (c !!! ((x + 4) `mod` 5)) ⊕ rotate_left (c !!! ((x + 1) `mod` 5)) 1)%nat <$> seq 0 5 in
  foldl (λ state x, <[x := (state !!! x) ⊕ (d !!! (x `mod` 5))%nat]> state) state (seq 0 25).

(** [current] is the lane displaced last. *)
Definition rho_pi (state : lanes) : lanes :=
  (foldl (λ '(state, current) t,
            let j := PI !!! t in
            let temp := state !!! j in
            (<[j := rotate_left current (ROT !!! t)]> state, temp))
     (state, state !!! 1%nat) (seq 0 24)).1.

Definition chi_row (state : lanes) (y : nat) : lanes :=
  let base := (y * 5)%nat in
  let t0 := state !!! base in
  let t1 := state !!! (base + 1)%nat in
  let t2 := state !!! (base + 2)%nat in
  let t3 := state !!! (base + 3)%nat in
  let t4 := state !!! (base + 4)%nat in
  let state := <[base := t0 ⊕ Z.land (word_not t1) t2]> state in
  let state := <[(base + 1)%nat := t1 ⊕ Z.land (word_not t2) t3]> state in
  let state := <[(base + 2)%nat := t2 ⊕ Z.land (word_not t3) t4]> state in
  let state := <[(base + 3)%nat := t3 ⊕ Z.land (word_not t4) t0]> state in
  <[(base + 4)%nat := t4 ⊕ Z.land (word_not t0) t1]> state.
Definition chi (state : lanes) : lanes := foldl chi_row state (seq 0 5).

Definition iota (state : lanes) (round : nat) : lanes := <[0%nat := (state !!! 0%nat) ⊕ (RC !!! round)]> state.

Definition keccak_round (state : lanes) (round : nat) : lanes := iota (chi (rho_pi (theta state))) round.
Definition keccak_f1600 (state : lanes) : lanes := foldl keccak_round state (seq 0 24).

(** ** The sponge *)

(** The lane of eight bytes, least significant first. *)
Definition block_lane (block : list Z) (i : nat) : Z :=
  let b := (i * 8)%nat in
  Z.lor (Z.lor (Z.lor (Z.lor (Z.lor (Z.lor (Z.lor
    (block !!! b)
    (Z.shiftl (block !!! (b + 1)%nat) 8))
    (Z.shiftl (block !!! (b + 2)%nat) 16))
    (Z.shiftl (block !!! (b + 3)%nat) 24))
    (Z.shiftl (block !!! (b + 4)%nat) 32))
    (Z.shiftl (block !!! (b + 5)%nat) 40))
    (Z.shiftl (block !!! (b + 6)%nat) 48))
    (Z.shiftl (block !!! (b + 7)%nat) 56).

Definition xor_block (state : lanes) (block : list Z) : lanes :=
  foldl (λ state i, <[i := (state !!! i) ⊕ block_lane block i]> state) state (seq 0 17).

Definition empty_block : list Z := replicate RATE 0.

(** The loop over the input: the state, the block and the offset in it. *)
Fixpoint absorb (data : list Z) (state : lanes) (block : list Z) (offset : nat) : lanes * list Z * nat :=
  match data with
  | [] => (state, block, offset)
  | byte :: data =>
      let block := <[offset := byte]> block in
      let offset := (offset + 1)%nat in
      if decide (offset = RATE) then absorb data (keccak_f1600 (xor_block state block)) empty_block 0
      else absorb data state block offset
  end.

Definition const_keccak256 (data : list Z) : list Z :=
  let '(state, block, offset) := absorb data (replicate 25 0) empty_block 0 in
  let block := <[offset := (block !!! offset) ⊕ 0x01]> block in
  let block := <[(RATE - 1)%nat := (block !!! (RATE - 1)%nat) ⊕ 0x80]> block in
  let state := keccak_f1600 (xor_block state block) in
  (λ j, Z.land (Z.shiftr (state !!! (j / 8)%nat) (8 * Z.of_nat (j `mod` 8))) 255) <$> seq 0 32.

Definition compute_selector (sig : list Z) : list Z := take 4 (const_keccak256 sig).
