(* ===== verification/KeccakProps.v ===== *)
(** * The compile-time Keccak meets the standard

    Module [Fips] transcribes the standard (FIPS 202, sections 3 to 5): bits
    [A(x,y,z)], step mappings, round constants from their shift register, padding
    and sponge.  The step functions of Keccak.v on 64-bit lanes compute its step
    mappings on bits; the byte-wise sponge computes its sponge. *)

From S2P Require Import Prelude Primitives Rlp Keccak.
#[local] Open Scope word_scope.

(** ** The standard *)

Module Fips.

(** Section 3.1: a state is its bits [A(x,y,z)]. *)
Definition bits : Type := nat → nat → Z → bool.

Definition column (A : bits) (x : nat) (z : Z) : bool :=
  xorb (A x 0%nat z) (xorb (A x 1%nat z) (xorb (A x 2%nat z) (xorb (A x 3%nat z) (A x 4%nat z)))).

(** Section 3.2.1 *)
Definition theta (A : bits) : bits := λ x y z,
  xorb (A x y z) (xorb (column A ((x + 4) `mod` 5)%nat z) (column A ((x + 1) `mod` 5)%nat ((z - 1) mod 64))).

(** Section 3.2.2: lane [(x,y)], the [t]-th one met from [(1,0)] on, is rotated
    by [(t+1)(t+2)/2]. *)
Fixpoint rho_offset (fuel t cx cy x y : nat) : Z :=
  match fuel with
  | O => 0%Z
  | S fuel =>
      if decide (cx = x ∧ cy = y) then Z.of_nat ((t + 1) * (t + 2) / 2)
      else rho_offset fuel (t + 1) cy ((2 * cx + 3 * cy) `mod` 5) x y
  end%nat.
Definition rho (A : bits) : bits := λ x y z, A x y ((z - rho_offset 24 0 1 0 x y) mod 64).

(** Section 3.2.3 *)
Definition pi (A : bits) : bits := λ x y z, A ((x + 3 * y) `mod` 5)%nat x z.

(** Section 3.2.4 *)
Definition chi (A : bits) : bits := λ x y z,
  xorb (A x y z) (negb (A ((x + 1) `mod` 5)%nat y z) && A ((x + 2) `mod` 5)%nat y z).

(** Section 3.2.5: the shift register of the round constants. *)
Definition lfsr (r : list bool) : list bool :=
  match r with
  | [r0; r1; r2; r3; r4; r5; r6; r7] => [r7; r0; r1; r2; xorb r3 r7; xorb r4 r7; xorb r5 r7; r6]
  | _ => r
  end.
Definition rc (t : nat) : bool :=
  default false (head (Nat.iter (t `mod` 255) lfsr [true; false; false; false; false; false; false; false])).
(** Bit [z] of the constant of round [ir]: only bits [2^j - 1] may be set. *)
Definition round_bit (ir : nat) (z : Z) : bool :=
  existsb (λ j, bool_decide (z = 2 ^ Z.of_nat j - 1) && rc (j + 7 * ir)) (seq 0 7).
Definition iota (ir : nat) (A : bits) : bits := λ x y z,
  if decide (x = 0%nat ∧ y = 0%nat) then xorb (A x y z) (round_bit ir z) else A x y z.

(** Section 3.3 *)
Definition round (A : bits) (ir : nat) : bits := iota ir (chi (pi (rho (theta A)))).
Definition keccak_p (A : bits) : bits := foldl round A (seq 0 24).

(** Section 3.1.2: bit strings and states; bit [i] of a string is at
    [i = 64 (5y + x) + z]. *)
Definition position (x y : nat) (z : Z) : nat := (64 * (5 * y + x) + Z.to_nat z)%nat.
Definition absorb_block (A : bits) (P : list bool) : bits := λ x y z,
  xorb (A x y z) (default false (P !! position x y z)).
Definition output_bit (A : bits) (i : nat) : bool :=
  A ((i / 64) `mod` 5)%nat (i / 64 / 5)%nat (Z.of_nat (i `mod` 64)%nat).

(** Section 5.1: [pad10*1]. *)
Definition pad101 (x m : nat) : list bool :=
  true :: replicate (Z.to_nat ((- Z.of_nat m - 2) mod Z.of_nat x)) false ++ [true].

(** Sections 4 and 5.2: the sponge of [KECCAK[512]] with 256 bits of output, which
    one squeeze gives. *)
Definition rate : nat := 1088.
Definition block (P : list bool) (i : nat) : list bool := take rate (drop (rate * i) P).
Definition keccak256 (N : list bool) : list bool :=
  let P := N ++ pad101 rate (length N) in
  let A := foldl (λ A i, keccak_p (absorb_block A (block P i))) (λ _ _ _, false) (seq 0 (length P / rate)) in
  output_bit A <$> seq 0 256.

(** Appendix B.1: the bits of a byte, least significant first. *)
Definition byte_bits (b : Z) : list bool := (λ t, Z.testbit b (Z.of_nat t)) <$> seq 0 8.
Definition bytes_bits (l : list Z) : list bool := l ≫= byte_bits.

End Fips.

(** ** Bits of words *)

Definition word (x : Z) : Prop := 0 <= x < 2 ^ 64.

Lemma word_bits x : 0 <= x → (word x ↔ ∀ n, 64 <= n → Z.testbit x n = false).
Proof.
  intros Hx. split.
  - intros [_ Hlt] n Hn. destruct (Z.eq_dec x 0) as [->|]; [apply Z.testbit_0_l|].
    apply Z.bits_above_log2; [done|]. apply Z.log2_lt_pow2 in Hlt; lia.
  - intros Hb. split; [done|]. assert (x = x mod 2 ^ 64) as ->; [|apply Z.mod_pos_bound; lia].
    apply Z.bits_inj'. intros n Hn. destruct (decide (n < 64)).
    + rw Z.mod_pow2_bits_low //.
    + rw Z.mod_pow2_bits_high; [lia|]. apply Hb. lia.
Qed.

Lemma word_high x n : word x → 64 <= n → Z.testbit x n = false.
Proof. intros Hx. by apply word_bits; [destruct Hx|]. Qed.

Lemma word_lxor x y : word x → word y → word (x ⊕ y).
Proof.
  intros Hx Hy. apply word_bits; [apply Z.lxor_nonneg; destruct Hx, Hy; tauto|].
  intros n Hn. by rw Z.lxor_spec !word_high.
Qed.
Lemma word_land x y : word x → word y → word (Z.land x y).
Proof.
  intros Hx Hy. apply word_bits; [apply Z.land_nonneg; destruct Hx; tauto|].
  intros n Hn. by rw Z.land_spec word_high.
Qed.
Lemma word_lor x y : word x → word y → word (Z.lor x y).
Proof.
  intros Hx Hy. apply word_bits; [apply Z.lor_nonneg; destruct Hx, Hy; tauto|].
  intros n Hn. by rw Z.lor_spec !word_high.
Qed.

Lemma mask_bit z : Z.testbit word_mask z = (0 <=? z) && (z <? 64).
Proof.
  change word_mask with (Z.ones 64). destruct (Z.leb_spec 0 z); [|by apply Z.testbit_neg_r].
  destruct (Z.ltb_spec z 64); [by apply Z.ones_spec_low|]. by apply Z.ones_spec_high.
Qed.

Lemma word_mask_ok : word word_mask.
Proof. done. Qed.

Lemma word_not_bit x z : 0 <= z < 64 → Z.testbit (word_not x) z = negb (Z.testbit x z).
Proof.
  intros Hz. rw /word_not Z.lxor_spec mask_bit (proj2 (Z.leb_le 0 z)); [lia|].
  rw (proj2 (Z.ltb_lt z 64)); [lia|]. apply xorb_true_r.
Qed.

Lemma rotate_left_bit x n z :
  word x → 0 <= n < 64 → 0 <= z < 64 → Z.testbit (rotate_left x n) z = Z.testbit x ((z - n) mod 64).
Proof.
  intros Hx Hn Hz. rw /rotate_left Z.lor_spec Z.land_spec mask_bit Z.shiftl_spec; [lia|].
  rw Z.shiftr_spec; [lia|]. rw (proj2 (Z.leb_le 0 z)); [lia|]. rw (proj2 (Z.ltb_lt z 64)); [lia|].
  rw !andb_true_r. destruct (decide (n = 0)) as [->|Hn0].
  - rw Z.sub_0_r Z.add_0_r Z.mod_small //. apply orb_diag.
  - rw (Z.mod_small (64 - n)); [lia|]. destruct (decide (n <= z)).
    + rw (word_high x (z + (64 - n))) //; [lia|]. by rw orb_false_r Z.mod_small; [lia|].
    + rw (Z.testbit_neg_r x (z - n)); [lia|]. rw orb_false_l. f_equal.
      rw -(Z.mod_add (z - n) 1 64) // Z.mod_small; lia.
Qed.

Lemma rotate_left_word x n : word x → 0 <= n < 64 → word (rotate_left x n).
Proof.
  intros Hx Hn. apply word_lor.
  - apply word_bits; [apply Z.land_nonneg; right; done|]. intros k Hk. rw Z.land_spec mask_bit.
    rw (proj2 (Z.ltb_ge k 64)) //. by rw !andb_false_r.
  - apply word_bits; [apply Z.shiftr_nonneg; apply Hx|]. intros k Hk. rw Z.shiftr_spec; [lia|].
    apply word_high; [done|]. pose proof (Z.mod_pos_bound (64 - n) 64). lia.
Qed.

Lemma word_not_word x : word x → word (word_not x).
Proof. intros. by apply word_lxor. Qed.

(** ** Lanes *)

Definition lanes_ok (st : list Z) : Prop := length st = 25%nat ∧ Forall word st.

(** The bits a flat array of lanes stands for. *)
Definition lane_bits (st : list Z) : Fips.bits := λ x y z, Z.testbit (st !!! (x + 5 * y)%nat) z.

(** States of the standard, compared where they are defined. *)
Definition agree (A B : Fips.bits) : Prop :=
  ∀ x y z, (x < 5)%nat → (y < 5)%nat → 0 <= z < 64 → A x y z = B x y z.
#[global] Instance agree_equiv : Equivalence agree.
Proof.
  split.
  - by intros A x y z.
  - intros A B HAB x y z Hx Hy Hz. by rw HAB.
  - intros A B C HAB HBC x y z Hx Hy Hz. by rw HAB // HBC.
Qed.

Lemma mod5_lt n : (n `mod` 5 < 5)%nat.
Proof. by apply Nat.mod_upper_bound. Qed.
Lemma mod64_range z : 0 <= z mod 64 < 64.
Proof. by apply Z.mod_pos_bound. Qed.
#[local] Hint Resolve mod5_lt mod64_range : core.

#[global] Instance column_proper : Proper (agree ==> agree) (λ A x _ z, Fips.column A x z).
Proof. intros A B HAB x y z Hx _ Hz. rw /Fips.column. do 4 (apply f_equal2; [apply HAB; lia|]). apply HAB; lia. Qed.
#[global] Instance theta_proper : Proper (agree ==> agree) Fips.theta.
Proof.
  intros A B HAB x y z Hx Hy Hz. rw /Fips.theta. apply f_equal2; [by apply HAB|]. apply f_equal2.
  - apply (column_proper A B HAB _ 0%nat); [done|lia|done].
  - apply (column_proper A B HAB _ 0%nat); [done|lia|done].
Qed.
#[global] Instance rho_proper : Proper (agree ==> agree) Fips.rho.
Proof. intros A B HAB x y z Hx Hy Hz. rw /Fips.rho. by apply HAB. Qed.
#[global] Instance pi_proper : Proper (agree ==> agree) Fips.pi.
Proof. intros A B HAB x y z Hx Hy Hz. rw /Fips.pi. by apply HAB. Qed.
#[global] Instance chi_proper : Proper (agree ==> agree) Fips.chi.
Proof.
  intros A B HAB x y z Hx Hy Hz. rw /Fips.chi.
  apply f_equal2; [by apply HAB|]. apply f_equal2; [apply f_equal|]; by apply HAB.
Qed.
#[global] Instance iota_proper ir : Proper (agree ==> agree) (Fips.iota ir).
Proof.
  intros A B HAB x y z Hx Hy Hz. rw /Fips.iota.
  case_decide; [apply f_equal2; [|done]|]; by apply HAB.
Qed.

(** A loop that updates each entry in turn. *)
Lemma update_loop (f : nat → Z → Z) st n :
  (n <= length st)%nat →
  let st' := foldl (λ st x, <[x := f x (st !!! x)]> st) st (seq 0 n) in
  length st' = length st ∧ ∀ i, st' !!! i = if decide (i < n)%nat then f i (st !!! i) else st !!! i.
Proof.
  induction n as [|n IH]; intros Hn; cbv zeta; [done|].
  rw seq_S foldl_app /=. destruct IH as [Hlen Hi]; [lia|]. rw length_insert. split; [done|]. intros i.
  destruct (decide (i = n)) as [->|Hne].
  - rw list_lookup_total_insert_eq; [lia|]. rw Hi decide_False; [lia|]. by rw decide_True; [lia|].
  - rw list_lookup_total_insert_ne // Hi. repeat case_decide; (done || lia).
Qed.

Lemma lane_word st i : Forall word st → word (st !!! i).
Proof.
  intros Hst. destruct (st !! i) as [x|] eqn:E.
  - rw (list_lookup_total_correct _ _ _ E). by eapply Forall_lookup_1.
  - rw list_lookup_total_alt E /=. done.
Qed.
#[local] Hint Resolve lane_word word_lxor word_land word_not_word word_lor : core.

Definition theta_c (st : list Z) (x : nat) : Z :=
  (st !!! x) ⊕ (st !!! (x + 5)%nat) ⊕ (st !!! (x + 10)%nat) ⊕ (st !!! (x + 15)%nat) ⊕ (st !!! (x + 20)%nat).

Lemma theta_lookup st :
  length st = 25%nat →
  length (theta st) = 25%nat ∧ ∀ i, (i < 25)%nat → theta st !!! i =
    (st !!! i) ⊕ (theta_c st ((i `mod` 5 + 4) `mod` 5)%nat ⊕ rotate_left (theta_c st ((i `mod` 5 + 1) `mod` 5)%nat) 1).
Proof.
  intros Hlen. rw /theta. set (d := fmap _ (seq 0 5)).
  destruct (update_loop (λ x v, v ⊕ (d !!! (x `mod` 5)%nat)) st 25) as [Hl Hi]; [lia|].
  split; [by rw Hl|]. intros i Hlt. rw Hi decide_True //. f_equal. subst d.
  assert (Hm : (i `mod` 5 < 5)%nat) by auto. revert Hm. generalize (i `mod` 5)%nat. intros x Hx.
  by do 5 (destruct x as [|x]; [done|]); lia.
Qed.

Lemma theta_c_word st x : Forall word st → word (theta_c st x).
Proof. intros. rw /theta_c. auto 10. Qed.

Lemma theta_c_bit st x z : Z.testbit (theta_c st x) z = Fips.column (lane_bits st) x z.
Proof. by rw /theta_c /Fips.column /lane_bits !Z.lxor_spec !xorb_assoc Nat.add_0_r. Qed.

Lemma lanes_ok_intro st : length st = 25%nat → (∀ i, (i < 25)%nat → word (st !!! i)) → lanes_ok st.
Proof.
  intros Hl Hw. split; [done|]. apply Forall_lookup. intros i x Hi.
  rw -(list_lookup_total_correct _ _ _ Hi). apply Hw. apply lookup_lt_Some in Hi. lia.
Qed.

Lemma theta_ok st : lanes_ok st → lanes_ok (theta st) ∧ agree (lane_bits (theta st)) (Fips.theta (lane_bits st)).
Proof.
  intros [Hlen Hw]. destruct (theta_lookup st Hlen) as [Hl Hi]. split.
  - apply lanes_ok_intro; [done|]. intros i Hlt. rw Hi //.
    apply word_lxor; [auto|]. apply word_lxor; [by apply theta_c_word|]. by apply rotate_left_word; [apply theta_c_word|].
  - intros x y z Hx Hy Hz. rw /lane_bits /Fips.theta Hi; [lia|].
    rw (_ : (x + 5 * y) `mod` 5 = x)%nat.
    { rw Nat.mul_comm Nat.Div0.mod_add Nat.mod_small //. }
    rw Z.lxor_spec Z.lxor_spec rotate_left_bit //; [by apply theta_c_word|]. by rw !theta_c_bit.
Qed.

(** A flat array as its 25 lanes. *)
Ltac lanes st Hlen :=
  do 25 (destruct st as [|? st]; [discriminate Hlen|]); destruct st; [clear Hlen|discriminate Hlen].

(** All pairs of coordinates below five. *)
Ltac each_lane x y :=
  destruct x as [|[|[|[|[|x]]]]]; [..|lia]; (destruct y as [|[|[|[|[|y]]]]]; [..|lia]).

(** The in-place cycle moves lane [((x + 3y) mod 5, x)] to [(x, y)], rotated. *)
Lemma rho_pi_lookup st x y :
  length st = 25%nat → (x < 5)%nat → (y < 5)%nat → (x, y) ≠ (0, 0)%nat →
  rho_pi st !!! (x + 5 * y)%nat =
  rotate_left (st !!! ((x + 3 * y) `mod` 5 + 5 * x)%nat)
    (Fips.rho_offset 24 0 1 0 ((x + 3 * y) `mod` 5)%nat x mod 64).
Proof.
  intros Hlen Hx Hy Hne. lanes st Hlen. each_lane x y; first [by destruct Hne|reflexivity].
Qed.

Lemma rho_pi_origin st : length st = 25%nat → length (rho_pi st) = 25%nat ∧ rho_pi st !!! 0%nat = st !!! 0%nat.
Proof. intros Hlen. by lanes st Hlen. Qed.

Lemma chi_lookup st x y :
  length st = 25%nat → (x < 5)%nat → (y < 5)%nat →
  chi st !!! (x + 5 * y)%nat =
  (st !!! (x + 5 * y)%nat) ⊕
  Z.land (word_not (st !!! ((x + 1) `mod` 5 + 5 * y)%nat)) (st !!! ((x + 2) `mod` 5 + 5 * y)%nat).
Proof. intros Hlen Hx Hy. lanes st Hlen. each_lane x y; reflexivity. Qed.

Lemma chi_length st : length st = 25%nat → length (chi st) = 25%nat.
Proof. intros Hlen. by lanes st Hlen. Qed.

(** Every lane is at some pair of coordinates. *)
Lemma lane_coords (P : nat → Prop) :
  (∀ x y, (x < 5)%nat → (y < 5)%nat → P (x + 5 * y)%nat) → ∀ i, (i < 25)%nat → P i.
Proof.
  intros HP i Hi. rw (Nat.div_mod_eq i 5) Nat.add_comm. apply HP; [auto|]. apply Nat.Div0.div_lt_upper_bound. lia.
Qed.

Lemma rho_pi_ok st :
  lanes_ok st → lanes_ok (rho_pi st) ∧ agree (lane_bits (rho_pi st)) (Fips.pi (Fips.rho (lane_bits st))).
Proof.
  intros [Hlen Hw]. destruct (rho_pi_origin st Hlen) as [Hl H0]. split.
  - apply lanes_ok_intro; [done|]. apply lane_coords. intros x y Hx Hy.
    destruct (decide ((x, y) = (0, 0)%nat)) as [[= -> ->]|Hne]; [change (0 + 5 * 0)%nat with 0%nat; rw H0; auto|].
    rw rho_pi_lookup; [exact Hlen|exact Hx|exact Hy|exact Hne|]. apply rotate_left_word; auto.
  - intros x y z Hx Hy Hz. rw /lane_bits /Fips.pi /Fips.rho.
    destruct (decide ((x, y) = (0, 0)%nat)) as [[= -> ->]|Hne].
    { change (0 + 5 * 0)%nat with 0%nat. by rw H0 Z.sub_0_r Z.mod_small. }
    rw rho_pi_lookup; [exact Hlen|exact Hx|exact Hy|exact Hne|]. rw rotate_left_bit; [auto..|exact Hz|].
    by rw Zminus_mod_idemp_r.
Qed.

Lemma chi_ok st : lanes_ok st → lanes_ok (chi st) ∧ agree (lane_bits (chi st)) (Fips.chi (lane_bits st)).
Proof.
  intros [Hlen Hw]. split.
  - apply lanes_ok_intro; [by apply chi_length|]. apply lane_coords. intros x y Hx Hy. rw chi_lookup //. auto 10.
  - intros x y z Hx Hy Hz. by rw /lane_bits /Fips.chi chi_lookup // Z.lxor_spec Z.land_spec word_not_bit.
Qed.

(** The table of round constants is what the shift register produces. *)
Lemma RC_bits ir z : (ir < 24)%nat → 0 <= z < 64 → Z.testbit (RC !!! ir) z = Fips.round_bit ir z.
Proof.
  intros Hir Hz.
  assert (Hall : forallb (λ ir, forallb (λ z, eqb (Z.testbit (RC !!! ir) (Z.of_nat z)) (Fips.round_bit ir (Z.of_nat z)))
                                  (seq 0 64)) (seq 0 24) = true) by (vm_compute; reflexivity).
  rw forallb_forall in Hall. specialize (Hall ir). rw forallb_forall in Hall.
  rw -(Z2Nat.id z); [lia|]. apply eqb_prop, Hall; apply in_seq; lia.
Qed.

Lemma RC_word ir : word (RC !!! ir).
Proof. apply lane_word. by repeat constructor. Qed.

Lemma iota_ok st ir :
  (ir < 24)%nat → lanes_ok st →
  lanes_ok (iota st ir) ∧ agree (lane_bits (iota st ir)) (Fips.iota ir (lane_bits st)).
Proof.
  intros Hir [Hlen Hw]. split.
  - split; [by rw /iota length_insert|]. apply Forall_insert; [done|]. apply word_lxor; [auto|apply RC_word].
  - intros x y z Hx Hy Hz. rw /lane_bits /Fips.iota /iota. case_decide as Hxy.
    + destruct Hxy as [-> ->]. rw list_lookup_total_insert_eq; [lia|]. by rw Z.lxor_spec RC_bits.
    + rw list_lookup_total_insert_ne //. lia.
Qed.

Lemma round_ok st ir :
  (ir < 24)%nat → lanes_ok st →
  lanes_ok (keccak_round st ir) ∧ agree (lane_bits (keccak_round st ir)) (Fips.round (lane_bits st) ir).
Proof.
  intros Hir Hst. rw /keccak_round /Fips.round.
  destruct (theta_ok st Hst) as [H1 A1]. destruct (rho_pi_ok _ H1) as [H2 A2].
  destruct (chi_ok _ H2) as [H3 A3]. destruct (iota_ok _ ir Hir H3) as [H4 A4].
  split; [done|]. by rw A4 A3 A2 A1.
Qed.

#[global] Instance round_proper : Proper (agree ==> eq ==> agree) Fips.round.
Proof. intros A B HAB ir ? <-. rw /Fips.round. by rw HAB. Qed.

Lemma rounds_ok l : Forall (λ ir, ir < 24)%nat l → ∀ st A,
  lanes_ok st → agree (lane_bits st) A →
  lanes_ok (foldl keccak_round st l) ∧ agree (lane_bits (foldl keccak_round st l)) (foldl Fips.round A l).
Proof.
  induction 1 as [|ir l Hir _ IH]; intros st A Hst HA; [done|]. simpl.
  destruct (round_ok st ir Hir Hst) as [Hr Ar]. apply IH; [done|]. by rw Ar HA.
Qed.

Lemma keccak_f1600_ok st A :
  lanes_ok st → agree (lane_bits st) A →
  lanes_ok (keccak_f1600 st) ∧ agree (lane_bits (keccak_f1600 st)) (Fips.keccak_p A).
Proof. intros. apply rounds_ok; [|done..]. by apply (bool_decide_unpack _). Qed.

(** ** Blocks *)

Lemma length_bytes_bits l : length (Fips.bytes_bits l) = (8 * length l)%nat.
Proof. induction l as [|b l IH]; [done|]. rw /Fips.bytes_bits bind_cons length_app -/(Fips.bytes_bits l) IH /=. lia. Qed.

Lemma bytes_bits_app l k : Fips.bytes_bits (l ++ k) = Fips.bytes_bits l ++ Fips.bytes_bits k.
Proof. apply bind_app. Qed.

Lemma bytes_bits_lookup l j t :
  (t < 8)%nat → Fips.bytes_bits l !! (8 * j + t)%nat = (λ b, Z.testbit b (Z.of_nat t)) <$> l !! j.
Proof.
  intros Ht. revert j. induction l as [|b l IH]; intros j; [done|].
  rw /Fips.bytes_bits bind_cons -/(Fips.bytes_bits l). destruct j as [|j].
  - rw lookup_app_l; [by rw /Fips.byte_bits length_fmap length_seq; lia|].
    by rw Nat.mul_0_r Nat.add_0_l list_lookup_fmap lookup_seq_lt.
  - rw lookup_app_r; [by rw /Fips.byte_bits length_fmap length_seq; lia|].
    rw (_ : (8 * S j + t - length (Fips.byte_bits b) = 8 * j + t)%nat); [|apply IH].
    rw /Fips.byte_bits length_fmap length_seq. lia.
Qed.

Lemma byte_high b n : 0 <= b < 256 → 8 <= n → Z.testbit b n = false.
Proof.
  intros Hb Hn. destruct (Z.eq_dec b 0) as [->|]; [apply Z.testbit_0_l|].
  apply Z.bits_above_log2; [lia|]. assert (b < 2 ^ 8) by lia. apply Z.log2_lt_pow2 in H; lia.
Qed.

Lemma byte_out b n : 0 <= b < 256 → n < 0 ∨ 8 <= n → Z.testbit b n = false.
Proof. intros Hb [Hn|Hn]; [by apply Z.testbit_neg_r|by apply byte_high]. Qed.

Lemma byte_at block i : bytes_ok block → 0 <= block !!! i < 256.
Proof.
  intros Hb. destruct (block !! i) as [x|] eqn:E.
  - rw (list_lookup_total_correct _ _ _ E). by apply (Forall_lookup_1 _ _ _ _ Hb E).
  - by rw list_lookup_total_alt E.
Qed.

Lemma byte_shift b j t k s :
  0 <= b < 256 → 0 <= t < 8 → s = 8 * k →
  Z.testbit b (8 * j + t - s) = if j =? k then Z.testbit b t else false.
Proof.
  intros Hb Ht ->. destruct (Z.eqb_spec j k) as [->|Hne]; [f_equal; lia|]. apply byte_out; [done|lia].
Qed.

(** A lane holds its eight bytes in order. *)
Lemma block_lane_bit block i z :
  bytes_ok block → 0 <= z < 64 →
  Z.testbit (block_lane block i) z = Z.testbit (block !!! (8 * i + Z.to_nat (z / 8))%nat) (z mod 8).
Proof.
  intros Hb Hz. rw /block_lane !Z.lor_spec !Z.shiftl_spec; try lia.
  pose proof (Z.div_mod z 8 ltac:(lia)) as Hdm. pose proof (Z.mod_pos_bound z 8 ltac:(lia)) as Ht.
  assert (Hj : 0 <= z / 8 < 8) by (split; [apply Z.div_pos; lia|apply Z.div_lt_upper_bound; lia]).
  revert Hdm Ht Hj. generalize (z / 8) (z mod 8). intros j t -> Ht Hj.
  rw -{1}(Z.sub_0_r (8 * j + t)).
  rw (byte_shift _ j t 0 0) ?(byte_shift _ j t 1 8) ?(byte_shift _ j t 2 16) ?(byte_shift _ j t 3 24)
    ?(byte_shift _ j t 4 32) ?(byte_shift _ j t 5 40) ?(byte_shift _ j t 6 48) ?(byte_shift _ j t 7 56);
    try done; try by apply byte_at.
  assert (j = 0 ∨ j = 1 ∨ j = 2 ∨ j = 3 ∨ j = 4 ∨ j = 5 ∨ j = 6 ∨ j = 7) as Hcase by lia.
  destruct_or! Hcase; subst j; cbn [Z.eqb Pos.eqb orb]; rw ?orb_false_r; do 2 f_equal; lia.
Qed.

Lemma block_lane_word block i : bytes_ok block → word (block_lane block i).
Proof.
  intros Hb. assert (Hs : ∀ j s, 0 <= s <= 56 → word (Z.shiftl (block !!! j) s)).
  { intros j s Hs. pose proof (byte_at block j Hb). apply word_bits; [apply Z.shiftl_nonneg; lia|].
    intros n Hn. rw Z.shiftl_spec; [lia|]. apply byte_high; [done|lia]. }
  rw /block_lane. repeat apply word_lor; try (apply Hs; lia). by apply (Hs _ 0).
Qed.

Lemma xor_block_ok st block :
  lanes_ok st → length block = RATE → bytes_ok block →
  lanes_ok (xor_block st block) ∧
  agree (lane_bits (xor_block st block)) (Fips.absorb_block (lane_bits st) (Fips.bytes_bits block)).
Proof.
  intros [Hlen Hw] Hlb Hb.
  destruct (update_loop (λ i v, v ⊕ block_lane block i) st 17) as [Hl Hi]; [lia|]. split.
  - apply lanes_ok_intro; [by rw /xor_block Hl|]. intros i _. rw /xor_block Hi.
    case_decide; [apply word_lxor; [auto|by apply block_lane_word]|auto].
  - intros x y z Hx Hy Hz. rw /lane_bits /Fips.absorb_block /xor_block Hi.
    assert (Hpos : Fips.position x y z = (8 * (8 * (x + 5 * y) + Z.to_nat (z / 8)) + Z.to_nat (z mod 8))%nat).
    { rw /Fips.position. pose proof (Z.div_mod z 8 ltac:(lia)). pose proof (Z.mod_pos_bound z 8 ltac:(lia)).
      assert (0 <= z / 8) by (apply Z.div_pos; lia). lia. }
    pose proof (Z.mod_pos_bound z 8 ltac:(lia)) as Hm.
    assert (Hd : 0 <= z / 8 < 8) by (split; [apply Z.div_pos; lia|apply Z.div_lt_upper_bound; lia]).
    rw Hpos bytes_bits_lookup; [lia|]. case_decide as Hlt.
    + rw Z.lxor_spec block_lane_bit //. f_equal. rw Z2Nat.id; [lia|].
      destruct (block !! _) as [b|] eqn:E; [by rw (list_lookup_total_correct _ _ _ E)|].
      apply lookup_ge_None in E. rw /RATE in Hlb. lia.
    + rw (lookup_ge_None_2 block); [rw /RATE in Hlb; lia|]. by rw xorb_false_r.
Qed.

(** ** Absorbing block by block *)

(** Whole blocks, each of [RATE] bytes. *)
Fixpoint absorb_blocks (n : nat) (st l : list Z) : list Z :=
  match n with
  | O => st
  | S n => absorb_blocks n (keccak_f1600 (xor_block st (take RATE l))) (drop RATE l)
  end.

(** The padding of a message whose last block holds [r] bytes. *)
Definition pad_bytes (r : nat) : list Z :=
  if decide (r = RATE - 1)%nat then [0x81] else 0x01 :: replicate (RATE - 2 - r) 0 ++ [0x80].

Lemma length_pad_bytes r : (r < RATE)%nat → length (pad_bytes r) = (RATE - r)%nat.
Proof.
  intros Hr. rw /pad_bytes /RATE in Hr |- *. case_decide; [simpl; lia|].
  rw /= length_app length_replicate /=. lia.
Qed.

(** The two updates of the last block are the padding. *)
Lemma last_block buf :
  (length buf < RATE)%nat →
  let block := buf ++ replicate (RATE - length buf) 0 in
  let block := <[length buf := (block !!! length buf) ⊕ 0x01]> block in
  <[(RATE - 1)%nat := (block !!! (RATE - 1)%nat) ⊕ 0x80]> block = buf ++ pad_bytes (length buf).
Proof.
  intros Hl. cbv zeta. rw /pad_bytes. rw /RATE in Hl |- *.
  destruct (136 - length buf)%nat as [|n] eqn:Hn; [lia|].
  rw (_ : (136 - 1 = length buf + n)%nat); [lia|]. rw (_ : (136 - 2 - length buf = n - 1)%nat); [lia|].
  assert (Hget : ∀ i l, (buf ++ l) !!! (length buf + i)%nat = l !!! i).
  { intros i l. rw lookup_total_app_r; [lia|]. f_equal. lia. }
  pose proof (Hget 0%nat) as Hget0. rw Nat.add_0_r in Hget0.
  pose proof (λ v l, insert_app_r buf l 0%nat v) as Hset0. rw Nat.add_0_r in Hset0.
  rw Hget0 Hset0 Hget insert_app_r. f_equal. cbn [replicate insert list_insert lookup_total list_lookup_total].
  case_decide as Hd; [by rw (_ : n = 0%nat); [lia|]|]. destruct n as [|n]; [lia|].
  rw replicate_S_end Nat.sub_succ Nat.sub_0_r. cbn [insert list_insert lookup_total list_lookup_total]. f_equal.
  rw (_ : (replicate n 0 ++ [0]) !!! n = 0); [by rw list_lookup_total_middle // length_replicate|].
  rw -{1}(length_replicate n 0) -{1}(Nat.add_0_r (length (replicate n 0))) insert_app_r //.
Qed.

Ltac rate_lia := rw ?length_app ?length_drop; unfold RATE, Fips.rate in *; simpl in *; lia.

Lemma empty_block_app : empty_block = [] ++ replicate (RATE - length (A := Z) []) 0.
Proof. done. Qed.

(** The loop over bytes absorbs the whole blocks and keeps the rest. *)
Lemma absorb_ok data : ∀ st buf,
  (length buf < RATE)%nat →
  ∃ n st' buf', absorb data st (buf ++ replicate (RATE - length buf) 0) (length buf) =
      (st', buf' ++ replicate (RATE - length buf') 0, length buf') ∧
    (length buf' < RATE)%nat ∧ (length buf + length data = RATE * n + length buf')%nat ∧
    ∀ m tail, absorb_blocks (n + m) st (buf ++ data ++ tail) = absorb_blocks m st' (buf' ++ tail).
Proof.
  induction data as [|b data IH]; intros st buf Hl.
  { exists 0%nat, st, buf. split_and!; [done..| |done]. simpl. lia. }
  cbn [absorb].
  assert (Hb : <[length buf := b]> (buf ++ replicate (RATE - length buf) 0) = (buf ++ [b]) ++ replicate (RATE - length (buf ++ [b])) 0).
  { rw length_app /= (_ : RATE - length buf = S (RATE - (length buf + 1)))%nat; [lia|].
    pose proof (insert_app_r buf (0 :: replicate (RATE - (length buf + 1)) 0) 0 b) as Hi. rw Nat.add_0_r in Hi.
    by rw /= Hi -app_assoc. }
  rw Hb. case_decide as Hfull.
  - rw (_ : RATE - length (buf ++ [b]) = 0)%nat; [rate_lia|]. rw app_nil_r {1}empty_block_app.
    destruct (IH (keccak_f1600 (xor_block st (buf ++ [b]))) []) as (n & st' & buf' & He & Hl' & Hlen & Ht); [rate_lia|].
    exists (S n), st', buf'. split_and!; [done..|rate_lia|]. intros m tail. cbn [Nat.add absorb_blocks].
    rw (_ : buf ++ (b :: data) ++ tail = (buf ++ [b]) ++ data ++ tail); [by rw -app_assoc|].
    rw take_app_length' ?drop_app_length' ?length_app //=. apply (Ht m tail).
  - destruct (IH st (buf ++ [b])) as (n & st' & buf' & He & Hl' & Hlen & Ht); [rate_lia|].
    exists n, st', buf'. rw length_app /= in He Hlen. split_and!; [by rw length_app /=|done|simpl; lia|].
    intros m tail. by rw -Ht -app_assoc.
Qed.

#[global] Instance absorb_block_proper : Proper (agree ==> eq ==> agree) Fips.absorb_block.
Proof.
  intros A B HAB P ? <- x y z Hx Hy Hz. rw /Fips.absorb_block. apply f_equal2; [by apply HAB|done].
Qed.

Lemma absorb_blocks_ok P n : ∀ k st A l,
  lanes_ok st → agree (lane_bits st) A → bytes_ok l → length l = (RATE * n)%nat →
  Fips.bytes_bits l = drop (Fips.rate * k) P →
  lanes_ok (absorb_blocks n st l) ∧
  agree (lane_bits (absorb_blocks n st l))
        (foldl (λ A i, Fips.keccak_p (Fips.absorb_block A (Fips.block P i))) A (seq k n)).
Proof.
  induction n as [|n IH]; intros k st A l Hst HA Hl Hlen HP; [done|]. cbn [absorb_blocks seq foldl].
  assert (Hlt : length (take RATE l) = RATE) by (rw length_take; rw /RATE in Hlen |- *; lia).
  assert (Hbits : Fips.bytes_bits (take RATE l) ++ Fips.bytes_bits (drop RATE l) = drop (Fips.rate * k) P).
  { by rw -bytes_bits_app take_drop. }
  assert (Hb8 : length (Fips.bytes_bits (take RATE l)) = Fips.rate) by (rw length_bytes_bits Hlt; done).
  destruct (xor_block_ok st (take RATE l)) as [Hx Ax]; [done..|by apply Forall_take|].
  assert (Hblk : Fips.block P k = Fips.bytes_bits (take RATE l)).
  { rw /Fips.block -Hbits -Hb8. apply take_app_length. }
  destruct (keccak_f1600_ok _ (Fips.absorb_block A (Fips.block P k)) Hx) as [Hf Af].
  { by rw Ax HA Hblk. }
  apply IH; [done..|by apply Forall_drop| |].
  - rate_lia.
  - rw (_ : Fips.rate * S k = Fips.rate * k + Fips.rate)%nat; [lia|]. rw -drop_drop -Hbits -Hb8 drop_app_length //.
Qed.

(** ** Padding and output *)

Lemma zero_bits n : Fips.bytes_bits (replicate n 0) = replicate (8 * n) false.
Proof.
  induction n as [|n IH]; [done|]. rw /Fips.bytes_bits replicate_S bind_cons -/(Fips.bytes_bits _) IH.
  by rw (_ : (8 * S n = 8 + 8 * n)%nat); [lia|].
Qed.

(** The padding bytes are [pad10*1] of the standard. *)
Lemma pad_bits m : Fips.bytes_bits (pad_bytes (m `mod` RATE)%nat) = Fips.pad101 Fips.rate (8 * m).
Proof.
  pose proof (Nat.mod_upper_bound m RATE ltac:(done)) as Hr. rw /Fips.pad101.
  assert (Hj : Z.to_nat ((- Z.of_nat (8 * m) - 2) mod Z.of_nat Fips.rate) = (8 * (RATE - m `mod` RATE) - 2)%nat).
  { pose proof (Nat.div_mod_eq m RATE) as Hdm. set (r := (m `mod` RATE)%nat) in *. set (q := (m / RATE)%nat) in *.
    rw (_ : - Z.of_nat (8 * m) - 2 = Z.of_nat (8 * (RATE - r) - 2) + (- Z.of_nat (q + 1)) * Z.of_nat Fips.rate).
    { rate_lia. }
    rw Z.mod_add; [done|]. rw Z.mod_small; [rate_lia|]. by rw Nat2Z.id. }
  rw Hj /pad_bytes. case_decide as Hd; [by rw Hd|].
  rw -(app_nil_l (_ :: _)) cons_middle !bytes_bits_app zero_bits.
  rw (_ : 8 * (RATE - m `mod` RATE) - 2 = 7 + (8 * (RATE - 2 - m `mod` RATE) + 7))%nat; [rate_lia|].
  rw !replicate_add -!app_assoc. reflexivity.
Qed.

Lemma pad_bytes_ok r : bytes_ok (pad_bytes r).
Proof.
  rw /pad_bytes /bytes_ok. case_decide; [by repeat constructor|]. constructor; [done|].
  apply Forall_app_2; [by apply Forall_replicate|by repeat constructor].
Qed.

Definition squeeze (state : list Z) : list Z :=
  (λ j, Z.land (Z.shiftr (state !!! (j / 8)%nat) (8 * Z.of_nat (j `mod` 8))) 255) <$> seq 0 32.

Lemma squeeze_bits st A :
  agree (lane_bits st) A → Fips.bytes_bits (squeeze st) = Fips.output_bit A <$> seq 0 256.
Proof.
  intros HA. apply list_eq. intros i. destruct (decide (i < 256)%nat) as [Hi|Hi].
  2: { rw !lookup_ge_None_2 // ?length_fmap ?length_seq ?length_bytes_bits ?length_fmap ?length_seq; lia. }
  pose proof (Nat.div_mod_eq i 8) as Hdm. pose proof (Nat.mod_upper_bound i 8 ltac:(done)) as Ht.
  assert (Hj : (i / 8 < 32)%nat) by (apply Nat.Div0.div_lt_upper_bound; lia).
  rw {1}Hdm bytes_bits_lookup // /squeeze !list_lookup_fmap !lookup_seq_lt //.
  cbn [fmap option_fmap option_map]. rw !Nat.add_0_l. f_equal.
  rw Z.land_spec Z.shiftr_spec; [lia|]. change 255 with (Z.ones 8). rw Z.ones_spec_low; [lia|].
  rw andb_true_r Nat.Div0.div_div /Fips.output_bit.
  assert (Hq : (i / 64 < 5)%nat) by (apply Nat.Div0.div_lt_upper_bound; lia).
  rw (Nat.mod_small (i / 64)) // (Nat.div_small (i / 64)) //.
  rw -HA //; [lia|pose proof (Nat.mod_upper_bound i 64 ltac:(done)); lia|].
  rw /lane_bits Nat.mul_0_r Nat.add_0_r. f_equal.
  pose proof (Nat.Div0.mod_mul_r i 8 8). change (8 * 8)%nat with 64%nat in *. lia.
Qed.

Lemma initial_ok : lanes_ok (replicate 25 0) ∧ agree (lane_bits (replicate 25 0)) (λ _ _ _, false).
Proof.
  split; [by split; [|apply Forall_replicate]|]. intros x y z Hx Hy Hz.
  rw /lane_bits lookup_total_replicate_2; [lia|]. apply Z.testbit_0_l.
Qed.

(** C23: the compile-time Keccak is the standard's.  For every byte string, of any
    length, the bits of [const_keccak256] are the 256 bits that the sponge
    KECCAK[512] of FIPS 202 squeezes from the bits of the input: the flat
    lanes, the in-place cycle of rho and pi, the table of round constants and
    the two padding bytes (which fall together when one byte is left in the
    block) compute what the standard defines bit by bit. *)
Theorem keccak256_standard data :
  bytes_ok data → Fips.bytes_bits (const_keccak256 data) = Fips.keccak256 (Fips.bytes_bits data).
Proof.
  intros Hd. rw /const_keccak256 {1}empty_block_app.
  destruct (absorb_ok data (replicate 25 0) []) as (n & st & buf & He & Hl & Hlen & Ht); [rate_lia|].
  rw He. cbv zeta. pose proof (last_block buf Hl) as Hlast. cbv zeta in Hlast. rw Hlast.
  assert (Hmod : (length data `mod` RATE)%nat = length buf).
  { cbn [length Nat.add] in Hlen. rw Hlen Nat.mul_comm Nat.add_comm Nat.Div0.mod_add Nat.mod_small //. }
  set (padded := data ++ pad_bytes (length buf)).
  assert (HP : Fips.bytes_bits padded = Fips.bytes_bits data ++ Fips.pad101 Fips.rate (length (Fips.bytes_bits data))).
  { by rw bytes_bits_app -Hmod pad_bits length_bytes_bits. }
  assert (Hpl : length padded = (RATE * (n + 1))%nat) by (rw length_app length_pad_bytes //; rate_lia).
  assert (Hst : keccak_f1600 (xor_block st (buf ++ pad_bytes (length buf))) = absorb_blocks (n + 1) (replicate 25 0) padded).
  { rw (Ht 1%nat) /= take_ge // length_app length_pad_bytes //. rate_lia. }
  rw Hst -/(squeeze _) /Fips.keccak256 -HP length_bytes_bits Hpl.
  rw (_ : (8 * (RATE * (n + 1)) / Fips.rate = n + 1)%nat).
  { rw (_ : (8 * (RATE * (n + 1)) = (n + 1) * Fips.rate)%nat); [rate_lia|]. by apply Nat.div_mul. }
  apply squeeze_bits. destruct initial_ok as [Hi Ai].
  apply (absorb_blocks_ok _ _ 0%nat); [exact Hi|exact Ai| |exact Hpl|by rw Nat.mul_0_r].
  apply Forall_app_2; [done|apply pad_bytes_ok].
Qed.

Lemma keccak256_standard_witness :
  const_keccak256 [97; 98; 99] =
    [0x4e; 0x03; 0x65; 0x7a; 0xea; 0x45; 0xa9; 0x4f; 0xc7; 0xd4; 0x7b; 0xa8; 0x26; 0xc8; 0xd6; 0x67;
     0xc0; 0xd1; 0xe6; 0xe3; 0x3a; 0x64; 0xa0; 0x36; 0xec; 0x44; 0xf5; 0x8f; 0xa1; 0x2d; 0x6c; 0x45] ∧
  Fips.bytes_bits (const_keccak256 [97; 98; 99]) = Fips.keccak256 (Fips.bytes_bits [97; 98; 99]).
Proof.
  split; [vm_compute; reflexivity|]. apply keccak256_standard. by repeat constructor.
Defined.
