(* ===== verification/RwSet.v ===== *)
(** * Read and write sets of transactions

    crates/pqvm/src/rwset.rs: a summary of the state surfaces a transaction is
    expected to touch, extracted without running it; the addresses, selectors
    and the address decoder it uses from crates/pqvm/src/system_contracts.rs. *)

From S2P Require Import Prelude Primitives Fee Rlp Transaction Keccak.

(** ** System contracts *)

Definition VALIDATOR_REGISTRY_ADDR : Address := b256_of_Z 1.
Definition ACCOUNT_MANAGER_ADDR : Address := b256_of_Z 2.
Definition registry_address : Address := VALIDATOR_REGISTRY_ADDR.
Definition account_manager_address : Address := ACCOUNT_MANAGER_ADDR.
Definition is_system_contract (address : Address) : bool :=
  bool_decide (address = registry_address) || bool_decide (address = account_manager_address).

Definition ADD_VALIDATOR_SELECTOR : list Z := compute_selector (ascii_bytes "addValidator(address)").
Definition REMOVE_VALIDATOR_SELECTOR : list Z := compute_selector (ascii_bytes "removeValidator(address)").
Definition GET_VALIDATORS_SELECTOR : list Z := compute_selector (ascii_bytes "getValidators()").
Definition IS_VALIDATOR_SELECTOR : list Z := compute_selector (ascii_bytes "isValidator(address)").
Definition ROTATE_KEY_SELECTOR : list Z := compute_selector (ascii_bytes "rotateKey(bytes,uint8)").
Definition SET_VALIDATION_CODE_SELECTOR : list Z := compute_selector (ascii_bytes "setValidationCode(bytes32)").
Definition CLEAR_VALIDATION_CODE_SELECTOR : list Z := compute_selector (ascii_bytes "clearValidationCode()").
Definition ERC20_TRANSFER_SELECTOR : list Z := [0xa9; 0x05; 0x9c; 0xbb].

(** [AbiDecode] with its message. *)
Definition decode_address (input : list Z) : result Address string :=
  if len input <? 32 then Err "expected 32 bytes for address"%string
  else Ok (b256_of_Z (from_be_bytes (take 32 input))).

(** ** Sets *)

Inductive TxAccessPath :=
| GlobalState
| NativeBalance (a : Address)
| NativeNonce (a : Address)
| ContractStorageAny (a : Address)
| Erc20Balance (token owner : Address)
| ValidatorSet
| PqPublicKey (a : Address)
| ValidationCode (a : Address).
#[global] Instance TxAccessPath_eq_dec : EqDecision TxAccessPath.
Proof. solve_decision. Defined.

Record TxReadWriteSet := MkRwSet {
  reads : list TxAccessPath;
  writes : list TxAccessPath;
  complete : bool;
}.

Definition rwset_new : TxReadWriteSet := MkRwSet [] [] true.
Definition push_unique (paths : list TxAccessPath) (candidate : TxAccessPath) : list TxAccessPath :=
  if bool_decide (candidate ∈ paths) then paths else paths ++ [candidate].
Definition add_read (path : TxAccessPath) (rw : TxReadWriteSet) : TxReadWriteSet :=
  MkRwSet (push_unique (reads rw) path) (writes rw) (complete rw).
Definition add_write (path : TxAccessPath) (rw : TxReadWriteSet) : TxReadWriteSet :=
  MkRwSet (reads rw) (push_unique (writes rw) path) (complete rw).
Definition mark_incomplete (rw : TxReadWriteSet) : TxReadWriteSet :=
  MkRwSet (reads rw) (writes rw) false.

(** A read and a write of the same path, the pattern of the classifiers. *)
Definition touch (path : TxAccessPath) (rw : TxReadWriteSet) : TxReadWriteSet :=
  add_write path (add_read path rw).

(** ** Extraction *)

Definition decode_selector (data : list Z) : option (list Z) :=
  if len data <? 4 then None else Some (take 4 data).

Definition decode_erc20_transfer_recipient (data : list Z) : option Address :=
  if len data <? 4 + 32 + 32 then None
  else
    match decode_selector data with
    | None => None
    | Some selector =>
        if bool_decide (selector = ERC20_TRANSFER_SELECTOR)
        then match decode_address (take 32 (drop 4 data)) with Ok a => Some a | Err _ => None end
        else None
    end.

Definition classify_system_contract (rw : TxReadWriteSet) (sender target : Address) (data : list Z) :
    TxReadWriteSet :=
  match decode_selector data with
  | None => mark_incomplete (touch (ContractStorageAny target) rw)
  | Some selector =>
      if bool_decide (target = registry_address) then
        if bool_decide (selector = ADD_VALIDATOR_SELECTOR) || bool_decide (selector = REMOVE_VALIDATOR_SELECTOR)
        then touch ValidatorSet rw
        else if bool_decide (selector = GET_VALIDATORS_SELECTOR) || bool_decide (selector = IS_VALIDATOR_SELECTOR)
        then add_read ValidatorSet rw
        else mark_incomplete (touch ValidatorSet rw)
      else if bool_decide (target = account_manager_address) then
        if bool_decide (selector = ROTATE_KEY_SELECTOR) then touch (PqPublicKey sender) rw
        else if bool_decide (selector = SET_VALIDATION_CODE_SELECTOR)
                || bool_decide (selector = CLEAR_VALIDATION_CODE_SELECTOR)
        then touch (ValidationCode sender) rw
        else mark_incomplete (touch (ContractStorageAny target) rw)
      else mark_incomplete (touch (ContractStorageAny target) rw)
  end.

Definition classify_user_contract (rw : TxReadWriteSet) (sender target : Address) (data : list Z)
    (has_value : bool) : TxReadWriteSet :=
  if bool_decide (data = []) then
    if has_value then touch (NativeBalance target) rw else rw
  else
    match decode_erc20_transfer_recipient data with
    | Some recipient =>
        let rw := touch (Erc20Balance target recipient) (touch (Erc20Balance target sender) rw) in
        if has_value then touch (NativeBalance target) rw else rw
    | None => mark_incomplete (touch (ContractStorageAny target) rw)
    end.

(** [HeuristicRwSetExtractor] *)
Definition extract (tx : SignedTransaction) : TxReadWriteSet :=
  let sender := st_from tx in
  let rw := add_read (NativeNonce sender) (add_read (NativeBalance sender) rwset_new) in
  let rw := add_write (NativeNonce sender) (add_write (NativeBalance sender) rw) in
  match tx_to (st_tx tx) with
  | None => mark_incomplete (touch GlobalState rw)
  | Some target =>
      if is_system_contract target then classify_system_contract rw sender target (tx_data (st_tx tx))
      else classify_user_contract rw sender target (tx_data (st_tx tx)) (negb (tx_value (st_tx tx) =? 0))
  end.
