(* ===== verification/Parallel.v ===== *)
(** * Conflict-aware scheduling

    crates/pqvm/src/parallel.rs: conflicts between the read and write sets of a
    batch, and the greedy plan of execution waves; the worker pool of a parallel
    wave evaluates its jobs in any order and collects them by position. *)

From S2P Require Import Prelude Primitives Fee Rlp Transaction Keccak RwSet.

Record ParallelPqvmConfig := MkParallelConfig {
  enabled : bool;
  max_workers : Z;
  fallback_on_incomplete : bool;
}.

Inductive ConflictReason := ReadWrite | WriteWrite | Incomplete.
Record TxConflict := MkConflict {
  left_tx : nat;
  right_tx : nat;
  reason : ConflictReason;
  shared_paths : list TxAccessPath;
}.
Record TxConflictGraph := MkGraph { rwsets : list TxReadWriteSet; conflicts : list TxConflict }.

Record ExecutionWave := MkWave { tx_indices : list nat; parallelizable : bool }.
Record ParallelExecutionPlan := MkPlan { waves : list ExecutionWave; fallback_serial : bool }.

(** ** Conflicts *)

Definition access_paths_conflict (l r : TxAccessPath) : bool :=
  match l, r with
  | GlobalState, _ | _, GlobalState => true
  | NativeBalance a, NativeBalance b | NativeNonce a, NativeNonce b
  | PqPublicKey a, PqPublicKey b | ValidationCode a, ValidationCode b => bool_decide (a = b)
  | ValidatorSet, ValidatorSet => true
  | Erc20Balance t o, Erc20Balance t' o' => bool_decide (t = t') && bool_decide (o = o')
  | ContractStorageAny a, ContractStorageAny b => bool_decide (a = b)
  | ContractStorageAny a, Erc20Balance t _ | Erc20Balance t _, ContractStorageAny a => bool_decide (a = t)
  | _, _ => false
  end.

(** The paths of [ws] that conflict with one of [others], each once. *)
Definition shared (ws others : list TxAccessPath) (acc : list TxAccessPath) : list TxAccessPath :=
  foldl (λ acc w, foldl (λ acc p, if access_paths_conflict w p then push_unique acc w else acc) acc others) acc ws.

Definition detect_conflict (li ri : nat) (l r : TxReadWriteSet) : option TxConflict :=
  let shared_paths := shared (writes l) (reads r ++ writes r) [] in
  let shared_paths := shared (writes r) (reads l ++ writes l) shared_paths in
  let incomplete := negb (complete l) || negb (complete r) in
  if negb (bool_decide (shared_paths = [])) then
    let reason :=
      if incomplete then Incomplete
      else if existsb (λ lp, existsb (λ rp, access_paths_conflict lp rp) (writes r)) (writes l) then WriteWrite
      else ReadWrite in
    Some (MkConflict li ri reason shared_paths)
  else if incomplete then Some (MkConflict li ri Incomplete [GlobalState])
  else None.

Definition graph_build (rwsets : list TxReadWriteSet) : TxConflictGraph :=
  let n := length rwsets in
  let conflicts :=
    l ← seq 0 n;
    r ← seq (l + 1) (n - (l + 1));
    match rwsets !! l, rwsets !! r with
    | Some a, Some b => match detect_conflict l r a b with Some c => [c] | None => [] end
    | _, _ => []
    end in
  MkGraph rwsets conflicts.

Definition has_conflict (g : TxConflictGraph) (l r : nat) : bool :=
  existsb (λ e, ((left_tx e =? l) && (right_tx e =? r) || (left_tx e =? r) && (right_tx e =? l))%nat) (conflicts g).

(** ** The plan *)

(** [vec![HashSet::new(); n]] with both directions of each conflict. *)
Definition conflicts_by_tx (g : TxConflictGraph) : list (gset nat) :=
  foldl (λ by_tx c,
    if bool_decide (left_tx c < length by_tx)%nat && bool_decide (right_tx c < length by_tx)%nat then
      let by_tx := <[left_tx c := {[right_tx c]} ∪ (by_tx !!! left_tx c)]> by_tx in
      <[right_tx c := {[left_tx c]} ∪ (by_tx !!! right_tx c)]> by_tx
    else by_tx) (replicate (length (rwsets g)) ∅) (conflicts g).

(** The state of the greedy loop: the waves, the last one first, and the members
    of the last wave. *)
Record planner := MkPlanner { rev_waves : list ExecutionWave; in_last_wave : list bool }.

Definition can_join (tx_conflicts : gset nat) (wave : ExecutionWave) (in_last : list bool) : bool :=
  if (size tx_conflicts <? length (tx_indices wave))%nat
  then forallb (λ c, negb (in_last !!! c)) (elements tx_conflicts)
  else forallb (λ e, negb (bool_decide (e ∈ tx_conflicts))) (tx_indices wave).

Definition plan_step (s : planner) (tx_index : nat) (tx_conflicts : gset nat) : planner :=
  match rev_waves s with
  | wave :: earlier =>
      if can_join tx_conflicts wave (in_last_wave s)
      then MkPlanner (MkWave (tx_indices wave ++ [tx_index]) true :: earlier) (<[tx_index := true]> (in_last_wave s))
      else
        let in_last := foldl (λ b e, <[e := false]> b) (in_last_wave s) (tx_indices wave) in
        MkPlanner (MkWave [tx_index] false :: wave :: earlier) (<[tx_index := true]> in_last)
  | [] => MkPlanner [MkWave [tx_index] false] (<[tx_index := true]> (in_last_wave s))
  end.

Definition serial_plan (n : nat) : ParallelExecutionPlan := MkPlan [MkWave (seq 0 n) false] true.

Definition plan_from_graph (config : ParallelPqvmConfig) (g : TxConflictGraph) : ParallelExecutionPlan :=
  let n := length (rwsets g) in
  if bool_decide (rwsets g = []) then MkPlan [] false
  else if negb (enabled config) then serial_plan n
  else if fallback_on_incomplete config && existsb (λ rw, negb (complete rw)) (rwsets g)
  then MkPlan [MkWave (seq 0 n) false] true
  else if bool_decide (length (conflicts g) = 0%nat) then MkPlan [MkWave (seq 0 n) (1 <? n)%nat] false
  else
    let s := foldl (λ s p, plan_step s p.1 p.2) (MkPlanner [] (replicate n false))
               (zip (seq 0 n) (conflicts_by_tx g)) in
    MkPlan (reverse (rev_waves s)) false.

Definition plan (config : ParallelPqvmConfig) (extractor : SignedTransaction → TxReadWriteSet)
    (txs : list SignedTransaction) : TxConflictGraph * ParallelExecutionPlan :=
  let g := graph_build (extractor <$> txs) in
  (g, plan_from_graph config g).

(** ** Execution *)

(** [for result in results { outputs.push(result?) }] *)
Fixpoint collect {T E} (outputs : list T) (results : list (result T E)) : result (list T) E :=
  match results with
  | [] => Ok outputs
  | r :: results => let? t := r in collect (outputs ++ [t]) results
  end.

Section execute.
Context {T E : Type} (execute_tx : SignedTransaction → result T E).

(** A serial wave stops at the first error. *)
Fixpoint execute_serial (txs : list SignedTransaction) (outputs : list T) (indices : list nat) :
    option (result (list T) E) :=
  match indices with
  | [] => Some (Ok outputs)
  | i :: indices =>
      match txs !! i with
      | None => None
      | Some tx =>
          match execute_tx tx with
          | Ok t => execute_serial txs (outputs ++ [t]) indices
          | Err e => Some (Err e)
          end
      end
  end.

(** A parallel wave evaluates every job, then collects in order.  [None] is the
    [unreachable!] of an index out of range. *)
Definition execute_wave (txs : list SignedTransaction) (outputs : list T) (wave : ExecutionWave) :
    option (result (list T) E) :=
  if parallelizable wave then
    wave_txs ← mapM (λ i, txs !! i) (tx_indices wave);
    Some (collect outputs (execute_tx <$> wave_txs))
  else execute_serial txs outputs (tx_indices wave).

Fixpoint execute_waves (txs : list SignedTransaction) (outputs : list T) (ws : list ExecutionWave) :
    option (result (list T) E) :=
  match ws with
  | [] => Some (Ok outputs)
  | wave :: ws =>
      match execute_wave txs outputs wave with
      | Some (Ok outputs) => execute_waves txs outputs ws
      | other => other
      end
  end.
Definition execute (txs : list SignedTransaction) (p : ParallelExecutionPlan) : option (result (list T) E) :=
  execute_waves txs [] (waves p).
End execute.

(** ** Metrics *)

(** [conflict_ratio], a float, is left out. *)
Record ConflictMetric := MkMetric { total_conflicts : Z; reexecuted_txs : Z }.
Definition record_conflict (reexecuted : Z) (m : ConflictMetric) : ConflictMetric :=
  MkMetric (sat_add (total_conflicts m) 1) (sat_add (reexecuted_txs m) reexecuted).
Definition metric_from (g : TxConflictGraph) : ConflictMetric :=
  foldl (λ m _, record_conflict 1 m) (MkMetric 0 0) (conflicts g).
