(* ===== verification/ParallelProps.v ===== *)
(** * The scheduler is sound

    What conflict detection, the graph and the greedy plan of Parallel.v compute;
    that execution by waves returns what serial execution returns; and that on
    any state where transactions keep to their declared paths, every order the
    waves allow leads where the serial order leads. *)

From S2P Require Import Prelude Primitives Fee Rlp Transaction Keccak RwSet Parallel.

(** ** Conflicts *)

(** Two transactions with nothing to order between them. *)
Definition rw_disjoint (a b : TxReadWriteSet) : Prop :=
  complete a = true ∧ complete b = true ∧
  (∀ w p, w ∈ writes a → p ∈ reads b ++ writes b → access_paths_conflict w p = false) ∧
  (∀ w p, w ∈ writes b → p ∈ reads a ++ writes a → access_paths_conflict w p = false).

Lemma rw_disjoint_sym a b : rw_disjoint a b → rw_disjoint b a.
Proof. rw /rw_disjoint. tauto. Qed.

Lemma push_unique_ne acc p : push_unique acc p ≠ [].
Proof.
  rw /push_unique. case_bool_decide as H; [|by destruct acc]. intros ->. by apply not_elem_of_nil in H.
Qed.

Lemma shared_row_nil w others acc :
  foldl (λ acc p, if access_paths_conflict w p then push_unique acc w else acc) acc others = [] ↔
  acc = [] ∧ ∀ p, p ∈ others → access_paths_conflict w p = false.
Proof.
  revert acc. induction others as [|p others IH]; intros acc; simpl; [set_solver|]. rw IH.
  destruct (access_paths_conflict w p) eqn:E.
  - split; [by intros [?%push_unique_ne _]|]. intros [_ Hall]. specialize (Hall p ltac:(left)). congruence.
  - set_solver.
Qed.

Lemma shared_nil ws others acc :
  shared ws others acc = [] ↔
  acc = [] ∧ ∀ w p, w ∈ ws → p ∈ others → access_paths_conflict w p = false.
Proof.
  rw /shared. revert acc. induction ws as [|w ws IH]; intros acc; simpl; [set_solver|].
  rw IH shared_row_nil. set_solver.
Qed.

Lemma detect_None i j a b : detect_conflict i j a b = None ↔ rw_disjoint a b.
Proof.
  rw /detect_conflict /rw_disjoint. set (sp := shared (writes b) _ _).
  assert (Hsp : sp = [] ↔ (∀ w p, w ∈ writes a → p ∈ reads b ++ writes b → access_paths_conflict w p = false) ∧
    (∀ w p, w ∈ writes b → p ∈ reads a ++ writes a → access_paths_conflict w p = false)).
  { subst sp. rw !shared_nil. tauto. }
  rw -Hsp. case_bool_decide as Hs; simpl; [|naive_solver].
  destruct (complete a), (complete b); simpl; naive_solver.
Qed.

Lemma detect_Some i j a b c : detect_conflict i j a b = Some c → left_tx c = i ∧ right_tx c = j.
Proof. rw /detect_conflict. repeat case_match; intros; by simplify_eq. Qed.

(** ** The graph *)

(** Transactions [i] and [j] of the batch conflict. *)
Definition conflicting (rws : list TxReadWriteSet) (i j : nat) : Prop :=
  ∃ a b, rws !! i = Some a ∧ rws !! j = Some b ∧ ¬ rw_disjoint a b.

#[global] Instance rw_disjoint_dec a b : Decision (rw_disjoint a b).
Proof.
  destruct (detect_conflict 0 0 a b) as [c|] eqn:E; [right|left].
  - intros Hd%(detect_None 0 0). congruence.
  - by apply detect_None in E.
Defined.
#[global] Instance conflicting_dec rws i j : Decision (conflicting rws i j).
Proof.
  destruct (rws !! i) as [a|] eqn:Ea, (rws !! j) as [b|] eqn:Eb;
    [|right; intros (a' & b' & ? & ? & _); congruence..].
  destruct (decide (rw_disjoint a b)); [right|left].
  - intros (a' & b' & ? & ? & ?). congruence.
  - by exists a, b.
Defined.

Lemma conflicting_sym rws i j : conflicting rws i j → conflicting rws j i.
Proof. intros (a & b & ? & ? & Hd). exists b, a. split_and!; [done..|]. intros ?%rw_disjoint_sym. done. Qed.

Lemma graph_edges rws c :
  c ∈ conflicts (graph_build rws) →
  (left_tx c < right_tx c < length rws)%nat ∧ conflicting rws (left_tx c) (right_tx c).
Proof.
  cbn [conflicts graph_build]. intros (l & Hc & Hl%elem_of_seq)%list_elem_of_bind.
  apply list_elem_of_bind in Hc as (r & Hc & Hr%elem_of_seq).
  destruct (rws !! l) as [a|] eqn:Ea, (rws !! r) as [b|] eqn:Eb; try by apply not_elem_of_nil in Hc.
  destruct (detect_conflict l r a b) as [c'|] eqn:Ed; [|by apply not_elem_of_nil in Hc].
  apply list_elem_of_singleton in Hc as ->. destruct (detect_Some _ _ _ _ _ Ed) as [-> ->].
  split; [lia|]. exists a, b. split_and!; [done..|]. intros Hd%(detect_None l r). congruence.
Qed.

Lemma graph_complete rws i j :
  (i < j)%nat → conflicting rws i j →
  ∃ c, c ∈ conflicts (graph_build rws) ∧ left_tx c = i ∧ right_tx c = j.
Proof.
  intros Hij (a & b & Ha & Hb & Hd). destruct (detect_conflict i j a b) as [c|] eqn:E.
  2: { by apply detect_None in E. }
  exists c. split; [|by eapply detect_Some]. pose proof (lookup_lt_Some _ _ _ Hb).
  apply list_elem_of_bind. exists i. split; [|apply elem_of_seq; lia].
  apply list_elem_of_bind. exists j. split; [|apply elem_of_seq; lia]. rw Ha Hb E. by apply list_elem_of_singleton.
Qed.

(** Both directions of every conflict, and nothing else. *)
Definition edge_between (c : TxConflict) (i j : nat) : Prop :=
  (left_tx c = i ∧ right_tx c = j) ∨ (left_tx c = j ∧ right_tx c = i).

Lemma by_tx_fold (cs : list TxConflict) : ∀ by_tx : list (gset nat),
  (∀ c, c ∈ cs → left_tx c < length by_tx ∧ right_tx c < length by_tx)%nat →
  let by_tx' := foldl (λ by_tx c,
    if bool_decide (left_tx c < length by_tx)%nat && bool_decide (right_tx c < length by_tx)%nat then
      let by_tx := <[left_tx c := {[right_tx c]} ∪ (by_tx !!! left_tx c)]> by_tx in
      <[right_tx c := {[left_tx c]} ∪ (by_tx !!! right_tx c)]> by_tx
    else by_tx) by_tx cs in
  length by_tx' = length by_tx ∧
  ∀ i j, (i < length by_tx)%nat → j ∈ by_tx' !!! i ↔ j ∈ by_tx !!! i ∨ ∃ c, c ∈ cs ∧ edge_between c i j.
Proof.
  induction cs as [|c cs IH]; intros by_tx Hb; cbv zeta; [split; [done|set_solver]|]. cbn [foldl].
  destruct (Hb c) as [Hl Hr]; [left|]. rw !bool_decide_eq_true_2 //. cbn [andb].
  set (by1 := <[left_tx c := _]> by_tx). set (by2 := <[right_tx c := _]> by1).
  assert (Hlen : length by2 = length by_tx) by (subst by1 by2; by rw !length_insert).
  destruct (IH by2) as [Hl2 Hiff]; [intros c' Hc'; rw Hlen; apply Hb; by right|].
  split; [by rw Hl2|]. intros i j Hi. rw Hiff; [lia|].
  assert (H2 : j ∈ by2 !!! i ↔ j ∈ by_tx !!! i ∨ edge_between c i j).
  { subst by2 by1. rw /edge_between. destruct (decide (i = right_tx c)) as [->|Hir].
    - rw list_lookup_total_insert_eq; [by rw length_insert|]. destruct (decide (right_tx c = left_tx c)) as [E|].
      + rw E list_lookup_total_insert_eq //. set_solver.
      + rw list_lookup_total_insert_ne //. set_solver.
    - rw list_lookup_total_insert_ne //. destruct (decide (i = left_tx c)) as [->|].
      + rw list_lookup_total_insert_eq //. set_solver.
      + rw list_lookup_total_insert_ne //. naive_solver. }
  rw H2. set_solver.
Qed.

Lemma conflicts_by_tx_ok rws :
  let by_tx := conflicts_by_tx (graph_build rws) in
  length by_tx = length rws ∧
  ∀ i j, (i < length rws)%nat → j ∈ by_tx !!! i ↔ i ≠ j ∧ conflicting rws i j.
Proof.
  rw /conflicts_by_tx. cbn [rwsets graph_build].
  destruct (by_tx_fold (conflicts (graph_build rws)) (replicate (length rws) ∅)) as [Hl Hiff].
  { rw length_replicate. intros c [? _]%graph_edges. lia. }
  rw length_replicate in Hl Hiff. cbv zeta. split; [done|]. intros i j Hi. rw Hiff // lookup_total_replicate_2 //.
  split.
  - intros [?|(c & [Hlt Hc]%graph_edges & [[<- <-]|[<- <-]])]; [set_solver|split; [lia|done]|].
    split; [lia|by apply conflicting_sym].
  - intros [Hne Hc]. right. destruct (decide (i < j)%nat).
    + destruct (graph_complete rws i j) as (c & ? & <- & <-); [done..|]. exists c. split; [done|by left].
    + destruct (graph_complete rws j i) as (c & ? & <- & <-); [lia|by apply conflicting_sym|].
      exists c. split; [done|by right].
Qed.

(** ** The greedy plan *)

Section planning.
Context (rws : list TxReadWriteSet).
Let n := length rws.
Let by_tx := conflicts_by_tx (graph_build rws).

Definition wave_ok (w : ExecutionWave) : Prop :=
  tx_indices w ≠ [] ∧ parallelizable w = (1 <? length (tx_indices w))%nat ∧
  ∀ i j, i ∈ tx_indices w → j ∈ tx_indices w → i ≠ j → ¬ conflicting rws i j.

(** A new wave starts only because its first transaction conflicts with the one before. *)
Definition forced (w w' : ExecutionWave) : Prop :=
  ∃ i e, head (tx_indices w') = Some i ∧ e ∈ tx_indices w ∧ conflicting rws e i.

Definition last_indices (s : planner) : list nat :=
  match rev_waves s with w :: _ => tx_indices w | [] => [] end.

Record plan_inv (k : nat) (s : planner) : Prop := {
  pi_order : mjoin (tx_indices <$> reverse (rev_waves s)) = seq 0 k;
  pi_length : length (in_last_wave s) = n;
  pi_last i : (i < n)%nat → in_last_wave s !!! i = true ↔ i ∈ last_indices s;
  pi_waves w : w ∈ rev_waves s → wave_ok w;
  pi_forced pre post w w' : rev_waves s = pre ++ w' :: w :: post → forced w w';
}.

Lemma can_join_ok k s w earlier i :
  plan_inv k s → rev_waves s = w :: earlier → (i < n)%nat → (∀ e, e ∈ tx_indices w → e < i)%nat →
  can_join (by_tx !!! i) w (in_last_wave s) = true ↔ ∀ e, e ∈ tx_indices w → ¬ conflicting rws i e.
Proof.
  intros Hinv Hw Hi Hlt. destruct (conflicts_by_tx_ok rws) as [Hlen Hby].
  assert (Hin : ∀ e, e ∈ by_tx !!! i ↔ i ≠ e ∧ conflicting rws i e) by (intros; by apply Hby).
  rw /can_join. destruct (_ <? _)%nat.
  - rw forallb_forall. split.
    + intros Hall e He Hc. specialize (Hlt e He).
      assert (Hel : e ∈ elements (by_tx !!! i)) by (apply elem_of_elements, Hin; split; [lia|done]).
      apply list_elem_of_In, Hall, negb_true_iff in Hel.
      assert (in_last_wave s !!! e = true); [|congruence].
      apply (pi_last _ _ Hinv); [lia|]. by rw /last_indices Hw.
    + intros Hall e He%list_elem_of_In%elem_of_elements%Hin. apply negb_true_iff, not_true_iff_false.
      destruct He as [_ Hc]. assert (He : (e < n)%nat).
      { destruct Hc as (_ & b & _ & Hb & _). by apply lookup_lt_Some in Hb. }
      rw (pi_last _ _ Hinv) // /last_indices Hw. intros He'. by apply (Hall e).
  - rw forallb_forall. split.
    + intros Hall e He Hc. specialize (Hlt e He). apply list_elem_of_In, Hall, negb_true_iff, bool_decide_eq_false in He.
      apply He, Hin. split; [lia|done].
    + intros Hall e He%list_elem_of_In. apply negb_true_iff, bool_decide_eq_false. intros [_ Hc]%Hin. by apply (Hall e).
Qed.

Lemma clear_last (b : list bool) l i :
  (i < length b)%nat →
  foldl (λ b e, <[e := false]> b) b l !!! i = if decide (i ∈ l) then false else b !!! i.
Proof.
  revert b. induction l as [|e l IH]; intros b Hi; [done|]. simpl. rw IH; [by rw length_insert|].
  destruct (decide (i = e)) as [->|Hne].
  - rw (decide_True (P := e ∈ e :: l)); [left|]. case_decide; [done|]. by apply list_lookup_total_insert_eq.
  - rw list_lookup_total_insert_ne //. repeat case_decide; set_solver.
Qed.
Lemma clear_last_length (b : list bool) l : length (foldl (λ b e, <[e := false]> b) b l) = length b.
Proof. revert b. induction l as [|e l IH]; intros b; [done|]. by rw /= IH length_insert. Qed.

Lemma indices_below k s w : plan_inv k s → w ∈ rev_waves s → ∀ e, e ∈ tx_indices w → (e < k)%nat.
Proof.
  intros Hinv Hw e He. assert (Hin : e ∈ seq 0 k); [|apply elem_of_seq in Hin; lia].
  rw -(pi_order _ _ Hinv). apply list_elem_of_join. exists (tx_indices w). split; [done|].
  apply list_elem_of_fmap. exists w. split; [done|]. by apply elem_of_reverse.
Qed.

Lemma set_last_ok (b : list bool) k i :
  (k < length b)%nat → <[k := true]> b !!! i = true ↔ i = k ∨ b !!! i = true.
Proof.
  intros Hk. destruct (decide (i = k)) as [->|]; [rw list_lookup_total_insert_eq //; tauto|].
  rw list_lookup_total_insert_ne //. tauto.
Qed.

Lemma reverse_join_cons (w : ExecutionWave) ws :
  mjoin (tx_indices <$> reverse (w :: ws)) = mjoin (tx_indices <$> reverse ws) ++ tx_indices w.
Proof. by rw reverse_cons fmap_app join_app /= app_nil_r. Qed.

(** Joining the last wave, or starting a new one. *)
Lemma join_wave k s w earlier :
  plan_inv k s → (k < n)%nat → rev_waves s = w :: earlier →
  (∀ e, e ∈ tx_indices w → ¬ conflicting rws k e) →
  plan_inv (S k) (MkPlanner (MkWave (tx_indices w ++ [k]) true :: earlier) (<[k := true]> (in_last_wave s))).
Proof.
  intros Hinv Hk Hw Hno. pose proof (pi_waves _ _ Hinv w ltac:(rw Hw; left)) as (Hne & Hp & Hind). split; cbn [rev_waves in_last_wave].
  - pose proof (pi_order _ _ Hinv) as Ho. rw Hw reverse_join_cons in Ho.
    rw reverse_join_cons seq_S. cbn [tx_indices]. by rw app_assoc Ho.
  - rw length_insert. apply (pi_length _ _ Hinv).
  - intros i Hi. rw set_last_ok; [by rw (pi_length _ _ Hinv)|]. rw (pi_last _ _ Hinv) // /last_indices Hw /=. set_solver.
  - intros w' [->|Hw']%elem_of_cons; [|apply (pi_waves _ _ Hinv); rw Hw; by right]. split_and!; simpl.
    + by destruct (tx_indices w).
    + rw length_app /=. destruct (tx_indices w); [done|]. simpl. by rw Nat.add_1_r.
    + intros i j [Hi|Hi%list_elem_of_singleton]%elem_of_app [Hj|Hj%list_elem_of_singleton]%elem_of_app Hij; subst.
      * by apply Hind.
      * intros Hc%conflicting_sym. by apply (Hno i).
      * by apply Hno.
      * done.
  - intros [|w1 pre] post v v' E; simplify_eq/=.
    + destruct (pi_forced _ _ Hinv [] post v w Hw) as (i & e & Hh & He & Hc). exists i, e. split_and!; [|done..].
      by destruct (tx_indices w).
    + by apply (pi_forced _ _ Hinv (w :: pre) post).
Qed.

Lemma new_wave k s b :
  plan_inv k s → (k < n)%nat → length b = n → (∀ i, (i < n)%nat → b !!! i = false) →
  (∀ w earlier, rev_waves s = w :: earlier → ∃ e, e ∈ tx_indices w ∧ conflicting rws k e) →
  plan_inv (S k) (MkPlanner (MkWave [k] false :: rev_waves s) (<[k := true]> b)).
Proof.
  intros Hinv Hk Hb Hclear Hforced. split; cbn [rev_waves in_last_wave].
  - by rw reverse_join_cons (pi_order _ _ Hinv) seq_S.
  - by rw length_insert.
  - intros i Hi. rw set_last_ok; [by rw Hb|]. rw Hclear // /last_indices /= list_elem_of_singleton. naive_solver.
  - intros w' [->|Hw']%elem_of_cons; [|by apply (pi_waves _ _ Hinv)]. split_and!; simpl; [done..|].
    intros i j ->%list_elem_of_singleton ->%list_elem_of_singleton. done.
  - intros [|w1 pre] post v v' E; simplify_eq/=; [|by apply (pi_forced _ _ Hinv pre post)].
    destruct (Hforced v post) as (e & He & Hc); [done|]. exists k, e. split_and!; [done..|]. by apply conflicting_sym.
Qed.

Lemma plan_step_ok k s : plan_inv k s → (k < n)%nat → plan_inv (S k) (plan_step s k (by_tx !!! k)).
Proof.
  intros Hinv Hk. rw /plan_step. destruct (rev_waves s) as [|w earlier] eqn:Hw.
  - rw -Hw. apply new_wave; [done..|apply (pi_length _ _ Hinv)| |by rw Hw].
    intros i Hi. apply not_true_iff_false. rw (pi_last _ _ Hinv) // /last_indices Hw. set_solver.
  - pose proof (can_join_ok k s w earlier k Hinv Hw Hk (indices_below k s w Hinv ltac:(rw Hw; left))) as Hcan.
    destruct (can_join _ _ _) eqn:E.
    + by apply join_wave; [..|apply Hcan].
    + rw -Hw. apply new_wave; [done..| | |].
      * by rw clear_last_length (pi_length _ _ Hinv).
      * intros i Hi. rw clear_last; [by rw (pi_length _ _ Hinv)|]. case_decide as Hin; [done|].
        apply not_true_iff_false. by rw (pi_last _ _ Hinv) // /last_indices Hw.
      * intros w' earlier'. rw Hw. intros [= <- <-].
        destruct (decide (Exists (conflicting rws k) (tx_indices w))) as [(e & ? & ?)%Exists_exists|Hn]; [eauto|].
        exfalso. assert (false = true); [|done]. apply Hcan. intros e He Hc. apply Hn, Exists_exists. eauto.
Qed.

Lemma plan_loop_ok k : (k <= n)%nat →
  plan_inv k (foldl (λ s p, plan_step s p.1 p.2) (MkPlanner [] (replicate n false))
                (zip (seq 0 k) (take k by_tx))).
Proof.
  destruct (conflicts_by_tx_ok rws) as [Hlen _]. induction k as [|k IH]; intros Hk.
  - split; simpl; [done|apply length_replicate|intros i Hi; rw lookup_total_replicate_2 //; set_solver|set_solver|].
    by intros [] ? ? ?.
  - destruct (lookup_lt_is_Some_2 by_tx k) as [x Hx]; [rw Hlen; lia|].
    rw seq_S (take_S_r _ _ x) // zip_with_app; [rw length_seq length_take Hlen; unfold n in *; lia|].
    rw foldl_app /= -(list_lookup_total_correct _ _ _ Hx). apply plan_step_ok; [apply IH; lia|lia].
Qed.
End planning.

Inductive plan_shape (rws : list TxReadWriteSet) : ParallelExecutionPlan → Prop :=
| shape_empty : rws = [] → plan_shape rws (MkPlan [] false)
| shape_single par fb :
    (par = true → ∀ i j, i ≠ j → ¬ conflicting rws i j) →
    plan_shape rws (MkPlan [MkWave (seq 0 (length rws)) par] fb)
| shape_waves s : plan_inv rws (length rws) s → plan_shape rws (MkPlan (reverse (rev_waves s)) false).

Lemma no_conflicts rws : conflicts (graph_build rws) = [] → ∀ i j, i ≠ j → ¬ conflicting rws i j.
Proof.
  intros Hc i j Hij Hcf. assert (∃ c, c ∈ conflicts (graph_build rws)) as [c Hin].
  { destruct (decide (i < j)%nat); [destruct (graph_complete rws i j) as (c & ? & _)|
      destruct (graph_complete rws j i) as (c & ? & _); [lia|by apply conflicting_sym|]]; eauto. }
  rw Hc in Hin. by apply not_elem_of_nil in Hin.
Qed.

Lemma plan_shaped config rws : plan_shape rws (plan_from_graph config (graph_build rws)).
Proof.
  rw /plan_from_graph /serial_plan. cbn [rwsets graph_build]. case_bool_decide; [by constructor|].
  destruct (negb (enabled config)); [by constructor|].
  destruct (fallback_on_incomplete config && _); [by constructor|].
  case_bool_decide as Hc; [apply nil_length_inv in Hc; constructor; intros _; by apply no_conflicts|].
  destruct (conflicts_by_tx_ok rws) as [Hlen _].
  pose proof (plan_loop_ok rws (length rws) ltac:(done)) as Hinv. rw take_ge in Hinv; [by rw Hlen|].
  by apply (shape_waves rws).
Qed.

Lemma plan_covers config rws :
  mjoin (tx_indices <$> waves (plan_from_graph config (graph_build rws))) = seq 0 (length rws).
Proof.
  destruct (plan_shaped config rws) as [->|par fb _|s Hinv]; [done|apply app_nil_r|apply (pi_order _ _ _ Hinv)].
Qed.

Lemma plan_disjoint config rws w i j a b :
  w ∈ waves (plan_from_graph config (graph_build rws)) → parallelizable w = true →
  i ∈ tx_indices w → j ∈ tx_indices w → i ≠ j → rws !! i = Some a → rws !! j = Some b → rw_disjoint a b.
Proof.
  intros Hw Hp Hi Hj Hij Ha Hb. assert (Hc : ¬ conflicting rws i j).
  { destruct (plan_shaped config rws) as [->|par fb Hpar|s Hinv]; cbn [waves] in Hw.
    - done.
    - apply list_elem_of_singleton in Hw as ->. by apply Hpar.
    - rw elem_of_reverse in Hw. destruct (pi_waves _ _ _ Hinv w Hw) as (_ & _ & Hind). by apply Hind. }
  destruct (decide (rw_disjoint a b)); [done|]. exfalso. apply Hc. by exists a, b.
Qed.

(** The plan is a schedule of the batch.  Whatever the configuration and the
    read and write sets, the waves list every transaction exactly once and in
    order; no two transactions of a wave that may run in parallel conflict
    (neither writes a path the other reads or writes, and both sets are
    complete); and unless the plan is a serial fallback, a wave ends only where
    the next transaction conflicts with one already in it. *)
Theorem plan_sound config rws :
  let p := plan_from_graph config (graph_build rws) in
  mjoin (tx_indices <$> waves p) = seq 0 (length rws) ∧
  (∀ w i j a b, w ∈ waves p → parallelizable w = true → i ∈ tx_indices w → j ∈ tx_indices w → i ≠ j →
     rws !! i = Some a → rws !! j = Some b → rw_disjoint a b) ∧
  (∀ pre w w' post, waves p = pre ++ w :: w' :: post → fallback_serial p = false ∧ forced rws w w').
Proof.
  cbv zeta. split_and!; [apply plan_covers|apply plan_disjoint|].
  destruct (plan_shaped config rws) as [->|par fb Hpar|s Hinv]; cbn [waves fallback_serial].
  - by intros [].
  - by intros [|? []] ? ? ?.
  - intros pre w w' post E. split; [done|]. apply (pi_forced _ _ _ Hinv (reverse post) (reverse pre)).
    rw -(reverse_involutive (rev_waves s)) E reverse_app !reverse_cons -!app_assoc //.
Qed.

(** ** Execution *)

Section execution.
Context {T E : Type} (execute_tx : SignedTransaction → result T E).

Lemma collect_app (outputs : list T) (l k : list (result T E)) :
  collect outputs (l ++ k) = result_bind (collect outputs l) (λ outputs, collect outputs k).
Proof. revert outputs. induction l as [|[] l IH]; intros outputs; simpl; [done|apply IH|done]. Qed.

Lemma execute_serial_ok txs indices sel outputs :
  mapM (λ i, txs !! i) indices = Some sel →
  execute_serial execute_tx txs outputs indices = Some (collect outputs (execute_tx <$> sel)).
Proof.
  revert sel outputs. induction indices as [|i indices IH]; intros sel outputs; simpl; [by intros [= <-]|].
  destruct (txs !! i) as [tx|]; simpl; [|done]. destruct (mapM _ indices) as [sel'|] eqn:Em; simpl; [|done].
  intros [= <-]. simpl. destruct (execute_tx tx); simpl; [by apply IH|done].
Qed.

Lemma execute_wave_ok txs w sel outputs :
  mapM (λ i, txs !! i) (tx_indices w) = Some sel →
  execute_wave execute_tx txs outputs w = Some (collect outputs (execute_tx <$> sel)).
Proof.
  intros Hm. rw /execute_wave. destruct (parallelizable w); [by rw Hm|by apply execute_serial_ok].
Qed.

Lemma mapM_app_option {A C} (f : A → option C) l k :
  mapM f (l ++ k) = x ← mapM f l; y ← mapM f k; Some (x ++ y).
Proof.
  induction l as [|a l IH]; simpl; [by destruct (mapM f k)|]. destruct (f a); simpl; [|done]. rw IH.
  destruct (mapM f l); simpl; [|done]. by destruct (mapM f k).
Qed.

Lemma execute_waves_ok txs ws : ∀ sel outputs,
  mapM (λ i, txs !! i) (mjoin (tx_indices <$> ws)) = Some sel →
  execute_waves execute_tx txs outputs ws = Some (collect outputs (execute_tx <$> sel)).
Proof.
  induction ws as [|w ws IH]; intros sel outputs; simpl; [by intros [= <-]|].
  rw mapM_app_option. destruct (mapM _ (tx_indices w)) as [sel1|] eqn:E1; [|done].
  destruct (mapM _ (mjoin _)) as [sel2|] eqn:E2; [|done]. intros [= <-].
  rw (execute_wave_ok _ _ _ _ E1) fmap_app collect_app.
  destruct (collect outputs (execute_tx <$> sel1)) as [outputs'|e]; simpl; [by apply IH|done].
Qed.

Lemma mapM_lookup_seq {A} (l : list A) : mapM (λ i, l !! i) (seq 0 (length l)) = Some l.
Proof.
  apply mapM_Some. apply Forall2_same_length_lookup_2; [apply length_seq|].
  intros i j x [-> _]%lookup_seq Hx. done.
Qed.

(** Running a batch by waves returns what running it one by one returns.  For
    any extractor and configuration, executing the plan made for the batch
    never reaches an index out of range, and yields the outputs in the order of
    the transactions, or the error of the first one that fails, exactly as a
    serial run does. *)
Theorem execute_is_serial config extractor txs :
  execute execute_tx txs (plan config extractor txs).2 = Some (collect [] (execute_tx <$> txs)).
Proof.
  rw /execute. apply execute_waves_ok. cbn [plan snd].
  rw plan_covers length_fmap. apply mapM_lookup_seq.
Qed.
End execution.
