(* ===== verification/ParallelState.v ===== *)
(** * Waves are serializable

    The plans of Parallel.v over a state of locations.  Each access path covers a
    set of locations; paths that do not conflict cover disjoint ones.  A
    transaction that keeps to the paths its set declares commutes with one whose
    set is disjoint, so the order inside a parallel wave does not matter. *)

From S2P Require Import Prelude Primitives Fee Rlp Transaction Keccak RwSet Parallel ParallelProps.

(** ** Locations *)

Inductive Location :=
| Balance (a : Address)
| Nonce (a : Address)
| Storage (contract : Address) (slot : Z)
| Validators
| PubKey (a : Address)
| Code (a : Address)
| OtherState (id : Z).
#[global] Instance Location_eq_dec : EqDecision Location.
Proof. solve_decision. Defined.
#[global] Instance Location_countable : Countable Location.
Proof.
  refine (inj_countable'
    (λ l, match l with
          | Balance a => (0, a, 0) | Nonce a => (1, a, 0) | Storage a s => (2, a, s) | Validators => (3, ZERO, 0)
          | PubKey a => (4, a, 0) | Code a => (5, a, 0) | OtherState i => (6, ZERO, i)
          end)
    (λ '(t, a, s), match t with
          | 0 => Balance a | 1 => Nonce a | 2 => Storage a s | 3 => Validators | 4 => PubKey a | 5 => Code a
          | _ => OtherState s end) _).
  by intros [].
Defined.

Section serial.
(** The storage slot of an owner's balance in a token's mapping: a hash, assumed
    to give different owners different slots. *)
Context (balance_slot : Address → Address → Z).
Context (slot_inj : ∀ token, Inj (=) (=) (balance_slot token)).

Definition covers (p : TxAccessPath) (l : Location) : bool :=
  match p, l with
  | GlobalState, _ => true
  | NativeBalance a, Balance b | NativeNonce a, Nonce b | PqPublicKey a, PubKey b
  | ValidationCode a, Code b => bool_decide (a = b)
  | ContractStorageAny a, Storage b _ => bool_decide (a = b)
  | Erc20Balance token owner, Storage b slot => bool_decide (token = b) && bool_decide (balance_slot token owner = slot)
  | ValidatorSet, Validators => true
  | _, _ => false
  end.

Lemma covers_disjoint p q l :
  access_paths_conflict p q = false → covers p l = true → covers q l = false.
Proof.
  intros Hc Hp. apply not_true_iff_false. intros Hq. revert Hc. apply not_false_iff_true.
  destruct p, q, l; try done; simpl in *; rw ?andb_true_iff ?bool_decide_eq_true in Hp Hq |- *;
    destruct_and?; subst; try done.
  split; [done|]. by apply (inj (balance_slot contract)).
Qed.

Definition covered (ps : list TxAccessPath) (l : Location) : bool := existsb (λ p, covers p l) ps.

Lemma covered_disjoint ws others l :
  (∀ w p, w ∈ ws → p ∈ others → access_paths_conflict w p = false) →
  covered ws l = true → covered others l = false.
Proof.
  intros Hd (w & Hw%list_elem_of_In & Hl)%existsb_exists. apply not_true_iff_false.
  intros (p & Hp%list_elem_of_In & Hl')%existsb_exists. by rw (covers_disjoint w p) ?Hd in Hl'.
Qed.

(** ** Transactions on a state *)

Context {V T : Type}.
Abbreviation state := (gmap Location V).
Implicit Types (s : state) (f g : state → state * T).

(** [f] keeps to its set: it changes only locations its writes cover, and what it
    returns and writes depends only on those its reads and writes cover. *)
Record keeps (rw : TxReadWriteSet) f : Prop := {
  keeps_frame s l : covered (writes rw) l = false → (f s).1 !! l = s !! l;
  keeps_local s s' :
    (∀ l, covered (reads rw ++ writes rw) l = true → s !! l = s' !! l) →
    (f s).2 = (f s').2 ∧ ∀ l, covered (writes rw) l = true → (f s).1 !! l = (f s').1 !! l;
}.

Definition commute f g : Prop := ∀ s,
  (g (f s).1).1 = (f (g s).1).1 ∧ (g (f s).1).2 = (g s).2 ∧ (f (g s).1).2 = (f s).2.

Lemma commute_sym f g : commute f g → commute g f.
Proof. intros Hc s. destruct (Hc s) as (? & ? & ?). done. Qed.

Lemma covered_app ps qs l : covered (ps ++ qs) l = covered ps l || covered qs l.
Proof. apply existsb_app. Qed.

(** Locations one side reads or writes are left alone by the other. *)
Lemma untouched a b f s l :
  rw_disjoint a b → keeps a f → covered (reads b ++ writes b) l = true → (f s).1 !! l = s !! l.
Proof.
  intros (_ & _ & Hab & _) Hf Hl. apply (keeps_frame _ _ Hf). apply not_true_iff_false. intros Hw.
  by rw (covered_disjoint _ _ l Hab) in Hl.
Qed.

Lemma disjoint_commute a b f g : rw_disjoint a b → keeps a f → keeps b g → commute f g.
Proof.
  intros Hd Hf Hg s. pose proof (rw_disjoint_sym _ _ Hd) as Hd'.
  destruct (keeps_local _ _ Hg (f s).1 s) as [Hgo Hgw]; [intros l; by apply (untouched a b)|].
  destruct (keeps_local _ _ Hf (g s).1 s) as [Hfo Hfw]; [intros l; by apply (untouched b a)|].
  split; [|done]. apply map_eq. intros l. destruct (covered (writes b) l) eqn:Eb.
  - rw Hgw //. symmetry. apply (untouched a b _ _ _ Hd Hf). by rw covered_app Eb orb_true_r.
  - rw (keeps_frame _ _ Hg) //. destruct (covered (writes a) l) eqn:Ea; [by rw Hfw|].
    by rw !(keeps_frame _ _ Hf) // (keeps_frame _ _ Hg).
Qed.

(** ** Orders *)

Section orders.
Context (run : nat → state → state * T).

(** The final state, and each transaction's output. *)
Fixpoint run_order (order : list nat) s : state * list (nat * T) :=
  match order with
  | [] => (s, [])
  | i :: order =>
      let '(s, t) := run i s in
      let '(s, outs) := run_order order s in
      (s, (i, t) :: outs)
  end.

Definition same_run (x y : state * list (nat * T)) : Prop := x.1 = y.1 ∧ x.2 ≡ₚ y.2.
#[global] Instance same_run_equiv : Equivalence same_run.
Proof.
  split; [done|by intros x y [Hs Ho]; split; symmetry|].
  intros x y z [Hs Ho] [Hs' Ho']. split; by etrans.
Qed.

Lemma run_order_cons i l l' s :
  (∀ s, same_run (run_order l s) (run_order l' s)) → same_run (run_order (i :: l) s) (run_order (i :: l') s).
Proof.
  intros Hl. simpl. destruct (run i s) as [s1 t]. specialize (Hl s1).
  destruct (run_order l s1), (run_order l' s1), Hl as [Hs Ho]. simpl in *. split; [done|]. by apply perm_skip.
Qed.

Lemma run_order_swap i j l s :
  commute (run i) (run j) → same_run (run_order (j :: i :: l) s) (run_order (i :: j :: l) s).
Proof.
  intros Hc. destruct (Hc s) as (Hs & Hj & Hi). simpl.
  destruct (run i s) as [s1 ti], (run j s) as [s2 tj]. simpl in *.
  destruct (run j s1) as [s3 tj'], (run i s2) as [s4 ti']. simpl in *. subst.
  destruct (run_order l s4). split; [done|]. simpl. apply perm_swap.
Qed.

Lemma run_order_perm l l' :
  l ≡ₚ l' → NoDup l → (∀ i j, i ∈ l → j ∈ l → i ≠ j → commute (run i) (run j)) →
  ∀ s, same_run (run_order l s) (run_order l' s).
Proof.
  induction 1 as [|i l l' _ IH|i j l|l1 l2 l3 H12 IH1 H23 IH2]; intros Hnd Hc s.
  - done.
  - apply NoDup_cons in Hnd as [_ Hnd]. apply run_order_cons. apply IH; [done|]. intros a b Ha Hb. by apply Hc; right.
  - apply NoDup_cons in Hnd as [Hi _]. apply run_order_swap, Hc; [by right; left|by left|]. set_solver.
  - etrans; [by apply IH1|]. apply IH2; [by rw -H12|]. intros a b. rw -H12. apply Hc.
Qed.

Lemma run_order_app l l' s :
  run_order (l ++ l') s =
  ((run_order l' (run_order l s).1).1, (run_order l s).2 ++ (run_order l' (run_order l s).1).2).
Proof.
  revert s. induction l as [|i l IH]; intros s; simpl; [by destruct (run_order l' s)|].
  destruct (run i s) as [s1 t]. rw IH. by destruct (run_order l s1).
Qed.

(** The orders a plan allows: each wave in turn, a parallel one in any order. *)
Inductive allowed : list ExecutionWave → list nat → Prop :=
| allowed_nil : allowed [] []
| allowed_cons w ws o os :
    (if parallelizable w then o ≡ₚ tx_indices w else o = tx_indices w) →
    allowed ws os → allowed (w :: ws) (o ++ os).

Lemma allowed_same ws order :
  allowed ws order → NoDup (mjoin (tx_indices <$> ws)) →
  (∀ w i j, w ∈ ws → parallelizable w = true → i ∈ tx_indices w → j ∈ tx_indices w → i ≠ j →
     commute (run i) (run j)) →
  ∀ s, same_run (run_order order s) (run_order (mjoin (tx_indices <$> ws)) s).
Proof.
  induction 1 as [|w ws o os Ho _ IH]; intros Hnd Hc s; [done|].
  rw fmap_cons /= in Hnd |- *. apply NoDup_app in Hnd as (Hw & _ & Hnd). rw !run_order_app.
  assert (Hwave : same_run (run_order o s) (run_order (tx_indices w) s)).
  { destruct (parallelizable w) eqn:Ep; [|by rw Ho]. symmetry. apply run_order_perm; [by symmetry|done|].
    intros i j. apply (Hc w); [left|done]. }
  destruct Hwave as [Hs1 Ho1]. rw Hs1. destruct (IH Hnd (λ w' i j Hin, Hc w' i j (list_elem_of_further _ _ _ Hin))
    (run_order (tx_indices w) s).1) as [Hs2 Ho2].
  split; simpl; [done|]. by rw Ho1 Ho2.
Qed.
End orders.

(** C22: a plan is serializable.  Take a state of balances, nonces, contract
    storage, validator set, keys and validation code, and transactions each of
    which, when its set claims to be complete, keeps to it.  Then every order the
    plan allows (waves in turn, the transactions of a parallel wave in any
    order) ends in the same state as the serial order, and gives every
    transaction the same output.  Nothing is assumed of a transaction with an
    incomplete set.  The slots of different owners in a token's balance mapping
    are assumed different. *)
Theorem waves_serializable config rws run order s :
  (∀ i a, rws !! i = Some a → complete a = true → keeps a (run i)) →
  allowed (waves (plan_from_graph config (graph_build rws))) order →
  (run_order run order s).1 = (run_order run (seq 0 (length rws)) s).1 ∧
  (run_order run order s).2 ≡ₚ (run_order run (seq 0 (length rws)) s).2.
Proof.
  intros Hk Ha. rw -(plan_covers config). apply allowed_same; [done|rw plan_covers; apply NoDup_seq|].
  intros w i j Hw Hp Hi Hj Hij.
  assert (Hin : ∀ i, i ∈ tx_indices w → ∃ a, rws !! i = Some a).
  { intros x Hx. apply lookup_lt_is_Some_2. assert (Hs : x ∈ seq 0 (length rws)); [|apply elem_of_seq in Hs; lia].
    rw -(plan_covers config). apply list_elem_of_join. exists (tx_indices w). split; [done|].
    by apply list_elem_of_fmap_2. }
  destruct (Hin i Hi) as [a Hra], (Hin j Hj) as [b Hrb].
  pose proof (plan_disjoint config rws w i j a b Hw Hp Hi Hj Hij Hra Hrb) as Hd.
  destruct Hd as (Hca & Hcb & Hd). by apply (disjoint_commute a b); [|apply Hk..].
Qed.
End serial.

(** ** Examples *)

Definition example_account (i : nat) : Address := b256_of_Z (Z.of_nat i + 100).
Definition example_slot (token owner : Address) : Z := b256_unsigned owner.
Lemma example_slot_inj token : Inj (=) (=) (example_slot token).
Proof. intros a b. apply b256_eq. Qed.

Definition example_rw (i : nat) : TxReadWriteSet := touch (NativeBalance (example_account i)) rwset_new.
(** Adds one to the account's balance and returns what it was. *)
Definition example_run (i : nat) (s : gmap Location Z) : gmap Location Z * Z :=
  let old := default 0 (s !! Balance (example_account i)) in
  (<[Balance (example_account i) := old + 1]> s, old).

Lemma example_keeps i : keeps example_slot (example_rw i) (example_run i).
Proof.
  assert (Hw : ∀ l, covered example_slot (writes (example_rw i)) l = true ↔ l = Balance (example_account i)).
  { intros l. rw /covered /= orb_false_r. destruct l; simpl; rw ?bool_decide_eq_true; naive_solver. }
  split.
  - intros s l Hl. simpl. rw lookup_insert_ne //. intros <-. apply not_true_iff_false in Hl. by apply Hl, Hw.
  - intros s s' Hs. assert (E : s !! Balance (example_account i) = s' !! Balance (example_account i)).
    { apply Hs. rw covered_app. apply orb_true_iff. right. by apply Hw. }
    rw /example_run E. split; [done|]. intros l ->%Hw. by rw /= !lookup_insert_eq.
Qed.

Lemma waves_serializable_witness :
  let order := [1; 0]%nat in
  (run_order example_run order ∅).1 = (run_order example_run [0; 1]%nat ∅).1 ∧
  (run_order example_run order ∅).2 ≡ₚ (run_order example_run [0; 1]%nat ∅).2.
Proof.
  apply (waves_serializable example_slot example_slot_inj (MkParallelConfig true 4 true)
    [example_rw 0; example_rw 1] example_run [1; 0]%nat ∅).
  - intros [|[|i]] a Ha _; simplify_eq/=; apply example_keeps.
  - change [1; 0]%nat with ([1; 0] ++ [])%nat.
    rw (_ : waves (plan_from_graph _ _) = [MkWave [0; 1]%nat true]); [by vm_compute|].
    constructor; [apply perm_swap|constructor].
Defined.

(** A call with no data is summarized as a transfer, whatever code its target
    runs: two of them to one contract are planned side by side. *)
Lemma fallback_calls_side_by_side tx1 tx2 target :
  st_from tx1 ≠ st_from tx2 →
  (∀ tx, tx ∈ [tx1; tx2] → tx_to (st_tx tx) = Some target ∧ tx_data (st_tx tx) = [] ∧ tx_value (st_tx tx) = 0) →
  is_system_contract target = false →
  (plan (MkParallelConfig true 4 true) extract [tx1; tx2]).2 = MkPlan [MkWave [0; 1]%nat true] false.
Proof.
  intros Hne Hcall Hsys. destruct (Hcall tx1) as (Ht1 & Hd1 & Hv1); [left|].
  destruct (Hcall tx2) as (Ht2 & Hd2 & Hv2); [right; left|].
  assert (He : ∀ tx, tx_to (st_tx tx) = Some target → tx_data (st_tx tx) = [] → tx_value (st_tx tx) = 0 →
    extract tx = MkRwSet [NativeBalance (st_from tx); NativeNonce (st_from tx)]
                   [NativeBalance (st_from tx); NativeNonce (st_from tx)] true).
  { intros tx Ht Hd Hv. by rw /extract Ht Hsys Hd Hv. }
  cbn [plan snd fmap list_fmap]. rw !He //. set (a := MkRwSet _ _ _). set (b := MkRwSet [NativeBalance (st_from tx2); _] _ _).
  assert (Hd : detect_conflict 0 1 a b = None).
  { apply detect_None. split_and!; [done..| |]; intros w p Hw Hp; subst a b; cbn [reads writes app] in *;
      set_unfold in Hw; set_unfold in Hp; destruct_or?; subst; simpl; try done; by apply bool_decide_eq_false. }
  rw /plan_from_graph /graph_build. cbn [length seq mbind list_bind lookup list_lookup Nat.add Nat.sub]. by rw Hd.
Qed.
