(* ===== verification/Account.v ===== *)
(** * Accounts

    crates/core/src/account.rs: the account record of the state trie with its
    RLP codec, and the proof that what is written reads back. *)

From S2P Require Import Prelude Primitives Rlp.

Record Account := MkAccount {
  pq_pubkey_hash : ShellHash;
  nonce : Z;
  balance : Z;
  validation_code_hash : option ShellHash;
  code_hash : option ShellHash;
  storage_root : ShellHash;
}.
#[global] Instance Account_eq_dec : EqDecision Account.
Proof. solve_decision. Defined.

Definition new_user_account (pq_pubkey_hash : ShellHash) (balance : Z) : Account :=
  MkAccount pq_pubkey_hash 0 balance None None ZERO.
Definition is_contract (a : Account) : bool := bool_decide (is_Some (code_hash a)).
Definition has_custom_validation (a : Account) : bool := bool_decide (is_Some (validation_code_hash a)).

(** The ranges of the fields' types. *)
Definition account_ok (a : Account) : Prop := 0 <= nonce a <= u64_max ∧ 0 <= balance a <= u256_max.
#[global] Instance account_ok_dec a : Decision (account_ok a).
Proof. rw /account_ok. apply _. Defined.

Section codec.
Context {R : Rlp}.

Definition encode_optional_hash (h : option ShellHash) : list Z :=
  match h with Some h => b256_encode h | None => bytes_encode [] end.
Definition optional_hash_len (h : option ShellHash) : Z :=
  match h with Some h => b256_length h | None => 1 end.

Definition fields_len (a : Account) : Z :=
  sat_add (sat_add (sat_add (sat_add (sat_add (b256_length (pq_pubkey_hash a)) (uint_length (nonce a)))
    (uint_length (balance a))) (optional_hash_len (validation_code_hash a)))
    (optional_hash_len (code_hash a))) (b256_length (storage_root a)).

Definition account_fields (a : Account) : list Z :=
  b256_encode (pq_pubkey_hash a) ++ uint_encode (nonce a) ++ uint_encode (balance a) ++
  encode_optional_hash (validation_code_hash a) ++ encode_optional_hash (code_hash a) ++
  b256_encode (storage_root a).
Definition account_encode (a : Account) : list Z := header_encode true (fields_len a) ++ account_fields a.
Definition account_length (a : Account) : Z := list_length (fields_len a).

(** An absent hash is the single byte 0x80. *)
Definition decode_optional_hash : decoder (option ShellHash) := λ buf,
  match buf with
  | [] => Err InputTooShort
  | b :: rest =>
      if b =? 128 then Ok (None, rest)
      else match b256_decode buf with Ok (h, rest) => Ok (Some h, rest) | Err e => Err e end
  end.

Definition account_decode : decoder Account :=
  let! payload_length := list_header_decode in
  let! remaining := dlen in
  let! pq_pubkey_hash := b256_decode in
  let! nonce := uint_decode u64_max in
  let! balance := uint_decode u256_max in
  let! validation_code_hash := decode_optional_hash in
  let! code_hash := decode_optional_hash in
  let! storage_root := b256_decode in
  let! _ := check_consumed remaining payload_length in
  dret (MkAccount pq_pubkey_hash nonce balance validation_code_hash code_hash storage_root).
End codec.

(** ** What is written reads back *)

Section laws.
Context {R : Rlp} {RL : RlpLaws R}.

(** The encoding of a 32-byte string does not start like an empty one. *)
Lemma b256_encode_head h : ∃ b t, b256_encode h = b :: t ∧ b ≠ 128.
Proof.
  destruct (b256_length_encode h) as [Hl Hb]. destruct (b256_encode h) as [|b t] eqn:E; [simpl in *; lia|].
  exists b, t. split; [done|]. intros ->.
  pose proof (bytes_decode_encode [] t ltac:(constructor) ltac:(done)) as H1. rw bytes_encode_nil /= in H1.
  pose proof (bytes_decode_encode (as_bytes h) [] (as_bytes_ok h)) as H2.
  rw app_nil_r -/(b256_encode h) E in H2. rw H1 in H2.
  specialize (H2 ltac:(by rw length_as_bytes)). injection H2 as Hnil _.
  by pose proof (length_as_bytes h) as Hlen; rw -Hnil in Hlen.
Qed.

Lemma optional_hash_decodes h : decodes encode_optional_hash decode_optional_hash id h.
Proof.
  intros rest. destruct h as [h|]; simpl.
  - destruct (b256_encode_head h) as (b & t & E & Hb). pose proof (b256_decodes h rest) as Hd.
    rw E /= in Hd |- *. rw (proj2 (Z.eqb_neq _ _)) // Hd. done.
  - by rw bytes_encode_nil.
Qed.

Lemma optional_hash_length_encode h :
  optional_hash_len h = Z.of_nat (length (encode_optional_hash h)) ∧ 1 <= optional_hash_len h <= 41.
Proof. destruct h as [h|]; simpl; [apply b256_length_encode|]. by rw bytes_encode_nil. Qed.

Lemma fields_len_encode a : account_ok a →
  fields_len a = Z.of_nat (length (account_fields a)) ∧ 0 <= fields_len a <= 300.
Proof.
  intros [Hn Hb]. rw /fields_len /account_fields !length_app !Nat2Z.inj_add.
  destruct (b256_length_encode (pq_pubkey_hash a)) as [<- ?].
  destruct (b256_length_encode (storage_root a)) as [<- ?].
  destruct (optional_hash_length_encode (validation_code_hash a)) as [<- ?].
  destruct (optional_hash_length_encode (code_hash a)) as [<- ?].
  destruct (uint_length_encode (nonce a)) as [<- ?]; [unfold u64_max, u256_max in *; lia|].
  destruct (uint_length_encode (balance a)) as [<- ?]; [lia|].
  unfold sat_add, u64_max in *. lia.
Qed.

(** Decoding inverts encoding, whatever follows in the buffer. *)
Lemma account_decodes a : account_ok a → decodes account_encode account_decode id a.
Proof.
  intros Hok rest. destruct (fields_len_encode a Hok) as [Hl Hr]. destruct Hok as [Hn Hb].
  rw /account_decode /account_encode -app_assoc /dbind list_header_decodes.
  { rw length_app. lia. } { unfold u64_max. lia. }
  rw /dlen {2}/account_fields -!app_assoc.
  rw (b256_decodes _ _) /= (uint_decode_encode u64_max) // (uint_decode_encode u256_max) //.
  rw !(optional_hash_decodes _ _) (b256_decodes _ _) /= /check_consumed.
  rw (proj2 (Z.eqb_eq _ _)); [|by destruct a]. rw Hl /sat_sub /account_fields !length_app. lia.
Qed.
End laws.
