(* ===== verification/Effects.v ===== *)
(** * Stateful code that can fail

    Methods that take [&mut self] and return a [Result], as functions from the
    old state to the new one and a result; an early return keeps the changes
    made before it.  [wp] is the weakest precondition of such a method for a
    postcondition on normal return and one on errors. *)

From S2P Require Import Prelude.

Section monad.
Context {W E : Type}.

Definition M (A : Type) : Type := W → W * result A E.

Definition mret {A} (a : A) : M A := λ w, (w, Ok a).
Definition mfail {A} (e : E) : M A := λ w, (w, Err e).
Definition mbind_ {A B} (m : M A) (k : A → M B) : M B := λ w,
  match m w with (w', Ok a) => k a w' | (w', Err e) => (w', Err e) end.
(** A computation that does not touch the state. *)
Definition mlift {A} (r : result A E) : M A := λ w, (w, r).
(** [if !cond { return Err(e) }] *)
Definition mguard (cond : bool) (e : E) : M unit := if cond then mret tt else mfail e.
(** [for x in l { f(x)? }] *)
Fixpoint mfor {A} (f : A → M unit) (l : list A) : M unit :=
  match l with [] => mret tt | x :: l => mbind_ (f x) (λ _, mfor f l) end.
End monad.
Arguments M : clear implicits.

(** [.map_err(f)] *)
Definition mmap_err {W E F A} (f : E → F) (m : M W E A) : M W F A := λ w,
  match m w with (w', r) => (w', map_err f r) end.

Notation "'let*' x ':=' m 'in' k" := (mbind_ m (λ x, k))
  (at level 10, x pattern, m at level 100, k at level 200) : shell_scope.
Notation "'do*' m ';' k" := (mbind_ m (λ _, k))
  (at level 10, m at level 100, k at level 200) : shell_scope.

Definition wp {W E A} (m : M W E A) (Q : A → W → Prop) (R : E → W → Prop) (w : W) : Prop :=
  match m w with (w', Ok a) => Q a w' | (w', Err e) => R e w' end.

Section rules.
Context {W E : Type}.

Lemma wp_ret {A} (a : A) Q (R : E → W → Prop) w : Q a w → wp (mret a) Q R w.
Proof. done. Qed.
Lemma wp_fail {A} (e : E) (Q : A → W → Prop) R w : R e w → wp (mfail e) Q R w.
Proof. done. Qed.
Lemma wp_bind {A B} (m : M W E A) (k : A → M W E B) Q R w :
  wp m (λ a, wp (k a) Q R) R w → wp (mbind_ m k) Q R w.
Proof. rw /wp /mbind_. by destruct (m w) as [w' [a|e]]. Qed.
Lemma wp_mono {A} (m : M W E A) (Q Q' : A → W → Prop) (R R' : E → W → Prop) w :
  wp m Q R w → (∀ a w', Q a w' → Q' a w') → (∀ e w', R e w' → R' e w') → wp m Q' R' w.
Proof. rw /wp. destruct (m w) as [w' [a|e]]; auto. Qed.
Lemma wp_lift {A} (r : result A E) Q R (w : W) :
  match r with Ok a => Q a w | Err e => R e w end → wp (mlift r) Q R w.
Proof. by destruct r. Qed.
Lemma wp_guard (c : bool) (e : E) Q R (w : W) :
  (c = true → Q tt w) → (c = false → R e w) → wp (mguard c e) Q R w.
Proof. destruct c; rw /wp /=; auto. Qed.
(** The result of a run is what the precondition promises. *)
Lemma wp_run {A} (m : M W E A) Q R w w' r :
  m w = (w', r) → wp m Q R w → match r with Ok a => Q a w' | Err e => R e w' end.
Proof. by rw /wp => ->. Qed.

(** A run that ends well went through its first part. *)
Lemma bind_run {A B} (m : M W E A) (k : A → M W E B) w w' b :
  mbind_ m k w = (w', Ok b) → ∃ a w1, m w = (w1, Ok a) ∧ k a w1 = (w', Ok b).
Proof. rw /mbind_. destruct (m w) as [w1 [a|e]]; [eauto|done]. Qed.

(** A loop keeps what each round keeps. *)
Lemma wp_for {A} (f : A → M W E unit) (l : list A) (I : list A → W → Prop) R w :
  I l w → (∀ x l' w, I (x :: l') w → wp (f x) (λ _, I l') R w) → wp (mfor f l) (λ _, I []) R w.
Proof.
  intros Hi Hf. revert Hi. revert w. induction l as [|x l IH]; intros w Hi; [done|]. apply wp_bind.
  eapply wp_mono; [by apply Hf| |done]. intros ? w'. apply IH.
Qed.
End rules.

Lemma wp_map_err {W E F A} (f : E → F) (m : M W E A) Q R w :
  wp m Q (λ e, R (f e)) w → wp (mmap_err f m) Q R w.
Proof. rw /wp /mmap_err. by destruct (m w) as [w' [a|e]]. Qed.
