(* ===== verification/World.v ===== *)
(** * World state

    crates/storage/src/world_state.rs: accounts in a Merkle trie behind an LRU
    cache, per-account storage tries, and on top of them balances, nonces and
    code hashes (the registry's accessors are in Cells.v).  The typed accessors
    use four primitives; with the raw store that world state and chain store
    share, they form the interface [StateDb].  [WorldState] implements it
    with merkle_trie.rs and trie_adapter.rs.

    The trie (crate eth_trie) and the cache (crate lru) are parameters.  The
    texts of errors leave out the values they print. *)

From S2P Require Import Prelude Primitives Fee Rlp Transaction TxValidation KvStore Account Effects.

(** [U256::checked_sub]. *)
Definition checked_sub_u256 (a b : Z) : option Z := if b <=? a then Some (a - b) else None.

(** ** The interface *)

Class StateDb (W : Type) := {
  get_account : Address → M W StorageError (option Account);
  set_account : Address → Account → M W StorageError unit;
  get_storage : Address → ShellHash → M W StorageError ShellHash;
  set_storage : Address → ShellHash → ShellHash → M W StorageError unit;
  (** the store below, as [ChainStore] uses it *)
  store_get : bytes → M W StorageError (option bytes);
  store_put : bytes → bytes → M W StorageError unit;
  store_delete : bytes → M W StorageError unit;
}.

Definition validator_registry_addr : Address := b256_of_Z 1.

(** ** Words *)

Definition u64_to_hash (value : Z) : ShellHash := b256_from_bytes (replicate 24 0 ++ be_bytes 8 value).
Definition hash_to_u64 (value : ShellHash) : Z := from_be_bytes (drop 24 (as_bytes value)).
Definition u256_to_hash (value : Z) : ShellHash := b256_from_bytes (be_bytes 32 value).
Definition hash_to_u256 (value : ShellHash) : Z := from_be_bytes (as_bytes value).

(** ** Accessors *)

Section accessors.
Context {W : Type} `{StateDb W} {Hs : Hashes}.
Abbreviation MW := (M W StorageError).

Definition get_or_default (address : Address) : MW Account :=
  let* account := get_account address in
  mret (unwrap_or (new_user_account ZERO 0) account).

Definition get_balance (address : Address) : MW Z :=
  let* account := get_or_default address in mret (balance account).
Definition with_balance (a : Account) (b : Z) : Account :=
  MkAccount (pq_pubkey_hash a) (nonce a) b (validation_code_hash a) (code_hash a) (storage_root a).
Definition set_balance (address : Address) (b : Z) : MW unit :=
  let* account := get_or_default address in set_account address (with_balance account b).
Definition add_balance (address : Address) (amount : Z) : MW unit :=
  let* account := get_or_default address in
  let* b := mlift (ok_or (checked_add_u256 (balance account) amount) (StateError "balance overflow")) in
  set_account address (with_balance account b).
Definition sub_balance (address : Address) (amount : Z) : MW unit :=
  let* account := get_or_default address in
  let* b := mlift (ok_or (checked_sub_u256 (balance account) amount) (StateError "insufficient balance")) in
  set_account address (with_balance account b).

Definition get_nonce (address : Address) : MW Z :=
  let* account := get_or_default address in mret (nonce account).
Definition increment_nonce (address : Address) : MW unit :=
  let* account := get_or_default address in
  let* n := mlift (ok_or (checked_add (nonce account) 1) (StateError "nonce overflow")) in
  set_account address (MkAccount (pq_pubkey_hash account) n (balance account)
    (validation_code_hash account) (code_hash account) (storage_root account)).

Definition get_code_hash (address : Address) : MW (option ShellHash) :=
  let* account := get_or_default address in mret (code_hash account).
Definition set_code_hash (address : Address) (h : ShellHash) : MW unit :=
  let* account := get_or_default address in
  set_account address (MkAccount (pq_pubkey_hash account) (nonce account) (balance account)
    (validation_code_hash account) (Some h) (storage_root account)).
End accessors.
