(* ===== verification/RegistryKeys.v ===== *)
(** * The storage of the validator registry

    The registry keeps everything in storage slots of one account, under hashes
    of labelled byte strings: validators, weights and stakes
    (crates/storage/src/world_state.rs), prover records (prover_registry.rs),
    ballots and the state of algorithm proposals
    (crates/pqvm/src/system_contracts.rs, algorithm_proposals.rs).  [label] names
    a slot, [label_key] is its hash; RegistryLabels.v shows that no two slots
    hash the same bytes. *)

From stdpp Require Import pretty.
From S2P Require Import Prelude Primitives Fee Rlp Transaction TxValidation TxCodec KvStore Account Effects World.

(** ** Operations that are voted on *)

Inductive ValidatorRegistryOp :=
| RegisterProver
| Add
| Remove
| SetWeight (weight : Z)
| SetStake (stake : Z).
#[global] Instance ValidatorRegistryOp_eq_dec : EqDecision ValidatorRegistryOp.
Proof. solve_decision. Defined.

Definition op_label (op : ValidatorRegistryOp) : list Z :=
  ascii_bytes
    match op with
    | RegisterProver => "register_prover"
    | Add => "add"
    | Remove => "remove"
    | SetWeight _ => "set_weight"
    | SetStake _ => "set_stake"
    end.
Definition write_context (op : ValidatorRegistryOp) : list Z :=
  match op with
  | SetWeight weight => be_bytes 8 weight
  | SetStake stake => be_bytes 32 stake
  | Add | Remove | RegisterProver => []
  end.

Inductive AlgorithmGovernanceOp :=
| ProposeActivation
| ProposeActivationMlDsa
| ProposeActivationSlh
| Deprecate
| DeprecateMlDsa
| DeprecateSlh.
#[global] Instance AlgorithmGovernanceOp_eq_dec : EqDecision AlgorithmGovernanceOp.
Proof. solve_decision. Defined.

Definition alg_label (op : AlgorithmGovernanceOp) : list Z :=
  ascii_bytes
    match op with
    | ProposeActivation => "propose_activation"
    | ProposeActivationMlDsa => "propose_activation_mldsa_v1"
    | ProposeActivationSlh => "propose_activation_slh_v1"
    | Deprecate => "deprecate"
    | DeprecateMlDsa => "deprecate_mldsa_v1"
    | DeprecateSlh => "deprecate_slh_v1"
    end.

(** ** Keys *)

(** [b":"] *)
Definition colon : list Z := [58].

Section keys.
Context {Hs : Hashes}.
Definition validator_count_key : ShellHash := keccak256 (ascii_bytes "validator_count").
Definition validator_slot_key (i : N) : ShellHash :=
  keccak256 (ascii_bytes (String.append "validator_" (pretty i))).
Definition validator_weight_key (address : Address) : ShellHash :=
  keccak256 (ascii_bytes "validator_weight:" ++ as_bytes address).
Definition validator_stake_key (address : Address) : ShellHash :=
  keccak256 (ascii_bytes "validator_stake:" ++ as_bytes address).
Definition staking_enabled_key : ShellHash := keccak256 (ascii_bytes "staking_enabled").
Definition total_supply_key : ShellHash := keccak256 (ascii_bytes "total_supply").
Definition total_staked_key : ShellHash := keccak256 (ascii_bytes "total_staked").
Definition stake_unit_key : ShellHash := keccak256 (ascii_bytes "stake_unit").
Definition max_validator_weight_key : ShellHash := keccak256 (ascii_bytes "max_validator_weight").

Definition prover_key (address : Address) (field : Z) : ShellHash :=
  blake3_hash (ascii_bytes "shell:prover-registry:v1:" ++ as_bytes address ++ be_bytes 8 field).

Definition validator_vote_key (op : ValidatorRegistryOp) (target voter : Address) (validators : list Address) :
    ShellHash :=
  keccak256 (ascii_bytes "validator_vote:" ++ op_label op ++ colon ++ write_context op ++ colon ++ as_bytes target ++
    colon ++ (validators ≫= as_bytes) ++ colon ++ as_bytes voter).

Definition algorithm_vote_key (op : AlgorithmGovernanceOp) (algo : SignatureType) (voter : Address)
    (validators : list Address) : ShellHash :=
  keccak256 (ascii_bytes "algorithm_vote:" ++ alg_label op ++ colon ++ [sig_type_as_u8 algo] ++ colon ++
    (validators ≫= as_bytes) ++ colon ++ as_bytes voter).
Definition algorithm_voting_deadline_key (algo : SignatureType) : ShellHash :=
  keccak256 (ascii_bytes "algorithm_voting_deadline:" ++ [sig_type_as_u8 algo]).
Definition algorithm_proposal_height_key (algo : SignatureType) : ShellHash :=
  keccak256 (ascii_bytes "algorithm_proposal_height:" ++ [sig_type_as_u8 algo]).
Definition algorithm_proposal_verifier_key (algo : SignatureType) : ShellHash :=
  keccak256 (ascii_bytes "algorithm_proposal_verifier:" ++ [sig_type_as_u8 algo]).
Definition algorithm_quorum_required_key (algo : SignatureType) : ShellHash :=
  keccak256 (ascii_bytes "algorithm_quorum_required:" ++ [sig_type_as_u8 algo]).
Definition algorithm_quorum_approved_key (algo : SignatureType) : ShellHash :=
  keccak256 (ascii_bytes "algorithm_quorum_approved:" ++ [sig_type_as_u8 algo]).
Definition algorithm_status_key (algo : SignatureType) : ShellHash :=
  keccak256 (ascii_bytes "algorithm_status:" ++ [sig_type_as_u8 algo]).
Definition algorithm_activation_height_key (algo : SignatureType) : ShellHash :=
  keccak256 (ascii_bytes "algorithm_activation_height:" ++ [sig_type_as_u8 algo]).
Definition algorithm_verifier_hash_key (algo : SignatureType) : ShellHash :=
  keccak256 (ascii_bytes "algorithm_verifier_hash:" ++ [sig_type_as_u8 algo]).

(** algorithm_proposals.rs: [current_key], [field_key], [vote_key] and
    [authenticated_vote_key]. *)
Definition current_key (algo : SignatureType) : ShellHash :=
  keccak256 (ascii_bytes "algorithm_proposal_id:" ++ [sig_type_as_u8 algo]).
Definition field_key (id : ShellHash) (field : Z) : ShellHash :=
  keccak256 (ascii_bytes "algorithm_proposal_record:" ++ as_bytes id ++ [field]).
Definition vote_key (id : ShellHash) (voter : Address) : ShellHash :=
  keccak256 (ascii_bytes "algorithm_proposal_vote:" ++ as_bytes id ++ as_bytes voter).
Definition authenticated_vote_key (id : ShellHash) (voter : Address) (algorithm : option SignatureType) : ShellHash :=
  match algorithm with
  | None => vote_key id voter
  | Some algorithm =>
      keccak256 (ascii_bytes "algorithm_proposal_authenticated_vote/v1:" ++ [sig_type_as_u8 algorithm] ++
        as_bytes id ++ as_bytes voter)
  end.
End keys.

(** ** Labels *)

(** The slots that exist once per algorithm. *)
Inductive alg_slot :=
| VotingDeadline
| ProposalHeight
| ProposalVerifier
| QuorumRequired
| QuorumApproved
| Status
| ActivationHeight
| VerifierHash
| CurrentProposal.
#[global] Instance alg_slot_eq_dec : EqDecision alg_slot.
Proof. solve_decision. Defined.

Inductive label :=
| LCount
| LSlot (i : N)
| LWeight (a : Address)
| LStake (a : Address)
| LStaking
| LSupply
| LStaked
| LUnit
| LMaxWeight
| LProver (a : Address) (field : Z)
| LVote (op : ValidatorRegistryOp) (target voter : Address) (validators : list Address)
| LAlgVote (op : AlgorithmGovernanceOp) (algo : SignatureType) (voter : Address) (validators : list Address)
| LAlg (k : alg_slot) (algo : SignatureType)
| LField (id : ShellHash) (field : Z)
| LIdVote (id : ShellHash) (voter : Address) (algorithm : option SignatureType).
#[global] Instance label_eq_dec : EqDecision label.
Proof. solve_decision. Defined.

Section label_key.
Context {Hs : Hashes}.
Definition label_key (l : label) : ShellHash :=
  match l with
  | LCount => validator_count_key
  | LSlot i => validator_slot_key i
  | LWeight a => validator_weight_key a
  | LStake a => validator_stake_key a
  | LStaking => staking_enabled_key
  | LSupply => total_supply_key
  | LStaked => total_staked_key
  | LUnit => stake_unit_key
  | LMaxWeight => max_validator_weight_key
  | LProver a field => prover_key a field
  | LVote op target voter validators => validator_vote_key op target voter validators
  | LAlgVote op algo voter validators => algorithm_vote_key op algo voter validators
  | LAlg VotingDeadline algo => algorithm_voting_deadline_key algo
  | LAlg ProposalHeight algo => algorithm_proposal_height_key algo
  | LAlg ProposalVerifier algo => algorithm_proposal_verifier_key algo
  | LAlg QuorumRequired algo => algorithm_quorum_required_key algo
  | LAlg QuorumApproved algo => algorithm_quorum_approved_key algo
  | LAlg Status algo => algorithm_status_key algo
  | LAlg ActivationHeight algo => algorithm_activation_height_key algo
  | LAlg VerifierHash algo => algorithm_verifier_hash_key algo
  | LAlg CurrentProposal algo => current_key algo
  | LField id field => field_key id field
  | LIdVote id voter algorithm => authenticated_vote_key id voter algorithm
  end.
End label_key.
