(* ===== verification/RegistryLabels.v ===== *)
(** * The slots of the registry do not overlap

    [label_input] is the byte string whose hash is the key of a slot.  Its tag
    tells what the slot is for, and no tag is a prefix of another, so that
    distinct slots hash distinct strings ([label_input_inj]). *)

From stdpp Require Import pretty.
From S2P Require Import Prelude Primitives Fee Rlp Transaction TxValidation TxCodec KvStore Account Effects World RegistryKeys.

(** ** Tag and body *)

Definition digits (i : N) : list Z := ascii_bytes (pretty i).
Definition alg_slot_tag (k : alg_slot) : list Z :=
  ascii_bytes
    match k with
    | VotingDeadline => "algorithm_voting_deadline:"
    | ProposalHeight => "algorithm_proposal_height:"
    | ProposalVerifier => "algorithm_proposal_verifier:"
    | QuorumRequired => "algorithm_quorum_required:"
    | QuorumApproved => "algorithm_quorum_approved:"
    | Status => "algorithm_status:"
    | ActivationHeight => "algorithm_activation_height:"
    | VerifierHash => "algorithm_verifier_hash:"
    | CurrentProposal => "algorithm_proposal_id:"
    end.
Definition tag (l : label) : list Z :=
  match l with
  | LCount => ascii_bytes "validator_count"
  | LSlot i => ascii_bytes "validator_" ++ take 1 (digits i)
  | LWeight _ => ascii_bytes "validator_weight:"
  | LStake _ => ascii_bytes "validator_stake:"
  | LStaking => ascii_bytes "staking_enabled"
  | LSupply => ascii_bytes "total_supply"
  | LStaked => ascii_bytes "total_staked"
  | LUnit => ascii_bytes "stake_unit"
  | LMaxWeight => ascii_bytes "max_validator_weight"
  | LProver _ _ => ascii_bytes "shell:prover-registry:v1:"
  | LVote op _ _ _ => ascii_bytes "validator_vote:" ++ op_label op ++ colon
  | LAlgVote op _ _ _ => ascii_bytes "algorithm_vote:" ++ alg_label op ++ colon
  | LAlg k _ => alg_slot_tag k
  | LField _ _ => ascii_bytes "algorithm_proposal_record:"
  | LIdVote _ _ None => ascii_bytes "algorithm_proposal_vote:"
  | LIdVote _ _ (Some _) => ascii_bytes "algorithm_proposal_authenticated_vote/v1:"
  end.
Definition body (l : label) : list Z :=
  match l with
  | LSlot i => drop 1 (digits i)
  | LWeight a | LStake a => as_bytes a
  | LProver a field => as_bytes a ++ be_bytes 8 field
  | LVote op target voter validators =>
      write_context op ++ colon ++ as_bytes target ++ colon ++ (validators ≫= as_bytes) ++ colon ++ as_bytes voter
  | LAlgVote _ algo voter validators =>
      [sig_type_as_u8 algo] ++ colon ++ (validators ≫= as_bytes) ++ colon ++ as_bytes voter
  | LAlg _ algo => [sig_type_as_u8 algo]
  | LField id field => as_bytes id ++ [field]
  | LIdVote id voter None => as_bytes id ++ as_bytes voter
  | LIdVote id voter (Some algorithm) => [sig_type_as_u8 algorithm] ++ as_bytes id ++ as_bytes voter
  | _ => []
  end.
Definition label_input (l : label) : list Z := tag l ++ body l.
(** Prover records are hashed with BLAKE3, the rest with Keccak. *)
Definition hashed {Hs : Hashes} (l : label) : ShellHash :=
  match l with LProver _ _ => blake3_hash (label_input l) | _ => keccak256 (label_input l) end.

Lemma ascii_bytes_app s t : ascii_bytes (String.append s t) = ascii_bytes s ++ ascii_bytes t.
Proof.
  rw /ascii_bytes -fmap_app. f_equal. induction s as [|c s IH]; [done|].
  exact (f_equal (cons c) IH).
Qed.
Lemma label_key_hashed {Hs : Hashes} l : label_key l = hashed l.
Proof.
  rw /hashed /label_input. destruct l as [| i | | | | | | | | | | |[]| |id v []]; try reflexivity; try done.
  all: cbn [label_key tag body]; rw ?app_nil_r -?app_assoc; try reflexivity.
  rw /validator_slot_key ascii_bytes_app take_drop. reflexivity.
Qed.

(** Every label's tag is one of these. *)
Definition kinds : list label :=
  [LCount; LWeight ZERO; LStake ZERO; LStaking; LSupply; LStaked; LUnit; LMaxWeight; LProver ZERO 0; LField ZERO 0;
   LIdVote ZERO ZERO None; LIdVote ZERO ZERO (Some Dilithium3)] ++
  ((λ i, LSlot (N.of_nat i)) <$> seq 0 10) ++
  ((λ op, LVote op ZERO ZERO []) <$> [RegisterProver; Add; Remove; SetWeight 0; SetStake 0]) ++
  ((λ op, LAlgVote op Dilithium3 ZERO []) <$>
     [ProposeActivation; ProposeActivationMlDsa; ProposeActivationSlh; Deprecate; DeprecateMlDsa; DeprecateSlh]) ++
  ((λ k, LAlg k Dilithium3) <$>
     [VotingDeadline; ProposalHeight; ProposalVerifier; QuorumRequired; QuorumApproved; Status; ActivationHeight;
      VerifierHash; CurrentProposal]).
(** What a tag stands for: the constructor, with the operation or field. *)
Definition shape (l : label) : nat * nat :=
  match l with
  | LCount => (0, 0) | LSlot _ => (1, 0) | LWeight _ => (2, 0) | LStake _ => (3, 0) | LStaking => (4, 0)
  | LSupply => (5, 0) | LStaked => (6, 0) | LUnit => (7, 0) | LMaxWeight => (8, 0) | LProver _ _ => (9, 0)
  | LVote op _ _ _ =>
      (10, match op with RegisterProver => 0 | Add => 1 | Remove => 2 | SetWeight _ => 3 | SetStake _ => 4 end)
  | LAlgVote op _ _ _ =>
      (11, match op with
           | ProposeActivation => 0 | ProposeActivationMlDsa => 1 | ProposeActivationSlh => 2
           | Deprecate => 3 | DeprecateMlDsa => 4 | DeprecateSlh => 5
           end)
  | LAlg k _ =>
      (12, match k with
           | VotingDeadline => 0 | ProposalHeight => 1 | ProposalVerifier => 2 | QuorumRequired => 3
           | QuorumApproved => 4 | Status => 5 | ActivationHeight => 6 | VerifierHash => 7 | CurrentProposal => 8
           end)
  | LField _ _ => (13, 0)
  | LIdVote _ _ None => (14, 0) | LIdVote _ _ (Some _) => (14, 1)
  end%nat.

(** No tag is a prefix of one of another shape, nor of another digit. *)
Fixpoint is_prefix (l k : list Z) : bool :=
  match l, k with
  | [], _ => true
  | x :: l, y :: k => if x =? y then is_prefix l k else false
  | _ :: _, [] => false
  end.
Definition separate (p q : nat * nat * list Z) : bool :=
  if is_prefix p.2 q.2 then bool_decide (p = q) else true.
Definition kind_table : list (nat * nat * list Z) := (λ k, (shape k, tag k)) <$> kinds.
Lemma kinds_separate : forallb (λ p, forallb (separate p) kind_table) kind_table = true.
Proof. vm_compute. reflexivity. Qed.
Lemma is_prefix_app l k x y : l ++ x = k ++ y → is_prefix l k = true ∨ is_prefix k l = true.
Proof.
  revert k. induction l as [|a l IH]; intros [|b k]; cbn; try (by auto). intros [= -> H]. rw Z.eqb_refl. by apply IH.
Qed.
Lemma kinds_prefix k k' : k ∈ kinds → k' ∈ kinds → is_prefix (tag k) (tag k') = true → shape k = shape k' ∧ tag k = tag k'.
Proof.
  intros Hk Hk' Hp. pose proof kinds_separate as H. rw forallb_forall in H.
  assert (∀ k, k ∈ kinds → In (shape k, tag k) kind_table) as Hin.
  { intros a Ha. apply list_elem_of_In. by apply (list_elem_of_fmap_2 (λ k, (shape k, tag k))). }
  specialize (H _ (Hin k Hk)). rw forallb_forall in H. specialize (H _ (Hin k' Hk')).
  rw /separate Hp in H. apply bool_decide_eq_true in H. by injection H.
Qed.

(** The first digit. *)
Lemma pretty_go_first x s : (0 < x)%N → ∃ d t, (d < 10)%N ∧ pretty_N_go x s = String (pretty_N_char d) t.
Proof.
  revert s. induction (N.lt_wf_0 x) as [x _ IH]; intros s Hx. rw pretty_N_go_step //.
  destruct (decide (0 < x `div` 10)%N) as [Hd|Hd].
  - apply IH; [by apply N.div_lt|done].
  - assert ((x `div` 10)%N = 0%N) as -> by (by apply N.le_0_r, N.nlt_ge). rw pretty_N_go_0. exists (x `mod` 10)%N, s.
    split; [by apply N.mod_lt|done].
Qed.
Lemma first_digit i : ∃ d, (d < 10)%nat ∧ take 1 (digits i) = take 1 (digits (N.of_nat d)).
Proof.
  rw /digits. destruct (decide (i = 0)%N) as [->|Hi]; [exists 0%nat; split; [lia|done]|].
  destruct (pretty_go_first i "") as (d&t&Hd&Hp); [lia|]. exists (N.to_nat d). split; [lia|].
  assert (pretty i = String (pretty_N_char d) t) as ->.
  { rw -Hp. rw /pretty /pretty_N decide_False //. }
  assert (d ∈ (N.of_nat <$> seq 0 10)) as Hin.
  { apply list_elem_of_fmap. exists (N.to_nat d). split; [lia|]. apply elem_of_seq. lia. }
  rw N2Nat.id. clear Hd Hp. revert Hin. cbn. intros Hin.
  repeat (apply elem_of_cons in Hin as [->|Hin]; [reflexivity|]). by apply elem_of_nil in Hin.
Qed.

(** The entry of [kinds] with the tag of a label; its digit aside. *)
Definition kind_of (l : label) : label :=
  match l with
  | LWeight _ => LWeight ZERO
  | LStake _ => LStake ZERO
  | LProver _ _ => LProver ZERO 0
  | LVote op _ _ _ =>
      LVote match op with SetWeight _ => SetWeight 0 | SetStake _ => SetStake 0 | op => op end ZERO ZERO []
  | LAlgVote op _ _ _ => LAlgVote op Dilithium3 ZERO []
  | LAlg k _ => LAlg k Dilithium3
  | LField _ _ => LField ZERO 0
  | LIdVote _ _ None => LIdVote ZERO ZERO None
  | LIdVote _ _ (Some _) => LIdVote ZERO ZERO (Some Dilithium3)
  | l => l
  end.
Lemma label_kind l : ∃ k, k ∈ kinds ∧ shape k = shape l ∧ tag k = tag l.
Proof.
  assert ((∃ i, l = LSlot i) ∨ ¬ ∃ i, l = LSlot i) as [[i ->]|Hn].
  { destruct l; try (by left; eexists); right; by intros [? ?]. }
  - destruct (first_digit i) as (d&Hd&Ht). exists (LSlot (N.of_nat d)). split_and!; [|done|by rw /= Ht].
    rw /kinds. apply elem_of_app. right. apply elem_of_app. left. apply list_elem_of_fmap. exists d.
    split; [done|]. apply elem_of_seq. lia.
  - exists (kind_of l).
    destruct l as [|i| | | | | | | | |[] t v vs|[] algo v vs|[] algo| |id v []]; try (by destruct Hn; eexists);
      (split; [apply (bool_decide_unpack _); vm_compute; exact I|split; reflexivity]).
Qed.
(** The string determines tag and body, and the tag the shape. *)
Lemma label_parts l l' : label_input l = label_input l' → shape l = shape l' ∧ tag l = tag l' ∧ body l = body l'.
Proof.
  intros H. destruct (label_kind l) as (k&Hk&Hs&Ht), (label_kind l') as (k'&Hk'&Hs'&Ht').
  rw /label_input -Ht -Ht' in H.
  assert (shape k = shape k' ∧ tag k = tag k') as [E1 E2].
  { destruct (is_prefix_app _ _ _ _ H) as [Hp|Hp]; [by apply kinds_prefix|].
    destruct (kinds_prefix k' k Hk' Hk Hp) as [-> ->]. done. }
  rw E2 in H. apply app_inv_head in H. split_and!; congruence.
Qed.

(** Numbers in range. *)
Definition op_ok (op : ValidatorRegistryOp) : Prop :=
  match op with SetWeight w => 0 <= w <= u64_max | SetStake x => 0 <= x <= u256_max | _ => True end.
Definition label_ok (l : label) : Prop :=
  match l with LProver _ field => 0 <= field <= u64_max | LVote op _ _ _ => op_ok op | _ => True end.

Lemma be_bytes_8_inj a b : 0 <= a <= u64_max → 0 <= b <= u64_max → be_bytes 8 a = be_bytes 8 b → a = b.
Proof. intros. apply (be_bytes_inj 8); [change (256 ^ Z.of_nat 8) with (u64_max + 1); lia..|done]. Qed.
Lemma be_bytes_32_inj a b : 0 <= a <= u256_max → 0 <= b <= u256_max → be_bytes 32 a = be_bytes 32 b → a = b.
Proof. intros. apply (be_bytes_inj 32); [rw b256_pow; lia..|done]. Qed.
(** Concatenations of 32-byte words. *)
Lemma words_inj (vs us : list Address) : (vs ≫= as_bytes) = (us ≫= as_bytes) → vs = us.
Proof.
  revert us. induction vs as [|v vs IH]; intros [|u us]; cbn [mbind list_bind]; intros H.
  - done.
  - apply (f_equal length) in H. rw length_app length_as_bytes in H. done.
  - apply (f_equal length) in H. rw length_app length_as_bytes in H. done.
  - apply app_inj_1 in H as [Hv H]; [|by rw !length_as_bytes]. apply as_bytes_inj in Hv as ->. f_equal. by apply IH.
Qed.
Lemma voters_inj (vs us : list Address) (v u : Address) :
  (vs ≫= as_bytes) ++ colon ++ as_bytes v = (us ≫= as_bytes) ++ colon ++ as_bytes u → vs = us ∧ v = u.
Proof.
  intros H. apply app_inj_2 in H as [H1 H2]; [|by rw !length_app !length_as_bytes].
  apply app_inv_head in H2. split; [by apply words_inj|by apply as_bytes_inj].
Qed.
Lemma sig_u8_inj a b : sig_type_as_u8 a = sig_type_as_u8 b → a = b.
Proof. by destruct a, b. Qed.

Lemma label_vote_inj op t v vs op' t' v' vs' :
  op_ok op → op_ok op' → shape (LVote op t v vs) = shape (LVote op' t' v' vs') →
  body (LVote op t v vs) = body (LVote op' t' v' vs') → LVote op t v vs = LVote op' t' v' vs'.
Proof.
  intros Ho Ho' Hs Hb. assert (length (write_context op) = length (write_context op')) as Hlen.
  { destruct op, op'; try done; by rw /= !length_be_bytes. }
  cbn [body] in Hb. apply app_inj_1 in Hb as [Hc Hb]; [|done]. apply app_inv_head in Hb.
  apply app_inj_1 in Hb as [->%as_bytes_inj Hb]; [|by rw !length_as_bytes]. apply app_inv_head in Hb.
  apply voters_inj in Hb as [-> ->]. assert (op = op') as ->; [|done].
  destruct op as [| | |w|x], op' as [| | |w'|x']; try done; f_equal.
  - by apply be_bytes_8_inj.
  - by apply be_bytes_32_inj.
Qed.

(** Distinct slots hash distinct strings. *)
Lemma label_input_inj l l' : label_ok l → label_ok l' → label_input l = label_input l' → l = l'.
Proof.
  intros Hl Hl' H. destruct (label_parts l l' H) as (Hs&Ht&Hb).
  destruct l as [|i|a|a| | | | | |a f|op t v vs|op algo v vs|k algo|id f|id v alg];
    destruct l' as [|i'|a'|a'| | | | | |a' f'|op' t' v' vs'|op' algo' v' vs'|k' algo'|id' f'|id' v' alg'];
    try discriminate Hs; try reflexivity; try (by destruct alg'); try (by destruct alg).
  - f_equal. apply (inj pretty). cbn [tag body] in Ht, Hb. apply app_inv_head in Ht.
    assert (digits i = digits i') as Hd by (by rw -(take_drop 1 (digits i)) Ht Hb take_drop).
    apply (f_equal (fmap (λ z, Ascii.ascii_of_nat (Z.to_nat z)))) in Hd. rw /digits /ascii_bytes -!list_fmap_compose in Hd.
    assert (∀ s, (λ z, Ascii.ascii_of_nat (Z.to_nat z)) ∘ (λ a, Z.of_nat (Ascii.nat_of_ascii a)) <$> String.list_ascii_of_string s
      = String.list_ascii_of_string s) as Hid.
    { intros s. rw -{2}(list_fmap_id (String.list_ascii_of_string s)). apply list_fmap_ext. intros _ c _.
      by rw /= Nat2Z.id Ascii.ascii_nat_embedding. }
    rw !Hid in Hd. apply (f_equal String.string_of_list_ascii) in Hd. by rw !String.string_of_list_ascii_of_string in Hd.
  - f_equal. by apply as_bytes_inj.
  - f_equal. by apply as_bytes_inj.
  - cbn [body] in Hb. apply app_inj_1 in Hb as [->%as_bytes_inj Hf]; [|by rw !length_as_bytes].
    f_equal. by apply be_bytes_8_inj.
  - by apply label_vote_inj.
  - cbn [body] in Hb. apply (app_inj_1 [_] [_]) in Hb as [[= ->%sig_u8_inj] Hb]; [|done].
    apply app_inv_head in Hb. apply voters_inj in Hb as [-> ->].
    destruct op, op'; try discriminate Hs; reflexivity.
  - cbn [body] in Hb. injection Hb as ->%sig_u8_inj. destruct k, k'; try discriminate Hs; reflexivity.
  - cbn [body] in Hb. apply app_inj_1 in Hb as [->%as_bytes_inj Hf]; [|by rw !length_as_bytes]. by injection Hf as ->.
  - destruct alg as [alg|], alg' as [alg'|]; try discriminate Hs; cbn [body] in Hb.
    + apply (app_inj_1 [_] [_]) in Hb as [[= ->%sig_u8_inj] Hb]; [|done].
      apply app_inj_1 in Hb as [->%as_bytes_inj ->%as_bytes_inj]; [|by rw !length_as_bytes]. reflexivity.
    + apply app_inj_1 in Hb as [->%as_bytes_inj ->%as_bytes_inj]; [|by rw !length_as_bytes]. reflexivity.
Qed.
