(* ===== verification/Cells.v ===== *)
(** * Accessors of the registry's storage

    The methods of crates/storage/src/world_state.rs that read and write the
    validator registry, over the interface [Cells] to its slots by label.
    [state_cells] implements it with the storage of the registry's account. *)

From S2P Require Import Prelude Primitives Fee Rlp Transaction TxValidation TxCodec KvStore Account Effects World RegistryKeys.

Definition MAX_VALIDATORS : Z := 1000.

Class Cells (W : Type) := {
  cell_get : label → M W StorageError ShellHash;
  cell_set : label → ShellHash → M W StorageError unit;
}.
#[global] Instance state_cells {W} {DB : StateDb W} {Hs : Hashes} : Cells W := {|
  cell_get l := get_storage validator_registry_addr (label_key l);
  cell_set l x := set_storage validator_registry_addr (label_key l) x;
|}.

Section accessors.
Context {W : Type} {CE : Cells W}.
Abbreviation MW := (M W StorageError).

(** *** Validators *)

(** The loop over the slots. *)
Fixpoint read_validators (indices : list nat) (seen : gset Address) (validators : list Address) :
    MW (list Address) :=
  match indices with
  | [] => mret validators
  | i :: indices =>
      let* slot := cell_get (LSlot (N.of_nat i)) in
      if bool_decide (slot ∈ seen)
      then mfail (Codec "validator registry contains duplicate address")
      else read_validators indices ({[slot]} ∪ seen) (validators ++ [slot])
  end.

Definition get_validators : MW (list Address) :=
  let* count_hash := cell_get LCount in
  if bool_decide (count_hash = ZERO) then mret []
  else
    let count := hash_to_u64 count_hash in
    if MAX_VALIDATORS <? count then mfail (Codec "validator count exceeds maximum")
    else read_validators (seq 0 (Z.to_nat count)) ∅ [].

(** The first validator whose [seen.insert] fails. *)
Fixpoint find_duplicate (seen : gset Address) (l : list Address) : option Address :=
  match l with
  | [] => None
  | v :: l => if bool_decide (v ∈ seen) then Some v else find_duplicate ({[v]} ∪ seen) l
  end.

Definition set_validators (validators : list Address) : MW unit :=
  if MAX_VALIDATORS <? len validators then mfail (Codec "validator set size exceeds maximum")
  else if bool_decide (is_Some (find_duplicate ∅ validators))
  then mfail (Codec "validator set contains duplicate address")
  else
    let* old_count_hash := cell_get LCount in
    let old_count := if bool_decide (old_count_hash = ZERO) then 0 else hash_to_u64 old_count_hash in
    let new_count := len validators in
    do* mfor (λ p, cell_set (LSlot (N.of_nat p.1)) p.2)
          (zip (seq 0 (length validators)) validators);
    do* mfor (λ i, cell_set (LSlot (N.of_nat i)) ZERO)
          (seq (length validators) (Z.to_nat (old_count - new_count)));
    cell_set LCount (u64_to_hash new_count).

Definition get_validator_weight (validator : Address) : MW Z :=
  let* raw := cell_get (LWeight validator) in
  if bool_decide (raw = ZERO) then mret 1
  else mret (Z.max (hash_to_u64 raw) 1).
Definition set_validator_weight (validator : Address) (weight : Z) : MW unit :=
  if MAX_VALIDATOR_WEIGHT <? weight then mfail (Codec "validator weight must be between 1 and maximum")
  else cell_set (LWeight validator) (u64_to_hash (Z.max weight 1)).
Definition set_validator_weights (validators : list Address) (weights : list Z) : MW unit :=
  mfor (λ p, set_validator_weight p.2 (unwrap_or 1 (weights !! p.1)))
    (zip (seq 0 (length validators)) validators).

(** *** Stakes *)

Definition staking_enabled : MW bool :=
  let* raw := cell_get LStaking in
  mret (negb (bool_decide (raw = ZERO))).
Definition set_staking_enabled (enabled : bool) : MW unit :=
  cell_set LStaking (if enabled then u64_to_hash 1 else ZERO).

Definition get_u256 (l : label) : MW Z :=
  let* raw := cell_get l in mret (hash_to_u256 raw).
Definition set_u256 (l : label) (value : Z) : MW unit :=
  cell_set l (u256_to_hash value).
Definition get_total_supply : MW Z := get_u256 LSupply.
Definition set_total_supply (value : Z) : MW unit := set_u256 LSupply value.
Definition get_total_staked : MW Z := get_u256 LStaked.
Definition set_total_staked (value : Z) : MW unit := set_u256 LStaked value.
Definition get_stake_unit : MW Z := get_u256 LUnit.
Definition set_stake_unit (value : Z) : MW unit := set_u256 LUnit value.
Definition get_validator_stake (validator : Address) : MW Z := get_u256 (LStake validator).
Definition set_validator_stake (validator : Address) (stake : Z) : MW unit :=
  set_u256 (LStake validator) stake.

Definition get_max_validator_weight : MW Z :=
  let* raw := cell_get LMaxWeight in
  if bool_decide (raw = ZERO) then mret u64_max else mret (hash_to_u64 raw).
Definition set_max_validator_weight (value : Z) : MW unit :=
  if (value =? 0) || (MAX_VALIDATOR_WEIGHT <? value)
  then mfail (Codec "max validator weight must be between 1 and maximum")
  else cell_set LMaxWeight (u64_to_hash value).

Definition derive_validator_weight_from_stake (stake stake_unit max_validator_weight : Z) :
    result Z StorageError :=
  if stake_unit =? 0 then Err (Codec "stake_unit must be greater than zero")
  else if max_validator_weight =? 0 then Err (Codec "max_validator_weight must be greater than zero")
  else Ok (Z.min (stake / stake_unit) max_validator_weight).

Definition set_validator_stake_and_weight (validator : Address)
    (stake stake_unit max_validator_weight : Z) : MW Z :=
  let* weight := mlift (derive_validator_weight_from_stake stake stake_unit max_validator_weight) in
  do* set_validator_stake validator stake;
  do* set_validator_weight validator (Z.max weight 1);
  mret (Z.max weight 1).

(** *** Provers *)

(** Field 0 holds the fixed part of the record, the fields after it the key in
    words of 32 bytes. *)
Record RegisteredProver := MkProver {
  prover_public_key : list Z;
  prover_algorithm : Z;
  registered_at : Z;
  prover_proofs_submitted : Z;
  prover_last_proof_block : Z;
}.

(** The loop over the words of the key. *)
Fixpoint read_key_words (address : Address) (indices : list nat) (public_key : list Z) : MW (list Z) :=
  match indices with
  | [] => mret public_key
  | i :: indices =>
      let* word := cell_get (LProver address (1 + Z.of_nat i)) in
      read_key_words address indices (public_key ++ as_bytes word)
  end.
Definition get_registered_prover (address : Address) : MW (option RegisteredProver) :=
  let* meta := cell_get (LProver address 0) in
  if bool_decide (meta = ZERO) then mret None
  else
    let data := as_bytes meta in
    let length := from_be_bytes (take 2 (drop 1 data)) in
    if (length =? 0) || (4096 <? length) then mfail (StateError "invalid registered prover key length")
    else
      let* public_key := read_key_words address (seq 0 (Z.to_nat (div_ceil length 32))) [] in
      mret (Some (MkProver (take (Z.to_nat length) public_key) (nth 0 data 0) (from_be_bytes (drop 24 data))
        (from_be_bytes (take 8 (drop 3 data))) (from_be_bytes (take 8 (drop 11 data))))).

(** [chunks(32)], each padded with zeros to a word. *)
Fixpoint key_words (n : nat) (key : list Z) : list ShellHash :=
  match n with
  | O => []
  | S n => b256_from_bytes (take 32 key ++ replicate (32 - length key) 0) :: key_words n (drop 32 key)
  end.
Definition prover_meta (record : RegisteredProver) : ShellHash :=
  b256_from_bytes (prover_algorithm record :: be_bytes 2 (len (prover_public_key record)) ++
    be_bytes 8 (prover_proofs_submitted record) ++ be_bytes 8 (prover_last_proof_block record) ++
    replicate 5 0 ++ be_bytes 8 (registered_at record)).
Definition set_registered_prover (address : Address) (record : RegisteredProver) : MW unit :=
  let key := prover_public_key record in
  if (length key =? 0)%nat || (4096 <? len key) then mfail (StateError "invalid registered prover key length")
  else
    let words := key_words (Z.to_nat (div_ceil (len key) 32)) key in
    do* mfor (λ p, cell_set (LProver address (1 + Z.of_nat p.1)) p.2) (zip (seq 0 (length words)) words);
    cell_set (LProver address 0) (prover_meta record).

(** Counts a settled proof. *)
Definition record_prover_settlement (address : Address) (source_block : Z) : MW unit :=
  let* word := cell_get (LProver address 0) in
  if bool_decide (word = ZERO) then mfail (StateError "prover is not registered")
  else
    let data := as_bytes word in
    let* count := mlift (ok_or (checked_add (from_be_bytes (take 8 (drop 3 data))) 1)
      (StateError "prover proof count overflow")) in
    let last := Z.max (from_be_bytes (take 8 (drop 11 data))) source_block in
    cell_set (LProver address 0)
      (b256_from_bytes (take 3 data ++ be_bytes 8 count ++ be_bytes 8 last ++ drop 19 data)).
End accessors.
