(* ===== verification/AlgorithmRegistry.v ===== *)
(** * The registry of signature algorithms

    crates/crypto/src/algorithm_registry.rs: which algorithms are active,
    deprecated or pending, as a list with one entry per algorithm.  The global
    registry and its thread-local overrides are the state of the caller. *)

From S2P Require Import Prelude Primitives.

Definition ALLOWED_ALGORITHMS : list SignatureType := [Dilithium3; MlDsa65; SphincsSha2256f].

Inductive AlgorithmStatus :=
| Active
| Deprecated
| PendingActivation.
#[global] Instance AlgorithmStatus_eq_dec : EqDecision AlgorithmStatus.
Proof. solve_decision. Defined.

Definition is_accepted (s : AlgorithmStatus) : bool := bool_decide (s = Active).

Record AlgorithmSpec := MkSpec {
  spec_verifier_hash : list Z;
  spec_activation_height : Z;
}.
Record AlgorithmEntry := MkAlgorithmEntry {
  entry_algo : SignatureType;
  entry_status : AlgorithmStatus;
  entry_description : string;
  entry_spec : option AlgorithmSpec;
}.
(** The registry is its list of entries. *)
Definition AlgorithmRegistry : Type := list AlgorithmEntry.

Definition registry_description (a : SignatureType) : string :=
  match a with
  | Dilithium3 => "CRYSTALS-Dilithium3 (Round-3 pre-FIPS; active for legacy compatibility)"
  | MlDsa65 => "FIPS 204 ML-DSA-65 (NIST post-quantum standard; primary algorithm)"
  | SphincsSha2256f => "SPHINCS+-SHA2-256f-simple (stateless hash-based; high security margin)"
  end.

Definition from_allowlist : AlgorithmRegistry :=
  (λ algo, MkAlgorithmEntry algo Active (registry_description algo) None) <$> ALLOWED_ALGORITHMS.

(** The first entry of the algorithm is updated, a missing one is appended. *)
Fixpoint upsert_status (algo : SignatureType) (status : AlgorithmStatus) (spec : option AlgorithmSpec)
    (entries : AlgorithmRegistry) : AlgorithmRegistry :=
  match entries with
  | [] => [MkAlgorithmEntry algo status (registry_description algo) spec]
  | e :: entries =>
      if bool_decide (entry_algo e = algo)
      then MkAlgorithmEntry (entry_algo e) status (registry_description algo)
             (match spec with Some _ => spec | None => entry_spec e end) :: entries
      else e :: upsert_status algo status spec entries
  end.

Definition propose_activation (algo : SignatureType) : AlgorithmRegistry → AlgorithmRegistry :=
  upsert_status algo PendingActivation None.
Definition propose_activation_with_spec (algo : SignatureType) (activation_height : Z) (verifier_hash : list Z) :
    AlgorithmRegistry → AlgorithmRegistry :=
  upsert_status algo PendingActivation (Some (MkSpec verifier_hash activation_height)).
Definition alg_activate (algo : SignatureType) : AlgorithmRegistry → AlgorithmRegistry := upsert_status algo Active None.
Definition alg_deprecate (algo : SignatureType) : AlgorithmRegistry → AlgorithmRegistry :=
  upsert_status algo Deprecated None.

Definition alg_is_allowed (algo : SignatureType) (r : AlgorithmRegistry) : bool :=
  existsb (λ e, bool_decide (entry_algo e = algo) && is_accepted (entry_status e)) r.
(** [algorithm_status], of the registry in force. *)
Definition algorithm_status (algo : SignatureType) (r : AlgorithmRegistry) : option AlgorithmStatus :=
  match List.find (λ e, bool_decide (entry_algo e = algo)) r with
  | Some e => Some (entry_status e)
  | None => None
  end.
