(* ===== verification/WorldState.v ===== *)
(** * The world state over a trie and a cache

    [WorldState] of crates/storage/src/world_state.rs, with the wrapper of
    merkle_trie.rs: accounts under the Keccak hash of their address in one trie,
    behind an LRU cache; the storage of an account in a trie of its own, whose
    root the account records.  All tries and the chain store share one key-value
    store.  [world_db] makes it an instance of [StateDb]. *)

From S2P Require Import Prelude Primitives Fee Rlp Transaction TxValidation KvStore Account Effects World.

(** ** The crates below *)

(** eth_trie over a store: a handle keeps its changes in memory until
    [root_hash] writes the nodes. *)
Class EthTrie (S : Type) := {
  trie_t : Type;
  trie_new : trie_t;
  trie_at_root : ShellHash → trie_t;
  trie_get : S → trie_t → bytes → result (option bytes) string;
  trie_insert : S → trie_t → bytes → bytes → result unit string * trie_t;
  trie_remove : S → trie_t → bytes → result bool string * trie_t;
  trie_root_hash : S → trie_t → result ShellHash string * trie_t * S;
}.

(** lru::LruCache; [get] and [put] may reorder, [put] may evict. *)
Class Lru := {
  lru_t : Type;
  lru_get : Address → lru_t → option (option Account) * lru_t;
  lru_put : Address → option Account → lru_t → lru_t;
  lru_clear : lru_t → lru_t;
  (** [LruCache::new(cap)] *)
  lru_new : lru_t;
}.

(** ** State and operations *)

Record WorldState {S : Type} {ET : EthTrie S} {L : Lru} := MkWorld {
  account_trie : trie_t;
  account_cache : lru_t;
  store : S;
}.
Arguments WorldState S {ET L}.

Section world.
Context {S : Type} {KV : KvStore S} {ET : EthTrie S} {L : Lru} {Hs : Hashes} {R : Rlp}.
Abbreviation MW := (M (WorldState S) StorageError).

Definition set_cache (c : lru_t) (w : WorldState S) : WorldState S := MkWorld _ _ _ (account_trie w) c (store w).
Definition set_trie (t : trie_t) (w : WorldState S) : WorldState S := MkWorld _ _ _ t (account_cache w) (store w).
Definition set_store (s : S) (w : WorldState S) : WorldState S := MkWorld _ _ _ (account_trie w) (account_cache w) s.

(** *** MerkleTrie, whose errors are [StorageError::Trie] *)

Definition merkle_get (t : trie_t) (key : bytes) : MW (option bytes) := λ w,
  (w, map_err TrieError (trie_get (store w) t key)).
Definition merkle_insert (t : trie_t) (key value : bytes) : MW trie_t := λ w,
  match trie_insert (store w) t key value with
  | (Ok _, t) => (w, Ok t)
  | (Err e, _) => (w, Err (TrieError e))
  end.
Definition merkle_remove (t : trie_t) (key : bytes) : MW trie_t := λ w,
  match trie_remove (store w) t key with
  | (Ok _, t) => (w, Ok t)
  | (Err e, _) => (w, Err (TrieError e))
  end.
Definition merkle_root_hash (t : trie_t) : MW (ShellHash * trie_t) := λ w,
  match trie_root_hash (store w) t with
  | (Ok root, t, s) => (set_store s w, Ok (root, t))
  | (Err e, _, s) => (set_store s w, Err (TrieError e))
  end.

(** *** Accounts *)

Definition account_key (address : Address) : ShellHash := keccak256 (as_bytes address).

Definition cache_get (address : Address) : MW (option (option Account)) := λ w,
  let '(hit, c) := lru_get address (account_cache w) in (set_cache c w, Ok hit).
Definition cache_put (address : Address) (a : option Account) : MW unit := λ w,
  (set_cache (lru_put address a (account_cache w)) w, Ok tt).
Definition current_trie : MW trie_t := λ w, (w, Ok (account_trie w)).

Definition ws_get_account (address : Address) : MW (option Account) :=
  let* hit := cache_get address in
  match hit with
  | Some cached => mret cached
  | None =>
      let* trie := current_trie in
      let* data := merkle_get trie (as_bytes (account_key address)) in
      let* result :=
        match data with
        | Some data =>
            match account_decode data with
            | Err _ => mfail (Codec "account record does not decode")
            | Ok (account, []) => mret (Some account)
            | Ok (_, _ :: _) => mfail (Codec "account record has trailing bytes")
            end
        | None => mret None
        end in
      do* cache_put address result; mret result
  end.

(** [insert] on the handle in place: a failed one leaves its changes. *)
Definition ws_set_account (address : Address) (account : Account) : MW unit := λ w,
  match trie_insert (store w) (account_trie w) (as_bytes (account_key address)) (account_encode account) with
  | (Ok _, t) => cache_put address (Some account) (set_trie t w)
  | (Err e, t) => (set_trie t w, Err (TrieError e))
  end.

Definition ws_get_or_default (address : Address) : MW Account :=
  let* account := ws_get_account address in
  mret (unwrap_or (new_user_account ZERO 0) account).

(** *** Storage *)

Definition storage_key (key : ShellHash) : bytes := as_bytes (keccak256 (as_bytes key)).

Definition ws_get_storage (address : Address) (key : ShellHash) : MW ShellHash :=
  let* account := ws_get_account address in
  match account with
  | None => mret ZERO
  | Some account =>
      if bool_decide (storage_root account = ZERO) then mret ZERO
      else
        let* data := merkle_get (trie_at_root (storage_root account)) (storage_key key) in
        match data with
        | Some data =>
            if (length data =? 32)%nat then mret (b256_from_bytes data)
            else mfail (Codec "invalid slice length")
        | None => mret ZERO
        end
  end.

Definition with_storage_root (a : Account) (root : ShellHash) : Account :=
  MkAccount (pq_pubkey_hash a) (nonce a) (balance a) (validation_code_hash a) (code_hash a) root.

Definition ws_set_storage (address : Address) (key value : ShellHash) : MW unit :=
  let* account := ws_get_or_default address in
  let storage_trie :=
    if bool_decide (storage_root account = ZERO) then trie_new else trie_at_root (storage_root account) in
  let* storage_trie :=
    if bool_decide (value = ZERO) then merkle_remove storage_trie (storage_key key)
    else merkle_insert storage_trie (storage_key key) (as_bytes value) in
  let* root := merkle_root_hash storage_trie in
  ws_set_account address (with_storage_root account root.1).

(** *** The store, as the chain store uses it *)

Definition ws_store_get (key : bytes) : MW (option bytes) := λ w, (w, kv_get (store w) key).
Definition ws_store_put (key value : bytes) : MW unit := λ w,
  let '(r, s) := kv_put (store w) key value in (set_store s w, r).
Definition ws_store_delete (key : bytes) : MW unit := λ w,
  let '(r, s) := kv_delete (store w) key in (set_store s w, r).

#[global] Instance world_db : StateDb (WorldState S) := {|
  get_account := ws_get_account;
  set_account := ws_set_account;
  get_storage := ws_get_storage;
  set_storage := ws_set_storage;
  store_get := ws_store_get;
  store_put := ws_store_put;
  store_delete := ws_store_delete;
|}.

(** *** Roots *)

Definition world_new (s : S) : WorldState S := MkWorld _ _ _ trie_new lru_new s.
Definition world_at_root (s : S) (root : ShellHash) : WorldState S := MkWorld _ _ _ (trie_at_root root) lru_new s.

Definition state_root : MW ShellHash := λ w,
  match trie_root_hash (store w) (account_trie w) with
  | (r, t, s) => (set_store s (set_trie t w), map_err TrieError r)
  end.

(** A second handle at the current root; the store is shared. *)
Definition snapshot : MW (WorldState S) :=
  let* root := state_root in
  λ w, (w, Ok (world_at_root (store w) root)).

Definition rollback_to_root (root : ShellHash) : MW unit := λ w,
  (set_cache (lru_clear (account_cache w)) (set_trie (trie_at_root root) w), Ok tt).

Definition exists_account (address : Address) : MW bool :=
  let* account := ws_get_account address in mret (bool_decide (is_Some account)).
End world.
