(* ===== verification/WorldProps.v ===== *)
(** * What the world state promises

    The contract of the interface [StateDb] as the class [StateLaws]: each
    primitive does to a [view] (accounts, storage slots, raw entries) what its
    name says, or fails; a failed read or raw write changes nothing.  [world_laws] shows that [WorldState] keeps it, from the
    laws of the trie and of the cache: the cache never goes stale, and a commit
    disturbs no other trie. *)

From S2P Require Import Prelude Primitives Fee Rlp Transaction TxValidation BTree KvStore Account Effects World WorldState.

(** ** Views *)

Record view := MkView {
  accounts : gmap Address Account;
  slots : gmap (Address * ShellHash) ShellHash;
  meta : contents;
}.
Definition account_of (v : view) (a : Address) : Account :=
  unwrap_or (new_user_account ZERO 0) (accounts v !! a).
Definition slot (v : view) (a : Address) (k : ShellHash) : ShellHash := default ZERO (slots v !! (a, k)).

Definition set_acct (v : view) (a : Address) (acc : Account) : view :=
  MkView (<[a := acc]> (accounts v)) (slots v) (meta v).
(** A write to a slot gives the account a new root. *)
Definition set_slot (v : view) (a : Address) (k x root : ShellHash) : view :=
  MkView (<[a := with_storage_root (account_of v a) root]> (accounts v)) (<[(a, k) := x]> (slots v)) (meta v).
Definition set_meta (v : view) (m : contents) : view := MkView (accounts v) (slots v) m.

(** ** The contract *)

(** [known] addresses and slots are those among which the hash has no
    collision; nothing is promised of the others. *)
Class StateLaws (W : Type) `{StateDb W} := {
  known : Address → Prop;
  known_key : ShellHash → Prop;
  models : W → view → Prop;
  models_ok w v a acc : models w v → known a → accounts v !! a = Some acc → account_ok acc;
  get_account_law w v a : models w v → known a →
    wp (get_account a) (λ x w', models w' v ∧ x = accounts v !! a) (λ _ w', models w' v) w;
  set_account_law w v a acc : models w v → known a → account_ok acc →
    storage_root acc = storage_root (account_of v a) →
    wp (set_account a acc) (λ _ w', models w' (set_acct v a acc)) (λ _ _, True) w;
  get_storage_law w v a k : models w v → known a → known_key k →
    wp (get_storage a k) (λ x w', models w' v ∧ x = slot v a k) (λ _ w', models w' v) w;
  set_storage_law w v a k x : models w v → known a → known_key k →
    wp (set_storage a k x) (λ _ w', ∃ root, models w' (set_slot v a k x root)) (λ _ _, True) w;
  (** keys of 32 bytes belong to trie nodes *)
  store_get_law w v k : models w v → length k ≠ 32%nat →
    wp (store_get k) (λ x w', models w' v ∧ x = meta v !! k) (λ _ w', models w' v) w;
  store_put_law w v k x : models w v → length k ≠ 32%nat →
    wp (store_put k x) (λ _ w', models w' (set_meta v (<[k := x]> (meta v)))) (λ _ w', models w' v) w;
  store_delete_law w v k : models w v → length k ≠ 32%nat →
    wp (store_delete k) (λ _ w', models w' (set_meta v (delete k (meta v)))) (λ _ w', models w' v) w;
}.

(** ** Laws of the crates below *)

(** [holds s t c]: over the store [s], the handle [t] maps keys as [c] does.  A
    commit only adds nodes (trie_adapter.rs ignores the removal of a node), so
    it leaves every handle and every other key as it was. *)
Class TrieLaws (S : Type) `{KvLaws S} {ET : EthTrie S} := {
  holds : S → trie_t → contents → Prop;
  holds_new s : kv_ok s → holds s trie_new ∅;
  holds_frame s s' t c :
    (∀ k, length k = 32%nat → kv_contents s' !! k = kv_contents s !! k) → kv_ok s' → holds s t c → holds s' t c;
  trie_get_law s t c k o : holds s t c → trie_get s t k = Ok o → o = c !! k;
  trie_insert_law s t c k v t' :
    holds s t c → v ≠ [] → trie_insert s t k v = (Ok tt, t') → holds s t' (<[k := v]> c);
  trie_remove_law s t c k b t' : holds s t c → trie_remove s t k = (Ok b, t') → holds s t' (delete k c);
  trie_root_law s t c r t' s' : kv_ok s → holds s t c → trie_root_hash s t = (Ok r, t', s') →
    r ≠ ZERO ∧ holds s' t' c ∧ holds s' (trie_at_root r) c;
  trie_commit_law s t r t' s' : kv_ok s → trie_root_hash s t = (r, t', s') →
    kv_ok s' ∧ (∀ t0 c0, holds s t0 c0 → holds s' t0 c0) ∧
    (∀ k, length k ≠ 32%nat → kv_contents s' !! k = kv_contents s !! k);
}.

Definition lru_find {L : Lru} (a : Address) (c : lru_t) : option (option Account) := (lru_get a c).1.
Class LruLaws (L : Lru) : Prop := {
  lru_get_law a b c : lru_find b (lru_get a c).2 = lru_find b c;
  lru_put_law a b x c y : lru_find b (lru_put a x c) = Some y →
    (a = b ∧ y = x) ∨ (a ≠ b ∧ lru_find b c = Some y);
  lru_clear_law a c : lru_find a (lru_clear c) = None;
  lru_new_law a : lru_find a lru_new = None;
}.

Section world_laws.
Context {S : Type} {KV : KvStore S} {KL : KvLaws S} {ET : EthTrie S} {TL : TrieLaws S}.
Context {L : Lru} {LL : LruLaws L} {Hs : Hashes} {R : Rlp} {RL : RlpLaws R}.
Context (D : Address → Prop) (K : ShellHash → Prop).
Context (HD : ∀ a b, D a → D b → account_key a = account_key b → a = b).
Context (HK : ∀ k l, K k → K l → storage_key k = storage_key l → k = l).
Implicit Types (w : WorldState S) (v : view) (s : S) (c : contents).

(** The trie of an account with this root holds the slots. *)
Definition slots_held s v (a : Address) (root : ShellHash) : Prop :=
  if decide (root = ZERO) then ∀ k, K k → slot v a k = ZERO
  else ∃ c, holds s (trie_at_root root) c ∧
    ∀ k, K k → c !! storage_key k = if decide (slot v a k = ZERO) then None else Some (as_bytes (slot v a k)).

(** A trie maps the known accounts as the view does. *)
Definition accounts_held s (t : trie_t) v : Prop :=
  ∃ c, holds s t c ∧
    (∀ a, D a → c !! as_bytes (account_key a) = account_encode <$> accounts v !! a) ∧
    (∀ a acc, D a → accounts v !! a = Some acc → account_ok acc) ∧
    (∀ a, D a → slots_held s v a (storage_root (account_of v a))).

Definition cache_fresh w v : Prop := ∀ a x, D a → lru_find a (account_cache w) = Some x → x = accounts v !! a.
Definition meta_held s v : Prop := ∀ k, length k ≠ 32%nat → kv_contents s !! k = meta v !! k.

Definition ws_models w v : Prop :=
  kv_ok (store w) ∧ accounts_held (store w) (account_trie w) v ∧ cache_fresh w v ∧ meta_held (store w) v.

(** *** Frames *)

Lemma slots_held_mono s s' v a root :
  (∀ t c, holds s t c → holds s' t c) → slots_held s v a root → slots_held s' v a root.
Proof. intros Hs'. rw /slots_held. case_decide; [done|]. intros (c & Hc & Hk). eauto. Qed.

Lemma accounts_held_mono s s' t v :
  (∀ t c, holds s t c → holds s' t c) → accounts_held s t v → accounts_held s' t v.
Proof.
  intros Hs' (c & Hc & Ha & Hok & Hsl). exists c. split_and!; eauto. intros a Da.
  eapply slots_held_mono; eauto.
Qed.

Lemma accounts_held_ok s t v a acc : accounts_held s t v → D a → accounts v !! a = Some acc → account_ok acc.
Proof. intros (c & _ & _ & Hok & _). apply Hok. Qed.

Lemma account_of_ok s t v a : accounts_held s t v → D a → account_ok (account_of v a).
Proof.
  intros Hh Da. rw /account_of. destruct (accounts v !! a) eqn:E; [by eapply accounts_held_ok|].
  rw /account_ok /= /u64_max /u256_max. lia.
Qed.

Lemma ws_models_cache w v (a : Address) :
  ws_models w v → ws_models (set_cache (lru_get a (account_cache w)).2 w) v.
Proof.
  intros (Hok & Hacc & Hc & Hm). split_and!; [done..| |done].
  intros b x Db. rw /= lru_get_law. by apply Hc.
Qed.

Lemma ws_models_put w v a x :
  ws_models w v → (D a → x = accounts v !! a) → ws_models (set_cache (lru_put a x (account_cache w)) w) v.
Proof.
  intros (Hok & Hacc & Hc & Hm) Hx. split_and!; [done..| |done].
  intros b y Db [[-> ->]|[_ Hb]]%lru_put_law; [by apply Hx|by apply Hc].
Qed.

Lemma ws_get_account_ok w v a : ws_models w v → D a →
  wp (ws_get_account a) (λ x w', ws_models w' v ∧ x = accounts v !! a) (λ _ w', ws_models w' v) w.
Proof.
  intros Hw Da. apply wp_bind. rw /wp /cache_get. destruct (lru_get a (account_cache w)) as [hit c] eqn:Eg.
  pose proof (ws_models_cache w v a Hw) as Hw'. rw Eg /= in Hw'.
  destruct hit as [x|].
  { split; [done|]. destruct Hw as (_ & _ & Hc & _). apply Hc; [done|]. by rw /lru_find Eg. }
  clear Eg Hw. revert Hw'. generalize (set_cache c w). clear w c. intros w Hw.
  apply wp_bind, wp_ret, wp_bind. rw /wp /merkle_get.
  destruct (trie_get (store w) (account_trie w) _) as [data|e] eqn:Et; [|done]. simpl.
  assert (Hdata : data = account_encode <$> accounts v !! a).
  { destruct Hw as (_ & (tc & Htc & Ha & _) & _). rw -Ha //. by eapply trie_get_law. }
  apply wp_bind.
  assert (Hput : ∀ x, x = accounts v !! a →
    wp (let* _ := cache_put a x in mret x) (λ x w', ws_models w' v ∧ x = accounts v !! a)
      (λ _ w', ws_models w' v) w).
  { intros x ->. apply wp_bind. rw /wp /=. split; [|done]. by apply ws_models_put. }
  rw Hdata. destruct (accounts v !! a) as [acc|] eqn:Ea; simpl; [|by apply wp_ret, Hput].
  assert (Hok : account_ok acc) by (destruct Hw as (_ & Hacc & _); by eapply accounts_held_ok).
  pose proof (account_decodes acc Hok []) as Hd. rw app_nil_r in Hd. rw Hd. by apply wp_ret, Hput.
Qed.

(** *** Writing an account *)

Lemma account_encode_nonempty acc : account_ok acc → account_encode acc ≠ [].
Proof.
  intros Hok. destruct (fields_len_encode acc Hok) as [_ Hl]. rw /account_encode.
  destruct (header_list_byte (fields_len acc)) as (b & t & -> & _); [unfold u64_max; lia|done].
Qed.


(** A successful insert into the account trie; [v'] may also differ from [v] in
    the slots of [a], which the new root must hold. *)
Lemma accounts_held_insert s t t' v v' a acc :
  accounts_held s t v → D a → account_ok acc →
  trie_insert s t (as_bytes (account_key a)) (account_encode acc) = (Ok tt, t') →
  accounts v' = <[a := acc]> (accounts v) → (∀ b k, b ≠ a → slot v' b k = slot v b k) →
  slots_held s v' a (storage_root acc) → accounts_held s t' v'.
Proof.
  intros (c & Hc & Ha & Hok & Hsl) Da Hacc Hi Hv' Hother Hroot.
  exists (<[as_bytes (account_key a) := account_encode acc]> c). split_and!.
  - eapply trie_insert_law; [done|by apply account_encode_nonempty|done].
  - intros b Db. rw Hv'. destruct (decide (b = a)) as [->|Hne]; [by rw !lookup_insert_eq|].
    rw !lookup_insert_ne //; [|by apply Ha]. intros E%as_bytes_inj. by apply Hne, HD.
  - intros b x Db. rw Hv'. destruct (decide (b = a)) as [->|Hne]; [rw lookup_insert_eq; by intros [= <-]|].
    rw lookup_insert_ne //. by apply Hok.
  - intros b Db. rw /account_of Hv'. destruct (decide (b = a)) as [->|Hne]; [by rw lookup_insert_eq|].
    rw lookup_insert_ne //. specialize (Hsl b Db). rw -/(account_of v b). revert Hsl.
    rw /slots_held. case_decide; [intros Hz k Hk; rw Hother //; by apply Hz|].
    intros (d & Hd & Hk). exists d. split; [done|]. intros k Kk. rw Hother //. by apply Hk.
Qed.

Lemma ws_set_account_ok' w v v' a acc :
  ws_models w v → D a → account_ok acc →
  accounts v' = <[a := acc]> (accounts v) → (∀ b k, b ≠ a → slot v' b k = slot v b k) → meta v' = meta v →
  slots_held (store w) v' a (storage_root acc) →
  wp (ws_set_account a acc) (λ _ w', ws_models w' v') (λ _ _, True) w.
Proof.
  intros (Hkv & Hacc & Hc & Hm) Da Hok Hv' Hother Hmeta Hroot. rw /wp /ws_set_account.
  destruct (trie_insert _ _ _ _) as [[[]|e] t] eqn:Ei; [|done]. split_and!; simpl; [done| | |].
  - by eapply accounts_held_insert.
  - intros b x Db. rw Hv'. intros [[<- ->]|[Hne Hf]]%lru_put_law; [by rw lookup_insert_eq|].
    rw lookup_insert_ne //. by apply Hc.
  - intros k Hk. rw Hmeta. by apply Hm.
Qed.

Lemma ws_set_account_ok w v a acc :
  ws_models w v → D a → account_ok acc → storage_root acc = storage_root (account_of v a) →
  wp (ws_set_account a acc) (λ _ w', ws_models w' (set_acct v a acc)) (λ _ _, True) w.
Proof.
  intros Hw Da Hok Hroot. eapply ws_set_account_ok'; [done..|].
  destruct Hw as (_ & (c & _ & _ & _ & Hsl) & _). rw Hroot. apply (Hsl a Da).
Qed.

(** *** Storage *)

Lemma ws_get_storage_ok w v a k : ws_models w v → D a → K k →
  wp (ws_get_storage a k) (λ x w', ws_models w' v ∧ x = slot v a k) (λ _ w', ws_models w' v) w.
Proof.
  intros Hw Da Kk. apply wp_bind. eapply wp_mono; [by apply ws_get_account_ok| |done].
  intros x w' [Hw' ->]. assert (Hsl : slots_held (store w') v a (storage_root (account_of v a))).
  { destruct Hw' as (_ & (c & _ & _ & _ & Hsl) & _). by apply Hsl. }
  revert Hsl. rw /account_of. destruct (accounts v !! a) as [acc|]; cbn [unwrap_or].
  2:{ rw /slots_held. case_decide as Hz; [|by destruct Hz]. intros Hs0. apply wp_ret. by rw (Hs0 k Kk). }
  rw /slots_held. destruct (decide (storage_root acc = ZERO)) as [E|E].
  { rw bool_decide_true //. intros Hz. apply wp_ret. by rw (Hz k Kk). }
  rw bool_decide_false //. intros (c & Hc & Hk). apply wp_bind. rw /wp /merkle_get.
  destruct (trie_get (store w') _ _) as [data|] eqn:Et; [|done]. simpl.
  rw (trie_get_law _ _ _ _ _ Hc Et) (Hk k Kk). case_decide as Hz; [by rw Hz|].
  rw length_as_bytes /= b256_from_as_bytes. done.
Qed.

(** How a storage trie holds a slot. *)
Definition slot_entry (x : ShellHash) : option bytes := if decide (x = ZERO) then None else Some (as_bytes x).

Lemma slot_entry_zero : slot_entry ZERO = None.
Proof. rw /slot_entry. by case_decide. Qed.
Lemma slot_entry_some x : x ≠ ZERO → slot_entry x = Some (as_bytes x).
Proof. intros. rw /slot_entry. by case_decide. Qed.

Lemma storage_handle s v a root : kv_ok s → slots_held s v a root →
  ∃ c, holds s (if bool_decide (root = ZERO) then trie_new else trie_at_root root) c ∧
    ∀ k, K k → c !! storage_key k = slot_entry (slot v a k).
Proof.
  intros Hkv. rw /slots_held. destruct (decide (root = ZERO)) as [E|E].
  - rw bool_decide_true //. intros Hz. exists ∅. split; [by apply holds_new|]. intros k Kk.
    by rw lookup_empty (Hz k Kk) slot_entry_zero.
  - rw bool_decide_false //.
Qed.

Lemma ws_models_commit w v s' :
  ws_models w v → kv_ok s' → (∀ t c, holds (store w) t c → holds s' t c) →
  (∀ k, length k ≠ 32%nat → kv_contents s' !! k = kv_contents (store w) !! k) → ws_models (set_store s' w) v.
Proof.
  intros (Hkv & Hacc & Hc & Hm) Hkv' Hmono Hmeta. split_and!; simpl; [done|by eapply accounts_held_mono|done|].
  intros k Hk. rw Hmeta //. by apply Hm.
Qed.

Lemma ws_get_or_default_ok w v a : ws_models w v → D a →
  wp (ws_get_or_default a) (λ x w', ws_models w' v ∧ x = account_of v a) (λ _ w', ws_models w' v) w.
Proof.
  intros Hw Da. apply wp_bind. eapply wp_mono; [by apply ws_get_account_ok| |done].
  by intros x w' [Hw' ->].
Qed.

Lemma slot_set v a k x root b j :
  slot (set_slot v a k x root) b j = if decide ((b, j) = (a, k)) then x else slot v b j.
Proof.
  rw /slot /=. case_decide as E; [by rw E lookup_insert_eq|]. by rw lookup_insert_ne.
Qed.

(** The storage trie after one write. *)
Lemma storage_write w v a k x t c :
  holds (store w) t c → (∀ j, K j → c !! storage_key j = slot_entry (slot v a j)) → K k →
  wp (if bool_decide (x = ZERO) then merkle_remove t (storage_key k)
      else merkle_insert t (storage_key k) (as_bytes x))
    (λ t w', w' = w ∧ ∃ c', holds (store w) t c' ∧
      ∀ j, K j → c' !! storage_key j = slot_entry (slot (set_slot v a k x ZERO) a j)) (λ _ _, True) w.
Proof.
  intros Hc Hslots Kk.
  assert (Hput : ∀ c', (∀ i, c' !! i = if decide (i = storage_key k) then slot_entry x else c !! i) →
    ∀ j, K j → c' !! storage_key j = slot_entry (slot (set_slot v a k x ZERO) a j)).
  { intros c' Hc' j Kj. rw Hc' slot_set. destruct (decide (j = k)) as [->|Hne]; [by rw !decide_True|].
    rw decide_False; [intros E; by apply Hne, HK|]. rw decide_False; [congruence|by apply Hslots]. }
  destruct (decide (x = ZERO)) as [->|Ex]; [rw bool_decide_true //|rw bool_decide_false //];
    rw /wp /merkle_remove /merkle_insert.
  - destruct (trie_remove _ _ _) as [[b|] t'] eqn:Er; [|done]. split; [done|]. eexists.
    split; [by eapply trie_remove_law|]. apply Hput.
    intros i. rw slot_entry_zero. case_decide as Ei; [by rw Ei lookup_delete_eq|by rw lookup_delete_ne].
  - destruct (trie_insert _ _ _ _) as [[[]|] t'] eqn:Er; [|done]. split; [done|]. eexists. split.
    { eapply trie_insert_law; [done| |done]. intros E. by pose proof (length_as_bytes x) as H0; rw E in H0. }
    apply Hput. intros i. rw slot_entry_some //.
    case_decide as Ei; [by rw Ei lookup_insert_eq|by rw lookup_insert_ne].
Qed.

Lemma ws_set_storage_ok w v a k x : ws_models w v → D a → K k →
  wp (ws_set_storage a k x) (λ _ w', ∃ root, ws_models w' (set_slot v a k x root)) (λ _ _, True) w.
Proof.
  intros Hw Da Kk. apply wp_bind. eapply wp_mono; [by apply ws_get_or_default_ok| |done].
  clear w Hw. intros acc w [Hw ->]. destruct (Hw) as (Hkv & Hacc & _).
  assert (Hsl : slots_held (store w) v a (storage_root (account_of v a)))
    by (destruct Hacc as (? & _ & _ & _ & Hsl); by apply Hsl).
  destruct (storage_handle _ _ _ _ Hkv Hsl) as (c & Hc & Hslots). cbv zeta. apply wp_bind.
  eapply wp_mono; [by eapply storage_write| |done].
  intros t' w' (-> & c' & Hc' & Hslots'). apply wp_bind. rw /wp /merkle_root_hash.
  destruct (trie_root_hash (store w) t') as [[[root|] t''] s'] eqn:Er; [|done].
  destruct (trie_root_law _ _ _ _ _ _ Hkv Hc' Er) as (Hroot & _ & Hat).
  destruct (trie_commit_law _ _ _ _ _ Hkv Er) as (Hkv' & Hmono & Hmeta). cbn [fst].
  apply (wp_mono _ (λ _ w', ws_models w' (set_slot v a k x root)) _ (λ _ _, True)); [|by eauto|done].
  apply (ws_set_account_ok' _ v); [by apply ws_models_commit|done| |done| |done|].
  - destruct (account_of_ok _ _ _ a Hacc Da). by split.
  - intros b j Hb. rw slot_set decide_False //. congruence.
  - rw /slots_held decide_False //=. exists c'. split; [done|]. intros j Kj. rw Hslots' //.
Qed.

(** *** Raw entries *)

Lemma ws_models_meta w v k o s' :
  ws_models w v → length k ≠ 32%nat → kv_ok s' → kv_contents s' = partial_alter (λ _, o) k (kv_contents (store w)) →
  ws_models (set_store s' w) (set_meta v (partial_alter (λ _, o) k (meta v))).
Proof.
  intros (Hkv & Hacc & Hc & Hm) Hk Hkv' Hs'. split_and!; simpl; [done| |done|].
  - assert (Hmono : ∀ t c, holds (store w) t c → holds s' t c).
    { intros t c. apply holds_frame; [|done]. intros k' Hk'. rw Hs' lookup_partial_alter_ne //. congruence. }
    destruct (accounts_held_mono _ _ _ _ Hmono Hacc) as (c & ? & ? & ? & ?). by exists c.
  - intros k' Hk'. rw Hs' /=. destruct (decide (k' = k)) as [->|Hne]; [by rw !lookup_partial_alter_eq|].
    rw !lookup_partial_alter_ne //. by apply Hm.
Qed.

Lemma ws_store_get_ok w v k : ws_models w v → length k ≠ 32%nat →
  wp (ws_store_get k) (λ x w', ws_models w' v ∧ x = meta v !! k) (λ _ w', ws_models w' v) w.
Proof.
  intros Hw Hk. rw /wp /ws_store_get. destruct (kv_get (store w) k) as [x|] eqn:E; [|done].
  split; [done|]. destruct Hw as (Hkv & _ & _ & Hm). rw -(Hm k Hk). by eapply kv_get_spec.
Qed.
Lemma ws_models_same w v s' :
  ws_models w v → kv_ok s' → kv_contents s' = kv_contents (store w) → ws_models (set_store s' w) v.
Proof.
  intros Hw Hkv' Hs'. apply ws_models_commit; [done..| |by rw Hs'].
  intros t c. apply holds_frame; [by rw Hs'|done].
Qed.
Lemma ws_store_put_ok w v k x : ws_models w v → length k ≠ 32%nat →
  wp (ws_store_put k x) (λ _ w', ws_models w' (set_meta v (<[k := x]> (meta v)))) (λ _ w', ws_models w' v) w.
Proof.
  intros Hw Hk. rw /wp /ws_store_put. destruct (Hw) as (Hkv & _).
  destruct (kv_put_spec (store w) k x Hkv) as [Hok He].
  destruct (kv_put (store w) k x) as [[u|] s']; [by apply ws_models_meta|by apply ws_models_same].
Qed.
Lemma ws_store_delete_ok w v k : ws_models w v → length k ≠ 32%nat →
  wp (ws_store_delete k) (λ _ w', ws_models w' (set_meta v (delete k (meta v)))) (λ _ w', ws_models w' v) w.
Proof.
  intros Hw Hk. rw /wp /ws_store_delete. destruct (Hw) as (Hkv & _).
  destruct (kv_delete_spec (store w) k Hkv) as [Hok He].
  destruct (kv_delete (store w) k) as [[u|] s']; [by apply ws_models_meta|by apply ws_models_same].
Qed.

(** The world state keeps the contract. *)
#[refine] Definition world_laws : StateLaws (WorldState S) := {|
  known := D; known_key := K; models := ws_models;
  get_account_law := ws_get_account_ok; set_account_law := ws_set_account_ok;
  get_storage_law := ws_get_storage_ok; set_storage_law := ws_set_storage_ok;
  store_get_law := ws_store_get_ok; store_put_law := ws_store_put_ok; store_delete_law := ws_store_delete_ok;
|}.
Proof. intros w v a acc (_ & Hacc & _) Da. by eapply accounts_held_ok. Defined.
End world_laws.
