(* ===== verification/WorldViews.v ===== *)
(** * The accessors of the world state, on views

    What the typed accessors of World.v do to a view, for every [StateDb] that
    keeps the contract [StateLaws]: balances, nonces and code hashes. *)

From S2P Require Import Prelude Primitives Fee Rlp Transaction TxValidation KvStore Account Effects World WorldState WorldProps.

Definition balance_of (v : view) (a : Address) : Z := balance (account_of v a).
Definition nonce_of (v : view) (a : Address) : Z := nonce (account_of v a).

Lemma account_of_set v a b acc : account_of (set_acct v a acc) b = if decide (a = b) then acc else account_of v b.
Proof. rw /account_of /=. case_decide; [subst; by rw lookup_insert_eq|by rw lookup_insert_ne]. Qed.
Lemma account_of_set_slot v a k x root b :
  account_of (set_slot v a k x root) b =
    if decide (a = b) then with_storage_root (account_of v a) root else account_of v b.
Proof. rw /account_of /=. case_decide; [subst; by rw lookup_insert_eq|by rw lookup_insert_ne]. Qed.

Lemma checked_add_u256_some a b c : checked_add_u256 a b = Some c ↔ c = a + b ∧ a + b <= u256_max.
Proof. rw /checked_add_u256. case_match; naive_solver lia. Qed.
Lemma checked_sub_u256_some a b c : checked_sub_u256 a b = Some c ↔ c = a - b ∧ b <= a.
Proof. rw /checked_sub_u256. case_match; naive_solver lia. Qed.

Section views.
Context {W : Type} `{StateLaws W}.
Implicit Types (w : W) (v : view).

Lemma account_ok_of w v a : models w v → known a → account_ok (account_of v a).
Proof.
  intros Hw Ha. rw /account_of. destruct (accounts v !! a) eqn:E; [by eapply models_ok|].
  rw /account_ok /= /u64_max /u256_max. lia.
Qed.

Lemma get_or_default_ok w v a : models w v → known a →
  wp (get_or_default a) (λ x w', models w' v ∧ x = account_of v a) (λ _ w', models w' v) w.
Proof.
  intros Hw Ha. apply wp_bind. eapply wp_mono; [by apply get_account_law| |done].
  by intros x w' [Hw' ->].
Qed.

Lemma get_balance_ok w v a : models w v → known a →
  wp (get_balance a) (λ x w', models w' v ∧ x = balance_of v a) (λ _ w', models w' v) w.
Proof.
  intros Hw Ha. apply wp_bind. eapply wp_mono; [by apply get_or_default_ok| |done].
  by intros x w' [Hw' ->].
Qed.

(** Reads an account, then writes a changed one. *)
Lemma update_ok w v a (f : Account → Account) : models w v → known a →
  account_ok (f (account_of v a)) → storage_root (f (account_of v a)) = storage_root (account_of v a) →
  wp (let* account := get_or_default a in set_account a (f account))
    (λ _ w', models w' (set_acct v a (f (account_of v a)))) (λ _ _, True) w.
Proof.
  intros Hw Ha Hok Hroot. apply wp_bind. eapply wp_mono; [by apply get_or_default_ok| |done].
  intros x w' [Hw' ->]. by apply set_account_law.
Qed.

(** The same with a check before the write; [e] is its error. *)
Lemma checked_update_ok {A} w v a (check : Account → result A StorageError) (f : Account → A → Account) :
  models w v → known a →
  (∀ x, check (account_of v a) = Ok x → account_ok (f (account_of v a) x) ∧
    storage_root (f (account_of v a) x) = storage_root (account_of v a)) →
  wp (let* account := get_or_default a in let* x := mlift (check account) in set_account a (f account x))
    (λ _ w', ∃ x, check (account_of v a) = Ok x ∧ models w' (set_acct v a (f (account_of v a) x)))
    (λ _ _, True) w.
Proof.
  intros Hw Ha Hok. apply wp_bind. eapply wp_mono; [by apply get_or_default_ok| |done].
  intros acc w' [Hw' ->]. apply wp_bind, wp_lift. destruct (check (account_of v a)) as [x|e] eqn:Ec; [|done].
  destruct (Hok x eq_refl). eapply wp_mono; [by apply set_account_law| |done]. eauto.
Qed.

Lemma set_balance_ok w v a b : models w v → known a → 0 <= b <= u256_max →
  wp (set_balance a b) (λ _ w', models w' (set_acct v a (with_balance (account_of v a) b))) (λ _ _, True) w.
Proof.
  intros Hw Ha Hb. apply (update_ok w v a (λ acc, with_balance acc b)); [done..| |done].
  destruct (account_ok_of w v a Hw Ha). by split.
Qed.

Lemma add_balance_ok w v a n : models w v → known a → 0 <= n →
  wp (add_balance a n) (λ _ w', balance_of v a + n <= u256_max ∧
    models w' (set_acct v a (with_balance (account_of v a) (balance_of v a + n)))) (λ _ _, True) w.
Proof.
  intros Hw Ha Hn. destruct (account_ok_of w v a Hw Ha) as [Hno Hb].
  eapply wp_mono; [apply (checked_update_ok w v a
    (λ acc, ok_or (checked_add_u256 (balance acc) n) (StateError "balance overflow")) with_balance)| |done]; [done..| |].
  - intros x. destruct (checked_add_u256 _ _) eqn:E; [|done]. intros [= <-].
    apply checked_add_u256_some in E as [-> ?]. split; [split; [done|simpl; lia]|done].
  - intros _ w' (x & Hx & Hm). destruct (checked_add_u256 _ _) eqn:E; [|done]. injection Hx as <-.
    apply checked_add_u256_some in E as [-> ?]. done.
Qed.

Lemma sub_balance_ok w v a n : models w v → known a → 0 <= n →
  wp (sub_balance a n) (λ _ w', n <= balance_of v a ∧
    models w' (set_acct v a (with_balance (account_of v a) (balance_of v a - n)))) (λ _ _, True) w.
Proof.
  intros Hw Ha Hn. destruct (account_ok_of w v a Hw Ha) as [Hno Hb].
  eapply wp_mono; [apply (checked_update_ok w v a
    (λ acc, ok_or (checked_sub_u256 (balance acc) n) (StateError "insufficient balance")) with_balance)| |done]; [done..| |].
  - intros x. destruct (checked_sub_u256 _ _) eqn:E; [|done]. intros [= <-].
    apply checked_sub_u256_some in E as [-> ?]. split; [split; [done|simpl; lia]|done].
  - intros _ w' (x & Hx & Hm). destruct (checked_sub_u256 _ _) eqn:E; [|done]. injection Hx as <-.
    apply checked_sub_u256_some in E as [-> ?]. done.
Qed.
End views.

(** ** A view is a state database *)

(** Storage roots play no role here: a write keeps the one there is. *)
#[global] Instance view_db : StateDb view := {|
  get_account a := λ v, (v, Ok (accounts v !! a));
  set_account a acc := λ v, (set_acct v a acc, Ok tt);
  get_storage a k := λ v, (v, Ok (slot v a k));
  set_storage a k x := λ v, (set_slot v a k x (storage_root (account_of v a)), Ok tt);
  store_get k := λ v, (v, Ok (meta v !! k));
  store_put k x := λ v, (set_meta v (<[k := x]> (meta v)), Ok tt);
  store_delete k := λ v, (set_meta v (delete k (meta v)), Ok tt);
|}.

Definition accounts_ok (v : view) : Prop := map_Forall (λ _, account_ok) (accounts v).

Lemma account_of_ok_view v a : accounts_ok v → account_ok (account_of v a).
Proof.
  intros Hv. rw /account_of. destruct (accounts v !! a) eqn:E; [by eapply Hv|].
  rw /account_ok /= /u64_max /u256_max. lia.
Qed.

#[global] Instance view_laws : StateLaws view.
Proof.
  refine {| known _ := True; known_key _ := True; models w v := w = v ∧ accounts_ok v |}.
  - intros w v a acc [_ Hv] _ E. by eapply Hv.
  - by intros w v a [-> Hv] _.
  - intros w v a acc [-> Hv] _ Hacc _. split; [done|]. by apply map_Forall_insert_2.
  - by intros w v a k [-> Hv] _ _.
  - intros w v a k x [-> Hv] _ _. eexists. split; [done|]. apply map_Forall_insert_2; [|done].
    by destruct (account_of_ok_view v a Hv).
  - by intros w v k [-> Hv] _.
  - by intros w v k x [-> Hv] _.
  - by intros w v k [-> Hv] _.
Defined.
