(* ===== verification/WorldRefines.v ===== *)
(** * The world state refines a map with saved versions

    An abstract machine retains a view and a list of versions saved so far; its
    operations are those of [WorldState], with rollback and historical reads
    going to a saved version.  Every run of the world state over a store, a trie
    and a cache that obey their laws is a run of the machine. *)

From S2P Require Import Prelude Primitives Fee Rlp RlpImpl Transaction TxValidation BTree KvStore Account Effects World WorldState WorldProps WorldViews.

(** ** Operations *)

Inductive world_op :=
| GetAccount (a : Address)
| SetBalance (a : Address) (b : Z)
| AddBalance (a : Address) (n : Z)
| SubBalance (a : Address) (n : Z)
| GetStorage (a : Address) (k : ShellHash)
| SetStorage (a : Address) (k x : ShellHash)
| StoreGet (k : bytes)
| StorePut (k x : bytes)
| StoreDelete (k : bytes)
| StateRoot
(** to the [i]-th root returned so far *)
| RollbackTo (i : nat)
| AccountAt (i : nat) (a : Address)
| StorageAt (i : nat) (a : Address) (k : ShellHash).

Inductive world_out :=
| Done
| OutAccount (o : option Account)
| OutHash (h : ShellHash)
| OutBytes (o : option bytes).

Section run.
Context {S : Type} {KV : KvStore S} {ET : EthTrie S} {L : Lru} {Hs : Hashes} {R : Rlp}.

(** A read through a second handle, opened at [root] over the shared store. *)
Definition at_root {A} (root : ShellHash) (m : M (WorldState S) StorageError A) : M (WorldState S) StorageError A :=
  λ w, let '(w', r) := m (world_at_root (store w) root) in (set_store (store w') w, r).

(** One operation, with the roots returned so far. *)
Definition run_op (op : world_op) (roots : list ShellHash) :
    M (WorldState S) StorageError (world_out * list ShellHash) :=
  let keep (m : M (WorldState S) StorageError world_out) := let* x := m in mret (x, roots) in
  match op with
  | GetAccount a => keep (let* x := get_account a in mret (OutAccount x))
  | SetBalance a b => keep (do* set_balance a b; mret Done)
  | AddBalance a n => keep (do* add_balance a n; mret Done)
  | SubBalance a n => keep (do* sub_balance a n; mret Done)
  | GetStorage a k => keep (let* x := get_storage a k in mret (OutHash x))
  | SetStorage a k x => keep (do* set_storage a k x; mret Done)
  | StoreGet k => keep (let* x := store_get k in mret (OutBytes x))
  | StorePut k x => keep (do* store_put k x; mret Done)
  | StoreDelete k => keep (do* store_delete k; mret Done)
  | StateRoot => let* r := state_root in mret (Done, roots ++ [r])
  | RollbackTo i =>
      keep (match roots !! i with Some r => do* rollback_to_root r; mret Done | None => mret Done end)
  | AccountAt i a =>
      keep (match roots !! i with
            | Some r => let* x := at_root r (get_account a) in mret (OutAccount x)
            | None => mret Done end)
  | StorageAt i a k =>
      keep (match roots !! i with
            | Some r => let* x := at_root r (get_storage a k) in mret (OutHash x)
            | None => mret Done end)
  end.

(** A run; an error ends it. *)
Fixpoint run_ops (ops : list world_op) (roots : list ShellHash) : M (WorldState S) StorageError (list world_out) :=
  match ops with
  | [] => mret []
  | op :: ops =>
      let* p := run_op op roots in
      let* outs := run_ops ops p.2 in
      mret (p.1 :: outs)
  end.
End run.

(** ** The machine *)

Record machine := MkMachine {
  mv : view;
  saved : list (gmap Address Account * gmap (Address * ShellHash) ShellHash);
}.
Definition version (p : gmap Address Account * gmap (Address * ShellHash) ShellHash) : view := MkView p.1 p.2 ∅.

Inductive machine_step : machine → world_op → world_out → machine → Prop :=
| step_get_account v sv a : machine_step (MkMachine v sv) (GetAccount a) (OutAccount (accounts v !! a)) (MkMachine v sv)
| step_set_balance v sv a b :
    machine_step (MkMachine v sv) (SetBalance a b) Done (MkMachine (set_acct v a (with_balance (account_of v a) b)) sv)
| step_add_balance v sv a n : balance_of v a + n <= u256_max →
    machine_step (MkMachine v sv) (AddBalance a n) Done
      (MkMachine (set_acct v a (with_balance (account_of v a) (balance_of v a + n))) sv)
| step_sub_balance v sv a n : n <= balance_of v a →
    machine_step (MkMachine v sv) (SubBalance a n) Done
      (MkMachine (set_acct v a (with_balance (account_of v a) (balance_of v a - n))) sv)
| step_get_storage v sv a k : machine_step (MkMachine v sv) (GetStorage a k) (OutHash (slot v a k)) (MkMachine v sv)
| step_set_storage v sv a k x root :
    machine_step (MkMachine v sv) (SetStorage a k x) Done (MkMachine (set_slot v a k x root) sv)
| step_store_get v sv k : machine_step (MkMachine v sv) (StoreGet k) (OutBytes (meta v !! k)) (MkMachine v sv)
| step_store_put v sv k x :
    machine_step (MkMachine v sv) (StorePut k x) Done (MkMachine (set_meta v (<[k := x]> (meta v))) sv)
| step_store_delete v sv k :
    machine_step (MkMachine v sv) (StoreDelete k) Done (MkMachine (set_meta v (delete k (meta v))) sv)
| step_state_root v sv :
    machine_step (MkMachine v sv) StateRoot Done (MkMachine v (sv ++ [(accounts v, slots v)]))
| step_rollback v sv i p : sv !! i = Some p →
    machine_step (MkMachine v sv) (RollbackTo i) Done (MkMachine (MkView p.1 p.2 (meta v)) sv)
| step_account_at v sv i p a : sv !! i = Some p →
    machine_step (MkMachine v sv) (AccountAt i a) (OutAccount (p.1 !! a)) (MkMachine v sv)
| step_storage_at v sv i p a k : sv !! i = Some p →
    machine_step (MkMachine v sv) (StorageAt i a k) (OutHash (slot (version p) a k)) (MkMachine v sv)
(** an index that no root has yet *)
| step_no_version v sv i op : sv !! i = None →
    op = RollbackTo i ∨ (∃ a, op = AccountAt i a) ∨ (∃ a k, op = StorageAt i a k) →
    machine_step (MkMachine v sv) op Done (MkMachine v sv).

Inductive machine_run : machine → list world_op → list world_out → machine → Prop :=
| run_nil m : machine_run m [] [] m
| run_cons m op out m' ops outs m'' :
    machine_step m op out m' → machine_run m' ops outs m'' → machine_run m (op :: ops) (out :: outs) m''.

(** ** Refinement *)

Section refines.
Context {S : Type} {KV : KvStore S} {KL : KvLaws S} {ET : EthTrie S} {TL : TrieLaws S}.
Context {L : Lru} {LL : LruLaws L} {Hs : Hashes} {R : Rlp} {RL : RlpLaws R}.
Context (D : Address → Prop) (K : ShellHash → Prop).
Context (HD : ∀ a b, D a → D b → account_key a = account_key b → a = b).
Context (HK : ∀ k l, K k → K l → storage_key k = storage_key l → k = l).
#[local] Instance laws : StateLaws (WorldState S) := world_laws D K HD HK.
Implicit Types (w : WorldState S).

(** Arguments in the ranges of their types, addresses and slots without
    collisions, raw keys that are not those of trie nodes. *)
Definition op_ok (op : world_op) : Prop :=
  match op with
  | GetAccount a | AccountAt _ a => D a
  | SetBalance a n | AddBalance a n | SubBalance a n => D a ∧ 0 <= n <= u256_max
  | GetStorage a k | SetStorage a k _ | StorageAt _ a k => D a ∧ K k
  | StoreGet k | StorePut k _ | StoreDelete k => length k ≠ 32%nat
  | StateRoot | RollbackTo _ => True
  end.

Definition saved_held w (root : ShellHash) (p : gmap Address Account * gmap (Address * ShellHash) ShellHash) : Prop :=
  accounts_held D K (store w) (trie_at_root root) (version p).
Definition sim w (roots : list ShellHash) (m : machine) : Prop :=
  ws_models D K w (mv m) ∧ Forall2 (saved_held w) roots (saved m).

(** *** Versions stay readable *)

(** Whatever [m] does, the tries that could be read before can be read after. *)
Definition retains {A} (m : M (WorldState S) StorageError A) : Prop := ∀ w,
  kv_ok (store w) → kv_ok (store (m w).1) ∧ ∀ t c, holds (store w) t c → holds (store (m w).1) t c.

Lemma retains_store {A} (m : M (WorldState S) StorageError A) : (∀ w, store (m w).1 = store w) → retains m.
Proof. intros Hm w Hkv. by rw Hm. Qed.
Lemma retains_bind {A B} (m : M (WorldState S) StorageError A) (k : A → M (WorldState S) StorageError B) :
  retains m → (∀ x, retains (k x)) → retains (mbind_ m k).
Proof.
  intros Hm Hk w Hkv. rw /mbind_. destruct (Hm w Hkv) as [Hkv1 Hh1]. destruct (m w) as [w1 [x|e]]; [|done].
  destruct (Hk x w1 Hkv1) as [Hkv2 Hh2]. split; [done|]. intros t c Ht. by apply Hh2, Hh1.
Qed.
Lemma retains_ret {A} (x : A) : retains (mret x).
Proof. by apply retains_store. Qed.
Lemma retains_fail {A} e : retains (mfail (A := A) e).
Proof. by apply retains_store. Qed.
Lemma retains_lift {A} (r : result A StorageError) : retains (mlift r).
Proof. by apply retains_store. Qed.

Lemma retains_get_account a : retains (ws_get_account a).
Proof.
  apply retains_bind.
  { apply retains_store. intros w. rw /cache_get. by destruct (lru_get a _). }
  intros [x|]; [apply retains_ret|]. apply retains_bind; [by apply retains_store|]. intros t.
  apply retains_bind; [by apply retains_store|]. intros data. apply retains_bind.
  - destruct data as [data|]; [|apply retains_ret].
    destruct (account_decode data) as [[acc [|]]|]; [apply retains_ret|apply retains_fail..].
  - intros x. apply retains_bind; [by apply retains_store|]. intros ?. apply retains_ret.
Qed.
Lemma retains_set_account a acc : retains (ws_set_account a acc).
Proof. apply retains_store. intros w. rw /ws_set_account. by destruct (trie_insert _ _ _ _) as [[|] t]. Qed.
Lemma retains_root t : retains (merkle_root_hash t).
Proof.
  intros w Hkv. rw /merkle_root_hash. destruct (trie_root_hash (store w) t) as [[r t'] s'] eqn:E.
  destruct (trie_commit_law _ _ _ _ _ Hkv E) as (? & ? & _). by destruct r.
Qed.
Lemma retains_get_storage a k : retains (ws_get_storage a k).
Proof.
  apply retains_bind; [apply retains_get_account|]. intros [acc|]; [|apply retains_ret].
  destruct (bool_decide _); [apply retains_ret|]. apply retains_bind; [by apply retains_store|].
  intros [data|]; [|apply retains_ret]. destruct (_ =? _)%nat; [apply retains_ret|apply retains_fail].
Qed.
Lemma retains_set_storage a k x : retains (ws_set_storage a k x).
Proof.
  apply retains_bind. { apply retains_bind; [apply retains_get_account|]. intros ?. apply retains_ret. }
  intros acc. cbv zeta. apply retains_bind.
  { destruct (bool_decide (x = ZERO)); apply retains_store; intros w; rw /merkle_remove /merkle_insert;
      [by destruct (trie_remove _ _ _) as [[|] ?]|by destruct (trie_insert _ _ _ _) as [[|] ?]]. }
  intros t. apply retains_bind; [apply retains_root|]. intros p. apply retains_set_account.
Qed.
Lemma retains_put k x : length k ≠ 32%nat → retains (ws_store_put k x).
Proof.
  intros Hk w Hkv. rw /ws_store_put. destruct (kv_put_spec (store w) k x Hkv) as [Hok He].
  destruct (kv_put (store w) k x) as [r s']; simpl in *. split; [done|]. intros t c. apply holds_frame; [|done].
  intros k' Hk'. destruct r; rw He //. rw lookup_insert_ne //. congruence.
Qed.
Lemma retains_delete k : length k ≠ 32%nat → retains (ws_store_delete k).
Proof.
  intros Hk w Hkv. rw /ws_store_delete. destruct (kv_delete_spec (store w) k Hkv) as [Hok He].
  destruct (kv_delete (store w) k) as [r s']; simpl in *. split; [done|]. intros t c. apply holds_frame; [|done].
  intros k' Hk'. destruct r; rw He //. rw lookup_delete_ne //. congruence.
Qed.
Lemma retains_state_root : retains state_root.
Proof.
  intros w Hkv. rw /state_root. destruct (trie_root_hash (store w) _) as [[r t'] s'] eqn:E.
  by destruct (trie_commit_law _ _ _ _ _ Hkv E) as (? & ? & _).
Qed.
Lemma retains_at_root {A} root (m : M (WorldState S) StorageError A) : retains m → retains (at_root root m).
Proof.
  intros Hm w Hkv. rw /at_root. specialize (Hm (world_at_root (store w) root) Hkv).
  by destruct (m (world_at_root (store w) root)) as [w' r].
Qed.

(** *** Simulation *)

Lemma saved_held_mono w w' roots sv :
  (∀ t c, holds (store w) t c → holds (store w') t c) →
  Forall2 (saved_held w) roots sv → Forall2 (saved_held w') roots sv.
Proof. intros Hh Hf. eapply Forall2_impl; [done|]. intros r p. rw /saved_held. by apply accounts_held_mono. Qed.

(** An operation that only changes the view. *)
Lemma keep_sim {A} (m : M (WorldState S) StorageError A) (out : A → world_out) op w roots v sv :
  sim w roots (MkMachine v sv) → retains m →
  wp m (λ x w', ∃ v', ws_models D K w' v' ∧ machine_step (MkMachine v sv) op (out x) (MkMachine v' sv)) (λ _ _, True) w →
  wp (let* y := (let* x := m in mret (out x)) in mret (y, roots))
    (λ p w', ∃ m', machine_step (MkMachine v sv) op p.1 m' ∧ sim w' p.2 m') (λ _ _, True) w.
Proof.
  intros [Hw Hsv] Hm Hwp. apply wp_bind, wp_bind. revert Hwp. rw /wp.
  destruct (Hm w) as [_ Hh]; [by destruct Hw|]. destruct (m w) as [w' [x|]]; [|done].
  intros (v' & Hw' & Hstep). exists (MkMachine v' sv). split; [done|]. split; [done|].
  eapply saved_held_mono; [apply Hh|done].
Qed.

(** [m; Ok(())] *)
Lemma keep_sim_unit (m : M (WorldState S) StorageError unit) op w roots v sv :
  sim w roots (MkMachine v sv) → retains m →
  wp m (λ _ w', ∃ v', ws_models D K w' v' ∧ machine_step (MkMachine v sv) op Done (MkMachine v' sv)) (λ _ _, True) w →
  wp (let* y := (do* m; mret Done) in mret (y, roots))
    (λ p w', ∃ m', machine_step (MkMachine v sv) op p.1 m' ∧ sim w' p.2 m') (λ _ _, True) w.
Proof. apply (keep_sim m (λ _, Done)). Qed.

Lemma retains_update {A} a (check : Account → result A StorageError) f :
  retains (let* account := get_or_default a in let* x := mlift (check account) in set_account a (f account x)).
Proof.
  apply retains_bind; [apply retains_bind; [apply retains_get_account|intros ?; apply retains_ret]|].
  intros acc. apply retains_bind; [apply retains_lift|]. intros x. apply retains_set_account.
Qed.

Lemma ws_models_at w root p : kv_ok (store w) → saved_held w root p →
  ws_models D K (world_at_root (store w) root) (MkView p.1 p.2 (kv_contents (store w))).
Proof.
  intros Hkv (c & Hc & Ha & Hok & Hsl). split_and!; [done| | |done].
  - exists c. split_and!; [done..|]. intros a Da. apply (Hsl a Da).
  - intros a x _. by rw /= lru_new_law.
Qed.

(** A read at a saved version. *)
Lemma at_root_ok {A} (m : M (WorldState S) StorageError A) w v root p (out : A) :
  ws_models D K w v → saved_held w root p → retains m →
  (∀ w0, ws_models D K w0 (MkView p.1 p.2 (kv_contents (store w))) →
     wp m (λ x w', ws_models D K w' (MkView p.1 p.2 (kv_contents (store w))) ∧ x = out) (λ _ _, True) w0) →
  wp (at_root root m) (λ x w', ws_models D K w' v ∧ x = out) (λ _ _, True) w.
Proof.
  intros Hw Hp Hm Hr. destruct (Hw) as (Hkv & _ & _ & _).
  specialize (Hr _ (ws_models_at w root p Hkv Hp)). revert Hr. rw /wp /at_root.
  destruct (Hm (world_at_root (store w) root) Hkv) as [Hkv' Hh].
  destruct (m (world_at_root (store w) root)) as [w' [x|]]; [|done]. intros [(_ & _ & _ & Hmeta) ->].
  split; [|done]. apply ws_models_commit; [done..|]. intros k Hk. rw (Hmeta k Hk). done.
Qed.

(** Reads at the current version. *)
Lemma read_sim {A} (m : M (WorldState S) StorageError A) (out : A → world_out) (x0 : A) op w roots v sv R0 :
  sim w roots (MkMachine v sv) → retains m →
  wp m (λ x w', ws_models D K w' v ∧ x = x0) R0 w →
  machine_step (MkMachine v sv) op (out x0) (MkMachine v sv) →
  wp (let* y := (let* x := m in mret (out x)) in mret (y, roots))
    (λ p w', ∃ m', machine_step (MkMachine v sv) op p.1 m' ∧ sim w' p.2 m') (λ _ _, True) w.
Proof.
  intros Hsim Hm Hwp Hstep. apply keep_sim; [done..|]. eapply wp_mono; [done| |done].
  intros x w' [Hw ->]. eauto.
Qed.

Lemma state_root_sim w roots v sv : sim w roots (MkMachine v sv) →
  wp (let* r := state_root in mret (Done, roots ++ [r]))
    (λ p w', ∃ m', machine_step (MkMachine v sv) StateRoot p.1 m' ∧ sim w' p.2 m') (λ _ _, True) w.
Proof.
  intros [Hw Hsv]. apply wp_bind. rw /wp /state_root.
  destruct (trie_root_hash (store w) (account_trie w)) as [[[r|] t] s] eqn:E; [|done].
  destruct Hw as (Hkv & (c & Hc & Ha & Hok & Hsl) & Hcache & Hmeta).
  destruct (trie_root_law _ _ _ _ _ _ Hkv Hc E) as (_ & Ht & Hat).
  destruct (trie_commit_law _ _ _ _ _ Hkv E) as (Hkv' & Hh & Hm).
  exists (MkMachine v (sv ++ [(accounts v, slots v)])). split; [constructor|]. split; [split_and!; simpl|].
  - done.
  - exists c. split_and!; [done..|]. intros a Da. eapply slots_held_mono; [done|]. by apply Hsl.
  - done.
  - intros k Hk. rw Hm //. by apply Hmeta.
  - apply Forall2_app; [by eapply saved_held_mono|]. constructor; [|constructor].
    exists c. split_and!; [done..|]. intros a Da.
    eapply (slots_held_mono K (store w)); [done|]. apply (Hsl a Da).
Qed.

Lemma rollback_sim w roots v sv i r p : sim w roots (MkMachine v sv) → roots !! i = Some r → sv !! i = Some p →
  wp (let* y := (do* rollback_to_root r; mret Done) in mret (y, roots))
    (λ q w', ∃ m', machine_step (MkMachine v sv) (RollbackTo i) q.1 m' ∧ sim w' q.2 m') (λ _ _, True) w.
Proof.
  intros [Hw Hsv] Hr Hp. rw /wp /=. exists (MkMachine (MkView p.1 p.2 (meta v)) sv).
  split; [by constructor|]. destruct Hw as (Hkv & _ & _ & Hmeta). split; [split_and!; simpl|done].
  - done.
  - destruct (Forall2_lookup_lr _ _ _ _ _ _ Hsv Hr Hp) as (c & Hc & Ha & Hok & Hsl). by exists c.
  - intros a x _. by rw lru_clear_law.
  - done.
Qed.

Lemma run_op_sim op w roots m : sim w roots m → op_ok op →
  wp (run_op op roots) (λ p w', ∃ m', machine_step m op p.1 m' ∧ sim w' p.2 m') (λ _ _, True) w.
Proof.
  destruct m as [v sv]. intros Hsim Hop. pose proof (Hsim) as [Hw Hsv]. simpl in Hw.
  assert (Hno : ∀ i, roots !! i = None → sv !! i = None).
  { intros i Hi%lookup_ge_None. apply lookup_ge_None. by rw -(Forall2_length _ _ _ Hsv). }
  destruct op as [a|a b|a n|a n|a k|a k x|k|k x|k| |i|i a|i a k]; cbn [run_op op_ok] in *.
  - eapply read_sim; [done|apply retains_get_account|by apply ws_get_account_ok|constructor].
  - destruct Hop as [Da Hb]. apply keep_sim_unit; [done|apply (retains_update a (λ _, Ok tt) (λ acc _, with_balance acc b))|].
    eapply wp_mono; [exact (set_balance_ok (W := WorldState S) w v a b Hw Da Hb)| |done]. intros ? w' Hw'. eexists. split; [exact Hw'|constructor].
  - destruct Hop as [Da Hb]. apply keep_sim_unit; [done|apply (retains_update a (λ acc, ok_or _ _))|].
    eapply wp_mono; [exact (add_balance_ok (W := WorldState S) w v a n Hw Da (proj1 Hb))| |done]. intros ? w' [? Hw']. eexists. split; [exact Hw'|by constructor].
  - destruct Hop as [Da Hb]. apply keep_sim_unit; [done|apply (retains_update a (λ acc, ok_or _ _))|].
    eapply wp_mono; [exact (sub_balance_ok (W := WorldState S) w v a n Hw Da (proj1 Hb))| |done]. intros ? w' [? Hw']. eexists. split; [exact Hw'|by constructor].
  - destruct Hop. eapply read_sim; [done|apply retains_get_storage|by apply ws_get_storage_ok|constructor].
  - destruct Hop. apply keep_sim_unit; [done|apply retains_set_storage|].
    eapply wp_mono; [by apply (ws_set_storage_ok D K)| |done]. intros ? w' [root Hw']. eexists. split; [exact Hw'|constructor].
  - eapply read_sim; [done|by apply retains_store|by apply ws_store_get_ok|constructor].
  - apply keep_sim_unit; [done|by apply retains_put|].
    eapply wp_mono; [by apply ws_store_put_ok| |done]. intros ? w' Hw'. eexists. split; [exact Hw'|constructor].
  - apply keep_sim_unit; [done|by apply retains_delete|].
    eapply wp_mono; [by apply ws_store_delete_ok| |done]. intros ? w' Hw'. eexists. split; [exact Hw'|constructor].
  - by apply state_root_sim.
  - destruct (roots !! i) as [r|] eqn:Er.
    + destruct (Forall2_lookup_l _ _ _ _ _ Hsv Er) as (p & Hp & _). by eapply rollback_sim.
    + rw /wp /=. eexists. split; [by eapply step_no_version; eauto|done].
  - destruct (roots !! i) as [r|] eqn:Er; [|rw /wp /=; eexists; split; [by eapply step_no_version; eauto|done]].
    destruct (Forall2_lookup_l _ _ _ _ _ Hsv Er) as (p & Hp & Hh).
    eapply (read_sim _ OutAccount (p.1 !! a)); [done|apply retains_at_root, retains_get_account| |by constructor].
    eapply at_root_ok; [done..|apply retains_get_account|]. intros w0 Hw0. by eapply wp_mono; [apply ws_get_account_ok| |].
  - destruct (roots !! i) as [r|] eqn:Er; [|rw /wp /=; eexists; split; [by eapply step_no_version; eauto 6|done]].
    destruct Hop as [Da Kk]. destruct (Forall2_lookup_l _ _ _ _ _ Hsv Er) as (p & Hp & Hh).
    eapply (read_sim _ OutHash (slot (version p) a k)); [done|apply retains_at_root, retains_get_storage| |by constructor].
    eapply at_root_ok; [done..|apply retains_get_storage|]. intros w0 Hw0.
    by eapply wp_mono; [apply ws_get_storage_ok| |].
Qed.

Lemma run_ops_sim ops w roots m : sim w roots m → Forall op_ok ops →
  wp (run_ops ops roots) (λ outs _, ∃ m', machine_run m ops outs m') (λ _ _, True) w.
Proof.
  revert w roots m. induction ops as [|op ops IH]; intros w roots m Hsim Hops.
  { apply wp_ret. eexists. constructor. }
  apply Forall_cons in Hops as [Hop Hops]. apply wp_bind.
  eapply wp_mono; [by apply run_op_sim| |done]. intros [out roots'] w' (m' & Hstep & Hsim'). simpl in *.
  apply wp_bind. eapply wp_mono; [by apply IH| |done]. intros outs w'' [m'' Hrun].
  apply wp_ret. exists m''. by econstructor.
Qed.

Lemma world_new_models s : kv_ok s → ws_models D K (world_new s) (MkView ∅ ∅ (kv_contents s)).
Proof.
  intros Hkv. split_and!; [done| | |done].
  - exists ∅. split_and!; [by apply holds_new|done..|]. intros a Da. rw /slots_held. case_decide as E; [done|by destruct E].
  - intros a x _. by rw /= lru_new_law.
Qed.

(** C8: the world state is a map with versions.  Over any store, trie and cache
    that obey their laws, and as long as no two of the addresses and slots in
    use collide under Keccak-256, a run of reads and writes of accounts,
    balances, slots and raw entries, of commits, rollbacks and historical reads,
    in any order, that meets no error, returns what the abstract machine
    returns: a read sees the last write although it may come from the cache, a
    commit disturbs nothing, a rollback brings back the accounts and slots of
    the version it names and leaves raw entries alone, and an old version stays
    readable for ever. *)
Theorem world_refines s ops outs w' :
  kv_ok s → Forall op_ok ops → run_ops ops [] (world_new s) = (w', Ok outs) →
  ∃ m, machine_run (MkMachine (MkView ∅ ∅ (kv_contents s)) []) ops outs m.
Proof.
  intros Hkv Hops Hrun. assert (Hsim : sim (world_new s) [] (MkMachine (MkView ∅ ∅ (kv_contents s)) [])).
  { split; [by apply world_new_models|constructor]. }
  apply (wp_run _ _ _ _ _ _ Hrun (run_ops_sim ops _ _ _ Hsim Hops)).
Qed.
End refines.

(** ** An instance

    A trie that stores its whole contents under a fresh root, over the
    in-memory store, and a cache of one entry. *)

Inductive mem_trie := InMem (c : contents) | AtRoot (root : ShellHash).

Definition mem_ser (c : contents) : bytes := [Zpos (encode c)].
Definition mem_load (s : MemoryDb) (t : mem_trie) : option contents :=
  match t with
  | InMem c => Some c
  | AtRoot root => match mem_data s !! as_bytes root with Some [Zpos p] => decode p | _ => None end
  end.
Definition mem_free (s : MemoryDb) (c : contents) (root : ShellHash) : Prop :=
  root ≠ ZERO ∧ (mem_data s !! as_bytes root = None ∨ mem_data s !! as_bytes root = Some (mem_ser c)).
#[global] Instance mem_free_dec s c root : Decision (mem_free s c root).
Proof. rw /mem_free. apply _. Defined.

#[global] Instance mem_eth_trie : EthTrie MemoryDb := {|
  trie_new := InMem ∅;
  trie_at_root := AtRoot;
  trie_get s t k := match mem_load s t with Some c => Ok (c !! k) | None => Err "missing node" end;
  trie_insert s t k v :=
    match mem_load s t with Some c => (Ok tt, InMem (<[k := v]> c)) | None => (Err "missing node", t) end;
  trie_remove s t k :=
    match mem_load s t with Some c => (Ok true, InMem (delete k c)) | None => (Err "missing node", t) end;
  trie_root_hash s t :=
    match mem_load s t with
    | Some c =>
        match list_find (mem_free s c) (b256_of_Z <$> seqZ 1 (1 + Z.of_nat (size (mem_data s)))) with
        | Some (_, root) => (Ok root, t, MkMemoryDb (<[as_bytes root := mem_ser c]> (mem_data s)))
        | None => (Err "full", t, s)
        end
    | None => (Err "missing node", t, s)
    end;
|}.

#[global] Instance one_entry_lru : Lru := {|
  lru_t := option (Address * option Account);
  lru_get a c := (match c with Some (b, x) => if decide (a = b) then Some x else None | None => None end, c);
  lru_put a x _ := Some (a, x);
  lru_clear _ := None;
  lru_new := None;
|}.
#[global] Instance one_entry_lru_laws : LruLaws one_entry_lru.
Proof.
  split; [done| |done|done]. intros a b x c y. rw /lru_find /=. case_decide; naive_solver.
Qed.

Lemma mem_root_found s c root i l :
  list_find (mem_free s c) l = Some (i, root) → mem_free s c root.
Proof. intros (_ & ? & _)%list_find_Some. done. Qed.

#[global] Instance mem_trie_laws : TrieLaws MemoryDb.
Proof.
  refine {| holds s (t : trie_t) c := mem_load s t = Some c |}.
  - done.
  - intros s s' [c0|root] c Hs' _; [done|]. cbn [mem_load]. change (mem_data s' !! as_bytes root) with (kv_contents s' !! as_bytes root).
    by rw Hs'; [apply length_as_bytes|].
  - intros s t c k o Ht. cbn [trie_get mem_eth_trie]. rw Ht. by intros [= <-].
  - intros s t c k v t' Ht _. cbn [trie_insert mem_eth_trie]. rw Ht. by intros [= <-].
  - intros s t c k b t' Ht. cbn [trie_remove mem_eth_trie]. rw Ht. by intros [= _ <-].
  - intros s t c r t' s' _ Ht. cbn [trie_root_hash mem_eth_trie]. rw Ht.
    destruct (list_find _ _) as [[i root]|] eqn:E; [|done]. intros [= <- <- <-].
    apply mem_root_found in E as [Hr Hfree]. split_and!; [done| |].
    + destruct t as [c0|root0]; [done|]. cbn [mem_load mem_data] in *.
      destruct (decide (root0 = root)) as [->|Hne]; [by rw lookup_insert_eq /= decode_encode|].
      rw lookup_insert_ne //. intros E%as_bytes_inj. congruence.
    + cbn [mem_load mem_data trie_at_root mem_eth_trie]. by rw lookup_insert_eq /= decode_encode.
  - intros s t r t' s' _. cbn [trie_root_hash mem_eth_trie].
    destruct (mem_load s t) as [c|] eqn:Ht; [|by intros [= <- <- <-]].
    destruct (list_find _ _) as [[i root]|] eqn:E; [|by intros [= <- <- <-]]. intros [= <- <- <-].
    apply mem_root_found in E as [Hr Hfree]. split_and!; [done| |].
    + intros [c0|root0] c1; [done|]. cbn [mem_load mem_data].
      destruct (decide (root0 = root)) as [->|Hne].
      * rw lookup_insert_eq. by destruct Hfree as [-> | ->].
      * rw lookup_insert_ne //. intros E%as_bytes_inj. congruence.
    + intros k Hk. cbn. rw lookup_insert_ne //. intros <-. by rw length_as_bytes in Hk.
Defined.

(** A hash without collisions on 32-byte strings. *)
Definition toy_hashes : Hashes := {| keccak256 l := b256_from_bytes l; blake3_hash l := b256_from_bytes l |}.
Lemma toy_keccak a : keccak256 (Hashes := toy_hashes) (as_bytes a) = a.
Proof. apply b256_from_as_bytes. Qed.

Lemma world_refines_witness :
  let a := b256_of_Z 5 in let k := b256_of_Z 6 in let x := b256_of_Z 7 in
  ∃ m, machine_run (MkMachine (MkView ∅ ∅ (kv_contents memory_new)) [])
    [SetBalance a 10; SetStorage a k x; StateRoot; SubBalance a 4; SetStorage a k ZERO; StorePut [1] [2];
     GetStorage a k; StorageAt 0 a k; RollbackTo 0; GetStorage a k; StoreGet [1]]
    [Done; Done; Done; Done; Done; Done; OutHash ZERO; OutHash x; Done; OutHash x; OutBytes (Some [2])] m.
Proof.
  cbv zeta.
  eapply (world_refines (S := MemoryDb) (Hs := toy_hashes) (λ _, True) (λ _, True)) with (s := memory_new).
  - intros c d _ _. rw /account_key !toy_keccak. done.
  - intros c d _ _. rw /storage_key !toy_keccak. by apply as_bytes_inj.
  - done.
  - repeat constructor; vm_compute; congruence.
  - etransitivity; [apply surjective_pairing|]. apply (f_equal2 pair); [reflexivity|]. vm_compute. reflexivity.
Defined.
