(* ===== verification/Abi.v ===== *)
(** * Calldata of the system contracts

    crates/pqvm/src/system_contracts.rs: errors, selectors, the decoders of ABI
    parameters and the encoders of calldata.  Offsets and lengths are [usize].
    The texts of errors leave out the values they print. *)

From S2P Require Import Prelude Primitives Fee Rlp Transaction TxValidation KvStore Keccak RwSet.

(** [sc_] marks the constructors whose names StorageError and RlpError use;
    [sc_Storage] keeps the error it prints. *)
Inductive SystemContractError :=
| sc_InputTooShort
| UnknownSelector (s : list Z)
| UnknownSystemContract (a : Address)
| Unauthorized
| AlreadyExists (a : Address)
| sc_NotFound (a : Address)
| LastValidator
| EmptyPubkey
| PublicKeyTooLarge (got max : Z)
| ValidatorPubkeyMissing (a : Address)
| InvalidAlgorithm (id : Z)
| ValidationCodeMissing (h : ShellHash)
| AbiDecode (msg : string)
| sc_Storage (e : StorageError)
| InvalidGuardianCount (max got : Z)
| InvalidThreshold (max got : Z)
| TimelockTooShort (min got : Z)
| VotingWindowExpired (deadline : Z)
| InvalidActivationHeight (height min : Z)
| DuplicateVote
| StakingDisabled
| StakeDerivedWeightsActive
| StakeTooLow
| HeightMismatch (height stored : Z)
| GovernanceConflict
| GuardianIsSelf
| DuplicateGuardian
| NotAGuardian
| NoGuardianConfig (a : Address)
| NoRecoveryProposal (a : Address)
| RecoveryNotMature (block : Z)
| RecoveryAlreadyActive.

Abbreviation sc_result A := (result A SystemContractError).

(** ** Selectors *)

Definition REGISTER_PROVER_SELECTOR : list Z := compute_selector (ascii_bytes "registerProver(bytes,uint8)").
Definition SET_VALIDATOR_WEIGHT_SELECTOR : list Z :=
  compute_selector (ascii_bytes "setValidatorWeight(address,uint64)").
Definition SET_VALIDATOR_STAKE_SELECTOR : list Z :=
  compute_selector (ascii_bytes "setValidatorStake(address,uint256)").
Definition BOND_VALIDATOR_STAKE_SELECTOR : list Z :=
  compute_selector (ascii_bytes "bondValidatorStake(address,uint256)").
Definition UNBOND_VALIDATOR_STAKE_SELECTOR : list Z :=
  compute_selector (ascii_bytes "unbondValidatorStake(address,uint256)").
Definition PROPOSE_ALGORITHM_ACTIVATION_SELECTOR : list Z :=
  compute_selector (ascii_bytes "proposeAlgorithmActivation(uint8,uint64,bytes32)").
Definition DEPRECATE_ALGORITHM_SELECTOR : list Z := compute_selector (ascii_bytes "deprecateAlgorithm(uint8)").
Definition SET_GUARDIANS_SELECTOR : list Z :=
  compute_selector (ascii_bytes "setGuardians(address[],uint8,uint64)").
Definition SUBMIT_RECOVERY_SELECTOR : list Z :=
  compute_selector (ascii_bytes "submitRecovery(address,bytes,uint8)").
Definition EXECUTE_RECOVERY_SELECTOR : list Z := compute_selector (ascii_bytes "executeRecovery(address)").
Definition CANCEL_RECOVERY_SELECTOR : list Z := compute_selector (ascii_bytes "cancelRecovery(address)").
Definition SUBMIT_ALGORITHM_PROPOSAL_SELECTOR : list Z :=
  compute_selector
    (ascii_bytes "submitAlgorithmProposal(uint8,bytes32,uint32,uint32,uint64,uint64,bytes32,uint64)").
Definition VOTE_ALGORITHM_PROPOSAL_SELECTOR : list Z :=
  compute_selector (ascii_bytes "voteAlgorithmProposal(uint8,bytes32)").
Definition GET_ALGORITHM_PROPOSAL_SELECTOR : list Z :=
  compute_selector (ascii_bytes "getAlgorithmProposal(bytes32)").

(** ** Constants *)

Definition SYSTEM_CALL_BASE_GAS : Z := 21000.
Definition SYSTEM_CALL_OP_GAS : Z := 5000.
Definition MAX_ACCOUNT_PUBLIC_KEY_BYTES : Z := 4096.

(** ** Decoders *)

(** [slice.get(a..b)] *)
Definition get_range (l : list Z) (a b : Z) : option (list Z) :=
  if (a <=? b) && (b <=? len l) then Some (take (Z.to_nat (b - a)) (drop (Z.to_nat a) l)) else None.

Definition any_nonzero (l : list Z) : bool := existsb (λ b, negb (b =? 0)) l.

Definition sc_decode_selector (input : list Z) : sc_result (list Z) :=
  if len input <? 4 then Err sc_InputTooShort else Ok (take 4 input).

Definition sc_decode_address (input : list Z) : sc_result Address := map_err AbiDecode (decode_address input).

Definition decode_word_usize (word : list Z) : sc_result Z :=
  if len word <? 32 then Err (AbiDecode "expected 32 bytes for ABI word")
  else if any_nonzero (take 24 word) then Err (AbiDecode "ABI word exceeds usize range")
  else Ok (from_be_bytes (take 8 (drop 24 word))).

Definition validate_dynamic_offset (offset head_len input_len : Z) : sc_result unit :=
  if offset <? head_len then Err (AbiDecode "offset points into the static head")
  else if negb (offset mod 32 =? 0) then Err (AbiDecode "offset is not 32-byte aligned")
  else
    match checked_add offset 32 with
    | Some end_ => if input_len <? end_ then Err (AbiDecode "offset points beyond calldata") else Ok tt
    | None => Err (AbiDecode "offset points beyond calldata")
    end.

Definition decode_hash (input : list Z) : sc_result ShellHash :=
  if len input <? 32 then Err (AbiDecode "expected 32 bytes for bytes32")
  else Ok (b256_from_bytes (take 32 input)).

Definition decode_u8 (input : list Z) : sc_result Z :=
  if len input <? 32 then Err (AbiDecode "expected 32 bytes for uint8")
  else if any_nonzero (take 31 input) then Err (AbiDecode "uint8 must be right-aligned in ABI word")
  else ok_or (input !! 31%nat) (AbiDecode "uint8 word too short").

Definition decode_signature_type (input : list Z) : sc_result SignatureType :=
  let? algo_id := decode_u8 input in
  ok_or (sig_type_from_u8 algo_id) (InvalidAlgorithm algo_id).

Definition decode_u64 (input : list Z) : sc_result Z :=
  if len input <? 32 then Err (AbiDecode "expected 32 bytes for uint64")
  else if any_nonzero (take 24 input) then Err (AbiDecode "uint64 value exceeds u64 range")
  else Ok (from_be_bytes (take 8 (drop 24 input))).

Definition decode_algo_activation_params (input : list Z) : sc_result (SignatureType * Z * list Z) :=
  if len input <? 96 then Err (AbiDecode "expected 96 bytes for (uint8, uint64, bytes32)")
  else
    let? algo := decode_signature_type (take 32 input) in
    let? activation_height := decode_u64 (take 32 (drop 32 input)) in
    Ok (algo, activation_height, take 32 (drop 64 input)).

Definition validate_public_key_size (bytes_len : Z) : sc_result unit :=
  if bytes_len =? 0 then Err EmptyPubkey
  else if MAX_ACCOUNT_PUBLIC_KEY_BYTES <? bytes_len
  then Err (PublicKeyTooLarge bytes_len MAX_ACCOUNT_PUBLIC_KEY_BYTES)
  else Ok tt.

Definition decode_rotate_key_params (input : list Z) : sc_result (list Z * Z) :=
  if len input <? 64 then Err (AbiDecode "expected at least 64 bytes for rotateKey head")
  else
    let? offset := decode_word_usize (take 32 input) in
    let? algo_id := decode_u8 (take 32 (drop 32 input)) in
    let? _ := validate_dynamic_offset offset 64 (len input) in
    let? word := ok_or (get_range input offset (sat_add offset 32)) (AbiDecode "bytes offset out of range") in
    let? bytes_len := decode_word_usize word in
    let? _ := validate_public_key_size bytes_len in
    let data_start := sat_add offset 32 in
    let? data_end := ok_or (checked_add data_start bytes_len) (AbiDecode "bytes length overflow") in
    if len input <? data_end then Err (AbiDecode "bytes payload truncated")
    else
      let? pubkey := ok_or (get_range input data_start data_end) (AbiDecode "bytes range out of bounds") in
      Ok (pubkey, algo_id).

Definition decode_address_u64 (input : list Z) : sc_result (Address * Z) :=
  if len input <? 64 then Err (AbiDecode "expected 64 bytes for (address, uint64)")
  else
    let? addr := sc_decode_address (take 32 input) in
    let? weight := decode_u64 (take 32 (drop 32 input)) in
    Ok (addr, weight).

Definition decode_address_u256 (input : list Z) : sc_result (Address * Z) :=
  if len input <? 64 then Err (AbiDecode "expected 64 bytes for (address, uint256)")
  else Ok (b256_from_bytes (take 32 input), from_be_bytes (take 32 (drop 32 input))).

(** ** Encoders *)

Definition encode_bool (val : bool) : list Z := replicate 31 0 ++ [if val then 1 else 0].
Definition encode_usize_word (value : Z) : list Z := replicate 24 0 ++ be_bytes 8 value.
Definition encode_u8_word (value : Z) : list Z := replicate 31 0 ++ [value].
Definition encode_u64_word (value : Z) : list Z := replicate 24 0 ++ be_bytes 8 value.

Definition encode_address_array (addrs : list Address) : list Z :=
  encode_u8_word 32 ++ encode_u64_word (len addrs) ++ (addrs ≫= as_bytes).

(** [data.resize(n, 0)] *)
Definition resize (n : Z) (l : list Z) : list Z :=
  take (Z.to_nat n) l ++ replicate (Z.to_nat n - length l) 0.
Definition padded_len (l : list Z) : Z := sat_mul (div_ceil (len l) 32) 32.

Definition encode_rotate_key_calldata (pubkey : list Z) (algo_id : Z) : list Z :=
  let padded := if (length pubkey =? 0)%nat then 0 else padded_len pubkey in
  let capacity := sat_add (sat_add 4 96) padded in
  resize capacity (ROTATE_KEY_SELECTOR ++ encode_usize_word 64 ++ encode_u8_word algo_id ++
    encode_usize_word (len pubkey) ++ pubkey).
Definition encode_register_prover_calldata (pubkey : list Z) (algorithm : Z) : list Z :=
  REGISTER_PROVER_SELECTOR ++ drop 4 (encode_rotate_key_calldata pubkey algorithm).

Definition encode_set_validation_code_calldata (code_hash : ShellHash) : list Z :=
  SET_VALIDATION_CODE_SELECTOR ++ as_bytes code_hash.
Definition encode_clear_validation_code_calldata : list Z := CLEAR_VALIDATION_CODE_SELECTOR.
Definition encode_add_validator_calldata (address : Address) : list Z :=
  ADD_VALIDATOR_SELECTOR ++ as_bytes address.
Definition encode_remove_validator_calldata (address : Address) : list Z :=
  REMOVE_VALIDATOR_SELECTOR ++ as_bytes address.
Definition encode_set_validator_weight_calldata (address : Address) (weight : Z) : list Z :=
  SET_VALIDATOR_WEIGHT_SELECTOR ++ as_bytes address ++ encode_u64_word weight.
Definition encode_address_u256_calldata (selector : list Z) (address : Address) (value : Z) : list Z :=
  selector ++ as_bytes address ++ be_bytes 32 value.
Definition encode_set_validator_stake_calldata := encode_address_u256_calldata SET_VALIDATOR_STAKE_SELECTOR.
Definition encode_bond_validator_stake_calldata := encode_address_u256_calldata BOND_VALIDATOR_STAKE_SELECTOR.
Definition encode_unbond_validator_stake_calldata := encode_address_u256_calldata UNBOND_VALIDATOR_STAKE_SELECTOR.
Definition encode_propose_algorithm_activation_calldata (algo : SignatureType) (activation_height : Z)
    (verifier_hash : list Z) : list Z :=
  PROPOSE_ALGORITHM_ACTIVATION_SELECTOR ++ encode_u8_word (sig_type_as_u8 algo) ++
  encode_u64_word activation_height ++ verifier_hash.
Definition encode_deprecate_algorithm_calldata (algo : SignatureType) : list Z :=
  DEPRECATE_ALGORITHM_SELECTOR ++ encode_u8_word (sig_type_as_u8 algo).

Definition encode_set_guardians_calldata (guardians : list Address) (threshold timelock : Z) : list Z :=
  SET_GUARDIANS_SELECTOR ++ encode_usize_word 96 ++ encode_u8_word threshold ++ encode_u64_word timelock ++
  encode_usize_word (len guardians) ++ (guardians ≫= as_bytes).
Definition encode_submit_recovery_calldata (account : Address) (new_pubkey : list Z) (new_algo : Z) : list Z :=
  let padded := if (length new_pubkey =? 0)%nat then 0 else padded_len new_pubkey in
  let capacity := sat_add (sat_add (sat_add 4 96) 32) padded in
  resize capacity (SUBMIT_RECOVERY_SELECTOR ++ as_bytes account ++ encode_usize_word 96 ++
    encode_u8_word new_algo ++ encode_usize_word (len new_pubkey) ++ new_pubkey).
Definition encode_execute_recovery_calldata (account : Address) : list Z :=
  EXECUTE_RECOVERY_SELECTOR ++ as_bytes account.
Definition encode_cancel_recovery_calldata (account : Address) : list Z :=
  CANCEL_RECOVERY_SELECTOR ++ as_bytes account.
