(* ===== verification/AccountManager.v ===== *)
(** * The account manager

    The account-management system contract of
    crates/pqvm/src/system_contracts.rs: key rotation, validation code, and
    social recovery, in which guardians vote for a new key that anyone may
    install once a timelock has passed and that the owner may cancel; with
    key_binding.rs and the accessors of crates/storage/src/chain_store.rs it
    uses.

    The JSON forms of the two records (serde_json) are parameters, as are the
    number of the head block and the one field of the chain configuration that
    matters here, which the chain store reads from other keys. *)

From S2P Require Import Prelude Primitives Fee Rlp Transaction TxValidation BTree KvStore Overlay OverlayView OverlayProps OverlayJournal MetadataUndo Keccak RwSet Account Effects World Abi.

Definition MAX_GUARDIANS : Z := 5.
Definition MIN_RECOVERY_TIMELOCK : Z := 100.

Record GuardianConfig := MkGuardianConfig {
  guardians : list Address;
  threshold : Z;
  timelock : Z;
}.
Record RecoveryProposal := MkProposal {
  new_pubkey : list Z;
  new_algo : Z;
  votes : list Address;
  maturity_block : Z;
}.
#[global] Instance GuardianConfig_eq_dec : EqDecision GuardianConfig.
Proof. solve_decision. Defined.
#[global] Instance RecoveryProposal_eq_dec : EqDecision RecoveryProposal.
Proof. solve_decision. Defined.

(** What the chain store reads elsewhere: the number of the head block, and the
    height from which key hashes bind the algorithm. *)
Record ChainEnv := MkChainEnv {
  head_block : result (option Z) StorageError;
  registered_key_algorithm_height : result (option Z) StorageError;
}.

(** [b"c/"] *)
Definition CODE_BY_HASH : bytes := [99; 47].
Definition pubkey_key (address : Address) : bytes := PUBKEY_BY_ADDR ++ as_bytes address.
Definition guardian_config_key (account : Address) : bytes := GUARDIAN_CONFIG ++ as_bytes account.
Definition recovery_proposal_key (account : Address) : bytes := RECOVERY_PROPOSAL ++ as_bytes account.
Definition code_key (code_hash : ShellHash) : bytes := CODE_BY_HASH ++ as_bytes code_hash.

Section manager.
Context {W : Type} {DB : StateDb W} {Hs : Hashes} {JG : Json GuardianConfig} {JP : Json RecoveryProposal}.
Abbreviation MS := (M W StorageError).
Abbreviation MC := (M W SystemContractError).

(** [.map_err(|e| SystemContractError::Storage(e.to_string()))] *)
Definition st {A} (m : MS A) : MC A := mmap_err sc_Storage m.

(** ** Chain store *)

Definition read_json {A} `{Json A} (key : bytes) : MS (option A) :=
  let* b := store_get key in
  match b with
  | None => mret None
  | Some b => let* x := mlift (map_err Codec (from_slice b)) in mret (Some x)
  end.
Definition write_json {A} `{Json A} (key : bytes) (x : A) : MS unit :=
  let* encoded := mlift (map_err Serialization (to_vec x)) in store_put key encoded.

Definition chain_get_pubkey (address : Address) : MS (option bytes) := store_get (pubkey_key address).
Definition chain_put_pubkey (address : Address) (pubkey : bytes) : MS unit := store_put (pubkey_key address) pubkey.
Definition get_code (code_hash : ShellHash) : MS (option bytes) := store_get (code_key code_hash).
Definition get_guardian_config (account : Address) : MS (option GuardianConfig) :=
  read_json (guardian_config_key account).
Definition put_guardian_config (account : Address) (config : GuardianConfig) : MS unit :=
  write_json (guardian_config_key account) config.
Definition get_recovery_proposal (account : Address) : MS (option RecoveryProposal) :=
  read_json (recovery_proposal_key account).
Definition put_recovery_proposal (account : Address) (p : RecoveryProposal) : MS unit :=
  write_json (recovery_proposal_key account) p.
Definition delete_recovery_proposal (account : Address) : MS unit := store_delete (recovery_proposal_key account).

(** ** Keys and validation code *)

(** [key_binding::enabled] *)
Definition key_binding_enabled (env : ChainEnv) (height : Z) : result bool StorageError :=
  let? c := registered_key_algorithm_height env in
  Ok (match c with Some activation => activation <=? height | None => false end).

(** [Address::from_public_key], then the hash with the same bytes. *)
Definition from_public_key (pubkey : list Z) (algo_id : Z) : Address := blake3_hash (algo_id :: pubkey).
Definition algorithm_hash (pubkey : list Z) (algorithm : SignatureType) : ShellHash :=
  from_public_key pubkey (sig_type_as_u8 algorithm).

(** The account, or an empty one. *)
Definition account_or_empty (caller : Address) : MC Account :=
  let* account := st (get_account caller) in
  mret (unwrap_or (MkAccount ZERO 0 0 None None ZERO) account).

Definition with_pubkey_hash (a : Account) (h : ShellHash) : Account :=
  MkAccount h (nonce a) (balance a) (validation_code_hash a) (code_hash a) (storage_root a).
Definition with_validation_code (a : Account) (h : option ShellHash) : Account :=
  MkAccount (pq_pubkey_hash a) (nonce a) (balance a) h (code_hash a) (storage_root a).

Definition rotate_key (caller : Address) (pubkey : list Z) (algo_id : Z) (env : ChainEnv) (block_number : Z) :
    MC unit :=
  if (length pubkey =? 0)%nat then mfail EmptyPubkey
  else
    match sig_type_from_u8 algo_id with
    | None => mfail (InvalidAlgorithm algo_id)
    | Some algo =>
        let* account := account_or_empty caller in
        let* enabled := mlift (map_err sc_Storage (key_binding_enabled env block_number)) in
        let h := if enabled then algorithm_hash pubkey algo else blake3_hash pubkey in
        do* st (set_account caller (with_pubkey_hash account h));
        st (chain_put_pubkey caller pubkey)
    end.

Definition set_validation_code (caller : Address) (code_hash : ShellHash) : MC unit :=
  let* code := st (get_code code_hash) in
  match code with
  | None => mfail (ValidationCodeMissing code_hash)
  | Some _ =>
      let* account := account_or_empty caller in
      st (set_account caller (with_validation_code account (Some code_hash)))
  end.
Definition clear_validation_code (caller : Address) : MC unit :=
  let* account := account_or_empty caller in
  st (set_account caller (with_validation_code account None)).

(** ** Guardians *)

(** The loop over the array's elements. *)
Fixpoint read_guardians (caller : Address) (params : list Z) (elem_start : Z) (indices : list nat)
    (guardians : list Address) : sc_result (list Address) :=
  match indices with
  | [] => Ok guardians
  | i :: indices =>
      let word_start := sat_add elem_start (sat_mul (Z.of_nat i) 32) in
      let? word := ok_or (get_range params word_start (sat_add word_start 32)) (AbiDecode "address OOB") in
      let? addr := sc_decode_address word in
      if bool_decide (addr = caller) then Err GuardianIsSelf
      else if bool_decide (addr ∈ guardians) then Err DuplicateGuardian
      else read_guardians caller params elem_start indices (guardians ++ [addr])
  end.

(** [set_guardians] up to its first use of the store. *)
Definition parse_guardians (caller : Address) (params : list Z) : sc_result GuardianConfig :=
  if len params <? 96 then Err (AbiDecode "setGuardians: params too short")
  else
    let? array_offset := decode_word_usize (take 32 params) in
    let? threshold := decode_u8 (take 32 (drop 32 params)) in
    let? timelock := decode_u64 (take 32 (drop 64 params)) in
    let? _ := validate_dynamic_offset array_offset 96 (len params) in
    let? word :=
      ok_or (get_range params array_offset (sat_add array_offset 32)) (AbiDecode "array length word OOB") in
    let? array_len := decode_word_usize word in
    let elem_start := sat_add array_offset 32 in
    let elem_end := sat_add elem_start (sat_mul array_len 32) in
    if len params <? elem_end then Err (AbiDecode "setGuardians: address array truncated")
    else if (array_len =? 0) || (MAX_GUARDIANS <? array_len)
    then Err (InvalidGuardianCount MAX_GUARDIANS array_len)
    else if (threshold =? 0) || (array_len <? threshold) then Err (InvalidThreshold array_len threshold)
    else if timelock <? MIN_RECOVERY_TIMELOCK then Err (TimelockTooShort MIN_RECOVERY_TIMELOCK timelock)
    else
      let? guardians := read_guardians caller params elem_start (seq 0 (Z.to_nat array_len)) [] in
      Ok (MkGuardianConfig guardians threshold timelock).

Definition set_guardians (caller : Address) (params : list Z) : MC unit :=
  let* config := mlift (parse_guardians caller params) in
  let* active := st (get_recovery_proposal caller) in
  match active with
  | Some _ => mfail RecoveryAlreadyActive
  | None => st (put_guardian_config caller config)
  end.

(** ** Recovery *)

(** [submit_recovery] up to its first use of the store. *)
Definition parse_recovery (params : list Z) : sc_result (Address * list Z * Z) :=
  if len params <? 96 then Err (AbiDecode "submitRecovery: params too short")
  else
    let? account := sc_decode_address (take 32 params) in
    let? bytes_offset := decode_word_usize (take 32 (drop 32 params)) in
    let? new_algo := decode_u8 (take 32 (drop 64 params)) in
    let? _ := ok_or (sig_type_from_u8 new_algo) (InvalidAlgorithm new_algo) in
    let? _ := validate_dynamic_offset bytes_offset 96 (len params) in
    let? word := ok_or (get_range params bytes_offset (sat_add bytes_offset 32)) (AbiDecode "bytes len OOB") in
    let? bytes_len := decode_word_usize word in
    let data_start := sat_add bytes_offset 32 in
    let? data_end := ok_or (checked_add data_start bytes_len) (AbiDecode "bytes len overflow") in
    if len params <? data_end then Err (AbiDecode "submitRecovery: pubkey truncated")
    else if bytes_len =? 0 then Err EmptyPubkey
    else
      let? _ := validate_public_key_size bytes_len in
      let? new_pubkey := ok_or (get_range params data_start data_end) (AbiDecode "pubkey range OOB") in
      Ok (account, new_pubkey, new_algo).

Definition head_number (env : ChainEnv) : result Z SystemContractError :=
  let? head := map_err sc_Storage (head_block env) in Ok (unwrap_or 0 head).

(** The vote on a proposal that already matches. *)
Definition vote_recovery (caller account : Address) (config : GuardianConfig) (p : RecoveryProposal) (env : ChainEnv) :
    MC unit :=
  if bool_decide (caller ∈ votes p) then mret tt
  else
    let votes := votes p ++ [caller] in
    let* maturity :=
      if (maturity_block p =? 0) && (threshold config <=? len votes)
      then let* current := mlift (head_number env) in mret (sat_add current (timelock config))
      else mret (maturity_block p) in
    st (put_recovery_proposal account (MkProposal (new_pubkey p) (new_algo p) votes maturity)).

Definition submit_recovery (caller : Address) (params : list Z) (env : ChainEnv) : MC unit :=
  let* r := mlift (parse_recovery params) in
  let '(account, pubkey, algo) := r in
  let* config := st (get_guardian_config account) in
  match config with
  | None => mfail (NoGuardianConfig account)
  | Some config =>
      if negb (bool_decide (caller ∈ guardians config)) then mfail NotAGuardian
      else
        let* proposal := st (get_recovery_proposal account) in
        let proposal := unwrap_or (MkProposal pubkey algo [] 0) proposal in
        if negb (bool_decide (new_pubkey proposal = pubkey)) || negb (new_algo proposal =? algo)
        then mfail RecoveryAlreadyActive
        else vote_recovery caller account config proposal env
  end.

Definition execute_recovery (account : Address) (env : ChainEnv) (block_number : Z) : MC unit :=
  let* proposal := st (get_recovery_proposal account) in
  match proposal with
  | None => mfail (NoRecoveryProposal account)
  | Some p =>
      if maturity_block p =? 0 then mfail (RecoveryNotMature 0)
      else
        let* current := mlift (head_number env) in
        if current <? maturity_block p then mfail (RecoveryNotMature (maturity_block p))
        else
          do* rotate_key account (new_pubkey p) (new_algo p) env block_number;
          st (delete_recovery_proposal account)
  end.

Definition cancel_recovery (caller account : Address) : MC unit :=
  if negb (bool_decide (caller = account)) then mfail Unauthorized
  else
    let* proposal := st (get_recovery_proposal account) in
    match proposal with
    | None => mfail (NoRecoveryProposal account)
    | Some _ => st (delete_recovery_proposal account)
    end.

(** ** Dispatch *)

Record SystemContractEffects := MkEffects { validator_set_changed : bool; updated_accounts : list Address }.
Record SystemContractOutcome := MkOutcome {
  output : list Z;
  gas_used : Z;
  effects : SystemContractEffects;
}.

(** [Ok] with [true], the given gas and accounts. *)
Definition outcome (gas : Z) (updated : list Address) : SystemContractOutcome :=
  MkOutcome (encode_bool true) gas (MkEffects false updated).

Definition execute_account_manager (caller : Address) (input : list Z) (env : ChainEnv) (block_number : Z) :
    MC SystemContractOutcome :=
  let* selector := mlift (sc_decode_selector input) in
  let params := drop 4 input in
  let op_gas := sat_add SYSTEM_CALL_BASE_GAS SYSTEM_CALL_OP_GAS in
  let two_op_gas := sat_add SYSTEM_CALL_BASE_GAS (sat_mul SYSTEM_CALL_OP_GAS 2) in
  if bool_decide (selector = ROTATE_KEY_SELECTOR) then
    let* p := mlift (decode_rotate_key_params params) in
    do* rotate_key caller p.1 p.2 env block_number;
    mret (outcome op_gas [caller])
  else if bool_decide (selector = SET_VALIDATION_CODE_SELECTOR) then
    let* code_hash := mlift (decode_hash params) in
    do* set_validation_code caller code_hash;
    mret (outcome op_gas [caller])
  else if bool_decide (selector = CLEAR_VALIDATION_CODE_SELECTOR) then
    do* clear_validation_code caller;
    mret (outcome op_gas [caller])
  else if bool_decide (selector = SET_GUARDIANS_SELECTOR) then
    do* set_guardians caller params;
    mret (outcome op_gas [])
  else if bool_decide (selector = SUBMIT_RECOVERY_SELECTOR) then
    do* submit_recovery caller params env;
    mret (outcome two_op_gas [])
  else if bool_decide (selector = EXECUTE_RECOVERY_SELECTOR) then
    let* account := mlift (sc_decode_address params) in
    do* execute_recovery account env block_number;
    mret (outcome two_op_gas [account])
  else if bool_decide (selector = CANCEL_RECOVERY_SELECTOR) then
    let* account := mlift (sc_decode_address params) in
    do* cancel_recovery caller account;
    mret (outcome op_gas [])
  else mfail (UnknownSelector selector).
End manager.
