(* ===== verification/Registry.v ===== *)
(** * The validator registry

    The validator-registry system contract of
    crates/pqvm/src/system_contracts.rs: validators vote on additions, removals,
    weights, stakes and provers; with staking enabled each validator bonds and
    unbonds its own stake.  The code uses the registry's slots, balances and the
    public keys of the chain store through the interface [RegDb]. *)

From S2P Require Import Prelude Primitives Fee Rlp Transaction TxValidation TxCodec BTree KvStore Overlay OverlayView OverlayProps OverlayJournal MetadataUndo Keccak RwSet Account Effects World RegistryKeys Cells Abi AccountManager.

Class RegDb (W : Type) := {
  reg_cells :: Cells W;
  bal_get : Address → M W StorageError Z;
  bal_set : Address → Z → M W StorageError unit;
  bal_add : Address → Z → M W StorageError unit;
  bal_sub : Address → Z → M W StorageError unit;
  key_get : Address → M W StorageError (option bytes);
}.
#[global] Instance state_reg {W} {DB : StateDb W} {Hs : Hashes} : RegDb W := {|
  bal_get := get_balance;
  bal_set := set_balance;
  bal_add := add_balance;
  bal_sub := sub_balance;
  key_get := chain_get_pubkey;
|}.

(** [u128] addition and multiplication wrap. *)
Definition wrap_u128 (x : Z) : Z := x mod (u128_max + 1).

Section registry.
Context {W : Type} {RD : RegDb W}.
Abbreviation MC := (M W SystemContractError).

(** ** Votes *)

(** The value of a ballot: [[1u8; 32]]. *)
Definition BALLOT : ShellHash := b256_from_bytes (replicate 32 1).

(** The loop that sums the weights of all validators and of those that voted. *)
Fixpoint tally (op : ValidatorRegistryOp) (target : Address) (validators rest : list Address)
    (voted_weight total_weight : Z) : MC (Z * Z) :=
  match rest with
  | [] => mret (voted_weight, total_weight)
  | validator :: rest =>
      let* weight := st (get_validator_weight validator) in
      let total_weight := wrap_u128 (total_weight + weight) in
      let* value := st (cell_get (LVote op target validator validators)) in
      tally op target validators rest
        (if bool_decide (value = ZERO) then voted_weight else wrap_u128 (voted_weight + weight)) total_weight
  end.
Definition quorum_reached (op : ValidatorRegistryOp) (voted_weight total_weight : Z) : bool :=
  match op with
  | Add | Remove | RegisterProver => total_weight <? wrap_u128 (voted_weight * 2)
  | SetWeight _ | SetStake _ => wrap_u128 (total_weight * 2) <? wrap_u128 (voted_weight * 3)
  end.
Definition record_validator_vote (op : ValidatorRegistryOp) (target caller : Address) (validators : list Address) :
    MC bool :=
  do* st (cell_set (LVote op target caller validators) BALLOT);
  let* t := tally op target validators validators 0 0 in
  mret (quorum_reached op t.1 t.2).

(** ** Stakes *)

Definition ensure_staking_enabled : MC unit :=
  let* enabled := st staking_enabled in
  if enabled then mret tt else mfail StakingDisabled.

Definition derived_weight (stake : Z) : MC Z :=
  let* stake_unit := st get_stake_unit in
  let* max_weight := st get_max_validator_weight in
  mlift (map_err sc_Storage (derive_validator_weight_from_stake stake stake_unit max_weight)).

Definition validate_validator_stake_total (target : Address) (new_stake : Z) : MC (Z * Z) :=
  let* old_stake := st (get_validator_stake target) in
  let* total_staked := st get_total_staked in
  let* updated_total :=
    mlift (if old_stake <=? new_stake
           then ok_or (checked_add_u256 total_staked (new_stake - old_stake)) (AbiDecode "total staked overflow")
           else ok_or (checked_sub_u256 total_staked (old_stake - new_stake)) (AbiDecode "total staked underflow")) in
  mret (old_stake, updated_total).

Definition apply_validator_stake (target : Address) (new_stake : Z) : MC unit :=
  let* t := validate_validator_stake_total target new_stake in
  let* stake_unit := st get_stake_unit in
  let* max_weight := st get_max_validator_weight in
  let* weight := mlift (map_err sc_Storage (derive_validator_weight_from_stake new_stake stake_unit max_weight)) in
  if weight =? 0 then mfail StakeTooLow
  else
    do* st (set_validator_stake_and_weight target new_stake stake_unit max_weight);
    st (set_total_staked t.2).

(** ** Operations *)

(** The part of [add_validator] that runs once the vote has passed. *)
Definition admit_validator (target : Address) (validators : list Address) : MC bool :=
  do* st (set_validators (validators ++ [target]));
  let* enabled := st staking_enabled in
  do* (if enabled then let* stake := st (get_validator_stake target) in apply_validator_stake target stake
       else st (set_validator_weight target 1));
  mret true.

(** [with_keys] says whether there is a chain store. *)
Definition add_validator (caller target : Address) (with_keys : bool) : MC bool :=
  let* validators := st get_validators in
  if negb (bool_decide (caller ∈ validators)) then mfail Unauthorized
  else if bool_decide (target ∈ validators) then mfail (AlreadyExists target)
  else
    do* (if with_keys then
           let* key := st (key_get target) in
           match key with None => mfail (ValidatorPubkeyMissing target) | Some _ => mret tt end
         else mret tt);
    let* enabled := st staking_enabled in
    do* (if enabled then
           let* stake := st (get_validator_stake target) in
           let* weight := derived_weight stake in
           if weight =? 0 then mfail StakeTooLow else mret tt
         else mret tt);
    let* passed := record_validator_vote Add target caller validators in
    if passed then admit_validator target validators else mret false.

(** [validators.remove(pos)] at the first position of [target]. *)
Fixpoint remove_first (target : Address) (l : list Address) : list Address :=
  match l with
  | [] => []
  | v :: l => if bool_decide (v = target) then l else v :: remove_first target l
  end.
Definition remove_validator (caller target : Address) : MC bool :=
  let* validators := st get_validators in
  if negb (bool_decide (caller ∈ validators)) then mfail Unauthorized
  else if len validators <=? 1 then mfail LastValidator
  else if negb (bool_decide (target ∈ validators)) then mfail (sc_NotFound target)
  else
    let* passed := record_validator_vote Remove target caller validators in
    if passed then do* st (set_validators (remove_first target validators)); mret true else mret false.

Definition set_validator_weight_op (caller target : Address) (new_weight : Z) : MC bool :=
  let* enabled := st staking_enabled in
  if (enabled : bool) then mfail StakeDerivedWeightsActive
  else
    let* validators := st get_validators in
    if negb (bool_decide (caller ∈ validators)) then mfail Unauthorized
    else if negb (bool_decide (target ∈ validators)) then mfail (sc_NotFound target)
    else if new_weight =? 0 then mfail (AbiDecode "validator weight must be at least 1")
    else if MAX_VALIDATOR_WEIGHT <? new_weight then mfail (AbiDecode "validator weight must be at most")
    else
      let* passed := record_validator_vote (SetWeight new_weight) target caller validators in
      if passed then do* st (set_validator_weight target new_weight); mret true else mret false.

(** The balance of the target after its stake changes. *)
Definition updated_balance (current old_stake new_stake : Z) : sc_result Z :=
  if old_stake <? new_stake then
    if current <? new_stake - old_stake then Err (sc_Storage (StateError "insufficient balance"))
    else Ok (current - (new_stake - old_stake))
  else if new_stake <? old_stake then
    ok_or (checked_add_u256 current (old_stake - new_stake)) (sc_Storage (StateError "balance overflow"))
  else Ok current.
Definition set_validator_stake_op (caller target : Address) (new_stake : Z) : MC bool :=
  do* ensure_staking_enabled;
  let* validators := st get_validators in
  if negb (bool_decide (caller ∈ validators)) then mfail Unauthorized
  else
    let* weight := derived_weight new_stake in
    if weight =? 0 then mfail StakeTooLow
    else
      let* passed := record_validator_vote (SetStake new_stake) target caller validators in
      if passed then
        let* t := validate_validator_stake_total target new_stake in
        let* current := st (bal_get target) in
        let* updated := mlift (updated_balance current t.1 new_stake) in
        do* apply_validator_stake target new_stake;
        do* (if negb (updated =? current) then st (bal_set target updated) else mret tt);
        mret true
      else mret false.

Definition bond_validator_stake (caller target : Address) (amount : Z) : MC bool :=
  do* ensure_staking_enabled;
  if negb (bool_decide (caller = target)) then mfail Unauthorized
  else
    let* validators := st get_validators in
    if negb (bool_decide (target ∈ validators)) then mfail (sc_NotFound target)
    else
      let* current := st (get_validator_stake target) in
      let* updated := mlift (ok_or (checked_add_u256 current amount) (AbiDecode "validator stake overflow")) in
      let* weight := derived_weight updated in
      if weight =? 0 then mfail StakeTooLow
      else
        do* validate_validator_stake_total target updated;
        do* st (bal_sub caller amount);
        do* apply_validator_stake target updated;
        mret true.

Definition unbond_validator_stake (caller target : Address) (amount : Z) : MC bool :=
  do* ensure_staking_enabled;
  if negb (bool_decide (caller = target)) then mfail Unauthorized
  else
    let* validators := st get_validators in
    if negb (bool_decide (target ∈ validators)) then mfail (sc_NotFound target)
    else
      let* current := st (get_validator_stake target) in
      if current <? amount then mfail (AbiDecode "cannot unbond more than validator stake")
      else
        let updated := current - amount in
        let* weight := derived_weight updated in
        if weight =? 0 then mfail StakeTooLow
        else
          do* apply_validator_stake target updated;
          do* st (bal_add caller amount);
          mret true.
End registry.
