(* ===== verification/Governance.v ===== *)
(** * Governance of signature algorithms

    The part of crates/pqvm/src/system_contracts.rs by which validators activate
    and deprecate signature algorithms, its explicit proposals
    (system_contracts/algorithm_proposals.rs), the settings of the chain it
    depends on (crates/storage/src/chain_store.rs), and the dispatchers of the
    system contracts.

    The registry of algorithms in force is part of the state, class [GovDb];
    serde_json's form of the genesis key bindings is a parameter. *)

From S2P Require Import Prelude Primitives Fee Rlp Transaction TxValidation TxCodec BTree KvStore Overlay OverlayView OverlayProps OverlayJournal MetadataUndo Keccak RwSet Account Effects World RegistryKeys Cells AlgorithmRegistry Abi AccountManager Registry.

(** ** Settings of the chain *)

Definition ALGORITHM_VOTING_WINDOW_SECONDS : Z := 7 * 24 * 60 * 60.

Record AlgorithmVotingWindow := MkWindow {
  window_activation_height : Z;
  block_time_secs : Z;
}.
Definition duration_blocks (w : AlgorithmVotingWindow) : result Z StorageError :=
  let e := StateError "algorithm voting interval must be between one second and seven days" in
  if block_time_secs w =? 0 then Err e
  else
    let blocks := ALGORITHM_VOTING_WINDOW_SECONDS / block_time_secs w in
    if 0 <? blocks then Ok blocks else Err e.
Definition window_validate (w : AlgorithmVotingWindow) (staging_height : option Z) : result unit StorageError :=
  let? _ := duration_blocks w in
  if match staging_height with Some h => window_activation_height w <? h | None => true end
  then Err (StateError "algorithm voting window requires proposal staging no later than its activation")
  else Ok tt.

(** The identity of the chain and the first blocks of its scheduled rules. *)
Record ChainConfig := MkChainConfig {
  cfg_chain_id : Z;
  cfg_genesis_hash : ShellHash;
  fee_accounting_activation_height : option Z;
  bloom_activation_height : option Z;
  log_address_activation_height : option Z;
  algorithm_voting_window : option AlgorithmVotingWindow;
  algorithm_proposal_identity_height : option Z;
  algorithm_deprecation_height : option Z;
  algorithm_session_deprecation_height : option Z;
  algorithm_paymaster_deprecation_height : option Z;
  algorithm_activation_admission_height : option Z;
  validation_pqvm_height : option Z;
  validation_deprecation_height : option Z;
  session_registered_root_height : option Z;
  paymaster_registered_root_height : option Z;
  cfg_registered_key_algorithm_height : option Z;
  aa_account_manager_height : option Z;
  aa_validator_registry_height : option Z;
  emergency_governance_height : option Z;
  native_registry_view_height : option Z;
  pq_address_bounds_height : option Z;
  native_address_context_height : option Z;
  native_validator_events_height : option Z;
  prover_registry_height : option Z;
  algorithm_proposal_staging_height : option Z;
  algorithm_quorum_activation_height : option Z;
  algorithm_timelock_activation_height : option Z;
}.
Definition validate_algorithm_governance (c : ChainConfig) : result unit StorageError :=
  let? _ :=
    match algorithm_voting_window c with
    | Some w => window_validate w (algorithm_proposal_staging_height c)
    | None => Ok tt
    end in
  match algorithm_proposal_identity_height c with
  | Some identity_height =>
      if match algorithm_voting_window c with
         | Some w => identity_height <? window_activation_height w
         | None => true
         end
      then Err (StateError "algorithm proposal identity requires voting window no later than its activation")
      else Ok tt
  | None => Ok tt
  end.

(** What the chain store returns for its configuration and the head block. *)
Record GovEnv := MkGovEnv {
  get_chain_config : result (option ChainConfig) StorageError;
  get_head_number : result (option Z) StorageError;
}.

(** ** State *)

Class GovDb (W : Type) := {
  gov_reg :: RegDb W;
  fallback_get : Address → M W StorageError (option bytes);
  alg_registry : W → AlgorithmRegistry;
  alg_update : (AlgorithmRegistry → AlgorithmRegistry) → W → W;
}.

(** [b"governance/genesis-bindings/v1"] *)
Definition GENESIS_BINDINGS : bytes := ascii_bytes "governance/genesis-bindings/v1".
Definition hex_digit (n : Z) : Ascii.ascii := Ascii.ascii_of_nat (Z.to_nat (if n <? 10 then 48 + n else 87 + n)).
(** [hex::encode] *)
Fixpoint hex_encode (l : list Z) : string :=
  match l with
  | [] => EmptyString
  | b :: l => String (hex_digit (b / 16)) (String (hex_digit (b mod 16)) (hex_encode l))
  end.

(** A database with the registry of algorithms beside it. *)
Section pair.
Context {W R : Type} {DB : StateDb W}.
Definition on_left {A} (m : M W StorageError A) : M (W * R) StorageError A := λ p,
  match m p.1 with (w, r) => ((w, p.2), r) end.
#[global] Instance pair_db : StateDb (W * R) := {|
  get_account a := on_left (get_account a);
  set_account a acc := on_left (set_account a acc);
  get_storage a k := on_left (get_storage a k);
  set_storage a k x := on_left (set_storage a k x);
  store_get k := on_left (store_get k);
  store_put k x := on_left (store_put k x);
  store_delete k := on_left (store_delete k);
|}.
End pair.

Section fallback.
Context {W : Type} {DB : StateDb W} {JB : Json (gmap string (bytes * bytes))}.
Definition get_governance_fallback_key (address : Address) : M W StorageError (option bytes) :=
  let* encoded := store_get GENESIS_BINDINGS in
  match encoded with
  | None => mret None
  | Some encoded =>
      let* bindings := mlift (map_err Serialization (from_slice encoded)) in
      mret (snd <$> (bindings : gmap string (bytes * bytes)) !! hex_encode (as_bytes address))
  end.
End fallback.
#[global] Instance state_gov {W} {DB : StateDb W} {Hs : Hashes} {JB : Json (gmap string (bytes * bytes))} :
  GovDb (W * AlgorithmRegistry) := {|
  fallback_get := get_governance_fallback_key;
  alg_registry := snd;
  alg_update f p := (p.1, f p.2);
|}.

(** ** Rules in force at a block *)

Definition ALGO_GOVERNANCE_DELTA_MIN : Z := 500000.
Definition ALGO_GOVERNANCE_TARGET_DELTA_MIN : Z := 1296000.

Record AlgorithmActivationRules := MkRules {
  minimum_height : Z;
  require_quorum : bool;
  stage_proposals : bool;
  voting_window : option (Z * Z);
  proposal_identity : bool;
  vote_op : AlgorithmGovernanceOp;
}.

Definition activated (block_number height : option Z) : bool :=
  match height, block_number with Some activation, Some number => activation <=? number | _, _ => false end.
Definition config_field (config : option ChainConfig) (f : ChainConfig → option Z) : option Z :=
  match config with Some c => f c | None => None end.

Definition rules_window (config : option ChainConfig) (block_number : option Z) : sc_result (option (Z * Z)) :=
  match config with
  | Some c =>
      match algorithm_voting_window c with
      | Some w =>
          if activated block_number (Some (window_activation_height w)) then
            let? blocks := map_err sc_Storage (duration_blocks w) in Ok (Some (unwrap_or 0 block_number, blocks))
          else Ok None
      | None => Ok None
      end
  | None => Ok None
  end.
Definition rules_minimum_height (target_delay : bool) (chain_store : option GovEnv) (block_number : option Z) :
    sc_result Z :=
  if target_delay then
    ok_or (checked_add (unwrap_or 0 block_number) ALGO_GOVERNANCE_TARGET_DELTA_MIN)
      (AbiDecode "algorithm timelock exceeds block height range")
  else
    let? current_height :=
      match chain_store with
      | Some env => let? head := map_err sc_Storage (get_head_number env) in Ok (unwrap_or 0 head)
      | None => Ok 0
      end in
    Ok (sat_add current_height ALGO_GOVERNANCE_DELTA_MIN).

Definition algorithm_activation_rules (chain_store : option GovEnv) (block_number : option Z) :
    sc_result AlgorithmActivationRules :=
  let? config := match chain_store with Some env => map_err sc_Storage (get_chain_config env) | None => Ok None end in
  let active f := activated block_number (config_field config f) in
  let? window := rules_window config block_number in
  let? minimum := rules_minimum_height (active algorithm_timelock_activation_height) chain_store block_number in
  Ok (MkRules minimum (active algorithm_quorum_activation_height) (active algorithm_proposal_staging_height) window
    (active algorithm_proposal_identity_height) ProposeActivation).

(** ** Words *)

Definition encode_algorithm_status (status : AlgorithmStatus) : ShellHash :=
  b256_from_bytes (replicate 31 0 ++
    [match status with Active => 1 | Deprecated => 2 | PendingActivation => 3 end]).
Definition encode_u64_as_hash (value : Z) : ShellHash := b256_from_bytes (replicate 24 0 ++ be_bytes 8 value).
Definition decode_u64_from_hash (h : ShellHash) : Z := from_be_bytes (drop 24 (as_bytes h)).

Section governance.
Context {W : Type} {GD : GovDb W}.
Abbreviation MC := (M W SystemContractError).

(** algorithm_proposals.rs: [read] and [write]. *)
Definition read (l : label) : MC ShellHash := st (cell_get l).
Definition write (l : label) (x : ShellHash) : MC unit := st (cell_set l x).
(** A change of the registry of algorithms. *)
Definition alg_modify (f : AlgorithmRegistry → AlgorithmRegistry) : MC unit := λ w, (alg_update f w, Ok tt).

(** ** Votes *)

Fixpoint alg_tally (op : AlgorithmGovernanceOp) (algo : SignatureType) (validators rest : list Address)
    (voted_weight total_weight : Z) : MC (Z * Z) :=
  match rest with
  | [] => mret (voted_weight, total_weight)
  | validator :: rest =>
      let* weight := st (get_validator_weight validator) in
      let total_weight := sat_add total_weight weight in
      let* value := read (LAlgVote op algo validator validators) in
      alg_tally op algo validators rest
        (if bool_decide (value = ZERO) then voted_weight else sat_add voted_weight weight) total_weight
  end.
(** The products fit in [u128]. *)
Definition record_algorithm_vote (op : AlgorithmGovernanceOp) (algo : SignatureType) (caller : Address)
    (validators : list Address) : MC bool :=
  do* write (LAlgVote op algo caller validators) BALLOT;
  let* t := alg_tally op algo validators validators 0 0 in
  mret (t.2 * 2 <=? t.1 * 3).

Definition store_algorithm_status (algo : SignatureType) (status : AlgorithmStatus) : MC unit :=
  write (LAlg Status algo) (encode_algorithm_status status).
Definition publish_algorithm_proposal (algo : SignatureType) (activation_height : Z) (verifier_hash : list Z) : MC unit :=
  do* alg_modify (propose_activation_with_spec algo activation_height verifier_hash);
  do* store_algorithm_status algo PendingActivation;
  do* write (LAlg ActivationHeight algo) (encode_u64_as_hash activation_height);
  write (LAlg VerifierHash algo) (b256_from_bytes verifier_hash).

(** ** Legacy proposals *)

(** [guard_legacy] *)
Definition guard_legacy (algo : SignatureType) : MC unit :=
  let* current := read (LAlg CurrentProposal algo) in
  if negb (bool_decide (current = ZERO))
  then mfail (AbiDecode "algorithm proposal requires an explicit ID-bound vote")
  else
    let* height := read (LAlg ProposalHeight algo) in
    if negb (bool_decide (height = ZERO)) then mret tt
    else
      let* status := read (LAlg Status algo) in
      if bool_decide (status = encode_algorithm_status PendingActivation) then mret tt
      else mfail (AbiDecode "use submitAlgorithmProposal and voteAlgorithmProposal").

(** The deadline of an open candidate has not passed. *)
Definition check_deadline (rules : AlgorithmActivationRules) (stored_height deadline : ShellHash) : sc_result unit :=
  if negb (bool_decide (stored_height = ZERO)) && negb (bool_decide (deadline = ZERO)) then
    let? number :=
      ok_or (fst <$> voting_window rules) (AbiDecode "algorithm voting deadline requires execution context") in
    let deadline := decode_u64_from_hash deadline in
    if deadline <=? number then Err (VotingWindowExpired deadline) else Ok tt
  else Ok tt.
(** The deadline of a candidate this vote opens. *)
Definition opening_deadline (rules : AlgorithmActivationRules) (stored_height : ShellHash) : sc_result (option Z) :=
  if bool_decide (stored_height = ZERO) then
    match voting_window rules with
    | Some (number, blocks) =>
        let? d := ok_or (checked_add number blocks)
          (AbiDecode "algorithm voting deadline exceeds block height range") in Ok (Some d)
    | None => Ok None
    end
  else Ok None.

(** [propose_algorithm_activation_op] with candidates kept apart until quorum. *)
Definition propose_staged (caller : Address) (algo : SignatureType) (activation_height : Z) (verifier_hash : list Z)
    (rules : AlgorithmActivationRules) (validators : list Address) : MC bool :=
  let* stored_height := read (LAlg ProposalHeight algo) in
  let* deadline := read (LAlg VotingDeadline algo) in
  do* mlift (check_deadline rules stored_height deadline);
  let* new_deadline := mlift (opening_deadline rules stored_height) in
  do* (if bool_decide (stored_height = ZERO) then
         do* write (LAlg ProposalHeight algo) (encode_u64_as_hash activation_height);
         write (LAlg ProposalVerifier algo) (b256_from_bytes verifier_hash)
       else if negb (bool_decide (stored_height = encode_u64_as_hash activation_height))
       then mfail (HeightMismatch activation_height (decode_u64_from_hash stored_height))
       else
         let* stored_verifier := read (LAlg ProposalVerifier algo) in
         if negb (bool_decide (stored_verifier = b256_from_bytes verifier_hash)) then mfail GovernanceConflict
         else mret tt);
  do* match new_deadline with
      | Some d => write (LAlg VotingDeadline algo) (encode_u64_as_hash d)
      | None => mret tt
      end;
  let* passed := record_algorithm_vote (vote_op rules) algo caller validators in
  if negb passed then mret false
  else
    do* publish_algorithm_proposal algo activation_height verifier_hash;
    do* mfor (λ k, write (LAlg k algo) (encode_u64_as_hash 1)) [QuorumRequired; QuorumApproved];
    do* mfor (λ k, write (LAlg k algo) ZERO)
          ([ProposalHeight; ProposalVerifier] ++
           if negb (bool_decide (deadline = ZERO)) || bool_decide (is_Some new_deadline)
           then [VotingDeadline] else []);
    mret true.

(** The rest of it: the first vote publishes the proposal, later ones must
    match it. *)
Definition propose_published (caller : Address) (algo : SignatureType) (activation_height : Z) (verifier_hash : list Z)
    (rules : AlgorithmActivationRules) (validators : list Address) (is_pending : bool) : MC bool :=
  do* (if is_pending then
         let* stored_height := read (LAlg ActivationHeight algo) in
         if negb (bool_decide (stored_height = encode_u64_as_hash activation_height))
         then mfail (HeightMismatch activation_height (decode_u64_from_hash stored_height))
         else
           let* stored_verifier := read (LAlg VerifierHash algo) in
           if negb (bool_decide (stored_verifier = b256_from_bytes verifier_hash)) then mfail GovernanceConflict
           else mret tt
       else
         do* (if require_quorum rules then
                do* write (LAlg QuorumRequired algo) (encode_u64_as_hash 1);
                write (LAlg QuorumApproved algo) ZERO
              else mret tt);
         publish_algorithm_proposal algo activation_height verifier_hash);
  let* passed := record_algorithm_vote (vote_op rules) algo caller validators in
  if negb passed then mret false
  else
    let* required := read (LAlg QuorumRequired algo) in
    do* (if negb (bool_decide (required = ZERO)) then write (LAlg QuorumApproved algo) (encode_u64_as_hash 1)
         else mret tt);
    mret true.

Definition propose_algorithm_activation_op (caller : Address) (algo : SignatureType) (activation_height : Z)
    (verifier_hash : list Z) (rules : AlgorithmActivationRules) : MC bool :=
  let* validators := st get_validators in
  if negb (bool_decide (caller ∈ validators)) then mfail Unauthorized
  else
    do* (if proposal_identity rules then guard_legacy algo else mret tt);
    if activation_height <? minimum_height rules
    then mfail (InvalidActivationHeight activation_height (minimum_height rules))
    else
      let* already_voted := read (LAlgVote (vote_op rules) algo caller validators) in
      if negb (bool_decide (already_voted = ZERO)) then mfail DuplicateVote
      else
        let* status := read (LAlg Status algo) in
        let is_pending := bool_decide (status = encode_algorithm_status PendingActivation) in
        if stage_proposals rules && negb is_pending
        then propose_staged caller algo activation_height verifier_hash rules validators
        else propose_published caller algo activation_height verifier_hash rules validators is_pending.

Definition deprecate_algorithm_with_op (caller : Address) (algo : SignatureType) (op : AlgorithmGovernanceOp) : MC bool :=
  let* validators := st get_validators in
  if negb (bool_decide (caller ∈ validators)) then mfail Unauthorized
  else
    let* passed := record_algorithm_vote op algo caller validators in
    if negb passed then mret false
    else
      do* alg_modify (alg_deprecate algo);
      do* store_algorithm_status algo Deprecated;
      mret true.
Definition deprecate_algorithm_op (caller : Address) (algo : SignatureType) : MC bool :=
  deprecate_algorithm_with_op caller algo Deprecate.

(** ** Maturity *)

(** Whether a pending algorithm is due, and approved where that is required. *)
Definition activation_due (current_height : Z) (algo : SignatureType) : MC bool :=
  let* h := read (LAlg ActivationHeight algo) in
  let act_height := decode_u64_from_hash h in
  if (0 <? act_height) && (act_height <=? current_height) then
    let* required := read (LAlg QuorumRequired algo) in
    if negb (bool_decide (required = ZERO)) then
      let* approved := read (LAlg QuorumApproved algo) in
      mret (negb (bool_decide (approved = ZERO)))
    else mret true
  else mret false.
Fixpoint due_activations (current_height : Z) (pending : list SignatureType) : MC (list SignatureType) :=
  match pending with
  | [] => mret []
  | algo :: pending =>
      let* due := activation_due current_height algo in
      let* rest := due_activations current_height pending in
      mret (if due then algo :: rest else rest)
  end.
Definition pending_algorithms (r : AlgorithmRegistry) : list SignatureType :=
  entry_algo <$> filter (λ e, entry_status e = PendingActivation) r.
Definition process_pending_activations (current_height : Z) : MC (list SignatureType) :=
  let* pending := (λ w, (w, Ok (pending_algorithms (alg_registry w)))) in
  let* due := due_activations current_height pending in
  do* mfor (λ algo, store_algorithm_status algo Active) due;
  do* mfor (λ algo, alg_modify (alg_activate algo)) due;
  mret due.

Definition approved_algorithm_matured (algo : SignatureType) (height : Z) : M W StorageError bool :=
  let* status := cell_get (LAlg Status algo) in
  if negb (bool_decide (status = b256_from_bytes (be_bytes 32 3))) then mret false
  else
    let* approved := cell_get (LAlg QuorumApproved algo) in
    if negb (bool_decide (approved = b256_from_bytes (be_bytes 32 1))) then mret false
    else
      let* h := cell_get (LAlg ActivationHeight algo) in
      let maturity := from_be_bytes (as_bytes h) in
      mret ((0 <? maturity) && (maturity <=? height)).

(** [load_algorithm_registry]: the registry a state stands for. *)
Definition decode_algorithm_status (h : ShellHash) : sc_result AlgorithmStatus :=
  let e := AbiDecode "invalid persisted status for signature algorithm" in
  let bytes := as_bytes h in
  if any_nonzero (take 31 bytes) then Err e
  else
    match nth 31 bytes 0 with
    | 1 => Ok Active
    | 2 => Ok Deprecated
    | 3 => Ok PendingActivation
    | _ => Err e
    end.
Fixpoint load_algorithms (algos : list SignatureType) (registry : AlgorithmRegistry) : MC AlgorithmRegistry :=
  match algos with
  | [] => mret registry
  | algo :: algos =>
      let* status_hash := read (LAlg Status algo) in
      if bool_decide (status_hash = ZERO) then load_algorithms algos registry
      else
        let* status := mlift (decode_algorithm_status status_hash) in
        let* h := read (LAlg ActivationHeight algo) in
        let activation_height := decode_u64_from_hash h in
        let* verifier := read (LAlg VerifierHash algo) in
        let has_spec := (0 <? activation_height) || negb (bool_decide (verifier = ZERO)) in
        let registry :=
          if has_spec then propose_activation_with_spec algo activation_height (as_bytes verifier) registry
          else registry in
        load_algorithms algos
          match status with
          | Active => alg_activate algo registry
          | Deprecated => alg_deprecate algo registry
          | PendingActivation => if has_spec then registry else propose_activation algo registry
          end
  end.
Definition load_algorithm_registry : MC AlgorithmRegistry := load_algorithms ALLOWED_ALGORITHMS from_allowlist.
End governance.

(** ** Identified proposals *)

Definition SPEC_WORDS : Z := 8.
Definition DEADLINE : Z := 8.
Definition APPROVED : Z := 9.
Definition PQ_MLDSA65_VERIFY_GAS : Z := 46000.
Definition PQ_MLDSA65_BATCH_VERIFY_GAS_PER_SIG : Z := 12000.
Definition PQ_SLHDSA_VERIFY_GAS : Z := 2300000.

(** [&l[a..b]] for indices in range. *)
Definition slice (a b : nat) (l : list Z) : list Z := take (b - a) (drop a l).

Definition invalid (message : string) : SystemContractError := AbiDecode message.

(** Name, sizes of key and signature, gas of a verification and of one in a
    batch. *)
Definition installed_spec (algo : SignatureType) : list Z * Z * Z * Z * Z :=
  match algo with
  | Dilithium3 =>
      (ascii_bytes "Dilithium3", 1952, 3309, PQ_MLDSA65_VERIFY_GAS, PQ_MLDSA65_BATCH_VERIFY_GAS_PER_SIG)
  | MlDsa65 =>
      (ascii_bytes "ML-DSA-65", 1952, 3309, PQ_MLDSA65_VERIFY_GAS, PQ_MLDSA65_BATCH_VERIFY_GAS_PER_SIG)
  | SphincsSha2256f => (ascii_bytes "SLH-DSA-SHA2-256f", 64, 49856, PQ_SLHDSA_VERIFY_GAS, 0)
  end.
Definition validate_spec (params : list Z) : sc_result (SignatureType * Z) :=
  let mismatch := invalid "proposal spec does not match an installed algorithm" in
  if negb (len params =? SPEC_WORDS * 32) then Err (invalid "proposal requires exactly eight ABI words")
  else
    let? algo := decode_signature_type (slice 0 32 params) in
    let '(name, pk, sig, verify, batch) := installed_spec algo in
    if negb (bool_decide (slice 32 64 params = name ++ replicate (32 - length name) 0)) then Err mismatch
    else
      let? x := decode_u64 (slice 64 96 params) in
      if negb (x =? pk) then Err mismatch
      else
        let? x := decode_u64 (slice 96 128 params) in
        if negb (x =? sig) then Err mismatch
        else
          let? x := decode_u64 (slice 128 160 params) in
          if negb (x =? verify) then Err mismatch
          else
            let? x := decode_u64 (slice 160 192 params) in
            if negb (x =? batch) then Err mismatch
            else if negb (any_nonzero (slice 192 224 params))
            then Err (invalid "proposal verifier hash must be nonzero")
            else
              let? height := decode_u64 (slice 224 256 params) in
              Ok (algo, height).

Section proposals.
Context {W : Type} {GD : GovDb W} {Hs : Hashes}.
Abbreviation MC := (M W SystemContractError).

Definition proposal_id (params public_key : list Z) : ShellHash :=
  blake3_hash (slice 31 32 params ++ slice 32 64 params ++ slice 92 96 params ++ slice 124 128 params ++
    slice 152 160 params ++ slice 184 192 params ++ slice 192 224 params ++ [0] ++ slice 248 256 params ++ public_key).

(** The end of the voting on the proposal that a new one replaces; [None] when
    there is none or it was approved. *)
Definition previous_deadline (algo : SignatureType) (previous_id legacy_height : ShellHash) : MC (option ShellHash) :=
  if negb (bool_decide (previous_id = ZERO)) then
    let* approved := read (LField previous_id APPROVED) in
    if negb (bool_decide (approved = ZERO)) then mret None
    else let* d := read (LField previous_id DEADLINE) in mret (Some d)
  else if negb (bool_decide (legacy_height = ZERO)) then
    let* d := read (LAlg VotingDeadline algo) in mret (Some d)
  else mret None.

Definition proposer_key (caller : Address) (signing_algorithm : option SignatureType) : MC bytes :=
  let* key :=
    st (match signing_algorithm with Some SphincsSha2256f => fallback_get caller | _ => key_get caller end) in
  match key with
  | Some key =>
      if negb (length key =? 0)%nat && (len key <=? MAX_ACCOUNT_PUBLIC_KEY_BYTES) then mret key
      else mfail (ValidatorPubkeyMissing caller)
  | None => mfail (ValidatorPubkeyMissing caller)
  end.

(** [with_store] says whether there is a chain store. *)
Definition submit (caller : Address) (params : list Z) (with_store : bool) (rules : AlgorithmActivationRules)
    (signing_algorithm : option SignatureType) : MC ShellHash :=
  let* validators := st get_validators in
  if negb (bool_decide (caller ∈ validators)) then mfail Unauthorized
  else
    let* spec := mlift (validate_spec params) in
    let '(algo, height) := spec in
    if height <? minimum_height rules then mfail (InvalidActivationHeight height (minimum_height rules))
    else
      let* window := mlift (ok_or (voting_window rules) (invalid "proposal identity requires voting window")) in
      let '(number, duration) := window in
      let* deadline := mlift (ok_or (checked_add number duration)
        (invalid "algorithm voting deadline exceeds block height range")) in
      if negb with_store then mfail (invalid "proposal identity requires chain context")
      else
        let* public_key := proposer_key caller signing_algorithm in
        let id := proposal_id params public_key in
        let* taken :=
          (if bool_decide (id = ZERO) then mret true
           else let* d := read (LField id DEADLINE) in mret (negb (bool_decide (d = ZERO)))) in
        if (taken : bool) then mfail (invalid "duplicate algorithm proposal ID")
        else
          let* status := read (LAlg Status algo) in
          if bool_decide (status = encode_algorithm_status PendingActivation) then mfail GovernanceConflict
          else
            let* previous_id := read (LAlg CurrentProposal algo) in
            let* legacy_height := read (LAlg ProposalHeight algo) in
            let* previous := previous_deadline algo previous_id legacy_height in
            if match previous with
               | Some d => bool_decide (d = ZERO) || (number <? decode_u64_from_hash d)
               | None => false
               end
            then mfail GovernanceConflict
            else
              do* mfor (λ i, write (LField id (Z.of_nat i)) (b256_from_bytes (slice (32 * i) (32 * i + 32) params)))
                    (seq 0 (Z.to_nat SPEC_WORDS));
              do* write (LField id DEADLINE) (encode_u64_as_hash deadline);
              do* write (LAlg CurrentProposal algo) id;
              do* (if negb (bool_decide (legacy_height = ZERO)) then
                     mfor (λ k, write (LAlg k algo) ZERO) [ProposalHeight; ProposalVerifier; VotingDeadline]
                   else mret tt);
              mret id.

Fixpoint id_tally (id : ShellHash) (caller : Address) (signing_algorithm : option SignatureType)
    (validators : list Address) (voted total : Z) : MC (Z * Z) :=
  match validators with
  | [] => mret (voted, total)
  | validator :: validators =>
      let* weight := st (get_validator_weight validator) in
      let total := wrap_u128 (total + weight) in
      let* counted :=
        (if bool_decide (validator = caller) then mret true
         else let* v := read (LIdVote id validator signing_algorithm) in mret (negb (bool_decide (v = ZERO)))) in
      id_tally id caller signing_algorithm validators (if counted then wrap_u128 (voted + weight) else voted) total
  end.

Definition vote (caller : Address) (algo : SignatureType) (id : ShellHash) (rules : AlgorithmActivationRules)
    (signing_algorithm : option SignatureType) : MC bool :=
  let* validators := st get_validators in
  if negb (bool_decide (caller ∈ validators)) then mfail Unauthorized
  else
    let* matches :=
      (if bool_decide (id = ZERO) then mret false
       else let* current := read (LAlg CurrentProposal algo) in mret (bool_decide (current = id))) in
    if negb matches then mfail (invalid "vote does not match current algorithm proposal ID")
    else
      let* approved := read (LField id APPROVED) in
      if negb (bool_decide (approved = ZERO)) then mfail (invalid "algorithm proposal already approved")
      else
        let* window := mlift (ok_or (voting_window rules) (invalid "proposal identity requires voting window")) in
        let* d := read (LField id DEADLINE) in
        let deadline := decode_u64_from_hash d in
        if deadline <=? window.1 then mfail (VotingWindowExpired deadline)
        else
          let* h := read (LField id 7) in
          let height := decode_u64_from_hash h in
          if height <? minimum_height rules then mfail (InvalidActivationHeight height (minimum_height rules))
          else
            let* voted_before := read (LIdVote id caller signing_algorithm) in
            if negb (bool_decide (voted_before = ZERO)) then mfail DuplicateVote
            else
              let* t := id_tally id caller signing_algorithm validators 0 0 in
              let* verifier := read (LField id 6) in
              do* write (LIdVote id caller signing_algorithm) (encode_u64_as_hash 1);
              if (t.2 =? 0) || (wrap_u128 (t.1 * 3) <? wrap_u128 (t.2 * 2)) then mret false
              else
                do* publish_algorithm_proposal algo height (as_bytes verifier);
                do* mfor (λ l, write l (encode_u64_as_hash 1))
                      [LAlg QuorumRequired algo; LAlg QuorumApproved algo; LField id APPROVED];
                mret true.

Definition sc_output : Type := list Z * Z.

Definition read_fields (id : ShellHash) : list nat → MC (list Z) :=
  fix go fields :=
    match fields with
    | [] => mret []
    | f :: fields =>
        let* word := read (LField id (Z.of_nat f)) in
        let* rest := go fields in mret (as_bytes word ++ rest)
    end.

(** [algorithm_proposals::execute_authenticated]; [execute] passes [None]. *)
Definition execute_authenticated (caller : Address) (input : list Z) (chain_store : option GovEnv)
    (number : option Z) (signing_algorithm : option SignatureType) : MC sc_output :=
  let* selector := mlift (sc_decode_selector input) in
  let* rules := mlift (algorithm_activation_rules chain_store number) in
  if negb (proposal_identity rules) then mfail (UnknownSelector selector)
  else
    let params := drop 4 input in
    if bool_decide (selector = SUBMIT_ALGORITHM_PROPOSAL_SELECTOR) then
      let* id := submit caller params (bool_decide (is_Some chain_store)) rules signing_algorithm in
      mret (as_bytes id, SYSTEM_CALL_BASE_GAS + 12 * SYSTEM_CALL_OP_GAS)
    else if bool_decide (selector = VOTE_ALGORITHM_PROPOSAL_SELECTOR) then
      if negb (len params =? 64) then mfail (invalid "vote requires algorithm and proposal ID")
      else
        let* algo := mlift (decode_signature_type (slice 0 32 params)) in
        let id := b256_from_bytes (slice 32 64 params) in
        let* approved := vote caller algo id rules signing_algorithm in
        mret (encode_bool approved, SYSTEM_CALL_BASE_GAS + 5 * SYSTEM_CALL_OP_GAS)
    else if bool_decide (selector = GET_ALGORITHM_PROPOSAL_SELECTOR) then
      if negb (len params =? 32) then mfail (invalid "getter requires proposal ID")
      else
        let id := b256_from_bytes params in
        let* d := read (LField id DEADLINE) in
        if bool_decide (d = ZERO) then mfail (invalid "unknown algorithm proposal")
        else
          let* out := read_fields id (seq 0 (Z.to_nat APPROVED + 1)) in
          mret (out, SYSTEM_CALL_BASE_GAS)
    else mfail (UnknownSelector selector).
End proposals.
