(* ===== verification/SystemContracts.v ===== *)
(** * Dispatch of system contracts

    The entry points of crates/pqvm/src/system_contracts.rs: the dispatcher of
    the validator registry, the registration of provers, the calls that carry an
    authenticated governance signature, and the choice of the contract by its
    address; with [governance_fallback_pubkey] of aa_validation.rs. *)

From S2P Require Import Prelude Primitives Fee Rlp Transaction TxValidation TxCodec TxHash BTree KvStore Overlay OverlayView OverlayProps OverlayJournal MetadataUndo Keccak RwSet Account Effects World RegistryKeys Cells AlgorithmRegistry Abi AccountManager Registry Governance.

Section dispatch.
Context {W : Type} {GD : GovDb W} {Hs : Hashes}.
Abbreviation MC := (M W SystemContractError).

(** ** The validator registry *)

Definition registry_gas : Z := sat_add SYSTEM_CALL_BASE_GAS SYSTEM_CALL_OP_GAS.

Definition execute_validator_registry_with_registry (caller : Address) (input : list Z) (chain_store : option GovEnv)
    (block_number : option Z) : MC sc_output :=
  let* selector := mlift (sc_decode_selector input) in
  let params := drop 4 input in
  let applied (m : MC bool) : MC sc_output := let* b := m in mret (encode_bool b, registry_gas) in
  if bool_decide (selector = ADD_VALIDATOR_SELECTOR) then
    let* addr := mlift (sc_decode_address params) in
    applied (add_validator caller addr (bool_decide (is_Some chain_store)))
  else if bool_decide (selector = REMOVE_VALIDATOR_SELECTOR) then
    let* addr := mlift (sc_decode_address params) in
    applied (remove_validator caller addr)
  else if bool_decide (selector = SET_VALIDATOR_WEIGHT_SELECTOR) then
    let* p := mlift (decode_address_u64 params) in
    applied (set_validator_weight_op caller p.1 p.2)
  else if bool_decide (selector = SET_VALIDATOR_STAKE_SELECTOR) then
    let* p := mlift (decode_address_u256 params) in
    applied (set_validator_stake_op caller p.1 p.2)
  else if bool_decide (selector = BOND_VALIDATOR_STAKE_SELECTOR) then
    let* p := mlift (decode_address_u256 params) in
    applied (bond_validator_stake caller p.1 p.2)
  else if bool_decide (selector = UNBOND_VALIDATOR_STAKE_SELECTOR) then
    let* p := mlift (decode_address_u256 params) in
    applied (unbond_validator_stake caller p.1 p.2)
  else if bool_decide (selector = SUBMIT_ALGORITHM_PROPOSAL_SELECTOR) ||
          bool_decide (selector = VOTE_ALGORITHM_PROPOSAL_SELECTOR) ||
          bool_decide (selector = GET_ALGORITHM_PROPOSAL_SELECTOR) then
    execute_authenticated caller input chain_store block_number None
  else if bool_decide (selector = PROPOSE_ALGORITHM_ACTIVATION_SELECTOR) then
    let* p := mlift (decode_algo_activation_params params) in
    let '(algo, activation_height, verifier_hash) := p in
    let* rules := mlift (algorithm_activation_rules chain_store block_number) in
    applied (propose_algorithm_activation_op caller algo activation_height verifier_hash rules)
  else if bool_decide (selector = DEPRECATE_ALGORITHM_SELECTOR) then
    let* algo := mlift (decode_signature_type params) in
    applied (deprecate_algorithm_op caller algo)
  else if bool_decide (selector = GET_VALIDATORS_SELECTOR) then
    let* validators := st get_validators in
    mret (encode_address_array validators, SYSTEM_CALL_BASE_GAS)
  else if bool_decide (selector = IS_VALIDATOR_SELECTOR) then
    let* addr := mlift (sc_decode_address params) in
    let* validators := st get_validators in
    mret (encode_bool (bool_decide (addr ∈ validators)), SYSTEM_CALL_BASE_GAS)
  else mfail (UnknownSelector selector).

Definition register_prover (caller : Address) (params : list Z) (chain_store : GovEnv) (block_number : Z) :
    MC SystemContractOutcome :=
  let* config := mlift (map_err sc_Storage (get_chain_config chain_store)) in
  if negb (activated (Some block_number) (config_field config prover_registry_height))
  then mfail (UnknownSelector REGISTER_PROVER_SELECTOR)
  else
    let* p := mlift (decode_rotate_key_params params) in
    let '(public_key, algorithm) := p in
    let* signature_type := mlift (ok_or (sig_type_from_u8 algorithm) (InvalidAlgorithm algorithm)) in
    let expected_length := match signature_type with Dilithium3 | MlDsa65 => 1952 | SphincsSha2256f => 64 end in
    if negb (len public_key =? expected_length) then mfail (AbiDecode "invalid prover public key length")
    else
      let address := from_public_key public_key algorithm in
      let* validators := st get_validators in
      if negb (bool_decide (caller ∈ validators)) then mfail Unauthorized
      else
        let* existing := st (get_registered_prover address) in
        match existing with
        | Some _ => mfail (AlreadyExists address)
        | None =>
            let* passed := record_validator_vote RegisterProver address caller validators in
            do* (if (passed : bool) then
                   st (set_registered_prover address (MkProver public_key algorithm block_number 0 0))
                 else mret tt);
            mret (MkOutcome (encode_bool passed) registry_gas (MkEffects false []))
        end.

(** ** Calls with an authenticated governance signature *)

Definition execute_authenticated_governance_call (caller : Address) (input : list Z) (chain_store : GovEnv)
    (block_number : Z) (signing_algorithm : SignatureType) : MC SystemContractOutcome :=
  if bool_decide (signing_algorithm = Dilithium3) then mfail Unauthorized
  else
    let* out :=
      (let* selector := mlift (sc_decode_selector input) in
       if bool_decide (selector = PROPOSE_ALGORITHM_ACTIVATION_SELECTOR) then
         if negb (len input =? 100) then mfail (AbiDecode "activation requires three words")
         else
           let* p := mlift (decode_algo_activation_params (drop 4 input)) in
           let '(algo, height, verifier_hash) := p in
           let* rules := mlift (algorithm_activation_rules (Some chain_store) (Some block_number)) in
           let op := if bool_decide (signing_algorithm = MlDsa65) then ProposeActivationMlDsa else ProposeActivationSlh in
           let* approved := propose_algorithm_activation_op caller algo height verifier_hash
             (MkRules (minimum_height rules) true true (voting_window rules) (proposal_identity rules) op) in
           mret (encode_bool approved, SYSTEM_CALL_BASE_GAS + SYSTEM_CALL_OP_GAS)
       else if bool_decide (selector = DEPRECATE_ALGORITHM_SELECTOR) then
         if negb (len input =? 36) then mfail (AbiDecode "deprecation requires one algorithm word")
         else
           let* algo := mlift (decode_signature_type (drop 4 input)) in
           let op := if bool_decide (signing_algorithm = MlDsa65) then DeprecateMlDsa else DeprecateSlh in
           let* approved := deprecate_algorithm_with_op caller algo op in
           mret (encode_bool approved, SYSTEM_CALL_BASE_GAS + SYSTEM_CALL_OP_GAS)
       else execute_authenticated caller input (Some chain_store) (Some block_number) (Some signing_algorithm)) in
    mret (MkOutcome out.1 out.2 (MkEffects false [])).

(** The registry's branch of [execute_system_contract_call_at_block]. *)
Definition execute_registry_call (caller : Address) (input : list Z) (chain_store : GovEnv) (block_number : Z) :
    MC SystemContractOutcome :=
  let* selector := mlift (sc_decode_selector input) in
  if bool_decide (selector = REGISTER_PROVER_SELECTOR) then register_prover caller (drop 4 input) chain_store block_number
  else
    let* out := execute_validator_registry_with_registry caller input (Some chain_store) (Some block_number) in
    let changed :=
      bool_decide (selector ∈ [ADD_VALIDATOR_SELECTOR; REMOVE_VALIDATOR_SELECTOR; SET_VALIDATOR_WEIGHT_SELECTOR;
        SET_VALIDATOR_STAKE_SELECTOR; BOND_VALIDATOR_STAKE_SELECTOR; UNBOND_VALIDATOR_STAKE_SELECTOR]) &&
      bool_decide (out.1 = encode_bool true) in
    mret (MkOutcome out.1 out.2 (MkEffects changed [])).
End dispatch.

(** ** The contract at an address *)

Section top.
Context {W0 : Type} {DB : StateDb W0} {Hs : Hashes} {JG : Json GuardianConfig} {JP : Json RecoveryProposal}.
Context {JB : Json (gmap string (bytes * bytes))}.
Abbreviation W := (W0 * AlgorithmRegistry)%type.
Abbreviation MC := (M W SystemContractError).

(** What the account manager reads of the same chain store. *)
Definition manager_env (env : GovEnv) : ChainEnv :=
  MkChainEnv (get_head_number env)
    (let? config := get_chain_config env in Ok (config_field config cfg_registered_key_algorithm_height)).

Definition execute_system_contract_call_at_block (target caller : Address) (input : list Z) (chain_store : GovEnv)
    (block_number : Z) : MC SystemContractOutcome :=
  if bool_decide (target = registry_address) then execute_registry_call caller input chain_store block_number
  else if bool_decide (target = account_manager_address) then
    execute_account_manager caller input (manager_env chain_store) block_number
  else mfail (UnknownSystemContract target).

Definition execute_system_contract_call (target caller : Address) (input : list Z) (chain_store : GovEnv) :
    MC SystemContractOutcome :=
  let* block_number :=
    (if is_system_contract target then
       let* head := mlift (map_err sc_Storage (get_head_number chain_store)) in
       mret (match head with Some n => sat_add n 1 | None => 0 end)
     else mret 0) in
  execute_system_contract_call_at_block target caller input chain_store block_number.

(** *** Signed calls *)

(** [b"{}"] *)
Definition has_governance_fallback_bindings : M W StorageError bool :=
  let* encoded := store_get GENESIS_BINDINGS in
  mret match encoded with Some b => negb (bool_decide (b = [123; 125])) | None => false end.
Definition emergency_governance_active (env : GovEnv) (block_number : Z) : M W StorageError bool :=
  let* config := mlift (get_chain_config env) in
  if activated (Some block_number) (config_field config emergency_governance_height)
  then has_governance_fallback_bindings else mret false.

(** A governance call of the exact shape, without value. *)
Definition allowed_call (to : option Address) (value : Z) (data : list Z) : bool :=
  bool_decide (to = Some validator_registry_addr) && (value =? 0) &&
  (((len data =? 260) && bool_decide (take 4 data = SUBMIT_ALGORITHM_PROPOSAL_SELECTOR)) ||
   ((len data =? 68) && bool_decide (take 4 data = VOTE_ALGORITHM_PROPOSAL_SELECTOR)) ||
   ((len data =? 36) && bool_decide (take 4 data = DEPRECATE_ALGORITHM_SELECTOR)) ||
   ((len data =? 100) && bool_decide (take 4 data = PROPOSE_ALGORITHM_ACTIVATION_SELECTOR))).
Definition governance_scoped (tx : SignedTransaction) : bool :=
  match aa_bundle tx with
  | Some bundle =>
      bool_decide (session_auth bundle = None) && negb (length (inner_calls bundle) =? 0)%nat &&
      forallb (λ call, allowed_call (ic_to call) (ic_value call) (ic_data call)) (inner_calls bundle)
  | None => allowed_call (tx_to (st_tx tx)) (tx_value (st_tx tx)) (tx_data (st_tx tx))
  end.
Definition governance_fallback_pubkey (tx : SignedTransaction) (env : GovEnv) (block_number : Z) :
    M W StorageError (option bytes) :=
  let* active := emergency_governance_active env block_number in
  if negb active then mret None
  else if negb (bool_decide (sig_type (st_signature tx) = SphincsSha2256f)) || negb (tx_value (st_tx tx) =? 0)
  then mret None
  else if negb (governance_scoped tx) then mret None
  else
    let* validators := get_validators in
    if negb (bool_decide (st_from tx ∈ validators)) then mret None
    else
      let* key := get_governance_fallback_key (st_from tx) in
      match key with
      | Some key =>
          mret (match pubkey_mode tx with
                | Embedded k => if bool_decide (k = key) then Some key else None
                | Reference => None
                end)
      | None => mret None
      end.

(** [is_algorithm_allowed] of the registry in force. *)
Definition is_algorithm_allowed (algo : SignatureType) (r : AlgorithmRegistry) : bool :=
  match algorithm_status algo r with Some s => is_accepted s | None => false end.

Context {R : Rlp}.
(** [v] is the verifier of all algorithms ([MultiVerifier]). *)
Definition execute_signed_system_contract_call (v : Verifier) (target : Address) (tx : SignedTransaction)
    (input : list Z) (env : GovEnv) (block_number : Z) : MC SystemContractOutcome :=
  let plain := execute_system_contract_call_at_block target (st_from tx) input env block_number in
  let* active :=
    (if bool_decide (target = registry_address) then st (emergency_governance_active env block_number)
     else mret false) in
  if negb active then plain
  else
    let* selector := mlift (sc_decode_selector input) in
    let registry_mutation :=
      bool_decide (selector ∈ [SUBMIT_ALGORITHM_PROPOSAL_SELECTOR; VOTE_ALGORITHM_PROPOSAL_SELECTOR;
        DEPRECATE_ALGORITHM_SELECTOR; PROPOSE_ALGORITHM_ACTIVATION_SELECTOR]) in
    let governance_mutation :=
      registry_mutation ||
      bool_decide (selector ∈ [ADD_VALIDATOR_SELECTOR; REMOVE_VALIDATOR_SELECTOR; SET_VALIDATOR_WEIGHT_SELECTOR;
        SET_VALIDATOR_STAKE_SELECTOR; REGISTER_PROVER_SELECTOR; PROPOSE_ALGORITHM_ACTIVATION_SELECTOR]) in
    if negb governance_mutation then plain
    else
      let algorithm := sig_type (st_signature tx) in
      let* key :=
        (if bool_decide (algorithm = MlDsa65) then st (chain_get_pubkey (st_from tx))
         else if registry_mutation
         then mmap_err (λ _, Unauthorized) (governance_fallback_pubkey tx env block_number)
         else mret None) in
      match key with
      | None => mfail Unauthorized
      | Some key =>
          let* r := (λ w, (w, Ok (alg_registry w))) in
          if negb (is_algorithm_allowed algorithm r) then mfail Unauthorized
          else
            let* ok := mlift (map_err (λ _, Unauthorized)
              (verify v key (as_bytes (sender_signing_hash tx)) (st_signature tx))) in
            if negb ok then mfail Unauthorized
            else if registry_mutation
            then execute_authenticated_governance_call (st_from tx) input env block_number algorithm
            else plain
      end.
End top.
