(* ===== verification/PlainRegistry.v ===== *)
(** * The registry over plain maps

    [Reg] holds the registry's slots by label, balances, keys and the registry of
    algorithms as plain functions; it also records which labels and accounts
    were touched.  The contract runs on it unchanged ([plain_gov]).  The rules
    below say what a program over it may write. *)

From S2P Require Import Prelude Primitives Fee Rlp Transaction TxValidation TxCodec BTree KvStore Overlay OverlayView OverlayProps OverlayJournal MetadataUndo Keccak RwSet Account Effects World RegistryKeys Cells AlgorithmRegistry Abi AccountManager Registry Governance SystemContracts.

Record Reg := MkReg {
  cells : label → ShellHash;
  bals : Address → Z;
  keys : Address → option bytes;
  fallbacks : Address → option bytes;
  algs : AlgorithmRegistry;
  touched : list label;
  touched_accounts : list Address;
}.

Definition set_cell (s : Reg) (l : label) (x : ShellHash) : Reg :=
  MkReg (λ l', if decide (l = l') then x else cells s l') (bals s) (keys s) (fallbacks s) (algs s) (l :: touched s)
    (touched_accounts s).
Definition touch_label (s : Reg) (l : label) : Reg :=
  MkReg (cells s) (bals s) (keys s) (fallbacks s) (algs s) (l :: touched s) (touched_accounts s).
Definition set_bal (s : Reg) (a : Address) (b : Z) : Reg :=
  MkReg (cells s) (λ a', if decide (a = a') then b else bals s a') (keys s) (fallbacks s) (algs s) (touched s)
    (a :: touched_accounts s).
Definition touch_account (s : Reg) (a : Address) : Reg :=
  MkReg (cells s) (bals s) (keys s) (fallbacks s) (algs s) (touched s) (a :: touched_accounts s).

#[global] Instance plain_cells : Cells Reg := {|
  cell_get l := λ s, (touch_label s l, Ok (cells s l));
  cell_set l x := λ s, (set_cell s l x, Ok tt);
|}.
#[global] Instance plain_reg : RegDb Reg := {|
  bal_get a := λ s, (touch_account s a, Ok (bals s a));
  bal_set a b := λ s, (set_bal s a b, Ok tt);
  bal_add a n := λ s,
    match checked_add_u256 (bals s a) n with
    | Some b => (set_bal s a b, Ok tt)
    | None => (touch_account s a, Err (StateError "balance overflow"))
    end;
  bal_sub a n := λ s,
    match checked_sub_u256 (bals s a) n with
    | Some b => (set_bal s a b, Ok tt)
    | None => (touch_account s a, Err (StateError "insufficient balance"))
    end;
  key_get a := λ s, (s, Ok (keys s a));
|}.
#[global] Instance plain_gov : GovDb Reg := {|
  fallback_get a := λ s, (s, Ok (fallbacks s a));
  alg_registry := algs;
  alg_update f s := MkReg (cells s) (bals s) (keys s) (fallbacks s) (f (algs s)) (touched s) (touched_accounts s);
|}.

(** ** What a program writes *)

(** [m] writes only cells in [P], and balances only if [b]. *)
Definition writes {E A} (P : label → Prop) (b : bool) (m : M Reg E A) : Prop := ∀ s,
  (∀ l, ¬ P l → cells (m s).1 l = cells s l) ∧ (b = false → bals (m s).1 = bals s).

Section writes.
Context (P : label → Prop) (b : bool).

Lemma writes_ret {E A} (a : A) : writes (E := E) P b (mret a).
Proof. by intros s. Qed.
Lemma writes_fail {E A} (e : E) : writes (A := A) P b (mfail e).
Proof. by intros s. Qed.
Lemma writes_lift {E A} (r : result A E) : writes P b (mlift r).
Proof. by intros s. Qed.
Lemma writes_pure {E A} (f : Reg → result A E) : writes P b (λ s, (s, f s)).
Proof. by intros s. Qed.
Lemma writes_bind {E A B} (m : M Reg E A) (k : A → M Reg E B) :
  writes P b m → (∀ x, writes P b (k x)) → writes P b (mbind_ m k).
Proof.
  intros Hm Hk s. destruct (Hm s) as [H1 H2]. rw /mbind_. destruct (m s) as [s' [x|e]]; [|done].
  destruct (Hk x s') as [H3 H4]. simpl in *. split; [intros l Hl; by rw H3 // H1|intros Hb; by rw H4 // H2].
Qed.
Lemma writes_st {A} (m : M Reg StorageError A) : writes P b m → writes P b (st m).
Proof. intros Hm s. destruct (Hm s) as [H1 H2]. rw /st /mmap_err. by destruct (m s). Qed.
Lemma writes_for {E A} (f : A → M Reg E unit) l : (∀ x, x ∈ l → writes P b (f x)) → writes P b (mfor f l).
Proof.
  induction l as [|x l IH]; intros Hf; [apply writes_ret|]. apply writes_bind; [apply Hf; by left|].
  intros _. apply IH. intros y Hy. apply Hf. by right.
Qed.
Lemma writes_if {E A} (c : bool) (m n : M Reg E A) : writes P b m → writes P b n → writes P b (if c then m else n).
Proof. by destruct c. Qed.
Lemma writes_get l : writes P b (cell_get l).
Proof. by intros s. Qed.
Lemma writes_set l x : P l → writes P b (cell_set l x).
Proof. intros Hl s. split; [|done]. intros l' Hl'. rw /= decide_False //. by intros ->. Qed.
Lemma writes_bal_get a : writes P b (bal_get a).
Proof. by intros s. Qed.
Lemma writes_key_get a : writes P b (key_get a).
Proof. by intros s. Qed.
Lemma writes_fallback a : writes P b (fallback_get a).
Proof. by intros s. Qed.
Lemma writes_modify f : writes P b (alg_modify f).
Proof. by intros s. Qed.
End writes.
Lemma writes_bal_set P a x : writes P true (bal_set a x).
Proof. by intros s. Qed.
Lemma writes_bal_add P a x : writes P true (bal_add a x).
Proof. intros s. rw /=. by destruct (checked_add_u256 _ _). Qed.
Lemma writes_bal_sub P a x : writes P true (bal_sub a x).
Proof. intros s. rw /=. by destruct (checked_sub_u256 _ _). Qed.
Lemma writes_mono {E A} (P Q : label → Prop) b (m : M Reg E A) :
  (∀ l, P l → Q l) → writes P b m → writes Q b m.
Proof. intros HPQ Hm s. destruct (Hm s) as [H1 H2]. split; [|done]. intros l Hl. apply H1. auto. Qed.

Create HintDb writes.
#[export] Hint Resolve writes_ret writes_fail writes_lift writes_pure writes_get writes_bal_get writes_key_get
  writes_fallback writes_modify writes_bal_set writes_bal_add writes_bal_sub : writes.

(** Follows the structure of a program; leaves the writes to be justified. *)
Ltac writes_step :=
  cbv beta zeta;
  match goal with
  | |- writes _ _ (mbind_ _ _) => apply writes_bind; [|intros ?]
  | |- writes _ _ (st _) => apply writes_st
  | |- writes _ _ (mfor _ _) => apply writes_for; intros ? ?
  | |- writes _ _ (read _) => unfold read
  | |- writes _ _ (write _ _) => unfold write
  | |- writes _ _ (cell_set _ _) => apply writes_set
  | |- writes _ _ (if ?c then _ else _) => apply writes_if
  | |- writes _ _ (match ?c with _ => _ end) => destruct c
  | |- writes _ _ _ => solve [auto with writes]
  end.
Ltac writes_auto := repeat writes_step.
