(* ===== verification/RegistryWrites.v ===== *)
(** * What each registry call writes

    [reg_action_of] reads off what a call asks for, in the order of the
    dispatcher; [region] bounds the slots it may write: in particular only the
    caller's own ballots, and the list of validators only for additions and
    removals. *)

From S2P Require Import Prelude Primitives Fee Rlp Transaction TxValidation TxCodec BTree KvStore Overlay OverlayView OverlayProps OverlayJournal MetadataUndo Keccak RwSet Account Effects World RegistryKeys Cells AlgorithmRegistry Abi AccountManager Registry Governance SystemContracts PlainRegistry.

Inductive reg_action :=
| AAdd (target : Address)
| ARemove (target : Address)
| ASetWeight (target : Address) (weight : Z)
| ASetStake (target : Address) (stake : Z)
| ABond (target : Address) (amount : Z)
| AUnbond (target : Address) (amount : Z)
| AProver (address : Address)
| AGovernance (* of algorithms, or a view *)
| ANone.

(** The proposal an action votes for. *)
Definition vote_of (a : reg_action) : option (ValidatorRegistryOp * Address) :=
  match a with
  | AAdd t => Some (Add, t)
  | ARemove t => Some (Remove, t)
  | ASetWeight t w => Some (SetWeight w, t)
  | ASetStake t x => Some (SetStake x, t)
  | AProver t => Some (RegisterProver, t)
  | _ => None
  end.

Definition region (caller : Address) (act : reg_action) (l : label) : Prop :=
  match l with
  | LVote op t u _ => u = caller ∧ vote_of act = Some (op, t)
  | LCount | LSlot _ => match act with AAdd _ | ARemove _ => True | _ => False end
  | LWeight a =>
      match act with AAdd t | ASetWeight t _ | ASetStake t _ | ABond t _ | AUnbond t _ => a = t | _ => False end
  | LStake a => match act with AAdd t | ASetStake t _ | ABond t _ | AUnbond t _ => a = t | _ => False end
  | LStaked => match act with AAdd _ | ASetStake _ _ | ABond _ _ | AUnbond _ _ => True | _ => False end
  | LProver a _ => match act with AProver t => a = t | _ => False end
  | LAlgVote _ _ _ _ | LAlg _ _ | LField _ _ | LIdVote _ _ _ => act = AGovernance
  | LStaking | LSupply | LUnit | LMaxWeight => False
  end.
(** Balances change only with stakes. *)
Definition moves_balance (act : reg_action) : bool :=
  match act with ASetStake _ _ | ABond _ _ | AUnbond _ _ => true | _ => false end.

Section accessors.
Context (P : label → Prop) (b : bool).

Lemma writes_read_validators indices seen vs : writes P b (read_validators indices seen vs).
Proof.
  revert seen vs. induction indices as [|i indices IH]; intros seen vs; [apply writes_ret|]. cbn [read_validators]. writes_auto.
Qed.
Lemma writes_get_validators : writes P b get_validators.
Proof. unfold get_validators. writes_auto. apply writes_read_validators. Qed.
Lemma writes_get_weight a : writes P b (get_validator_weight a).
Proof. unfold get_validator_weight. writes_auto. Qed.
Lemma writes_staking : writes P b staking_enabled.
Proof. unfold staking_enabled. writes_auto. Qed.
Lemma writes_get_u256 l : writes P b (get_u256 l).
Proof. unfold get_u256. writes_auto. Qed.
Lemma writes_get_max : writes P b get_max_validator_weight.
Proof. unfold get_max_validator_weight. writes_auto. Qed.
Lemma writes_set_validators vs : (∀ i, P (LSlot i)) → P LCount → writes P b (set_validators vs).
Proof. intros Hs Hc. unfold set_validators. writes_auto; auto. Qed.
Lemma writes_set_weight a x : P (LWeight a) → writes P b (set_validator_weight a x).
Proof. intros. unfold set_validator_weight. writes_auto. done. Qed.
Lemma writes_read_key a indices k : writes P b (read_key_words a indices k).
Proof. revert k. induction indices as [|i indices IH]; intros k; [apply writes_ret|]. cbn [read_key_words]. writes_auto. Qed.
Lemma writes_get_prover a : writes P b (get_registered_prover a).
Proof. unfold get_registered_prover. writes_auto. apply writes_read_key. Qed.
Lemma writes_set_prover a r : (∀ f, P (LProver a f)) → writes P b (set_registered_prover a r).
Proof. intros. unfold set_registered_prover. writes_auto; auto. Qed.
End accessors.
#[export] Hint Resolve writes_get_validators writes_get_weight writes_staking writes_get_u256 writes_get_max
  writes_get_prover : writes.

Section ops.
Context (P : label → Prop) (b : bool).

Lemma writes_tally op t vs rest x y : writes P b (tally op t vs rest x y).
Proof. revert x y. induction rest as [|v rest IH]; intros x y; [apply writes_ret|]. cbn [tally]. writes_auto. Qed.
Lemma writes_record op t caller vs : P (LVote op t caller vs) → writes P b (record_validator_vote op t caller vs).
Proof. intros Hv. unfold record_validator_vote. writes_auto; [done|apply writes_tally]. Qed.
Lemma writes_derived x : writes P b (derived_weight x).
Proof. unfold derived_weight, get_stake_unit. writes_auto. Qed.
Lemma writes_validate t x : writes P b (validate_validator_stake_total t x).
Proof. unfold validate_validator_stake_total, get_validator_stake, get_total_staked. writes_auto. Qed.
Lemma writes_apply t x : P (LStake t) → P (LWeight t) → P LStaked → writes P b (apply_validator_stake t x).
Proof.
  intros. unfold apply_validator_stake, get_stake_unit, set_validator_stake_and_weight, set_validator_stake,
    set_total_staked, set_u256. writes_auto; try done; [apply writes_validate|by apply writes_set_weight].
Qed.
End ops.
#[export] Hint Resolve writes_tally writes_derived writes_validate : writes.

Lemma writes_add caller t k : writes (region caller (AAdd t)) false (add_validator caller t k).
Proof.
  unfold add_validator, admit_validator, get_validator_stake. writes_auto; try done.
  - by apply writes_record.
  - by apply writes_set_validators.
  - by apply writes_apply.
  - by apply writes_set_weight.
Qed.
Lemma writes_remove caller t : writes (region caller (ARemove t)) false (remove_validator caller t).
Proof. unfold remove_validator. writes_auto; [by apply writes_record|by apply writes_set_validators]. Qed.
Lemma writes_set_weight_op caller t x : writes (region caller (ASetWeight t x)) false (set_validator_weight_op caller t x).
Proof. unfold set_validator_weight_op. writes_auto; [by apply writes_record|by apply writes_set_weight]. Qed.
Lemma writes_set_stake_op caller t x : writes (region caller (ASetStake t x)) true (set_validator_stake_op caller t x).
Proof.
  unfold set_validator_stake_op, ensure_staking_enabled. writes_auto; [by apply writes_record|by apply writes_apply].
Qed.
Lemma writes_bond caller t x : writes (region caller (ABond t x)) true (bond_validator_stake caller t x).
Proof. unfold bond_validator_stake, ensure_staking_enabled, get_validator_stake. writes_auto. by apply writes_apply. Qed.
Lemma writes_unbond caller t x : writes (region caller (AUnbond t x)) true (unbond_validator_stake caller t x).
Proof. unfold unbond_validator_stake, ensure_staking_enabled, get_validator_stake. writes_auto. by apply writes_apply. Qed.

(** ** Governance *)

Section gov.
Context (caller : Address).
Abbreviation gov := (region caller AGovernance).

Lemma writes_alg_tally op algo vs rest x y : writes gov false (alg_tally op algo vs rest x y).
Proof. revert x y. induction rest as [|v rest IH]; intros x y; [apply writes_ret|]. cbn [alg_tally]. writes_auto. Qed.
Lemma writes_alg_record op algo u vs : writes gov false (record_algorithm_vote op algo u vs).
Proof. unfold record_algorithm_vote. writes_auto; [done|apply writes_alg_tally]. Qed.
Lemma writes_publish algo h v : writes gov false (publish_algorithm_proposal algo h v).
Proof. unfold publish_algorithm_proposal, store_algorithm_status. writes_auto; done. Qed.
Hint Resolve writes_alg_record writes_publish : writes.
Lemma writes_propose algo h v rules : writes gov false (propose_algorithm_activation_op caller algo h v rules).
Proof.
  unfold propose_algorithm_activation_op, guard_legacy, propose_staged, propose_published. writes_auto; done.
Qed.
Lemma writes_deprecate algo op : writes gov false (deprecate_algorithm_with_op caller algo op).
Proof. unfold deprecate_algorithm_with_op, store_algorithm_status. writes_auto; done. Qed.

Context {Hs : Hashes}.
Lemma writes_submit params k rules alg : writes gov false (submit caller params k rules alg).
Proof. unfold submit, proposer_key, previous_deadline. writes_auto; done. Qed.
Lemma writes_id_tally id alg vs x y : writes gov false (id_tally id caller alg vs x y).
Proof. revert x y. induction vs as [|v vs IH]; intros x y; [apply writes_ret|]. cbn [id_tally]. writes_auto. Qed.
Hint Resolve writes_submit writes_id_tally : writes.
Lemma writes_vote algo id rules alg : writes gov false (vote caller algo id rules alg).
Proof.
  unfold vote. writes_auto; try done.
  match goal with H : _ ∈ _ |- _ => apply elem_of_cons in H as [->|[->|[->|[]%elem_of_nil]%elem_of_cons]%elem_of_cons] end;
    done.
Qed.
Lemma writes_read_fields id fields : writes gov false (read_fields id fields).
Proof. induction fields as [|f fields IH]; [apply writes_ret|]. cbn [read_fields]. writes_auto. Qed.
Hint Resolve writes_vote writes_read_fields : writes.
Lemma writes_execute_authenticated input cs number alg :
  writes gov false (execute_authenticated caller input cs number alg).
Proof. unfold execute_authenticated. writes_auto. Qed.
End gov.
#[export] Hint Resolve writes_propose writes_deprecate writes_execute_authenticated writes_add writes_remove
  writes_set_weight_op writes_set_stake_op writes_bond writes_unbond : writes.

(** ** Calls *)

Record reg_call := MkRegCall {
  rc_caller : Address;
  rc_input : list Z;
  rc_env : GovEnv;
  rc_block : Z;
}.

Section calls.
Context {Hs : Hashes}.

(** The first parameter that a decoder returns. *)
Definition decoded {A} (r : sc_result A) (f : A → reg_action) : reg_action :=
  match r with Ok x => f x | Err _ => ANone end.
Definition reg_action_of (c : reg_call) : reg_action :=
  let selector := take 4 (rc_input c) in
  let params := drop 4 (rc_input c) in
  if len (rc_input c) <? 4 then ANone
  else if bool_decide (selector = REGISTER_PROVER_SELECTOR) then
    decoded (decode_rotate_key_params params) (λ p, AProver (from_public_key p.1 p.2))
  else if bool_decide (selector = ADD_VALIDATOR_SELECTOR) then decoded (sc_decode_address params) AAdd
  else if bool_decide (selector = REMOVE_VALIDATOR_SELECTOR) then decoded (sc_decode_address params) ARemove
  else if bool_decide (selector = SET_VALIDATOR_WEIGHT_SELECTOR) then
    decoded (decode_address_u64 params) (λ p, ASetWeight p.1 p.2)
  else if bool_decide (selector = SET_VALIDATOR_STAKE_SELECTOR) then
    decoded (decode_address_u256 params) (λ p, ASetStake p.1 p.2)
  else if bool_decide (selector = BOND_VALIDATOR_STAKE_SELECTOR) then
    decoded (decode_address_u256 params) (λ p, ABond p.1 p.2)
  else if bool_decide (selector = UNBOND_VALIDATOR_STAKE_SELECTOR) then
    decoded (decode_address_u256 params) (λ p, AUnbond p.1 p.2)
  else AGovernance.

(** What an action runs, for calls other than views and governance. *)
Definition run_action (c : reg_call) (act : reg_action) : M Reg SystemContractError bool :=
  match act with
  | AAdd t => add_validator (rc_caller c) t true
  | ARemove t => remove_validator (rc_caller c) t
  | ASetWeight t w => set_validator_weight_op (rc_caller c) t w
  | ASetStake t x => set_validator_stake_op (rc_caller c) t x
  | ABond t x => bond_validator_stake (rc_caller c) t x
  | AUnbond t x => unbond_validator_stake (rc_caller c) t x
  | AProver _ | AGovernance | ANone => mret false
  end.
Definition run_reg (c : reg_call) : M Reg SystemContractError SystemContractOutcome :=
  execute_registry_call (rc_caller c) (rc_input c) (rc_env c) (rc_block c).

(** Tests on selectors are decided with the selectors abstracted. *)
Ltac abstract_reg_selectors :=
  generalize REGISTER_PROVER_SELECTOR ADD_VALIDATOR_SELECTOR REMOVE_VALIDATOR_SELECTOR SET_VALIDATOR_WEIGHT_SELECTOR
    SET_VALIDATOR_STAKE_SELECTOR BOND_VALIDATOR_STAKE_SELECTOR UNBOND_VALIDATOR_STAKE_SELECTOR
    SUBMIT_ALGORITHM_PROPOSAL_SELECTOR VOTE_ALGORITHM_PROPOSAL_SELECTOR GET_ALGORITHM_PROPOSAL_SELECTOR
    PROPOSE_ALGORITHM_ACTIVATION_SELECTOR DEPRECATE_ALGORITHM_SELECTOR GET_VALIDATORS_SELECTOR IS_VALIDATOR_SELECTOR;
  intros.

Definition is_ledger_action (act : reg_action) : bool :=
  match act with AProver _ | AGovernance | ANone => false | _ => true end.

Lemma applied_outcome (s : Reg) (m : M Reg SystemContractError bool) (selector : list Z) (known : list (list Z)) :
  selector ∈ known →
  mbind_ (mbind_ m (λ b, mret (encode_bool b, registry_gas)))
    (λ out, mret (MkOutcome out.1 out.2
       (MkEffects (bool_decide (selector ∈ known) && bool_decide (out.1 = encode_bool true)) []))) s =
  mbind_ m (λ b, mret (MkOutcome (encode_bool b) registry_gas (MkEffects b []))) s.
Proof.
  intros Hin. rw /mbind_. destruct (m s) as [s' [b|e]]; [|reflexivity]. cbn [mret fst snd].
  rw (bool_decide_true (selector ∈ known)); [exact Hin|]. cbn [andb].
  assert (bool_decide (encode_bool b = encode_bool true) = b) as -> by (by destruct b). reflexivity.
Qed.

Lemma lift_ok_bind {W E A B} (x : A) (k : A → M W E B) : mbind_ (mlift (Ok x)) k = k x.
Proof. done. Qed.

(** A call that votes or moves stake runs its operation. *)
Lemma run_reg_action c : is_ledger_action (reg_action_of c) = true → ∀ s,
  run_reg c s = mbind_ (run_action c (reg_action_of c))
    (λ b, mret (MkOutcome (encode_bool b) registry_gas (MkEffects b []))) s.
Proof.
  rw /run_reg /execute_registry_call /execute_validator_registry_with_registry /reg_action_of /sc_decode_selector.
  destruct (len (rc_input c) <? 4); [done|]. cbv zeta. rw !lift_ok_bind. abstract_reg_selectors.
  match goal with H : is_ledger_action _ = true |- _ => revert H end.
  case_bool_decide; [by destruct (decode_rotate_key_params _)|].
  case_bool_decide.
  { destruct (sc_decode_address _) as [t|]; [|done]. intros _. rw lift_ok_bind. apply applied_outcome. set_solver. }
  case_bool_decide.
  { destruct (sc_decode_address _) as [t|]; [|done]. intros _. rw lift_ok_bind. apply applied_outcome. set_solver. }
  case_bool_decide.
  { destruct (decode_address_u64 _) as [t|]; [|done]. intros _. rw lift_ok_bind. apply applied_outcome. set_solver. }
  case_bool_decide.
  { destruct (decode_address_u256 _) as [t|]; [|done]. intros _. rw lift_ok_bind. apply applied_outcome. set_solver. }
  case_bool_decide.
  { destruct (decode_address_u256 _) as [t|]; [|done]. intros _. rw lift_ok_bind. apply applied_outcome. set_solver. }
  case_bool_decide; [|done].
  destruct (decode_address_u256 _) as [t|]; [|done]. intros _. rw lift_ok_bind. apply applied_outcome. set_solver.
Qed.

Lemma lift_err_bind {W E A B} (e : E) (k : A → M W E B) : mbind_ (mlift (Err e)) k = mfail e.
Proof. done. Qed.

Lemma writes_register_prover caller params env n :
  writes (region caller (decoded (decode_rotate_key_params params) (λ p, AProver (from_public_key p.1 p.2)))) false
    (register_prover caller params env n).
Proof.
  unfold register_prover. apply writes_bind; [apply writes_lift|intros config]. apply writes_if; [apply writes_fail|].
  destruct (decode_rotate_key_params params) as [[key algo]|e]; [|rw lift_err_bind; apply writes_fail].
  rw lift_ok_bind. cbn [decoded fst snd]. writes_auto; [by apply writes_record|by apply writes_set_prover].
Qed.

(** Every call writes within its region. *)
Lemma run_reg_writes c : writes (region (rc_caller c) (reg_action_of c)) (moves_balance (reg_action_of c)) (run_reg c).
Proof.
  destruct (is_ledger_action (reg_action_of c)) eqn:Hl.
  { intros s. rw (run_reg_action c Hl). revert s.
    change (writes (region (rc_caller c) (reg_action_of c)) (moves_balance (reg_action_of c)) (mbind_ (run_action c (reg_action_of c))
      (λ b, mret (MkOutcome (encode_bool b) registry_gas (MkEffects b []))))).
    apply writes_bind; [|intros; apply writes_ret]. destruct (reg_action_of c); try done; cbn [run_action]; auto with writes. }
  revert Hl.
  rw /run_reg /execute_registry_call /execute_validator_registry_with_registry /reg_action_of /sc_decode_selector.
  destruct (len (rc_input c) <? 4); [by intros _ s|]. cbv zeta. rw !lift_ok_bind. abstract_reg_selectors.
  match goal with H : is_ledger_action _ = false |- _ => revert H end.
  case_bool_decide; [intros _|].
  { pose proof (writes_register_prover (rc_caller c) (drop 4 (rc_input c)) (rc_env c) (rc_block c)) as Hw.
    by destruct (decode_rotate_key_params _). }
  case_bool_decide; [destruct (sc_decode_address _); [done|]; intros _; rw !lift_err_bind; writes_auto|].
  case_bool_decide; [destruct (sc_decode_address _); [done|]; intros _; rw !lift_err_bind; writes_auto|].
  case_bool_decide; [destruct (decode_address_u64 _); [done|]; intros _; rw !lift_err_bind; writes_auto|].
  do 3 (case_bool_decide; [destruct (decode_address_u256 _); [done|]; intros _; rw !lift_err_bind; writes_auto|]).
  intros _. unfold deprecate_algorithm_op. writes_auto.
Qed.
End calls.
