(* ===== verification/RegistryReads.v ===== *)
(** * What the registry's getters read

    [reads s m r]: from [s] the program [m] returns [r] and changes nothing but
    the record of touched slots.  The getters read pure functions of the slots
    ([weight_of], [stake_of], [validators_of]); [set_validators] is read back by
    [get_validators], and a vote passes by the weights of the ballots. *)

From S2P Require Import Prelude Primitives Fee Rlp Transaction TxValidation TxCodec BTree KvStore Overlay OverlayView OverlayProps OverlayJournal MetadataUndo Keccak RwSet PoaConfig Account Effects World RegistryKeys Cells AlgorithmRegistry Abi AccountManager Registry Governance SystemContracts PlainRegistry RegistryWrites.

(** The two states differ at most in what was touched. *)
Definition same (s s' : Reg) : Prop :=
  cells s' = cells s ∧ bals s' = bals s ∧ keys s' = keys s ∧ fallbacks s' = fallbacks s ∧ algs s' = algs s.
#[global] Instance same_preorder : PreOrder same.
Proof.
  split; [done|]. intros s1 s2 s3 (?&?&?&?&?) (?&?&?&?&?). rw /same. split_and!; congruence.
Qed.
Lemma same_touch s l : same s (touch_label s l).
Proof. done. Qed.

Definition reads {E A} (s : Reg) (m : M Reg E A) (r : result A E) : Prop := same s (m s).1 ∧ (m s).2 = r.

Lemma reads_ret {E A} s (a : A) : reads (E := E) s (mret a) (Ok a).
Proof. by split. Qed.
Lemma reads_fail {E A} s (e : E) : reads (A := A) s (mfail e) (Err e).
Proof. by split. Qed.
Lemma reads_lift {E A} s (r : result A E) : reads s (mlift r) r.
Proof. by split. Qed.
Lemma reads_get s l : reads s (cell_get l) (Ok (cells s l)).
Proof. by split. Qed.
Lemma reads_bind {E A B} s (m : M Reg E A) (k : A → M Reg E B) a r :
  reads s m (Ok a) → (∀ s', same s s' → reads s' (k a) r) → reads s (mbind_ m k) r.
Proof.
  intros [Hs Hm] Hk. rw /reads /mbind_. destruct (m s) as [s1 r1]; simpl in *. rw Hm.
  destruct (Hk s1 Hs) as [H1 H2]. split; [by etrans|done].
Qed.
Lemma reads_bind_err {E A B} s (m : M Reg E A) (k : A → M Reg E B) e :
  reads s m (Err e) → reads s (mbind_ m k) (Err e).
Proof. intros [Hs Hm]. rw /reads /mbind_. destruct (m s) as [s1 r1]; simpl in *. by rw Hm. Qed.
Lemma reads_st {A} s (m : M Reg StorageError A) r : reads s m r → reads s (st m) (map_err sc_Storage r).
Proof. intros [Hs Hm]. rw /reads /st /mmap_err. destruct (m s) as [s1 r1]; simpl in *. by rw Hm. Qed.
(** After a reading program the rest runs from a state with the same content. *)
Lemma wp_reads {E A} s (m : M Reg E A) r Q R :
  reads s m r → (∀ s', same s s' → match r with Ok a => Q a s' | Err e => R e s' end) → wp m Q R s.
Proof. intros [Hs Hm] H. rw /wp. destruct (m s) as [s1 r1]; simpl in *. subst. by apply H. Qed.
Lemma wp_bind_reads {E A B} s (m : M Reg E A) r (k : A → M Reg E B) Q R :
  reads s m r → (∀ s', same s s' → match r with Ok a => wp (k a) Q R s' | Err e => R e s' end) →
  wp (mbind_ m k) Q R s.
Proof. intros. apply wp_bind. by eapply wp_reads. Qed.

(** ** Words *)

Lemma be_bytes_drop n m z : drop n (be_bytes (n + m) z) = be_bytes m z.
Proof. induction n as [|n IH]; [done|]. apply IH. Qed.
Lemma hash_to_u64_unsigned h : hash_to_u64 h = b256_unsigned h mod (u64_max + 1).
Proof. by rw /hash_to_u64 /as_bytes (be_bytes_drop 24 8) from_be_bytes_be_bytes. Qed.
Lemma hash_to_u64_range h : 0 <= hash_to_u64 h <= u64_max.
Proof. rw hash_to_u64_unsigned. pose proof (Z.mod_pos_bound (b256_unsigned h) (u64_max + 1) ltac:(done)). lia. Qed.
Lemma hash_to_u256_unsigned h : hash_to_u256 h = b256_unsigned h.
Proof.
  rw /hash_to_u256 /as_bytes from_be_bytes_be_bytes b256_pow Z.mod_small //. pose proof (b256_range h). lia.
Qed.
Lemma unsigned_u256_to_hash x : 0 <= x <= u256_max → b256_unsigned (u256_to_hash x) = x.
Proof.
  intros. rw /u256_to_hash /b256_from_bytes from_be_bytes_be_bytes b256_pow /= !Z.mod_small //; lia.
Qed.
Lemma hash_u256_roundtrip x : 0 <= x <= u256_max → hash_to_u256 (u256_to_hash x) = x.
Proof. intros. by rw hash_to_u256_unsigned unsigned_u256_to_hash. Qed.
Lemma from_zeros n l : from_be_bytes (replicate n 0 ++ l) = from_be_bytes l.
Proof.
  rw from_be_bytes_app. assert (from_be_bytes (replicate n 0) = 0) as ->; [|done].
  induction n as [|n IH]; [done|]. by rw (from_be_bytes_app [0]) IH.
Qed.
Lemma unsigned_u64_to_hash x : 0 <= x <= u64_max → b256_unsigned (u64_to_hash x) = x.
Proof.
  intros. assert (u64_max < u256_max) by done.
  rw /u64_to_hash /b256_from_bytes from_zeros from_be_bytes_be_bytes.
  change (256 ^ Z.of_nat 8) with (u64_max + 1). rw /b256_of_Z /b256_unsigned !Z.mod_small //; lia.
Qed.
Lemma hash_u64_roundtrip x : 0 <= x <= u64_max → hash_to_u64 (u64_to_hash x) = x.
Proof. intros. rw hash_to_u64_unsigned unsigned_u64_to_hash // Z.mod_small //. lia. Qed.
Lemma u64_to_hash_zero x : 0 <= x <= u64_max → u64_to_hash x = ZERO → x = 0.
Proof. intros Hx H%(f_equal b256_unsigned). by rw unsigned_u64_to_hash in H. Qed.

(** ** Getters *)

Definition weight_of (s : Reg) (v : Address) : Z :=
  if bool_decide (cells s (LWeight v) = ZERO) then 1 else Z.max (hash_to_u64 (cells s (LWeight v))) 1.
Definition stake_of (s : Reg) (v : Address) : Z := hash_to_u256 (cells s (LStake v)).
Definition total_staked (s : Reg) : Z := hash_to_u256 (cells s LStaked).
Definition unit_of (s : Reg) : Z := hash_to_u256 (cells s LUnit).
Definition max_weight_of (s : Reg) : Z :=
  if bool_decide (cells s LMaxWeight = ZERO) then u64_max else hash_to_u64 (cells s LMaxWeight).
Definition staking (s : Reg) : bool := negb (bool_decide (cells s LStaking = ZERO)).
Definition read_list (s : Reg) : result (list Address) StorageError := (get_validators s).2.
(** The current validators; none if the list cannot be read. *)
Definition validators_of (s : Reg) : list Address := match read_list s with Ok vs => vs | Err _ => [] end.

Lemma registry_weight_range s v : 1 <= weight_of s v <= u64_max.
Proof.
  rw /weight_of. assert (1 <= u64_max) by done. case_bool_decide; [done|].
  pose proof (hash_to_u64_range (cells s (LWeight v))). lia.
Qed.

Lemma reads_weight s v : reads s (get_validator_weight v) (Ok (weight_of s v)).
Proof.
  eapply reads_bind; [apply reads_get|]. intros s' _. rw /weight_of. case_bool_decide; apply reads_ret.
Qed.
Lemma reads_u256 s l : reads s (get_u256 l) (Ok (hash_to_u256 (cells s l))).
Proof. eapply reads_bind; [apply reads_get|]. intros. apply reads_ret. Qed.
Lemma reads_stake s v : reads s (get_validator_stake v) (Ok (stake_of s v)).
Proof. apply reads_u256. Qed.
Lemma reads_total_staked s : reads s get_total_staked (Ok (total_staked s)).
Proof. apply reads_u256. Qed.
Lemma reads_unit s : reads s get_stake_unit (Ok (unit_of s)).
Proof. apply reads_u256. Qed.
Lemma reads_max_weight s : reads s get_max_validator_weight (Ok (max_weight_of s)).
Proof.
  eapply reads_bind; [apply reads_get|]. intros s' _. rw /max_weight_of. case_bool_decide; apply reads_ret.
Qed.
Lemma reads_staking s : reads s staking_enabled (Ok (staking s)).
Proof. eapply reads_bind; [apply reads_get|]. intros. apply reads_ret. Qed.

(** ** The list of validators *)

Definition list_slot (s : Reg) (i : nat) : Address := cells s (LSlot (N.of_nat i)).
(** The loop over the slots, as a function of their content. *)
Fixpoint read_slots (f : nat → Address) (indices : list nat) (seen : gset Address) (vs : list Address) :
    result (list Address) StorageError :=
  match indices with
  | [] => Ok vs
  | i :: indices =>
      if bool_decide (f i ∈ seen) then Err (Codec "validator registry contains duplicate address")
      else read_slots f indices ({[f i]} ∪ seen) (vs ++ [f i])
  end.
Definition read_count (count : ShellHash) (f : nat → Address) : result (list Address) StorageError :=
  if bool_decide (count = ZERO) then Ok []
  else if MAX_VALIDATORS <? hash_to_u64 count then Err (Codec "validator count exceeds maximum")
  else read_slots f (seq 0 (Z.to_nat (hash_to_u64 count))) ∅ [].

Lemma same_slot s s' : same s s' → list_slot s' = list_slot s.
Proof. intros [Hc _]. by rw /list_slot Hc. Qed.
Lemma reads_slots s indices seen vs :
  reads s (read_validators indices seen vs) (read_slots (list_slot s) indices seen vs).
Proof.
  revert s seen vs. induction indices as [|i indices IH]; intros s seen vs; [apply reads_ret|].
  cbn [read_validators read_slots]. eapply reads_bind; [apply reads_get|]. intros s' Hs. fold (list_slot s i).
  case_bool_decide; [apply reads_fail|]. rw -(same_slot s s' Hs). apply IH.
Qed.
Lemma reads_count s : reads s get_validators (read_count (cells s LCount) (list_slot s)).
Proof.
  eapply reads_bind; [apply reads_get|]. intros s' Hs. rw /read_count -(same_slot s s' Hs).
  case_bool_decide; [apply reads_ret|]. cbv zeta. case_match; [apply reads_fail|apply reads_slots].
Qed.
Lemma read_list_eq s : read_list s = read_count (cells s LCount) (list_slot s).
Proof. apply reads_count. Qed.
Lemma reads_list s : reads s get_validators (read_list s).
Proof. rw read_list_eq. apply reads_count. Qed.
Lemma read_list_same s s' : same s s' → read_list s' = read_list s.
Proof. intros Hs. rw !read_list_eq (same_slot s s') //. by destruct Hs as [-> _]. Qed.

Lemma read_slots_ext f g indices seen vs : (∀ i, f i = g i) → read_slots f indices seen vs = read_slots g indices seen vs.
Proof.
  intros Hfg. revert seen vs. induction indices as [|i indices IH]; intros seen vs; [done|].
  cbn [read_slots]. by rw Hfg IH.
Qed.
(** The list depends only on its own slots. *)
Lemma read_list_cells s s' :
  cells s' LCount = cells s LCount → (∀ i, cells s' (LSlot i) = cells s (LSlot i)) → read_list s' = read_list s.
Proof.
  intros Hc Hi. rw !read_list_eq /read_count Hc. case_bool_decide; [done|]. case_match; [done|].
  apply read_slots_ext. intros i. apply Hi.
Qed.

Lemma read_slots_ok f indices seen vs us :
  read_slots f indices seen vs = Ok us →
  us = vs ++ (f <$> indices) ∧ NoDup (f <$> indices) ∧ (∀ i, i ∈ indices → f i ∉ seen).
Proof.
  revert seen vs. induction indices as [|i indices IH]; intros seen vs; cbn [read_slots].
  { intros [= <-]. rw app_nil_r. split_and!; [done|apply NoDup_nil_2|set_solver]. }
  case_bool_decide; [done|]. intros (->&Hnd&Hseen)%IH. rw -app_assoc /=. split_and!; [done| |].
  - apply NoDup_cons. split; [|done]. intros (j&Heq&Hj)%list_elem_of_fmap. apply (Hseen j Hj). set_solver.
  - intros j [->|Hj]%elem_of_cons; [done|]. specialize (Hseen j Hj). set_solver.
Qed.
Lemma read_slots_total f indices seen vs :
  NoDup (f <$> indices) → (∀ i, i ∈ indices → f i ∉ seen) →
  read_slots f indices seen vs = Ok (vs ++ (f <$> indices)).
Proof.
  revert seen vs. induction indices as [|i indices IH]; intros seen vs Hnd Hseen; cbn [read_slots].
  { by rw app_nil_r. }
  rw bool_decide_false; [apply Hseen; set_solver|]. apply NoDup_cons in Hnd as [Hi Hnd]. rw IH //.
  - intros j Hj Hin. apply elem_of_union in Hin as [Heq%elem_of_singleton|Hin]; [|set_solver].
    apply Hi. rw -Heq. by apply list_elem_of_fmap_2.
  - by rw -app_assoc.
Qed.

Lemma read_list_ok s vs : read_list s = Ok vs → NoDup vs ∧ len vs <= MAX_VALIDATORS.
Proof.
  rw read_list_eq /read_count. case_bool_decide; [intros [= <-]; by split; [apply NoDup_nil_2|]|].
  case_match eqn:Hm; [done|]. intros (->&Hnd&_)%read_slots_ok. split; [done|].
  apply Z.ltb_ge in Hm. pose proof (hash_to_u64_range (cells s LCount)).
  rw /len app_nil_l length_fmap length_seq. lia.
Qed.

(** [find_duplicate] finds one unless all differ. *)
Lemma find_duplicate_none seen l : find_duplicate seen l = None ↔ NoDup l ∧ ∀ v, v ∈ l → v ∉ seen.
Proof.
  revert seen. induction l as [|v l IH]; intros seen; cbn [find_duplicate].
  { split; [|done]. intros _. split; [apply NoDup_nil_2|set_solver]. }
  case_bool_decide as Hv; [split; [done|set_solver]|]. rw IH NoDup_cons. set_solver.
Qed.

(** ** Writing the list *)

Definition keeps_rest (s s' : Reg) : Prop :=
  bals s' = bals s ∧ keys s' = keys s ∧ fallbacks s' = fallbacks s ∧ algs s' = algs s.
#[global] Instance keeps_rest_preorder : PreOrder keeps_rest.
Proof. split; [done|]. intros s1 s2 s3 (?&?&?&?) (?&?&?&?). rw /keeps_rest. split_and!; congruence. Qed.
Lemma same_keeps s s' : same s s' → keeps_rest s s'.
Proof. by intros [_ ?]. Qed.

(** A loop that writes [f x] at distinct labels [g x]. *)
Lemma wp_set_all {A} (g : A → label) (f : A → ShellHash) (l : list A) s R :
  (∀ x y, x ∈ l → y ∈ l → g x = g y → f x = f y) →
  wp (mfor (λ x, cell_set (g x) (f x)) l)
    (λ _ s', keeps_rest s s' ∧ (∀ x, x ∈ l → cells s' (g x) = f x) ∧ ∀ k, k ∉ g <$> l → cells s' k = cells s k) R s.
Proof.
  revert s. induction l as [|x l IH]; intros s Hf; [rw /wp; set_solver|]. cbn [mfor]. apply wp_bind.
  change (wp (mfor (λ x, cell_set (g x) (f x)) l) (λ _ s', keeps_rest s s' ∧ (∀ y, y ∈ x :: l → cells s' (g y) = f y) ∧
    ∀ k, k ∉ g <$> x :: l → cells s' k = cells s k) R (set_cell s (g x) (f x))).
  eapply wp_mono; [apply IH; set_solver| |done]. intros _ s' (Hk&Hin&Hout). split_and!.
  - etrans; [|done]. done.
  - intros y [->|Hy]%elem_of_cons; [|by apply Hin].
    destruct (decide (g x ∈ g <$> l)) as [(z&Hz&Hzl)%list_elem_of_fmap|Hn].
    + rw Hz Hin //. apply Hf; [by right|by left|done].
    + rw Hout // /=. by rw decide_True.
  - intros k Hk'. rw Hout; [set_solver|]. rw /= decide_False //. set_solver.
Qed.

Lemma elem_of_zip_seq {A} (l : list A) k i x : (i, x) ∈ zip (seq k (length l)) l → ∃ j, i = (k + j)%nat ∧ l !! j = Some x.
Proof.
  revert k. induction l as [|y l IH]; intros k; cbn; [set_solver|].
  intros [[= -> ->]|Hin]%elem_of_cons; [exists 0%nat; split; [lia|done]|].
  apply IH in Hin as (j&->&Hj). exists (S j). split; [lia|done].
Qed.
Lemma zip_seq_elem {A} (l : list A) k j x : l !! j = Some x → ((k + j)%nat, x) ∈ zip (seq k (length l)) l.
Proof.
  revert k j. induction l as [|y l IH]; intros k j; [done|]. destruct j as [|j]; cbn.
  - intros [= ->]. rw Nat.add_0_r. by left.
  - intros Hj. right. rw Nat.add_succ_r. by apply (IH (S k)).
Qed.

Definition list_label (l : label) : Prop := match l with LCount | LSlot _ => True | _ => False end.

Lemma read_written s vs :
  NoDup vs → len vs <= MAX_VALIDATORS → cells s LCount = u64_to_hash (len vs) →
  (∀ j v, vs !! j = Some v → list_slot s j = v) → read_list s = Ok vs.
Proof.
  intros Hnd Hlen Hc Hs. assert (0 <= len vs <= u64_max).
  { rw /len in Hlen *. assert (MAX_VALIDATORS <= u64_max) by done. lia. }
  rw read_list_eq /read_count Hc hash_u64_roundtrip //.
  assert (list_slot s <$> seq 0 (length vs) = vs) as Hvs.
  { apply list_eq. intros i. rw list_lookup_fmap. destruct (vs !! i) as [v|] eqn:Hi.
    - rw lookup_seq_lt; [by eapply lookup_lt_Some|]. by rw /= (Hs i v Hi).
    - rw lookup_seq_ge //. by apply lookup_ge_None. }
  case_bool_decide as Hz.
  { apply u64_to_hash_zero in Hz; [|done]. rw /len in Hz. by destruct vs. }
  rw (proj2 (Z.ltb_ge _ _)) // {1}/len Nat2Z.id read_slots_total; rw ?Hvs //; set_solver.
Qed.

(** [set_validators] fails without a change or is read back. *)
Lemma wp_set_validators vs s R :
  NoDup vs → len vs <= MAX_VALIDATORS →
  wp (set_validators vs)
    (λ _ s', read_list s' = Ok vs ∧ keeps_rest s s' ∧ ∀ l, ¬ list_label l → cells s' l = cells s l) R s.
Proof.
  intros Hnd Hlen. rw /set_validators (proj2 (Z.ltb_ge _ _)) // bool_decide_false.
  { rw (proj2 (find_duplicate_none ∅ vs)); [split; [done|set_solver]|]. by intros [? ?]. }
  eapply wp_bind_reads; [apply reads_get|]. intros s1 Hs1. cbv zeta. apply wp_bind.
  eapply wp_mono; [apply (wp_set_all (λ p, LSlot (N.of_nat p.1)) snd)| |].
  { intros [i x] [j y] Hx Hy [= Hij%Nat2N.inj]. apply elem_of_zip_seq in Hx as (i'&->&Hi). simpl in *.
    apply elem_of_zip_seq in Hy as (j'&->&Hj). simpl in *. subst. congruence. }
  2: done.
  intros _ s2 (Hk2&Hin2&Hout2). apply wp_bind.
  eapply wp_mono; [apply (wp_set_all (λ i, LSlot (N.of_nat i)) (λ _, ZERO)); done| |done].
  intros _ s3 (Hk3&_&Hout3). change (wp (cell_set LCount (u64_to_hash (len vs)))
    (λ _ s', read_list s' = Ok vs ∧ keeps_rest s s' ∧ ∀ l, ¬ list_label l → cells s' l = cells s l) R s3).
  rw /wp. cbn [cell_set plain_cells]. split_and!.
  - apply read_written; [done|done|reflexivity|]. intros j v Hj. rw /list_slot /= Hout3.
    + intros (i&Hi&Hin)%list_elem_of_fmap. apply elem_of_seq in Hin. simplify_eq.
      apply lookup_lt_Some in Hj. lia.
    + by apply (Hin2 (j, v)), (zip_seq_elem vs 0).
  - etrans; [by apply same_keeps|]. etrans; [done|]. etrans; [done|]. done.
  - intros l Hl. rw /= decide_False; [by intros <-|]. rw Hout3.
    { intros (i&->&_)%list_elem_of_fmap. by apply Hl. }
    rw Hout2; [|by destruct Hs1 as [-> _]]. intros (i&->&_)%list_elem_of_fmap. by apply Hl.
Qed.

(** ** Votes *)

Definition voted (s : Reg) (op : ValidatorRegistryOp) (t : Address) (vs : list Address) (v : Address) : Prop :=
  cells s (LVote op t v vs) ≠ ZERO.
#[global] Instance voted_dec s op t vs v : Decision (voted s op t vs v) :=
  decide (¬ cells s (LVote op t v vs) = ZERO).
(** Those of [vs] whose ballots are recorded. *)
Definition voters (s : Reg) (op : ValidatorRegistryOp) (t : Address) (vs : list Address) : list Address :=
  filter (voted s op t vs) vs.
(** The share of the weight a proposal needs: more than half, or more than two thirds. *)
Definition quorum (op : ValidatorRegistryOp) (weight total : Z) : Prop :=
  match op with
  | Add | Remove | RegisterProver => total < 2 * weight
  | SetWeight _ | SetStake _ => 2 * total < 3 * weight
  end.

Lemma same_weight s s' : same s s' → weight_of s' = weight_of s.
Proof. intros [Hc _]. by rw /weight_of Hc. Qed.
Lemma same_voters s s' op t vs : same s s' → voters s' op t vs = voters s op t vs.
Proof. intros [Hc _]. apply list_filter_iff. intros v. by rw /voted Hc. Qed.

Lemma sumZ_filter_le {A} (P : A → Prop) `{∀ x, Decision (P x)} (f : A → Z) l :
  (∀ x, 0 <= f x) → 0 <= sumZ f (filter P l) <= sumZ f l.
Proof.
  intros Hf. induction l as [|x l IH]; [done|]. rw filter_cons sumZ_cons. specialize (Hf x).
  case_decide; rw ?sumZ_cons; lia.
Qed.

Lemma reads_tally s0 s op t vs rest x y :
  same s0 s → 0 <= x <= y → y + Z.of_nat (length rest) * u64_max <= u128_max →
  reads s (tally op t vs rest x y)
    (Ok (x + sumZ (weight_of s0) (filter (voted s0 op t vs) rest), y + sumZ (weight_of s0) rest)).
Proof.
  revert s x y. induction rest as [|v rest IH]; intros s x y Hs Hx Hy.
  { rw filter_nil !sumZ_nil !Z.add_0_r. apply reads_ret. }
  cbn [tally]. pose proof (registry_weight_range s0 v). cbn [length] in Hy. rw Nat2Z.inj_succ in Hy.
  assert (0 <= Z.of_nat (length rest) * u64_max) by (apply Z.mul_nonneg_nonneg; [lia|done]).
  eapply reads_bind; [apply (reads_st s _ _ (reads_weight s v))|]. intros s1 Hs1. cbv zeta.
  eapply reads_bind; [apply (reads_st s1 _ _ (reads_get s1 _))|]. intros s2 Hs2.
  rw (same_weight s0 s) //.
  assert (wrap_u128 (y + weight_of s0 v) = y + weight_of s0 v) as -> by (rw /wrap_u128 Z.mod_small //; lia).
  assert (wrap_u128 (x + weight_of s0 v) = x + weight_of s0 v) as -> by (rw /wrap_u128 Z.mod_small //; lia).
  assert (cells s1 = cells s0) as -> by (transitivity (cells s); [apply Hs1|apply Hs]).
  assert (same s0 s2) as Hs' by (etrans; [done|]; by etrans).
  rw filter_cons sumZ_cons. case_decide as Hv; case_bool_decide as Hb; try done.
  - rw sumZ_cons !Z.add_assoc. apply IH; [done|lia..].
  - rw Z.add_assoc. apply IH; [done|lia..].
Qed.

(** A vote adds the caller's ballot and passes on the weight of all ballots. *)
Lemma wp_record op t caller vs s Q R :
  len vs <= MAX_VALIDATORS →
  (∀ s', same (set_cell s (LVote op t caller vs) BALLOT) s' →
     ∀ b : bool, (b = true ↔ quorum op (sumZ (weight_of s') (voters s' op t vs)) (sumZ (weight_of s') vs)) → Q b s') →
  wp (record_validator_vote op t caller vs) Q R s.
Proof.
  intros Hlen HQ. set (s1 := set_cell s (LVote op t caller vs) BALLOT) in *. rw /record_validator_vote. apply wp_bind.
  change (wp (let* t0 := tally op t vs vs 0 0 in mret (quorum_reached op t0.1 t0.2)) Q R s1).
  assert (Z.of_nat (length vs) * u64_max * 3 <= u128_max).
  { transitivity (MAX_VALIDATORS * u64_max * 3); [|done]. rw /len in Hlen. assert (0 < u64_max) by done. nia. }
  eapply wp_bind_reads.
  { apply (reads_tally s1 s1); [done|lia|]. pose proof (Nat2Z.is_nonneg (length vs)). assert (0 < u64_max) by done. nia. }
  intros s2 Hs2. cbn [fst snd]. apply wp_ret, HQ; [done|]. rw !Z.add_0_l (same_weight s1 s2) // (same_voters s1 s2) // /voters.
  pose proof (sumZ_filter_le (voted s1 op t vs) (weight_of s1) vs) as Hle.
  pose proof (sumZ_le_len (weight_of s1) vs u64_max) as Hmax.
  set (x := sumZ _ (filter _ _)) in *. set (y := sumZ _ vs) in *.
  assert (0 <= x <= y) by (apply Hle; intros v; pose proof (registry_weight_range s1 v); lia).
  assert (y <= u64_max * Z.of_nat (length vs)) by (apply Hmax; intros v _; pose proof (registry_weight_range s1 v); lia).
  destruct op; rw /quorum_reached /quorum /wrap_u128 !(Z.mod_small _ (u128_max + 1)) ?Z.ltb_lt; lia.
Qed.
