(* ===== verification/RegistryQuorum.v ===== *)
(** * Quorums of the validator registry

    Over any sequence of calls, nothing but ballots changes without a quorum of
    the current validators, each of whom made that very call while the list was
    the same; stakes are bonded and unbonded only by their validator. *)

From S2P Require Import Prelude Primitives Fee Rlp Transaction TxValidation TxCodec BTree KvStore Overlay OverlayView OverlayProps OverlayJournal MetadataUndo Keccak RwSet PoaConfig Account Effects World RegistryKeys Cells AlgorithmRegistry Abi AccountManager Registry Governance SystemContracts PlainRegistry RegistryWrites RegistryReads.

(** ** Programs that only read *)

Definition reading {E A} (m : M Reg E A) : Prop := ∀ s, same s (m s).1.

Lemma reading_reads {E A} (m : M Reg E A) s : reading m → reads s m (m s).2.
Proof. intros Hm. by split. Qed.
Lemma reads_reading {E A} (m : M Reg E A) (f : Reg → result A E) : (∀ s, reads s m (f s)) → reading m.
Proof. intros Hm s. apply Hm. Qed.
Lemma reading_ret {E A} (a : A) : reading (E := E) (mret a).
Proof. by intros s. Qed.
Lemma reading_fail {E A} (e : E) : reading (A := A) (mfail e).
Proof. by intros s. Qed.
Lemma reading_lift {E A} (r : result A E) : reading (mlift r).
Proof. by intros s. Qed.
Lemma reading_bind {E A B} (m : M Reg E A) (k : A → M Reg E B) :
  reading m → (∀ x, reading (k x)) → reading (mbind_ m k).
Proof.
  intros Hm Hk s. specialize (Hm s). rw /mbind_. destruct (m s) as [s' [x|e]]; [|done]. etrans; [done|]. apply Hk.
Qed.
Lemma reading_st {A} (m : M Reg StorageError A) : reading m → reading (st m).
Proof. intros Hm s. specialize (Hm s). rw /st /mmap_err. by destruct (m s). Qed.
Lemma reading_get l : reading (cell_get l).
Proof. by intros s. Qed.
Lemma reading_bal_get a : reading (bal_get a).
Proof. by intros s. Qed.
Lemma reading_key_get a : reading (key_get a).
Proof. by intros s. Qed.
Lemma reading_if {E A} (c : bool) (m n : M Reg E A) : reading m → reading n → reading (if c then m else n).
Proof. by destruct c. Qed.

Create HintDb reading.
#[export] Hint Resolve reading_ret reading_fail reading_lift reading_get reading_bal_get reading_key_get : reading.
Ltac reading_step :=
  cbv beta zeta;
  match goal with
  | |- reading (mbind_ _ _) => apply reading_bind; [|intros ?]
  | |- reading (st _) => apply reading_st
  | |- reading (if ?c then _ else _) => apply reading_if
  | |- reading (match ?c with _ => _ end) => destruct c
  | |- reading _ => solve [auto with reading]
  end.
Ltac reading_auto := repeat reading_step.

Lemma reading_validators : reading get_validators.
Proof. exact (reads_reading _ _ reads_list). Qed.
Lemma reading_weight v : reading (get_validator_weight v).
Proof. exact (reads_reading _ _ (λ s, reads_weight s v)). Qed.
Lemma reading_staking : reading staking_enabled.
Proof. exact (reads_reading _ _ reads_staking). Qed.
Lemma reading_u256 l : reading (get_u256 l).
Proof. exact (reads_reading _ _ (λ s, reads_u256 s l)). Qed.
Lemma reading_max : reading get_max_validator_weight.
Proof. exact (reads_reading _ _ reads_max_weight). Qed.
Lemma reading_stake v : reading (get_validator_stake v).
Proof. apply reading_u256. Qed.
#[export] Hint Resolve reading_validators reading_weight reading_staking reading_u256 reading_max reading_stake : reading.
Lemma reading_derived x : reading (derived_weight x).
Proof. unfold derived_weight, get_stake_unit. reading_auto. Qed.
Lemma reading_validate t x : reading (validate_validator_stake_total t x).
Proof. unfold validate_validator_stake_total, get_total_staked. reading_auto. Qed.
Lemma reading_ensure : reading ensure_staking_enabled.
Proof. unfold ensure_staking_enabled. reading_auto. Qed.
Lemma reading_key_words a indices k : reading (read_key_words a indices k).
Proof.
  revert k. induction indices as [|i indices IH]; intros k; [apply reading_ret|]. cbn [read_key_words]. reading_auto.
Qed.
#[export] Hint Resolve reading_derived reading_validate reading_ensure reading_key_words : reading.
Lemma reading_prover a : reading (get_registered_prover a).
Proof. unfold get_registered_prover. reading_auto. Qed.
#[export] Hint Resolve reading_prover : reading.

(** ** Ballots decide *)

(** Nothing but ballots differs. *)
Definition ballots_only (s s' : Reg) : Prop :=
  (∀ l, (∀ op t u vs, l ≠ LVote op t u vs) → cells s' l = cells s l) ∧ bals s' = bals s.
(** Those of [vs] counted when [caller] votes: the earlier voters and the caller. *)
Definition counted (s : Reg) (op : ValidatorRegistryOp) (t caller : Address) (vs : list Address) : list Address :=
  filter (λ v, v = caller ∨ voted s op t vs v) vs.
(** The caller is a validator and its call completes a quorum for [op] on [t]. *)
Definition approved (s : Reg) (op : ValidatorRegistryOp) (t caller : Address) : Prop :=
  ∃ vs, read_list s = Ok vs ∧ caller ∈ vs ∧
    quorum op (sumZ (weight_of s) (counted s op t caller vs)) (sumZ (weight_of s) vs).

Lemma ballots_only_same s s' : same s s' → ballots_only s s'.
Proof. intros (Hc&Hb&_). split; [|done]. intros l _. by rw Hc. Qed.
Lemma counted_same s s' op t caller vs : same s s' → counted s' op t caller vs = counted s op t caller vs.
Proof. intros [Hc _]. apply list_filter_iff. intros v. by rw /voted Hc. Qed.
Lemma approved_same s s' op t caller : same s s' → approved s' op t caller → approved s op t caller.
Proof.
  intros Hs (vs&Hl&Hin&Hq). exists vs. rw -(read_list_same s s' Hs) -(same_weight s s' Hs).
  by rw -(counted_same s s').
Qed.
Lemma ballots_only_from s s1 s' : same s s1 → ballots_only s1 s' → ballots_only s s'.
Proof. intros (Hc&Hb&_) [H1 H2]. rw Hc Hb in H1 H2. by split. Qed.

Lemma ballot_cast : BALLOT ≠ ZERO.
Proof. intros H%(f_equal b256_unsigned). vm_compute in H. discriminate H. Qed.
(** A vote changes only ballots, records the caller's and answers whether there
    is a quorum. *)
Lemma wp_record_counted op t caller vs s : len vs <= MAX_VALIDATORS →
  wp (record_validator_vote op t caller vs)
    (λ b s', ballots_only s s' ∧ voted s' op t vs caller ∧
       (b = true ↔ quorum op (sumZ (weight_of s) (counted s op t caller vs)) (sumZ (weight_of s) vs)))
    (λ _ _, False) s.
Proof.
  intros Hlen. apply wp_record; [done|]. intros s' (Hc&Hbal&_) b Hb. split_and!.
  - split; [|by rw Hbal]. intros l Hn. by rw Hc /= decide_False.
  - rw /voted Hc /= decide_True; [reflexivity|exact ballot_cast].
  - assert (weight_of s' = weight_of s) as Hw by (by rw /weight_of Hc).
    assert (voters s' op t vs = counted s op t caller vs) as Hv; [|by rw Hw Hv in Hb].
    apply list_filter_iff. intros v. rw /voted Hc /=.
    destruct (decide _) as [[= ->]|Hn]; [split; [by left|intros _; exact ballot_cast]|].
    split; [by right|]. intros [->|?]; [|done]. by destruct Hn.
Qed.

(** [m] changes nothing but ballots unless approved. *)
Definition guarded {E A} (op : ValidatorRegistryOp) (t caller : Address) (m : M Reg E A) (s : Reg) : Prop :=
  ballots_only s (m s).1 ∨ approved s op t caller.

Section guarded.
Context (op : ValidatorRegistryOp) (t caller : Address).

Lemma guarded_reading {E A} (m : M Reg E A) s : reading m → guarded op t caller m s.
Proof. intros Hm. left. apply ballots_only_same, Hm. Qed.
Lemma guarded_bind {E A B} (m : M Reg E A) (k : A → M Reg E B) s :
  reading m → (∀ s' a, same s s' → (m s).2 = Ok a → guarded op t caller (k a) s') →
  guarded op t caller (mbind_ m k) s.
Proof.
  intros Hm Hk. specialize (Hm s). rw /guarded /mbind_. destruct (m s) as [s1 [a|e]]; simpl in *.
  - destruct (Hk s1 a Hm eq_refl) as [H|H]; [left; by eapply ballots_only_from|right; by eapply approved_same].
  - left. by apply ballots_only_same.
Qed.
Lemma guarded_vote {A} vs (k : bool → M Reg SystemContractError A) s :
  read_list s = Ok vs → caller ∈ vs → reading (k false) →
  guarded op t caller (mbind_ (record_validator_vote op t caller vs) k) s.
Proof.
  intros Hl Hin Hk. destruct (read_list_ok s vs Hl) as [_ Hlen].
  pose proof (wp_record_counted op t caller vs s Hlen) as Hrec. rw /guarded /mbind_. rw /wp in Hrec.
  destruct (record_validator_vote _ _ _ _ _) as [s1 [[]|e]]; simpl in *; [..|done]; destruct Hrec as ([H1 H2]&_&Hq).
  - right. exists vs. split_and!; [done..|]. by apply Hq.
  - left. destruct (Hk s1) as (Hc&Hb&_). split; [intros l Hn; by rw Hc H1|by rw Hb].
Qed.
Lemma guarded_if {E A} (c : bool) (m n : M Reg E A) s :
  (c = true → guarded op t caller m s) → (c = false → guarded op t caller n s) →
  guarded op t caller (if c then m else n) s.
Proof. destruct c; auto. Qed.
End guarded.

Lemma st_list s vs : (st get_validators s).2 = Ok vs → read_list s = Ok vs.
Proof.
  destruct (reads_st s _ _ (reads_list s)) as [_ ->]. destruct (read_list s); [by intros [= ->]|done].
Qed.

(** Carries the list read by [get_validators] to the vote. *)
Ltac guarded_step :=
  cbv beta zeta;
  match goal with
  | H : read_list ?s = Ok ?vs |- guarded ?op _ _ (mbind_ (record_validator_vote ?op _ _ ?vs) _) ?s =>
      apply (guarded_vote _ _ _ vs); [exact H| |solve [reading_auto]]
  | |- guarded _ _ _ (mbind_ (st get_validators) _) ?s =>
      let s' := fresh "s" in let vs := fresh "vs" in let Hs := fresh "Hs" in let Hl := fresh "Hl" in
      apply guarded_bind; [solve [reading_auto]|intros s' vs Hs Hl%st_list; rw -(read_list_same s s' Hs) in Hl]
  | H : read_list ?s = Ok _ |- guarded _ _ _ (mbind_ _ _) ?s =>
      let s' := fresh "s" in let Hs := fresh "Hs" in
      apply guarded_bind; [solve [reading_auto]|intros s' ? Hs _; rw -(read_list_same s s' Hs) in H]
  | |- guarded _ _ _ (mbind_ _ _) ?s => apply guarded_bind; [solve [reading_auto]|intros ? ? _ _]
  | |- guarded _ _ _ (mfail _) _ => apply guarded_reading, reading_fail
  | |- guarded _ _ _ (mret _) _ => apply guarded_reading, reading_ret
  | |- guarded _ _ _ (if _ then _ else _) _ => apply guarded_if; intros ?
  | |- guarded _ _ _ (match ?x with _ => _ end) _ => destruct x
  | H : negb (bool_decide (_ ∈ _)) = false |- _ ∈ _ => apply negb_false_iff, bool_decide_eq_true in H; exact H
  end.

Lemma guarded_add caller t k s : guarded Add t caller (add_validator caller t k) s.
Proof. unfold add_validator. repeat guarded_step. Qed.
Lemma guarded_remove caller t s : guarded Remove t caller (remove_validator caller t) s.
Proof. unfold remove_validator. repeat guarded_step. Qed.
Lemma guarded_set_weight caller t x s : guarded (SetWeight x) t caller (set_validator_weight_op caller t x) s.
Proof. unfold set_validator_weight_op. repeat guarded_step. Qed.
Lemma guarded_set_stake caller t x s : guarded (SetStake x) t caller (set_validator_stake_op caller t x) s.
Proof. unfold set_validator_stake_op. repeat guarded_step. Qed.
Lemma guarded_prover `{Hs : Hashes} caller key algo params env n s :
  decode_rotate_key_params params = Ok (key, algo) →
  guarded RegisterProver (from_public_key key algo) caller (register_prover caller params env n) s.
Proof. intros Hd. unfold register_prover. rw Hd lift_ok_bind. repeat guarded_step. Qed.

(** Bonding and unbonding is up to the validator, with staking enabled. *)
Definition own_stake (s s' : Reg) (caller t : Address) : Prop := ballots_only s s' ∨ (caller = t ∧ staking s = true).

Lemma own_stake_if {A} (m : M Reg SystemContractError A) caller t s :
  own_stake s ((do* ensure_staking_enabled; if negb (bool_decide (caller = t)) then mfail Unauthorized else m) s).1 caller t.
Proof.
  rw /own_stake. destruct (staking s) eqn:He, (decide (caller = t)) as [Hc|Hc]; auto; left; apply ballots_only_same.
  - rw bool_decide_false //. revert s He. intros s _. revert s. change (reading (A := A)
      (do* ensure_staking_enabled; mfail Unauthorized)). reading_auto.
  - rw /ensure_staking_enabled /mbind_ /st /mmap_err. destruct (reads_staking s) as [Hs Hr].
    destruct (staking_enabled s) as [s1 r]. simpl in *. rw Hr /= He. done.
  - rw bool_decide_false //. revert s He. intros s _. revert s. change (reading (A := A)
      (do* ensure_staking_enabled; mfail Unauthorized)). reading_auto.
Qed.

(** ** Ballots are cast on the current list *)

Definition casts_current {E A} (m : M Reg E A) (s : Reg) : Prop := ∀ op t u vs,
  read_list s ≠ Ok vs → cells (m s).1 (LVote op t u vs) = cells s (LVote op t u vs).
(** Ballots of [vs], and everything else. *)
Definition of_list (vs : list Address) (l : label) : Prop := match l with LVote _ _ _ us => us = vs | _ => True end.

Lemma casts_writes {E A} (m : M Reg E A) s vs b : read_list s = Ok vs → writes (of_list vs) b m → casts_current m s.
Proof. intros Hl Hw op t u us Hne. apply (Hw s). simpl. intros ->. done. Qed.
Lemma casts_reading {E A} (m : M Reg E A) s : reading m → casts_current m s.
Proof. intros Hm op t u vs _. specialize (Hm s) as [Hc _]. by rw Hc. Qed.
Lemma casts_none {E A} (m : M Reg E A) s P b :
  writes P b m → (∀ op t u vs, ¬ P (LVote op t u vs)) → casts_current m s.
Proof. intros Hw HP op t u vs _. apply (Hw s), HP. Qed.
Lemma casts_bind {E A B} (m : M Reg E A) (k : A → M Reg E B) s :
  reading m → (∀ s' a, same s s' → (m s).2 = Ok a → casts_current (k a) s') → casts_current (mbind_ m k) s.
Proof.
  intros Hm Hk op t u vs Hne. specialize (Hm s). rw /mbind_. destruct (m s) as [s1 [a|e]]; simpl in *.
  - rw (Hk s1 a Hm eq_refl) ?(read_list_same s s1) //. by destruct Hm as [-> _].
  - by destruct Hm as [-> _].
Qed.

Ltac casts_step :=
  cbv beta zeta;
  match goal with
  | H : read_list ?s = Ok ?vs |- casts_current _ ?s => apply (casts_writes _ _ vs true); [exact H|]
  | |- casts_current (mbind_ (st get_validators) _) ?s =>
      let s' := fresh "s" in let vs := fresh "vs" in let Hs := fresh "Hs" in let Hl := fresh "Hl" in
      apply casts_bind; [solve [reading_auto]|intros s' vs Hs Hl%st_list; rw -(read_list_same s s' Hs) in Hl]
  | |- casts_current (mbind_ _ _) ?s => apply casts_bind; [solve [reading_auto]|intros ? ? _ _]
  | |- casts_current (mfail _) _ => apply casts_reading, reading_fail
  | |- casts_current (mret _) _ => apply casts_reading, reading_ret
  | |- casts_current (if ?c then _ else _) _ => destruct c
  | |- casts_current (match ?x with _ => _ end) _ => destruct x
  end.

Lemma casts_add caller t k s : casts_current (add_validator caller t k) s.
Proof.
  unfold add_validator. repeat casts_step. unfold admit_validator, get_validator_stake. writes_auto; try done.
  - by apply writes_record.
  - by apply writes_set_validators.
  - by apply writes_apply.
  - by apply writes_set_weight.
Qed.
Lemma casts_remove caller t s : casts_current (remove_validator caller t) s.
Proof. unfold remove_validator. repeat casts_step. writes_auto; [by apply writes_record|by apply writes_set_validators]. Qed.
Lemma casts_set_weight caller t x s : casts_current (set_validator_weight_op caller t x) s.
Proof. unfold set_validator_weight_op. repeat casts_step. writes_auto; [by apply writes_record|by apply writes_set_weight]. Qed.
Lemma casts_set_stake caller t x s : casts_current (set_validator_stake_op caller t x) s.
Proof. unfold set_validator_stake_op. repeat casts_step. writes_auto; [by apply writes_record|by apply writes_apply]. Qed.
Lemma casts_prover `{Hs : Hashes} caller params env n s : casts_current (register_prover caller params env n) s.
Proof. unfold register_prover. repeat casts_step. writes_auto; [by apply writes_record|by apply writes_set_prover]. Qed.

(** ** Histories *)

Section histories.
Context {Hs : Hashes}.

(** A call that failed may have been rolled back. *)
Inductive reg_step (c : reg_call) (s : Reg) : Reg → Prop :=
| step_run : reg_step c s (run_reg c s).1
| step_rolled_back e : (run_reg c s).2 = Err e → reg_step c s s.
(** The calls from [s0], the latest first, each with the state it ran from. *)
Inductive history (s0 : Reg) : list (reg_call * Reg) → Reg → Prop :=
| history_start : history s0 [] s0
| history_next h s c s' : history s0 h s → reg_step c s s' → history s0 ((c, s) :: h) s'.

Lemma run_reg_prover c a : reg_action_of c = AProver a →
  ∃ key algo, decode_rotate_key_params (drop 4 (rc_input c)) = Ok (key, algo) ∧ a = from_public_key key algo ∧
    run_reg c = register_prover (rc_caller c) (drop 4 (rc_input c)) (rc_env c) (rc_block c).
Proof.
  rw /run_reg /execute_registry_call /reg_action_of /sc_decode_selector.
  destruct (len (rc_input c) <? 4); [done|]. cbv zeta. rw !lift_ok_bind.
  generalize REGISTER_PROVER_SELECTOR ADD_VALIDATOR_SELECTOR REMOVE_VALIDATOR_SELECTOR SET_VALIDATOR_WEIGHT_SELECTOR
    SET_VALIDATOR_STAKE_SELECTOR BOND_VALIDATOR_STAKE_SELECTOR UNBOND_VALIDATOR_STAKE_SELECTOR.
  intros x1 x2 x3 x4 x5 x6 x7. case_bool_decide.
  { destruct (decode_rotate_key_params _) as [[key algo]|]; [|done]. intros [= <-]. by exists key, algo. }
  do 2 (case_bool_decide; [by destruct (sc_decode_address _)|]).
  case_bool_decide; [by destruct (decode_address_u64 _)|].
  by do 3 (case_bool_decide; [by destruct (decode_address_u256 _)|]).
Qed.

(** The state after a ledger call is that after its operation. *)
Lemma run_reg_state c s : is_ledger_action (reg_action_of c) = true →
  (run_reg c s).1 = (run_action c (reg_action_of c) s).1.
Proof.
  intros Hl. rw (run_reg_action c Hl) /mbind_. by destruct (run_action c (reg_action_of c) s) as [s' [b|e]].
Qed.

(** What a call needs to change more than ballots. *)
Definition call_allowed (c : reg_call) (s s' : Reg) : Prop :=
  match reg_action_of c with
  | ABond t _ | AUnbond t _ => rc_caller c = t ∧ staking s = true
  | AGovernance => bals s' = bals s ∧ ∀ l, region (rc_caller c) AGovernance l ∨ cells s' l = cells s l
  | act => ∃ op t, vote_of act = Some (op, t) ∧ approved s op t (rc_caller c)
  end.

Lemma region_gov_dec caller l : Decision (region caller AGovernance l).
Proof. destruct l; cbn; try apply _; try (by left); right; by intros [_ ?]. Qed.

Lemma run_allowed c s : ballots_only s (run_reg c s).1 ∨ call_allowed c s (run_reg c s).1.
Proof.
  pose proof (run_reg_writes c s) as [Hw1 Hw2]. rw /call_allowed.
  destruct (is_ledger_action (reg_action_of c)) eqn:Hl.
  { rw (run_reg_state c s Hl). clear Hw1 Hw2. destruct (reg_action_of c) eqn:Ha; try done; cbn [run_action vote_of].
    - destruct (guarded_add (rc_caller c) target true s); eauto.
    - destruct (guarded_remove (rc_caller c) target s); eauto.
    - destruct (guarded_set_weight (rc_caller c) target weight s); eauto.
    - destruct (guarded_set_stake (rc_caller c) target stake s); eauto.
    - apply own_stake_if.
    - apply own_stake_if. }
  destruct (reg_action_of c) eqn:Ha; try done.
  - destruct (run_reg_prover c address Ha) as (key&algo&Hd&->&->).
    destruct (guarded_prover (rc_caller c) key algo (drop 4 (rc_input c)) (rc_env c) (rc_block c) s Hd); eauto.
  - right. split; [by apply Hw2|]. intros l. destruct (region_gov_dec (rc_caller c) l); [by left|right; auto].
  - left. split; [|by apply Hw2]. intros l Hn. apply Hw1. destruct l; cbn; intros Hr; try done; try discriminate Hr. by destruct Hr.
Qed.

Lemma run_casts c s : casts_current (run_reg c) s.
Proof.
  destruct (is_ledger_action (reg_action_of c)) eqn:Hl.
  { assert (casts_current (run_action c (reg_action_of c)) s) as H.
    { pose proof (run_reg_writes c) as Hw. destruct (reg_action_of c); try done; cbn [run_action].
      - apply casts_add.
      - apply casts_remove.
      - apply casts_set_weight.
      - apply casts_set_stake.
      - eapply casts_none; [apply writes_bond|]. by intros ???? [_ ?].
      - eapply casts_none; [apply writes_unbond|]. by intros ???? [_ ?]. }
    intros op t u vs Hne. rw (run_reg_state c s Hl). by apply H. }
  destruct (reg_action_of c) eqn:Ha; try done.
  - destruct (run_reg_prover c address Ha) as (key&algo&_&_&->). apply casts_prover.
  - eapply casts_none; [apply run_reg_writes|]. rw Ha. by intros ???? [_ ?].
  - eapply casts_none; [apply run_reg_writes|]. rw Ha. by intros ???? [_ ?].
Qed.

Definition no_ballots (s : Reg) : Prop := ∀ op t v vs, ¬ voted s op t vs v.
(** [v] called for [op] on [t] when the list was [vs]. *)
Definition called (h : list (reg_call * Reg)) (op : ValidatorRegistryOp) (t : Address) (vs : list Address) (v : Address) :
    Prop :=
  ∃ c s, (c, s) ∈ h ∧ rc_caller c = v ∧ vote_of (reg_action_of c) = Some (op, t) ∧ read_list s = Ok vs.

(** Every ballot was cast by a call of its voter. *)
Lemma ballots_called s0 h s op t vs v : no_ballots s0 → history s0 h s → voted s op t vs v → called h op t vs v.
Proof.
  intros H0 Hh. induction Hh as [|h s c s' Hh IH Hstep]; [by intros ?%H0|]. intros Hv.
  assert (called h op t vs v → called ((c, s) :: h) op t vs v) as Hmono.
  { intros (c1&s1&Hin&Hc1). exists c1, s1. split; [by right|done]. }
  destruct Hstep as [|e He]; [|by apply Hmono, IH].
  destruct (decide (voted s op t vs v)) as [Hvs|Hvs]; [by apply Hmono, IH|].
  assert (cells (run_reg c s).1 (LVote op t v vs) ≠ cells s (LVote op t v vs)) as Hch.
  { intros Heq. apply Hvs. by rw /voted -Heq. }
  exists c, s. split; [by left|]. pose proof (run_reg_writes c s) as [Hw _].
  destruct (decide (rc_caller c = v ∧ vote_of (reg_action_of c) = Some (op, t))) as [[Hc1 Hc2]|Hn].
  - split_and!; [done..|]. destruct (read_list s) as [us|e] eqn:Hl.
    + destruct (decide (us = vs)) as [->|Hne]; [done|]. destruct Hch. apply run_casts. congruence.
    + destruct Hch. apply run_casts. congruence.
  - destruct Hch. apply Hw. cbn [region]. intros [-> Hvo]. by apply Hn.
Qed.

(** The voters that a quorum counts have each called. *)
Lemma counted_called s0 h s c op t vs v :
  no_ballots s0 → history s0 h s → vote_of (reg_action_of c) = Some (op, t) → read_list s = Ok vs →
  v ∈ counted s op t (rc_caller c) vs → called ((c, s) :: h) op t vs v.
Proof.
  intros H0 Hh Hvo Hl [[->|Hv] Hin]%list_elem_of_filter.
  - exists c, s. split_and!; [by left|done..].
  - destruct (ballots_called s0 h s op t vs v H0 Hh Hv) as (c1&s1&Hin1&Hc1). exists c1, s1. split; [by right|done].
Qed.

(** ** Ballots are never erased *)

Definition keeps_ballots {E A} (m : M Reg E A) : Prop := ∀ s op t u vs, voted s op t vs u → voted (m s).1 op t vs u.
Definition not_ballot (l : label) : Prop := match l with LVote _ _ _ _ => False | _ => True end.

Lemma keeps_writes {E A} (m : M Reg E A) b : writes not_ballot b m → keeps_ballots m.
Proof. intros Hw s op t u vs. rw /voted. destruct (Hw s) as [Hc _]. rw Hc; [by intros []|done]. Qed.
Lemma keeps_reading {E A} (m : M Reg E A) : reading m → keeps_ballots m.
Proof. intros Hm s op t u vs. rw /voted. by destruct (Hm s) as [-> _]. Qed.
Lemma keeps_bind {E A B} (m : M Reg E A) (k : A → M Reg E B) :
  keeps_ballots m → (∀ x, keeps_ballots (k x)) → keeps_ballots (mbind_ m k).
Proof.
  intros Hm Hk s op t u vs Hv. specialize (Hm s op t u vs Hv). rw /mbind_. destruct (m s) as [s1 [a|e]]; [|done].
  by apply Hk.
Qed.
Lemma keeps_if {E A} (c : bool) (m n : M Reg E A) :
  keeps_ballots m → keeps_ballots n → keeps_ballots (if c then m else n).
Proof. by destruct c. Qed.
Lemma keeps_record op t caller vs : keeps_ballots (record_validator_vote op t caller vs).
Proof.
  apply keeps_bind; [|intros _; apply keeps_reading, reading_bind; [|intros; apply reading_ret]].
  - intros s op' t' u us Hv. rw /voted /=. case_decide; [apply ballot_cast|done].
  - generalize vs at 2 as rest. intros rest. generalize 0 at 1 as x. generalize 0 as y. revert rest.
    induction rest as [|v rest IH]; intros x y; [apply reading_ret|]. cbn [tally]. reading_auto.
Qed.

Ltac keeps_step :=
  cbv beta zeta;
  match goal with
  | |- keeps_ballots (mbind_ (record_validator_vote _ _ _ _) _) => apply keeps_bind; [apply keeps_record|intros ?]
  | |- keeps_ballots (mbind_ _ _) => apply keeps_bind; [solve [apply keeps_reading; reading_auto]|intros ?]
  | |- keeps_ballots (if _ then _ else _) => apply keeps_if
  | |- keeps_ballots (match ?x with _ => _ end) => destruct x
  | |- keeps_ballots _ => solve [apply keeps_reading; reading_auto]
  | |- keeps_ballots _ => apply (keeps_writes _ true)
  end.

Lemma run_keeps c : keeps_ballots (run_reg c).
Proof.
  destruct (is_ledger_action (reg_action_of c)) eqn:Hl.
  { assert (keeps_ballots (run_action c (reg_action_of c))) as H.
    { destruct (reg_action_of c); try done; cbn [run_action].
      - unfold add_validator. repeat keeps_step. unfold admit_validator, get_validator_stake.
        writes_auto; [by apply writes_set_validators|by apply writes_apply|by apply writes_set_weight].
      - unfold remove_validator. repeat keeps_step. writes_auto. by apply writes_set_validators.
      - unfold set_validator_weight_op. repeat keeps_step. writes_auto. by apply writes_set_weight.
      - unfold set_validator_stake_op. repeat keeps_step. writes_auto. by apply writes_apply.
      - apply (keeps_writes _ true). eapply writes_mono; [|apply writes_bond]. by intros [] [].
      - apply (keeps_writes _ true). eapply writes_mono; [|apply writes_unbond]. by intros [] []. }
    intros s op t u vs. rw (run_reg_state c s Hl). apply H. }
  destruct (reg_action_of c) eqn:Ha; try done.
  - destruct (run_reg_prover c address Ha) as (key&algo&_&_&->). unfold register_prover.
    repeat keeps_step. writes_auto. by apply writes_set_prover.
  - eapply keeps_writes, writes_mono; [|apply run_reg_writes]. rw Ha. intros []; cbn; try done. by intros [].
  - eapply keeps_writes, writes_mono; [|apply run_reg_writes]. rw Ha. intros []; cbn; try done. by intros [].
Qed.
Lemma history_keeps s0 h s op t vs v : history s0 h s → voted s0 op t vs v → voted s op t vs v.
Proof.
  intros Hh Hv. induction Hh as [|h s c s' Hh IH Hstep]; [done|]. destruct Hstep; [by apply run_keeps|done].
Qed.
End histories.
