(* ===== verification/RegistryProps.v ===== *)
(** * Properties of the validator registry

    The list of validators changes only by the calls that add or remove one;
    every change rests on a quorum; and ballots stay valid after they have been
    used. *)

From S2P Require Import Prelude Primitives Fee Rlp Transaction TxValidation TxCodec BTree KvStore Overlay OverlayView OverlayProps OverlayJournal MetadataUndo Keccak RwSet PoaConfig Account Effects World RegistryKeys Cells AlgorithmRegistry Abi AccountManager Registry Governance SystemContracts PlainRegistry RegistryWrites RegistryReads RegistryQuorum Block.

(** ** The list *)

(** [m] keeps the list or changes it as [Φ] says. *)
Definition listed {E A} (Φ : list Address → list Address → Prop) (m : M Reg E A) (s : Reg) : Prop :=
  read_list (m s).1 = read_list s ∨
  ∃ vs vs', read_list s = Ok vs ∧ read_list (m s).1 = Ok vs' ∧ Φ vs vs'.

Section listed.
Context (Φ : list Address → list Address → Prop).

Lemma list_writes {E A} (P : label → Prop) b (m : M Reg E A) s :
  writes P b m → (∀ l, list_label l → ¬ P l) → read_list (m s).1 = read_list s.
Proof. intros Hw HP. destruct (Hw s) as [Hc _]. apply read_list_cells; intros; by apply Hc, HP. Qed.
Lemma list_reading {E A} (m : M Reg E A) s : reading m → read_list (m s).1 = read_list s.
Proof. intros Hm. apply read_list_same, Hm. Qed.
Lemma listed_keep {E A} (m : M Reg E A) s : read_list (m s).1 = read_list s → listed Φ m s.
Proof. by left. Qed.
Lemma listed_bind {E A B} (m : M Reg E A) (k : A → M Reg E B) s :
  read_list (m s).1 = read_list s → (∀ s' a, read_list s' = read_list s → listed Φ (k a) s') →
  listed Φ (mbind_ m k) s.
Proof.
  intros Hm Hk. rw /listed /mbind_. destruct (m s) as [s1 [a|e]]; simpl in *; [|by left]. rw -Hm. by apply Hk.
Qed.
Lemma listed_then {E A B} (m : M Reg E A) (k : A → M Reg E B) s :
  listed Φ m s → (∀ s' a, read_list (k a s').1 = read_list s') → listed Φ (mbind_ m k) s.
Proof.
  intros Hm Hk. rw /listed /mbind_ in Hm *. destruct (m s) as [s1 [a|e]]; simpl in *; [|done]. by rw Hk.
Qed.
Lemma listed_set vs vs' s :
  read_list s = Ok vs → NoDup vs' → Φ vs vs' → listed Φ (st (set_validators vs')) s.
Proof.
  intros Hl Hnd HΦ. rw /listed /st /mmap_err. destruct (decide (len vs' <= MAX_VALIDATORS)) as [Hle|Hgt].
  - pose proof (wp_set_validators vs' s (λ _ _, False) Hnd Hle) as Hw. rw /wp in Hw.
    destruct (set_validators vs' s) as [s1 [[]|e]]; [|done]. right. exists vs, vs'. by split_and!; [|apply Hw|].
  - left. rw /set_validators (proj2 (Z.ltb_lt _ _)) //. lia.
Qed.
Lemma listed_if {E A} (c : bool) (m n : M Reg E A) s :
  (c = true → listed Φ m s) → (c = false → listed Φ n s) → listed Φ (if c then m else n) s.
Proof. destruct c; auto. Qed.
End listed.

Lemma list_record op t caller vs s : read_list (record_validator_vote op t caller vs s).1 = read_list s.
Proof.
  apply (list_writes (λ l, l = LVote op t caller vs) false); [by apply writes_record|]. by intros l Hl ->.
Qed.

Lemma listed_bind_list {B} Φ (k : list Address → M Reg SystemContractError B) s :
  (∀ s' vs, read_list s' = Ok vs → listed Φ (k vs) s') → listed Φ (mbind_ (st get_validators) k) s.
Proof.
  intros Hk. rw /listed /mbind_ /st /mmap_err. destruct (reads_list s) as [Hs Hr].
  destruct (get_validators s) as [s1 r]; simpl in *. subst r. pose proof (read_list_same s s1 Hs) as H1.
  destruct (read_list s) as [vs|e]; cbn [map_err]; [|by left].
  destruct (Hk s1 vs H1) as [H|H]; [left; congruence|right; by rw H1 in H].
Qed.

Ltac listed_step :=
  cbv beta zeta;
  match goal with
  | |- listed _ (mbind_ (st get_validators) _) ?s =>
      let s' := fresh "s" in let vs := fresh "vs" in let Hs := fresh "Hs" in let Hl := fresh "Hl" in
      apply listed_bind_list; intros s' vs Hl
  | H : read_list ?s = Ok _ |- listed _ (mbind_ (record_validator_vote _ _ _ _) _) ?s =>
      apply listed_bind; [apply list_record|let s' := fresh "s" in let Hs := fresh "Hs" in
        intros s' [] Hs; rw -Hs in H; clear Hs]
  | H : read_list ?s = Ok _ |- listed _ (mbind_ _ _) ?s =>
      apply listed_bind; [apply list_reading; solve [reading_auto]|let s' := fresh "s" in let Hs := fresh "Hs" in
        intros s' ? Hs; rw -Hs in H; clear Hs]
  | |- listed _ (mfail _) _ => by left
  | |- listed _ (mret _) _ => by left
  | |- listed _ (if _ then _ else _) _ => apply listed_if; intros ?
  | H : negb (bool_decide (_ ∈ _)) = false |- _ => apply negb_false_iff, bool_decide_eq_true in H
  | H : bool_decide (_ ∈ _) = false |- _ => apply bool_decide_eq_false in H
  end.

Lemma remove_first_sublist t l : sublist (remove_first t l) l.
Proof.
  induction l as [|v l IH]; cbn [remove_first]; [done|]. case_bool_decide; [by apply sublist_cons|by apply sublist_skip].
Qed.

Definition added (t : Address) (vs vs' : list Address) : Prop := t ∉ vs ∧ vs' = (vs ++ [t]).
Definition removed (t : Address) (vs vs' : list Address) : Prop :=
  t ∈ vs ∧ 1 < len vs ∧ vs' = remove_first t vs.

Lemma listed_add caller t k s : listed (added t) (add_validator caller t k) s.
Proof.
  unfold add_validator. repeat listed_step. unfold admit_validator.
  destruct (read_list_ok _ _ Hl) as [Hnd _]. apply listed_then.
  - eapply listed_set; [done| |by split]. apply NoDup_app. split_and!; [done|set_solver|apply NoDup_singleton].
  - intros s' _. apply (list_writes (λ l, ¬ list_label l) true); [|by intros l Hl' []].
    unfold get_validator_stake. writes_auto; [by apply writes_apply; intros []|by apply writes_set_weight; intros []].
Qed.
Lemma listed_remove caller t s : listed (removed t) (remove_validator caller t) s.
Proof.
  unfold remove_validator. repeat listed_step. destruct (read_list_ok _ _ Hl) as [Hnd _]. apply listed_then; [|done].
  eapply listed_set; [done|eapply sublist_NoDup; [done|apply remove_first_sublist]|].
  split_and!; [done| |done]. match goal with H : (_ <=? _) = false |- _ => by apply Z.leb_gt in H end.
Qed.

(** ** Decisions *)

Lemma sumZ_filter_mono {A} (P Q : A → Prop) `{∀ x, Decision (P x), ∀ x, Decision (Q x)} (f : A → Z) l :
  (∀ x, 0 <= f x) → (∀ x, P x → Q x) → sumZ f (filter P l) <= sumZ f (filter Q l).
Proof.
  intros Hf HPQ. induction l as [|x l IH]; [done|]. rw !filter_cons. specialize (Hf x).
  repeat case_decide; rw ?sumZ_cons; naive_solver lia.
Qed.

Section decisions.
Context {Hs : Hashes}.

Definition answer (b : bool) : SystemContractOutcome := MkOutcome (encode_bool b) registry_gas (MkEffects b []).
(** The call can be put to a vote; additions and weights, only without staking. *)
Definition admissible (s : Reg) (vs : list Address) (act : reg_action) : Prop :=
  match act with
  | AAdd t => t ∉ vs ∧ is_Some (keys s t) ∧ len vs < MAX_VALIDATORS ∧ staking s = false
  | ARemove t => t ∈ vs ∧ 1 < len vs
  | ASetWeight t w => t ∈ vs ∧ 1 <= w <= MAX_VALIDATOR_WEIGHT ∧ staking s = false
  | _ => False
  end.
Definition effective (vs : list Address) (act : reg_action) (s' : Reg) : Prop :=
  match act with
  | AAdd t => read_list s' = Ok (vs ++ [t]) ∧ weight_of s' t = 1
  | ARemove t => read_list s' = Ok (remove_first t vs)
  | ASetWeight t w => weight_of s' t = w
  | _ => False
  end.
(** What a call answers and does: the answer is whether there is a quorum. *)
Definition decision (s : Reg) (vs : list Address) (act : reg_action) (caller : Address) (b : bool) (s' : Reg) : Prop :=
  ∃ op t, vote_of act = Some (op, t) ∧
    (b = true ↔ quorum op (sumZ (weight_of s) (counted s op t caller vs)) (sumZ (weight_of s) vs)) ∧
    voted s' op t vs caller ∧ (if b then effective vs act s' else ballots_only s s').

Lemma decision_same s s1 vs act caller b s' : same s s1 → decision s1 vs act caller b s' → decision s vs act caller b s'.
Proof.
  intros Hs1 (op&t&Hv&Hb&Hvo&He). exists op, t. rw (same_weight s s1) // (counted_same s s1) // in Hb.
  split_and!; [done..|]. destruct b; [done|by eapply ballots_only_from].
Qed.
(** The first program of [m] reads [r]. *)
Lemma reads_run {E A B} s (m : M Reg E A) (k : A → M Reg E B) a :
  reads s m (Ok a) → ∃ s', same s s' ∧ mbind_ m k s = k a s'.
Proof. intros [H1 H2]. rw /mbind_. destruct (m s) as [s' r]; simpl in *. subst. eauto. Qed.

(** A vote and what follows it. *)
Lemma vote_decides op t caller vs (k : bool → M Reg SystemContractError bool) s act :
  len vs <= MAX_VALIDATORS → vote_of act = Some (op, t) → k false = mret false → keeps_ballots (k true) →
  (∀ s', ballots_only s s' → wp (k true) (λ b s'', b = true ∧ effective vs act s'') (λ _ _, False) s') →
  wp (mbind_ (record_validator_vote op t caller vs) k) (decision s vs act caller) (λ _ _, False) s.
Proof.
  intros Hlen Hact Hk Hkeep Hkt. apply wp_bind. eapply wp_mono; [by apply wp_record_counted| |done].
  intros [] s' (Ho&Hv&Hq).
  - specialize (Hkeep s' op t caller vs Hv). specialize (Hkt s' Ho). rw /wp in Hkt *.
    destruct (k true s') as [s2 [b|e]]; [|done]. destruct Hkt as [-> HΨ]. exists op, t. by split_and!.
  - rw Hk. apply wp_ret. exists op, t. by split_and!.
Qed.
Lemma decides_bind {A} s vs act caller (m : M Reg SystemContractError A) a (k : A → M Reg SystemContractError bool) :
  reads s m (Ok a) → (∀ s', same s s' → wp (k a) (decision s' vs act caller) (λ _ _, False) s') →
  wp (mbind_ m k) (decision s vs act caller) (λ _ _, False) s.
Proof.
  intros Hm Hk. eapply wp_bind_reads; [done|]. intros s' Hss. eapply wp_mono; [by apply Hk| |done].
  intros b s2. by apply decision_same.
Qed.
Lemma reads_st_list s vs : read_list s = Ok vs → reads s (st get_validators) (Ok vs).
Proof. intros Hl. pose proof (reads_st s _ _ (reads_list s)) as H. by rw Hl in H. Qed.

Lemma wp_set_weight t w s R : 1 <= w <= MAX_VALIDATOR_WEIGHT →
  wp (set_validator_weight t w) (λ _ s', weight_of s' t = w ∧ read_list s' = read_list s) R s.
Proof.
  intros Hw. rw /set_validator_weight (proj2 (Z.ltb_ge _ _)); [lia|]. rw Z.max_l; [lia|]. rw /wp. cbn [cell_set plain_cells].
  assert (0 <= w <= u64_max) by (assert (MAX_VALIDATOR_WEIGHT <= u64_max) by done; lia).
  split; [|by apply read_list_cells]. rw /weight_of /= decide_True //. case_bool_decide as Hz.
  - apply u64_to_hash_zero in Hz; [|done]. lia.
  - rw hash_u64_roundtrip //. lia.
Qed.

Lemma set_weight_decides caller t w s vs :
  read_list s = Ok vs → caller ∈ vs → admissible s vs (ASetWeight t w) →
  wp (set_validator_weight_op caller t w) (decision s vs (ASetWeight t w) caller) (λ _ _, False) s.
Proof.
  intros Hl Hc (Ht&Hw&Hst). unfold set_validator_weight_op.
  eapply decides_bind; [apply (reads_st s _ _ (reads_staking s))|]. intros s1 Hs1. rw Hst.
  rw -(read_list_same s s1 Hs1) in Hl. eapply decides_bind; [by apply reads_st_list|]. intros s2 Hs2. cbv zeta.
  rw !bool_decide_true //= (proj2 (Z.eqb_neq _ _)); [lia|]. rw (proj2 (Z.ltb_ge _ _)); [lia|].
  destruct (read_list_ok s1 vs Hl) as [_ Hlen]. apply vote_decides; [done..| |].
  - apply (keeps_writes _ true). writes_auto. by apply writes_set_weight.
  - intros s3 _. apply wp_bind, wp_map_err. eapply wp_mono; [by apply (wp_set_weight _ _ _ (λ _ _, False))| |done].
    intros _ s4 [Hs4 _]. apply wp_ret. by split.
Qed.
Lemma remove_decides caller t s vs :
  read_list s = Ok vs → caller ∈ vs → admissible s vs (ARemove t) →
  wp (remove_validator caller t) (decision s vs (ARemove t) caller) (λ _ _, False) s.
Proof.
  intros Hl Hc (Ht&Hgt). destruct (read_list_ok s vs Hl) as [Hnd Hlen]. unfold remove_validator.
  eapply decides_bind; [by apply reads_st_list|]. intros s1 Hs1. cbv zeta.
  rw !bool_decide_true //= (proj2 (Z.leb_gt _ _)) //. apply vote_decides; [done..| |].
  - apply (keeps_writes _ true). writes_auto. by apply writes_set_validators.
  - intros s2 _. apply wp_bind, wp_map_err. eapply wp_mono; [apply (wp_set_validators _ _ (λ _ _, False))| |done].
    + eapply sublist_NoDup; [done|apply remove_first_sublist].
    + pose proof (sublist_length _ _ (remove_first_sublist t vs)). rw /len in Hlen *. lia.
    + intros _ s3 [Hs3 _]. apply wp_ret. by split.
Qed.
Lemma add_decides caller t s vs :
  read_list s = Ok vs → caller ∈ vs → admissible s vs (AAdd t) →
  wp (add_validator caller t true) (decision s vs (AAdd t) caller) (λ _ _, False) s.
Proof.
  intros Hl Hc (Ht&[key Hk]&Hlt&Hst). destruct (read_list_ok s vs Hl) as [Hnd Hlen]. unfold add_validator.
  eapply decides_bind; [by apply reads_st_list|]. intros s1 Hs1. cbv zeta.
  rw (bool_decide_true (caller ∈ vs)) // bool_decide_false //=.
  assert (keys s1 t = Some key) as Hk1 by (destruct Hs1 as (_&_&->&_); done).
  assert (staking s1 = false) as Hst1 by (destruct Hs1 as (Hc1&_); by rw /staking Hc1).
  eapply (decides_bind _ _ _ _ _ tt).
  { eapply reads_bind; [apply (reads_st s1 _ (Ok (Some key))); by split; [|rw /= Hk1]|]. intros s' _. apply reads_ret. }
  intros s2 Hs2. assert (staking s2 = false) as Hst2 by (destruct Hs2 as (Hc2&_); by rw /staking Hc2).
  eapply decides_bind; [apply (reads_st s2 _ _ (reads_staking s2))|]. intros s3 Hs3. rw Hst2.
  eapply decides_bind; [apply reads_ret|]. intros s4 Hs4.
  assert (staking s4 = false) as Hst4 by (destruct Hs3 as (Hc3&_), Hs4 as (Hc4&_); by rw /staking Hc4 Hc3).
  apply vote_decides; [done..| |].
  - apply (keeps_writes _ true). unfold admit_validator, get_validator_stake.
    writes_auto; [by apply writes_set_validators|by apply writes_apply|by apply writes_set_weight].
  - intros s5 [Ho _]. unfold admit_validator. apply wp_bind, wp_map_err.
    eapply wp_mono; [apply (wp_set_validators _ _ (λ _ _, False))| |done].
    + apply NoDup_app. split_and!; [done|set_solver|apply NoDup_singleton].
    + rw /len in Hlt *. rw length_app /=. lia.
    + intros _ s6 (Hl6&_&Hk6). assert (staking s6 = false) as Hst6.
      { rw /staking Hk6; [by intros []|]. rw Ho; [by intros|done]. }
      eapply wp_bind_reads; [apply (reads_st s6 _ _ (reads_staking s6))|]. intros s7 Hs7. rw Hst6.
      apply wp_bind, wp_map_err. eapply wp_mono; [by apply (wp_set_weight _ _ _ (λ _ _, False))| |done].
      intros _ s8 [Hw8 Hl8]. apply wp_ret. split; [done|]. split; [|done].
      by rw Hl8 (read_list_same s6 s7).
Qed.

Lemma action_decides c s vs :
  read_list s = Ok vs → rc_caller c ∈ vs → admissible s vs (reg_action_of c) →
  ∃ b, (run_reg c s).2 = Ok (answer b) ∧ decision s vs (reg_action_of c) (rc_caller c) b (run_reg c s).1.
Proof.
  intros Hl Hc Ha. assert (is_ledger_action (reg_action_of c) = true) as Hled by (by destruct (reg_action_of c)).
  rw (run_reg_action c Hled).
  assert (wp (run_action c (reg_action_of c)) (decision s vs (reg_action_of c) (rc_caller c)) (λ _ _, False) s) as Hw.
  { destruct (reg_action_of c); try done; cbn [run_action].
    - by apply add_decides.
    - by apply remove_decides.
    - by apply set_weight_decides. }
  rw /wp /mbind_ in Hw *. destruct (run_action c (reg_action_of c) s) as [s' [b|e]]; [|done]. by exists b.
Qed.

(** C9: Over any sequence of calls to the validator registry from a state
    without ballots, a call changes nothing but ballots unless it may: a stake
    is bonded or unbonded only by its own validator while staking is enabled;
    calls about algorithms change only the slots of their governance; and every
    other change (a validator added or removed, a weight, a stake or a prover
    set) needs a set of distinct current validators, each of whom made that
    same call itself while the list was what it is now, and who together hold
    more than half of the weight of the list, more than two thirds for weights
    and stakes. Failed calls may or may not have been rolled back. *)
Theorem registry_quorum s0 h s c s' :
  no_ballots s0 → history s0 h s → reg_step c s s' →
  ballots_only s s' ∨
  match reg_action_of c with
  | ABond t _ | AUnbond t _ => rc_caller c = t ∧ staking s = true
  | AGovernance => bals s' = bals s ∧ ∀ l, region (rc_caller c) AGovernance l ∨ cells s' l = cells s l
  | act => ∃ op t vs us, vote_of act = Some (op, t) ∧ read_list s = Ok vs ∧ NoDup us ∧ us ⊆ vs ∧
      quorum op (sumZ (weight_of s) us) (sumZ (weight_of s) vs) ∧ ∀ v, v ∈ us → called ((c, s) :: h) op t vs v
  end.
Proof.
  intros H0 Hh Hstep. destruct Hstep as [|e He]; [|left; by apply ballots_only_same].
  destruct (run_allowed c s) as [H|H]; [by left|right]. rw /call_allowed in H.
  assert (∀ act, reg_action_of c = act → (∃ op t, vote_of act = Some (op, t) ∧ approved s op t (rc_caller c)) →
    ∃ op t vs us, vote_of act = Some (op, t) ∧ read_list s = Ok vs ∧ NoDup us ∧ us ⊆ vs ∧
      quorum op (sumZ (weight_of s) us) (sumZ (weight_of s) vs) ∧ ∀ v, v ∈ us → called ((c, s) :: h) op t vs v) as Hq.
  { intros act Hact (op&t&Hv&vs&Hl&Hin&Hq). destruct (read_list_ok s vs Hl) as [Hnd _].
    exists op, t, vs, (counted s op t (rc_caller c) vs). split_and!; [done..| | |done|].
    - by apply NoDup_filter.
    - intros v [_ ?]%list_elem_of_filter. done.
    - intros v. apply (counted_called s0); try done. by rw Hact. }
  destruct (reg_action_of c) eqn:Ha; try done; by apply Hq.
Qed.

(** C27: The list of validators that can be read from the registry never holds
    a duplicate nor more than 1000 entries, and one call leaves it as it is, or
    appends a validator that was not in it and that the call asks to add, or
    takes out one entry of several that the call asks to remove; no other call
    changes it, whether it fails or not. *)
Theorem validators_change c s s' :
  reg_step c s s' →
  (∀ vs, read_list s = Ok vs → NoDup vs ∧ len vs <= MAX_VALIDATORS) ∧
  (read_list s' = read_list s ∨
   ∃ vs vs', read_list s = Ok vs ∧ read_list s' = Ok vs' ∧
     match reg_action_of c with
     | AAdd t => t ∉ vs ∧ vs' = (vs ++ [t])
     | ARemove t => t ∈ vs ∧ 1 < len vs ∧ vs' = remove_first t vs
     | _ => False
     end).
Proof.
  intros Hstep. split; [apply read_list_ok|]. destruct Hstep as [|e He]; [|by left].
  destruct (is_ledger_action (reg_action_of c)) eqn:Hl.
  - rw (run_reg_state c s Hl). pose proof (run_reg_writes c) as Hw. destruct (reg_action_of c) eqn:Ha; try done; cbn [run_action].
    + apply listed_add.
    + apply listed_remove.
    + left. eapply list_writes; [apply writes_set_weight_op|]. intros []; cbn; tauto.
    + left. eapply list_writes; [apply writes_set_stake_op|]. intros []; cbn; tauto.
    + left. eapply list_writes; [apply writes_bond|]. intros []; cbn; tauto.
    + left. eapply list_writes; [apply writes_unbond|]. intros []; cbn; tauto.
  - left. eapply list_writes; [apply run_reg_writes|]. destruct (reg_action_of c); try done; intros []; cbn; tauto.
Qed.

(** C28: A validator's call to add or remove a validator or to set a weight,
    when it can be put to a vote and staking is off (a removal may be voted on
    in any case), always returns: it answers true exactly if the weight of the
    validators with a recorded ballot, the caller now included, is above the
    threshold; then the change takes effect, and otherwise only the ballot is
    recorded. *)
Theorem decisions_exact c s vs :
  read_list s = Ok vs → rc_caller c ∈ vs → admissible s vs (reg_action_of c) →
  ∃ b, (run_reg c s).2 = Ok (answer b) ∧ decision s vs (reg_action_of c) (rc_caller c) b (run_reg c s).1.
Proof. apply action_decides. Qed.

(** C39: Ballots outlive the decision they made. Once a call to add or remove a
    validator or to set a weight has passed, then after any further calls, in
    any state where the list and the weights of the validators are as they were
    and the call can be put to a vote again, the same call by any single
    validator passes at once and takes effect, whatever was decided in between.
    As before, staking is off for an addition or a weight, at both times; stake
    votes are not covered. *)
Theorem spent_quorum_reused s1 c1 h s c vs :
  reg_action_of c1 = reg_action_of c → rc_caller c1 ∈ vs → rc_caller c ∈ vs →
  read_list s1 = Ok vs → admissible s1 vs (reg_action_of c) → (run_reg c1 s1).2 = Ok (answer true) →
  history (run_reg c1 s1).1 h s →
  read_list s = Ok vs → admissible s vs (reg_action_of c) → (∀ v, v ∈ vs → weight_of s v = weight_of s1 v) →
  (run_reg c s).2 = Ok (answer true) ∧ effective vs (reg_action_of c) (run_reg c s).1.
Proof.
  intros Hact Hc1 Hc Hl1 Ha1 Hr1 Hh Hl Ha Hw. rw -Hact in Ha1.
  destruct (action_decides c1 s1 vs Hl1 Hc1 Ha1) as (b1&Hb1&op&t&Hv&Hq1&Hvo&_).
  destruct (action_decides c s vs Hl Hc Ha) as (b&Hb&op'&t'&Hv'&Hq&_&He).
  rw Hact Hv' in Hv. injection Hv as -> ->.
  assert (b1 = true) as -> by (rw Hr1 in Hb1; by destruct b1).
  assert (b = true) as ->; [|by rw Hb]. apply Hq. clear Hq He Hb.
  assert (sumZ (weight_of s) vs = sumZ (weight_of s1) vs) as -> by (by apply sumZ_ext).
  assert (sumZ (weight_of s1) (counted s1 op t (rc_caller c1) vs) <= sumZ (weight_of s) (counted s op t (rc_caller c) vs)) as Hle.
  { rw (sumZ_ext (weight_of s1) (weight_of s)).
    { intros v [_ Hin]%list_elem_of_filter. symmetry. by apply Hw. }
    apply sumZ_filter_mono; [intros v; pose proof (registry_weight_range s v); lia|].
    intros v [->|Hvv]; right; apply (history_keeps _ _ _ _ _ _ _ Hh); [done|by apply run_keeps]. }
  assert (true = true) as Ht by done. apply Hq1 in Ht. destruct op; cbn [quorum] in *; lia.
Qed.
End decisions.

(** ** Examples *)

(** Three validators of weight 1 without ballots. *)
Definition val (i : Z) : Address := b256_of_Z i.
Definition demo_reg : Reg :=
  MkReg (λ l, match l with
              | LCount => u64_to_hash 3
              | LSlot i => if (i <? 3)%N then val (1 + Z.of_N i) else ZERO
              | _ => ZERO
              end)
    (λ _, 100) (λ _, Some [7]) (λ _, None) [] [] [].
Definition demo_env : GovEnv := MkGovEnv (Ok None) (Ok None).
Definition remove_call (i t : Z) : reg_call :=
  MkRegCall (val i) (REMOVE_VALIDATOR_SELECTOR ++ as_bytes (val t)) demo_env 1.
Definition add_call (i t : Z) : reg_call :=
  MkRegCall (val i) (ADD_VALIDATOR_SELECTOR ++ as_bytes (val t)) demo_env 1.

#[local] Instance reg_hashes : Hashes := {| keccak256 := toy_hash; blake3_hash := toy_hash |}.

Lemma remove_call_action i : reg_action_of (remove_call i 3) = ARemove (val 3).
Proof. vm_compute. reflexivity. Qed.
Lemma add_call_action i : reg_action_of (add_call i 3) = AAdd (val 3).
Proof. vm_compute. reflexivity. Qed.

(** The states after each of the calls below. *)
Definition removed_by (i : Z) (s : Reg) : Reg := (remove_validator (val i) (val 3) s).1.
Definition added_by (i : Z) (s : Reg) : Reg := (add_validator (val i) (val 3) true s).1.
Lemma removed_by_eq i s : (run_reg (remove_call i 3) s).1 = removed_by i s.
Proof. rw run_reg_state (remove_call_action i) //. Qed.
Lemma added_by_eq i s : (run_reg (add_call i 3) s).1 = added_by i s.
Proof. rw run_reg_state (add_call_action i) //. Qed.
Lemma step_removed i s : reg_step (remove_call i 3) s (removed_by i s).
Proof. rw -removed_by_eq. apply step_run. Qed.
Lemma step_added i s : reg_step (add_call i 3) s (added_by i s).
Proof. rw -added_by_eq. apply step_run. Qed.

Definition demo_history : list (reg_call * Reg) := [(remove_call 1 3, demo_reg)].
Lemma demo_history_ok : history demo_reg demo_history (removed_by 1 demo_reg).
Proof. eapply history_next; [apply history_start|apply step_removed]. Qed.
Lemma demo_no_ballots : no_ballots demo_reg.
Proof. intros op t v vs H. by apply H. Qed.

Lemma registry_quorum_witness :
  let s := removed_by 1 demo_reg in
  ∃ us, NoDup us ∧ us ⊆ [val 1; val 2; val 3] ∧ 3 < 2 * sumZ (weight_of s) us ∧
    Forall (called ((remove_call 2 3, s) :: demo_history) Remove (val 3) [val 1; val 2; val 3]) us.
Proof.
  intros s. pose proof (registry_quorum demo_reg demo_history s (remove_call 2 3) (removed_by 2 s)
    demo_no_ballots demo_history_ok (step_removed 2 s)) as H. rw (remove_call_action 2) in H.
  destruct H as [[H _]|(op&t&vs&us&Hv&Hl&Hnd&Hsub&Hq&Hc)].
  - exfalso. specialize (H LCount). assert (cells (removed_by 2 s) LCount ≠ cells s LCount) as Hne.
    { intros E%(f_equal b256_unsigned). vm_compute in E. discriminate E. }
    apply Hne, H. discriminate.
  - injection Hv as <- <-. assert (vs = [val 1; val 2; val 3]) as ->.
    { assert (read_list s = Ok [val 1; val 2; val 3]) as E by (vm_compute; reflexivity). rw E in Hl. by injection Hl. }
    exists us. split_and!; [done..| |by apply Forall_forall].
    assert (sumZ (weight_of s) [val 1; val 2; val 3] = 3) as E by (vm_compute; reflexivity). cbn [quorum] in Hq.
    rw E in Hq. exact Hq.
Defined.

Lemma validators_change_witness :
  let s := removed_by 1 demo_reg in read_list (removed_by 2 s) = Ok [val 1; val 2].
Proof.
  intros s. destruct (validators_change (remove_call 2 3) s (removed_by 2 s) (step_removed 2 s)) as [_ H].
  assert (read_list s = Ok [val 1; val 2; val 3]) as E by (vm_compute; reflexivity). rw (remove_call_action 2) E in H.
  destruct H as [H|(vs&vs'&Hl&Hl'&_&_&->)].
  - exfalso. assert (read_list (removed_by 2 s) ≠ Ok [val 1; val 2; val 3]) as Hne; [|by apply Hne].
    assert (read_list (removed_by 2 s) = Ok [val 1; val 2]) as E2 by (vm_compute; reflexivity). rw E2. by intros [= ].
  - injection Hl as <-. rw Hl'. vm_compute. reflexivity.
Defined.

Definition demo_list : list Address := [val 1; val 2; val 3].
Lemma demo_members : val 1 ∈ demo_list ∧ val 2 ∈ demo_list ∧ val 3 ∈ demo_list.
Proof. rw /demo_list. set_solver. Qed.
Lemma demo_removable s : admissible s demo_list (ARemove (val 3)).
Proof. split; [apply demo_members|done]. Qed.

(** One ballot of three does not decide. *)
Lemma decisions_exact_witness : (run_reg (remove_call 1 3) demo_reg).2 = Ok (answer false).
Proof.
  destruct (decisions_exact (remove_call 1 3) demo_reg demo_list) as (b&Hb&H).
  - vm_compute. reflexivity.
  - apply demo_members.
  - rw (remove_call_action 1). apply demo_removable.
  - rw (remove_call_action 1) in H. destruct H as (op&t&Hv&Hq&_). injection Hv as <- <-.
    assert (sumZ (weight_of demo_reg) (counted demo_reg Remove (val 3) (rc_caller (remove_call 1 3)) demo_list) = 1) as E1
      by (vm_compute; reflexivity).
    assert (sumZ (weight_of demo_reg) demo_list = 3) as E2 by (vm_compute; reflexivity).
    rw E1 E2 in Hq. destruct b; [|exact Hb]. exfalso. destruct Hq as [Hq _]. specialize (Hq eq_refl). by cbn in Hq.
Defined.

(** Validators 1 and 2 remove 3 and add it again; then 1 alone removes it. *)
Lemma spent_quorum_reused_witness :
  let s1 := removed_by 1 demo_reg in
  let s := added_by 2 (added_by 1 (removed_by 2 s1)) in
  read_list s = Ok demo_list ∧ (run_reg (remove_call 1 3) s).2 = Ok (answer true) ∧
  read_list (run_reg (remove_call 1 3) s).1 = Ok [val 1; val 2].
Proof.
  intros s1 s. assert (read_list s = Ok demo_list) as Hl by (vm_compute; reflexivity). split; [exact Hl|].
  destruct (spent_quorum_reused s1 (remove_call 2 3)
    [(add_call 2 3, added_by 1 (removed_by 2 s1)); (add_call 1 3, removed_by 2 s1)] s (remove_call 1 3) demo_list)
    as [H1 H2].
  - by rw (remove_call_action 1) (remove_call_action 2).
  - apply demo_members.
  - apply demo_members.
  - vm_compute. reflexivity.
  - rw (remove_call_action 1). apply demo_removable.
  - rw run_reg_action; [by rw (remove_call_action 2)|]. rw (remove_call_action 2) /run_action. cbn [rc_caller remove_call].
    rw /mbind_. assert ((remove_validator (val 2) (val 3) s1).2 = Ok true) as E by (vm_compute; reflexivity).
    destruct (remove_validator (val 2) (val 3) s1) as [s2 r]. cbn [snd] in E. by rw E.
  - rw removed_by_eq. eapply history_next; [|apply step_added]. eapply history_next; [|apply step_added].
    apply history_start.
  - exact Hl.
  - rw (remove_call_action 1). apply demo_removable.
  - apply (proj1 (Forall_forall (λ v, weight_of s v = weight_of s1 v) demo_list)). rw /demo_list. repeat apply Forall_cons_2; [vm_compute; reflexivity..|apply Forall_nil_2].
  - split; [exact H1|]. rw (remove_call_action 1) in H2. exact H2.
Defined.
