(* ===== verification/RegistryStake.v ===== *)
(** * The stake ledger

    Stakes and balances move together: whatever calls run, also those that fail
    half-way, each account's balance and stake together stay what they were, the
    recorded total is the sum of the stakes, and the weights of validators follow
    from their stakes. *)

From S2P Require Import Prelude Primitives Fee Rlp Transaction TxValidation TxCodec BTree KvStore Overlay OverlayView OverlayProps OverlayJournal MetadataUndo Keccak RwSet PoaConfig Account Effects World RegistryKeys Cells AlgorithmRegistry Abi AccountManager Registry Governance SystemContracts PlainRegistry RegistryWrites RegistryReads RegistryQuorum RegistryProps Block.

(** ** Pure readings *)

Definition derive_result (s : Reg) (x : Z) : sc_result Z :=
  map_err sc_Storage (derive_validator_weight_from_stake x (unit_of s) (max_weight_of s)).
Definition validate_result (s : Reg) (t : Address) (x : Z) : sc_result (Z * Z) :=
  let? updated :=
    (if stake_of s t <=? x
     then ok_or (checked_add_u256 (total_staked s) (x - stake_of s t)) (AbiDecode "total staked overflow")
     else ok_or (checked_sub_u256 (total_staked s) (stake_of s t - x)) (AbiDecode "total staked underflow")) in
  Ok (stake_of s t, updated).

Lemma same_derive s s' x : same s s' → derive_result s' x = derive_result s x.
Proof. intros [Hc _]. by rw /derive_result /unit_of /max_weight_of Hc. Qed.
Lemma same_stake s s' t : same s s' → stake_of s' t = stake_of s t.
Proof. intros [Hc _]. by rw /stake_of Hc. Qed.
Lemma same_total s s' : same s s' → total_staked s' = total_staked s.
Proof. intros [Hc _]. by rw /total_staked Hc. Qed.
Lemma same_validate s s' t x : same s s' → validate_result s' t x = validate_result s t x.
Proof. intros Hs. rw /validate_result (same_stake s s' t Hs) (same_total s s' Hs). reflexivity. Qed.

Lemma reads_derived s x : reads s (derived_weight x) (derive_result s x).
Proof.
  eapply reads_bind; [apply (reads_st s _ _ (reads_unit s))|]. intros s1 Hs1.
  eapply reads_bind; [apply (reads_st s1 _ _ (reads_max_weight s1))|]. intros s2 _.
  rw /derive_result. assert (max_weight_of s1 = max_weight_of s) as -> by (destruct Hs1 as [Hc _]; by rw /max_weight_of Hc).
  apply reads_lift.
Qed.
Lemma reads_validate s t x : reads s (validate_validator_stake_total t x) (validate_result s t x).
Proof.
  eapply reads_bind; [apply (reads_st s _ _ (reads_stake s t))|]. intros s1 Hs1.
  eapply reads_bind; [apply (reads_st s1 _ _ (reads_total_staked s1))|]. intros s2 _.
  rw (same_total s s1 Hs1) /validate_result.
  match goal with |- reads _ (mbind_ (mlift ?r) _) _ => destruct r; [|by apply reads_bind_err] end.
  eapply reads_bind; [apply reads_lift|]. intros s3 _. apply reads_ret.
Qed.

Lemma stake_of_range s t : 0 <= stake_of s t <= u256_max.
Proof. rw /stake_of hash_to_u256_unsigned. apply b256_range. Qed.
Lemma total_range s : 0 <= total_staked s <= u256_max.
Proof. rw /total_staked hash_to_u256_unsigned. apply b256_range. Qed.
Lemma unit_range s : 0 <= unit_of s <= u256_max.
Proof. rw /unit_of hash_to_u256_unsigned. apply b256_range. Qed.
Lemma max_weight_range s : 0 <= max_weight_of s.
Proof. rw /max_weight_of. case_bool_decide; [done|]. apply hash_to_u64_range. Qed.

Lemma validate_result_ok s t x old updated :
  validate_result s t x = Ok (old, updated) →
  old = stake_of s t ∧ updated = total_staked s - stake_of s t + x ∧ 0 <= updated <= u256_max.
Proof.
  rw /validate_result /checked_add_u256 /checked_sub_u256. move: (total_range s).
  generalize (stake_of s t) (total_staked s) u256_max. intros y z m Hz. destruct (Z.leb_spec y x).
  - destruct (Z.leb_spec (z + (x - y)) m); [|done]. intros [= <- <-]. lia.
  - destruct (Z.leb_spec (y - x) z); [|done]. intros [= <- <-]. lia.
Qed.

(** The weight of a stake. *)
Definition stake_weight (s : Reg) (x : Z) : Z := Z.min (x / unit_of s) (max_weight_of s).
Lemma derive_result_ok s x w :
  derive_result s x = Ok w → w = stake_weight s x ∧ unit_of s ≠ 0 ∧ max_weight_of s ≠ 0.
Proof.
  rw /derive_result /derive_validator_weight_from_stake.
  destruct (Z.eqb_spec (unit_of s) 0); [done|]. destruct (Z.eqb_spec (max_weight_of s) 0); [done|].
  by intros [= <-].
Qed.

(** ** Applying a stake *)

(** [t] has the stake [x] in [s'], the total and the weight of [t] follow. *)
Definition applied (s : Reg) (t : Address) (x : Z) (s' : Reg) : Prop :=
  keeps_rest s s' ∧ (∀ l, l ≠ LStake t → l ≠ LWeight t → l ≠ LStaked → cells s' l = cells s l) ∧
  stake_of s' t = x ∧ total_staked s' = total_staked s - stake_of s t + x ∧
  weight_of s' t = stake_weight s x ∧ 1 <= stake_weight s x.
(** The checks of [apply_validator_stake] pass. *)
Definition appliable (s : Reg) (t : Address) (x : Z) : Prop :=
  (∃ p, validate_result s t x = Ok p) ∧ ∃ w, derive_result s x = Ok w ∧ w ≠ 0.

Lemma applied_same s s1 t x s' : same s s1 → applied s1 t x s' → applied s t x s'.
Proof.
  intros Hs (H1&H2&H3&H4&H5&H6). rw (same_total s s1 Hs) (same_stake s s1 t Hs) in H4.
  assert (stake_weight s1 x = stake_weight s x) as E.
  { destruct Hs as [Hc _]. by rw /stake_weight /unit_of /max_weight_of Hc. }
  rw E in H5 H6. split_and!; [|destruct Hs as [<- _]|..]; try done. etrans; [by apply same_keeps|done].
Qed.

Lemma cells_set s l x : cells (set_cell s l x) l = x.
Proof. rw /=. by rw decide_True. Qed.
Lemma cells_set_ne s l l' x : l' ≠ l → cells (set_cell s l x) l' = cells s l'.
Proof. intros Hne. by rw /= decide_False. Qed.

Lemma weight_of_set t w s' :
  1 <= w <= MAX_VALIDATOR_WEIGHT → cells s' (LWeight t) = u64_to_hash w → weight_of s' t = w.
Proof.
  intros Hw Hc. assert (0 <= w <= u64_max) by (assert (MAX_VALIDATOR_WEIGHT <= u64_max) by done; lia).
  rw /weight_of Hc. case_bool_decide as Hz; [apply u64_to_hash_zero in Hz; lia|]. rw hash_u64_roundtrip; lia.
Qed.

Lemma wp_cell_set l x s Q R : Q tt (set_cell s l x) → wp (cell_set l x) Q R s.
Proof. done. Qed.

(** The writes of [apply_validator_stake], once its checks have passed. *)
Lemma wp_store_stake s t x w updated R :
  1 <= w <= MAX_VALIDATOR_WEIGHT → w = stake_weight s x → unit_of s ≠ 0 → max_weight_of s ≠ 0 →
  0 <= x <= u256_max → updated = total_staked s - stake_of s t + x → 0 <= updated <= u256_max →
  wp (do* st (set_validator_stake_and_weight t x (unit_of s) (max_weight_of s)); st (set_total_staked updated))
    (λ _ s', applied s t x s') R s.
Proof.
  intros Hw1 Hw Hu Hm Hx Hup1 Hup2. apply wp_bind, wp_map_err. rw /set_validator_stake_and_weight.
  rw /derive_validator_weight_from_stake (proj2 (Z.eqb_neq _ _)) // (proj2 (Z.eqb_neq _ _)) // lift_ok_bind.
  fold (stake_weight s x). rw -Hw Z.max_l; [lia|]. apply wp_bind, wp_cell_set.
  rw /set_validator_weight (proj2 (Z.ltb_ge _ _)); [lia|]. rw Z.max_l; [lia|]. apply wp_bind, wp_cell_set, wp_ret.
  apply wp_map_err, wp_cell_set.
  split_and!.
  - done.
  - intros l H1 H2 H3. by do 3 (rw cells_set_ne; [done|]).
  - rw /stake_of cells_set_ne; [done|]. rw cells_set_ne; [done|]. rw cells_set. by apply hash_u256_roundtrip.
  - rw -Hup1 /total_staked cells_set. by apply hash_u256_roundtrip.
  - rw -Hw. apply weight_of_set; [done|]. rw cells_set_ne; [done|]. apply cells_set.
  - lia.
Qed.
Lemma reads_st_ok {A} s (m : M Reg StorageError A) a : reads s m (Ok a) → reads s (st m) (Ok a).
Proof. apply (reads_st s m (Ok a)). Qed.

(** It applies the stake, or fails at its checks without a change. *)
Lemma wp_apply s t x :
  max_weight_of s <= MAX_VALIDATOR_WEIGHT → 0 <= x <= u256_max →
  wp (apply_validator_stake t x) (λ _ s', applied s t x s') (λ _ s', same s s' ∧ ¬ appliable s t x) s.
Proof.
  intros Hmax Hx. rw /apply_validator_stake. eapply wp_bind_reads; [apply reads_validate|]. intros s1 Hs1.
  destruct (validate_result s t x) as [[old updated]|e] eqn:Hv.
  2: { split; [done|]. intros [[p Hp] _]. congruence. }
  apply validate_result_ok in Hv as Hup. destruct Hup as (_&Hup1&Hup2). cbn [fst snd].
  eapply wp_bind_reads; [apply (reads_st_ok _ _ _ (reads_unit s1))|]. intros s2 Hs2.
  eapply wp_bind_reads; [apply (reads_st_ok _ _ _ (reads_max_weight s2))|]. intros s3 Hs3.
  assert (same s s3) as Hs by (etrans; [done|]; by etrans).
  assert (unit_of s1 = unit_of s3) as -> by (destruct Hs2 as [H2 _], Hs3 as [H3 _]; by rw /unit_of H3 H2).
  assert (max_weight_of s2 = max_weight_of s3) as -> by (destruct Hs3 as [H3 _]; by rw /max_weight_of H3).
  assert (map_err sc_Storage (derive_validator_weight_from_stake x (unit_of s3) (max_weight_of s3)) = derive_result s3 x)
    as -> by (rw /derive_result; reflexivity).
  rw (same_derive s s3 x Hs).
  destruct (derive_result s x) as [w|e] eqn:Hd.
  2: { apply wp_bind, wp_lift. split; [done|]. intros [_ (w&Hw&_)]. congruence. }
  rw lift_ok_bind. destruct (Z.eqb_spec w 0) as [->|Hw0].
  { split; [done|]. intros [_ (w&Hw&Hne)]. congruence. }
  rw -(same_derive s s3 x Hs) in Hd. apply derive_result_ok in Hd as (Hw&Hu&Hm).
  assert (max_weight_of s3 = max_weight_of s) as Hmax3 by (destruct Hs as [Hc _]; by rw /max_weight_of Hc).
  assert (1 <= w <= MAX_VALIDATOR_WEIGHT).
  { rw Hw in Hw0 *. rw /stake_weight in Hw0 *. pose proof (max_weight_range s3). pose proof (unit_range s3).
    assert (0 <= x / unit_of s3) by (apply Z.div_pos; lia). lia. }
  eapply wp_mono; [apply (wp_store_stake s3 t x w updated (λ _ _, False)); try done| |done].
  - by rw (same_total s s3 Hs) (same_stake s s3 t Hs).
  - intros [] s4. by apply applied_same.
Qed.

#[local] Opaque hash_to_u64 hash_to_u256 u64_to_hash u256_to_hash.

(** ** What one operation does to the ledger *)

(** No validator is new in [s']. *)
Definition no_newcomer (s s' : Reg) : Prop :=
  ∀ vs' v, read_list s' = Ok vs' → v ∈ vs' → ∃ vs, read_list s = Ok vs ∧ v ∈ vs.
Lemma no_newcomer_list s s' : read_list s' = read_list s → no_newcomer s s'.
Proof. intros H vs' v Hl Hv. exists vs'. by rw -H. Qed.
(** Nothing of the ledger changes. *)
Definition quiet (s s' : Reg) (t : Address) : Prop :=
  stake_of s' t = stake_of s t ∧ total_staked s' = total_staked s ∧
  (staking s = true → weight_of s' t = weight_of s t) ∧ bals s' = bals s ∧ no_newcomer s s'.
(** [t] has the stake [x] and the balance [b], taken from the other. *)
Definition restaked (s s' : Reg) (t : Address) (b x : Z) : Prop :=
  stake_of s' t = x ∧ total_staked s' = total_staked s - stake_of s t + x ∧
  (staking s = true → weight_of s' t = stake_weight s x) ∧
  (∀ a, bals s' a = if decide (t = a) then b else bals s a) ∧ b + x = bals s t + stake_of s t ∧ 0 <= b ∧
  (∀ vs' v, read_list s' = Ok vs' → v ∈ vs' → v = t ∨ ∃ vs, read_list s = Ok vs ∧ v ∈ vs).
Definition settles (s s' : Reg) (t : Address) : Prop := quiet s s' t ∨ ∃ b x, restaked s s' t b x.

(** Both read only what ballots leave alone. *)
Lemma agree_stake s s' a : ballots_only s s' → stake_of s' a = stake_of s a.
Proof. intros [Hc _]. by rw /stake_of Hc. Qed.
Lemma agree_total s s' : ballots_only s s' → total_staked s' = total_staked s.
Proof. intros [Hc _]. by rw /total_staked Hc. Qed.
Lemma agree_weight s s' a : ballots_only s s' → weight_of s' a = weight_of s a.
Proof. intros [Hc _]. by rw /weight_of Hc. Qed.
Lemma agree_staking s s' : ballots_only s s' → staking s' = staking s.
Proof. intros [Hc _]. by rw /staking Hc. Qed.
Lemma agree_list s s' : ballots_only s s' → read_list s' = read_list s.
Proof. intros [Hc _]. by apply read_list_cells; intros; apply Hc. Qed.
Lemma agree_max s s' : ballots_only s s' → max_weight_of s' = max_weight_of s.
Proof. intros [Hc _]. by rw /max_weight_of Hc. Qed.
Lemma agree_stake_weight s s' x : ballots_only s s' → stake_weight s' x = stake_weight s x.
Proof. intros H. rw /stake_weight (agree_max s s' H) /unit_of. destruct H as [Hc _]. by rw Hc. Qed.

Lemma quiet_agree s s' t : ballots_only s s' → quiet s s' t.
Proof.
  intros H. split_and!; [by apply agree_stake|by apply agree_total|intros _; by apply agree_weight|apply H|by apply no_newcomer_list, agree_list].
Qed.
Lemma settles_agree s s1 s' t : ballots_only s s1 → settles s1 s' t → settles s s' t.
Proof.
  intros H [(H1&H2&H3&H4&H5)|(b&x&H1&H2&H3&H4&H5&H6&H7)].
  - left. rw (agree_stake s s1 t H) in H1. rw (agree_total s s1 H) in H2.
    rw (agree_staking s s1 H) (agree_weight s s1 t H) in H3. rw /no_newcomer (agree_list s s1 H) in H5.
    destruct H as [_ Hb]. rw Hb in H4. by split_and!.
  - right. exists b, x. rw (agree_total s s1 H) (agree_stake s s1 t H) in H2.
    rw (agree_staking s s1 H) (agree_stake_weight s s1 x H) in H3. rw (agree_stake s s1 t H) in H5.
    rw (agree_list s s1 H) in H7. destruct H as [_ Hb]. rw Hb in H4 H5. by split_and!.
Qed.

(** [m] settles the account of [t], whether it fails or not. *)
Definition settling {E A} (t : Address) (m : M Reg E A) (s : Reg) : Prop := settles s (m s).1 t.

Section settling.
Context (t : Address).

Lemma settling_reading {E A} (m : M Reg E A) s : reading m → settling t m s.
Proof. intros Hm. left. apply quiet_agree, ballots_only_same, Hm. Qed.
Lemma settling_bind {E A B} (m : M Reg E A) (k : A → M Reg E B) s :
  reading m → (∀ s' a, same s s' → (m s).2 = Ok a → settling t (k a) s') → settling t (mbind_ m k) s.
Proof.
  intros Hm Hk. specialize (Hm s). rw /settling /mbind_. destruct (m s) as [s1 [a|e]]; cbn [fst snd] in *.
  - apply (settles_agree s s1); [by apply ballots_only_same|]. by apply Hk.
  - left. by apply quiet_agree, ballots_only_same.
Qed.
Lemma settling_if {E A} (c : bool) (m n : M Reg E A) s :
  (c = true → settling t m s) → (c = false → settling t n s) → settling t (if c then m else n) s.
Proof. destruct c; auto. Qed.
Lemma settling_wp {E A} (m : M Reg E A) s :
  wp m (λ _ s', settles s s' t) (λ _ s', settles s s' t) s → settling t m s.
Proof. rw /wp /settling. by destruct (m s) as [s' [a|e]]. Qed.
End settling.

Ltac settling_step :=
  cbv beta zeta;
  match goal with
  | |- settling _ (mfail _) _ => apply settling_reading, reading_fail
  | |- settling _ (mret _) _ => apply settling_reading, reading_ret
  | |- settling _ (if _ then _ else _) _ => apply settling_if; intros ?
  end.

Lemma settling_reads {E A B} t s (m : M Reg E A) r (k : A → M Reg E B) :
  reads s m r → (∀ s' a, r = Ok a → same s s' → settling t (k a) s') → settling t (mbind_ m k) s.
Proof.
  intros [Hs Hm] Hk. rw /settling /mbind_. destruct (m s) as [s1 r1]; cbn [fst snd] in *. subst r1. destruct r as [a|e].
  - apply (settles_agree s s1); [by apply ballots_only_same|]. by apply Hk.
  - left. by apply quiet_agree, ballots_only_same.
Qed.

(** The end of a change of stake, with the balance changed first. *)
Lemma applied_restaked s s1 s2 t b x :
  cells s1 = cells s → (∀ a, bals s1 a = if decide (t = a) then b else bals s a) →
  b + x = bals s t + stake_of s t → 0 <= b → applied s1 t x s2 → restaked s s2 t b x.
Proof.
  intros Hc Hb Hsum Hb0 (Hk&Hcells&Hst&Htot&Hw&_). split_and!; try done.
  - by rw Htot /total_staked /stake_of Hc.
  - intros _. by rw Hw /stake_weight /unit_of /max_weight_of Hc.
  - intros a. destruct Hk as [-> _]. apply Hb.
  - intros vs v Hl Hv. right. exists vs. split; [|done]. rw -Hl. symmetry. apply read_list_cells; intros; by rw Hcells // Hc.
Qed.

Lemma bond_tail s t amount :
  max_weight_of s <= MAX_VALIDATOR_WEIGHT → 0 <= amount → stake_of s t + amount <= u256_max →
  appliable s t (stake_of s t + amount) →
  settling t (do* st (bal_sub t amount); do* apply_validator_stake t (stake_of s t + amount); mret true) s.
Proof.
  intros Hmax Ha Hx Happ. apply settling_wp, wp_bind, wp_map_err. rw /wp. cbn [bal_sub plain_reg].
  rw /checked_sub_u256. destruct (Z.leb_spec amount (bals s t)) as [Hle|Hlt]; [|left; by apply quiet_agree].
  set (s1 := set_bal s t (bals s t - amount)).
  change (wp (do* apply_validator_stake t (stake_of s t + amount); mret true)
    (λ _ s', settles s s' t) (λ _ s', settles s s' t) s1).
  apply wp_bind. pose proof (stake_of_range s t). eapply wp_mono.
  - apply (wp_apply s1 t (stake_of s t + amount)); [done|lia].
  - intros [] s2 Hs2. apply wp_ret. right. exists (bals s t - amount), (stake_of s t + amount).
    apply (applied_restaked s s1); [done..|lia|lia|done].
  - intros e s2 [_ Hn]. destruct Hn. exact Happ.
Qed.

Lemma appliable_same s s' t x : same s s' → appliable s t x → appliable s' t x.
Proof. intros Hs. by rw /appliable (same_validate s s' t x Hs) (same_derive s s' x Hs). Qed.
Lemma same_max s s' : same s s' → max_weight_of s' = max_weight_of s.
Proof. intros [Hc _]. by rw /max_weight_of Hc. Qed.

Lemma settling_bond caller t amount s :
  max_weight_of s <= MAX_VALIDATOR_WEIGHT → 0 <= amount → settling t (bond_validator_stake caller t amount) s.
Proof.
  intros Hmax Ha. unfold bond_validator_stake. apply settling_bind; [reading_auto|]. intros s1 [] Hs1 _.
  settling_step; [settling_step|]. apply settling_bind; [reading_auto|]. intros s2 vs Hs2 _. settling_step; [settling_step|].
  eapply settling_reads; [apply (reads_st_ok _ _ _ (reads_stake s2 t))|]. intros s3 current [= <-] Hs3.
  apply settling_bind; [reading_auto|]. intros s4 updated Hs4 Hup. unfold checked_add_u256 in Hup. cbn [snd mlift] in Hup.
  destruct (Z.leb_spec (stake_of s2 t + amount) u256_max) as [Hle|]; [|done]. injection Hup as <-.
  eapply settling_reads; [apply reads_derived|]. intros s5 w Hw Hs5. settling_step; [settling_step|].
  eapply settling_reads; [apply reads_validate|]. intros s6 p Hp Hs6. apply Z.eqb_neq in H1.
  assert (same s s6) as Hs by (do 5 (etrans; [done|]); done).
  assert (stake_of s2 t = stake_of s6 t) as Heq by (symmetry; apply same_stake; do 3 (etrans; [done|]); done).
  rw Heq. assert (caller = t) as ->.
  { apply negb_false_iff, bool_decide_eq_true in H. done. }
  apply bond_tail; [by rw (same_max s s6 Hs)|done|by rw -Heq|]. rw -Heq. split.
  - exists p. by rw (same_validate s5 s6 _ _ Hs6).
  - exists w. split; [|done]. rw (same_derive s5 s6 _ Hs6). by rw (same_derive s4 s5 _ Hs5).
Qed.

Lemma same_list s s' : same s s' → ∀ l, cells s' l = cells s l.
Proof. by intros [-> _]. Qed.

Lemma settling_unbond caller t amount s :
  max_weight_of s <= MAX_VALIDATOR_WEIGHT → 0 <= amount → 0 <= bals s t → bals s t + stake_of s t <= u256_max →
  settling t (unbond_validator_stake caller t amount) s.
Proof.
  intros Hmax Ha Hb Hsum. unfold unbond_validator_stake. apply settling_bind; [reading_auto|]. intros s1 [] Hs1 _.
  settling_step; [settling_step|]. apply settling_bind; [reading_auto|]. intros s2 vs Hs2 _. settling_step; [settling_step|].
  eapply settling_reads; [apply (reads_st_ok _ _ _ (reads_stake s2 t))|]. intros s3 current [= <-] Hs3.
  settling_step; [settling_step|]. apply Z.ltb_ge in H1. eapply settling_reads; [apply reads_derived|].
  intros s4 w Hw Hs4. settling_step; [settling_step|]. assert (caller = t) as ->.
  { apply negb_false_iff, bool_decide_eq_true in H. done. }
  assert (same s s4) as Hs by (do 3 (etrans; [done|]); done).
  assert (stake_of s2 t = stake_of s4 t) as Heq by (symmetry; apply same_stake; etrans; done). rw Heq in H1 *.
  assert (bals s4 = bals s) as Hbal by apply Hs. pose proof (stake_of_range s4 t) as Hr.
  rw -(same_stake s s4 t Hs) in Hsum. apply settling_wp, wp_bind. eapply wp_mono.
  - apply (wp_apply s4 t (stake_of s4 t - amount)); [by rw (same_max s s4 Hs)|lia].
  - intros [] s5 Hs5. apply wp_bind, wp_map_err. rw /wp. cbn [bal_add plain_reg].
    assert (bals s5 = bals s) as Hbal5 by (destruct Hs5 as [[-> _] _]; done).
    rw /checked_add_u256 Hbal5 (proj2 (Z.leb_le _ _)); [lia|].
    change (settles s4 (set_bal s5 t (bals s t + amount)) t). right. exists (bals s t + amount), (stake_of s4 t - amount).
    destruct Hs5 as (Hk&Hcells&Hst&Htot&Hw5&Hpos). split_and!; try done.
    + intros a. cbn [bals set_bal]. rw Hbal5 Hbal. by destruct (decide (t = a)).
    + rw Hbal. lia.
    + lia.
    + intros us v Hl Hv. right. exists us. split; [|done]. rw -Hl. symmetry.
      apply read_list_cells; intros; by apply Hcells.
  - intros e s5 [Hs5 _]. left. by apply quiet_agree, ballots_only_same.
Qed.

Lemma updated_balance_ok current old new b :
  updated_balance current old new = Ok b → 0 <= current → b + new = current + old ∧ (0 <= old → 0 <= new → 0 <= b).
Proof.
  rw /updated_balance /checked_add_u256. destruct (Z.ltb_spec old new).
  - destruct (Z.ltb_spec current (new - old)); [done|]. intros [= <-]. lia.
  - destruct (Z.ltb_spec new old); [|intros [= <-]; lia].
    destruct (Z.leb_spec (current + (old - new)) u256_max); [|done]. intros [= <-]. lia.
Qed.

(** After the vote on a stake has passed. *)
Lemma set_stake_tail s t x :
  max_weight_of s <= MAX_VALIDATOR_WEIGHT → 0 <= x <= u256_max → 0 <= bals s t →
  settling t
    (let* p := validate_validator_stake_total t x in
     let* current := st (bal_get t) in
     let* updated := mlift (updated_balance current p.1 x) in
     do* apply_validator_stake t x;
     do* (if negb (updated =? current) then st (bal_set t updated) else mret tt);
     mret true) s.
Proof.
  intros Hmax Hx Hb. eapply settling_reads; [apply reads_validate|]. intros s1 [old total] Hv Hs1.
  apply validate_result_ok in Hv as (->&_&_). cbn [fst].
  eapply (settling_reads t s1 _ (Ok (bals s1 t))); [by split|]. intros s2 current [= <-] Hs2.
  apply settling_bind; [reading_auto|]. intros s3 b Hs3 Hb3. cbn [mlift snd] in Hb3.
  assert (bals s1 = bals s) as E1 by apply Hs1. rw E1 in Hb3 *. apply updated_balance_ok in Hb3 as [Hsum Hpos]; [|done].
  pose proof (stake_of_range s t) as Hr. assert (same s s3) as Hs by (do 2 (etrans; [done|]); done).
  assert (bals s3 = bals s) as E3 by apply Hs. apply settling_wp, wp_bind. eapply wp_mono.
  - apply (wp_apply s3 t x); [by rw (same_max s s3 Hs)|lia].
  - intros [] s4 Hs4. assert (bals s4 = bals s) as E4 by (destruct Hs4 as [[-> _] _]; done).
    rw -(same_stake s s3 t Hs) in Hsum Hpos Hr.
    assert (∀ s5, cells s5 = cells s4 → (∀ a, bals s5 a = if decide (t = a) then b else bals s a) →
      settles s3 s5 t) as Hfin.
    { intros s5 Hc5 Hb5. right. exists b, x. destruct Hs4 as (Hk&Hcells&Hst&Htot&Hw&_). rw -E3 in Hb5 Hsum. split_and!; try done.
      - by rw /stake_of Hc5.
      - by rw /total_staked Hc5.
      - intros _. by rw /weight_of Hc5.
      - apply Hpos; lia.
      - intros us v Hl Hv. right. exists us. split; [|done]. rw -Hl. symmetry.
        apply read_list_cells; intros; rw Hc5; by apply Hcells. }
    destruct (Z.eqb_spec b (bals s t)) as [Heq|Hne]; apply wp_bind.
    + apply wp_ret, wp_ret, Hfin; [done|]. intros a. rw E4. destruct (decide (t = a)) as [<-|]; done.
    + apply wp_map_err. rw /wp. cbn [bal_set plain_reg]. apply Hfin; [done|]. intros a. cbn [bals set_bal].
      rw E4. by destruct (decide (t = a)).
  - intros e s4 [Hs4 _]. left. by apply quiet_agree, ballots_only_same.
Qed.

Lemma settling_vote {A} u op t caller vs s (k : bool → M Reg SystemContractError A) :
  len vs <= MAX_VALIDATORS → reading (k false) →
  (∀ s', ballots_only s s' → keys s' = keys s → settling u (k true) s') →
  settling u (mbind_ (record_validator_vote op t caller vs) k) s.
Proof.
  intros Hlen Hkf Hkt. rw /settling /mbind_. pose proof (wp_record_counted op t caller vs s Hlen) as Hrec.
  assert (keys (record_validator_vote op t caller vs s).1 = keys s) as Hkeys.
  { pose proof (wp_record op t caller vs s (λ _ s', keys s' = keys s) (λ _ _, False) Hlen) as Hw. rw /wp in Hw.
    assert (match record_validator_vote op t caller vs s with (s', Ok _) => keys s' = keys s | (_, Err _) => False end) as Hk.
    { apply Hw. by intros s' (_&_&->&_) b _. }
    by destruct (record_validator_vote op t caller vs s) as [s' []]. }
  rw /wp in Hrec. destruct (record_validator_vote op t caller vs s) as [s1 [[]|e]]; cbn [fst] in *; [| |done];
    destruct Hrec as (Ho&_).
  - apply (settles_agree s s1); [done|]. by apply Hkt.
  - apply (settles_agree s s1); [done|]. by apply settling_reading.
Qed.

Lemma ballots_only_bals s s' : ballots_only s s' → bals s' = bals s.
Proof. by intros [_ ?]. Qed.
Lemma reads_list_ok s vs s1 : (st get_validators s).2 = Ok vs → same s s1 → read_list s1 = Ok vs ∧ len vs <= MAX_VALIDATORS.
Proof. intros Hl%st_list Hs. split; [by rw (read_list_same s s1 Hs)|]. by eapply read_list_ok. Qed.

Lemma settling_set_stake caller t x s :
  max_weight_of s <= MAX_VALIDATOR_WEIGHT → 0 <= x <= u256_max → 0 <= bals s t →
  settling t (set_validator_stake_op caller t x) s.
Proof.
  intros Hmax Hx Hb. unfold set_validator_stake_op. apply settling_bind; [reading_auto|]. intros s1 [] Hs1 _.
  apply settling_bind; [reading_auto|]. intros s2 vs Hs2 Hl. destruct (reads_list_ok _ _ _ Hl Hs2) as [_ Hlen].
  settling_step; [settling_step|]. apply settling_bind; [reading_auto|]. intros s3 w Hs3 _. settling_step; [settling_step|].
  apply settling_vote; [done|reading_auto|]. intros s4 Hs4 _.
  assert (ballots_only s s4) as Hs.
  { eapply ballots_only_from; [|exact Hs4]. do 2 (etrans; [done|]). done. }
  apply set_stake_tail; [by rw (agree_max s s4 Hs)|done|by rw (ballots_only_bals s s4 Hs)].
Qed.

(** The list of [s1] is [vs] with [t], the rest as in [s]. *)
Definition relisted (s s1 : Reg) (t : Address) (vs : list Address) : Prop :=
  read_list s = Ok vs ∧ read_list s1 = Ok (vs ++ [t]) ∧ bals s1 = bals s ∧ ∀ l, ¬ list_label l → cells s1 l = cells s l.

Lemma relisted_join s s1 t vs us v :
  relisted s s1 t vs → read_list s1 = Ok us → v ∈ us → v = t ∨ ∃ vs, read_list s = Ok vs ∧ v ∈ vs.
Proof.
  intros (Hl&Hl1&_) Hus Hv. rw Hl1 in Hus. injection Hus as <-.
  apply elem_of_app in Hv as [Hv|Hv%list_elem_of_singleton]; eauto.
Qed.
Lemma relisted_same s s1 s2 t vs : relisted s s1 t vs → same s1 s2 → relisted s s2 t vs.
Proof.
  intros (H1&H2&H3&H4) Hs. rw -(read_list_same s1 s2 Hs) in H2. destruct Hs as (Hc&Hb&_). rw -Hb in H3. rw -Hc in H4. done.
Qed.
Lemma relisted_stake s s1 t vs a : relisted s s1 t vs → stake_of s1 a = stake_of s a.
Proof. intros (_&_&_&H). rw /stake_of H; [by intros []|done]. Qed.
Lemma relisted_total s s1 t vs : relisted s s1 t vs → total_staked s1 = total_staked s.
Proof. intros (_&_&_&H). rw /total_staked H; [by intros []|done]. Qed.
Lemma relisted_max s s1 t vs : relisted s s1 t vs → max_weight_of s1 = max_weight_of s.
Proof. intros (_&_&_&H). rw /max_weight_of H; [by intros []|done]. Qed.
Lemma relisted_unit s s1 t vs : relisted s s1 t vs → unit_of s1 = unit_of s.
Proof. intros (_&_&_&H). rw /unit_of H; [by intros []|done]. Qed.
Lemma relisted_staking s s1 t vs : relisted s s1 t vs → staking s1 = staking s.
Proof. intros (_&_&_&H). rw /staking H; [by intros []|done]. Qed.

(** An admission applies the stake the validator already has. *)
Lemma admit_staked s s1 t vs w :
  relisted s s1 t vs → max_weight_of s <= MAX_VALIDATOR_WEIGHT → 0 <= bals s t →
  derive_result s (stake_of s t) = Ok w → w ≠ 0 →
  wp (apply_validator_stake t (stake_of s t)) (λ _ s', settles s s' t) (λ _ _, False) s1.
Proof.
  intros Hs1 Hmax Hb Hd1 Hd2. pose proof (stake_of_range s t) as Hr. pose proof (total_range s) as Htr.
  pose proof (relisted_stake s s1 t vs t Hs1) as Est. pose proof (relisted_total s s1 t vs Hs1) as Etot.
  eapply wp_mono; [apply (wp_apply s1 t (stake_of s t)); [by rw (relisted_max s s1 t vs Hs1)|done]| |].
  - intros [] s2 (Hk&Hcs&Hst&Htot&Hw&Hpos). right. exists (bals s t), (stake_of s t). split_and!; try done.
    + by rw Htot Est Etot.
    + intros _. by rw Hw /stake_weight (relisted_max s s1 t vs Hs1) (relisted_unit s s1 t vs Hs1).
    + intros a. assert (bals s2 = bals s) as -> by (destruct Hk as [-> _], Hs1 as (_&_&->&_); done).
      by destruct (decide (t = a)) as [<-|].
    + intros us v Hus. apply (relisted_join s s1 t vs us v Hs1). rw -Hus. symmetry.
      by apply read_list_cells; intros; apply Hcs.
  - intros e s2 [_ Hn]. destruct Hn. split.
    + rw /validate_result Est Etot Z.leb_refl /checked_add_u256 Z.sub_diag Z.add_0_r (proj2 (Z.leb_le _ _)); [lia|].
      eexists. reflexivity.
    + exists w. split; [|done]. by rw -Hd1 /derive_result (relisted_unit s s1 t vs Hs1) (relisted_max s s1 t vs Hs1).
Qed.
Lemma admit_unstaked s s1 t vs :
  relisted s s1 t vs → staking s = false → 0 <= bals s t →
  wp (st (set_validator_weight t 1)) (λ _ s', settles s s' t) (λ _ _, False) s1.
Proof.
  intros Hs1 Hstk Hb. apply wp_map_err. rw /set_validator_weight. apply wp_cell_set. right. exists (bals s t), (stake_of s t).
  split_and!.
  - rw -(relisted_stake s s1 t vs t Hs1) /stake_of cells_set_ne; done.
  - rw Z.sub_add -(relisted_total s s1 t vs Hs1) /total_staked cells_set_ne; done.
  - by rw Hstk.
  - intros a. destruct Hs1 as (_&_&Hb1&_). cbn [bals set_cell]. rw Hb1. by destruct (decide (t = a)) as [<-|].
  - done.
  - done.
  - intros us v Hus. apply (relisted_join s s1 t vs us v Hs1). rw -Hus. symmetry. by apply read_list_cells.
Qed.
Lemma settling_admit t s vs w :
  max_weight_of s <= MAX_VALIDATOR_WEIGHT → read_list s = Ok vs → t ∉ vs → 0 <= bals s t →
  (staking s = true → derive_result s (stake_of s t) = Ok w ∧ w ≠ 0) →
  settling t (admit_validator t vs) s.
Proof.
  intros Hmax Hl Ht Hb Hd. apply settling_wp. unfold admit_validator. apply wp_bind, wp_map_err.
  destruct (read_list_ok s vs Hl) as [Hnd Hlen]. destruct (decide (len (vs ++ [t]) <= MAX_VALIDATORS)) as [Hle|Hgt].
  2: { rw /set_validators (proj2 (Z.ltb_lt _ _)); [lia|]. apply wp_fail. left. by apply quiet_agree. }
  eapply wp_mono; [apply (wp_set_validators (vs ++ [t]) s (λ _ _, False)); [|done]| |done].
  { apply NoDup_app. split_and!; [done|set_solver|apply NoDup_singleton]. }
  intros [] s1 (Hl1&Hk1&Hc1). assert (relisted s s1 t vs) as Hs1 by (split_and!; [done..|apply Hk1|done]).
  eapply wp_bind_reads; [apply (reads_st_ok _ _ _ (reads_staking s1))|]. intros s2 Hs2.
  rw (relisted_staking s s1 t vs Hs1). apply wp_bind. pose proof (relisted_same s s1 s2 t vs Hs1 Hs2) as Hr2.
  destruct (staking s) eqn:Hstk.
  - eapply wp_bind_reads; [apply (reads_st_ok _ _ _ (reads_stake s2 t))|]. intros s3 Hs3.
    pose proof (relisted_same s s2 s3 t vs Hr2 Hs3) as Hr3. rw (relisted_stake s s2 t vs t Hr2).
    destruct (Hd eq_refl) as [Hd1 Hd2]. eapply wp_mono; [by apply (admit_staked s s3 t vs w)| |done].
    intros [] s4 Hs4. by apply wp_ret.
  - eapply wp_mono; [by apply (admit_unstaked s s2 t vs)| |done]. intros [] s4 Hs4. by apply wp_ret.
Qed.

(** The check of the stake before a vote on an addition. *)
Lemma reads_stake_check s t :
  reads s (let* stake := st (get_validator_stake t) in let* weight := derived_weight stake in
           if weight =? 0 then mfail StakeTooLow else mret tt)
    (let? w := derive_result s (stake_of s t) in if w =? 0 then Err StakeTooLow else Ok tt).
Proof.
  eapply reads_bind; [apply (reads_st_ok _ _ _ (reads_stake s t))|]. intros s1 Hs1.
  rw -(same_derive s s1 (stake_of s t) Hs1).
  pose proof (reads_derived s1 (stake_of s t)) as Hr. destruct (derive_result s1 (stake_of s t)) as [w|e].
  - eapply reads_bind; [exact Hr|]. intros s2 _. cbn. destruct (w =? 0); [apply reads_fail|apply reads_ret].
  - by apply reads_bind_err.
Qed.

Lemma settling_add caller t k s :
  max_weight_of s <= MAX_VALIDATOR_WEIGHT → 0 <= bals s t → settling t (add_validator caller t k) s.
Proof.
  intros Hmax Hb. unfold add_validator. apply settling_bind; [reading_auto|]. intros s1 vs Hs1 Hl.
  destruct (reads_list_ok _ _ _ Hl Hs1) as [Hl1 Hlen].
  settling_step; [settling_step|]. settling_step; [settling_step|]. apply bool_decide_eq_false in H0.
  apply settling_bind; [reading_auto|]. intros s2 [] Hs2 _.
  eapply settling_reads; [apply (reads_st_ok _ _ _ (reads_staking s2))|]. intros s3 enabled [= <-] Hs3.
  assert (same s s3) as Hs by (do 2 (etrans; [done|]); done).
  assert (staking s2 = staking s3) as -> by (destruct Hs3 as [Hc _]; by rw /staking Hc).
  assert (∀ s4 w, same s3 s4 → (staking s3 = true → derive_result s3 (stake_of s3 t) = Ok w ∧ w ≠ 0) →
    settling t (let* passed := record_validator_vote Add t caller vs in
      if passed then admit_validator t vs else mret false) s4) as Hvote.
  { intros s4 w Hs4 Hd. apply settling_vote; [done|reading_auto|]. intros s5 Hs5 _.
    assert (ballots_only s3 s5) as Ho by (by eapply ballots_only_from).
    assert (ballots_only s s5) as Ho' by (by eapply ballots_only_from). apply (settling_admit t s5 vs w).
    - by rw (agree_max s s5 Ho').
    - rw (agree_list s3 s5 Ho) -Hl1. apply read_list_same. by etrans.
    - done.
    - by rw (ballots_only_bals s s5 Ho').
    - rw (agree_staking s3 s5 Ho) (agree_stake s3 s5 t Ho). intros Hstk. destruct (Hd Hstk) as [Hd1 Hd2].
      split; [|done]. rw -Hd1 /derive_result (agree_max s3 s5 Ho) /unit_of. destruct Ho as [Hc _]. by rw Hc. }
  destruct (staking s3) eqn:Hstk.
  - eapply settling_reads; [apply reads_stake_check|]. intros s4 [] Hck Hs4.
    destruct (derive_result s3 (stake_of s3 t)) as [w|e] eqn:Hd; [|done]. cbn in Hck.
    destruct (Z.eqb_spec w 0); [done|]. apply (Hvote s4 w); [done|]. done.
  - eapply settling_reads; [apply reads_ret|]. intros s4 [] _ Hs4. apply (Hvote s4 0); [done|]. done.
Qed.

(** ** The ledger *)

(** The accounts of [A] hold all stakes, and the total is their sum. *)
Definition backed (s : Reg) : Prop :=
  ∃ A, NoDup A ∧ (∀ a, a ∉ A → stake_of s a = 0) ∧ total_staked s = sumZ (stake_of s) A.
Definition ledger (s : Reg) : Prop :=
  (∀ a, 0 <= bals s a ∧ bals s a + stake_of s a <= u256_max) ∧ max_weight_of s <= MAX_VALIDATOR_WEIGHT ∧ backed s ∧
  (staking s = true → ∀ vs v, read_list s = Ok vs → v ∈ vs → weight_of s v = stake_weight s (stake_of s v)).

(** Stakes and weights other than those of [t], and the parameters, stay. *)
Definition framed (s s' : Reg) (t : Address) : Prop :=
  (∀ a, a ≠ t → stake_of s' a = stake_of s a ∧ weight_of s' a = weight_of s a) ∧
  staking s' = staking s ∧ unit_of s' = unit_of s ∧ max_weight_of s' = max_weight_of s.

Lemma sumZ_change {A} (f g : A → Z) l t : NoDup l → t ∈ l → (∀ a, a ≠ t → g a = f a) → sumZ g l = sumZ f l - f t + g t.
Proof.
  intros Hnd Ht Hfg. induction Hnd as [|a l Ha Hnd IH]; [set_solver|]. rw !sumZ_cons.
  apply elem_of_cons in Ht as [->|Ht].
  - rw (sumZ_ext g f l); [|lia]. intros b Hb. apply Hfg. by intros ->.
  - rw IH // Hfg; [|lia]. by intros ->.
Qed.
Lemma backed_change s s' t :
  backed s → (∀ a, a ≠ t → stake_of s' a = stake_of s a) →
  total_staked s' = total_staked s - stake_of s t + stake_of s' t → backed s'.
Proof.
  intros (A&Hnd&Hout&Htot) Hst Htot'. destruct (decide (t ∈ A)) as [Hin|Hn].
  - exists A. split_and!; [done| |].
    + intros a Ha. rw Hst; [by intros ->|by apply Hout].
    + by rw (sumZ_change (stake_of s) (stake_of s') A t) // -Htot.
  - exists (t :: A). split_and!; [by apply NoDup_cons| |].
    + intros a Ha. rw Hst; [set_solver|apply Hout; set_solver].
    + rw sumZ_cons Htot' Htot (Hout t Hn) (sumZ_ext (stake_of s') (stake_of s)); [|lia]. intros a Ha. apply Hst. by intros ->.
Qed.

Lemma settles_conserve s s' t a : settles s s' t → framed s s' t →
  bals s' a + stake_of s' a = bals s a + stake_of s a ∧ (0 <= bals s a → 0 <= bals s' a).
Proof.
  intros Hs (Hf&_). destruct Hs as [(H1&_&_&->&_)|(b&x&H1&_&_&H4&H5&H6&_)].
  - destruct (decide (a = t)) as [->|Hne]; [by rw H1|]. by destruct (Hf a Hne) as [-> _].
  - rw H4. destruct (decide (t = a)) as [<-|Hne]; [by rw H1|]. by destruct (Hf a (not_eq_sym Hne)) as [-> _].
Qed.
Lemma settles_backed s s' t : settles s s' t → framed s s' t → backed s → backed s'.
Proof.
  intros Hs (Hf&_) Hb. apply (backed_change s s' t); [done|intros a Ha; by apply Hf|].
  destruct Hs as [(H1&H2&_)|(b&x&H1&H2&_)]; [rw H2 H1; lia|by rw H2 H1].
Qed.
Lemma settles_weights s s' t : settles s s' t → framed s s' t →
  (staking s = true → ∀ vs v, read_list s = Ok vs → v ∈ vs → weight_of s v = stake_weight s (stake_of s v)) →
  staking s' = true → ∀ vs v, read_list s' = Ok vs → v ∈ vs → weight_of s' v = stake_weight s' (stake_of s' v).
Proof.
  intros Hs (Hf&Hstk&Hu&Hm) Hw Hstk' vs v Hl Hv. rw Hstk in Hstk'.
  assert (∀ x, stake_weight s' x = stake_weight s x) as -> by (intros x; by rw /stake_weight Hu Hm).
  assert (v ≠ t → (∃ us, read_list s = Ok us ∧ v ∈ us) → weight_of s' v = stake_weight s (stake_of s' v)) as Hother.
  { intros Hne (us&Hus&Hvu). destruct (Hf v Hne) as [-> ->]. by apply (Hw Hstk' us). }
  destruct Hs as [(H1&_&H3&_&H5)|(b&x&H1&_&H3&_&_&_&H7)].
  - destruct (H5 vs v Hl Hv) as (us&Hus&Hvu). destruct (decide (v = t)) as [->|Hne]; [|by apply Hother; eauto].
    rw H1 (H3 Hstk'). by apply (Hw Hstk' us).
  - destruct (decide (v = t)) as [->|Hne]; [by rw H1 (H3 Hstk')|].
    destruct (H7 vs v Hl Hv) as [?|Hin]; [done|by apply Hother].
Qed.
Lemma settles_ledger s s' t : settles s s' t → framed s s' t → ledger s → ledger s'.
Proof.
  intros Hs Hf (Hb&Hm&Hbk&Hw). split_and!.
  - intros a. destruct (settles_conserve s s' t a Hs Hf) as [-> Hpos]. destruct (Hb a). by split; [apply Hpos|].
  - destruct Hf as (_&_&_&->). done.
  - by eapply settles_backed.
  - by eapply settles_weights.
Qed.

(** ** Calls *)

Section calls.
Context {Hs : Hashes}.

Definition target_of (act : reg_action) : Address :=
  match act with
  | AAdd t | ARemove t | ASetWeight t _ | ASetStake t _ | ABond t _ | AUnbond t _ | AProver t => t
  | AGovernance | ANone => ZERO
  end.

Lemma amount_range input t x : bytes_ok input → decode_address_u256 input = Ok (t, x) → 0 <= x <= u256_max.
Proof.
  intros Hok. rw /decode_address_u256. destruct (_ <? _) eqn:Hlen; [done|]. intros E.
  assert (x = from_be_bytes (take 32 (drop 32 input))) as -> by (by injection E). clear E.
  apply Z.ltb_ge in Hlen. rw /len in Hlen.
  pose proof (from_be_bytes_range (take 32 (drop 32 input))) as Hr. rw length_take length_drop Nat.min_l in Hr; [lia|].
  rw b256_pow in Hr. assert (0 <= from_be_bytes (take 32 (drop 32 input)) < u256_max + 1); [|lia]. apply Hr.
  apply Forall_forall. by apply Forall_take, Forall_drop.
Qed.
(** The amount a call names is a [U256]. *)
Definition amount_ok (act : reg_action) : Prop :=
  match act with ASetStake _ x | ABond _ x | AUnbond _ x => 0 <= x <= u256_max | _ => True end.
Lemma call_amount c : bytes_ok (rc_input c) → amount_ok (reg_action_of c).
Proof.
  intros Hok. assert (bytes_ok (drop 4 (rc_input c))) as Hd by (by apply Forall_drop).
  assert (∀ f : Address * Z → reg_action, (∀ p, 0 <= p.2 <= u256_max → amount_ok (f p)) →
    amount_ok (decoded (decode_address_u256 (drop 4 (rc_input c))) f)) as Hdec.
  { intros f Hf. destruct (decode_address_u256 _) as [[t x]|e] eqn:He; [|done]. apply Hf. by eapply amount_range. }
  rw /reg_action_of. cbv zeta.
  generalize REGISTER_PROVER_SELECTOR ADD_VALIDATOR_SELECTOR REMOVE_VALIDATOR_SELECTOR SET_VALIDATOR_WEIGHT_SELECTOR
    SET_VALIDATOR_STAKE_SELECTOR BOND_VALIDATOR_STAKE_SELECTOR UNBOND_VALIDATOR_STAKE_SELECTOR.
  intros x1 x2 x3 x4 x5 x6 x7. repeat (case_match; [try done|]); try done; try (by apply Hdec).
  all: by destruct (decode_rotate_key_params _) || destruct (sc_decode_address _) || destruct (decode_address_u64 _).
Qed.

Lemma run_framed c s : framed s (run_reg c s).1 (target_of (reg_action_of c)).
Proof.
  destruct (run_reg_writes c s) as [Hw _]. split_and!.
  - intros a Ha. split; [rw /stake_of Hw|rw /weight_of Hw]; try done; destruct (reg_action_of c); cbn in *; tauto.
  - rw /staking Hw; [by intros []|done].
  - rw /unit_of Hw; [by intros []|done].
  - rw /max_weight_of Hw; [by intros []|done].
Qed.

(** A call that touches no stake. *)
Lemma quiet_region c s t :
  (∀ l, region (rc_caller c) (reg_action_of c) l → l ≠ LStake t ∧ l ≠ LStaked) →
  moves_balance (reg_action_of c) = false → no_newcomer s (run_reg c s).1 →
  (staking s = true → weight_of (run_reg c s).1 t = weight_of s t) → quiet s (run_reg c s).1 t.
Proof.
  intros Hr Hb Hn Hw. destruct (run_reg_writes c s) as [Hc Hbal]. split_and!; [| |done|by apply Hbal|done].
  - rw /stake_of Hc; [|done]. intros H%Hr. by destruct H.
  - rw /total_staked Hc; [|done]. intros H%Hr. by destruct H.
Qed.
Lemma keeps_list c s :
  match reg_action_of c with AAdd _ | ARemove _ => False | _ => True end → read_list (run_reg c s).1 = read_list s.
Proof.
  intros Ha. eapply list_writes; [apply run_reg_writes|]. destruct (reg_action_of c); try done; intros []; cbn; tauto.
Qed.
Lemma set_weight_staking caller t w s : staking s = true → same s (set_validator_weight_op caller t w s).1.
Proof.
  intros Hstk. unfold set_validator_weight_op, mbind_. destruct (reads_st_ok _ _ _ (reads_staking s)) as [Hs1 Hr].
  destruct (st staking_enabled s) as [s1 r]. cbn [fst snd] in *. subst r. by rw Hstk.
Qed.

Ltac no_stake := intros []; cbn; try tauto; intros; split; discriminate.
Lemma run_settles c s : ledger s → amount_ok (reg_action_of c) → settles s (run_reg c s).1 (target_of (reg_action_of c)).
Proof.
  intros (Hb&Hmax&_) Ham. destruct (reg_action_of c) as [t|t|t w|t x|t x|t x|t| |] eqn:Ha; cbn [target_of].
  - rw run_reg_state ?Ha //. by apply settling_add; [|apply Hb].
  - left. apply quiet_region; rw ?Ha //; [no_stake| |].
    + rw run_reg_state ?Ha //. cbn [run_action]. destruct (listed_remove (rc_caller c) t s) as [H|(vs&vs'&Hl&Hl'&_&_&->)].
      * by apply no_newcomer_list.
      * intros us v Hus Hv. exists vs. split; [done|]. rw Hl' in Hus. injection Hus as <-.
        eapply elem_of_sublist; [exact Hv|apply remove_first_sublist].
    + intros _. destruct (run_reg_writes c s) as [Hw _]. rw /weight_of Hw; [|done]. rw Ha. cbn. tauto.
  - left. apply quiet_region; rw ?Ha //; [no_stake|apply no_newcomer_list, keeps_list; by rw Ha|].
    intros Hstk. rw run_reg_state ?Ha //. cbn [run_action]. by rw (same_weight s _ (set_weight_staking (rc_caller c) t w s Hstk)).
  - rw run_reg_state ?Ha //. by apply settling_set_stake; [..|apply Hb].
  - rw run_reg_state ?Ha //. apply settling_bond; [done|apply Ham].
  - rw run_reg_state ?Ha //. apply settling_unbond; [done|apply Ham|apply Hb..].
  - left. apply quiet_region; rw ?Ha //; [no_stake|apply no_newcomer_list, keeps_list; by rw Ha|].
    intros _. destruct (run_reg_writes c s) as [Hw _]. rw /weight_of Hw; [|done]. rw Ha. cbn. tauto.
  - left. apply quiet_region; rw ?Ha //; [no_stake|apply no_newcomer_list, keeps_list; by rw Ha|].
    intros _. destruct (run_reg_writes c s) as [Hw _]. rw /weight_of Hw; [|done]. rw Ha. cbn. tauto.
  - left. apply quiet_region; rw ?Ha //; [no_stake|apply no_newcomer_list, keeps_list; by rw Ha|].
    intros _. destruct (run_reg_writes c s) as [Hw _]. rw /weight_of Hw; [|done]. rw Ha. cbn. tauto.
Qed.

Definition byte_calls (h : list (reg_call * Reg)) : Prop := Forall (λ p, bytes_ok (rc_input p.1)) h.

Lemma history_ledger s0 h s :
  ledger s0 → history s0 h s → byte_calls h →
  ledger s ∧ ∀ a, bals s a + stake_of s a = bals s0 a + stake_of s0 a.
Proof.
  intros H0 Hh Hok. induction Hh as [|h s c s' Hh IH Hstep]; [done|]. apply Forall_cons in Hok as [Hc Hok].
  destruct (IH Hok) as [Hl Hsum]. destruct Hstep as [|e He]; [|done].
  pose proof (run_settles c s Hl (call_amount c Hc)) as Hset. pose proof (run_framed c s) as Hf.
  split; [by eapply settles_ledger|]. intros a. rw -Hsum. by apply (settles_conserve s _ (target_of (reg_action_of c))).
Qed.

(** C10: The stake ledger holds through any sequence of calls to the validator
    registry, failed calls included, whether or not those were rolled back. If
    at the start no balance and stake of an account exceed a 256-bit integer
    together, the recorded total is the sum of all stakes, the weight cap is
    within the protocol's maximum, and with staking on every validator's weight
    is its stake over the stake unit, capped, then all of this still holds at
    the end; and no account's balance and stake together have changed. The
    inputs of the calls are byte strings. *)
Theorem stake_ledger s0 h s :
  ledger s0 → history s0 h s → byte_calls h →
  ledger s ∧ ∀ a, bals s a + stake_of s a = bals s0 a + stake_of s0 a.
Proof. apply history_ledger. Qed.
End calls.

(** ** Example *)

(** Two validators that staked 40 and 20 of 100, with a unit of 10. *)
Definition staked_reg : Reg :=
  MkReg (λ l, match l with
              | LCount => u64_to_hash 2
              | LSlot i => if (i <? 2)%N then val (1 + Z.of_N i) else ZERO
              | LStaking => u64_to_hash 1
              | LUnit => u256_to_hash 10
              | LMaxWeight => u64_to_hash 100
              | LStaked => u256_to_hash 60
              | LStake a => if decide (a = val 1) then u256_to_hash 40
                            else if decide (a = val 2) then u256_to_hash 20 else ZERO
              | LWeight a => if decide (a = val 1) then u64_to_hash 4
                             else if decide (a = val 2) then u64_to_hash 2 else ZERO
              | _ => ZERO
              end)
    (λ _, 100) (λ _, Some [7]) (λ _, None) [] [] [].
Definition bond_call : reg_call :=
  MkRegCall (val 2) (BOND_VALIDATOR_STAKE_SELECTOR ++ as_bytes (val 2) ++ be_bytes 32 50) demo_env 1.

#[local] Instance stake_hashes : Hashes := {| keccak256 := toy_hash; blake3_hash := toy_hash |}.

Lemma staked_stake a : stake_of staked_reg a = if decide (a = val 1) then 40 else if decide (a = val 2) then 20 else 0.
Proof.
  rw /stake_of. cbn [cells staked_reg]. repeat case_decide; [by rw hash_u256_roundtrip..|].
  rw hash_to_u256_unsigned. vm_compute. reflexivity.
Qed.
Lemma staked_ledger : ledger staked_reg.
Proof.
  split_and!.
  - intros a. rw staked_stake. cbn [bals staked_reg]. repeat case_decide; done.
  - vm_compute. discriminate.
  - exists [val 1; val 2]. split_and!.
    + apply (bool_decide_unpack _). vm_compute. reflexivity.
    + intros a Ha. rw staked_stake !decide_False; set_solver.
    + vm_compute. reflexivity.
  - intros _ vs v Hl Hv. assert (read_list staked_reg = Ok [val 1; val 2]) as E by (vm_compute; reflexivity).
    rw E in Hl. injection Hl as <-. apply elem_of_cons in Hv as [->|Hv%list_elem_of_singleton]; [|subst];
      vm_compute; reflexivity.
Qed.

(** Validator 2 bonds 50 more. *)
Lemma stake_ledger_witness :
  let s := (run_reg bond_call staked_reg).1 in ledger s ∧ bals s (val 2) + stake_of s (val 2) = 120.
Proof.
  intros s. destruct (stake_ledger staked_reg [(bond_call, staked_reg)] s) as [H1 H2].
  - exact staked_ledger.
  - exact (history_next staked_reg [] staked_reg bond_call s (history_start staked_reg) (step_run bond_call staked_reg)).
  - apply Forall_cons_2; [|apply Forall_nil_2]. apply (bool_decide_unpack _). vm_compute. reflexivity.
  - split; [exact H1|]. rw H2 staked_stake. vm_compute. reflexivity.
Defined.
