(* ===== verification/RegistryRefines.v ===== *)
(** * The registry over a state database

    The contract run over any [StateDb] that keeps its laws and does not fail
    behaves as it does over the plain maps of [Reg]: the same results, and
    states that still correspond.  [rep] is the correspondence, on the slots and
    accounts in use; [sim] relates the two runs of one program. *)

From S2P Require Import Prelude Primitives Fee Rlp Transaction TxValidation TxCodec BTree KvStore Overlay OverlayView OverlayProps OverlayJournal MetadataUndo Keccak RwSet PoaConfig Account Effects World RegistryKeys RegistryLabels Cells AlgorithmRegistry WorldState WorldProps WorldViews Abi AccountManager Registry Governance SystemContracts PlainRegistry RegistryWrites RegistryReads RegistryQuorum RegistryProps RegistryStake Block.

(** The primitives do not fail: the store below is sound. *)
Class Reliable (W : Type) `{SL : StateLaws W} : Prop := {
  get_account_reliable w v a : models w v → known a → ∃ x, (get_account a w).2 = Ok x;
  set_account_reliable w v a acc : models w v → known a → account_ok acc →
    storage_root acc = storage_root (account_of v a) → (set_account a acc w).2 = Ok tt;
  get_storage_reliable w v a k : models w v → known a → known_key k → ∃ x, (get_storage a k w).2 = Ok x;
  set_storage_reliable w v a k x : models w v → known a → known_key k → (set_storage a k x w).2 = Ok tt;
  store_get_reliable w v k : models w v → length k ≠ 32%nat → ∃ x, (store_get k w).2 = Ok x;
}.

#[global] Instance view_reliable : Reliable view.
Proof. split; intros; eauto. Qed.

(** A program that cannot fail, by its rule for failing or not. *)
Lemma wp_reliable {W E A} (m : M W E A) Q R w : wp m Q R w → (∃ x, (m w).2 = Ok x) → wp m Q (λ _ _, False) w.
Proof. rw /wp. destruct (m w) as [w' [a|e]]; [done|]. by intros _ [x ?]. Qed.

(** ** Beside the registry of algorithms *)

Section pair_laws.
Context {W R : Type} {DB : StateDb W} {SL : StateLaws W} {RL : Reliable W}.

Lemma wp_on_left {A} (m : M W StorageError A) Q S w (r : R) :
  wp m (λ a w', Q a (w', r)) (λ e w', S e (w', r)) w → wp (on_left m) Q S (w, r).
Proof. rw /wp /on_left /=. by destruct (m w) as [w' [a|e]]. Qed.

(** The laws of the pair; the right part stays [r]. *)
Definition pair_laws (r : R) : StateLaws (W * R).
Proof.
  refine {| known := known; known_key := known_key; models p v := models p.1 v ∧ p.2 = r |}.
  - intros [w r'] v a acc [Hm _]. by eapply models_ok.
  - intros [w r'] v a [Hm Hr0] Ha. cbn [snd] in Hr0. subst r'. apply wp_on_left. eapply wp_mono; [by apply get_account_law| |]; naive_solver.
  - intros [w r'] v a acc [Hm Hr0] Ha Hok Hr. cbn [snd] in Hr0. subst r'. apply wp_on_left. eapply wp_mono; [by apply set_account_law| |]; naive_solver.
  - intros [w r'] v a k [Hm Hr0] Ha Hk. cbn [snd] in Hr0. subst r'. apply wp_on_left. eapply wp_mono; [by apply get_storage_law| |]; naive_solver.
  - intros [w r'] v a k x [Hm Hr0] Ha Hk. cbn [snd] in Hr0. subst r'. apply wp_on_left. eapply wp_mono; [by apply set_storage_law| |]; naive_solver.
  - intros [w r'] v k [Hm Hr0] Hk. cbn [snd] in Hr0. subst r'. apply wp_on_left. eapply wp_mono; [by apply store_get_law| |]; naive_solver.
  - intros [w r'] v k x [Hm Hr0] Hk. cbn [snd] in Hr0. subst r'. apply wp_on_left. eapply wp_mono; [by apply store_put_law| |]; naive_solver.
  - intros [w r'] v k [Hm Hr0] Hk. cbn [snd] in Hr0. subst r'. apply wp_on_left. eapply wp_mono; [by apply store_delete_law| |]; naive_solver.
Defined.
Lemma on_left_result {A} (m : M W StorageError A) w (r : R) : (on_left m (w, r)).2 = (m w).2.
Proof. rw /on_left /=. by destruct (m w). Qed.
Lemma pair_reliable (r : R) : Reliable (SL := pair_laws r) (W * R).
Proof.
  split.
  - intros [w r'] v a [Hm _] Ha. cbn [get_account pair_db]. rw on_left_result. by eapply get_account_reliable.
  - intros [w r'] v a acc [Hm _] Ha Hok Hr. cbn [set_account pair_db]. rw on_left_result. by eapply set_account_reliable.
  - intros [w r'] v a k [Hm _] Ha Hk. cbn [get_storage pair_db]. rw on_left_result. by eapply get_storage_reliable.
  - intros [w r'] v a k x [Hm _] Ha Hk. cbn [set_storage pair_db]. rw on_left_result. by eapply set_storage_reliable.
  - intros [w r'] v k [Hm _] Hk. cbn [store_get pair_db]. rw on_left_result. by eapply store_get_reliable.
Qed.
End pair_laws.

(** ** The accessors, without failure *)

Section total.
Context {W : Type} {DB : StateDb W} {SL : StateLaws W} {RL : Reliable W}.
Implicit Types (w : W) (v : view).

Lemma get_or_default_total w v a : models w v → known a →
  wp (get_or_default a) (λ x w', models w' v ∧ x = account_of v a) (λ _ _, False) w.
Proof.
  intros Hw Ha. apply wp_bind. eapply wp_mono; [eapply wp_reliable; [by apply get_account_law|]| |done].
  - by eapply get_account_reliable.
  - by intros x w' [Hw' ->].
Qed.
Lemma get_balance_total w v a : models w v → known a →
  wp (get_balance a) (λ x w', models w' v ∧ x = balance_of v a) (λ _ _, False) w.
Proof.
  intros Hw Ha. apply wp_bind. eapply wp_mono; [by apply get_or_default_total| |done]. by intros x w' [Hw' ->].
Qed.
Lemma put_balance_total w v a b : models w v → known a → 0 <= b <= u256_max →
  wp (set_account a (with_balance (account_of v a) b))
    (λ _ w', models w' (set_acct v a (with_balance (account_of v a) b))) (λ _ _, False) w.
Proof.
  intros Hw Ha Hb. destruct (account_ok_of w v a Hw Ha) as [Hn _]. assert (account_ok (with_balance (account_of v a) b)) as Hok by done.
  eapply wp_reliable; [by apply set_account_law|]. exists tt. by eapply set_account_reliable.
Qed.
Lemma set_balance_total w v a b : models w v → known a → 0 <= b <= u256_max →
  wp (set_balance a b) (λ _ w', models w' (set_acct v a (with_balance (account_of v a) b))) (λ _ _, False) w.
Proof.
  intros Hw Ha Hb. apply wp_bind. eapply wp_mono; [by apply get_or_default_total| |done].
  intros x w' [Hw' ->]. by apply put_balance_total.
Qed.
(** A checked update of the balance: [f] computes the new one. *)
Lemma update_balance_total w v a (f : Z → option Z) e :
  models w v → known a → (∀ b, f (balance_of v a) = Some b → 0 <= b <= u256_max) →
  wp (let* account := get_or_default a in let* b := mlift (ok_or (f (balance account)) e) in
      set_account a (with_balance account b))
    (λ _ w', ∃ b, f (balance_of v a) = Some b ∧ models w' (set_acct v a (with_balance (account_of v a) b)))
    (λ e' w', e' = e ∧ f (balance_of v a) = None ∧ models w' v) w.
Proof.
  intros Hw Ha Hf. apply wp_bind. eapply wp_mono; [by apply get_or_default_total| |done].
  intros x w' [Hw' ->]. apply wp_bind, wp_lift. fold (balance_of v a). destruct (f (balance_of v a)) as [b|] eqn:Hb; [|done].
  cbn [ok_or]. eapply wp_mono; [apply put_balance_total; [done|done|by apply Hf]| |done]. eauto.
Qed.
End total.

(** ** Correspondence *)

Section rep.
Context {W0 : Type} {DB : StateDb W0} {SL : StateLaws W0} {RL : Reliable W0} {Hs : Hashes}.
Context {JB : Json (gmap string (bytes * bytes))}.
(** The slots and accounts in use; no two of the slots share a key. *)
Context (L : label → Prop) (D : Address → Prop).
Context (HL : ∀ l, L l → known_key (label_key l)).
Context (Hinj : ∀ l l', L l → L l' → label_key l = label_key l' → l = l').
Context (HD : ∀ a, D a → known a) (Hreg : known validator_registry_addr).
Abbreviation W := (W0 * AlgorithmRegistry)%type.

(** What [get_governance_fallback_key] reads. *)
Definition fallback_of (v : view) (a : Address) : result (option bytes) StorageError :=
  match meta v !! GENESIS_BINDINGS with
  | None => Ok None
  | Some encoded =>
      let? bindings := map_err Serialization (from_slice encoded) in
      Ok (snd <$> (bindings : gmap string (bytes * bytes)) !! hex_encode (as_bytes a))
  end.
Definition view_rep (v : view) (s : Reg) : Prop :=
  (∀ l, L l → WorldProps.slot v validator_registry_addr (label_key l) = cells s l) ∧
  (∀ a, D a → balance_of v a = bals s a) ∧
  (∀ a, meta v !! pubkey_key a = keys s a) ∧ (∀ a, fallback_of v a = Ok (fallbacks s a)).
Definition rep (p : W) (s : Reg) : Prop := ∃ v, models p.1 v ∧ p.2 = algs s ∧ view_rep v s.

(** Everything touched so far is in use. *)
Definition within (s : Reg) : Prop := (∀ l, l ∈ touched s → L l) ∧ (∀ a, a ∈ touched_accounts s → D a).
Definition grows (s s' : Reg) : Prop := touched s ⊆ touched s' ∧ touched_accounts s ⊆ touched_accounts s'.
#[local] Instance grows_preorder : PreOrder grows.
Proof. split; [done|]. intros s1 s2 s3 [H1 H2] [H3 H4]. split; by etrans. Qed.
Lemma within_grows s s' : grows s s' → within s' → within s.
Proof. intros [H1 H2] [H3 H4]. split; [intros l Hl; by apply H3, H1|intros a Ha; by apply H4, H2]. Qed.

(** The run over the database does what the run over the maps does, as long as
    the latter stays within the slots and accounts in use. *)
Definition sim {E A} (m : M W E A) (n : M Reg E A) : Prop := ∀ p s,
  grows s (n s).1 ∧ (rep p s → within (n s).1 → (m p).2 = (n s).2 ∧ rep (m p).1 (n s).1).

Lemma sim_pure {E A} (r : result A E) : sim (mlift r) (mlift r).
Proof. intros p s. done. Qed.
Lemma sim_ret {E A} (a : A) : sim (E := E) (mret a) (mret a).
Proof. intros p s. done. Qed.
Lemma sim_fail {E A} (e : E) : sim (A := A) (mfail e) (mfail e).
Proof. intros p s. done. Qed.
Lemma sim_bind {E A B} (m : M W E A) n (k : A → M W E B) k' :
  sim m n → (∀ x, sim (k x) (k' x)) → sim (mbind_ m k) (mbind_ n k').
Proof.
  intros Hm Hk p s. destruct (Hm p s) as [Hg Hrun]. rw /mbind_. destruct (n s) as [s1 [x|e]]; cbn [fst snd] in *.
  - destruct (Hk x (m p).1 s1) as [Hg' Hrun']. split; [by etrans|]. intros Hrep Hin.
    destruct (Hrun Hrep (within_grows _ _ Hg' Hin)) as [Hr Hrep1]. destruct (m p) as [p1 r]; cbn [fst snd] in *. rw Hr.
    by apply Hrun'.
  - split; [done|]. intros Hrep Hin. destruct (Hrun Hrep Hin) as [Hr Hrep1]. destruct (m p) as [p1 r]; cbn [fst snd] in *.
    by rw Hr.
Qed.
Lemma sim_st {A} (m : M W StorageError A) n : sim m n → sim (st m) (st n).
Proof.
  intros Hm p s. destruct (Hm p s) as [Hg Hrun]. rw /st /mmap_err. destruct (n s) as [s1 r]; cbn [fst snd] in *.
  split; [done|]. intros Hrep Hin. destruct (Hrun Hrep Hin) as [Hr Hrep1]. destruct (m p); cbn [fst snd] in *. by rw Hr.
Qed.
Lemma sim_for {E A} (f : A → M W E unit) g l : (∀ x, x ∈ l → sim (f x) (g x)) → sim (mfor f l) (mfor g l).
Proof.
  induction l as [|x l IH]; intros Hf; [apply sim_ret|]. cbn [mfor]. apply sim_bind; [apply Hf; by left|].
  intros _. apply IH. intros y Hy. apply Hf. by right.
Qed.
Lemma sim_if {E A} (c : bool) (m m' : M W E A) n n' : sim m n → sim m' n' → sim (if c then m else m') (if c then n else n').
Proof. by destruct c. Qed.

(** ** Primitives *)

(** A rule without failure gives the run. *)
Lemma wp_total {E A} (m : M W E A) Q p : wp m Q (λ _ _, False) p → ∃ x p', m p = (p', Ok x) ∧ Q x p'.
Proof. rw /wp. destruct (m p) as [p' [x|e]]; [eauto|done]. Qed.

Lemma slot_key_rep v s l x root :
  L l → view_rep v s → view_rep (set_slot v validator_registry_addr (label_key l) x root) (set_cell s l x).
Proof.
  intros Hl (Hc&Hb&Hk&Hf). split_and!; [|intros a Ha|done|done].
  - intros l' Hl'. rw /WorldProps.slot. cbn [slots set_slot cells set_cell]. destruct (decide (l = l')) as [<-|Hne].
    + by rw lookup_insert_eq.
    + rw lookup_insert_ne; [|by apply Hc]. intros [= E]. by apply Hne, Hinj.
  - rw -(Hb a Ha) /balance_of account_of_set_slot. case_decide; [by subst|done].
Qed.
Lemma balance_rep v s a b :
  view_rep v s → view_rep (set_acct v a (with_balance (account_of v a) b)) (set_bal s a b).
Proof.
  intros (Hc&Hb&Hk&Hf). split_and!; [done| |done|done]. intros a' Ha'. rw /balance_of account_of_set.
  cbn [bals set_bal]. case_decide; [done|by apply Hb].
Qed.

Lemma sim_cell_get l : sim (cell_get l) (cell_get l).
Proof.
  intros [w r] s. split; [split; cbn; set_solver|]. intros (v&Hm&Hr&Hv) [Hin _]. cbn [fst snd] in *.
  assert (L l) as Hl by (apply Hin; cbn; set_solver).
  destruct (wp_total (cell_get l) (λ x p, (models p.1 v ∧ p.2 = r) ∧ x = WorldProps.slot v validator_registry_addr (label_key l))
    (w, r)) as (x&p'&Hrun&(Hm'&Hr')&->).
  { pose proof (pair_reliable (R := AlgorithmRegistry) r). eapply wp_reliable.
    - eapply (get_storage_law (StateLaws := pair_laws r)); [by split|done|by apply HL].
    - eapply (get_storage_reliable (SL := pair_laws r)); [by split|done|by apply HL]. }
  rw Hrun. cbn. split; [by rw (proj1 Hv l Hl)|]. exists v. by rw Hr'.
Qed.
Lemma sim_cell_set l x : sim (cell_set l x) (cell_set l x).
Proof.
  intros [w r] s. split; [split; cbn; set_solver|]. intros (v&Hm&Hr&Hv) [Hin _]. cbn [fst snd] in *.
  assert (L l) as Hl by (apply Hin; cbn; set_solver).
  destruct (wp_total (cell_set l x) (λ _ p, ∃ root, models p.1 (set_slot v validator_registry_addr (label_key l) x root) ∧ p.2 = r)
    (w, r)) as (y&p'&Hrun&root&Hm'&Hr').
  { pose proof (pair_reliable (R := AlgorithmRegistry) r). eapply wp_reliable.
    - eapply (set_storage_law (StateLaws := pair_laws r)); [by split|done|by apply HL].
    - exists tt. eapply (set_storage_reliable (SL := pair_laws r)); [by split|done|by apply HL]. }
  rw Hrun. destruct y. cbn. split; [done|]. exists (set_slot v validator_registry_addr (label_key l) x root).
  split_and!; [done|by rw Hr'|by apply slot_key_rep].
Qed.

Lemma rep_balance p s a : rep p s → D a → 0 <= bals s a <= u256_max.
Proof.
  intros (v&Hm&_&_&Hb&_) Ha. rw -(Hb a Ha). destruct (account_ok_of p.1 v a Hm (HD a Ha)) as [_ H]. exact H.
Qed.
Lemma sim_bal_get a : sim (bal_get a) (bal_get a).
Proof.
  intros [w r] s. split; [split; cbn; set_solver|]. intros (v&Hm&Hr&Hv) [_ Hin]. cbn [fst snd] in *.
  assert (D a) as Ha by (apply Hin; cbn; set_solver).
  destruct (wp_total (bal_get a) (λ x p, (models p.1 v ∧ p.2 = r) ∧ x = balance_of v a) (w, r)) as (x&p'&Hrun&(Hm'&Hr')&->).
  { pose proof (pair_reliable (R := AlgorithmRegistry) r). apply (get_balance_total (SL := pair_laws r)); [done|by apply HD]. }
  rw Hrun. cbn. destruct Hv as (Hc&Hb&Hk). split; [by rw Hb|]. exists v. by rw Hr'.
Qed.
Lemma sim_bal_set a b : 0 <= b <= u256_max → sim (bal_set a b) (bal_set a b).
Proof.
  intros Hb [w r] s. split; [split; cbn; set_solver|]. intros (v&Hm&Hr&Hv) [_ Hin]. cbn [fst snd] in *.
  assert (D a) as Ha by (apply Hin; cbn; set_solver).
  destruct (wp_total (bal_set a b) (λ _ p, models p.1 (set_acct v a (with_balance (account_of v a) b)) ∧ p.2 = r) (w, r))
    as (x&p'&Hrun&(Hm'&Hr')).
  { pose proof (pair_reliable (R := AlgorithmRegistry) r).
    apply (set_balance_total (SL := pair_laws r)); [done|by apply HD|done]. }
  rw Hrun. destruct x. cbn. split; [done|]. eexists. split_and!; [done|by rw Hr'|by apply balance_rep].
Qed.

(** A checked update of a balance, on both sides. *)
Lemma sim_update a (f : Z → option Z) e :
  (∀ b c, 0 <= b <= u256_max → f b = Some c → 0 <= c <= u256_max) →
  sim (let* account := get_or_default a in let* b := mlift (ok_or (f (balance account)) e) in
       set_account a (with_balance account b))
    (λ s, match f (bals s a) with Some b => (set_bal s a b, Ok tt) | None => (touch_account s a, Err e) end).
Proof.
  intros Hf [w r] s. split; [by destruct (f (bals s a)); split; cbn; set_solver|].
  intros Hrep [_ Hin]. assert (D a) as Ha by (apply Hin; destruct (f (bals s a)); cbn; set_solver).
  pose proof (rep_balance _ _ a Hrep Ha) as Hrange. destruct Hrep as (v&Hm&Hr&Hv). cbn [fst snd] in *.
  assert (balance_of v a = bals s a) as Hbal by (destruct Hv as (_&Hb&_); by apply Hb).
  pose proof (pair_reliable (R := AlgorithmRegistry) r) as HR.
  pose proof (update_balance_total (W := W) (SL := pair_laws r) (w, r) v a f e) as Hw. rw Hbal in Hw.
  specialize (Hw (conj Hm eq_refl) (HD a Ha) (λ b, Hf _ b Hrange)). rw /wp in Hw.
  destruct (mbind_ _ _ (w, r)) as [p' [x|e']].
  - destruct Hw as (b&Hb&Hm'&Hr'). rw Hb. destruct x. cbn. split; [done|]. eexists.
    split_and!; [done|by rw Hr'|by apply balance_rep].
  - destruct Hw as (->&Hb&Hm'&Hr'). rw Hb. cbn. split; [done|]. exists v. by rw Hr'.
Qed.
Lemma sim_bal_add a n : 0 <= n → sim (bal_add a n) (bal_add a n).
Proof.
  intros Hn. apply (sim_update a (λ b, checked_add_u256 b n)). intros b c Hb [-> Hc]%checked_add_u256_some. lia.
Qed.
Lemma sim_bal_sub a n : 0 <= n → sim (bal_sub a n) (bal_sub a n).
Proof.
  intros Hn. apply (sim_update a (λ b, checked_sub_u256 b n)). intros b c Hb [-> Hc]%checked_sub_u256_some. lia.
Qed.

Lemma pubkey_key_length a : length (pubkey_key a) ≠ 32%nat.
Proof. rw /pubkey_key length_app length_as_bytes. done. Qed.
Lemma sim_store_get {A} k (f : option bytes → result A StorageError) (g : Reg → result A StorageError) :
  length k ≠ 32%nat → (∀ v s, view_rep v s → f (meta v !! k) = g s) →
  sim (let* x := store_get k in mlift (f x)) (λ s, (s, g s)).
Proof.
  intros Hk Hf [w r] s. split; [done|]. intros (v&Hm&Hr&Hv) _. cbn [fst snd] in *.
  destruct (wp_total (store_get k) (λ x p, (models p.1 v ∧ p.2 = r) ∧ x = meta v !! k) (w, r)) as (x&p'&Hrun&(Hm'&Hr')&->).
  { pose proof (pair_reliable (R := AlgorithmRegistry) r). eapply wp_reliable.
    - eapply (store_get_law (StateLaws := pair_laws r)); [by split|done].
    - eapply (store_get_reliable (SL := pair_laws r)); [by split|done]. }
  rw /mbind_ Hrun. cbn. split; [by apply Hf|]. exists v. by rw Hr'.
Qed.
Lemma sim_key_get a : sim (key_get a) (key_get a).
Proof.
  pose proof (sim_store_get (pubkey_key a) Ok (λ s, Ok (keys s a)) (pubkey_key_length a)) as H.
  intros p s. destruct (H (λ v s '(conj _ (conj _ (conj Hk _))), f_equal Ok (Hk a)) p s) as [Hg Hrun].
  split; [done|]. intros Hrep Hin. destruct (Hrun Hrep Hin) as [Hr Hp]. rw /mbind_ in Hr Hp.
  cbn [key_get state_gov gov_reg state_reg plain_reg plain_gov chain_get_pubkey] in *. unfold chain_get_pubkey.
  by destruct (store_get (pubkey_key a) p) as [p' [x|e]].
Qed.
Lemma sim_fallback a : sim (fallback_get a) (fallback_get a).
Proof.
  pose (f := λ encoded : option bytes, match encoded with
    | None => Ok None
    | Some encoded =>
        let? bindings := map_err Serialization (from_slice encoded) in
        Ok (snd <$> (bindings : gmap string (bytes * bytes)) !! hex_encode (as_bytes a))
    end : result (option bytes) StorageError).
  assert (sim (let* x := store_get GENESIS_BINDINGS in mlift (f x)) (λ s, (s, Ok (fallbacks s a)))) as H.
  { apply sim_store_get; [done|]. intros v s (_&_&_&Hf). apply Hf. }
  intros p s. destruct (H p s) as [Hg Hrun]. split; [done|]. intros Hrep Hin. destruct (Hrun Hrep Hin) as [Hr Hp].
  cbn [fallback_get state_gov plain_gov] in *. unfold get_governance_fallback_key. rw /mbind_ in Hr Hp *.
  destruct (store_get GENESIS_BINDINGS p) as [p' [[encoded|]|e]]; try done. cbn in Hr, Hp |- *.
  by destruct (from_slice encoded).
Qed.
Lemma sim_modify f : sim (alg_modify f) (alg_modify f).
Proof.
  intros [w r] s. split; [done|]. intros (v&Hm&Hr&Hv) _. split; [done|]. exists v. cbn in *. by rw Hr.
Qed.

(** ** The contract *)

Create HintDb sim.
Hint Resolve sim_ret sim_fail sim_pure sim_cell_get sim_cell_set sim_bal_get sim_key_get sim_fallback sim_modify : sim.
(** Follows the structure of the program on both sides. *)
Ltac sim_step :=
  cbv beta zeta;
  match goal with
  | |- sim (mbind_ _ _) (mbind_ _ _) => apply sim_bind; [|intros ?]
  | |- sim (st _) (st _) => apply sim_st
  | |- sim (mfor _ _) (mfor _ _) => apply sim_for; intros ? ?
  | |- sim (read _) (read _) => unfold read
  | |- sim (write _ _) (write _ _) => unfold write
  | |- sim (cell_get _) (cell_get _) => apply sim_cell_get
  | |- sim (cell_set _ _) (cell_set _ _) => apply sim_cell_set
  | |- sim (if ?c then _ else _) (if ?c then _ else _) => apply sim_if
  | |- sim (match ?c with _ => _ end) (match ?c with _ => _ end) => destruct c
  | |- sim _ _ => solve [auto with sim]
  end.
Ltac sim_auto := repeat sim_step.

Lemma sim_read_validators indices seen vs : sim (read_validators indices seen vs) (read_validators indices seen vs).
Proof. revert seen vs. induction indices as [|i indices IH]; intros seen vs; cbn [read_validators]; sim_auto. Qed.
Hint Resolve sim_read_validators : sim.
Lemma sim_get_validators : sim get_validators get_validators.
Proof. unfold get_validators. sim_auto. Qed.
Lemma sim_set_validators vs : sim (set_validators vs) (set_validators vs).
Proof. unfold set_validators. sim_auto. Qed.
Lemma sim_get_weight a : sim (get_validator_weight a) (get_validator_weight a).
Proof. unfold get_validator_weight. sim_auto. Qed.
Lemma sim_set_weight a w : sim (set_validator_weight a w) (set_validator_weight a w).
Proof. unfold set_validator_weight. sim_auto. Qed.
Lemma sim_staking : sim staking_enabled staking_enabled.
Proof. unfold staking_enabled. sim_auto. Qed.
Lemma sim_get_u256 l : sim (get_u256 l) (get_u256 l).
Proof. unfold get_u256. sim_auto. Qed.
Lemma sim_set_u256 l x : sim (set_u256 l x) (set_u256 l x).
Proof. unfold set_u256. sim_auto. Qed.
Lemma sim_get_max : sim get_max_validator_weight get_max_validator_weight.
Proof. unfold get_max_validator_weight. sim_auto. Qed.
Hint Resolve sim_get_validators sim_set_validators sim_get_weight sim_set_weight sim_staking sim_get_u256 sim_set_u256
  sim_get_max : sim.

Lemma sim_tally op t vs rest x y : sim (tally op t vs rest x y) (tally op t vs rest x y).
Proof. revert x y. induction rest as [|v rest IH]; intros x y; cbn [tally]; sim_auto. Qed.
Hint Resolve sim_tally : sim.
Lemma sim_record op t caller vs : sim (record_validator_vote op t caller vs) (record_validator_vote op t caller vs).
Proof. unfold record_validator_vote. sim_auto. Qed.
Lemma sim_ensure : sim ensure_staking_enabled ensure_staking_enabled.
Proof. unfold ensure_staking_enabled. sim_auto. Qed.
Lemma sim_derived x : sim (derived_weight x) (derived_weight x).
Proof. unfold derived_weight, get_stake_unit. sim_auto. Qed.
Lemma sim_validate t x : sim (validate_validator_stake_total t x) (validate_validator_stake_total t x).
Proof. unfold validate_validator_stake_total, get_validator_stake, get_total_staked. sim_auto. Qed.
Hint Resolve sim_record sim_ensure sim_derived sim_validate : sim.
Lemma sim_apply t x : sim (apply_validator_stake t x) (apply_validator_stake t x).
Proof.
  unfold apply_validator_stake, get_stake_unit, set_validator_stake_and_weight, set_validator_stake, set_total_staked.
  sim_auto.
Qed.
Hint Resolve sim_apply : sim.
Lemma sim_add caller t k : sim (add_validator caller t k) (add_validator caller t k).
Proof. unfold add_validator, admit_validator, get_validator_stake. sim_auto. Qed.
Lemma sim_remove caller t : sim (remove_validator caller t) (remove_validator caller t).
Proof. unfold remove_validator. sim_auto. Qed.
Lemma sim_set_weight_op caller t w : sim (set_validator_weight_op caller t w) (set_validator_weight_op caller t w).
Proof. unfold set_validator_weight_op. sim_auto. Qed.
Lemma sim_bond caller t x : 0 <= x → sim (bond_validator_stake caller t x) (bond_validator_stake caller t x).
Proof. intros Hx. unfold bond_validator_stake, get_validator_stake. sim_auto. by apply sim_bal_sub. Qed.
Lemma sim_unbond caller t x : 0 <= x → sim (unbond_validator_stake caller t x) (unbond_validator_stake caller t x).
Proof. intros Hx. unfold unbond_validator_stake, get_validator_stake. sim_auto. by apply sim_bal_add. Qed.

(** A bind whose second part relies on what the first returns. *)
Definition growing {E A} (n : M Reg E A) : Prop := ∀ s, grows s (n s).1.
Lemma sim_growing {E A} (m : M W E A) n : W → sim m n → growing n.
Proof. intros p Hm s. apply (Hm p s). Qed.
Lemma growing_bind {E A B} (n : M Reg E A) (k : A → M Reg E B) : growing n → (∀ x, growing (k x)) → growing (mbind_ n k).
Proof.
  intros Hn Hk s. specialize (Hn s). rw /mbind_. destruct (n s) as [s1 [x|e]]; [|done]. etrans; [done|]. apply Hk.
Qed.
Lemma sim_bind_post {E A B} (P : A → Prop) (m : M W E A) n (k : A → M W E B) k' :
  sim m n → (∀ p s x, rep p s → within (n s).1 → (n s).2 = Ok x → P x) → (W → ∀ x, growing (k' x)) →
  (∀ x, P x → sim (k x) (k' x)) → sim (mbind_ m k) (mbind_ n k').
Proof.
  intros Hm HP Hg Hk p s. split.
  { apply (growing_bind n k'); [by eapply sim_growing|]. by apply Hg. }
  intros Hrep Hin. destruct (Hm p s) as [_ Hrun]. specialize (HP p s). specialize (Hg p). rw /mbind_ in Hin *.
  destruct (n s) as [s1 [x|e]]; cbn [fst snd] in *.
  - assert (within s1) as Hin1 by (eapply within_grows; [apply Hg|exact Hin]).
    destruct (Hrun Hrep Hin1) as [Hr Hrep1]. destruct (m p) as [p1 r]; cbn [fst snd] in *. rw Hr.
    by apply (Hk x (HP x Hrep Hin1 eq_refl) p1 s1).
  - destruct (Hrun Hrep Hin) as [Hr Hrep1]. destruct (m p) as [p1 r]; cbn [fst snd] in *. by rw Hr.
Qed.

Lemma updated_balance_range current old new b :
  0 <= current <= u256_max → updated_balance current old new = Ok b → 0 <= b <= u256_max.
Proof.
  rw /updated_balance /checked_add_u256. intros Hc. destruct (Z.ltb_spec old new).
  - destruct (Z.ltb_spec current (new - old)); [done|]. intros [= <-]. lia.
  - destruct (Z.ltb_spec new old); [|intros [= <-]; lia].
    destruct (Z.leb_spec (current + (old - new)) u256_max); [|done]. intros [= <-]. lia.
Qed.
Lemma sim_set_stake_op caller t x : sim (set_validator_stake_op caller t x) (set_validator_stake_op caller t x).
Proof.
  unfold set_validator_stake_op. cbv beta zeta. do 2 (apply sim_bind; [sim_auto|intros ?]). apply sim_if; [sim_auto|].
  apply sim_bind; [sim_auto|intros w]. apply sim_if; [sim_auto|]. apply sim_bind; [sim_auto|intros passed].
  apply sim_if; [|sim_auto]. apply sim_bind; [sim_auto|intros old].
  apply (sim_bind_post (λ current, 0 <= current <= u256_max)).
  - sim_auto.
  - intros p s current Hrep [_ Hin] Hr. cbn in Hr. injection Hr as <-. eapply rep_balance; [done|].
    apply Hin. cbn. set_solver.
  - intros p current s. eapply (growing_bind (mlift _)); [by intros s'|]. intros b.
    apply growing_bind; [eapply sim_growing; [exact p|sim_auto]|]. intros _. apply growing_bind; [|by intros _ s'].
    destruct (negb _); intros s'; split; cbn; set_solver.
  - intros current Hc. destruct (updated_balance current _ x) as [b|e] eqn:Hb; [rw !lift_ok_bind|rw !lift_err_bind; sim_auto].
    sim_auto. apply sim_bal_set. by eapply updated_balance_range.
Qed.
Hint Resolve sim_add sim_remove sim_set_weight_op sim_set_stake_op : sim.

Lemma sim_alg_tally op algo vs rest x y : sim (alg_tally op algo vs rest x y) (alg_tally op algo vs rest x y).
Proof. revert x y. induction rest as [|v rest IH]; intros x y; cbn [alg_tally]; sim_auto. Qed.
Hint Resolve sim_alg_tally : sim.
Lemma sim_alg_record op algo u vs : sim (record_algorithm_vote op algo u vs) (record_algorithm_vote op algo u vs).
Proof. unfold record_algorithm_vote. sim_auto. Qed.
Lemma sim_publish algo h v : sim (publish_algorithm_proposal algo h v) (publish_algorithm_proposal algo h v).
Proof. unfold publish_algorithm_proposal, store_algorithm_status. sim_auto. Qed.
Hint Resolve sim_alg_record sim_publish : sim.
Lemma sim_propose caller algo h v rules :
  sim (propose_algorithm_activation_op caller algo h v rules) (propose_algorithm_activation_op caller algo h v rules).
Proof.
  unfold propose_algorithm_activation_op, guard_legacy, propose_staged, propose_published. sim_auto.
Qed.
Lemma sim_deprecate caller algo op :
  sim (deprecate_algorithm_with_op caller algo op) (deprecate_algorithm_with_op caller algo op).
Proof. unfold deprecate_algorithm_with_op, store_algorithm_status. sim_auto. Qed.
Lemma sim_submit caller params k rules alg : sim (submit caller params k rules alg) (submit caller params k rules alg).
Proof. unfold submit, proposer_key, previous_deadline. sim_auto. Qed.
Lemma sim_id_tally id caller alg vs x y : sim (id_tally id caller alg vs x y) (id_tally id caller alg vs x y).
Proof. revert x y. induction vs as [|v vs IH]; intros x y; cbn [id_tally]; sim_auto. Qed.
Hint Resolve sim_submit sim_id_tally : sim.
Lemma sim_vote caller algo id rules alg : sim (vote caller algo id rules alg) (vote caller algo id rules alg).
Proof. unfold vote. sim_auto. Qed.
Lemma sim_read_fields id fields : sim (read_fields id fields) (read_fields id fields).
Proof. induction fields as [|f fields IH]; cbn [read_fields]; sim_auto. Qed.
Hint Resolve sim_vote sim_read_fields : sim.
Lemma sim_execute_authenticated caller input cs number alg :
  sim (execute_authenticated caller input cs number alg) (execute_authenticated caller input cs number alg).
Proof. unfold execute_authenticated. sim_auto. Qed.
Hint Resolve sim_propose sim_deprecate sim_execute_authenticated : sim.

Lemma sim_read_key a indices k : sim (read_key_words a indices k) (read_key_words a indices k).
Proof. revert k. induction indices as [|i indices IH]; intros k; cbn [read_key_words]; sim_auto. Qed.
Hint Resolve sim_read_key : sim.
Lemma sim_get_prover a : sim (get_registered_prover a) (get_registered_prover a).
Proof. unfold get_registered_prover. sim_auto. Qed.
Lemma sim_set_prover a r : sim (set_registered_prover a r) (set_registered_prover a r).
Proof. unfold set_registered_prover. sim_auto. Qed.
Hint Resolve sim_get_prover sim_set_prover : sim.
Lemma sim_register_prover caller params env n :
  sim (register_prover caller params env n) (register_prover caller params env n).
Proof. unfold register_prover. sim_auto. Qed.
Hint Resolve sim_register_prover : sim.

(** A call with a byte string for input. *)
Lemma sim_stake_call {B} input (f : Address * Z → M W SystemContractError bool) g (k : bool → M W SystemContractError B) k' :
  bytes_ok input → (∀ p, 0 <= p.2 → sim (f p) (g p)) → (∀ b, sim (k b) (k' b)) →
  sim (let* p := mlift (decode_address_u256 input) in mbind_ (f p) k)
    (let* p := mlift (decode_address_u256 input) in mbind_ (g p) k').
Proof.
  intros Hok Hf Hk. destruct (decode_address_u256 input) as [[t x]|e] eqn:Hd; [rw !lift_ok_bind|rw !lift_err_bind; sim_auto].
  apply sim_bind; [|done]. apply Hf. by eapply amount_range.
Qed.
Lemma sim_registry_call caller input env n : bytes_ok input →
  sim (execute_registry_call caller input env n) (execute_registry_call caller input env n).
Proof.
  intros Hok. assert (bytes_ok (drop 4 input)) by (by apply Forall_drop).
  unfold execute_registry_call, execute_validator_registry_with_registry, deprecate_algorithm_op. cbv zeta.
  apply sim_bind; [sim_auto|]. intros selector. apply sim_if; [sim_auto|]. apply sim_bind; [|intros; sim_auto].
  apply sim_bind; [sim_auto|]. intros selector'. do 3 (apply sim_if; [sim_auto|]).
  apply sim_if; [sim_auto|].
  do 2 (apply sim_if; [apply sim_stake_call; [done| |intros; sim_auto]; intros q Hq; by (apply sim_bond || apply sim_unbond)|]).
  sim_auto.
Qed.
End rep.

(** ** Sequences of calls *)

Section runs.
Context {W : Type} {GD : GovDb W} {Hs : Hashes}.
(** The calls in order, each from the state the one before left. *)
Fixpoint run_calls (cs : list reg_call) (w : W) : W * list (result SystemContractOutcome SystemContractError) :=
  match cs with
  | [] => (w, [])
  | c :: cs =>
      let '(w1, r) := execute_registry_call (rc_caller c) (rc_input c) (rc_env c) (rc_block c) w in
      let '(w2, rs) := run_calls cs w1 in (w2, r :: rs)
  end.
End runs.

(** No two of the slots hash different strings to one key. *)
Definition no_collision {Hs : Hashes} (T : list label) : Prop :=
  ∀ l l', l ∈ T → l' ∈ T → label_key l = label_key l' → label_input l = label_input l'.

Section refines.
Context {W0 : Type} {DB : StateDb W0} {SL : StateLaws W0} {RL : Reliable W0} {Hs : Hashes}.
Context {JB : Json (gmap string (bytes * bytes))}.
Abbreviation W := (W0 * AlgorithmRegistry)%type.

Lemma sim_runs (L : label → Prop) (D : Address → Prop) cs :
  (∀ l, L l → known_key (label_key l)) → (∀ l l', L l → L l' → label_key l = label_key l' → l = l') →
  (∀ a, D a → known a) → known validator_registry_addr → Forall (λ c, bytes_ok (rc_input c)) cs → ∀ (p : W) (s : Reg),
  grows s (run_calls cs s).1 ∧
  (rep L D p s → within L D (run_calls cs s).1 →
   (run_calls cs p).2 = (run_calls cs s).2 ∧ rep L D (run_calls cs p).1 (run_calls cs s).1).
Proof.
  intros HL Hinj HD Hreg Hok. induction cs as [|c cs IH]; intros p s; [done|]. apply Forall_cons in Hok as [Hc Hok].
  cbn [run_calls]. pose proof (sim_registry_call L D HL Hinj HD Hreg (rc_caller c) (rc_input c) (rc_env c) (rc_block c) Hc p s) as [Hg Hrun].
  destruct (execute_registry_call (rc_caller c) (rc_input c) (rc_env c) (rc_block c) s) as [s1 r]. cbn [fst snd] in *.
  destruct (execute_registry_call (rc_caller c) (rc_input c) (rc_env c) (rc_block c) p) as [p1 r']. cbn [fst snd] in *.
  specialize (IH Hok p1 s1) as [Hg' Hrun']. destruct (run_calls cs s1) as [s2 rs], (run_calls cs p1) as [p2 rs']. cbn [fst snd] in *.
  split; [split; etrans; [apply Hg|apply Hg'|apply Hg|apply Hg']|]. intros Hrep Hin.
  destruct (Hrun Hrep (within_grows L D _ _ Hg' Hin)) as [-> Hrep1]. destruct (Hrun' Hrep1 Hin) as [-> Hrep2]. done.
Qed.

(** C11: The validator registry behaves over the world state as over plain maps.
    Take any state database that keeps its contract and whose primitives do not
    fail, and a state of it that corresponds to one of the plain maps: the slots
    that the calls touch there hold the same words, the balances they touch are
    equal, the stored keys and the registry of algorithms are the same. Then a
    sequence of calls with byte strings for input returns the same results on
    both sides, and the states correspond again. The keys of the touched slots
    must be among those the contract covers and not collide as hashes; that
    distinct slots hash distinct strings is proved, given that weights, stakes
    and fields in their names fit their widths. *)
Theorem registry_refines (cs : list reg_call) (p : W) (s : Reg) :
  let s' := (run_calls cs s).1 in
  let R := rep (λ l, l ∈ touched s') (λ a, a ∈ touched_accounts s') in
  Forall (λ c, bytes_ok (rc_input c)) cs → known validator_registry_addr →
  (∀ a, a ∈ touched_accounts s' → known a) → (∀ l, l ∈ touched s' → label_ok l ∧ known_key (label_key l)) →
  no_collision (touched s') → R p s →
  (run_calls cs p).2 = (run_calls cs s).2 ∧ R (run_calls cs p).1 s'.
Proof.
  intros s' R Hok Hreg Ha Hl Hcol Hrep. apply (sim_runs _ _ cs); [|by intros l l' H1 H2 H%Hcol; try apply label_input_inj; try apply Hl|done..].
  intros l H. by apply Hl.
Qed.
End refines.

(** ** Example *)

#[local] Instance ref_hashes : Hashes := {| keccak256 := toy_hash; blake3_hash := toy_hash |}.
#[local] Instance ref_json : Json (gmap string (bytes * bytes)) :=
  {| to_vec _ := Ok []; from_slice _ := Ok ∅ |}.

(** The three validators of [demo_reg], without keys, over maps and in a view. *)
Definition ref_reg : Reg := MkReg (cells demo_reg) (λ _, 0) (λ _, None) (λ _, None) [] [] [].
Definition ref_view : view :=
  MkView ∅ (list_to_map ((λ l, ((validator_registry_addr, label_key l), cells demo_reg l)) <$>
    [LCount; LSlot 0; LSlot 1; LSlot 2])) ∅.
Definition ref_calls : list reg_call := [remove_call 1 3; remove_call 2 3].
Definition ref_touched : list label := Eval vm_compute in touched (removed_by 2 (removed_by 1 ref_reg)).

Lemma ref_calls_state : (run_calls ref_calls ref_reg).1 = removed_by 2 (removed_by 1 ref_reg).
Proof.
  rw -(removed_by_eq 2) -(removed_by_eq 1) /ref_calls. cbn [run_calls]. unfold run_reg.
  destruct (execute_registry_call (rc_caller (remove_call 1 3)) _ _ _ ref_reg) as [s1 r1]. cbn [fst].
  by destruct (execute_registry_call (rc_caller (remove_call 2 3)) _ _ _ s1) as [s2 r2].
Qed.
Lemma ref_touched_eq : touched (run_calls ref_calls ref_reg).1 = ref_touched.
Proof. rw ref_calls_state. vm_compute. reflexivity. Qed.
Lemma ref_accounts_eq : touched_accounts (run_calls ref_calls ref_reg).1 = [].
Proof. rw ref_calls_state. vm_compute. reflexivity. Qed.

(** Their keys differ. *)
Definition ref_keys : list Z :=
  Eval vm_compute in (λ l, b256_unsigned (label_key l)) <$> remove_dups ref_touched.
Lemma ref_keys_eq : (λ l, b256_unsigned (label_key l)) <$> remove_dups ref_touched = ref_keys.
Proof. vm_compute. reflexivity. Qed.
Lemma ref_keys_nodup : NoDup ref_keys.
Proof. apply (bool_decide_unpack _). vm_compute. exact I. Qed.
Lemma NoDup_fmap_inj {A B} (f : A → B) l x y : NoDup (f <$> l) → x ∈ l → y ∈ l → f x = f y → x = y.
Proof.
  intros Hnd (i&Hi)%list_elem_of_lookup_1 (j&Hj)%list_elem_of_lookup_1 Heq.
  assert (i = j) as ->; [|congruence]. eapply (NoDup_lookup _ _ _ (f x) Hnd); by rw list_lookup_fmap ?Hi ?Hj /= ?Heq.
Qed.

Lemma registry_refines_witness :
  (run_calls ref_calls (ref_view, [])).2 = (run_calls ref_calls ref_reg).2.
Proof.
  destruct (registry_refines ref_calls (ref_view, []) ref_reg) as [H _].
  - repeat apply Forall_cons_2; [apply (bool_decide_unpack _); vm_compute; exact I..|apply Forall_nil_2].
  - exact I.
  - intros. exact I.
  - rw ref_touched_eq. apply Forall_forall. apply (Forall_impl (λ l, label_ok l)).
    + repeat apply Forall_cons_2; [..|apply Forall_nil_2]; exact I.
    + intros l Hl. split; [exact Hl|exact I].
  - rw ref_touched_eq.
    intros l l' Hl Hl' Heq. f_equal. apply (NoDup_fmap_inj (λ l, b256_unsigned (label_key l)) (remove_dups ref_touched));
      [rw ref_keys_eq; exact ref_keys_nodup|by apply elem_of_remove_dups..|by rw Heq].
  - rw ref_touched_eq ref_accounts_eq. exists ref_view. split; [|split; [reflexivity|split_and!]].
    + split; [reflexivity|]. apply map_Forall_empty.
    + apply (proj1 (Forall_forall (λ l, WorldProps.slot ref_view validator_registry_addr (label_key l) = cells ref_reg l)
        ref_touched)). apply (bool_decide_unpack _). vm_compute. exact I.
    + intros a []%elem_of_nil.
    + intros a. reflexivity.
    + intros a. reflexivity.
  - exact H.
Defined.
