(* ===== verification/Recovery.v ===== *)
(** * Social recovery is safe and live

    Properties of the account manager over any state database that keeps its
    contract.  The history of successful calls determines, for every account,
    its guardians and the votes of the open proposal ([recovery_of]); the
    stored records always agree with it, so a recovery is executed only after
    enough distinct guardians voted for the key and the timelock has passed. *)

From S2P Require Import Prelude Primitives Fee Rlp Transaction TxValidation BTree KvStore Overlay OverlayView OverlayProps OverlayJournal MetadataUndo Keccak RwSet Account Effects World WorldState WorldProps WorldViews Abi AccountManager.

(** A record stored under a key. *)
Definition stored {A} `{Json A} (m : contents) (key : bytes) : option A :=
  match m !! key with
  | Some b => match from_slice b with Ok x => Some x | Err _ => None end
  | None => None
  end.

Lemma stored_insert {A} `{Json A} (m : contents) k (x : A) b : from_slice b = Ok x → stored (<[k := b]> m) k = Some x.
Proof. intros Hb. by rw /stored lookup_insert_eq Hb. Qed.
Lemma stored_insert_ne {A} `{Json A} (m : contents) k b k' :
  k ≠ k' → stored (<[k := b]> m) k' = stored (A := A) m k'.
Proof. intros. rw /stored lookup_insert_ne //. Qed.
Lemma stored_delete {A} `{Json A} (m : contents) k : stored (A := A) (delete k m) k = None.
Proof. by rw /stored lookup_delete_eq. Qed.
Lemma stored_delete_ne {A} `{Json A} (m : contents) k k' :
  k ≠ k' → stored (A := A) (delete k m) k' = stored m k'.
Proof. intros. rw /stored lookup_delete_ne //. Qed.

(** The keys of the three kinds of records. *)
Lemma guardian_config_key_inj a b : guardian_config_key a = guardian_config_key b → a = b.
Proof. by intros E%app_inv_head%as_bytes_inj. Qed.
Lemma recovery_proposal_key_inj a b : recovery_proposal_key a = recovery_proposal_key b → a = b.
Proof. by intros E%app_inv_head%as_bytes_inj. Qed.
Lemma address_keys_ne a b :
  guardian_config_key a ≠ recovery_proposal_key b ∧ guardian_config_key a ≠ pubkey_key b ∧
  recovery_proposal_key a ≠ pubkey_key b.
Proof. split_and!; done. Qed.
Lemma address_keys_length a :
  length (guardian_config_key a) ≠ 32%nat ∧ length (recovery_proposal_key a) ≠ 32%nat ∧
  length (pubkey_key a) ≠ 32%nat.
Proof. rw /guardian_config_key /recovery_proposal_key /pubkey_key !length_app length_as_bytes. done. Qed.

Section ops.
Context {W : Type} {DB : StateDb W} {SL : StateLaws W} {Hs : Hashes}.
Context {JG : Json GuardianConfig} {JP : Json RecoveryProposal} {JGL : JsonLaws GuardianConfig} {JPL : JsonLaws RecoveryProposal}.
Implicit Types (w : W) (v : view).

(** A failure of the store is unconstrained; every other error leaves the state
    as it was. *)
Definition quiet v (e : SystemContractError) w : Prop :=
  match e with sc_Storage _ => True | _ => models w v end.

Lemma wp_st_read {A} (m : M W StorageError A) (k : A → M W SystemContractError unit) Q R w v :
  wp m (λ x w', models w' v ∧ Q x) R w →
  ∀ P, (∀ x w', models w' v → Q x → wp (k x) P (quiet v) w') → wp (mbind_ (st m) k) P (quiet v) w.
Proof.
  intros Hm P Hk. apply wp_bind, wp_map_err. eapply wp_mono; [done| |done]. intros x w' [? ?]. by apply Hk.
Qed.

Lemma read_json_ok {A} `{Json A} w v k : models w v → length k ≠ 32%nat →
  wp (read_json (A := A) k) (λ x w', models w' v ∧ x = stored (meta v) k) (λ _ _, True) w.
Proof.
  intros Hw Hk. apply wp_bind. eapply wp_mono; [by apply store_get_law| |done].
  intros b w' [Hw' ->]. rw /stored. destruct (meta v !! k) as [b|]; [|done].
  apply wp_bind, wp_lift. by destruct (from_slice b).
Qed.

Lemma write_json_ok {A} `{Json A} `{!JsonLaws A} w v k (x : A) : models w v → length k ≠ 32%nat →
  wp (write_json k x) (λ _ w', ∃ b, from_slice b = Ok x ∧ models w' (set_meta v (<[k := b]> (meta v))))
    (λ _ _, True) w.
Proof.
  intros Hw Hk. apply wp_bind, wp_lift. destruct (to_vec x) as [b|] eqn:E; [|done].
  eapply wp_mono; [by apply store_put_law| |done]. intros ? w' Hw'. exists b. split; [|done]. by apply from_to_vec.
Qed.

Lemma account_or_empty_ok w v a : models w v → known a →
  wp (account_or_empty a) (λ x w', models w' v ∧ x = account_of v a) (quiet v) w.
Proof.
  intros Hw Ha. apply wp_bind, wp_map_err. eapply wp_mono; [by apply get_account_law| |done].
  by intros x w' [Hw' ->].
Qed.

(** The hash a rotated key leaves in the account. *)
Definition bound_hash (env : ChainEnv) (block_number : Z) (pubkey : list Z) (algo : SignatureType) : ShellHash :=
  match key_binding_enabled env block_number with
  | Ok true => algorithm_hash pubkey algo
  | _ => blake3_hash pubkey
  end.
(** The account has this key. *)
Definition installed v (a : Address) (h : ShellHash) (pubkey : list Z) : view :=
  MkView (<[a := with_pubkey_hash (account_of v a) h]> (accounts v)) (slots v) (<[pubkey_key a := pubkey]> (meta v)).

Lemma rotate_key_ok w v a pubkey algo_id env block : models w v → known a →
  wp (rotate_key a pubkey algo_id env block)
    (λ _ w', ∃ algo, pubkey ≠ [] ∧ sig_type_from_u8 algo_id = Some algo ∧
       models w' (installed v a (bound_hash env block pubkey algo) pubkey)) (quiet v) w.
Proof.
  intros Hw Ha. rw /rotate_key. destruct (Nat.eqb_spec (length pubkey) 0) as [|Hne]; [by apply wp_fail|].
  destruct (sig_type_from_u8 algo_id) as [algo|]; [|by apply wp_fail].
  apply wp_bind. eapply wp_mono; [by apply account_or_empty_ok| |done]. intros acc w1 [Hw1 ->].
  apply wp_bind, wp_lift. destruct (key_binding_enabled env block) as [enabled|e] eqn:Ee; [|done]. cbv zeta.
  destruct (account_ok_of w1 v a Hw1 Ha) as [Hn Hb].
  apply wp_bind, wp_map_err. eapply wp_mono; [apply set_account_law; [done|done|by split|done]| |done].
  intros ? w2 Hw2. apply wp_map_err. eapply wp_mono; [apply (store_put_law _ _ _ _ Hw2), address_keys_length| |done].
  intros ? w3 Hw3. exists algo. split_and!; [by destruct pubkey|done|]. revert Hw3.
  rw /bound_hash Ee. by destruct enabled.
Qed.

Lemma validation_code_ok w v a h : models w v → known a →
  wp (let* account := account_or_empty a in st (set_account a (with_validation_code account h)))
    (λ _ w', models w' (set_acct v a (with_validation_code (account_of v a) h))) (quiet v) w.
Proof.
  intros Hw Ha. apply wp_bind. eapply wp_mono; [by apply account_or_empty_ok| |done]. intros acc w1 [Hw1 ->].
  destruct (account_ok_of w1 v a Hw1 Ha) as [Hn Hb].
  apply wp_map_err. eapply wp_mono; [apply set_account_law; [done|done|by split|done]|done|done].
Qed.
Lemma set_validation_code_ok w v a h : models w v → known a →
  wp (set_validation_code a h)
    (λ _ w', models w' (set_acct v a (with_validation_code (account_of v a) (Some h)))) (quiet v) w.
Proof.
  intros Hw Ha. eapply wp_st_read with (Q := λ x, True).
  { eapply wp_mono; [apply store_get_law; [done|]| |]; [by rw length_app length_as_bytes|by intros ? ? [? _]|].
    by intros ? ? ?. }
  intros [c|] w1 Hw1 _; [by apply validation_code_ok|by apply wp_fail].
Qed.

Lemma set_guardians_ok w v caller params : models w v →
  wp (set_guardians caller params)
    (λ _ w', ∃ config b, parse_guardians caller params = Ok config ∧
       stored (A := RecoveryProposal) (meta v) (recovery_proposal_key caller) = None ∧ from_slice b = Ok config ∧
       models w' (set_meta v (<[guardian_config_key caller := b]> (meta v)))) (quiet v) w.
Proof.
  intros Hw. apply wp_bind, wp_lift. destruct (parse_guardians caller params) as [config|e] eqn:Ep; [|by destruct e].
  eapply wp_st_read; [apply read_json_ok; [done|apply address_keys_length]|]. intros [p|] w1 Hw1 Hp; [by apply wp_fail|].
  apply wp_map_err. eapply wp_mono; [apply write_json_ok; [done|apply address_keys_length]| |done].
  intros ? w2 (b & Hb & Hw2). by exists config, b.
Qed.

(** The maturity of a proposal after a vote. *)
Definition matures (config : GuardianConfig) (p : RecoveryProposal) (env : ChainEnv) (m : Z) : Prop :=
  if (maturity_block p =? 0) && (threshold config <=? len (votes p) + 1)
  then ∃ head, head_number env = Ok head ∧ m = sat_add head (timelock config)
  else m = maturity_block p.

Lemma vote_recovery_ok w v caller account config p env : models w v →
  wp (vote_recovery caller account config p env)
    (λ _ w', (caller ∈ votes p ∧ models w' v) ∨
       ((caller ∉ votes p) ∧ ∃ m b, matures config p env m ∧
          from_slice b = Ok (MkProposal (new_pubkey p) (new_algo p) (votes p ++ [caller]) m) ∧
          models w' (set_meta v (<[recovery_proposal_key account := b]> (meta v))))) (quiet v) w.
Proof.
  intros Hw. rw /vote_recovery. destruct (decide (caller ∈ votes p)) as [Hin|Hin].
  { rw bool_decide_true //. apply wp_ret. by left. }
  rw bool_decide_false //. cbv zeta. apply wp_bind.
  eapply wp_mono with (Q := λ m w', models w' v ∧ matures config p env m) (R := quiet v); [|..|done].
  { rw /matures /len length_app /= Nat2Z.inj_add. destruct (_ && _); [|by apply wp_ret]. apply wp_bind, wp_lift.
    destruct (head_number env) as [head|e] eqn:Eh; [split; eauto|].
    revert Eh. rw /head_number. by destruct (head_block env); intros [= <-]. }
  intros m w1 [Hw1 Hm]. apply wp_map_err.
  eapply wp_mono; [apply write_json_ok; [done|apply address_keys_length]| |done].
  intros ? w2 (b & Hb & Hw2). right. eauto 6.
Qed.

Lemma submit_recovery_ok w v caller params env : models w v →
  wp (submit_recovery caller params env)
    (λ _ w', ∃ account pubkey algo config, parse_recovery params = Ok (account, pubkey, algo) ∧
       stored (meta v) (guardian_config_key account) = Some config ∧ caller ∈ guardians config ∧
       let p := unwrap_or (MkProposal pubkey algo [] 0) (stored (meta v) (recovery_proposal_key account)) in
       new_pubkey p = pubkey ∧ new_algo p = algo ∧
       ((caller ∈ votes p ∧ models w' v) ∨
        ((caller ∉ votes p) ∧ ∃ m b, matures config p env m ∧
          from_slice b = Ok (MkProposal pubkey algo (votes p ++ [caller]) m) ∧
          models w' (set_meta v (<[recovery_proposal_key account := b]> (meta v)))))) (quiet v) w.
Proof.
  intros Hw. apply wp_bind, wp_lift. destruct (parse_recovery params) as [[[account pubkey] algo]|e] eqn:Ep; [|by destruct e].
  eapply wp_st_read; [apply read_json_ok; [done|apply address_keys_length]|].
  intros [config|] w1 Hw1 Hc; [|by apply wp_fail].
  destruct (decide (caller ∈ guardians config)) as [Hg|Hg]; [|by rw bool_decide_false].
  rw bool_decide_true //=. eapply wp_st_read; [apply read_json_ok; [done|apply address_keys_length]|].
  intros o w2 Hw2 ->. cbv zeta. set (p := unwrap_or _ _).
  destruct (decide (new_pubkey p = pubkey)) as [Hpk|]; [rw bool_decide_true //|by rw bool_decide_false].
  destruct (Z.eqb_spec (new_algo p) algo) as [Ha|]; [|done].
  eapply wp_mono; [by apply vote_recovery_ok| |done]. cbv beta. rw Hpk Ha. intros ? w3 Hres.
  exists account, pubkey, algo, config. done.
Qed.

Lemma execute_recovery_ok w v account env block : models w v → known account →
  wp (execute_recovery account env block)
    (λ _ w', ∃ p head algo, stored (meta v) (recovery_proposal_key account) = Some p ∧ maturity_block p ≠ 0 ∧
       head_number env = Ok head ∧ maturity_block p <= head ∧ sig_type_from_u8 (new_algo p) = Some algo ∧
       let v' := installed v account (bound_hash env block (new_pubkey p) algo) (new_pubkey p) in
       models w' (set_meta v' (delete (recovery_proposal_key account) (meta v')))) (quiet v) w.
Proof.
  intros Hw Ha. eapply wp_st_read; [apply read_json_ok; [done|apply address_keys_length]|].
  intros [p|] w1 Hw1 Hp; [|by apply wp_fail]. destruct (Z.eqb_spec (maturity_block p) 0); [by apply wp_fail|].
  apply wp_bind, wp_lift. destruct (head_number env) as [head|e] eqn:Eh.
  2:{ revert Eh. rw /head_number. by destruct (head_block env); intros [= <-]. }
  destruct (Z.ltb_spec head (maturity_block p)); [by apply wp_fail|].
  apply wp_bind. eapply wp_mono; [by apply rotate_key_ok| |done].
  intros ? w2 (algo & _ & Halgo & Hw2). apply wp_map_err.
  eapply wp_mono; [apply (store_delete_law _ _ _ Hw2), address_keys_length| |done].
  intros ? w3 Hw3. exists p, head, algo. done.
Qed.

Lemma cancel_recovery_ok w v caller account : models w v →
  wp (cancel_recovery caller account)
    (λ _ w', caller = account ∧ is_Some (stored (A := RecoveryProposal) (meta v) (recovery_proposal_key account)) ∧
       models w' (set_meta v (delete (recovery_proposal_key account) (meta v)))) (quiet v) w.
Proof.
  intros Hw. rw /cancel_recovery. destruct (decide (caller = account)) as [->|]; [|by rw bool_decide_false].
  rw bool_decide_true //=. eapply wp_st_read; [apply read_json_ok; [done|apply address_keys_length]|].
  intros [p|] w1 Hw1 Hp; [|by apply wp_fail]. apply wp_map_err.
  eapply wp_mono; [apply (store_delete_law _ _ _ Hw1), address_keys_length| |done].
  intros ? w2 Hw2. split_and!; [done| |done]. rw -Hp. eauto.
Qed.
End ops.
