(* ===== verification/AbiProps.v ===== *)
(** * Calldata round trips

    What the encoders write, the decoders of the dispatchers read back; the
    function selectors are pairwise different. *)

From S2P Require Import Prelude Primitives Fee Rlp Transaction TxValidation BTree KvStore Overlay OverlayView OverlayProps OverlayJournal MetadataUndo Keccak RwSet TxCodec Account Effects World Abi AccountManager.

(** ** Words *)

Lemma take_word (w rest : list Z) : length w = 32%nat → take 32 (w ++ rest) = w.
Proof. intros. by apply take_app_length'. Qed.
Lemma drop_word (w rest : list Z) : length w = 32%nat → drop 32 (w ++ rest) = rest.
Proof. intros. by apply drop_app_length'. Qed.
Lemma drop_two_words (w1 w2 rest : list Z) :
  length w1 = 32%nat → length w2 = 32%nat → drop 64 (w1 ++ w2 ++ rest) = rest.
Proof. intros. rw app_assoc. apply drop_app_length'. rw length_app. lia. Qed.

Lemma any_nonzero_zeros n : any_nonzero (replicate n 0) = false.
Proof. induction n; [done|]. done. Qed.
Lemma take_zeros n (l : list Z) : take n (replicate n 0 ++ l) = replicate n 0.
Proof. apply take_app_length'. by rw length_replicate. Qed.
Lemma drop_zeros n (l : list Z) : drop n (replicate n 0 ++ l) = l.
Proof. apply drop_app_length'. by rw length_replicate. Qed.

Lemma length_u64_word n : length (encode_u64_word n) = 32%nat.
Proof. by rw length_app length_replicate length_be_bytes. Qed.
Lemma length_usize_word n : length (encode_usize_word n) = 32%nat.
Proof. apply length_u64_word. Qed.
Lemma length_u8_word n : length (encode_u8_word n) = 32%nat.
Proof. by rw length_app length_replicate. Qed.
#[export] Hint Rewrite length_u64_word length_usize_word length_u8_word @length_replicate : bytes.
Create HintDb abi.
#[export] Hint Resolve length_as_bytes length_u64_word length_usize_word length_u8_word : abi.

Lemma u64_roundtrip n : in_u64 n → from_be_bytes (take 8 (drop 24 (encode_u64_word n))) = n.
Proof.
  intros Hn. rw drop_zeros take_ge; [by rw length_be_bytes|]. rw from_be_bytes_be_bytes Z.mod_small //.
  unfold_int. change (256 ^ Z.of_nat 8) with 18446744073709551616. lia.
Qed.
Lemma decode_u64_word n : in_u64 n → decode_u64 (encode_u64_word n) = Ok n.
Proof.
  intros Hn. rw /decode_u64 /len length_u64_word u64_roundtrip //.
Qed.
Lemma decode_usize_word n : in_u64 n → decode_word_usize (encode_usize_word n) = Ok n.
Proof.
  intros Hn. rw /decode_word_usize /len length_usize_word u64_roundtrip //.
Qed.
Lemma decode_u8_word n : decode_u8 (encode_u8_word n) = Ok n.
Proof.
  rw /decode_u8 /len length_u8_word /encode_u8_word take_zeros any_nonzero_zeros. done.
Qed.
Lemma decode_address_word a rest : sc_decode_address (as_bytes a ++ rest) = Ok a.
Proof.
  rw /sc_decode_address /decode_address /len length_app length_as_bytes take_word; [apply length_as_bytes|].
  rw (proj2 (Z.ltb_ge _ _)); [lia|]. simpl. f_equal. apply b256_from_as_bytes.
Qed.
Lemma decode_signature_word t : decode_signature_type (encode_u8_word (sig_type_as_u8 t)) = Ok t.
Proof. rw /decode_signature_type decode_u8_word /= sig_type_roundtrip. done. Qed.

(** ** Dynamic data *)

Lemma get_range_middle (l1 l2 l3 : list Z) a b :
  a = len l1 → b = a + len l2 → get_range (l1 ++ l2 ++ l3) a b = Some l2.
Proof.
  intros -> ->. rw /get_range /len !length_app.
  rw !(proj2 (Z.leb_le _ _)); [lia..|]. simpl. f_equal.
  replace (Z.to_nat (Z.of_nat (length l1))) with (length l1) by lia. rw drop_app_length.
  replace (Z.to_nat (Z.of_nat (length l1) + Z.of_nat (length l2) - Z.of_nat (length l1))) with (length l2) by lia.
  apply take_app_length.
Qed.

Lemma resize_grow n l : len l <= n → resize n l = l ++ replicate (Z.to_nat n - length l) 0.
Proof. intros Hn. rw /resize take_ge //. rw /len in Hn. lia. Qed.

Lemma dynamic_offset_ok offset head n :
  head <= offset → offset mod 32 = 0 → 0 <= offset → offset + 32 <= n → n <= u64_max →
  validate_dynamic_offset offset head n = Ok tt.
Proof.
  intros. rw /validate_dynamic_offset (proj2 (Z.ltb_ge _ _)) // (proj2 (Z.eqb_eq _ _)) //=.
  rw /checked_add (proj2 (Z.leb_le _ _)); [lia|]. rw (proj2 (Z.ltb_ge _ _)) //.
Qed.

Definition key_ok (pubkey : list Z) : Prop := 1 <= len pubkey <= MAX_ACCOUNT_PUBLIC_KEY_BYTES.

Lemma key_size_ok pubkey : key_ok pubkey → validate_public_key_size (len pubkey) = Ok tt.
Proof.
  intros [Hlo Hhi]. rw /validate_public_key_size (proj2 (Z.eqb_neq _ _)); [lia|].
  rw (proj2 (Z.ltb_ge _ _)) //.
Qed.

(** Calldata with room for the padded key. *)
Lemma padded_room pubkey : key_ok pubkey →
  len pubkey <= (if (length pubkey =? 0)%nat then 0 else padded_len pubkey) <= len pubkey + 31.
Proof.
  intros [Hlo Hhi]. rw /len in Hlo Hhi |- *. rw (proj2 (Nat.eqb_neq _ _)); [lia|].
  rw /padded_len /div_ceil /len /MAX_ACCOUNT_PUBLIC_KEY_BYTES in Hhi |- *. unfold sat_mul, u64_max.
  destruct (Z.eqb_spec (Z.of_nat (length pubkey) mod 32) 0); Z.to_euclidean_division_equations; lia.
Qed.

(** ** Selectors *)

Definition all_selectors : list (list Z) :=
  [REGISTER_PROVER_SELECTOR; ADD_VALIDATOR_SELECTOR; REMOVE_VALIDATOR_SELECTOR; SET_VALIDATOR_WEIGHT_SELECTOR;
   SET_VALIDATOR_STAKE_SELECTOR; BOND_VALIDATOR_STAKE_SELECTOR; UNBOND_VALIDATOR_STAKE_SELECTOR;
   PROPOSE_ALGORITHM_ACTIVATION_SELECTOR; DEPRECATE_ALGORITHM_SELECTOR; GET_VALIDATORS_SELECTOR;
   IS_VALIDATOR_SELECTOR; ROTATE_KEY_SELECTOR; SET_VALIDATION_CODE_SELECTOR; CLEAR_VALIDATION_CODE_SELECTOR;
   SET_GUARDIANS_SELECTOR; SUBMIT_RECOVERY_SELECTOR; EXECUTE_RECOVERY_SELECTOR; CANCEL_RECOVERY_SELECTOR;
   SUBMIT_ALGORITHM_PROPOSAL_SELECTOR; VOTE_ALGORITHM_PROPOSAL_SELECTOR; GET_ALGORITHM_PROPOSAL_SELECTOR].

(** Distinct, and of four bytes each; checked by evaluating the hash. *)
Lemma selectors_good : Forall (λ s : list Z, length s = 4%nat) all_selectors ∧ NoDup all_selectors.
Proof. refine (bool_decide_unpack _ _). vm_compute. exact I. Qed.

Lemma selector_length s : s ∈ all_selectors → length s = 4%nat.
Proof. destruct selectors_good as [H _]. rw Forall_forall in H. apply H. Qed.
Lemma selectors_ne i j s t : all_selectors !! i = Some s → all_selectors !! j = Some t → i ≠ j → s ≠ t.
Proof.
  destruct selectors_good as [_ H]. intros Hi Hj Hne ->. by apply Hne, (NoDup_lookup _ i j t H).
Qed.

(** The dispatcher's view of calldata: its selector and the rest. *)
Lemma selector_of s rest : s ∈ all_selectors → sc_decode_selector (s ++ rest) = Ok s ∧ drop 4 (s ++ rest) = rest.
Proof.
  intros Hs%selector_length. rw /sc_decode_selector /len length_app Hs. split; [|by apply drop_app_length'].
  rw (proj2 (Z.ltb_ge _ _)); [lia|]. by rw take_app_length'.
Qed.

(** Membership of a selector in the table, by its place: comparing two selectors
    would evaluate the hash. *)
Lemma in_selectors i s : all_selectors !! i = Some s → s ∈ all_selectors.
Proof. apply list_elem_of_lookup_2. Qed.

(** ** Encoders against decoders *)

(** Bytes after a head of words [w1 w2 ..], at an offset that the head gives. *)
Lemma key_bounds (pubkey pad : list Z) : key_ok pubkey → (length pad ≤ 31)%nat →
  len pubkey + len pad + 200 <= u64_max ∧ in_u64 (len pubkey).
Proof. intros [? Hhi] Hp. rw /len /MAX_ACCOUNT_PUBLIC_KEY_BYTES in Hhi |- *. unfold_int. lia. Qed.

Lemma rotate_params pubkey algo (pad : list Z) : key_ok pubkey → (length pad ≤ 31)%nat →
  decode_rotate_key_params
    (encode_usize_word 64 ++ encode_u8_word algo ++ encode_usize_word (len pubkey) ++ pubkey ++ pad) =
  Ok (pubkey, algo).
Proof.
  intros Hk Hp. destruct (key_bounds pubkey pad Hk Hp) as [Hb Hu]. rw /decode_rotate_key_params.
  set (input := encode_usize_word 64 ++ _).
  assert (Hlen : len input = 96 + len pubkey + len pad).
  { rw /input /len. autorewrite with bytes. lia. }
  assert (0 <= len pubkey) by (rw /len; lia). assert (0 <= len pad) by (rw /len; lia).
  rw (proj2 (Z.ltb_ge _ _)); [lia|]. rw {1}/input take_word; [auto with abi|].
  rw decode_usize_word; [done|]. cbn [result_bind]. rw {1}/input drop_word; [auto with abi|]. rw take_word; [auto with abi|].
  rw decode_u8_word. cbn [result_bind]. rw dynamic_offset_ok; [lia|done|lia..|]. cbn [result_bind].
  assert (Hw : get_range input 64 (sat_add 64 32) = Some (encode_usize_word (len pubkey))).
  { rw /input app_assoc. apply get_range_middle; rw /len; autorewrite with bytes; done. }
  rw Hw. cbn [ok_or result_bind]. rw decode_usize_word //. cbn [result_bind]. rw key_size_ok //. cbn [result_bind].
  change (sat_add 64 32) with 96. rw /checked_add (proj2 (Z.leb_le _ _)); [lia|]. cbn [ok_or result_bind].
  rw (proj2 (Z.ltb_ge _ _)); [lia|].
  assert (Hd : get_range input 96 (96 + len pubkey) = Some pubkey).
  { rw /input 2!app_assoc. apply get_range_middle; [rw /len; autorewrite with bytes; done|done]. }
  by rw Hd.
Qed.

Lemma padded_pad pubkey : key_ok pubkey →
  ∃ pad, (length pad ≤ 31)%nat ∧ ∀ head, len head <= 200 →
    resize (sat_add (len head) (if (length pubkey =? 0)%nat then 0 else padded_len pubkey)) (head ++ pubkey) =
    head ++ pubkey ++ pad.
Proof.
  intros Hk. pose proof (padded_room pubkey Hk) as Hr. destruct (Hk) as [Hlo Hhi].
  set (n := if (length pubkey =? 0)%nat then 0 else padded_len pubkey) in *. exists (replicate (Z.to_nat (n - len pubkey)) 0).
  split; [rw length_replicate; lia|]. intros head Hh. rw /MAX_ACCOUNT_PUBLIC_KEY_BYTES in Hhi.
  assert (sat_add (len head) n = len head + n) as -> by (unfold sat_add, u64_max; lia).
  rw resize_grow; [rw /len length_app in Hr |- *; lia|]. rw -app_assoc. do 2 f_equal. f_equal.
  rw /len length_app in Hr |- *. lia.
Qed.

(** [input] has this selector, and the parameters after it decode to [x]. *)
Definition decodes_to {A} (input selector : list Z) (decode : list Z → sc_result A) (x : A) : Prop :=
  sc_decode_selector input = Ok selector ∧ decode (drop 4 input) = Ok x.

Lemma decodes_to_app {A} s rest (decode : list Z → sc_result A) x :
  s ∈ all_selectors → decode rest = Ok x → decodes_to (s ++ rest) s decode x.
Proof. intros Hs Hd. destruct (selector_of s rest Hs) as [H1 H2]. split; [done|]. by rw H2. Qed.

Lemma rotate_calldata pubkey algo : key_ok pubkey →
  decodes_to (encode_rotate_key_calldata pubkey algo) ROTATE_KEY_SELECTOR decode_rotate_key_params (pubkey, algo) ∧
  decodes_to (encode_register_prover_calldata pubkey algo) REGISTER_PROVER_SELECTOR decode_rotate_key_params
    (pubkey, algo).
Proof.
  intros Hk. destruct (padded_pad pubkey Hk) as (pad & Hpad & Hres).
  assert (Hs : ROTATE_KEY_SELECTOR ∈ all_selectors) by by apply (in_selectors 11).
  set (body := encode_usize_word 64 ++ encode_u8_word algo ++ encode_usize_word (len pubkey) ++ pubkey ++ pad).
  assert (He : encode_rotate_key_calldata pubkey algo = ROTATE_KEY_SELECTOR ++ body).
  { rw /encode_rotate_key_calldata. cbv zeta. rw /body.
    set (head := ROTATE_KEY_SELECTOR ++ encode_usize_word 64 ++ encode_u8_word algo ++ encode_usize_word (len pubkey)).
    assert (Hl : len head = 100) by (rw /head /len; autorewrite with bytes; by rw (selector_length _ Hs)).
    specialize (Hres head ltac:(lia)). rw Hl in Hres. change (sat_add 4 96) with 100.
    rw /head -!app_assoc in Hres. done. }
  pose proof (rotate_params pubkey algo pad Hk Hpad) as Hd. split.
  - rw He. by apply decodes_to_app.
  - rw /encode_register_prover_calldata He (proj2 (selector_of _ body Hs)). apply decodes_to_app; [by apply (in_selectors 0)|done].
Qed.

Lemma recovery_params account pubkey algo (pad : list Z) t :
  key_ok pubkey → sig_type_from_u8 algo = Some t → (length pad ≤ 31)%nat →
  parse_recovery (as_bytes account ++ encode_usize_word 96 ++ encode_u8_word algo ++
    encode_usize_word (len pubkey) ++ pubkey ++ pad) = Ok (account, pubkey, algo).
Proof.
  intros Hk Ht Hp. destruct (key_bounds pubkey pad Hk Hp) as [Hb Hu]. rw /parse_recovery.
  set (input := as_bytes account ++ _).
  assert (Hlen : len input = 128 + len pubkey + len pad).
  { rw /input /len. autorewrite with bytes. lia. }
  assert (0 <= len pubkey) by (rw /len; lia). assert (0 <= len pad) by (rw /len; lia).
  rw (proj2 (Z.ltb_ge _ _)); [lia|]. rw {1}/input take_word; [auto with abi|].
  rw -(app_nil_r (as_bytes account)) decode_address_word. cbn [result_bind].
  rw {1}/input drop_word; [auto with abi|]. rw take_word; [auto with abi|]. rw decode_usize_word; [done|].
  cbn [result_bind]. rw {1}/input drop_two_words; [auto with abi..|]. rw take_word; [auto with abi|]. rw decode_u8_word.
  cbn [result_bind]. rw Ht. cbn [ok_or result_bind]. rw dynamic_offset_ok; [lia|done|lia..|]. cbn [result_bind].
  assert (Hw : get_range input 96 (sat_add 96 32) = Some (encode_usize_word (len pubkey))).
  { rw /input 2!app_assoc. apply get_range_middle; rw /len; autorewrite with bytes; done. }
  rw Hw. cbn [ok_or result_bind]. rw decode_usize_word //. cbn [result_bind].
  change (sat_add 96 32) with 128. rw /checked_add (proj2 (Z.leb_le _ _)); [lia|]. cbn [ok_or result_bind].
  rw (proj2 (Z.ltb_ge _ _)); [lia|]. destruct Hk as [Hlo Hhi]. rw (proj2 (Z.eqb_neq _ _)); [lia|]. rw key_size_ok //.
  cbn [result_bind]. assert (Hd : get_range input 128 (128 + len pubkey) = Some pubkey).
  { rw /input 3!app_assoc. apply get_range_middle; [rw /len; autorewrite with bytes; done|done]. }
  by rw Hd.
Qed.

Lemma recovery_calldata account pubkey algo t : key_ok pubkey → sig_type_from_u8 algo = Some t →
  decodes_to (encode_submit_recovery_calldata account pubkey algo) SUBMIT_RECOVERY_SELECTOR parse_recovery
    (account, pubkey, algo).
Proof.
  intros Hk Ht. destruct (padded_pad pubkey Hk) as (pad & Hpad & Hres).
  assert (Hs : SUBMIT_RECOVERY_SELECTOR ∈ all_selectors) by by apply (in_selectors 15).
  assert (He : encode_submit_recovery_calldata account pubkey algo = SUBMIT_RECOVERY_SELECTOR ++ as_bytes account ++
    encode_usize_word 96 ++ encode_u8_word algo ++ encode_usize_word (len pubkey) ++ pubkey ++ pad).
  { rw /encode_submit_recovery_calldata. cbv zeta.
    set (head := SUBMIT_RECOVERY_SELECTOR ++ as_bytes account ++ encode_usize_word 96 ++ encode_u8_word algo ++
      encode_usize_word (len pubkey)).
    assert (Hl : len head = 132) by (rw /head /len; autorewrite with bytes; by rw (selector_length _ Hs)).
    specialize (Hres head ltac:(lia)). rw Hl in Hres. change (sat_add (sat_add 4 96) 32) with 132.
    rw /head -!app_assoc in Hres. done. }
  rw He. apply decodes_to_app; [done|]. by eapply recovery_params.
Qed.

Lemma length_addresses (l : list Address) : length (l ≫= as_bytes) = (32 * length l)%nat.
Proof. induction l as [|x l IHl]; [done|]. rw bind_cons length_app length_as_bytes IHl length_cons. lia. Qed.

(** The loop over the guardians that are left. *)
Lemma read_guardians_words caller (pre : list Z) gs read :
  len pre + 32 * (len read + len gs) <= u64_max → NoDup (read ++ gs) → (caller ∉ gs) →
  read_guardians caller (pre ++ (read ≫= as_bytes) ++ (gs ≫= as_bytes)) (len pre)
    (seq (length read) (length gs)) read = Ok (read ++ gs).
Proof.
  revert read. induction gs as [|g gs IH]; intros read Hb Hnd Hself; [by rw app_nil_r|].
  assert (Hg1 : [g] ≫= as_bytes = as_bytes g) by (rw bind_cons; apply app_nil_r).
  specialize (IH (read ++ [g])). rw bind_app Hg1 -!app_assoc in IH.
  rw bind_cons. cbn [seq length read_guardians]. cbv zeta.
  assert (Hstart : sat_add (len pre) (sat_mul (Z.of_nat (length read)) 32) = len (pre ++ (read ≫= as_bytes))).
  { rw /len length_cons in Hb. rw /len length_app length_addresses. unfold sat_add, sat_mul, u64_max in *. lia. }
  rw Hstart app_assoc (get_range_middle _ (as_bytes g)) //.
  { rw /len length_cons in Hb. rw /len length_app length_addresses length_as_bytes.
    unfold sat_add, u64_max in *. lia. }
  cbn [ok_or result_bind]. rw -{1}(app_nil_r (as_bytes g)) decode_address_word. cbn [result_bind].
  apply not_elem_of_cons in Hself as [Hg Hself]. rw bool_decide_false; [congruence|].
  rw bool_decide_false; [by apply NoDup_app in Hnd as (_ & Hnd & _); intros Hin; apply (Hnd g Hin); left|].
  rw -app_assoc. rw length_app Nat.add_1_r in IH. apply IH; [|done..].
  rw /len length_app length_cons in Hb |- *. simpl. lia.
Qed.

Lemma guardians_params caller gs thr tl :
  1 <= len gs <= MAX_GUARDIANS → 1 <= thr <= len gs → MIN_RECOVERY_TIMELOCK <= tl <= u64_max →
  NoDup gs → (caller ∉ gs) →
  parse_guardians caller (encode_usize_word 96 ++ encode_u8_word thr ++ encode_u64_word tl ++
    encode_usize_word (len gs) ++ (gs ≫= as_bytes)) = Ok (MkGuardianConfig gs thr tl).
Proof.
  intros Hn Ht Htl Hnd Hself. rw /MAX_GUARDIANS in Hn. rw /MIN_RECOVERY_TIMELOCK in Htl. rw /parse_guardians.
  set (input := encode_usize_word 96 ++ _).
  assert (Hlen : len input = 128 + 32 * len gs).
  { rw /input /len. autorewrite with bytes. rw length_addresses. lia. }
  rw (proj2 (Z.ltb_ge _ _)); [lia|]. rw {1}/input take_word; [auto with abi|]. rw decode_usize_word; [done|].
  cbn [result_bind]. rw {1}/input drop_word; [auto with abi|]. rw take_word; [auto with abi|]. rw decode_u8_word.
  cbn [result_bind]. rw {1}/input drop_two_words; [auto with abi..|]. rw take_word; [auto with abi|].
  rw decode_u64_word; [unfold_int; lia|]. cbn [result_bind]. rw dynamic_offset_ok; [lia|done|lia|lia|unfold u64_max; lia|].
  cbn [result_bind].
  assert (Hw : get_range input 96 (sat_add 96 32) = Some (encode_usize_word (len gs))).
  { rw /input 2!app_assoc. apply get_range_middle; rw /len; autorewrite with bytes; done. }
  rw Hw. cbn [ok_or result_bind]. rw decode_usize_word; [unfold_int; lia|]. cbn [result_bind].
  change (sat_add 96 32) with 128.
  assert (sat_add 128 (sat_mul (len gs) 32) = len input) as -> by (unfold sat_add, sat_mul, u64_max; lia).
  rw Z.ltb_irrefl (proj2 (Z.eqb_neq _ _)); [lia|]. rw (proj2 (Z.ltb_ge MAX_GUARDIANS _)); [rw /MAX_GUARDIANS; lia|].
  cbn [orb]. rw (proj2 (Z.eqb_neq thr 0)); [lia|]. rw (proj2 (Z.ltb_ge _ thr)); [lia|]. cbn [orb].
  rw (proj2 (Z.ltb_ge _ MIN_RECOVERY_TIMELOCK)); [rw /MIN_RECOVERY_TIMELOCK; lia|].
  pose proof (read_guardians_words caller
    (encode_usize_word 96 ++ encode_u8_word thr ++ encode_u64_word tl ++ encode_usize_word (len gs)) gs []) as Hr.
  rw /len Nat2Z.id. rw {3}/len in Hr. cbn [mbind list_bind app length] in Hr. rw -!app_assoc in Hr.
  autorewrite with bytes in Hr. cbn [Nat.add] in Hr. change (Z.of_nat 128) with 128 in Hr. rw Hr //.
  rw /len. autorewrite with bytes. rw /len in Hn. unfold u64_max. simpl length. lia.
Qed.

Lemma address_u64_params a weight : in_u64 weight →
  decode_address_u64 (as_bytes a ++ encode_u64_word weight) = Ok (a, weight).
Proof.
  intros Hw. rw /decode_address_u64 /len. autorewrite with bytes. cbn [Nat.add]. rw (proj2 (Z.ltb_ge _ _)); [lia|].
  rw take_word; [auto with abi|]. rw -(app_nil_r (as_bytes a)) decode_address_word. cbn [result_bind].
  rw app_nil_r drop_word; [auto with abi|]. rw take_ge; [by rw length_u64_word|]. by rw decode_u64_word.
Qed.

Lemma address_u256_params a stake : 0 <= stake <= u256_max →
  decode_address_u256 (as_bytes a ++ be_bytes 32 stake) = Ok (a, stake).
Proof.
  intros Hs. rw /decode_address_u256 /len. autorewrite with bytes. cbn [Nat.add]. rw (proj2 (Z.ltb_ge _ _)); [lia|].
  rw take_word; [auto with abi|]. rw drop_word; [auto with abi|]. rw take_ge; [by rw length_be_bytes|].
  rw b256_from_as_bytes from_be_bytes_be_bytes b256_pow Z.mod_small; [lia|done].
Qed.

Lemma activation_params t height hash : in_u64 height → length hash = 32%nat →
  decode_algo_activation_params (encode_u8_word (sig_type_as_u8 t) ++ encode_u64_word height ++ hash) = Ok (t, height, hash).
Proof.
  intros Hh Hl. rw /decode_algo_activation_params /len. autorewrite with bytes. rw Hl. cbn [Nat.add].
  rw (proj2 (Z.ltb_ge _ _)); [lia|]. rw take_word; [auto with abi|]. rw decode_signature_word. cbn [result_bind].
  rw drop_word; [auto with abi|]. rw take_word; [auto with abi|]. rw decode_u64_word //. cbn [result_bind].
  rw drop_two_words; [auto with abi..|]. by rw take_ge; [rw Hl|].
Qed.

Lemma hash_params h : decode_hash (as_bytes h) = Ok h.
Proof.
  rw /decode_hash /len length_as_bytes. cbn [Z.of_nat]. rw take_ge; [by rw length_as_bytes|].
  by rw b256_from_as_bytes.
Qed.

(** C29: calldata means what its sender wrote.  The function selectors of the two
    system contracts, evaluated, are pairwise different; and the calldata each
    encoder builds, for arguments in the ranges the contract allows, has its
    function's selector and decodes to the same arguments with the code of the
    dispatcher: keys of up to 4096 bytes with their padding, guardian lists,
    recovery votes, addresses with weights and stakes, hashes, and algorithm
    parameters. *)
Theorem abi_roundtrip :
  NoDup all_selectors ∧
  (∀ pubkey algo, key_ok pubkey →
     decodes_to (encode_rotate_key_calldata pubkey algo) ROTATE_KEY_SELECTOR decode_rotate_key_params (pubkey, algo) ∧
     decodes_to (encode_register_prover_calldata pubkey algo) REGISTER_PROVER_SELECTOR decode_rotate_key_params
       (pubkey, algo)) ∧
  (∀ caller gs thr tl, 1 <= len gs <= MAX_GUARDIANS → 1 <= thr <= len gs → MIN_RECOVERY_TIMELOCK <= tl <= u64_max →
     NoDup gs → (caller ∉ gs) →
     decodes_to (encode_set_guardians_calldata gs thr tl) SET_GUARDIANS_SELECTOR (parse_guardians caller)
       (MkGuardianConfig gs thr tl)) ∧
  (∀ account pubkey t, key_ok pubkey →
     decodes_to (encode_submit_recovery_calldata account pubkey (sig_type_as_u8 t)) SUBMIT_RECOVERY_SELECTOR
       parse_recovery (account, pubkey, sig_type_as_u8 t)) ∧
  (∀ a, decodes_to (encode_execute_recovery_calldata a) EXECUTE_RECOVERY_SELECTOR sc_decode_address a ∧
     decodes_to (encode_cancel_recovery_calldata a) CANCEL_RECOVERY_SELECTOR sc_decode_address a ∧
     decodes_to (encode_add_validator_calldata a) ADD_VALIDATOR_SELECTOR sc_decode_address a ∧
     decodes_to (encode_remove_validator_calldata a) REMOVE_VALIDATOR_SELECTOR sc_decode_address a ∧
     decodes_to (encode_set_validation_code_calldata a) SET_VALIDATION_CODE_SELECTOR decode_hash a) ∧
  (∀ a weight, in_u64 weight →
     decodes_to (encode_set_validator_weight_calldata a weight) SET_VALIDATOR_WEIGHT_SELECTOR decode_address_u64
       (a, weight)) ∧
  (∀ a stake, 0 <= stake <= u256_max →
     decodes_to (encode_set_validator_stake_calldata a stake) SET_VALIDATOR_STAKE_SELECTOR decode_address_u256 (a, stake) ∧
     decodes_to (encode_bond_validator_stake_calldata a stake) BOND_VALIDATOR_STAKE_SELECTOR decode_address_u256 (a, stake) ∧
     decodes_to (encode_unbond_validator_stake_calldata a stake) UNBOND_VALIDATOR_STAKE_SELECTOR decode_address_u256
       (a, stake)) ∧
  (∀ t height hash, in_u64 height → length hash = 32%nat →
     decodes_to (encode_propose_algorithm_activation_calldata t height hash) PROPOSE_ALGORITHM_ACTIVATION_SELECTOR
       decode_algo_activation_params (t, height, hash)) ∧
  (∀ t, decodes_to (encode_deprecate_algorithm_calldata t) DEPRECATE_ALGORITHM_SELECTOR decode_signature_type t).
Proof.
  assert (Haddr : ∀ a, sc_decode_address (as_bytes a) = Ok a).
  { intros a. rw -{1}(app_nil_r (as_bytes a)). apply decode_address_word. }
  split_and!; [apply selectors_good|..].
  - apply rotate_calldata.
  - intros. apply decodes_to_app; [by apply (in_selectors 14)|by apply guardians_params].
  - intros. eapply recovery_calldata; [done|apply sig_type_roundtrip].
  - intros a. split_and!; (apply decodes_to_app; [|by apply Haddr || by apply hash_params]);
      [by apply (in_selectors 16)|by apply (in_selectors 17)|by apply (in_selectors 1)|by apply (in_selectors 2)|
       by apply (in_selectors 12)].
  - intros. apply decodes_to_app; [by apply (in_selectors 3)|by apply address_u64_params].
  - intros. split_and!; (apply decodes_to_app; [|by apply address_u256_params]);
      [by apply (in_selectors 4)|by apply (in_selectors 5)|by apply (in_selectors 6)].
  - intros. apply decodes_to_app; [by apply (in_selectors 7)|by apply activation_params].
  - intros. apply decodes_to_app; [by apply (in_selectors 8)|apply decode_signature_word].
Qed.
