(* ===== verification/RecoverySafety.v ===== *)
(** * Recovery over any history of calls

    [recovery_of] reads, from the successful calls so far, the guardians of an
    account and the votes of its open proposal.  [agrees] relates it to the
    stored records; every call preserves it. *)

From S2P Require Import Prelude Primitives Fee Rlp Transaction TxValidation BTree KvStore Overlay OverlayView OverlayProps OverlayJournal MetadataUndo Keccak RwSet Account Effects World WorldState WorldProps WorldViews Abi AccountManager Recovery.

(** ** Calls and what they do *)

Record call := MkCall {
  call_caller : Address;
  call_input : list Z;
  call_env : ChainEnv;
  call_block : Z;
}.

Inductive action :=
| GuardiansSet (config : GuardianConfig)
| Voted (account : Address) (pubkey : list Z) (algo : Z)
| Executed (account : Address)
| Cancelled (account : Address)
| OtherCall.

(** What a call asks for, in the order of the dispatcher. *)
Definition action_of (c : call) : action :=
  let selector := take 4 (call_input c) in
  let params := drop 4 (call_input c) in
  if bool_decide (selector = ROTATE_KEY_SELECTOR) || bool_decide (selector = SET_VALIDATION_CODE_SELECTOR) ||
     bool_decide (selector = CLEAR_VALIDATION_CODE_SELECTOR) then OtherCall
  else if bool_decide (selector = SET_GUARDIANS_SELECTOR) then
    match parse_guardians (call_caller c) params with Ok config => GuardiansSet config | Err _ => OtherCall end
  else if bool_decide (selector = SUBMIT_RECOVERY_SELECTOR) then
    match parse_recovery params with Ok (account, pubkey, algo) => Voted account pubkey algo | Err _ => OtherCall end
  else if bool_decide (selector = EXECUTE_RECOVERY_SELECTOR) then
    match sc_decode_address params with Ok account => Executed account | Err _ => OtherCall end
  else if bool_decide (selector = CANCEL_RECOVERY_SELECTOR) then
    match sc_decode_address params with Ok account => Cancelled account | Err _ => OtherCall end
  else OtherCall.

(** ** Histories *)

(** The guardians of an account, the key proposed for it, and the votes of the
    open proposal with the head at each; no proposal is open when there are no
    votes. *)
Record recovery := MkRecovery {
  r_config : option GuardianConfig;
  r_pubkey : list Z;
  r_algo : Z;
  r_votes : list (Address * Z);
}.

Definition head_of (c : call) : Z := match head_number (call_env c) with Ok head => head | Err _ => 0 end.

(** One successful call, seen from account [a]. *)
Definition record_call (a : Address) (r : recovery) (c : call) : recovery :=
  match action_of c with
  | GuardiansSet config =>
      if decide (call_caller c = a) then MkRecovery (Some config) (r_pubkey r) (r_algo r) (r_votes r) else r
  | Voted account pubkey algo =>
      if decide (account = a) then
        if decide (call_caller c ∈ (r_votes r).*1) then r
        else MkRecovery (r_config r) pubkey algo (r_votes r ++ [(call_caller c, head_of c)])
      else r
  | Executed account | Cancelled account =>
      if decide (account = a) then MkRecovery (r_config r) (r_pubkey r) (r_algo r) [] else r
  | OtherCall => r
  end.
Definition recovery_of (history : list call) (a : Address) : recovery :=
  foldl (record_call a) (MkRecovery None [] 0 []) history.

(** ** Valid configurations *)

Record config_ok (a : Address) (config : GuardianConfig) : Prop := {
  config_distinct : NoDup (guardians config);
  config_not_self : a ∉ guardians config;
  config_threshold : 1 <= threshold config <= len (guardians config);
  config_size : len (guardians config) <= MAX_GUARDIANS;
  config_timelock : MIN_RECOVERY_TIMELOCK <= timelock config;
}.

Lemma read_guardians_inv caller params start indices gs res :
  read_guardians caller params start indices gs = Ok res → NoDup gs → caller ∉ gs →
  NoDup res ∧ (caller ∉ res) ∧ length res = (length gs + length indices)%nat.
Proof.
  revert gs. induction indices as [|i indices IH]; intros gs; simpl.
  { intros [= <-] Hnd Hc. split_and!; [done..|lia]. }
  intros (word & _ & (addr & _ & Hr)%bind_ok)%bind_ok. revert Hr. intros [Hself%bool_decide_eq_false Hr]%guard_ok Hnd Hc.
  apply guard_ok in Hr as [Hdup%bool_decide_eq_false Hr].
  destruct (IH _ Hr) as (? & ? & ->).
  - apply NoDup_app. split_and!; [done|set_solver|apply NoDup_singleton].
  - set_solver.
  - rw length_app /=. split_and!; [done..|lia].
Qed.

(** Decoded integers are in the ranges of their types. *)
Lemma from_be_bytes_nonneg l : bytes_ok l → 0 <= from_be_bytes l.
Proof.
  intros Hl. induction l as [|b l IH] using rev_ind; [done|]. apply Forall_app in Hl as [Hl Hb].
  rw from_be_bytes_snoc. apply Forall_cons_1 in Hb as [Hb _]. specialize (IH Hl). lia.
Qed.
Lemma decode_u8_nonneg l n : bytes_ok l → decode_u8 l = Ok n → 0 <= n.
Proof.
  intros Hl [_ [_ Hn]%guard_ok]%guard_ok. destruct (l !! 31%nat) as [b|] eqn:E; [|done].
  injection Hn as <-. eapply Forall_lookup_1 in E; [|exact Hl]. simpl in E. lia.
Qed.
Lemma decode_word_nonneg l n : bytes_ok l → decode_word_usize l = Ok n → 0 <= n.
Proof. intros Hl [_ [_ [= <-]]%guard_ok]%guard_ok. apply from_be_bytes_nonneg. by apply Forall_take, Forall_drop. Qed.
Lemma bytes_ok_range l a b k : bytes_ok l → get_range l a b = Some k → bytes_ok k.
Proof. rw /get_range. intros Hl. case_match; [|done]. intros [= <-]. by apply Forall_take, Forall_drop. Qed.

Lemma parse_guardians_ok caller params config :
  bytes_ok params → parse_guardians caller params = Ok config → config_ok caller config.
Proof.
  intros Hbytes. rw /parse_guardians. intros [_ Hp]%guard_ok.
  apply bind_ok in Hp as (offset & _ & Hp). apply bind_ok in Hp as (thr & Hthr & Hp).
  apply bind_ok in Hp as (tl & _ & Hp). apply bind_ok in Hp as (? & _ & Hp).
  apply bind_ok in Hp as (word & Hw & Hp). apply bind_ok in Hp as (n & Hn & Hp).
  apply guard_ok in Hp as [_ Hp]. apply guard_ok in Hp as [[Hn0 Hn5]%orb_false_iff Hp].
  apply guard_ok in Hp as [[Ht0 Htn]%orb_false_iff Hp].
  apply guard_ok in Hp as [Htl Hp]. apply bind_ok in Hp as (gs & Hgs & [= <-]).
  destruct (read_guardians_inv _ _ _ _ _ _ Hgs) as (Hnd & Hself & Hlen); [constructor|set_solver|].
  assert (0 <= thr) by (eapply decode_u8_nonneg; [by apply Forall_take, Forall_drop|done]).
  assert (0 <= n).
  { destruct (get_range _ _ _) eqn:E; [|done]. injection Hw as ->.
    eapply decode_word_nonneg; [by eapply bytes_ok_range|done]. }
  rw length_seq /= in Hlen. rw Z.eqb_neq in Hn0. rw Z.eqb_neq in Ht0. rw Z.ltb_ge in Hn5.
  rw Z.ltb_ge in Htn. rw Z.ltb_ge in Htl. split; simpl; [done..| | |done]; rw /len Hlen; lia.
Qed.

(** ** The stored records agree with the history *)

Definition maturity (config : GuardianConfig) (votes : list (Address * Z)) : Z :=
  match votes !! (Z.to_nat (threshold config) - 1)%nat with
  | Some (_, head) => sat_add head (timelock config)
  | None => 0
  end.

Section history.
Context {JG : Json GuardianConfig} {JP : Json RecoveryProposal}.

Record agrees_at (m : contents) (a : Address) (r : recovery) : Prop := {
  agrees_config : stored m (guardian_config_key a) = r_config r;
  agrees_config_ok config : r_config r = Some config → config_ok a config;
  agrees_distinct : NoDup (r_votes r).*1;
  agrees_heads : Forall (λ p, 0 <= p.2) (r_votes r);
  agrees_proposal :
    match r_votes r with
    | [] => stored (A := RecoveryProposal) m (recovery_proposal_key a) = None
    | _ => ∃ config, r_config r = Some config ∧ (∀ g, g ∈ (r_votes r).*1 → g ∈ guardians config) ∧
        stored m (recovery_proposal_key a) =
          Some (MkProposal (r_pubkey r) (r_algo r) (r_votes r).*1 (maturity config (r_votes r)))
    end;
}.
Definition agrees (m : contents) (history : list call) : Prop := ∀ a, agrees_at m a (recovery_of history a).

Lemma maturity_snoc a config votes g head : config_ok a config → 0 <= head → Forall (λ p, 0 <= p.2) votes →
  maturity config (votes ++ [(g, head)]) =
    if (maturity config votes =? 0) && (threshold config <=? len votes + 1)
    then sat_add head (timelock config) else maturity config votes.
Proof.
  intros [_ _ [Hlo Hhi] _ Htl] Hh Hv. rw /maturity /len.
  destruct (decide (Z.to_nat (threshold config) - 1 < length votes)%nat) as [Hlt|Hge].
  - rw lookup_app_l //. destruct (lookup_lt_is_Some_2 _ _ Hlt) as [[g' h'] Eq]. rw Eq.
    eapply Forall_lookup_1 in Eq; [|exact Hv]. simpl in Eq.
    rw (proj2 (Z.eqb_neq _ _)) //. unfold sat_add, MIN_RECOVERY_TIMELOCK, u64_max in *. lia.
  - rw (lookup_ge_None_2 votes); [lia|]. rw /=. destruct (Z.leb_spec (threshold config) (Z.of_nat (length votes) + 1)).
    + rw list_lookup_middle //. lia.
    + rw lookup_ge_None_2 //. rw length_app /=. lia.
Qed.
End history.

Section calls.
Context {W : Type} {DB : StateDb W} {SL : StateLaws W} {Hs : Hashes}.
Context {JG : Json GuardianConfig} {JP : Json RecoveryProposal} {JGL : JsonLaws GuardianConfig} {JPL : JsonLaws RecoveryProposal}.
Implicit Types (w : W) (v : view) (m : contents).

Definition run_call (c : call) : M W SystemContractError SystemContractOutcome :=
  execute_account_manager (call_caller c) (call_input c) (call_env c) (call_block c).

(** Bytes and block numbers in the ranges of their types; the accounts a call
    writes have no collisions. *)
Record call_ok (c : call) : Prop := {
  call_bytes : bytes_ok (call_input c);
  call_head n : head_block (call_env c) = Ok (Some n) → 0 <= n;
  call_known : known (call_caller c);
  call_target a : action_of c = Executed a → known a;
}.

Lemma head_of_nonneg c : call_ok c → 0 <= head_of c.
Proof.
  intros Hc. pose proof (call_head c Hc) as Hh. rw /head_of /head_number.
  destruct (head_block (call_env c)) as [[n|]|]; simpl; [by apply Hh|done..].
Qed.

Lemma recovery_of_snoc history c a :
  recovery_of (history ++ [c]) a = record_call a (recovery_of history a) c.
Proof. by rw /recovery_of foldl_app. Qed.

Lemma agrees_at_frame m m' a r :
  stored (A := GuardianConfig) m' (guardian_config_key a) = stored m (guardian_config_key a) →
  stored (A := RecoveryProposal) m' (recovery_proposal_key a) = stored m (recovery_proposal_key a) →
  agrees_at m a r → agrees_at m' a r.
Proof. intros Hg Hp [? ? ? ? Hprop]. split; [by rw Hg|done..|]. by rw Hp. Qed.

(** Writing a public key touches neither record. *)
Lemma agrees_pubkey m history a pk : agrees m history → agrees (<[pubkey_key a := pk]> m) history.
Proof.
  intros Hag b. eapply agrees_at_frame; [..|apply Hag];
    apply stored_insert_ne, not_eq_sym; apply address_keys_ne.
Qed.

Lemma agrees_other m history c : action_of c = OtherCall → agrees m history → agrees m (history ++ [c]).
Proof. intros Ha Hag a. rw recovery_of_snoc /record_call Ha. apply Hag. Qed.

Lemma agrees_guardians m history c config b : action_of c = GuardiansSet config →
  agrees m history → config_ok (call_caller c) config → from_slice b = Ok config →
  stored (A := RecoveryProposal) m (recovery_proposal_key (call_caller c)) = None →
  agrees (<[guardian_config_key (call_caller c) := b]> m) (history ++ [c]).
Proof.
  intros Ha Hag Hok Hb Hnone a. rw recovery_of_snoc /record_call Ha. destruct (Hag a) as [Hc Hco Hd Hh Hp].
  assert (Hprop : stored (A := RecoveryProposal) (<[guardian_config_key (call_caller c) := b]> m) (recovery_proposal_key a) =
    stored m (recovery_proposal_key a)) by apply stored_insert_ne, address_keys_ne.
  case_decide as E.
  - subst a. split; simpl; [by rw (stored_insert _ _ _ _ Hb)| |done|done|].
    + by intros ? [= <-].
    + rw Hprop. destruct (r_votes _); [done|]. destruct Hp as (? & _ & _ & Hst). congruence.
  - apply (agrees_at_frame m); [|done|done]. rw stored_insert_ne //. intros Hk. by apply E, guardian_config_key_inj.
Qed.

Lemma agrees_delete m history c a : action_of c = Executed a ∨ action_of c = Cancelled a →
  agrees m history → agrees (delete (recovery_proposal_key a) m) (history ++ [c]).
Proof.
  intros Ha Hag b. destruct (Hag b) as [Hc Hco Hd Hh Hp]. rw recovery_of_snoc.
  assert (Hcfg : stored (A := GuardianConfig) (delete (recovery_proposal_key a) m) (guardian_config_key b) =
    stored m (guardian_config_key b)).
  { rw stored_delete_ne //. }
  assert (Hrec : record_call b (recovery_of history b) c =
    if decide (a = b) then MkRecovery (r_config (recovery_of history b)) (r_pubkey (recovery_of history b))
      (r_algo (recovery_of history b)) [] else recovery_of history b).
  { rw /record_call. by destruct Ha as [-> | ->]. }
  rw Hrec. case_decide as E.
  - subst b. split; simpl; [by rw Hcfg|done|constructor..|]. by rw stored_delete.
  - apply (agrees_at_frame m); [done| |done]. rw stored_delete_ne //.
    intros Hk. by apply E, recovery_proposal_key_inj.
Qed.

(** The open proposal, from the history. *)
Lemma agrees_open m a r p : agrees_at m a r → stored m (recovery_proposal_key a) = Some p →
  ∃ config, r_config r = Some config ∧ (∀ g, g ∈ (r_votes r).*1 → g ∈ guardians config) ∧
    p = MkProposal (r_pubkey r) (r_algo r) (r_votes r).*1 (maturity config (r_votes r)) ∧ r_votes r ≠ [].
Proof.
  intros [_ _ _ _ Hp] Hs'. destruct (r_votes r) as [|x l]; [congruence|].
  destruct Hp as (config & Hc & Hg & Hst). exists config. split_and!; [done..|congruence|done].
Qed.

(** A vote that is counted. *)
Lemma agrees_vote m history c account pubkey algo config mat b :
  action_of c = Voted account pubkey algo → call_ok c → agrees m history →
  stored m (guardian_config_key account) = Some config → call_caller c ∈ guardians config →
  let p := unwrap_or (MkProposal pubkey algo [] 0) (stored m (recovery_proposal_key account)) in
  new_pubkey p = pubkey → new_algo p = algo → (call_caller c ∉ votes p) →
  matures config p (call_env c) mat → from_slice b = Ok (MkProposal pubkey algo (votes p ++ [call_caller c]) mat) →
  agrees (<[recovery_proposal_key account := b]> m) (history ++ [c]).
Proof.
  intros Ha Hok Hag Hcfg Hg p Hpk Halgo Hnew Hmat Hb a. rw recovery_of_snoc /record_call Ha.
  destruct (Hag a) as [Hc Hco Hd Hh Hp]. case_decide as E.
  2:{ apply (agrees_at_frame m); [apply stored_insert_ne, not_eq_sym, address_keys_ne| |done].
      apply stored_insert_ne. intros Hk. by apply E, recovery_proposal_key_inj. }
  subst a. set (r := recovery_of history account) in *. rw Hcfg in Hc.
  assert (Hvotes : votes p = (r_votes r).*1 ∧ maturity_block p = maturity config (r_votes r) ∧
    ∀ g, g ∈ (r_votes r).*1 → g ∈ guardians config).
  { subst p. destruct (r_votes r) as [|x l] eqn:Ev.
    - rw Hp. split_and!; [done|done|set_solver].
    - destruct Hp as (config' & Hc' & Hg' & ->). assert (config' = config) as -> by congruence. done. }
  destruct Hvotes as (Hv & Hm & Hsub). rw Hv in Hnew. rw Hv in Hb. rw decide_False //.
  pose proof (head_of_nonneg c Hok) as Hh0. assert (Hcok : config_ok account config) by (apply Hco; congruence).
  assert (Hmat' : mat = maturity config (r_votes r ++ [(call_caller c, head_of c)])).
  { rw (maturity_snoc account) //. move: Hmat. rw /matures Hm Hv /len length_fmap.
    destruct (_ && _); [|done]. intros (head & Hhead & ->). by rw /head_of Hhead. }
  split; simpl.
  - rw -Hc -Hcfg. apply stored_insert_ne, not_eq_sym, address_keys_ne.
  - done.
  - rw fmap_app. apply NoDup_app. split_and!; [done|set_solver|apply NoDup_singleton].
  - by apply Forall_app; split; [|constructor].
  - destruct (r_votes r ++ [_]) eqn:El; [by apply app_eq_nil in El as [_ ?]|]. rw -El. exists config.
    split_and!; [congruence|rw fmap_app; set_solver|].
    rw (stored_insert _ _ _ _ Hb). rw fmap_app Hmat' -El. done.
Qed.

(** A vote that was counted already. *)
Lemma agrees_voted m history c account pubkey algo :
  action_of c = Voted account pubkey algo → agrees m history →
  call_caller c ∈ votes (unwrap_or (MkProposal pubkey algo [] 0) (stored m (recovery_proposal_key account))) →
  agrees m (history ++ [c]).
Proof.
  intros Ha Hag Hin a. rw recovery_of_snoc /record_call Ha. case_decide as E; [|apply Hag]. subst a.
  destruct (stored m (recovery_proposal_key account)) as [p|] eqn:Es; [|by apply not_elem_of_nil in Hin].
  destruct (agrees_open _ _ _ _ (Hag account) Es) as (config & _ & _ & -> & _). simpl in Hin.
  rw decide_True //.
Qed.

(** *** Every call keeps the agreement *)

Lemma run_call_agrees w v c history : models w v → agrees (meta v) history → call_ok c →
  wp (run_call c) (λ _ w', ∃ v', models w' v' ∧ agrees (meta v') (history ++ [c])) (quiet v) w.
Proof.
  intros Hw Hag Hok. pose proof (call_known c Hok) as Hk.
  assert (Hbytes : bytes_ok (drop 4 (call_input c))) by (apply Forall_drop, Hok).
  rw /run_call /execute_account_manager. apply wp_bind, wp_lift. rw /sc_decode_selector.
  destruct (len (call_input c) <? 4); [done|]. cbv zeta.
  pose proof (eq_refl (action_of c)) as Ha. rw {2}/action_of in Ha. cbv zeta in Ha. revert Ha.
  case_bool_decide; [|case_bool_decide; [|case_bool_decide; [|simpl orb; cbv iota; case_bool_decide;
    [|case_bool_decide; [|case_bool_decide; [|case_bool_decide]]]]]]; simpl orb; cbv iota; intros Ha.
  - apply wp_bind, wp_lift. destruct (decode_rotate_key_params _) as [[pk algo]|e]; [|by destruct e].
    apply wp_bind. eapply wp_mono; [by apply rotate_key_ok| |done]. intros ? w1 (alg & _ & _ & Hw1).
    apply wp_ret. eexists. split; [exact Hw1|]. apply agrees_other; [done|]. by apply agrees_pubkey.
  - apply wp_bind, wp_lift. destruct (decode_hash _) as [h|e]; [|by destruct e].
    apply wp_bind. eapply wp_mono; [by apply set_validation_code_ok| |done]. intros ? w1 Hw1.
    apply wp_ret. eexists. split; [exact Hw1|]. by apply agrees_other.
  - apply wp_bind. eapply wp_mono; [by apply validation_code_ok| |done]. intros ? w1 Hw1.
    apply wp_ret. eexists. split; [exact Hw1|]. by apply agrees_other.
  - apply wp_bind. eapply wp_mono; [by apply set_guardians_ok| |done].
    intros ? w1 (config & b & Hp & Hnone & Hb & Hw1). rw Hp in Ha.
    apply wp_ret. eexists. split; [exact Hw1|]. eapply agrees_guardians; eauto using parse_guardians_ok.
  - apply wp_bind. eapply wp_mono; [by apply submit_recovery_ok| |done].
    intros ? w1 (account & pubkey & algo & config & Hp & Hcfg & Hg & Hpk & Halgo & Hres). rw Hp in Ha.
    apply wp_ret. destruct Hres as [[Hin Hw1]|(Hin & mat & b & Hmat & Hb & Hw1)]; eexists; (split; [exact Hw1|]).
    + by eapply agrees_voted.
    + by eapply agrees_vote.
  - apply wp_bind, wp_lift. destruct (sc_decode_address _) as [account|e] eqn:Ed; [|by destruct e].
    apply wp_bind. eapply wp_mono; [apply execute_recovery_ok; [done|by apply (call_target c)]| |done].
    intros ? w1 (p & head & algo & _ & _ & _ & _ & _ & Hw1).
    apply wp_ret. eexists. split; [exact Hw1|]. apply agrees_delete; [by left|]. by apply agrees_pubkey.
  - apply wp_bind, wp_lift. destruct (sc_decode_address _) as [account|e]; [|by destruct e].
    apply wp_bind. eapply wp_mono; [by apply cancel_recovery_ok| |done]. intros ? w1 (_ & _ & Hw1).
    apply wp_ret. eexists. split; [exact Hw1|]. apply agrees_delete; [by right|done].
  - by apply wp_fail.
Qed.

(** A call that asks for an execution runs it. *)
Lemma run_call_executed w c account : action_of c = Executed account →
  run_call c w =
    if len (call_input c) <? 4 then (w, Err sc_InputTooShort)
    else mbind_ (execute_recovery account (call_env c) (call_block c))
      (λ _, mret (outcome (sat_add SYSTEM_CALL_BASE_GAS (sat_mul SYSTEM_CALL_OP_GAS 2)) [account])) w.
Proof.
  intros Ha. rw /run_call /execute_account_manager /sc_decode_selector.
  destruct (len (call_input c) <? 4); [done|]. cbn [mbind_ mlift]. rw /mbind_ /mlift. cbv zeta.
  revert Ha. rw /action_of. cbv zeta.
  case_bool_decide; [done|]. case_bool_decide; [done|]. case_bool_decide; [done|]. simpl orb; cbv iota.
  case_bool_decide; [by destruct (parse_guardians _ _)|].
  case_bool_decide; [by destruct (parse_recovery _) as [[[]]|]|].
  case_bool_decide; [|by case_bool_decide; [destruct (sc_decode_address _)|]].
  destruct (sc_decode_address _) as [a|]; [|done]. by intros [= ->].
Qed.

(** What a successful execution found and left. *)
Lemma executed_installs w v c account w' o : models w v → call_ok c → action_of c = Executed account →
  run_call c w = (w', Ok o) →
  ∃ p now algo v', stored (meta v) (recovery_proposal_key account) = Some p ∧ maturity_block p ≠ 0 ∧
    head_number (call_env c) = Ok now ∧ maturity_block p <= now ∧ sig_type_from_u8 (new_algo p) = Some algo ∧
    models w' v' ∧ meta v' !! pubkey_key account = Some (new_pubkey p) ∧
    pq_pubkey_hash (account_of v' account) = bound_hash (call_env c) (call_block c) (new_pubkey p) algo.
Proof.
  intros Hw Hc Ha Hexec. pose proof (run_call_executed w c account Ha) as Hr. rw Hexec in Hr. symmetry in Hr.
  destruct (len (call_input c) <? 4); [done|]. apply bind_run in Hr as (? & w3 & Hr & [= <- _]).
  pose proof (wp_run _ _ _ _ _ _ Hr (execute_recovery_ok w v account (call_env c) (call_block c) Hw
    (call_target c Hc account Ha))) as (p & now & algo & Hst & Hmat & Hnow & Hle & Halgo & Hw2).
  eexists p, now, algo, _. split_and!; [exact Hst|done..|exact Hw2| |]; cbn [installed set_meta meta].
  - rw lookup_delete_ne; [apply address_keys_ne|]. by rw lookup_insert_eq.
  - by rw /account_of /= lookup_insert_eq.
Qed.

(** ** Runs *)

Fixpoint run_calls (calls : list call) (w : W) : W * list (sc_result SystemContractOutcome) :=
  match calls with
  | [] => (w, [])
  | c :: calls =>
      let '(w1, r) := run_call c w in
      let '(w2, rs) := run_calls calls w1 in (w2, r :: rs)
  end.
(** The calls that succeeded. *)
Definition successes (calls : list call) (results : list (sc_result SystemContractOutcome)) : list call :=
  (filter (λ p, is_ok p.2 = true) (zip calls results)).*1.
(** No result is a failure of the store. *)
Definition no_io_failure (results : list (sc_result SystemContractOutcome)) : Prop :=
  ∀ e, Err (sc_Storage e) ∉ results.

Lemma run_calls_agrees calls w v history w' results :
  models w v → agrees (meta v) history → Forall call_ok calls → run_calls calls w = (w', results) →
  no_io_failure results → ∃ v', models w' v' ∧ agrees (meta v') (history ++ successes calls results).
Proof.
  revert w v history results. induction calls as [|c calls IH]; intros w v history results Hw Hag Hok; simpl.
  { intros [= <- <-] _. exists v. by rw app_nil_r. }
  apply Forall_cons in Hok as [Hc Hok]. destruct (run_call c w) as [w1 r] eqn:Er.
  destruct (run_calls calls w1) as [w2 rs] eqn:Ers. intros [= <- <-] Hio.
  assert (Hio' : no_io_failure rs) by (intros e He; apply (Hio e); by right).
  pose proof (wp_run _ _ _ _ _ _ Er (run_call_agrees w v c history Hw Hag Hc)) as Hstep.
  rw /successes /=. destruct r as [o|e]; cbn [is_ok].
  - destruct Hstep as (v1 & Hw1 & Hag1). destruct (IH _ _ _ _ Hw1 Hag1 Hok Ers Hio') as (v2 & Hw2 & Hag2).
    exists v2. split; [done|]. rw filter_cons_True // fmap_cons. by rw -app_assoc in Hag2.
  - rw filter_cons_False //. eapply IH; [|done..]. destruct e; try done. by destruct (Hio e); left.
Qed.

Lemma agrees_nil m : (∀ a, stored (A := GuardianConfig) m (guardian_config_key a) = None) →
  (∀ a, stored (A := RecoveryProposal) m (recovery_proposal_key a) = None) → agrees m [].
Proof. intros Hg Hp a. split; simpl; [done|done|constructor..|done]. Qed.

(** C12: no recovery without its quorum and its wait.  Start without guardians and
    proposals, and let anyone make any calls of the account manager, with any
    calldata, at any heights.  If then [executeRecovery] of an account succeeds,
    the successful calls since its last cancellation or execution contain votes
    by at least the threshold of distinct guardians that the account itself
    appointed, all for the key that is now installed; and the head is at least
    the timelock (100 blocks or more) above the head at the vote that completed
    the threshold (up to the end of [u64]). *)
Theorem recovery_safe w0 v0 calls results w1 c account o w2 :
  models w0 v0 → (∀ a, stored (A := GuardianConfig) (meta v0) (guardian_config_key a) = None) →
  (∀ a, stored (A := RecoveryProposal) (meta v0) (recovery_proposal_key a) = None) →
  Forall call_ok calls → run_calls calls w0 = (w1, results) → no_io_failure results →
  call_ok c → action_of c = Executed account → run_call c w1 = (w2, Ok o) →
  let r := recovery_of (successes calls results) account in
  ∃ config g head now,
    r_config r = Some config ∧ MIN_RECOVERY_TIMELOCK <= timelock config ∧ (account ∉ guardians config) ∧
    NoDup (r_votes r).*1 ∧ (∀ g, g ∈ (r_votes r).*1 → g ∈ guardians config) ∧
    1 <= threshold config <= len (r_votes r) ∧
    r_votes r !! (Z.to_nat (threshold config) - 1)%nat = Some (g, head) ∧
    head_number (call_env c) = Ok now ∧ sat_add head (timelock config) <= now ∧
    ∃ v2 algo, models w2 v2 ∧ sig_type_from_u8 (r_algo r) = Some algo ∧
      meta v2 !! pubkey_key account = Some (r_pubkey r) ∧
      pq_pubkey_hash (account_of v2 account) = bound_hash (call_env c) (call_block c) (r_pubkey r) algo.
Proof.
  intros Hw Hg Hp Hok Hrun Hio Hc Ha Hexec r.
  destruct (run_calls_agrees _ _ _ _ _ _ Hw (agrees_nil _ Hg Hp) Hok Hrun Hio) as (v1 & Hw1 & Hag).
  specialize (Hag account). cbn [app] in Hag. fold r in Hag.
  destruct (executed_installs w1 v1 c account w2 o Hw1 Hc Ha Hexec)
    as (p & now & algo & v2 & Hst & Hmat & Hnow & Hle & Halgo & Hw2 & Hpk & Hh).
  destruct (agrees_open _ _ _ _ Hag Hst) as (config & Hcfg & Hsub & -> & _). cbn [maturity_block] in *.
  destruct (agrees_config_ok _ _ _ Hag config Hcfg) as [_ Hself Hthr _ Htl].
  revert Hmat Hle. rw /maturity. destruct (r_votes r !! _) as [[g head]|] eqn:El; [|done]. intros _ Hle.
  exists config, g, head, now. apply lookup_lt_Some in El as Hlt.
  split_and!; [done|done|done|apply Hag|done|lia|rw /len; lia|done..|].
  by exists v2, algo.
Qed.
End calls.

(** ** An example run *)

(** Records as lists of numbers. *)
Definition config_json : Json GuardianConfig := {|
  to_vec c := Ok (threshold c :: timelock c :: (b256_unsigned <$> guardians c));
  from_slice b :=
    match b with t :: l :: gs => Ok (MkGuardianConfig (b256_of_Z <$> gs) t l) | _ => Err "short"%string end;
|}.
Definition proposal_json : Json RecoveryProposal := {|
  to_vec p := Ok (new_algo p :: maturity_block p :: len (votes p) :: (b256_unsigned <$> votes p) ++ new_pubkey p);
  from_slice b :=
    match b with
    | a :: m :: n :: rest => Ok (MkProposal (drop (Z.to_nat n) rest) a (b256_of_Z <$> take (Z.to_nat n) rest) m)
    | _ => Err "short"%string
    end;
|}.
Lemma b256_list_roundtrip (l : list b256) : b256_of_Z <$> (b256_unsigned <$> l) = l.
Proof. rw -list_fmap_compose. rw -{2}(list_fmap_id l). apply list_fmap_ext. intros i x _. apply b256_of_Z_unsigned. Qed.
Lemma config_json_laws : @JsonLaws _ config_json.
Proof. split. intros [gs t l] b [= <-]. by rw /= b256_list_roundtrip. Qed.
Lemma proposal_json_laws : @JsonLaws _ proposal_json.
Proof.
  split. intros [pk al vs m] b [= <-]. rw /= /len Nat2Z.id. rw take_app_length' ?length_fmap // drop_app_length' ?length_fmap //.
  by rw b256_list_roundtrip.
Qed.
Definition plain_hashes : Hashes := {| keccak256 := b256_from_bytes; blake3_hash := b256_from_bytes |}.
#[local] Existing Instances config_json proposal_json config_json_laws proposal_json_laws plain_hashes.

(** An owner with two guardians, both of which are needed, and calls to the
    manager at given heads. *)
Definition demo_owner : Address := b256_of_Z 1.
Definition demo_guardian (i : Z) : Address := b256_of_Z (1 + i).
Definition demo_call (caller : Address) (input : list Z) (head : Z) : call :=
  MkCall caller input (MkChainEnv (Ok (Some head)) (Ok None)) (head + 1).
Definition demo_appoint : call :=
  demo_call demo_owner (encode_set_guardians_calldata [demo_guardian 1; demo_guardian 2] 2 100) 5.
Definition demo_vote (i key head : Z) : call :=
  demo_call (demo_guardian i) (encode_submit_recovery_calldata demo_owner [key] (sig_type_as_u8 Dilithium3)) head.
Definition demo_execute (head : Z) : call :=
  demo_call (demo_guardian 1) (encode_execute_recovery_calldata demo_owner) head.
Definition demo_view : view := MkView ∅ ∅ ∅.
Definition demo_run (calls : list call) : view * list (sc_result SystemContractOutcome) := run_calls calls demo_view.
Lemma demo_run_eq calls : run_calls calls demo_view = ((demo_run calls).1, (demo_run calls).2).
Proof. apply surjective_pairing. Qed.

Definition is_storage_failure (r : sc_result SystemContractOutcome) : bool :=
  match r with Err (sc_Storage _) => true | _ => false end.
Lemma no_io_check results : existsb is_storage_failure results = false → no_io_failure results.
Proof.
  intros Hno e He. assert (existsb is_storage_failure results = true); [|congruence].
  apply existsb_exists. exists (Err (sc_Storage e)). split; [by apply list_elem_of_In|done].
Qed.

Definition call_check (c : call) : bool :=
  bool_decide (bytes_ok (call_input c)) &&
  match head_block (call_env c) with Ok (Some n) => 0 <=? n | _ => true end.
Lemma call_check_ok c : call_check c = true → call_ok c.
Proof.
  intros [Hb%bool_decide_eq_true Hh]%andb_true_iff. split; [done| |done..]. intros n Hn. rw Hn in Hh. by apply Z.leb_le.
Qed.
Lemma calls_check_ok calls : forallb call_check calls = true → Forall call_ok calls.
Proof. intros H. apply Forall_forall. intros c Hc. apply call_check_ok. rw forallb_forall in H. by apply H, list_elem_of_In. Qed.
Lemma demo_view_models : models demo_view demo_view.
Proof. split; [done|]. apply map_Forall_empty. Qed.
Lemma demo_view_empty {A} `{Json A} k : stored (A := A) (meta demo_view) k = None.
Proof. by rw /stored lookup_empty. Qed.

(** The owner appoints, both guardians vote at heads 10 and 12, and the key is
    installed at head 112. *)
Lemma recovery_safe_witness :
  let calls := [demo_appoint; demo_vote 1 7 10; demo_vote 2 7 12] in
  ∃ config g head now,
    r_config (recovery_of (successes calls (demo_run calls).2) demo_owner) = Some config ∧
    threshold config <= len (r_votes (recovery_of (successes calls (demo_run calls).2) demo_owner)) ∧
    r_votes (recovery_of (successes calls (demo_run calls).2) demo_owner) !! (Z.to_nat (threshold config) - 1)%nat =
      Some (g, head) ∧ head_number (call_env (demo_execute 112)) = Ok now ∧ sat_add head (timelock config) <= now.
Proof.
  intros calls. destruct (run_call (demo_execute 112) (demo_run calls).1) as [w2 res] eqn:E.
  assert (Hres : is_ok res = true).
  { assert (res = (run_call (demo_execute 112) (demo_run calls).1).2) as -> by by rw E. vm_compute. reflexivity. }
  destruct res as [o|]; [|discriminate].
  destruct (recovery_safe demo_view demo_view calls (demo_run calls).2 (demo_run calls).1 (demo_execute 112) demo_owner o w2)
    as (config & g & head & now & Hc & _ & _ & _ & _ & [_ Ht] & Hl & Hn & Hle & _).
  - apply demo_view_models.
  - intros a. apply demo_view_empty.
  - intros a. apply demo_view_empty.
  - apply calls_check_ok. vm_compute. reflexivity.
  - exact (demo_run_eq calls).
  - apply no_io_check. vm_compute. reflexivity.
  - apply call_check_ok. vm_compute. reflexivity.
  - vm_compute. reflexivity.
  - exact E.
  - exists config, g, head, now. exact (conj Hc (conj Ht (conj Hl (conj Hn Hle)))).
Defined.
