(* ===== verification/RecoveryLive.v ===== *)
(** * Recovery succeeds, and can be blocked

    If no proposal is open, a threshold of guardians that vote for one key gets
    it installed once the timelock has passed.  If a proposal for another key is
    open, it stays until the account itself acts. *)

From S2P Require Import Prelude Primitives Fee Rlp Transaction TxValidation BTree KvStore Overlay OverlayView OverlayProps OverlayJournal MetadataUndo Keccak RwSet TxCodec Account Effects World WorldState WorldProps WorldViews Abi AccountManager Recovery AbiProps RecoverySafety.

(** A failure of the store. *)
Definition is_io (e : SystemContractError) : Prop := match e with sc_Storage _ => True | _ => False end.

Lemma not_io {A} (e : SystemContractError) : is_io e → (∀ e', @Err A _ e ≠ Err (sc_Storage e')) → False.
Proof. destruct e; simpl; try done. intros _ H. by eapply H. Qed.

Section live.
Context {W : Type} {DB : StateDb W} {SL : StateLaws W} {Hs : Hashes}.
Context {JG : Json GuardianConfig} {JP : Json RecoveryProposal} {JGL : JsonLaws GuardianConfig} {JPL : JsonLaws RecoveryProposal}.
Implicit Types (w : W) (v : view) (m : contents).

Lemma wp_st_io {A B} (ms : M W StorageError A) (k : A → M W SystemContractError B) Q R w P :
  wp ms Q R w → (∀ x w', Q x w' → wp (k x) P (λ e _, is_io e) w') → wp (mbind_ (st ms) k) P (λ e _, is_io e) w.
Proof. intros Hm Hk. apply wp_bind, wp_map_err. eapply wp_mono; [done|done|done]. Qed.
Lemma wp_st_end {A} (ms : M W StorageError A) w : wp (st ms) (λ _ _, True) (λ e _, is_io e) w.
Proof. rw /wp /st /mmap_err. by destruct (ms w) as [w' [x|e]]. Qed.

Lemma head_number_io env e : head_number env = Err e → is_io e.
Proof. rw /head_number. by destruct (head_block env); intros [= <-]. Qed.

(** A guardian's vote for the key of the open proposal, or for any key when none
    is open, is accepted. *)
Lemma submit_accepted w v caller params env account pubkey algo config : models w v →
  parse_recovery params = Ok (account, pubkey, algo) →
  stored (meta v) (guardian_config_key account) = Some config → caller ∈ guardians config →
  (∀ p, stored (meta v) (recovery_proposal_key account) = Some p → new_pubkey p = pubkey ∧ new_algo p = algo) →
  wp (submit_recovery caller params env) (λ _ _, True) (λ e _, is_io e) w.
Proof.
  intros Hw Hp Hc Hg Hsame. rw /submit_recovery Hp. apply wp_bind, wp_lift.
  eapply wp_st_io; [apply read_json_ok; [done|apply address_keys_length]|]. intros o w1 [Hw1 ->]. rw Hc.
  rw bool_decide_true //=. eapply wp_st_io; [apply read_json_ok; [done|apply address_keys_length]|].
  intros o w2 [Hw2 ->]. cbv zeta. set (p := unwrap_or _ _).
  assert (new_pubkey p = pubkey ∧ new_algo p = algo) as [Hpk Ha].
  { subst p. destruct (stored (meta v) (recovery_proposal_key account)) eqn:E; [by apply Hsame|done]. }
  rw bool_decide_true // Ha Z.eqb_refl /=. rw /vote_recovery.
  destruct (bool_decide (caller ∈ votes p)); [done|]. cbv zeta. apply wp_bind.
  eapply wp_mono with (Q := λ _ _, True) (R := λ e _, is_io e); [|intros; apply wp_st_end|done].
  destruct (_ && _); [|done]. apply wp_bind, wp_lift. destruct (head_number env) eqn:Eh; [done|]. by eapply head_number_io.
Qed.

(** A mature proposal with a usable key is executed. *)
Lemma execute_accepted w v account env block p algo now : models w v → known account →
  stored (meta v) (recovery_proposal_key account) = Some p → maturity_block p ≠ 0 →
  head_number env = Ok now → maturity_block p <= now → new_pubkey p ≠ [] → sig_type_from_u8 (new_algo p) = Some algo →
  wp (execute_recovery account env block) (λ _ _, True) (λ e _, is_io e) w.
Proof.
  intros Hw Ha Hp Hm Hh Hle Hpk Halgo. rw /execute_recovery.
  eapply wp_st_io; [apply read_json_ok; [done|apply address_keys_length]|]. intros o w1 [Hw1 ->]. rw Hp.
  rw (proj2 (Z.eqb_neq _ _)) // Hh. apply wp_bind, wp_lift. rw (proj2 (Z.ltb_ge _ _)) //.
  apply wp_bind. eapply wp_mono with (Q := λ _ _, True) (R := λ e _, is_io e); [|intros; apply wp_st_end|done].
  rw /rotate_key. destruct (Nat.eqb_spec (length (new_pubkey p)) 0) as [E|]; [by destruct (new_pubkey p)|].
  rw Halgo. apply wp_bind. apply wp_mono with (Q := λ _ _, True) (R := λ e _, is_io e); [|intros x w2 _|done].
  { rw /account_or_empty. apply wp_bind. eapply wp_mono; [apply wp_st_end|done|done]. }
  apply wp_bind, wp_lift. destruct (key_binding_enabled env block); [|done]. cbv zeta.
  apply wp_bind. eapply wp_mono; [apply wp_st_end| |done]. intros ? w3 _. apply wp_st_end.
Qed.

(** *** What encoded calldata asks for *)

Lemma take_selector input s : sc_decode_selector input = Ok s → take 4 input = s ∧ (len input <? 4) = false.
Proof. rw /sc_decode_selector. destruct (len input <? 4); [done|]. by intros [= <-]. Qed.

(** Selectors are compared by their places in the table, and abstracted before a
    test on them is decided: deciding it would evaluate the hash. *)
Lemma submit_selector_ne :
  SUBMIT_RECOVERY_SELECTOR ≠ ROTATE_KEY_SELECTOR ∧ SUBMIT_RECOVERY_SELECTOR ≠ SET_VALIDATION_CODE_SELECTOR ∧
  SUBMIT_RECOVERY_SELECTOR ≠ CLEAR_VALIDATION_CODE_SELECTOR ∧ SUBMIT_RECOVERY_SELECTOR ≠ SET_GUARDIANS_SELECTOR.
Proof.
  split_and!; [apply (selectors_ne 15 11)|apply (selectors_ne 15 12)|apply (selectors_ne 15 13)|
    apply (selectors_ne 15 14)]; first [reflexivity|lia].
Qed.
Lemma execute_selector_ne :
  EXECUTE_RECOVERY_SELECTOR ≠ ROTATE_KEY_SELECTOR ∧ EXECUTE_RECOVERY_SELECTOR ≠ SET_VALIDATION_CODE_SELECTOR ∧
  EXECUTE_RECOVERY_SELECTOR ≠ CLEAR_VALIDATION_CODE_SELECTOR ∧ EXECUTE_RECOVERY_SELECTOR ≠ SET_GUARDIANS_SELECTOR ∧
  EXECUTE_RECOVERY_SELECTOR ≠ SUBMIT_RECOVERY_SELECTOR.
Proof.
  split_and!; [apply (selectors_ne 16 11)|apply (selectors_ne 16 12)|apply (selectors_ne 16 13)|
    apply (selectors_ne 16 14)|apply (selectors_ne 16 15)]; first [reflexivity|lia].
Qed.

Ltac abstract_selectors :=
  generalize dependent ROTATE_KEY_SELECTOR; intros s_rotate;
  generalize dependent SET_VALIDATION_CODE_SELECTOR; intros s_code;
  generalize dependent CLEAR_VALIDATION_CODE_SELECTOR; intros s_clear;
  generalize dependent SET_GUARDIANS_SELECTOR; intros s_guardians;
  generalize dependent SUBMIT_RECOVERY_SELECTOR; intros s_submit;
  generalize dependent EXECUTE_RECOVERY_SELECTOR; intros s_execute;
  generalize dependent CANCEL_RECOVERY_SELECTOR; intros s_cancel; intros.

Lemma action_voted c account pubkey algo :
  decodes_to (call_input c) SUBMIT_RECOVERY_SELECTOR parse_recovery (account, pubkey, algo) →
  action_of c = Voted account pubkey algo.
Proof.
  intros [[Ht _]%take_selector Hp]. rw /action_of. cbv zeta. rw Hp. pose proof submit_selector_ne as Hne.
  revert Ht Hne. abstract_selectors. destruct Hne as (? & ? & ? & ?). subst.
  do 4 (rw bool_decide_false; [done|]). by rw bool_decide_true.
Qed.
Lemma action_executed c account :
  decodes_to (call_input c) EXECUTE_RECOVERY_SELECTOR sc_decode_address account → action_of c = Executed account.
Proof.
  intros [[Ht _]%take_selector Hp]. rw /action_of. cbv zeta. rw Hp. pose proof execute_selector_ne as Hne.
  revert Ht Hne. abstract_selectors. destruct Hne as (? & ? & ? & ? & ?). subst.
  do 5 (rw bool_decide_false; [done|]). by rw bool_decide_true.
Qed.

(** A call that asks for a vote runs it. *)
Lemma run_call_voted w c account pubkey algo : action_of c = Voted account pubkey algo →
  parse_recovery (drop 4 (call_input c)) = Ok (account, pubkey, algo) ∧
  run_call c w =
    if len (call_input c) <? 4 then (w, Err sc_InputTooShort)
    else mbind_ (submit_recovery (call_caller c) (drop 4 (call_input c)) (call_env c))
      (λ _, mret (outcome (sat_add SYSTEM_CALL_BASE_GAS (sat_mul SYSTEM_CALL_OP_GAS 2)) [])) w.
Proof.
  rw /run_call /execute_account_manager /sc_decode_selector /action_of. cbv zeta. abstract_selectors.
  match goal with H : _ = Voted _ _ _ |- _ => revert H end.
  case_bool_decide; [done|]. case_bool_decide; [done|]. case_bool_decide; [done|]. simpl orb; cbv iota.
  case_bool_decide; [by destruct (parse_guardians _ _)|].
  case_bool_decide.
  2:{ case_bool_decide; [by destruct (sc_decode_address _)|]. by case_bool_decide; [destruct (sc_decode_address _)|]. }
  destruct (parse_recovery _) as [[[a pk] alg]|] eqn:Ep; [|done]. intros [= -> -> ->]. split; [done|].
  destruct (len (call_input c) <? 4); [done|]. rw /mbind_ /mlift /=.
  by repeat (rw bool_decide_false; [done|]); rw bool_decide_true.
Qed.
(** A call that asks for a cancellation runs it. *)
Lemma run_call_cancelled w c account : action_of c = Cancelled account →
  run_call c w =
    if len (call_input c) <? 4 then (w, Err sc_InputTooShort)
    else mbind_ (cancel_recovery (call_caller c) account)
      (λ _, mret (outcome (sat_add SYSTEM_CALL_BASE_GAS SYSTEM_CALL_OP_GAS) [])) w.
Proof.
  rw /run_call /execute_account_manager /sc_decode_selector /action_of. cbv zeta. abstract_selectors.
  match goal with H : _ = Cancelled _ |- _ => revert H end.
  case_bool_decide; [done|]. case_bool_decide; [done|]. case_bool_decide; [done|]. simpl orb; cbv iota.
  case_bool_decide; [by destruct (parse_guardians _ _)|].
  case_bool_decide; [by destruct (parse_recovery _) as [[[]]|]|].
  case_bool_decide; [by destruct (sc_decode_address _)|]. case_bool_decide; [|done].
  destruct (sc_decode_address _) as [a|] eqn:Ed; [|done]. intros [= ->].
  destruct (len (call_input c) <? 4); [done|]. rw /mbind_ /mlift /=.
  by repeat (rw bool_decide_false; [done|]); rw bool_decide_true.
Qed.

(** ** An open proposal *)

Section open.
Context (w : W) (v : view) (history : list call) (account : Address).
Context (Hw : models w v) (Hag : agrees (meta v) history).
Let r := recovery_of history account.

Lemma ballot_accepted c config pubkey algo :
  action_of c = Voted account pubkey algo → (len (call_input c) <? 4) = false →
  r_config r = Some config → call_caller c ∈ guardians config →
  (r_votes r ≠ [] → r_pubkey r = pubkey ∧ r_algo r = algo) →
  wp (run_call c) (λ _ _, True) (λ e _, is_io e) w.
Proof.
  intros Ha Hlen Hc Hg Hsame. destruct (run_call_voted w c _ _ _ Ha) as [Hp Hr].
  rw /wp Hr Hlen. apply wp_bind. eapply wp_mono; [eapply submit_accepted; [done|done| |done|]|done|done].
  - rw (agrees_config _ _ _ (Hag account)). exact Hc.
  - intros p Hp'. destruct (agrees_open _ _ _ _ (Hag account) Hp') as (? & _ & _ & -> & Hne). by apply Hsame.
Qed.

(** A vote that succeeds is for the open proposal. *)
Lemma ballot_matches c pubkey algo w' o : action_of c = Voted account pubkey algo → r_votes r ≠ [] →
  run_call c w = (w', Ok o) → pubkey = r_pubkey r ∧ algo = r_algo r.
Proof.
  intros Ha Hne Hrun. destruct (run_call_voted w c _ _ _ Ha) as [Hp Hr]. rw Hrun in Hr.
  destruct (len (call_input c) <? 4); [done|]. symmetry in Hr. apply bind_run in Hr as (? & w3 & Hr & _).
  pose proof (wp_run _ _ _ _ _ _ Hr (submit_recovery_ok w v _ _ _ Hw)) as (a & pk & al & config & Hp' & _ & _ & Hm).
  rw Hp in Hp'. injection Hp' as <- <- <-. destruct Hm as (Hpk & Hal & _).
  pose proof (agrees_proposal _ _ _ (Hag account)) as Hst. fold r in Hst.
  destruct (r_votes r); [done|]. destruct Hst as (? & _ & _ & Hst). rw Hst in Hpk, Hal. by split.
Qed.

(** Below the threshold nothing is executed. *)
Lemma execution_matured c w' o : call_ok c → action_of c = Executed account → run_call c w = (w', Ok o) →
  ∃ config, r_config r = Some config ∧ threshold config <= len (r_votes r).
Proof.
  intros Hok Ha Hrun.
  destruct (executed_installs w v c account w' o Hw Hok Ha Hrun) as (p & now & alg & ? & Hst & Hmat & _).
  destruct (agrees_open _ _ _ _ (Hag account) Hst) as (config & Hcfg & _ & -> & _). exists config. split; [done|].
  destruct (agrees_config_ok _ _ _ (Hag account) config Hcfg) as [_ _ Hthr _ _]. revert Hmat. rw /maturity /=.
  destruct (_ !! _) as [[g head]|] eqn:El; [|done]. apply lookup_lt_Some in El. rw /len /r. lia.
Qed.

(** Only the account cancels. *)
Lemma cancel_own c w' o : action_of c = Cancelled account → run_call c w = (w', Ok o) → call_caller c = account.
Proof.
  intros Ha Hrun. pose proof (run_call_cancelled w c account Ha) as Hr. rw Hrun in Hr.
  destruct (len (call_input c) <? 4); [done|]. symmetry in Hr. apply bind_run in Hr as (? & w3 & Hr & _).
  by destruct (wp_run _ _ _ _ _ _ Hr (cancel_recovery_ok w v _ _ Hw)).
Qed.

(** The vote a call adds. *)
Definition ballot_of (r : recovery) (c : call) (p : Address * Z) : Prop :=
  action_of c = Voted account (r_pubkey r) (r_algo r) ∧ p = (call_caller c, head_of c).

Lemma open_step c w' o : call_caller c ≠ account → action_of c ≠ Executed account → r_votes r ≠ [] →
  run_call c w = (w', Ok o) →
  record_call account r c = r ∨
  ∃ p, ballot_of r c p ∧ record_call account r c = MkRecovery (r_config r) (r_pubkey r) (r_algo r) (r_votes r ++ [p]).
Proof.
  intros Hc Hx Hne Hrun. rw /record_call. destruct (action_of c) as [config|a pubkey algo|a|a|] eqn:Ha.
  - case_decide; [done|by left].
  - case_decide; [|by left]. subst a. case_decide; [by left|right].
    destruct (ballot_matches c pubkey algo w' o Ha Hne Hrun) as [-> ->]. by eexists.
  - case_decide; [by subst|by left].
  - case_decide; [|by left]. subst a. by pose proof (cancel_own c w' o Ha Hrun).
  - by left.
Qed.

(** How a call fares while the proposal [r] is open and [r'] is what it becomes:
    votes for another key and executions fail, a guardian's vote is counted. *)
Definition answered (r r' : recovery) (c : call) (res : sc_result SystemContractOutcome) : Prop :=
  (∀ pk al, action_of c = Voted account pk al → ¬ (pk = r_pubkey r ∧ al = r_algo r) → is_ok res = false) ∧
  (action_of c = Executed account → is_ok res = false) ∧
  (∀ config, action_of c = Voted account (r_pubkey r) (r_algo r) → (len (call_input c) <? 4) = false →
     r_config r = Some config → call_caller c ∈ guardians config →
     is_ok res = true ∧ call_caller c ∈ (r_votes r').*1).
Definition more_votes (r : recovery) (l : list (Address * Z)) : recovery :=
  MkRecovery (r_config r) (r_pubkey r) (r_algo r) (r_votes r ++ l).

Lemma more_votes_nil r0 : more_votes r0 [] = r0.
Proof. destruct r0. by rw /more_votes /= app_nil_r. Qed.

(** No call executes the recovery: none tries to, or the votes stay below the
    threshold. *)
Definition no_execution (r : recovery) (calls : list call) : Prop :=
  (∀ c, c ∈ calls → action_of c ≠ Executed account) ∨
  (∃ B config, r_config r = Some config ∧ len B < threshold config ∧ (∀ g, g ∈ (r_votes r).*1 → g ∈ B) ∧
     ∀ c, c ∈ calls → action_of c = Voted account (r_pubkey r) (r_algo r) → call_caller c ∈ B).

Lemma no_execution_fails c calls w' res : call_ok c → no_execution r (c :: calls) → action_of c = Executed account →
  run_call c w = (w', res) → is_ok res = false.
Proof.
  intros Hok Hno Ha Hrun. destruct res as [o|e]; [|done]. destruct Hno as [Hno|(B & config & Hc & Hlt & Hsub & _)].
  { by destruct (Hno c); [left|]. }
  destruct (execution_matured c w' o Hok Ha Hrun) as (config' & Hc' & Hthr).
  assert (config' = config) as -> by congruence.
  pose proof (submseteq_length _ _ (NoDup_submseteq _ _ (agrees_distinct _ _ _ (Hag account)) Hsub)) as Hle.
  rw length_fmap in Hle. fold r in Hle. unfold len in *. lia.
Qed.

Lemma open_answer c calls w' res : call_ok c → call_caller c ≠ account → no_execution r (c :: calls) → r_votes r ≠ [] →
  run_call c w = (w', res) → (∀ e, res ≠ Err (sc_Storage e)) →
  ∃ v' l, models w' v' ∧ agrees (meta v') (history ++ if is_ok res then [c] else []) ∧
    recovery_of (history ++ if is_ok res then [c] else []) account = more_votes r l ∧
    (∀ p, p ∈ l → ballot_of r c p) ∧ answered r (more_votes r l) c res.
Proof.
  intros Hok Hc Hno Hne Hrun Hio.
  pose proof (no_execution_fails c calls w' res Hok Hno) as Hx.
  pose proof (wp_run _ _ _ _ _ _ Hrun (run_call_agrees w v c history Hw Hag Hok)) as Hstep.
  assert (Hacc : ∀ config, action_of c = Voted account (r_pubkey r) (r_algo r) → (len (call_input c) <? 4) = false →
    r_config r = Some config → call_caller c ∈ guardians config → is_ok res = true).
  { intros config Ha Hlen Hcfg Hg.
    pose proof (wp_run _ _ _ _ _ _ Hrun (ballot_accepted c config _ _ Ha Hlen Hcfg Hg (λ _, conj eq_refl eq_refl))) as Hres.
    destruct res as [|e]; [done|]. destruct e; try done. by destruct (Hio e). }
  destruct res as [o|e]; cbn [is_ok].
  - destruct Hstep as (v' & Hw' & Hag'). exists v'.
    assert (Hnx : action_of c ≠ Executed account) by (intros Ha; by specialize (Hx Ha Hrun)).
    assert (Hm : ∀ pk al, action_of c = Voted account pk al → pk = r_pubkey r ∧ al = r_algo r).
    { intros pk al Ha. by eapply ballot_matches. }
    rw recovery_of_snoc. fold r. destruct (open_step c w' o Hc Hnx Hne Hrun) as [Hr|(p & Hp & Hr)]; rw Hr.
    + exists []. rw more_votes_nil. split_and!; [done..|set_solver|]. split_and!; [by intros; exfalso; eauto|done|].
      intros config Ha _ _ _. split; [done|]. revert Hr. rw /record_call Ha. case_decide; [|done]. case_decide; [done|].
      intros Hr. exfalso. revert Hr. clear. intros [= Hr]%(f_equal r_votes). simpl in Hr.
      apply (f_equal length) in Hr. rw length_app /= in Hr. lia.
    + exists [p]. split_and!; [done..|set_solver|]. split_and!; [by intros; exfalso; eauto|done|].
      intros config Ha _ _ _. split; [done|]. destruct Hp as [_ ->]. rw fmap_app. set_solver.
  - exists v, []. rw !app_nil_r more_votes_nil. split_and!; [|done|done|set_solver|].
    + destruct e; try done. by destruct (Hio e).
    + split_and!; [done|done|]. intros config Ha Hlen Hcfg Hg. by specialize (Hacc config Ha Hlen Hcfg Hg).
Qed.
End open.

Lemma successes_cons c calls res results :
  successes (c :: calls) (res :: results) = (if is_ok res then [c] else []) ++ successes calls results.
Proof.
  rw /successes /=. destruct (is_ok res) eqn:E; [by rw filter_cons_True|by rw filter_cons_False //= E].
Qed.

Lemma more_votes_app r l1 l2 : more_votes (more_votes r l1) l2 = more_votes r (l1 ++ l2).
Proof. by rw /more_votes /= app_assoc. Qed.

Lemma no_execution_tail account r c calls l : no_execution account r (c :: calls) →
  (∀ p, p ∈ l → ballot_of account r c p) → no_execution account (more_votes r l) calls.
Proof.
  intros [Hno|(B & config & Hc & Hlt & Hsub & Hin)] Hl; [left; intros c' Hc'; apply Hno; by right|].
  right. exists B, config. split_and!; [done|done| |intros c' Hc'; apply Hin; by right].
  intros g. rw fmap_app elem_of_app. intros [Hg|(p & -> & Hp)%list_elem_of_fmap]; [by apply Hsub|].
  destruct (Hl p Hp) as [Ha ->]. apply Hin; [by left|done].
Qed.

(** A run while a proposal is open. *)
Lemma open_run account calls w v history w' results :
  models w v → agrees (meta v) history → Forall call_ok calls → (∀ c, c ∈ calls → call_caller c ≠ account) →
  let r := recovery_of history account in
  no_execution account r calls → r_votes r ≠ [] → run_calls calls w = (w', results) → no_io_failure results →
  ∃ v' l, models w' v' ∧ agrees (meta v') (history ++ successes calls results) ∧
    recovery_of (history ++ successes calls results) account = more_votes r l ∧
    (∀ p, p ∈ l → ∃ c, c ∈ calls ∧ ballot_of account r c p) ∧
    Forall2 (answered account r (more_votes r l)) calls results.
Proof.
  revert w v history results. induction calls as [|c calls IH]; intros w v history results Hw Hag Hok Hc r Hno Hne; simpl.
  { intros [= <- <-] _. exists v, []. rw app_nil_r more_votes_nil. split_and!; [done..|set_solver|constructor]. }
  apply Forall_cons in Hok as [Hcok Hok]. destruct (run_call c w) as [w1 res] eqn:Er.
  destruct (run_calls calls w1) as [w2 rs] eqn:Ers. intros [= <- <-] Hio.
  destruct (open_answer w v history account Hw Hag c calls w1 res) as (v1 & l1 & Hw1 & Hag1 & Hr1 & Hl1 & Ha1); try done.
  { apply Hc. by left. } { intros e ->. apply (Hio e). by left. }
  destruct (IH w1 v1 _ rs Hw1 Hag1 Hok) as (v2 & l2 & Hw2 & Hag2 & Hr2 & Hl2 & Ha2); clear IH.
  { intros c' Hc'. apply Hc. by right. } { rw Hr1. by eapply no_execution_tail. }
  { rw Hr1 /=. intros [? _]%app_eq_nil. done. } { done. } { intros e He. apply (Hio e). by right. }
  rw Hr1 in Hr2, Hl2, Ha2. rw more_votes_app in Hr2, Ha2. fold r in Hr2, Hl2, Ha2.
  exists v2, (l1 ++ l2). rw successes_cons app_assoc. split_and!; [done..| |].
  - intros p [Hp|Hp]%elem_of_app; [exists c; split; [by left|by apply Hl1]|].
    destruct (Hl2 p Hp) as (c' & ? & ?). exists c'. split; [by right|done].
  - constructor; [|done]. destruct Ha1 as (? & ? & Hv). split_and!; [done..|]. intros config Ha Hlen Hcfg Hg.
    destruct (Hv config Ha Hlen Hcfg Hg) as [? Hin]. split; [done|]. revert Hin. simpl. rw !fmap_app. set_solver.
Qed.

(** ** Elections *)

(** A guardian's call with the calldata of a vote for this key. *)
Definition ballot (account : Address) (config : GuardianConfig) (pubkey : list Z) (algo : SignatureType) (c : call) : Prop :=
  call_input c = encode_submit_recovery_calldata account pubkey (sig_type_as_u8 algo) ∧
  call_caller c ∈ guardians config.

Lemma ballot_action account config pubkey algo c : key_ok pubkey → ballot account config pubkey algo c →
  action_of c = Voted account pubkey (sig_type_as_u8 algo) ∧ (len (call_input c) <? 4) = false.
Proof.
  intros Hk [Hi _]. pose proof (recovery_calldata account pubkey _ _ Hk (sig_type_roundtrip algo)) as Hd.
  rw -Hi in Hd. split; [by apply action_voted|]. destruct Hd as [Hs' _]. by apply take_selector in Hs' as [_ ?].
Qed.

Lemma execution_action account c : call_input c = encode_execute_recovery_calldata account →
  action_of c = Executed account ∧ (len (call_input c) <? 4) = false.
Proof.
  intros Hi. assert (Hd : decodes_to (call_input c) EXECUTE_RECOVERY_SELECTOR sc_decode_address account).
  { rw Hi. apply decodes_to_app; [by apply (in_selectors 16)|].
    rw -{1}(app_nil_r (as_bytes account)). apply decode_address_word. }
  split; [by apply action_executed|]. destruct Hd as [Hs' _]. by apply take_selector in Hs' as [_ ?].
Qed.

(** The first vote opens the proposal. *)
Lemma first_ballot w v history account config pubkey algo c w' res :
  models w v → agrees (meta v) history → call_ok c → r_config (recovery_of history account) = Some config →
  r_votes (recovery_of history account) = [] → key_ok pubkey → ballot account config pubkey algo c →
  run_call c w = (w', res) → (∀ e, res ≠ Err (sc_Storage e)) →
  is_ok res = true ∧ ∃ v', models w' v' ∧ agrees (meta v') (history ++ [c]) ∧
    recovery_of (history ++ [c]) account =
      MkRecovery (Some config) pubkey (sig_type_as_u8 algo) [(call_caller c, head_of c)].
Proof.
  intros Hw Hag Hok Hc Hv Hk Hb Hrun Hio. destruct (ballot_action _ _ _ _ _ Hk Hb) as [Ha Hlen].
  pose proof (wp_run _ _ _ _ _ _ Hrun (run_call_agrees w v c history Hw Hag Hok)) as Hstep.
  pose proof (wp_run _ _ _ _ _ _ Hrun (ballot_accepted w v history account Hw Hag c config pubkey _ Ha Hlen Hc (proj2 Hb)
    ltac:(by rw Hv))) as Hacc.
  destruct res as [o|e]; [|destruct (not_io e Hacc Hio)]. split; [done|].
  destruct Hstep as (v' & Hw' & Hag'). exists v'. split_and!; [done..|].
  rw recovery_of_snoc /record_call Ha decide_True // Hv Hc. simpl. done.
Qed.

Lemma votes_cover (votes : list (Address * Z)) (gs : list Address) :
  NoDup gs → (∀ g, g ∈ gs → g ∈ votes.*1) → len gs <= len votes.
Proof.
  intros Hnd Hin. pose proof (submseteq_length _ _ (NoDup_submseteq _ _ Hnd Hin)) as Hle.
  rw length_fmap in Hle. unfold len. lia.
Qed.

(** The proposal of a history with enough votes, the last of which was before
    [limit], is mature by then. *)
Lemma proposal_mature v history account config pubkey algo votes limit now :
  agrees (meta v) history → recovery_of history account = MkRecovery (Some config) pubkey algo votes →
  threshold config <= len votes → Forall (λ p, p.2 <= limit) votes → sat_add limit (timelock config) <= now →
  ∃ mat, stored (meta v) (recovery_proposal_key account) = Some (MkProposal pubkey algo votes.*1 mat) ∧ mat ≠ 0 ∧ mat <= now.
Proof.
  intros Hag Hr Hthr Hlim Hle. pose proof (Hag account) as Hat. rw Hr in Hat. clear Hag Hr.
  destruct Hat as [_ Hok _ Hheads Hp]. cbn [r_votes r_config r_pubkey r_algo] in *.
  destruct (Hok config eq_refl) as [_ _ Ht _ Htl]. clear Hok.
  destruct (lookup_lt_is_Some_2 votes (Z.to_nat (threshold config) - 1)) as [[g head] El]; [unfold len in *; lia|].
  pose proof (Forall_lookup_1 _ _ _ _ Hlim El) as Hhead. pose proof (Forall_lookup_1 _ _ _ _ Hheads El) as Hh0.
  exists (sat_add head (timelock config)). split.
  - clear -Hp El. destruct votes as [|p votes]; [by rw lookup_nil in El|].
    destruct Hp as (config' & Heq & _ & Hp). injection Heq as <-. rw Hp /maturity El. reflexivity.
  - clear -Htl Hhead Hh0 Hle. cbn [snd] in *. assert (0 < u64_max) by done.
    unfold sat_add, MIN_RECOVERY_TIMELOCK in *. lia.
Qed.

(** Such a proposal is executed. *)
Lemma mature_executed w v account pubkey algo vs mat x now w' res :
  models w v → key_ok pubkey →
  stored (meta v) (recovery_proposal_key account) = Some (MkProposal pubkey (sig_type_as_u8 algo) vs mat) →
  mat ≠ 0 → mat <= now → call_ok x → action_of x = Executed account → (len (call_input x) <? 4) = false →
  head_number (call_env x) = Ok now → run_call x w = (w', res) → (∀ e, res ≠ Err (sc_Storage e)) →
  ∃ o v', res = Ok o ∧ models w' v' ∧ meta v' !! pubkey_key account = Some pubkey ∧
    pq_pubkey_hash (account_of v' account) = bound_hash (call_env x) (call_block x) pubkey algo.
Proof.
  intros Hw Hk Hst Hm Hle Hx Ha Hlen Hnow Hrun Hio. pose proof (call_target x Hx account Ha) as Hknown.
  assert (Hacc : wp (run_call x) (λ _ _, True) (λ e _, is_io e) w).
  { rw /wp (run_call_executed w x account Ha) Hlen. apply wp_bind.
    eapply wp_mono; [eapply execute_accepted; [done|done|exact Hst|done|exact Hnow|done| |apply sig_type_roundtrip]|done|done].
    cbn [new_pubkey]. destruct Hk as [Hlo _]. by destruct pubkey. }
  pose proof (wp_run _ _ _ _ _ _ Hrun Hacc) as Hres.
  destruct res as [o|e]; [|destruct (not_io e Hres Hio)]. exists o.
  destruct (executed_installs w v x account w' o Hw Hx Ha Hrun)
    as (p & ? & algo' & v2 & Hst' & _ & _ & _ & Halgo & Hw2 & Hpk & Hh).
  rw Hst in Hst'. injection Hst' as <-. cbn [new_algo new_pubkey] in *. rw sig_type_roundtrip in Halgo.
  injection Halgo as <-. by exists v2.
Qed.

(** Every guardian that voted is counted. *)
Lemma ballots_counted account config pubkey algo r r' calls results c :
  Forall2 (answered account r r') calls results → r_config r = Some config → r_pubkey r = pubkey →
  r_algo r = sig_type_as_u8 algo → key_ok pubkey → c ∈ calls → ballot account config pubkey algo c →
  call_caller c ∈ (r_votes r').*1.
Proof.
  intros Hans Hcfg Hpk Hal Hk Hc Hb. destruct (ballot_action _ _ _ _ _ Hk Hb) as [Ha Hlen].
  apply list_elem_of_lookup in Hc as [i Hi]. destruct (Forall2_lookup_l _ _ _ _ _ Hans Hi) as (res & _ & _ & _ & Hv).
  rw -Hpk -Hal in Ha. by destruct (Hv config Ha Hlen Hcfg (proj2 Hb)).
Qed.

(** C13: guardians can recover an account.  Start without guardians and proposals
    and let anyone make any calls; then let [config] be the guardians the account
    has appointed, and no proposal be open.  If one of them votes for a key, and
    then among any further calls, by anyone but the account and other than
    executions for it, enough distinct guardians to reach the threshold have voted
    for that key, then [executeRecovery], sent by anyone once the timelock has
    passed since those calls, succeeds and installs the key, unless the store
    fails.  The calls are the ones the encoders build. *)
Theorem recovery_live w0 v0 calls results w1 account config pubkey algo first rest gs limit results' w2 x now w3 res :
  models w0 v0 → (∀ a, stored (A := GuardianConfig) (meta v0) (guardian_config_key a) = None) →
  (∀ a, stored (A := RecoveryProposal) (meta v0) (recovery_proposal_key a) = None) →
  Forall call_ok calls → run_calls calls w0 = (w1, results) → no_io_failure results →
  r_config (recovery_of (successes calls results) account) = Some config →
  r_votes (recovery_of (successes calls results) account) = [] → key_ok pubkey →
  Forall call_ok (first :: rest) →
  (∀ c, c ∈ first :: rest → call_caller c ≠ account ∧ action_of c ≠ Executed account ∧ head_of c <= limit) →
  ballot account config pubkey algo first → NoDup gs → threshold config <= len gs →
  (∀ g, g ∈ gs → ∃ c, c ∈ first :: rest ∧ ballot account config pubkey algo c ∧ call_caller c = g) →
  run_calls (first :: rest) w1 = (w2, results') → no_io_failure results' →
  call_ok x → call_input x = encode_execute_recovery_calldata account → head_number (call_env x) = Ok now →
  sat_add limit (timelock config) <= now → run_call x w2 = (w3, res) → (∀ e, res ≠ Err (sc_Storage e)) →
  ∃ o v3, res = Ok o ∧ models w3 v3 ∧ meta v3 !! pubkey_key account = Some pubkey ∧
    pq_pubkey_hash (account_of v3 account) = bound_hash (call_env x) (call_block x) pubkey algo.
Proof.
  intros Hw Hg0 Hp0 Hok Hrun Hio Hcfg Hv Hk [Hfok Hrok]%Forall_cons_1 Hcalls Hfirst Hnd Hthr Hgs Hrun2 Hio2 Hx Hxi Hnow Hle
    Hrun3 Hio3.
  destruct (run_calls_agrees _ _ _ _ _ _ Hw (agrees_nil _ Hg0 Hp0) Hok Hrun Hio) as (v1 & Hw1 & Hag1). cbn [app] in Hag1.
  simpl in Hrun2. destruct (run_call first w1) as [wf resf] eqn:Ef. destruct (run_calls rest wf) as [wr resr] eqn:Er.
  injection Hrun2 as -> <-.
  destruct (first_ballot w1 v1 _ account config pubkey algo first wf resf Hw1 Hag1 Hfok Hcfg Hv Hk Hfirst Ef)
    as (_ & vf & Hwf & Hagf & Hrf); [intros e ->; apply (Hio2 e); by left|].
  destruct (open_run account rest wf vf _ w2 resr Hwf Hagf Hrok) as (v2 & l & Hw2 & Hag2 & Hr2 & Hl & Hans).
  { intros c Hc. by apply Hcalls; right. } { left. intros c Hc. by apply Hcalls; right. }
  { by rw Hrf. } { done. } { intros e He. apply (Hio2 e). by right. }
  rw Hrf in Hr2, Hl, Hans. rw /more_votes in Hr2. cbn [r_config r_pubkey r_algo r_votes app] in Hr2.
  destruct (proposal_mature v2 _ account config pubkey _ _ limit now Hag2 Hr2) as (mat & Hst & Hm0 & Hmle).
  - transitivity (len gs); [done|]. apply votes_cover; [done|].
    intros g Hg. destruct (Hgs g Hg) as (c & Hc & Hb & <-). apply elem_of_cons in Hc as [->|Hc]; [by left|].
    by apply (ballots_counted _ _ _ _ _ _ _ _ _ Hans eq_refl eq_refl eq_refl Hk Hc Hb).
  - constructor; [by apply Hcalls; left|]. apply Forall_forall. intros p Hp. destruct (Hl p Hp) as (c & Hc & _ & ->).
    by apply Hcalls; right.
  - exact Hle.
  - destruct (execution_action account x Hxi) as [Hxa Hlen]. clear Hxi. by eapply mature_executed.
Qed.

(** C38: one guardian can block the others.  Let a proposal for some key be open,
    and let the guardians [B] that voted or ever vote for it be fewer than the
    threshold: one guardian is enough where the threshold is two.  Then whatever
    anyone but the account does, every vote for another key fails and every
    execution fails: only the account can cancel, so an owner who has lost the key
    cannot be helped, although the code asks the guardians to cancel first. *)
Theorem rival_key_blocks w0 v0 calls results w1 account config B more results' w2 :
  models w0 v0 → (∀ a, stored (A := GuardianConfig) (meta v0) (guardian_config_key a) = None) →
  (∀ a, stored (A := RecoveryProposal) (meta v0) (recovery_proposal_key a) = None) →
  Forall call_ok calls → run_calls calls w0 = (w1, results) → no_io_failure results →
  let r := recovery_of (successes calls results) account in
  r_config r = Some config → r_votes r ≠ [] → len B < threshold config → (∀ g, g ∈ (r_votes r).*1 → g ∈ B) →
  Forall call_ok more → (∀ c, c ∈ more → call_caller c ≠ account) →
  (∀ c, c ∈ more → action_of c = Voted account (r_pubkey r) (r_algo r) → call_caller c ∈ B) →
  run_calls more w1 = (w2, results') → no_io_failure results' →
  ∀ i c res, more !! i = Some c → results' !! i = Some res →
    action_of c = Executed account ∨
    (∃ pk al, action_of c = Voted account pk al ∧ ¬ (pk = r_pubkey r ∧ al = r_algo r)) →
    is_ok res = false.
Proof.
  intros Hw Hg0 Hp0 Hok Hrun Hio r Hcfg Hv HB Hsub Hmok Hne Hin Hrun2 Hio2 i c res Hc Hres Hact.
  destruct (run_calls_agrees _ _ _ _ _ _ Hw (agrees_nil _ Hg0 Hp0) Hok Hrun Hio) as (v1 & Hw1 & Hag1). cbn [app] in Hag1.
  destruct (open_run account more w1 v1 _ w2 results' Hw1 Hag1 Hmok Hne) as (v2 & l & _ & _ & _ & _ & Hans); [|done..|].
  { right. by exists B, config. }
  destruct (Forall2_lookup_lr _ _ _ _ _ _ Hans Hc Hres) as (Hrival & Hexec & _).
  destruct Hact as [Ha|(pk & al & Ha & Hdiff)]; [by apply Hexec|by eapply Hrival].
Qed.
End live.

(** ** Examples *)

#[local] Existing Instances config_json proposal_json config_json_laws proposal_json_laws plain_hashes.

Definition demo_config : GuardianConfig := MkGuardianConfig [demo_guardian 1; demo_guardian 2] 2 100.
Lemma demo_ballot i key head : demo_guardian i ∈ guardians demo_config →
  ballot demo_owner demo_config [key] Dilithium3 (demo_vote i key head).
Proof. intros Hi. split; [reflexivity|exact Hi]. Qed.
Lemma demo_guardians_in : demo_guardian 1 ∈ guardians demo_config ∧ demo_guardian 2 ∈ guardians demo_config.
Proof. split; [left|right; left]. Qed.
Lemma demo_vote_outsider i key head : i = 1 ∨ i = 2 → call_caller (demo_vote i key head) ≠ demo_owner.
Proof. intros [-> | ->]; apply (bool_decide_unpack _); vm_compute; exact I. Qed.
Lemma demo_key_ok key : key_ok [key].
Proof. split; [reflexivity|discriminate]. Qed.
Lemma demo_vote_action i key head : i = 1 ∨ i = 2 →
  action_of (demo_vote i key head) = Voted demo_owner [key] (sig_type_as_u8 Dilithium3).
Proof.
  intros Hi. apply (ballot_action demo_owner demo_config [key] Dilithium3); [apply demo_key_ok|]. apply demo_ballot.
  destruct Hi as [-> | ->]; apply demo_guardians_in.
Qed.

(** Both guardians vote at heads 10 and 12; the key is installed at head 112. *)
Lemma recovery_live_witness :
  let w1 := (demo_run [demo_appoint]).1 in
  let w2 := (run_calls [demo_vote 1 7 10; demo_vote 2 7 12] w1).1 in
  ∃ o v3, (run_call (demo_execute 112) w2).2 = Ok o ∧ models (run_call (demo_execute 112) w2).1 v3 ∧
    meta v3 !! pubkey_key demo_owner = Some [7].
Proof.
  intros w1 w2. set (calls := [demo_vote 1 7 10; demo_vote 2 7 12]).
  destruct (recovery_live demo_view demo_view [demo_appoint] (demo_run [demo_appoint]).2 w1 demo_owner demo_config [7]
    Dilithium3 (demo_vote 1 7 10) [demo_vote 2 7 12] (guardians demo_config) 12 (run_calls calls w1).2 w2
    (demo_execute 112) 112 (run_call (demo_execute 112) w2).1 (run_call (demo_execute 112) w2).2)
    as (o & v3 & Ho & Hw3 & Hpk & _).
  - apply demo_view_models.
  - intros a. apply demo_view_empty.
  - intros a. apply demo_view_empty.
  - apply calls_check_ok. vm_compute. reflexivity.
  - exact (demo_run_eq _).
  - apply no_io_check. vm_compute. reflexivity.
  - apply (bool_decide_unpack _). vm_compute. exact I.
  - vm_compute. reflexivity.
  - apply demo_key_ok.
  - apply calls_check_ok. vm_compute. reflexivity.
  - intros c [->|[->|[]%elem_of_nil]%elem_of_cons]%elem_of_cons; (split_and!;
      [apply demo_vote_outsider; auto|rw demo_vote_action; [auto|discriminate]|vm_compute; discriminate]).
  - apply demo_ballot, demo_guardians_in.
  - apply (bool_decide_unpack _). vm_compute. exact I.
  - vm_compute. discriminate.
  - intros g [->|[->|[]%elem_of_nil]%elem_of_cons]%elem_of_cons.
    + exists (demo_vote 1 7 10). split_and!; [left|apply demo_ballot, demo_guardians_in|reflexivity].
    + exists (demo_vote 2 7 12). split_and!; [right; left|apply demo_ballot, demo_guardians_in|reflexivity].
  - apply surjective_pairing.
  - apply no_io_check. vm_compute. reflexivity.
  - apply call_check_ok. vm_compute. reflexivity.
  - reflexivity.
  - reflexivity.
  - vm_compute. discriminate.
  - apply surjective_pairing.
  - intros e He. assert (Hs' : is_storage_failure (run_call (demo_execute 112) w2).2 = false); [vm_compute; reflexivity|].
    rw He in Hs'. discriminate Hs'.
  - exists o, v3. exact (conj Ho (conj Hw3 Hpk)).
Defined.

(** One of the two guardians has voted for key 7: the other's vote for key 8 and
    the execution fail. *)
Lemma rival_key_blocks_witness :
  let w1 := (demo_run [demo_appoint; demo_vote 1 7 10]).1 in
  Forall (λ res, is_ok res = false) (run_calls [demo_vote 2 8 12; demo_execute 300] w1).2.
Proof.
  intros w1. set (calls := [demo_appoint; demo_vote 1 7 10]). set (more := [demo_vote 2 8 12; demo_execute 300]).
  apply Forall_lookup. intros i res Hres.
  assert (Hlen : length (run_calls more w1).2 = 2%nat) by (vm_compute; reflexivity).
  destruct (lookup_lt_is_Some_2 more i) as [c Hc]; [apply lookup_lt_Some in Hres; rw Hlen in Hres; exact Hres|].
  assert (Hr : recovery_of (successes calls (demo_run calls).2) demo_owner =
    MkRecovery (Some demo_config) [7] (sig_type_as_u8 Dilithium3) [(demo_guardian 1, 10)]) by (vm_compute; reflexivity).
  assert (Hx : action_of (demo_execute 300) = Executed demo_owner) by (by apply execution_action).
  pose proof (rival_key_blocks demo_view demo_view calls (demo_run calls).2 w1 demo_owner demo_config [demo_guardian 1]
    more (run_calls more w1).2 (run_calls more w1).1) as H. cbv zeta in H. rw Hr in H.
  eapply H; [..|exact Hc|exact Hres|]; clear H.
  - apply demo_view_models.
  - intros a. apply demo_view_empty.
  - intros a. apply demo_view_empty.
  - apply calls_check_ok. vm_compute. reflexivity.
  - exact (demo_run_eq _).
  - apply no_io_check. vm_compute. reflexivity.
  - reflexivity.
  - discriminate.
  - reflexivity.
  - intros g Hg. exact Hg.
  - apply calls_check_ok. vm_compute. reflexivity.
  - intros c' [->|[->|[]%elem_of_nil]%elem_of_cons]%elem_of_cons; apply (bool_decide_unpack _); vm_compute; exact I.
  - intros c' [->|[->|[]%elem_of_nil]%elem_of_cons]%elem_of_cons; [rw demo_vote_action; [auto|discriminate]|rw Hx; discriminate].
  - apply surjective_pairing.
  - apply no_io_check. vm_compute. reflexivity.
  - destruct i as [|[|]]; [right|left|discriminate Hc].
    2:{ rw -(Some_inj (demo_execute 300) c Hc). exact Hx. }
    rw -(Some_inj (demo_vote 2 8 12) c Hc). exists [8], (sig_type_as_u8 Dilithium3). split; [apply demo_vote_action; auto|]. intros [E _]. discriminate E.
Defined.
