(* ===== verification/BlockCodec.v ===== *)
(** * Blocks on the wire and in storage

    crates/core/src/reward.rs: system transactions, which a block carries as
    JSON; crates/core/src/witness.rs: transactions without their signatures, the
    witnesses that hold the signatures, and the root over the witnesses;
    crates/core/src/block.rs: the RLP forms of headers, blocks and stripped
    blocks, and the split of a block into its stripped form and its witnesses.
    The decoders accept older forms too: headers without a witness root, bodies
    without system transactions.

    crates/core/src/log.rs and receipt.rs: what a transaction leaves behind, and
    its RLP form.  Receipts written before addresses had 32 bytes carry a
    20-byte contract address; the decoder still takes them. *)

From S2P Require Import Prelude Primitives Block Fee Rlp Transaction TxCodec TxValidation BTree KvStore.

(** ** System transactions *)

Inductive SystemTxKind := BlockGasReward | StarkReward.
Definition kind_as_u8 (k : SystemTxKind) : Z := match k with BlockGasReward => 1 | StarkReward => 2 end.

Record SystemTransaction := MkSystemTransaction {
  sys_kind : SystemTxKind;
  sys_chain_id : Z;
  sys_block_number : Z;
  sys_tx_index : Z;
  sys_from : Address;
  sys_to : Address;
  sys_value : Z;
  sys_source_hash : ShellHash;
  sys_layer : option Z;
  sys_original_size : option Z;
  sys_compressed_size : option Z;
  sys_proof_payload : option bytes;
}.

Definition block_gas_reward (chain_id block_number tx_index : Z) (recipient : Address) (value : Z)
    (parent_hash : ShellHash) : SystemTransaction :=
  MkSystemTransaction BlockGasReward chain_id block_number tx_index ZERO recipient value parent_hash
    None None None None.

Record StarkRewardParams := MkStarkRewardParams {
  srp_chain_id : Z;
  srp_block_number : Z;
  srp_tx_index : Z;
  srp_recipient : Address;
  srp_value : Z;
  srp_source_hash : ShellHash;
  srp_layer : Z;
  srp_original_size : Z;
  srp_compressed_size : Z;
  srp_proof_payload : bytes;
}.
Definition stark_reward (p : StarkRewardParams) : SystemTransaction :=
  MkSystemTransaction StarkReward (srp_chain_id p) (srp_block_number p) (srp_tx_index p) ZERO
    (srp_recipient p) (srp_value p) (srp_source_hash p) (Some (srp_layer p))
    (Some (srp_original_size p)) (Some (srp_compressed_size p)) (Some (srp_proof_payload p)).

Definition is_compression_valid (tx : SystemTransaction) : bool :=
  match sys_original_size tx, sys_compressed_size tx with
  | Some original, Some compressed => sat_mul compressed 2 <? original
  | _, _ => true
  end.

(** [b"shell:system-tx:v1"] *)
Definition SYSTEM_TX_DOMAIN : bytes :=
  [115; 104; 101; 108; 108; 58; 115; 121; 115; 116; 101; 109; 45; 116; 120; 58; 118; 49].

Definition system_tx_hash `{Hashes} (tx : SystemTransaction) : ShellHash :=
  keccak256 (SYSTEM_TX_DOMAIN ++ [kind_as_u8 (sys_kind tx)] ++ be_bytes 8 (sys_chain_id tx) ++
    be_bytes 8 (sys_block_number tx) ++ be_bytes 4 (sys_tx_index tx) ++ as_bytes (sys_from tx) ++
    as_bytes (sys_to tx) ++ be_bytes 32 (sys_value tx) ++ as_bytes (sys_source_hash tx) ++
    be_bytes 4 (unwrap_or 0 (sys_layer tx)) ++ be_bytes 8 (unwrap_or 0 (sys_original_size tx)) ++
    be_bytes 8 (unwrap_or 0 (sys_compressed_size tx)) ++
    match sys_proof_payload tx with
    | Some payload => be_bytes 8 (len payload) ++ payload
    | None => []
    end).

(** ** Records *)

Record StrippedTransaction := MkStripped {
  str_from : Address;
  str_tx : Transaction;
  str_aa_bundle : option AaBundle;
}.
Definition stripped_new (from : Address) (tx : Transaction) : StrippedTransaction :=
  MkStripped from tx None.
Definition stripped_with_aa_bundle (from : Address) (tx : Transaction) (b : AaBundle) :
    result StrippedTransaction string :=
  if negb (tx_type tx =? AA_BUNDLE_TX_TYPE)
  then Err "StrippedTransaction::with_aa_bundle: tx.tx_type must equal AA_BUNDLE_TX_TYPE"
  else Ok (MkStripped from tx (Some b)).

Record TxWitness := MkTxWitness {
  w_signature : PQSignature;
  w_pubkey : option bytes;
}.
Record WitnessBundle := MkWitnessBundle { witnesses : list TxWitness }.

(** [Block] of crates/core with its transactions. *)
Record FullBlock := MkFullBlock {
  fb_header : BlockHeader;
  fb_transactions : list SignedTransaction;
  fb_system_transactions : list SystemTransaction;
  fb_proposer_seal : option PQSignature;
}.
Record StrippedBlock := MkStrippedBlock {
  sb_header : BlockHeader;
  sb_transactions : list StrippedTransaction;
  sb_system_transactions : list SystemTransaction;
  sb_proposer_seal : option PQSignature;
}.

Definition block_hash `{Hashes} (b : FullBlock) : ShellHash := header_hash (fb_header b).

(** ** Splitting and joining *)

Definition pubkey_of (m : PubkeyMode) : option bytes :=
  match m with Embedded pk => Some pk | Reference => None end.
Definition strip (t : SignedTransaction) : StrippedTransaction :=
  MkStripped (st_from t) (st_tx t) (aa_bundle t).
Definition witness_of (t : SignedTransaction) : TxWitness :=
  MkTxWitness (st_signature t) (pubkey_of (pubkey_mode t)).

Definition split (b : FullBlock) : StrippedBlock * WitnessBundle :=
  (MkStrippedBlock (fb_header b) (strip <$> fb_transactions b) (fb_system_transactions b)
     (fb_proposer_seal b),
   MkWitnessBundle (witness_of <$> fb_transactions b)).

(** The signature of a transaction whose witness is gone. *)
Definition stub_sig : PQSignature := MkPQSignature Dilithium3 [].
Definition stub_signed (t : StrippedTransaction) : SignedTransaction :=
  MkSignedTransaction (str_from t) (str_tx t) stub_sig Reference (str_aa_bundle t).
Definition rejoin (t : StrippedTransaction) (w : TxWitness) : SignedTransaction :=
  MkSignedTransaction (str_from t) (str_tx t) (w_signature w)
    (match w_pubkey w with Some pk => Embedded pk | None => Reference end) (str_aa_bundle t).

Definition into_block (s : StrippedBlock) (bundle : option WitnessBundle) : FullBlock :=
  let transactions :=
    match bundle with
    | Some b =>
        if negb (length (witnesses b) =? length (sb_transactions s))%nat
        then stub_signed <$> sb_transactions s
        else zip_with rejoin (sb_transactions s) (witnesses b)
    | None => stub_signed <$> sb_transactions s
    end in
  MkFullBlock (sb_header s) transactions (sb_system_transactions s) (sb_proposer_seal s).

Section encoders.
Context {R : Rlp} {JS : Json SystemTransaction}.

(** ** Encoders *)

(** [Option<Bytes>]: absent values are written as an empty string. *)
Definition opt_proof_encode (o : option bytes) : bytes :=
  match o with Some proof => bytes_encode proof | None => bytes_encode [] end.
Definition opt_proof_length (o : option bytes) : Z :=
  match o with Some proof => bytes_length proof | None => 1 end.

Definition block_header_fields_len (h : BlockHeader) : Z :=
  sat_add (sat_add (sat_add (sat_add (sat_add (sat_add (sat_add (sat_add (sat_add (sat_add (sat_add
    (sat_add (sat_add (sat_add (sat_add (sat_add (sat_add
    (b256_length (parent_hash h)) (b256_length (state_root h))) (b256_length (transactions_root h)))
    (b256_length (receipts_root h))) (bytes_length (logs_bloom h))) (uint_length (number h)))
    (uint_length (gas_limit h))) (uint_length (gas_used h))) (uint_length (timestamp h)))
    (bytes_length (extra_data h))) (b256_length (proposer h)))
    (opt_proof_length (sig_aggregate_proof h))) (uint_length (base_fee_per_gas h)))
    (b256_length (withdrawals_root h))) (b256_length (parent_beacon_block_root h)))
    (uint_length (blob_gas_used h))) (uint_length (excess_blob_gas h)))
    (opt_address_length (witness_root h)).
(** The fields before the witness root, which older headers do not have. *)
Definition block_header_fields (h : BlockHeader) : bytes :=
  b256_encode (parent_hash h) ++ b256_encode (state_root h) ++ b256_encode (transactions_root h) ++
  b256_encode (receipts_root h) ++ bytes_encode (logs_bloom h) ++ uint_encode (number h) ++
  uint_encode (gas_limit h) ++ uint_encode (gas_used h) ++ uint_encode (timestamp h) ++
  bytes_encode (extra_data h) ++ b256_encode (proposer h) ++
  opt_proof_encode (sig_aggregate_proof h) ++ uint_encode (base_fee_per_gas h) ++
  b256_encode (withdrawals_root h) ++ b256_encode (parent_beacon_block_root h) ++
  uint_encode (blob_gas_used h) ++ uint_encode (excess_blob_gas h).
Definition block_header_encode (h : BlockHeader) : bytes :=
  list_encode (block_header_fields_len h) (block_header_fields h ++ opt_address_encode (witness_root h)).
Definition block_header_length (h : BlockHeader) : Z := list_length (block_header_fields_len h).

(** [alloy_rlp::length_of_length(n) + n], with plain [+]. *)
Definition plain_list_length (n : Z) : Z := wrapping_add (header_length true n) n.

Definition stripped_fields_len (t : StrippedTransaction) : Z :=
  sat_add (sat_add (b256_length (str_from t)) (tx_length (str_tx t)))
    (match str_aa_bundle t with Some b => sat_add 1 (bundle_length b) | None => 0 end).
Definition stripped_encode (t : StrippedTransaction) : bytes :=
  list_encode (stripped_fields_len t)
    (b256_encode (str_from t) ++ tx_encode (str_tx t) ++
     match str_aa_bundle t with Some b => AA_BUNDLE_PRESENCE_FLAG :: bundle_encode b | None => [] end).
Definition stripped_length (t : StrippedTransaction) : Z := plain_list_length (stripped_fields_len t).

(** [TxWitness::encode_parts] and its lengths. *)
Definition parts_payload_length (sig : PQSignature) (pk : option bytes) : Z :=
  wrapping_add (sig_length sig) (bytes_length (unwrap_or [] pk)).
Definition encode_parts (sig : PQSignature) (pk : option bytes) : bytes :=
  list_encode (parts_payload_length sig pk) (sig_encode sig ++ bytes_encode (unwrap_or [] pk)).
Definition parts_length (sig : PQSignature) (pk : option bytes) : Z :=
  plain_list_length (parts_payload_length sig pk).
Definition tx_witness_encode (w : TxWitness) : bytes := encode_parts (w_signature w) (w_pubkey w).
Definition tx_witness_length (w : TxWitness) : Z := parts_length (w_signature w) (w_pubkey w).

Definition witness_bundle_encode (b : WitnessBundle) : bytes :=
  list_encode (usize_sum tx_witness_length (witnesses b)) (witnesses b ≫= tx_witness_encode).
Definition witness_bundle_length (b : WitnessBundle) : Z :=
  plain_list_length (usize_sum tx_witness_length (witnesses b)).
Definition encoded_length_from_transactions (l : list SignedTransaction) : Z :=
  plain_list_length (usize_sum (λ t, parts_length (st_signature t) (pubkey_of (pubkey_mode t))) l).

(** A system transaction is a string holding its JSON form, empty if it has none. *)
Definition system_item_length (tx : SystemTransaction) : Z :=
  match to_vec tx with Ok b => bytes_length b | Err _ => 1 end.
Definition system_item_encode (tx : SystemTransaction) : bytes :=
  match to_vec tx with Ok b => bytes_encode b | Err _ => bytes_encode [] end.

Definition seal_length (o : option PQSignature) : Z :=
  match o with Some seal => sig_length seal | None => 1 end.
Definition seal_encode (o : option PQSignature) : bytes :=
  match o with Some seal => sig_encode seal | None => bytes_encode [] end.

(** Blocks and stripped blocks have the same form, up to their transactions. *)
Definition body_fields_len {T} (tlen : T → Z) (h : BlockHeader) (txs : list T)
    (sys : list SystemTransaction) (seal : option PQSignature) : Z :=
  sat_add (sat_add (sat_add (block_header_length h) (list_length (usize_sum tlen txs)))
    (list_length (usize_sum system_item_length sys))) (seal_length seal).
Definition body_encode {T} (tlen : T → Z) (tenc : T → bytes) (h : BlockHeader) (txs : list T)
    (sys : list SystemTransaction) (seal : option PQSignature) : bytes :=
  list_encode (body_fields_len tlen h txs sys seal)
    (block_header_encode h ++ list_encode (usize_sum tlen txs) (txs ≫= tenc) ++
     list_encode (usize_sum system_item_length sys) (sys ≫= system_item_encode) ++ seal_encode seal).

(** [SignedTransaction::length] *)
Definition signed_length (t : SignedTransaction) : Z := list_length (signed_fields_len t).

Definition block_fields_len (b : FullBlock) : Z :=
  body_fields_len signed_length (fb_header b) (fb_transactions b) (fb_system_transactions b)
    (fb_proposer_seal b).
Definition block_encode (b : FullBlock) : bytes :=
  body_encode signed_length signed_encode (fb_header b) (fb_transactions b)
    (fb_system_transactions b) (fb_proposer_seal b).
Definition block_length (b : FullBlock) : Z := list_length (block_fields_len b).

Definition stripped_block_fields_len (b : StrippedBlock) : Z :=
  body_fields_len stripped_length (sb_header b) (sb_transactions b) (sb_system_transactions b)
    (sb_proposer_seal b).
Definition stripped_block_encode (b : StrippedBlock) : bytes :=
  body_encode stripped_length stripped_encode (sb_header b) (sb_transactions b)
    (sb_system_transactions b) (sb_proposer_seal b).
Definition stripped_block_length (b : StrippedBlock) : Z := list_length (stripped_block_fields_len b).
End encoders.

Section decoders.
Context {R : Rlp} {JS : Json SystemTransaction}.

(** ** Decoders *)

Definition opt_proof_decode : decoder (option bytes) :=
  let! raw := bytes_decode in
  dret (if is_empty raw then None else Some raw).

(** Older headers end before the witness root. *)
Definition decode_witness_root (end_ : Z) : decoder (option ShellHash) := λ buf,
  if end_ <? len buf then opt_address_decode "witness_root must be 32 bytes" buf else Ok (None, buf).

Definition block_header_decode : decoder BlockHeader :=
  let! n := list_header_decode in
  let! remaining := dlen in
  let! end_ := dlift (rlp_payload_end remaining n) in
  let! parent_hash := b256_decode in
  let! state_root := b256_decode in
  let! transactions_root := b256_decode in
  let! receipts_root := b256_decode in
  let! logs_bloom := bytes_decode in
  let! number := uint_decode u64_max in
  let! gas_limit := uint_decode u64_max in
  let! gas_used := uint_decode u64_max in
  let! timestamp := uint_decode u64_max in
  let! extra_data := bytes_decode in
  let! proposer := b256_decode in
  let! proof := opt_proof_decode in
  let! base_fee := uint_decode u64_max in
  let! withdrawals_root := b256_decode in
  let! beacon_root := b256_decode in
  let! blob_gas_used := uint_decode u64_max in
  let! excess_blob_gas := uint_decode u64_max in
  let! witness_root := decode_witness_root end_ in
  let! _ := check_consumed remaining n in
  dret (Build_BlockHeader parent_hash state_root transactions_root receipts_root logs_bloom number
          gas_limit gas_used timestamp extra_data proposer proof base_fee withdrawals_root beacon_root
          blob_gas_used excess_blob_gas witness_root).

Definition decode_stripped_bundle (start_remaining n type_ : Z) : decoder (option AaBundle) := λ buf,
  if sat_sub start_remaining (len buf) <? n then
    match buf with
    | [] => Err InputTooShort
    | flag :: buf =>
        if negb (flag =? AA_BUNDLE_PRESENCE_FLAG)
        then Err (Custom "invalid AA bundle presence flag in StrippedTransaction")
        else if negb (type_ =? AA_BUNDLE_TX_TYPE)
        then Err (Custom "aa bundle requires AA_BUNDLE_TX_TYPE in StrippedTransaction")
        else dbind bundle_decode (λ b, dret (Some b)) buf
    end
  else Ok (None, buf).
Definition stripped_decode : decoder StrippedTransaction :=
  let! n := list_header_decode in
  let! start_remaining := dlen in
  let! from := b256_decode in
  let! tx := tx_decode in
  let! bundle := decode_stripped_bundle start_remaining n (tx_type tx) in
  let! _ := check_consumed start_remaining n in
  dret (MkStripped from tx bundle).

Definition tx_witness_decode : decoder TxWitness :=
  let! n := list_header_decode in
  let! remaining := dlen in
  let! sig := sig_decode in
  let! pk := opt_proof_decode in
  let! _ := check_consumed remaining n in
  dret (MkTxWitness sig pk).

(** The witnesses are decoded from the payload alone. *)
Definition witness_bundle_decode : decoder WitnessBundle := λ buf,
  match list_header_decode buf with
  | Err e => Err e
  | Ok (n, buf) =>
      if len buf <? n then Err InputTooShort
      else
        match decode_until tx_witness_decode 0 (take (Z.to_nat n) buf) with
        | Err e => Err e
        | Ok (ws, _) => Ok (MkWitnessBundle ws, drop (Z.to_nat n) buf)
        end
  end.

Definition system_item_decode : decoder SystemTransaction :=
  let! raw := bytes_decode in
  dlift (map_err (λ _, Custom "invalid system transaction payload") (from_slice raw)).
Definition decode_system_transaction_list : decoder (list SystemTransaction) :=
  let! n := list_header_decode in
  decode_all system_item_decode n.

(** [buf.first().copied().unwrap_or(0)] *)
Definition first_byte (buf : bytes) : Z := match buf with b :: _ => b | [] => 0 end.

Definition legacy_proposer_seal_consumes_remaining (buf : bytes) (list_end : Z) : bool :=
  match sig_decode buf with Ok (_, rest) => len rest =? list_end | Err _ => false end.
Definition decode_optional_system_transaction_list (list_end : Z) :
    decoder (list SystemTransaction) := λ buf,
  if (len buf <=? list_end) || (first_byte buf =? 128) then Ok ([], buf)
  else
    match decode_system_transaction_list buf with
    | Ok r => Ok r
    | Err err => if legacy_proposer_seal_consumes_remaining buf list_end then Ok ([], buf) else Err err
    end.

Definition decode_seal (end_ : Z) : decoder (option PQSignature) := λ buf,
  if (end_ <? len buf) && (first_byte buf =? 128) then dbind bytes_decode (λ _, dret None) buf
  else if end_ <? len buf then dbind sig_decode (λ s, dret (Some s)) buf
  else Ok (None, buf).

Definition body_decode {T} (tdec : decoder T) :
    decoder (BlockHeader * list T * list SystemTransaction * option PQSignature) :=
  let! n := list_header_decode in
  let! remaining := dlen in
  let! end_ := dlift (rlp_payload_end remaining n) in
  let! h := block_header_decode in
  let! txs_len := list_header_decode in
  let! txs := decode_all tdec txs_len in
  let! sys := decode_optional_system_transaction_list end_ in
  let! seal := decode_seal end_ in
  let! _ := check_consumed remaining n in
  dret (h, txs, sys, seal).
Definition block_decode : decoder FullBlock :=
  let! p := body_decode signed_decode in
  let '(h, txs, sys, seal) := p in dret (MkFullBlock h txs sys seal).
Definition stripped_block_decode : decoder StrippedBlock :=
  let! p := body_decode stripped_decode in
  let '(h, txs, sys, seal) := p in dret (MkStrippedBlock h txs sys seal).
End decoders.

(** ** The witness root *)

Section root.
Context {R : Rlp} {Hs : Hashes}.

Definition leaf_of (sig : PQSignature) (pk : option bytes) : ShellHash := keccak256 (encode_parts sig pk).
Definition node_of (a b : ShellHash) : ShellHash := keccak256 (as_bytes a ++ as_bytes b).

(** One level of the pairwise fold; an odd leaf is paired with itself. *)
Fixpoint fold_level (leaves : list ShellHash) : list ShellHash :=
  match leaves with
  | [] => []
  | [a] => [node_of a a]
  | a :: b :: leaves => node_of a b :: fold_level leaves
  end.
(** [while leaves.len() > 1]; each round halves the leaves. *)
Fixpoint fold_levels (fuel : nat) (leaves : list ShellHash) : option ShellHash :=
  match leaves with
  | [] => None
  | [root] => Some root
  | _ => match fuel with O => None | S fuel => fold_levels fuel (fold_level leaves) end
  end.
(** [None] is out of fuel, which does not happen (lemma [compute_root_total]). *)
Definition compute_root_from_parts (parts : list (PQSignature * option bytes)) : option ShellHash :=
  if (length parts =? 0)%nat then Some ZERO
  else fold_levels (length parts) ((λ p, leaf_of p.1 p.2) <$> parts).
Definition compute_root (b : WitnessBundle) : option ShellHash :=
  compute_root_from_parts ((λ w, (w_signature w, w_pubkey w)) <$> witnesses b).
Definition compute_root_from_transactions (l : list SignedTransaction) : option ShellHash :=
  compute_root_from_parts ((λ t, (st_signature t, pubkey_of (pubkey_mode t))) <$> l).
End root.

(** ** Logs and receipts *)

Definition MAX_LOG_TOPICS : nat := 4.

Record Log := MkLog {
  log_address : Address;
  log_topics : list ShellHash;
  log_data : list Z;
}.
Inductive LogError := TooManyTopics (got max : nat).
Definition log_new (address : Address) (topics : list ShellHash) (data : list Z) : result Log LogError :=
  if (MAX_LOG_TOPICS <? length topics)%nat then Err (TooManyTopics (length topics) MAX_LOG_TOPICS)
  else Ok (MkLog address topics data).

Record TransactionReceipt := MkReceipt {
  rc_tx_hash : ShellHash;
  rc_block_number : Z;
  rc_tx_index : Z;
  rc_status : Z;
  rc_gas_used : Z;
  rc_cumulative_gas_used : Z;
  rc_contract_address : option Address;
  rc_logs_bloom : list Z;
  rc_logs : list Log;
}.
Definition succeeded (r : TransactionReceipt) : bool := rc_status r =? 1.

Section codec.
Context {R : Rlp}.

(** ** Encoders *)

Definition log_fields_len (l : Log) : Z :=
  sat_add (sat_add (b256_length (log_address l)) (list_length (usize_sum b256_length (log_topics l))))
    (bytes_length (log_data l)).
Definition log_encode (l : Log) : list Z :=
  list_encode (log_fields_len l)
    (b256_encode (log_address l) ++
     list_encode (usize_sum b256_length (log_topics l)) (log_topics l ≫= b256_encode) ++
     bytes_encode (log_data l)).
Definition log_length (l : Log) : Z := list_length (log_fields_len l).

Definition receipt_fields_len (r : TransactionReceipt) : Z :=
  sat_add (sat_add (sat_add (sat_add (sat_add (sat_add (sat_add (sat_add
    (b256_length (rc_tx_hash r)) (uint_length (rc_block_number r))) (uint_length (rc_tx_index r)))
    (uint_length (rc_status r))) (uint_length (rc_gas_used r)))
    (uint_length (rc_cumulative_gas_used r))) (opt_address_length (rc_contract_address r)))
    (bytes_length (rc_logs_bloom r))) (list_length (usize_sum log_length (rc_logs r))).
Definition receipt_encode (r : TransactionReceipt) : list Z :=
  list_encode (receipt_fields_len r)
    (b256_encode (rc_tx_hash r) ++ uint_encode (rc_block_number r) ++ uint_encode (rc_tx_index r) ++
     uint_encode (rc_status r) ++ uint_encode (rc_gas_used r) ++
     uint_encode (rc_cumulative_gas_used r) ++ opt_address_encode (rc_contract_address r) ++
     bytes_encode (rc_logs_bloom r) ++
     list_encode (usize_sum log_length (rc_logs r)) (rc_logs r ≫= log_encode)).
Definition receipt_length (r : TransactionReceipt) : Z := list_length (receipt_fields_len r).

(** ** Decoders *)

Definition log_decode : decoder Log :=
  let! n := list_header_decode in
  let! remaining := dlen in
  let! address := b256_decode in
  let! topics_len := list_header_decode in
  let! topics := decode_items MAX_LOG_TOPICS "too many log topics" b256_decode topics_len in
  let! data := bytes_decode in
  let! _ := check_consumed remaining n in
  dret (MkLog address topics data).

(** [Address::from([u8; 20])]: the low twenty bytes of the address. *)
Definition address_from_20 (l : list Z) : Address := b256_from_bytes (replicate 12 0 ++ l).

Definition contract_address_decode : decoder (option Address) :=
  let! raw := bytes_decode in
  if is_empty raw then dret None
  else if (length raw =? 32)%nat then dret (Some (b256_from_bytes raw))
  else if (length raw =? 20)%nat then dret (Some (address_from_20 raw))
  else dfail (Custom "invalid contract address length").

Definition receipt_decode : decoder TransactionReceipt :=
  let! n := list_header_decode in
  let! remaining := dlen in
  let! tx_hash := b256_decode in
  let! block_number := uint_decode u64_max in
  let! tx_index := uint_decode u32_max in
  let! status := uint_decode u8_max in
  let! _ := dguard (negb (1 <? status)) (Custom "receipt status must be 0 or 1") in
  let! gas_used := uint_decode u64_max in
  let! cumulative_gas_used := uint_decode u64_max in
  let! contract_address := contract_address_decode in
  let! logs_bloom := bytes_decode in
  let! logs_len := list_header_decode in
  let! logs := decode_all log_decode logs_len in
  let! _ := check_consumed remaining n in
  dret (MkReceipt tx_hash block_number tx_index status gas_used cumulative_gas_used contract_address
          logs_bloom logs).
End codec.
