(* ===== verification/BlockRoundtrip.v ===== *)
(** * Blocks survive encoding

    Round trips of the codecs in BlockCodec.v for every RLP
    library that obeys its laws, and of splitting and joining a block. *)

From S2P Require Import Prelude Primitives Block Fee Rlp Transaction TxCodec TxValidation BTree KvStore BlockCodec.

(** ** Well-formed values

    Values of the source's types; byte strings are shorter than [2^40] bytes and
    lists shorter than [2^16] elements (log data shorter than [2^24] bytes), far
    above what a node accepts, so that no length sum leaves [usize]. *)

Record header_wf (h : BlockHeader) : Prop := {
  hwf_bloom : small_bytes (logs_bloom h);
  hwf_number : in_u64 (number h);
  hwf_gas_limit : in_u64 (gas_limit h);
  hwf_gas_used : in_u64 (gas_used h);
  hwf_timestamp : in_u64 (timestamp h);
  hwf_extra : small_bytes (extra_data h);
  hwf_proof : ∀ p, sig_aggregate_proof h = Some p → small_bytes p;
  hwf_base_fee : in_u64 (base_fee_per_gas h);
  hwf_blob_gas : in_u64 (blob_gas_used h);
  hwf_excess : in_u64 (excess_blob_gas h);
}.
Definition seal_wf (o : option PQSignature) : Prop :=
  ∀ s, o = Some s → bytes_ok (sig_data s) ∧ validate_size s = true.
Record stripped_wf (t : StrippedTransaction) : Prop := {
  swf_tx : tx_wf (str_tx t);
  swf_bundle : ∀ b, str_aa_bundle t = Some b → tx_type (str_tx t) = AA_BUNDLE_TX_TYPE ∧ bundle_wf b;
}.
Record witness_wf (w : TxWitness) : Prop := {
  wwf_sig : bytes_ok (sig_data (w_signature w)) ∧ validate_size (w_signature w) = true;
  wwf_pubkey : ∀ pk, w_pubkey w = Some pk → small_bytes pk;
}.
Definition short {A} (wf : A → Prop) (l : list A) : Prop := len l <= 2 ^ 16 ∧ ∀ x, x ∈ l → wf x.
Definition system_wf {JS : Json SystemTransaction} (tx : SystemTransaction) : Prop :=
  ∃ b, to_vec tx = Ok b ∧ small_bytes b.
Record block_wf {JS : Json SystemTransaction} (b : FullBlock) : Prop := {
  bwf_header : header_wf (fb_header b);
  bwf_txs : short signed_wf (fb_transactions b);
  bwf_system : short system_wf (fb_system_transactions b);
  bwf_seal : seal_wf (fb_proposer_seal b);
}.

(** What decoding yields: an empty proof or key comes back as absent. *)
Definition header_nf (h : BlockHeader) : BlockHeader :=
  Build_BlockHeader (parent_hash h) (state_root h) (transactions_root h) (receipts_root h)
    (logs_bloom h) (number h) (gas_limit h) (gas_used h) (timestamp h) (extra_data h) (proposer h)
    (some_nonempty (sig_aggregate_proof h)) (base_fee_per_gas h) (withdrawals_root h)
    (parent_beacon_block_root h) (blob_gas_used h) (excess_blob_gas h) (witness_root h).
Definition stripped_nf (t : StrippedTransaction) : StrippedTransaction :=
  MkStripped (str_from t) (tx_nf (str_tx t)) (bundle_nf <$> str_aa_bundle t).
Definition witness_nf (w : TxWitness) : TxWitness :=
  MkTxWitness (w_signature w) (some_nonempty (w_pubkey w)).
Definition block_nf (b : FullBlock) : FullBlock :=
  MkFullBlock (header_nf (fb_header b)) (signed_nf <$> fb_transactions b) (fb_system_transactions b)
    (fb_proposer_seal b).
Definition stripped_block_nf (b : StrippedBlock) : StrippedBlock :=
  MkStrippedBlock (header_nf (sb_header b)) (stripped_nf <$> sb_transactions b)
    (sb_system_transactions b) (sb_proposer_seal b).

(** ** Splitting and joining *)

Lemma rejoin_split t : rejoin (strip t) (witness_of t) = t.
Proof. destruct t as [f tx sig [pk|] b]; done. Qed.

Lemma zip_rejoin l : zip_with rejoin (strip <$> l) (witness_of <$> l) = l.
Proof. induction l as [|t l IH]; [done|]. by rw /= rejoin_split IH. Qed.

Lemma split_join b : into_block (split b).1 (Some (split b).2) = b.
Proof. rw /into_block /= !length_fmap Nat.eqb_refl /= zip_rejoin. by destruct b. Qed.

(** The normal forms commute with joining. *)
Lemma into_block_nf b :
  into_block (stripped_block_nf (split b).1) (Some (MkWitnessBundle (witness_nf <$> witnesses (split b).2)))
  = block_nf b.
Proof.
  rw /into_block /= !length_fmap Nat.eqb_refl /= /block_nf. f_equal.
  induction (fb_transactions b) as [|t l IH]; [done|]. rw !fmap_cons /= IH. f_equal.
  by destruct t as [f tx sig [[|x pk]|] bu].
Qed.

(** Without a bundle the transactions keep all but their signatures. *)
Lemma into_block_pruned b :
  into_block (split b).1 None =
  MkFullBlock (fb_header b) (stub_signed ∘ strip <$> fb_transactions b) (fb_system_transactions b)
    (fb_proposer_seal b).
Proof. by rw /into_block /= list_fmap_compose. Qed.

Section parts.
Context {R : Rlp} {RL : RlpLaws R}.

(** ** Headers, transactions and witnesses *)

Lemma sized_opt_proof o :
  (∀ p, o = Some p → small_bytes p) → sized (opt_proof_length o) (opt_proof_encode o) (9 + 2 ^ 40).
Proof.
  intros Ho. destruct o as [p|]; simpl; [|by rw bytes_encode_nil].
  destruct (Ho p eq_refl). by apply sized_bytes.
Qed.

Lemma opt_proof_decodes o :
  (∀ p, o = Some p → small_bytes p) → decodes opt_proof_encode opt_proof_decode some_nonempty o.
Proof.
  intros Ho rest. rw /opt_proof_decode. destruct o as [p|]; simpl.
  - destruct (Ho p eq_refl). rw (dbind_decodes _ _ id); [apply bytes_decodes; [done|unfold u64_max; lia]|].
    by destruct p.
  - rw (dbind_decodes _ _ id); [by apply bytes_decodes; [constructor|]|]. done.
Qed.

Lemma sized_small l : small_bytes l → sized (bytes_length l) (bytes_encode l) (9 + 2 ^ 40).
Proof. intros [? ?]. by apply sized_bytes. Qed.
Lemma small_decodes l : small_bytes l → decodes bytes_encode bytes_decode id l.
Proof. intros [? ?]. apply bytes_decodes; [done|unfold u64_max; lia]. Qed.

(** The length of a list as [length_of_length] plus its payload. *)
Lemma sized_plain_list n payload b :
  sized n payload b → b + 9 <= u64_max →
  sized (plain_list_length n) (list_encode n payload) (9 + b).
Proof.
  intros Hs Hb. rw /plain_list_length /list_encode. apply sized_app_wrap; [|done|lia].
  apply sized_header. destruct Hs. unfold len in *. lia.
Qed.

Lemma list_encode_nonempty n payload b :
  sized n payload b → b <= u64_max → (0 < length (list_encode n payload))%nat.
Proof.
  intros [Hn Hb] Hu. rw /list_encode. destruct (header_list_byte n) as (x & t & -> & _);
    [unfold len in *; lia|]. simpl. lia.
Qed.

(** A list does not start like an empty string. *)
Lemma list_first_byte n payload b rest :
  sized n payload b → b <= u64_max → (first_byte (list_encode n payload ++ rest) =? 128) = false.
Proof.
  intros [Hn Hb] Hu. rw /list_encode. destruct (header_list_byte n) as (x & t & -> & Hx);
    [unfold len in *; lia|]. rw /= Z.eqb_neq. intros ->. done.
Qed.
End parts.

Section codecs.
Context {R : Rlp} {RL : RlpLaws R}.

#[local] Hint Extern 0 (sized (b256_length _) _ _) => apply sized_b256 : sized.

Lemma header_sized h :
  header_wf h →
  sized (block_header_fields_len h) (block_header_fields h ++ opt_address_encode (witness_root h)) (2 ^ 43).
Proof.
  intros [? ? ? ? ? ? ? ? ? ?]. rw /block_header_fields_len /block_header_fields !app_assoc.
  eapply sized_weaken.
  - repeat (eapply sized_app; [|first [apply sized_b256|apply sized_opt_address
      |by apply sized_small|by apply sized_opt_proof|by apply sized_uint, u64_in_u256]|]);
      [apply sized_b256|done..].
  - done.
Qed.

Lemma witness_root_decodes o rest :
  decode_witness_root (len rest) (opt_address_encode o ++ rest) = Ok (o, rest).
Proof.
  rw /decode_witness_root. destruct (opt_address_length_encode o) as [H1 H2].
  rw (proj2 (Z.ltb_lt _ _)); [rw /len length_app; lia|]. apply opt_address_decodes.
Qed.

Lemma block_header_decodes h :
  header_wf h → decodes block_header_encode block_header_decode header_nf h.
Proof.
  intros Hwf rest. destruct (header_sized h Hwf) as [Hn Hb].
  rw /block_header_encode /list_encode /block_header_decode -app_assoc.
  rw dbind_header; [rw Hn !len_app /len; lia|unfold u64_max; lia|]. rw dbind_dlen.
  rw {1}/dbind /dlift /rlp_payload_end (proj2 (Z.leb_le _ _)); [rw Hn !len_app /len; lia|].
  replace (len ((block_header_fields h ++ opt_address_encode (witness_root h)) ++ rest) -
           block_header_fields_len h) with (len rest) by (rw Hn !len_app /len; lia).
  set start := len (_ ++ rest). rw /block_header_fields -!app_assoc.
  do 4 (rw (dbind_decodes _ _ id); [apply b256_decodes|]).
  rw (dbind_decodes _ _ id); [apply small_decodes, Hwf|].
  do 4 (rw (dbind_decodes _ _ id); [apply u64_decodes, Hwf|]).
  rw (dbind_decodes _ _ id); [apply small_decodes, Hwf|].
  rw (dbind_decodes _ _ id); [apply b256_decodes|].
  rw (dbind_decodes _ _ some_nonempty); [apply opt_proof_decodes, Hwf|].
  rw (dbind_decodes _ _ id); [apply u64_decodes, Hwf|].
  do 2 (rw (dbind_decodes _ _ id); [apply b256_decodes|]).
  do 2 (rw (dbind_decodes _ _ id); [apply u64_decodes, Hwf|]).
  rw {1}/dbind witness_root_decodes. by rw /start dbind_consumed.
Qed.

Lemma app3_rest (l1 l2 l3 rest : list Z) : (l1 ++ l2 ++ l3) ++ rest = l1 ++ l2 ++ l3 ++ rest.
Proof. by rw -!app_assoc. Qed.

Lemma stripped_sized t :
  stripped_wf t →
  sized (stripped_fields_len t)
    (b256_encode (str_from t) ++ tx_encode (str_tx t) ++
     match str_aa_bundle t with Some b => AA_BUNDLE_PRESENCE_FLAG :: bundle_encode b | None => [] end)
    (2 ^ 42).
Proof.
  intros [Ht Hb]. rw app_assoc. eapply sized_weaken.
  - apply sized_app; [apply sized_app; [apply sized_b256|by apply sized_list; [apply tx_sized|]|done]
      |apply bundle_field_sized|done]. intros b E. by apply Hb.
  - done.
Qed.

Lemma stripped_bundle_decodes o remaining n ty rest :
  (∀ b, o = Some b → ty = AA_BUNDLE_TX_TYPE ∧ bundle_wf b) →
  let field := match o with Some b => AA_BUNDLE_PRESENCE_FLAG :: bundle_encode b | None => [] end in
  sat_sub remaining (len (field ++ rest)) = n - len field →
  decode_stripped_bundle remaining n ty (field ++ rest) = Ok (bundle_nf <$> o, rest).
Proof.
  intros Ho field Hc. rw /decode_stripped_bundle Hc /field. destruct o as [b|]; simpl.
  - destruct (Ho b eq_refl) as [-> Hwf]. rw (proj2 (Z.ltb_lt _ _)); [rw /len /=; lia|].
    by rw (dbind_decodes _ _ bundle_nf); [apply bundle_decodes|].
  - rw Z.sub_0_r Z.ltb_irrefl. done.
Qed.

Lemma stripped_decodes t : stripped_wf t → decodes stripped_encode stripped_decode stripped_nf t.
Proof.
  intros Hwf rest. destruct (stripped_sized t Hwf) as [Hn Hb]. destruct Hwf as [Ht Hbd].
  rw /stripped_encode /list_encode /stripped_decode -app_assoc.
  rw dbind_header; [rw Hn !len_app /len; lia|unfold u64_max; lia|]. rw dbind_dlen.
  set start := len (_ ++ rest). assert (Hstart : start = stripped_fields_len t + len rest).
  { rw /start Hn /len length_app. lia. }
  clearbody start. rw app3_rest.
  rw (dbind_decodes _ _ id); [apply b256_decodes|].
  rw (dbind_decodes _ _ tx_nf); [by apply tx_decodes|].
  rw {1}/dbind stripped_bundle_decodes; [done| |].
  - rw Hstart /sat_sub Hn /len !length_app. lia.
  - rw /dbind /check_consumed Hstart /sat_sub. rw (proj2 (Z.eqb_eq _ _)) //.
    rw Hn /len. lia.
Qed.

Lemma witness_sized w :
  witness_wf w →
  sized (parts_payload_length (w_signature w) (w_pubkey w))
    (sig_encode (w_signature w) ++ bytes_encode (unwrap_or [] (w_pubkey w))) (2 ^ 41).
Proof.
  intros [[Hs1 Hs2] Hk]. eapply sized_weaken.
  - apply sized_app_wrap; [by apply sized_list; [apply sig_sized|]|apply sized_small|done].
    destruct (w_pubkey w); [by apply Hk|]. split; [constructor|done].
  - done.
Qed.

Lemma tx_witness_decodes w :
  witness_wf w → decodes tx_witness_encode tx_witness_decode witness_nf w.
Proof.
  intros Hwf rest. destruct (witness_sized w Hwf) as [Hn Hb]. destruct Hwf as [[Hs1 Hs2] Hk].
  rw /tx_witness_encode /encode_parts /list_encode /tx_witness_decode -app_assoc.
  rw dbind_header; [rw Hn !len_app /len; lia|unfold u64_max; lia|]. rw dbind_dlen.
  set start := len (_ ++ rest). rw -(app_assoc (sig_encode _)).
  rw (dbind_decodes _ _ id); [by apply sig_decodes|].
  replace (bytes_encode (unwrap_or [] (w_pubkey w))) with (opt_proof_encode (w_pubkey w))
    by (by destruct (w_pubkey w)).
  rw (dbind_decodes _ _ some_nonempty); [by apply opt_proof_decodes|].
  rw /start dbind_consumed //.
Qed.

Lemma tx_witness_nonempty w : witness_wf w → (0 < length (tx_witness_encode w))%nat.
Proof. intros Hw. by eapply list_encode_nonempty; [apply witness_sized|]. Qed.

Lemma witnesses_sized l :
  short witness_wf l →
  sized (usize_sum tx_witness_length l) (l ≫= tx_witness_encode) ((9 + 2 ^ 41) * 2 ^ 16).
Proof.
  intros [Hl Hw]. apply sized_sum; [|done..]. intros w Hin.
  apply sized_plain_list; [by apply witness_sized, Hw|done].
Qed.

Lemma witness_bundle_decodes b :
  short witness_wf (witnesses b) →
  decodes witness_bundle_encode witness_bundle_decode
    (λ b, MkWitnessBundle (witness_nf <$> witnesses b)) b.
Proof.
  intros Hwf rest. destruct (witnesses_sized _ Hwf) as [Hn Hb]. destruct Hwf as [Hl Hw].
  rw /witness_bundle_encode /list_encode /witness_bundle_decode -app_assoc.
  rw list_header_decodes; [rw Hn /len length_app; lia|unfold u64_max; lia|].
  rw (proj2 (Z.ltb_ge _ _)); [rw Hn len_app /len; lia|].
  replace (Z.to_nat _) with (length (witnesses b ≫= tx_witness_encode)) by (rw Hn /len; lia).
  rw take_app_length drop_app_length /decode_until.
  rw (decode_loop_while _ EmptyString _ _ _ _ (witness_nf <$> witnesses b, [])); [|done].
  rw -{2}(app_nil_r (_ ≫= _)). change 0 with (Z.of_nat (length (A := Z) [])).
  apply (decode_while_encode tx_witness_encode _ witness_nf _ _ _ [] []).
  - apply length_concat_ge. intros w Hin. by apply tx_witness_nonempty, Hw.
  - intros w Hin. split; [by apply tx_witness_decodes, Hw|by apply tx_witness_nonempty, Hw].
Qed.
End codecs.

(** ** Blocks and stripped blocks *)

Lemma len_prefix {A} (l rest : list A) : 0 <= len l <= len (l ++ rest).
Proof. rw len_app /len. lia. Qed.

Lemma len_suffix {A} (l rest : list A) : len rest <= len (l ++ rest).
Proof. rw len_app /len. lia. Qed.

Lemma sized_app4 v1 v2 v3 v4 l1 l2 l3 l4 b1 b2 b3 b4 :
  sized v1 l1 b1 → sized v2 l2 b2 → sized v3 l3 b3 → sized v4 l4 b4 → b1 + b2 + b3 + b4 <= u64_max →
  sized (sat_add (sat_add (sat_add v1 v2) v3) v4) (l1 ++ l2 ++ l3 ++ l4) (b1 + b2 + b3 + b4).
Proof. rw /sized /len !length_app /sat_add. lia. Qed.

Section bodies.
Context {R : Rlp} {RL : RlpLaws R} {JS : Json SystemTransaction} {JL : JsonLaws SystemTransaction}.

Lemma system_item_sized tx :
  system_wf tx → sized (system_item_length tx) (system_item_encode tx) (9 + 2 ^ 40).
Proof. intros (b & E & Hb). rw /system_item_length /system_item_encode E. by apply sized_small. Qed.
Lemma system_item_decodes tx : system_wf tx → decodes system_item_encode system_item_decode id tx.
Proof.
  intros (b & E & Hb) rest. rw /system_item_encode /system_item_decode E.
  rw (dbind_decodes _ _ id); [by apply small_decodes|]. by rw /dlift (from_to_vec _ _ E).
Qed.
Lemma system_item_nonempty tx : system_wf tx → (0 < length (system_item_encode tx))%nat.
Proof.
  intros (b & E & [Hb1 Hb2]). rw /system_item_encode E.
  destruct (bytes_length_encode b); [done|unfold len, u64_max in *; lia|]. lia.
Qed.
Lemma system_sized l :
  short system_wf l →
  sized (usize_sum system_item_length l) (l ≫= system_item_encode) ((9 + 2 ^ 40) * 2 ^ 16).
Proof. intros [Hl Hw]. apply sized_sum; [|done..]. intros w Hin. by apply system_item_sized, Hw. Qed.

Lemma seal_sized o : seal_wf o → sized (seal_length o) (seal_encode o) (9 + (33 + (9 + 51200))).
Proof.
  intros Ho. destruct o as [s|]; simpl.
  - destruct (Ho s eq_refl). by apply sized_list; [apply sig_sized|].
  - rw bytes_encode_nil. done.
Qed.

(** The list of system transactions, followed by the seal. *)
Lemma optional_system_decodes l tail end_ :
  short system_wf l → end_ <= len tail →
  decode_optional_system_transaction_list end_
    (list_encode (usize_sum system_item_length l) (l ≫= system_item_encode) ++ tail) = Ok (l, tail).
Proof.
  intros Hl He. pose proof (system_sized l Hl) as Hs.
  pose proof (list_encode_nonempty _ _ _ Hs ltac:(done)).
  rw /decode_optional_system_transaction_list (proj2 (Z.leb_gt _ _)); [rw len_app /len; unfold len in *; lia|].
  rw (list_first_byte _ _ _ _ Hs); [done|]. destruct Hs as [Hn Hb]. destruct Hl as [_ Hw].
  rw /= /decode_system_transaction_list /list_encode -app_assoc.
  rw dbind_header; [rw Hn len_app /len; lia|unfold u64_max; lia|].
  rw (decode_all_encode system_item_encode _ id); [done| |by rw list_fmap_id].
  intros tx Hin. split; [by apply system_item_decodes, Hw|by apply system_item_nonempty, Hw].
Qed.

Lemma seal_decodes o rest : seal_wf o → decode_seal (len rest) (seal_encode o ++ rest) = Ok (o, rest).
Proof.
  intros Ho. rw /decode_seal. destruct o as [s|]; simpl.
  - destruct (Ho s eq_refl) as [H1 H2]. pose proof (sig_sized s H1 H2) as Hs.
    rw {1 2}/sig_encode (list_first_byte _ _ _ _ Hs); [done|]. rw andb_false_r.
    pose proof (list_encode_nonempty _ _ _ Hs ltac:(done)).
    rw (proj2 (Z.ltb_lt _ _)); [rw len_app /sig_encode /len; lia|].
    by rw (dbind_decodes _ _ id); [apply sig_decodes|].
  - rw bytes_encode_nil /= (proj2 (Z.ltb_lt _ _)); [rw /len /=; lia|].
    change (128 :: rest) with ([128] ++ rest). rw -bytes_encode_nil.
    by rw (dbind_decodes _ _ id); [apply bytes_decodes; [constructor|]|].
Qed.

Context {T : Type} (tlen : T → Z) (tenc : T → bytes) (tdec : decoder T) (tnf : T → T) (twf : T → Prop).
Hypothesis tsized : ∀ t, twf t → sized (tlen t) (tenc t) (9 + 2 ^ 43).
Hypothesis tdecodes : ∀ t, twf t → decodes tenc tdec tnf t.
Hypothesis tnonempty : ∀ t, twf t → (0 < length (tenc t))%nat.

Lemma txs_sized l : short twf l → sized (usize_sum tlen l) (l ≫= tenc) ((9 + 2 ^ 43) * 2 ^ 16).
Proof. intros [Hl Hw]. apply sized_sum; [|done..]. intros t Hin. by apply tsized, Hw. Qed.

Lemma body_sized h txs sys seal :
  header_wf h → short twf txs → short system_wf sys → seal_wf seal →
  sized (body_fields_len tlen h txs sys seal)
    (block_header_encode h ++ list_encode (usize_sum tlen txs) (txs ≫= tenc) ++
     list_encode (usize_sum system_item_length sys) (sys ≫= system_item_encode) ++ seal_encode seal)
    (2 ^ 60).
Proof.
  intros Hh Ht Hs Hseal. eapply sized_weaken.
  - apply sized_app4; [by apply sized_list; [apply header_sized|]|by apply sized_list; [apply txs_sized|]
      |by apply sized_list; [apply system_sized|]|by apply seal_sized|done].
  - done.
Qed.

Lemma body_decodes h txs sys seal rest :
  header_wf h → short twf txs → short system_wf sys → seal_wf seal →
  body_decode tdec (body_encode tlen tenc h txs sys seal ++ rest) =
  Ok (header_nf h, tnf <$> txs, sys, seal, rest).
Proof.
  intros Hh Ht Hs Hseal. destruct (body_sized h txs sys seal Hh Ht Hs Hseal) as [Hn Hb].
  destruct (txs_sized txs Ht) as [Htn Htb]. rw /body_encode {1}/list_encode /body_decode -(app_assoc (header_encode _ _)).
  rw dbind_header; [rw Hn; apply len_prefix|unfold u64_max; lia|]. rw dbind_dlen.
  rw {1}/dbind /dlift /rlp_payload_end (proj2 (Z.leb_le _ _)); [rw Hn; apply len_prefix|].
  match goal with |- context [len ?x - body_fields_len tlen h txs sys seal] =>
    replace (len x - body_fields_len tlen h txs sys seal) with (len rest) by (rw Hn (len_app _ rest); lia) end.
  set start := len (_ ++ rest).
  rw -(app_assoc (block_header_encode h)) (dbind_decodes _ _ header_nf); [by apply block_header_decodes|].
  rw -(app_assoc (list_encode _ (txs ≫= tenc))) {1}/list_encode -(app_assoc (header_encode _ _)).
  rw dbind_header; [rw Htn; apply len_prefix|unfold u64_max; lia|].
  rw {1}/dbind (decode_all_encode tenc _ tnf); [done|intros t Hin; destruct Ht; split; eauto|].
  rw -(app_assoc (list_encode _ _)) {1}/dbind optional_system_decodes; [done|apply len_suffix|].
  rw {1}/dbind seal_decodes //. by rw /start dbind_consumed.
Qed.
End bodies.

Lemma strip_wf t : signed_wf t → stripped_wf (strip t).
Proof. by intros [? ? ? ?]. Qed.
Lemma witness_of_wf t : signed_wf t → witness_wf (witness_of t).
Proof. intros [? ? Hk ?]. split; [done|]. intros pk E. apply Hk. destruct t as [f tx s [k|] a]; simpl in *; by simplify_eq. Qed.
Lemma short_fmap {A B} (f : A → B) (wf : A → Prop) (wf' : B → Prop) l :
  (∀ x, wf x → wf' (f x)) → short wf l → short wf' (f <$> l).
Proof. intros Hf [Hl Hw]. split; [by rw /len length_fmap|]. set_solver. Qed.

Section blocks.
Context {R : Rlp} {RL : RlpLaws R} {JS : Json SystemTransaction} {JL : JsonLaws SystemTransaction}.

Lemma signed_length_sized t : signed_wf t → sized (signed_length t) (signed_encode t) (9 + 2 ^ 43).
Proof. intros Ht. by apply sized_list; [apply signed_sized|]. Qed.
Lemma signed_nonempty t : signed_wf t → (0 < length (signed_encode t))%nat.
Proof. intros Ht. by eapply list_encode_nonempty; [apply signed_sized|]. Qed.

Lemma block_decodes b : block_wf b → decodes block_encode block_decode block_nf b.
Proof.
  intros [Hh Ht Hs Hl] rest. rw /block_decode /block_encode {1}/dbind.
  by rw (body_decodes _ _ _ signed_nf signed_wf signed_length_sized signed_decodes signed_nonempty).
Qed.

Lemma stripped_length_sized t : stripped_wf t → sized (stripped_length t) (stripped_encode t) (9 + 2 ^ 43).
Proof. intros Ht. eapply sized_weaken; [by apply sized_plain_list; [apply stripped_sized|]|done]. Qed.
Lemma stripped_nonempty t : stripped_wf t → (0 < length (stripped_encode t))%nat.
Proof. intros Ht. by eapply list_encode_nonempty; [apply stripped_sized|]. Qed.

Lemma stripped_block_decodes b :
  block_wf b → decodes stripped_block_encode stripped_block_decode stripped_block_nf (split b).1.
Proof.
  intros [Hh Ht Hs Hl] rest. rw /stripped_block_decode /stripped_block_encode {1}/dbind.
  rw (body_decodes _ _ _ stripped_nf stripped_wf stripped_length_sized stripped_decodes stripped_nonempty) //.
  eapply short_fmap; [|done]. apply strip_wf.
Qed.

Lemma split_bundle_decodes b :
  block_wf b →
  decodes witness_bundle_encode witness_bundle_decode (λ b, MkWitnessBundle (witness_nf <$> witnesses b)) (split b).2.
Proof. intros [Hh Ht Hs Hl]. apply witness_bundle_decodes. eapply short_fmap; [|done]. apply witness_of_wf. Qed.
End blocks.

(** ** Receipts *)

Record log_wf (l : Log) : Prop := {
  lwf_topics : (length (log_topics l) ≤ MAX_LOG_TOPICS)%nat;
  lwf_data : bytes_ok (log_data l) ∧ len (log_data l) <= 2 ^ 24;
}.
Record receipt_wf (r : TransactionReceipt) : Prop := {
  rwf_number : in_u64 (rc_block_number r);
  rwf_index : 0 <= rc_tx_index r <= u32_max;
  rwf_status : 0 <= rc_status r <= 1;
  rwf_gas : in_u64 (rc_gas_used r);
  rwf_cumulative : in_u64 (rc_cumulative_gas_used r);
  rwf_bloom : small_bytes (rc_logs_bloom r);
  rwf_logs : short log_wf (rc_logs r);
}.

Section receipts.
Context {R : Rlp} {RL : RlpLaws R}.

Lemma topics_sized l :
  log_wf l → sized (usize_sum b256_length (log_topics l)) (log_topics l ≫= b256_encode) (41 * 4).
Proof.
  intros [Hl _]. apply sized_sum; [intros; apply sized_b256| |done..].
  unfold MAX_LOG_TOPICS, len in *. lia.
Qed.
Lemma log_sized l :
  log_wf l →
  sized (log_fields_len l)
    (b256_encode (log_address l) ++
     list_encode (usize_sum b256_length (log_topics l)) (log_topics l ≫= b256_encode) ++
     bytes_encode (log_data l)) (2 ^ 25).
Proof.
  intros Hl. destruct (lwf_data l Hl). rw (app_assoc (b256_encode _)). eapply sized_weaken.
  - apply sized_app; [apply sized_app; [apply sized_b256|by apply sized_list; [apply topics_sized|]|done]
      |by apply (sized_bytes _ (2 ^ 24))|done].
  - done.
Qed.

Lemma log_decodes l : log_wf l → decodes log_encode log_decode id l.
Proof.
  intros Hwf rest. destruct (log_sized l Hwf) as [Hn Hb]. destruct (topics_sized l Hwf) as [Ht Htb].
  destruct Hwf as [Hl Hd].
  rw /log_encode {1}/list_encode /log_decode -(app_assoc (header_encode _ _)).
  rw dbind_header; [rw Hn; apply len_prefix|unfold u64_max; lia|]. rw dbind_dlen.
  set start := len (_ ++ rest). rw app3_rest.
  rw (dbind_decodes _ _ id); [apply b256_decodes|]. rw {1}/list_encode -(app_assoc (header_encode _ _)).
  rw dbind_header; [rw Ht; apply len_prefix|unfold u64_max; lia|].
  rw {1}/dbind (decode_items_encode b256_encode _ id); [done|done|intros; split; [apply b256_decodes|apply b256_nonempty]|].
  rw (dbind_decodes _ _ id); [apply bytes_decodes; [apply Hd|destruct Hd; unfold u64_max; lia]|].
  rw /start dbind_consumed // list_fmap_id. by destruct l.
Qed.
Lemma log_nonempty l : log_wf l → (0 < length (log_encode l))%nat.
Proof. intros Hl. by eapply list_encode_nonempty; [apply log_sized|]. Qed.

Lemma logs_sized l :
  short log_wf l → sized (usize_sum log_length l) (l ≫= log_encode) ((9 + 2 ^ 25) * 2 ^ 16).
Proof. intros [Hl Hw]. apply sized_sum; [|done..]. intros x Hx. by apply sized_list; [apply log_sized, Hw|]. Qed.

Lemma contract_address_decodes o : decodes opt_address_encode contract_address_decode id o.
Proof.
  intros rest. rw /contract_address_decode /dbind. destruct o as [a|]; simpl.
  - rw /b256_encode bytes_decode_encode; [apply as_bytes_ok|by rw length_as_bytes|].
    destruct (as_bytes a) as [|b l] eqn:E; [by pose proof (length_as_bytes a) as H; rw E in H|].
    rw -E length_as_bytes. rw E /= -E /dret b256_from_as_bytes. done.
  - rw bytes_decode_encode; [by constructor|done|done].
Qed.

Lemma receipt_sized r :
  receipt_wf r →
  sized (receipt_fields_len r)
    ((b256_encode (rc_tx_hash r) ++ uint_encode (rc_block_number r) ++ uint_encode (rc_tx_index r) ++
      uint_encode (rc_status r) ++ uint_encode (rc_gas_used r) ++
      uint_encode (rc_cumulative_gas_used r) ++ opt_address_encode (rc_contract_address r) ++
      bytes_encode (rc_logs_bloom r)) ++
     list_encode (usize_sum log_length (rc_logs r)) (rc_logs r ≫= log_encode)) (2 ^ 42).
Proof.
  intros [? ? ? ? ? ? ?]. eapply sized_weaken.
  - apply sized_app; [|by apply sized_list; [apply logs_sized|]|].
    + rw !app_assoc. repeat (eapply sized_app; [|first [apply sized_opt_address|by apply sized_small
        |by apply sized_uint, u64_in_u256|apply sized_uint; unfold u32_max in *; change u256_max with (2 ^ 256 - 1); lia]|]);
        [apply sized_b256|done..].
    + done.
  - done.
Qed.

Lemma receipt_length_sized r : receipt_wf r → sized (receipt_length r) (receipt_encode r) (9 + 2 ^ 42).
Proof.
  intros Hr. apply sized_list; [|done]. pose proof (receipt_sized r Hr) as Hz.
  rw -!(app_assoc (A := Z)) in Hz. exact Hz.
Qed.

Lemma receipt_decodes r : receipt_wf r → decodes receipt_encode receipt_decode id r.
Proof.
  intros Hwf rest. destruct (receipt_sized r Hwf) as [Hn Hb]. destruct (logs_sized _ (rwf_logs r Hwf)) as [Hl Hlb].
  rw /receipt_encode {1}/list_encode /receipt_decode -(app_assoc (header_encode _ _)).
  match goal with |- context [header_encode true _ ++ ?p ++ rest] => set payload := p end.
  assert (Hp : receipt_fields_len r = len payload) by (rw Hn /payload -!(app_assoc (A := Z)); reflexivity).
  rw dbind_header; [rw Hp; apply len_prefix|unfold u64_max; lia|]. rw dbind_dlen.
  set start := len (payload ++ rest). rw /payload.
  rw -(app_assoc (b256_encode _)) (dbind_decodes _ _ id); [apply b256_decodes|].
  rw -(app_assoc (uint_encode _)) (dbind_decodes _ _ id); [apply u64_decodes, Hwf|].
  rw -(app_assoc (uint_encode _)) (dbind_decodes _ _ id); [by apply uint_decodes; [apply Hwf|]|].
  destruct (rwf_status r Hwf) as [Hs0 Hs1].
  rw -(app_assoc (uint_encode _)) (dbind_decodes _ _ id); [apply uint_decodes; [unfold u8_max; lia|done]|].
  rw dbind_guard; [by apply negb_true_iff, Z.ltb_ge|].
  do 2 (rw -(app_assoc (uint_encode _)) (dbind_decodes _ _ id); [apply u64_decodes, Hwf|]).
  rw -(app_assoc (opt_address_encode _)) (dbind_decodes _ _ id); [apply contract_address_decodes|].
  rw -(app_assoc (bytes_encode _)) (dbind_decodes _ _ id); [apply small_decodes, Hwf|].
  rw {1}/list_encode -(app_assoc (header_encode _ _)).
  rw dbind_header; [rw Hl; apply len_prefix|unfold u64_max; lia|].
  destruct (rwf_logs r Hwf) as [_ Hw].
  rw {1}/dbind (decode_all_encode log_encode _ id); [done|intros; split; [by apply log_decodes, Hw|by apply log_nonempty, Hw]|].
  rw /start dbind_consumed // list_fmap_id. by destruct r.
Qed.
Lemma receipt_nonempty r : receipt_wf r → (0 < length (receipt_encode r))%nat.
Proof.
  intros Hr. pose proof (receipt_sized r Hr) as Hz. rw -!(app_assoc (A := Z)) in Hz.
  by apply (list_encode_nonempty _ _ _ Hz).
Qed.
End receipts.

(** ** The decoders take bytes, so no loop over a list runs out of rounds *)

Section rounds.
Context {R : Rlp} {RL : RlpLaws R} {JS : Json SystemTransaction}.

Lemma decode_items_keeps {A} max msg (f : decoder A) n : keeps f → keeps (decode_items max msg f n).
Proof. intros Hf. rw /decode_items. solve_keeps. Qed.
Lemma decode_until_keeps {A} (f : decoder A) e : keeps f → keeps (decode_until f e).
Proof. intros Hf buf x rest. by apply decode_loop_keeps. Qed.
Lemma decode_all_keeps {A} (f : decoder A) n : keeps f → keeps (decode_all f n).
Proof. intros Hf. rw /decode_all. repeat first [by apply decode_until_keeps|keeps_step]. Qed.
#[local] Hint Resolve decode_items_keeps decode_until_keeps decode_all_keeps shrinks_keeps : consume.

Lemma log_decode_shrinks : shrinks log_decode.
Proof. solve_shrinks. Qed.
Lemma system_item_shrinks : shrinks system_item_decode.
Proof. solve_shrinks. Qed.

(** A payload decoded apart from the rest of the buffer. *)
Lemma sig_decode_shrinks : shrinks sig_decode.
Proof.
  intros buf x rest. rw /sig_decode. destruct (list_header_decode buf) as [[n buf']|] eqn:E; [|done].
  apply list_header_shrinks in E. repeat case_match; try done. intros [= _ <-]. rw length_drop. lia.
Qed.
Lemma access_item_shrinks : shrinks decode_access_item.
Proof. solve_shrinks. Qed.
Lemma opt_address_keeps msg : keeps (opt_address_decode msg).
Proof. rw /opt_address_decode. solve_keeps. Qed.
Lemma call_decode_shrinks : shrinks call_decode.
Proof. rw /call_decode /opt_address_decode. solve_shrinks. Qed.
#[local] Hint Resolve access_item_shrinks opt_address_keeps call_decode_shrinks : consume.

Lemma tx_decode_shrinks : shrinks tx_decode.
Proof.
  rw /tx_decode /decode_access_list /decode_blob_fee /decode_blob_hashes.
  solve_shrinks.
Qed.
Lemma session_field_keeps remaining n : keeps (decode_session_field remaining n).
Proof.
  intros buf x rest. rw /decode_session_field /session_decode /decode_limited /decode_value_cap.
  case_match; [|by intros [= _ <-]].
  case_match; match goal with |- ?d buf = _ → _ => assert (keeps d) as K by solve_keeps; apply K end.
Qed.
Lemma bundle_decode_shrinks : shrinks bundle_decode.
Proof.
  rw /bundle_decode /decode_opt_bytes /decode_limited.
  apply dbind_shrinks; [auto with consume|intros ?].
  repeat first [apply session_field_keeps|keeps_step].
Qed.
Lemma bundle_field_keeps remaining n ty : keeps (decode_bundle_field remaining n ty).
Proof.
  intros buf x rest. rw /decode_bundle_field. case_match; [|by intros [= _ <-]].
  repeat case_match; try done. rw /dbind. case_match; [|done]. case_match. intros [= _ <-].
  match goal with H : bundle_decode _ = _ |- _ => apply bundle_decode_shrinks in H end. simpl. lia.
Qed.
Lemma stripped_bundle_keeps remaining n ty : keeps (decode_stripped_bundle remaining n ty).
Proof.
  intros buf x rest. rw /decode_stripped_bundle. case_match; [|by intros [= _ <-]].
  repeat case_match; try done. rw /dbind. case_match; [|done]. case_match. intros [= _ <-].
  match goal with H : bundle_decode _ = _ |- _ => apply bundle_decode_shrinks in H end. simpl. lia.
Qed.
#[local] Hint Resolve sig_decode_shrinks tx_decode_shrinks bundle_field_keeps stripped_bundle_keeps : consume.

Lemma signed_decode_shrinks : shrinks signed_decode.
Proof. rw /signed_decode /pubkey_decode. solve_shrinks. Qed.
Lemma stripped_decode_shrinks : shrinks stripped_decode.
Proof. solve_shrinks. Qed.
Lemma tx_witness_shrinks : shrinks tx_witness_decode.
Proof. rw /tx_witness_decode /opt_proof_decode. solve_shrinks. Qed.
End rounds.
