(* ===== verification/WitnessRoot.v ===== *)
(** * The witness root

    [WitnessBundle::compute_root] of BlockCodec.v: it always yields a root, the
    variants that work on full transactions agree with it, and it binds the
    witnesses of bundles of one length. *)

From S2P Require Import Prelude Primitives Block Fee Rlp RlpImpl Transaction TxCodec TxHash TxValidation BTree KvStore BlockCodec BlockRoundtrip.

(** No other string has the hash of one of these. *)
Definition resists (H : bytes → ShellHash) (L : list bytes) : Prop := ∀ x y, x ∈ L → H y = H x → y = x.

Section root.
Context {R : Rlp} {RL : RlpLaws R} {Hs : Hashes}.

(** The strings hashed for one level, and for all. *)
Fixpoint level_strings (leaves : list ShellHash) : list bytes :=
  match leaves with
  | [] => []
  | [a] => [as_bytes a ++ as_bytes a]
  | a :: b :: leaves => (as_bytes a ++ as_bytes b) :: level_strings leaves
  end.
Fixpoint fold_strings (fuel : nat) (leaves : list ShellHash) : list bytes :=
  match leaves with
  | [] | [_] => []
  | _ => match fuel with O => [] | S fuel => level_strings leaves ++ fold_strings fuel (fold_level leaves) end
  end.
Definition leaf_strings (parts : list (PQSignature * option bytes)) : list bytes :=
  (λ p, encode_parts p.1 p.2) <$> parts.
Definition root_strings (parts : list (PQSignature * option bytes)) : list bytes :=
  leaf_strings parts ++ fold_strings (length parts) (keccak256 <$> leaf_strings parts).

(** Induction two leaves at a time. *)
Lemma pair_ind {A} (P : list A → Prop) :
  P [] → (∀ a, P [a]) → (∀ a b l, P l → P (a :: b :: l)) → ∀ l, P l.
Proof.
  intros H0 H1 H2. fix IH 1. intros [|a [|b l]]; [apply H0|apply H1|apply H2, IH].
Qed.

Lemma fold_level_strings l : fold_level l = keccak256 <$> level_strings l.
Proof. induction l as [|a|a b l IH] using pair_ind; [done..|]. by rw /= IH. Qed.
Lemma length_fold_level l : (length (fold_level l) = (length l + 1) / 2)%nat.
Proof.
  induction l as [|a|a b l IH] using pair_ind; [done..|]. cbn [fold_level length]. rw IH.
  replace (S (S (length l)) + 1)%nat with ((length l + 1) + 1 * 2)%nat by lia. rw Nat.div_add //. lia.
Qed.
Lemma fold_level_shrinks l : (1 < length l)%nat → (0 < length (fold_level l) < length l)%nat.
Proof.
  intros Hl. rw length_fold_level. split.
  - apply Nat.div_str_pos. lia.
  - apply Nat.Div0.div_lt_upper_bound; lia.
Qed.

Lemma fold_levels_total fuel l :
  (0 < length l)%nat → (length l ≤ S fuel)%nat → ∃ r, fold_levels fuel l = Some r.
Proof.
  revert l. induction fuel as [|fuel IH]; intros [|a [|b l]] H1 H2; cbn [length] in *; try lia; simpl; eauto.
  pose proof (fold_level_shrinks (a :: b :: l) ltac:(simpl; lia)) as [K1 K2]. simpl in K1, K2.
  apply IH; simpl in *; lia.
Qed.
(** The fold never runs out of rounds. *)
Lemma compute_root_total b : ∃ r, compute_root b = Some r.
Proof.
  rw /compute_root /compute_root_from_parts. case_match eqn:E; [eauto|]. apply Nat.eqb_neq in E.
  apply fold_levels_total; rw !length_fmap in E *; lia.
Qed.

Lemma level_strings_inj l1 l2 :
  length l1 = length l2 → level_strings l1 = level_strings l2 → l1 = l2.
Proof.
  assert (Happ : ∀ a b c d, as_bytes a ++ as_bytes b = as_bytes c ++ as_bytes d → a = c ∧ b = d).
  { intros a b c d [->%as_bytes_inj ->%as_bytes_inj]%app_inj_1; [done|by rw !length_as_bytes]. }
  revert l2. induction l1 as [|a|a b l1 IH] using pair_ind; intros [|c [|d l2]] Hl E; try done.
  - pose proof (f_equal (hd []) E) as E1. cbn [level_strings hd] in E1. by apply Happ in E1 as [-> _].
  - pose proof (f_equal (hd []) E) as E1. pose proof (f_equal tail E) as E2.
    cbn [level_strings hd tail length] in E1, E2, Hl. apply Happ in E1 as [-> ->]. rw (IH l2); [lia|done|done].
Qed.
Lemma fmap_resists (L1 L2 : list bytes) :
  resists keccak256 L1 → length L1 = length L2 → keccak256 <$> L1 = keccak256 <$> L2 → L2 = L1.
Proof.
  intros Hr. revert L2. induction L1 as [|x L1 IH]; intros [|y L2] Hl E; try done. simpl in *. simplify_eq.
  f_equal; [by apply Hr; [set_solver|]|apply IH; [|lia|done]]. intros u v Hu. apply Hr. set_solver.
Qed.

Lemma length_level_strings l1 l2 : length l1 = length l2 → length (level_strings l1) = length (level_strings l2).
Proof.
  intros Hl. pose proof (length_fold_level l1) as H1. pose proof (length_fold_level l2) as H2.
  rw !fold_level_strings !length_fmap in H1, H2. congruence.
Qed.
Lemma fold_levels_binds fuel l1 l2 r :
  length l1 = length l2 → resists keccak256 (fold_strings fuel l1) →
  fold_levels fuel l1 = Some r → fold_levels fuel l2 = Some r → l2 = l1.
Proof.
  revert l1 l2. induction fuel as [|fuel IH]; intros [|a [|b l1]] [|c [|d l2]] Hl Hr; try done;
    [by intros [= ->] [= ->]..|].
  intros H1 H2. cbn [fold_levels] in H1, H2.
  assert (Hn : length (fold_level (a :: b :: l1)) = length (fold_level (c :: d :: l2))).
  { rw !length_fold_level. congruence. }
  cbn [fold_strings] in Hr.
  assert (E : fold_level (c :: d :: l2) = fold_level (a :: b :: l1)).
  { eapply IH; [exact Hn| |exact H1|exact H2]. intros x y Hx. apply Hr. set_solver. }
  rw !fold_level_strings in E. symmetry. apply level_strings_inj; [done|]. symmetry.
  apply fmap_resists; [|by apply length_level_strings|done]. intros x y Hx. apply Hr. set_solver.
Qed.

Lemma root_binds_strings p1 p2 :
  length p1 = length p2 → resists keccak256 (root_strings p1) →
  compute_root_from_parts p1 = compute_root_from_parts p2 → leaf_strings p2 = leaf_strings p1.
Proof.
  intros Hl Hr. rw /compute_root_from_parts -Hl. case_match eqn:E.
  { apply Nat.eqb_eq in E. destruct p1, p2; done. }
  apply Nat.eqb_neq in E. intros Heq.
  assert (Hf : ∀ p, (λ q : PQSignature * option bytes, leaf_of q.1 q.2) <$> p = keccak256 <$> leaf_strings p).
  { intros p. by rw /leaf_strings -list_fmap_compose. }
  rw !Hf in Heq. destruct (fold_levels_total (length p1) (keccak256 <$> leaf_strings p1)) as [r E1].
  { rw /leaf_strings !length_fmap. lia. }
  { rw /leaf_strings !length_fmap. lia. }
  apply fmap_resists.
  - intros x y Hx. apply Hr. set_solver.
  - by rw /leaf_strings !length_fmap.
  - symmetry. eapply (fold_levels_binds (length p1) _ _ r).
    + by rw /leaf_strings !length_fmap.
    + intros x y Hx. apply Hr. set_solver.
    + done.
    + congruence.
Qed.

Definition parts_of (b : WitnessBundle) : list (PQSignature * option bytes) :=
  (λ w, (w_signature w, w_pubkey w)) <$> witnesses b.

Lemma leaf_strings_of b : leaf_strings (parts_of b) = tx_witness_encode <$> witnesses b.
Proof. by rw /leaf_strings /parts_of -list_fmap_compose. Qed.

(** Equal leaves are equal witnesses. *)
Lemma leaves_decode (l1 l2 : list TxWitness) :
  (∀ w, w ∈ l1 → witness_wf w) → (∀ w, w ∈ l2 → witness_wf w) →
  tx_witness_encode <$> l1 = tx_witness_encode <$> l2 → witness_nf <$> l1 = witness_nf <$> l2.
Proof.
  revert l2. induction l1 as [|w l1 IH]; intros [|v l2] H1 H2 E; try done. rw !fmap_cons in E *.
  injection E as Ew E. f_equal; [|apply IH; set_solver].
  pose proof (tx_witness_decodes w ltac:(apply H1; set_solver) []) as D1.
  pose proof (tx_witness_decodes v ltac:(apply H2; set_solver) []) as D2. rw Ew D2 in D1. congruence.
Qed.
End root.

Section theorem.
Context {R : Rlp} {RL : RlpLaws R} {Hs : Hashes}.

(** C21: The witness root commits to the witnesses.  Two well-formed bundles of
    the same length with the same root hold the same witnesses, as decoding
    gives them, unless Keccak-256 has a second preimage for a string hashed for
    the first one; the fold always ends with a root.  The variants that work on
    full transactions, without building a bundle, give the root and the encoded
    length of the bundle that splitting the block builds.  Bundles of different
    lengths can share a root: a third witness may be repeated. *)
Theorem witness_root_binds b1 b2 txs :
  short witness_wf (witnesses b1) → short witness_wf (witnesses b2) →
  length (witnesses b1) = length (witnesses b2) →
  resists keccak256 (root_strings (parts_of b1)) → short signed_wf txs →
  let bundle := MkWitnessBundle (witness_of <$> txs) in
  (compute_root b1 = compute_root b2 → witness_nf <$> witnesses b1 = witness_nf <$> witnesses b2) ∧
  (∃ r, compute_root b1 = Some r) ∧
  compute_root_from_transactions txs = compute_root bundle ∧
  encoded_length_from_transactions txs = len (witness_bundle_encode bundle) ∧
  (∀ x y z, compute_root (MkWitnessBundle [x; y; z]) = compute_root (MkWitnessBundle [x; y; z; z])).
Proof.
  intros [Hl1 Hw1] [Hl2 Hw2] Hlen Hr [Hlt Hwt] bundle. split_and!.
  - intros E. apply leaves_decode; [done..|]. rw -!leaf_strings_of.
    symmetry. apply root_binds_strings; [by rw /parts_of !length_fmap|done|done].
  - apply compute_root_total.
  - by rw /compute_root_from_transactions /compute_root /= -list_fmap_compose.
  - assert (Hs' : short witness_wf (witnesses bundle)).
    { apply (short_fmap witness_of signed_wf); [apply witness_of_wf|by split]. }
    pose proof (witnesses_sized _ Hs') as Hz.
    rw /encoded_length_from_transactions /witness_bundle_encode.
    destruct (sized_plain_list _ _ _ Hz) as [<- _]; [done|]. rw /usize_sum (sumZ_fmap _ _ txs). done.
  - done.
Qed.
End theorem.

(** ** Witness *)

Definition demo_witness (n : Z) : TxWitness := MkTxWitness (MkPQSignature MlDsa65 [n]) (Some [n; n]).
Definition demo_pair : WitnessBundle := MkWitnessBundle [demo_witness 1; demo_witness 2].
(** A hash that tells the strings of the root of [demo_pair] from all others. *)
Definition pair_keccak (l : bytes) : ShellHash :=
  if decide (l = tx_witness_encode (demo_witness 1)) then b256_of_Z 1
  else if decide (l = tx_witness_encode (demo_witness 2)) then b256_of_Z 2
  else if decide (l = as_bytes (b256_of_Z 1) ++ as_bytes (b256_of_Z 2)) then b256_of_Z 3
  else ZERO.
Definition pair_hashes : Hashes := {| keccak256 := pair_keccak; blake3_hash := pair_keccak |}.

Lemma demo_witness_wf n : 0 <= n < 256 → witness_wf (demo_witness n).
Proof.
  intros Hn. split; simpl; [split; [repeat constructor; lia|done]|].
  intros pk [= <-]. split; [repeat constructor; lia|done].
Qed.
Lemma pair_resists : @resists (@keccak256 pair_hashes) (@root_strings _ pair_hashes (parts_of demo_pair)).
Proof.
  assert (E : @root_strings _ pair_hashes (parts_of demo_pair) =
    [tx_witness_encode (demo_witness 1); tx_witness_encode (demo_witness 2);
     as_bytes (b256_of_Z 1) ++ as_bytes (b256_of_Z 2)]) by (by vm_compute).
  rw E. intros x y Hx. rw /= /pair_keccak. rw !elem_of_cons in Hx.
  assert (N1 : b256_of_Z 1 ≠ b256_of_Z 2) by (by vm_compute). assert (N2 : b256_of_Z 1 ≠ b256_of_Z 3) by (by vm_compute).
  assert (N3 : b256_of_Z 2 ≠ b256_of_Z 3) by (by vm_compute). assert (N4 : b256_of_Z 1 ≠ ZERO) by (by vm_compute).
  assert (N5 : b256_of_Z 2 ≠ ZERO) by (by vm_compute). assert (N6 : b256_of_Z 3 ≠ ZERO) by (by vm_compute).
  destruct Hx as [-> | [-> | [-> | Hx]]]; [| | |by apply elem_of_nil in Hx]; repeat case_decide; congruence.
Qed.

Lemma witness_root_binds_witness :
  compute_root (Hs := pair_hashes) demo_pair = Some (b256_of_Z 3) ∧
  encoded_length_from_transactions [sample_signed] =
    len (witness_bundle_encode (MkWitnessBundle [witness_of sample_signed])).
Proof.
  assert (Hp : short witness_wf (witnesses demo_pair)).
  { split; [done|]. intros w Hw. apply list_elem_of_In in Hw as [<- | [<- | []]]; by apply demo_witness_wf. }
  split; [by vm_compute|].
  destruct (witness_root_binds (Hs := pair_hashes) demo_pair demo_pair [sample_signed] Hp Hp eq_refl pair_resists)
    as (_ & _ & _ & H & _); [|exact H].
  split; [done|]. intros t ->%list_elem_of_singleton. apply sample_signed_wf.
Defined.
