(* ===== verification/ChainStore.v ===== *)
(** * The chain store

    crates/storage/src/chain_store.rs: blocks, receipts and their indexes over a
    key-value store.  A block is kept in parts (header, stripped body, witness
    bundle) that can be pruned and restored apart.  [StoreM] is the monad of
    methods on the shared store.  The texts of errors that print values are
    shortened; metadata journals are in MetadataUndo.v, keys and guardians in
    AccountManager.v. *)

From S2P Require Import Prelude Primitives Block Fee Rlp Transaction TxCodec TxHash TxValidation BTree KvStore Overlay Effects BlockCodec.

(** ** Keys *)

(** [prefix::*], as bytes *)
Definition HEADER_BY_HASH : bytes := [104; 47].
Definition BODY_BY_HASH : bytes := [98; 47].
Definition WITNESS_BY_HASH : bytes := [119; 47].
Definition HASH_BY_NUMBER : bytes := [110; 47].
Definition RECEIPTS_BY_HASH : bytes := [114; 47].
Definition SYSTEM_TXS_BY_HASH : bytes := [115; 114; 47].
Definition TX_INDEX : bytes := [116; 47].
Definition HEAD_BLOCK : bytes := [72; 69; 65; 68].
Definition FINALIZED_NUMBER : bytes := [70; 73; 78; 65; 76; 73; 90; 69; 68].
Definition ADDR_TX_INDEX : bytes := [97; 47].
Definition ADDR_TX_INDEX_REV : bytes := [97; 114; 47].
Definition TOTAL_TX_COUNT : bytes := [84; 79; 84; 65; 76; 95; 84; 88; 95; 67; 79; 85; 78; 84].
Definition TOTAL_GAS_USED : bytes := [84; 79; 84; 65; 76; 95; 71; 65; 83; 95; 85; 83; 69; 68].
Definition TOTALS_HEAD : bytes := [84; 79; 84; 65; 76; 83; 95; 72; 69; 65; 68].
Definition BODY_DIGEST_BY_HASH : bytes := [98; 100; 49; 47].
Definition BODY_PRUNED_BELOW : bytes :=
  [66; 79; 68; 89; 95; 80; 82; 85; 78; 69; 68; 95; 66; 69; 76; 79; 87].
Definition WITNESS_PRUNED_BELOW : bytes :=
  [87; 73; 84; 78; 69; 83; 83; 95; 80; 82; 85; 78; 69; 68; 95; 66; 69; 76; 79; 87].
Definition SIDE_FORK_BY_NUMBER : bytes := [115; 102; 47].

Definition header_key (hash : ShellHash) : bytes := HEADER_BY_HASH ++ as_bytes hash.
Definition body_key (hash : ShellHash) : bytes := BODY_BY_HASH ++ as_bytes hash.
(** [b"ftip/"] *)
Definition priority_fees_key (hash : ShellHash) : bytes := [102; 116; 105; 112; 47] ++ as_bytes hash.
Definition body_digest_key (hash : ShellHash) : bytes := BODY_DIGEST_BY_HASH ++ as_bytes hash.
(** [b"wd/"] *)
Definition witness_digest_key (hash : ShellHash) : bytes := [119; 100; 47] ++ as_bytes hash.
Definition witness_key (hash : ShellHash) : bytes := WITNESS_BY_HASH ++ as_bytes hash.
Definition number_key (n : Z) : bytes := HASH_BY_NUMBER ++ be_bytes 8 n.
Definition receipts_key (block_hash : ShellHash) : bytes := RECEIPTS_BY_HASH ++ as_bytes block_hash.
Definition system_txs_key (block_hash : ShellHash) : bytes := SYSTEM_TXS_BY_HASH ++ as_bytes block_hash.
Definition tx_index_key (tx_hash : ShellHash) : bytes := TX_INDEX ++ as_bytes tx_hash.
Definition side_fork_prefix (n : Z) : bytes := SIDE_FORK_BY_NUMBER ++ be_bytes 8 n.
Definition side_fork_key (n : Z) (hash : ShellHash) : bytes := side_fork_prefix n ++ as_bytes hash.
Definition addr_tx_key (address : Address) (block_number tx_index : Z) : bytes :=
  ADDR_TX_INDEX ++ as_bytes address ++ be_bytes 8 block_number ++ be_bytes 4 tx_index.
(** [!block_number] is [u64::MAX - block_number]. *)
Definition addr_tx_rev_key (address : Address) (block_number tx_index : Z) : bytes :=
  ADDR_TX_INDEX_REV ++ as_bytes address ++ be_bytes 8 (u64_max - block_number) ++ be_bytes 4 tx_index.
(** [b"BSIG"] and [b"CERT"] *)
Definition block_signer_prefix (block_hash : ShellHash) : bytes := [66; 83; 73; 71] ++ as_bytes block_hash.
Definition commit_certificate_key (block_hash : ShellHash) : bytes :=
  [67; 69; 82; 84] ++ as_bytes block_hash.
(** [b"refs/"] *)
Definition trie_refcount_key (node_hash : ShellHash) : bytes :=
  [114; 101; 102; 115; 47] ++ as_bytes node_hash.

(** ** Versioned values *)

Definition VERSION_JSON : Z := 1.
Definition VERSION_RLP : Z := 2.
Definition encode_rlp {A} (enc : A → bytes) (x : A) : bytes := VERSION_RLP :: enc x.

(** [ShellHash::try_from_slice] *)
Definition hash_from_slice (l : bytes) : result ShellHash StorageError :=
  if (length l =? 32)%nat then Ok (b256_from_bytes l) else Err (Codec "invalid slice length").

(** [Vec<T>::decode] of alloy_rlp, for the decoder of [T]. *)
Class RlpVec := { vec_decode : ∀ A : Type, decoder A → decoder (list A) }.
Arguments vec_decode {_ A}.

Inductive BlockAvailability := Missing | HeaderOnly | BodyOnly | BodyWithWitness.

Record BlockSignerEvidence := MkEvidence {
  ev_address : Address;
  ev_public_key : bytes;
  ev_signature : PQSignature;
}.

Section codecs.
Context {R : Rlp}.

Definition encode_rlp_list {A} (length_ : A → Z) (enc : A → bytes) (items : list A) : bytes :=
  VERSION_RLP :: list_encode (usize_sum length_ items) (items ≫= enc).

(** RLP after a version byte, JSON after another one, or JSON without one. *)
Definition decode_versioned {A} `{Json A} (dec : decoder A) (data : bytes) : result A StorageError :=
  match data with
  | [] => Err (Codec "empty data")
  | v :: rest =>
      if v =? VERSION_RLP then
        match dec rest with
        | Err _ => Err (Codec "RLP decode")
        | Ok (x, rest) => if negb (is_empty rest) then Err (Codec "RLP decode: trailing bytes") else Ok x
        end
      else if v =? VERSION_JSON then map_err Codec (from_slice rest)
      else map_err Codec (from_slice data)
  end.

Definition decode_witness_bundle (data : bytes) : result WitnessBundle StorageError :=
  match witness_bundle_decode data with
  | Err _ => Err (Codec "witness decode")
  | Ok (b, rest) => if negb (is_empty rest) then Err (Codec "witness decode: trailing bytes") else Ok b
  end.

Definition evidence_payload_length (e : BlockSignerEvidence) : Z :=
  sat_add (sat_add (b256_length (ev_address e)) (bytes_length (ev_public_key e)))
    (sig_length (ev_signature e)).
Definition evidence_encode (e : BlockSignerEvidence) : bytes :=
  list_encode (evidence_payload_length e)
    (b256_encode (ev_address e) ++ bytes_encode (ev_public_key e) ++ sig_encode (ev_signature e)).
Definition evidence_decode : decoder BlockSignerEvidence := λ buf,
  match list_header_decode buf with
  | Err e => Err e
  | Ok (n, buf) =>
      if len buf <? n then Err InputTooShort
      else
        let inner :=
          let! address := b256_decode in
          let! public_key := bytes_decode in
          let! signature := sig_decode in
          dret (MkEvidence address public_key signature) in
        match inner (take (Z.to_nat n) buf) with
        | Err e => Err e
        | Ok (record, rest) =>
            if negb (is_empty rest) then Err (ListLengthMismatch n (n - len rest))
            else Ok (record, drop (Z.to_nat n) buf)
        end
  end.
End codecs.

(** ** Batches *)

(** [fees] of a stripped block: what its transactions pay above the base fee. *)
Definition priority_fees (body : StrippedBlock) : list Z :=
  (λ t, miner_tip (max_fee_per_gas (str_tx t)) (max_priority_fee_per_gas (str_tx t))
          (base_fee_per_gas (sb_header body))) <$> sb_transactions body.
Definition append_priority_fees (batch : WriteBatch) (hash : ShellHash) (body : StrippedBlock) : WriteBatch :=
  batch_put batch (priority_fees_key hash) (priority_fees body ≫= be_bytes 8).

Definition append_addr_tx_index (batch : WriteBatch) (address : Address) (block_number tx_index : Z)
    (tx_hash : ShellHash) : WriteBatch :=
  batch_put (batch_put batch (addr_tx_key address block_number tx_index) (as_bytes tx_hash))
    (addr_tx_rev_key address block_number tx_index) (as_bytes tx_hash).
Definition delete_addr_tx_index (batch : WriteBatch) (address : Address) (block_number tx_index : Z) :
    WriteBatch :=
  batch_delete (batch_delete batch (addr_tx_key address block_number tx_index))
    (addr_tx_rev_key address block_number tx_index).

(** The addresses a transaction is indexed under. *)
Definition index_tx (on : WriteBatch → Address → WriteBatch) (batch : WriteBatch) (t : SignedTransaction) :
    WriteBatch :=
  let batch := on batch (st_from t) in
  match tx_to (st_tx t) with
  | Some to => if bool_decide (to = st_from t) then batch else on batch to
  | None => batch
  end.

Section batches.
Context {R : Rlp} {Hs : Hashes} {JS : Json SystemTransaction} {JSL : Json (list SystemTransaction)}.

(** [block_hash ++ tx_index.to_be_bytes()] *)
Definition location (block_hash : ShellHash) (tx_index : Z) : bytes :=
  as_bytes block_hash ++ be_bytes 4 tx_index.

Definition append_transaction_indexes (batch : WriteBatch) (block : FullBlock) (block_hash : ShellHash) :
    WriteBatch :=
  foldl (λ batch (p : nat * SignedTransaction),
    let idx := Z.of_nat p.1 mod (u32_max + 1) in
    let batch := batch_put batch (tx_index_key (tx_hash p.2)) (location block_hash idx) in
    index_tx (λ batch a, append_addr_tx_index batch a (number (fb_header block)) idx (tx_hash p.2)) batch p.2)
    batch (zip (seq 0 (length (fb_transactions block))) (fb_transactions block)).

Definition append_delete_transaction_indexes (batch : WriteBatch) (block : FullBlock)
    (system_txs : list SystemTransaction) : WriteBatch :=
  let block_number := number (fb_header block) in
  let batch :=
    foldl (λ batch (p : nat * SignedTransaction),
      let idx := Z.of_nat p.1 mod (u32_max + 1) in
      let batch := batch_delete batch (tx_index_key (tx_hash p.2)) in
      index_tx (λ batch a, delete_addr_tx_index batch a block_number idx) batch p.2)
      batch (zip (seq 0 (length (fb_transactions block))) (fb_transactions block)) in
  foldl (λ batch tx,
    delete_addr_tx_index (batch_delete batch (tx_index_key (system_tx_hash tx))) (sys_to tx) block_number
      (sys_tx_index tx)) batch system_txs.

Definition append_system_transactions (batch : WriteBatch) (block_hash : ShellHash) (block_number : Z)
    (system_txs : list SystemTransaction) : result WriteBatch StorageError :=
  let? data := map_err Serialization (to_vec system_txs) in
  Ok (foldl (λ batch tx,
        let batch := batch_put batch (tx_index_key (system_tx_hash tx)) (location block_hash (sys_tx_index tx)) in
        append_addr_tx_index batch (sys_to tx) block_number (sys_tx_index tx) (system_tx_hash tx))
      (batch_put batch (system_txs_key block_hash) data) system_txs).

Definition append_block_parts (batch : WriteBatch) (block : FullBlock) (index_transactions : bool) :
    WriteBatch :=
  let block_hash := block_hash block in
  let batch := batch_put batch (header_key block_hash) (encode_rlp block_header_encode (fb_header block)) in
  let '(stripped, bundle) := split block in
  let batch := append_priority_fees batch block_hash stripped in
  let batch := batch_put batch (body_key block_hash) (encode_rlp stripped_block_encode stripped) in
  let batch :=
    if negb (is_empty (witnesses bundle))
    then batch_put batch (witness_key block_hash) (witness_bundle_encode bundle) else batch in
  if index_transactions then append_transaction_indexes batch block block_hash else batch.

Definition stage_block_signers (batch : WriteBatch) (block_hash : ShellHash)
    (signers : list BlockSignerEvidence) : WriteBatch :=
  foldl (λ batch e, batch_put batch (block_signer_prefix block_hash ++ as_bytes (ev_address e))
                      (encode_rlp evidence_encode e)) batch signers.
End batches.

Section store.
Context {D : Type} {KS : KvStore D} {R : Rlp} {RV : RlpVec} {Hs : Hashes}.
Context {JS : Json SystemTransaction} {JSL : Json (list SystemTransaction)} {JH : Json BlockHeader}
  {JB : Json StrippedBlock} {JR : Json (list TransactionReceipt)} {JE : Json BlockSignerEvidence}.
Abbreviation StoreM := (M D StorageError).

Definition kget (key : bytes) : StoreM (option bytes) := λ s, (s, kv_get s key).
Definition kput (key value : bytes) : StoreM unit := λ s, let '(r, s') := kv_put s key value in (s', r).
Definition kdelete (key : bytes) : StoreM unit := λ s, let '(r, s') := kv_delete s key in (s', r).
Definition kwrite (batch : WriteBatch) : StoreM unit := λ s,
  let '(r, s') := kv_write_batch s batch in (s', r).
(** [self.store.get(key)?.map(f).transpose()] *)
Definition kread {A} (key : bytes) (f : bytes → result A StorageError) : StoreM (option A) :=
  let* data := kget key in
  match data with
  | Some data => let* x := mlift (f data) in mret (Some x)
  | None => mret None
  end.

(** ** Reading blocks *)

Definition get_block_hash_by_number (n : Z) : StoreM (option ShellHash) :=
  kread (number_key n) hash_from_slice.
Definition get_header_by_hash (hash : ShellHash) : StoreM (option BlockHeader) :=
  kread (header_key hash) (decode_versioned block_header_decode).
Definition get_head_hash : StoreM (option ShellHash) := kread HEAD_BLOCK hash_from_slice.
Definition get_block_by_hash (hash : ShellHash) : StoreM (option FullBlock) :=
  let* stripped := kread (body_key hash) (decode_versioned stripped_block_decode) in
  match stripped with
  | None => mret None
  | Some stripped =>
      let* bundle := kread (witness_key hash) decode_witness_bundle in
      mret (Some (into_block stripped bundle))
  end.
Definition get_block_by_number (n : Z) : StoreM (option FullBlock) :=
  let* hash := kread (number_key n) hash_from_slice in
  match hash with Some hash => get_block_by_hash hash | None => mret None end.
Definition get_head_block : StoreM (option FullBlock) :=
  let* hash := get_head_hash in
  match hash with Some hash => get_block_by_hash hash | None => mret None end.

Definition has_witness_bundle (hash : ShellHash) : StoreM bool :=
  let* v := kget (witness_key hash) in mret (bool_decide (is_Some v)).
Definition has_body (hash : ShellHash) : StoreM bool :=
  let* v := kget (body_key hash) in mret (bool_decide (is_Some v)).
Definition witness_bundle_size (hash : ShellHash) : StoreM (option Z) :=
  let* v := kget (witness_key hash) in mret (len <$> v).
Definition block_availability (hash : ShellHash) : StoreM BlockAvailability :=
  let* h := kget (header_key hash) in
  let* b := kget (body_key hash) in
  let* w := kget (witness_key hash) in
  mret (match h, b, w with
        | None, None, None => Missing
        | Some _, None, _ => HeaderOnly
        | _, Some _, None => BodyOnly
        | _, Some _, Some _ => BodyWithWitness
        | None, None, Some _ => Missing
        end).

(** [bytes.as_chunks::<8>()] *)
Fixpoint chunks8 (fuel : nat) (l : bytes) : list Z :=
  match fuel, l with
  | S fuel, _ :: _ => from_be_bytes (take 8 l) :: chunks8 fuel (drop 8 l)
  | _, _ => []
  end.
Definition get_block_priority_fees (hash : ShellHash) : StoreM (option (list Z)) :=
  let* fees := kget (priority_fees_key hash) in
  match fees with
  | Some b =>
      if negb (len b mod 8 =? 0) then mfail (Codec "invalid block priority fee metadata")
      else mret (Some (chunks8 (length b) b))
  | None =>
      kread (body_key hash) (λ b, let? body := decode_versioned stripped_block_decode b in Ok (priority_fees body))
  end.

(** ** Receipts and transactions *)

Definition put_receipts (hash : ShellHash) (receipts : list TransactionReceipt) : StoreM unit :=
  kput (receipts_key hash) (encode_rlp_list receipt_length receipt_encode receipts).
Definition get_receipts (hash : ShellHash) : StoreM (option (list TransactionReceipt)) :=
  kread (receipts_key hash) (decode_versioned (vec_decode receipt_decode)).
Definition get_receipts_by_block (n : Z) : StoreM (list TransactionReceipt) :=
  let* hash := kread (number_key n) hash_from_slice in
  match hash with
  | None => mret []
  | Some hash => let* r := get_receipts hash in mret (unwrap_or [] r)
  end.
Definition get_tx_location (tx_hash : ShellHash) : StoreM (option (ShellHash * Z)) :=
  kread (tx_index_key tx_hash) (λ data,
    if negb (length data =? 36)%nat then Err (Codec "invalid tx index entry")
    else Ok (b256_from_bytes (take 32 data), from_be_bytes (drop 32 data))).
Definition get_receipt_by_tx_hash (tx_hash : ShellHash) : StoreM (option TransactionReceipt) :=
  let* loc := get_tx_location tx_hash in
  match loc with
  | None => mret None
  | Some (hash, tx_idx) =>
      let* receipts := get_receipts hash in
      match receipts with
      | None => mret None
      | Some r => mret (r !! Z.to_nat tx_idx)
      end
  end.
Definition get_system_transactions (hash : ShellHash) : StoreM (list SystemTransaction) :=
  let* l := kread (system_txs_key hash) (λ data, map_err Codec (from_slice data)) in
  mret (unwrap_or [] l).
Definition get_system_transaction_by_hash (h : ShellHash) : StoreM (option SystemTransaction) :=
  let* loc := get_tx_location h in
  match loc with
  | None => mret None
  | Some (hash, tx_idx) =>
      let* l := get_system_transactions hash in
      mret (head (filter (λ tx, (sys_tx_index tx =? tx_idx) && bool_decide (system_tx_hash tx = h) = true) l))
  end.

(** ** Storing blocks *)

Definition put_block (block : FullBlock) : StoreM unit := kwrite (append_block_parts batch_new block true).
Definition put_side_fork_block_with_signers (block : FullBlock) (signers : list BlockSignerEvidence) :
    StoreM unit :=
  let hash := block_hash block in
  let batch := append_block_parts batch_new block false in
  let batch := stage_block_signers batch hash signers in
  kwrite (batch_put batch (side_fork_key (number (fb_header block)) hash) (as_bytes hash)).
Definition put_side_fork_block (block : FullBlock) : StoreM unit := put_side_fork_block_with_signers block [].
Definition get_side_fork_hashes (n : Z) : StoreM (list ShellHash) :=
  let* entries := λ s, (s, kv_scan_prefix s (side_fork_prefix n)) in
  mlift (foldr (λ e r, let? h := hash_from_slice e.2 in let? l := r in Ok (h :: l)) (Ok []) entries).

Definition index_block_transactions (block : FullBlock) : StoreM unit :=
  let batch := append_transaction_indexes batch_new block (block_hash block) in
  let* batch := mlift (append_system_transactions batch (block_hash block) (number (fb_header block))
                         (fb_system_transactions block)) in
  kwrite batch.
Definition delete_block_transaction_indexes (hash : ShellHash) : StoreM unit :=
  let* block := get_block_by_hash hash in
  match block with
  | None => mret tt
  | Some block =>
      let* system_txs := get_system_transactions hash in
      kwrite (append_delete_transaction_indexes batch_new block system_txs)
  end.

Definition canonical_block_batch (block : FullBlock) (receipts : option (list TransactionReceipt)) :
    result WriteBatch StorageError :=
  let hash := block_hash block in
  let batch := append_block_parts batch_new block true in
  let batch :=
    match receipts with
    | Some receipts => batch_put batch (receipts_key hash) (encode_rlp_list receipt_length receipt_encode receipts)
    | None => batch
    end in
  let? batch := append_system_transactions batch hash (number (fb_header block)) (fb_system_transactions block) in
  let batch := batch_put batch (number_key (number (fb_header block))) (as_bytes hash) in
  Ok (batch_put batch HEAD_BLOCK (as_bytes hash)).
Definition commit_canonical_block (block : FullBlock) (receipts : option (list TransactionReceipt)) :
    StoreM unit :=
  let* batch := mlift (canonical_block_batch block receipts) in kwrite batch.

Definition set_canonical (n : Z) (hash : ShellHash) : StoreM unit := kput (number_key n) (as_bytes hash).
Definition delete_canonical (n : Z) : StoreM unit := kdelete (number_key n).
Definition chain_set_head (hash : ShellHash) : StoreM unit := kput HEAD_BLOCK (as_bytes hash).

(** ** Counters and cursors *)

(** [u64::from_be_bytes] of eight bytes *)
Definition u64_from_slice (msg : string) (b : bytes) : result Z StorageError :=
  if (length b =? 8)%nat then Ok (from_be_bytes b) else Err (Codec msg).
Definition set_finalized_number (n : Z) : StoreM unit := kput FINALIZED_NUMBER (be_bytes 8 n).
Definition get_finalized_number : StoreM (option Z) :=
  kread FINALIZED_NUMBER (u64_from_slice "invalid finalized number encoding").
Definition pruning_cursor (key : bytes) (msg : string) : StoreM Z :=
  let* n := kread key (u64_from_slice msg) in mret (unwrap_or 0 n).
Definition body_pruned_below : StoreM Z := pruning_cursor BODY_PRUNED_BELOW "invalid body pruning cursor encoding".
Definition witness_pruned_below : StoreM Z :=
  pruning_cursor WITNESS_PRUNED_BELOW "invalid witness pruning cursor encoding".
Definition set_total_tx_count (count : Z) : StoreM unit := kput TOTAL_TX_COUNT (be_bytes 8 count).
Definition get_total_tx_count_opt : StoreM (option Z) :=
  kread TOTAL_TX_COUNT (u64_from_slice "invalid tx count encoding").
Definition get_total_tx_count : StoreM Z := let* n := get_total_tx_count_opt in mret (unwrap_or 0 n).
Definition increment_tx_count (delta : Z) : StoreM Z :=
  let* current := get_total_tx_count in
  do* set_total_tx_count (sat_add current delta);
  mret (sat_add current delta).
Definition set_total_gas_used (total : Z) : StoreM unit := kput TOTAL_GAS_USED (be_bytes 32 total).
Definition get_total_gas_used_opt : StoreM (option Z) :=
  kread TOTAL_GAS_USED (λ b, if (length b =? 32)%nat then Ok (from_be_bytes b)
                             else Err (Codec "invalid total gas encoding")).
Definition get_total_gas_used : StoreM Z := let* n := get_total_gas_used_opt in mret (unwrap_or 0 n).
Definition set_chain_totals_head (n : Z) : StoreM unit := kput TOTALS_HEAD (be_bytes 8 n).
Definition get_chain_totals_head : StoreM (option Z) :=
  kread TOTALS_HEAD (u64_from_slice "invalid totals head encoding").
End store.

(** ** Pruning and restoration *)

Section pruning.
Context {D : Type} {KS : KvStore D} {R : Rlp} {RV : RlpVec} {Hs : Hashes}.
Context {JS : Json SystemTransaction} {JSL : Json (list SystemTransaction)} {JH : Json BlockHeader}
  {JB : Json StrippedBlock} {JR : Json (list TransactionReceipt)} {JE : Json BlockSignerEvidence}.
Abbreviation StoreM := (M D StorageError).

(** The loops over hashes; each round reads the store and extends the batch. *)
Fixpoint stage_body_deletions (batch : WriteBatch) (hashes : list ShellHash) : StoreM WriteBatch :=
  match hashes with
  | [] => mret batch
  | hash :: hashes =>
      let* body := kread (body_key hash) (decode_versioned stripped_block_decode) in
      let batch :=
        match body with
        | Some body =>
            let batch := append_priority_fees batch hash body in
            batch_put batch (body_digest_key hash)
              (as_bytes (blake3_hash (encode_rlp stripped_block_encode body)))
        | None => batch
        end in
      stage_body_deletions (batch_delete batch (body_key hash)) hashes
  end.
Definition delete_bodies (hashes : list ShellHash) : StoreM unit :=
  if is_empty hashes then mret tt
  else let* batch := stage_body_deletions batch_new hashes in kwrite batch.
Definition delete_body (hash : ShellHash) : StoreM unit := delete_bodies [hash].
Definition prune_bodies_below (hashes : list ShellHash) (pruned_below : Z) : StoreM unit :=
  let* batch := stage_body_deletions batch_new hashes in
  kwrite (batch_put batch BODY_PRUNED_BELOW (be_bytes 8 pruned_below)).

Fixpoint stage_witness_deletions (batch : WriteBatch) (hashes : list ShellHash) : StoreM WriteBatch :=
  match hashes with
  | [] => mret batch
  | hash :: hashes =>
      let* bundle := kread (witness_key hash) decode_witness_bundle in
      let batch :=
        match bundle with
        | Some bundle =>
            batch_put batch (witness_digest_key hash) (as_bytes (blake3_hash (witness_bundle_encode bundle)))
        | None => batch
        end in
      stage_witness_deletions (batch_delete batch (witness_key hash)) hashes
  end.
Definition delete_witness_bundles (hashes : list ShellHash) : StoreM unit :=
  if is_empty hashes then mret tt
  else let* batch := stage_witness_deletions batch_new hashes in kwrite batch.
Definition delete_witness_bundle (hash : ShellHash) : StoreM unit := delete_witness_bundles [hash].
Definition prune_witness_bundles_below (hashes : list ShellHash) (pruned_below : Z) : StoreM unit :=
  let* batch := stage_witness_deletions batch_new hashes in
  kwrite (batch_put batch WITNESS_PRUNED_BELOW (be_bytes 8 pruned_below)).

(** [header.witness_root.is_some_and(|root| root != ShellHash::ZERO)] *)
Definition commits_witness (h : BlockHeader) : bool :=
  match witness_root h with Some root => negb (bool_decide (root = ZERO)) | None => false end.
Definition has_recoverable_witness_gap (hash : ShellHash) : StoreM bool :=
  let* has := has_witness_bundle hash in
  if (has : bool) then mret false
  else
    let* digest := kget (witness_digest_key hash) in
    if bool_decide (is_Some digest) then mret true
    else
      let* header := get_header_by_hash hash in
      mret (match header with Some h => commits_witness h | None => false end).
Definition has_witness_gap (hash : ShellHash) : StoreM bool :=
  let* gap := has_recoverable_witness_gap hash in
  if (gap : bool) then mret true
  else
    let* has := has_witness_bundle hash in
    if (has : bool) then mret false
    else
      let* block := get_block_by_hash hash in
      mret (match block with Some b => negb (is_empty (fb_transactions b)) | None => false end).

Definition put_body_only (block : FullBlock) : StoreM unit :=
  let hash := block_hash block in
  let body_bytes := encode_rlp stripped_block_encode (split block).1 in
  let* expected := kget (body_digest_key hash) in
  if match expected with
     | Some expected => negb (bool_decide (expected = as_bytes (blake3_hash body_bytes)))
     | None => false
     end
  then mfail (InvalidInput "backfill body does not match the locally pruned body")
  else
    let batch := batch_put batch_new (body_key hash) body_bytes in
    let* pruned_below := body_pruned_below in
    let n := number (fb_header block) in
    let* rewind :=
      if n <? pruned_below
      then let* canonical := get_block_hash_by_number n in mret (bool_decide (canonical = Some hash))
      else mret false in
    kwrite (if (rewind : bool) then batch_put batch BODY_PRUNED_BELOW (be_bytes 8 n) else batch).

(** [validate_legacy] authenticates the block against historical state. *)
Definition restore_pruned_witness_with_validation (block : FullBlock)
    (validate_legacy : FullBlock → result unit StorageError) : StoreM unit :=
  let hash := block_hash block in
  let '(body, bundle) := split block in
  let* retained := kget (body_key hash) in
  let* retained :=
    match retained with
    | None => mfail (InvalidInput "witness restoration requires retained body")
    | Some retained => mlift (decode_versioned stripped_block_decode retained)
    end in
  if negb (bool_decide (encode_rlp stripped_block_encode retained = encode_rlp stripped_block_encode body))
  then mfail (InvalidInput "witness response changed retained body")
  else
    let encoded := witness_bundle_encode bundle in
    let* expected := kget (witness_digest_key hash) in
    do* (match expected with
         | Some expected =>
             if negb (bool_decide (expected = as_bytes (blake3_hash encoded)))
             then mfail (InvalidInput "restored witness differs from pruned witness") else mret tt
         | None =>
             let* header := get_header_by_hash hash in
             match header with
             | None => mfail (InvalidInput "missing local witness header")
             | Some header =>
                 if negb (commits_witness header) then mlift (validate_legacy block)
                 else if negb (bool_decide (witness_root header = compute_root bundle))
                 then mfail (InvalidInput "no matching local witness commitment for restoration")
                 else mret tt
             end
         end);
    kput (witness_key hash) encoded.
Definition no_validation (block : FullBlock) : result unit StorageError :=
  Err (InvalidInput "historical witness validation required").
Definition restore_pruned_witness (block : FullBlock) : StoreM unit :=
  restore_pruned_witness_with_validation block no_validation.

(** What a backfill writes, before it is committed. *)
Definition stage_backfill (block : FullBlock) (restore_witness : bool)
    (validate_legacy : FullBlock → result unit StorageError) : StoreM unit :=
  let* has := has_body (block_hash block) in
  do* (if (has : bool) then mret tt else put_body_only block);
  if restore_witness then restore_pruned_witness_with_validation block validate_legacy else mret tt.
End pruning.

Section maintenance.
Context {D : Type} {KS : KvStore D} {R : Rlp} {RV : RlpVec} {Hs : Hashes}.
Context {JS : Json SystemTransaction} {JSL : Json (list SystemTransaction)} {JH : Json BlockHeader}
  {JB : Json StrippedBlock} {JR : Json (list TransactionReceipt)} {JE : Json BlockSignerEvidence}.
Abbreviation StoreM := (M D StorageError).

(** The body and the witness are staged in an overlay and committed together. *)
Definition put_backfill_block_with_validation (block : FullBlock) (restore_witness : bool)
    (validate_legacy : FullBlock → result unit StorageError) : StoreM unit := λ s,
  match stage_backfill block restore_witness validate_legacy (overlay_new s) with
  | (o, Err e) => (base o, Err e)
  | (o, Ok _) => let '(r, o) := commit o in (base o, r)
  end.
Definition put_backfill_block (block : FullBlock) (restore_witness : bool) : StoreM unit :=
  put_backfill_block_with_validation block restore_witness no_validation.

(** ** Reorganisation *)

(** The number of transactions a block shows. *)
Definition visible_txs (b : FullBlock) : Z :=
  sat_add (len (fb_transactions b)) (len (fb_system_transactions b)).
Definition count_txs (l : list FullBlock) : result Z StorageError :=
  foldl (λ r b, let? total := r in
    ok_or (checked_add total (visible_txs b)) (Codec "reorg transaction count overflow")) (Ok 0) l.
(** [U256] addition that saturates; checked subtraction and addition. *)
Definition u256_sat_add (a b : Z) : Z := Z.min (a + b) u256_max.
Definition sum_gas (l : list FullBlock) : Z := foldl (λ total b, u256_sat_add total (gas_used (fb_header b))) 0 l.
Definition u256_shift (current removed added : Z) : option Z :=
  if current <? removed then None
  else if u256_max <? current - removed + added then None else Some (current - removed + added).
Definition u64_shift (current removed added : Z) : option Z :=
  if current <? removed then None else checked_add (current - removed) added.

Definition append_reorg_totals (batch : WriteBatch) (old_chain new_chain : list FullBlock)
    (new_head : ShellHash) : StoreM WriteBatch :=
  match last old_chain with
  | None => mret batch
  | Some old_tip =>
      let* head := get_chain_totals_head in
      if negb (bool_decide (head = Some (number (fb_header old_tip)))) then mret batch
      else
        let* txs := get_total_tx_count_opt in
        let* gas := get_total_gas_used_opt in
        match txs, gas with
        | Some current_txs, Some current_gas =>
            let* removed_txs := mlift (count_txs old_chain) in
            let* added_txs := mlift (count_txs new_chain) in
            let* next_txs := mlift (ok_or (u64_shift current_txs removed_txs added_txs)
                                      (Codec "reorg transaction totals underflow")) in
            let* next_gas := mlift (ok_or (u256_shift current_gas (sum_gas old_chain) (sum_gas new_chain))
                                      (Codec "reorg gas totals underflow")) in
            let* new_head_number :=
              match last new_chain with
              | Some b => mret (number (fb_header b))
              | None =>
                  let* header := get_header_by_hash new_head in
                  mlift (ok_or (number <$> header) (Codec "new canonical head header is unavailable while updating totals"))
              end in
            mret (batch_put (batch_put (batch_put batch TOTAL_TX_COUNT (be_bytes 8 next_txs))
                    TOTAL_GAS_USED (be_bytes 32 next_gas)) TOTALS_HEAD (be_bytes 8 new_head_number))
        | _, _ => mret batch
        end
  end.

Fixpoint stage_old_chain (batch : WriteBatch) (old_chain : list FullBlock) : StoreM WriteBatch :=
  match old_chain with
  | [] => mret batch
  | block :: old_chain =>
      let* canonical := get_block_hash_by_number (number (fb_header block)) in
      if negb (bool_decide (canonical = Some (block_hash block)))
      then mfail (InvalidInput "reorg rollback block is not canonical")
      else
        let* system_txs := get_system_transactions (block_hash block) in
        stage_old_chain (append_delete_transaction_indexes batch block system_txs) old_chain
  end.
Definition stage_new_block (r : result WriteBatch StorageError) (block : FullBlock) :
    result WriteBatch StorageError :=
  let? batch := r in
  let batch := append_transaction_indexes batch block (block_hash block) in
  let? batch := append_system_transactions batch (block_hash block) (number (fb_header block))
                  (fb_system_transactions block) in
  Ok (batch_put batch (number_key (number (fb_header block))) (as_bytes (block_hash block))).

Definition reorg_batch (old_chain new_chain : list FullBlock) (stale_canonical_numbers : list Z)
    (new_head : ShellHash) : StoreM WriteBatch :=
  let* batch := stage_old_chain batch_new old_chain in
  let* batch := mlift (foldl stage_new_block (Ok batch) new_chain) in
  let batch := foldl (λ batch n, batch_delete batch (number_key n)) batch stale_canonical_numbers in
  append_reorg_totals (batch_put batch HEAD_BLOCK (as_bytes new_head)) old_chain new_chain new_head.
Definition commit_reorg (old_chain new_chain : list FullBlock) (stale_canonical_numbers : list Z)
    (new_head : ShellHash) : StoreM unit :=
  let* batch := reorg_batch old_chain new_chain stale_canonical_numbers new_head in kwrite batch.

Fixpoint stage_removed (batch : WriteBatch) (removed : list FullBlock) : StoreM WriteBatch :=
  match removed with
  | [] => mret batch
  | block :: removed =>
      let* system_txs := get_system_transactions (block_hash block) in
      stage_removed (append_delete_transaction_indexes batch block system_txs) removed
  end.
Definition commit_canonical_rewind (removed_blocks : list FullBlock) (stale_canonical_numbers : list Z)
    (new_head : ShellHash) (total_tx_count total_gas_used finalized_number : Z) : StoreM unit :=
  let* batch := stage_removed batch_new removed_blocks in
  let batch := foldl (λ batch n, batch_delete batch (number_key n)) batch stale_canonical_numbers in
  let batch := batch_put batch HEAD_BLOCK (as_bytes new_head) in
  let batch := batch_put batch TOTAL_TX_COUNT (be_bytes 8 total_tx_count) in
  let batch := batch_put batch TOTAL_GAS_USED (be_bytes 32 total_gas_used) in
  let* header := get_header_by_hash new_head in
  let* n := mlift (ok_or (number <$> header) (InvalidInput "canonical rewind head header is unavailable")) in
  let batch := batch_put batch TOTALS_HEAD (be_bytes 8 n) in
  kwrite (batch_put batch FINALIZED_NUMBER (be_bytes 8 finalized_number)).
End maintenance.
