(* ===== verification/ChainOps.v ===== *)
(** * Batches of the chain store as writes to keys

    The kinds of keys that ChainStore.v uses, and that no two of them meet; the
    batches that it builds, as lists of writes to typed keys, and what a batch
    leaves under a key. *)

From S2P Require Import Prelude Primitives Block Fee Rlp Transaction TxCodec TxHash TxValidation BTree KvStore Overlay Effects BlockCodec BlockRoundtrip ChainStore.

(** ** The keys *)

Inductive ChainKey :=
| KHeader (h : ShellHash)
| KBody (h : ShellHash)
| KFees (h : ShellHash)
| KBodyDigest (h : ShellHash)
| KWitnessDigest (h : ShellHash)
| KWitness (h : ShellHash)
| KNumber (n : Z)
| KReceipts (h : ShellHash)
| KSystem (h : ShellHash)
| KTx (h : ShellHash)
| KSide (n : Z) (h : ShellHash)
| KAddr (a : Address) (n i : Z)
| KAddrRev (a : Address) (n i : Z)
| KSigner (h : ShellHash) (a : Address)
| KCert (h : ShellHash)
| KRef (h : ShellHash)
| KHead
| KFinalized
| KTotalTx
| KTotalGas
| KTotalsHead
| KBodyPruned
| KWitnessPruned.
#[global] Instance ChainKey_eq_dec : EqDecision ChainKey.
Proof. solve_decision. Defined.

Definition key_bytes (k : ChainKey) : bytes :=
  match k with
  | KHeader h => header_key h
  | KBody h => body_key h
  | KFees h => priority_fees_key h
  | KBodyDigest h => body_digest_key h
  | KWitnessDigest h => witness_digest_key h
  | KWitness h => witness_key h
  | KNumber n => number_key n
  | KReceipts h => receipts_key h
  | KSystem h => system_txs_key h
  | KTx h => tx_index_key h
  | KSide n h => side_fork_key n h
  | KAddr a n i => addr_tx_key a n i
  | KAddrRev a n i => addr_tx_rev_key a n i
  | KSigner h a => block_signer_prefix h ++ as_bytes a
  | KCert h => commit_certificate_key h
  | KRef h => trie_refcount_key h
  | KHead => HEAD_BLOCK
  | KFinalized => FINALIZED_NUMBER
  | KTotalTx => TOTAL_TX_COUNT
  | KTotalGas => TOTAL_GAS_USED
  | KTotalsHead => TOTALS_HEAD
  | KBodyPruned => BODY_PRUNED_BELOW
  | KWitnessPruned => WITNESS_PRUNED_BELOW
  end.

(** Block numbers are [u64], transaction indexes [u32]. *)
Definition key_ok (k : ChainKey) : Prop :=
  match k with
  | KNumber n | KSide n _ => in_u64 n
  | KAddr _ n i | KAddrRev _ n i => in_u64 n ∧ 0 <= i <= u32_max
  | _ => True
  end.

Definition tags : list bytes :=
  [HEADER_BY_HASH; BODY_BY_HASH; [102; 116; 105; 112; 47]; BODY_DIGEST_BY_HASH; [119; 100; 47];
   WITNESS_BY_HASH; HASH_BY_NUMBER; RECEIPTS_BY_HASH; SYSTEM_TXS_BY_HASH; TX_INDEX; SIDE_FORK_BY_NUMBER;
   ADDR_TX_INDEX; ADDR_TX_INDEX_REV; [66; 83; 73; 71]; [67; 69; 82; 84]; [114; 101; 102; 115; 47];
   HEAD_BLOCK; FINALIZED_NUMBER; TOTAL_TX_COUNT; TOTAL_GAS_USED; TOTALS_HEAD; BODY_PRUNED_BELOW;
   WITNESS_PRUNED_BELOW].
Definition key_kind (k : ChainKey) : nat :=
  match k with
  | KHeader _ => 0 | KBody _ => 1 | KFees _ => 2 | KBodyDigest _ => 3 | KWitnessDigest _ => 4
  | KWitness _ => 5 | KNumber _ => 6 | KReceipts _ => 7 | KSystem _ => 8 | KTx _ => 9 | KSide _ _ => 10
  | KAddr _ _ _ => 11 | KAddrRev _ _ _ => 12 | KSigner _ _ => 13 | KCert _ => 14 | KRef _ => 15
  | KHead => 16 | KFinalized => 17 | KTotalTx => 18 | KTotalGas => 19 | KTotalsHead => 20
  | KBodyPruned => 21 | KWitnessPruned => 22
  end%nat.
(** What follows the tag. *)
Definition key_rest (k : ChainKey) : bytes :=
  match k with
  | KHeader h | KBody h | KFees h | KBodyDigest h | KWitnessDigest h | KWitness h | KReceipts h
  | KSystem h | KTx h | KCert h | KRef h => as_bytes h
  | KNumber n => be_bytes 8 n
  | KSide n h => be_bytes 8 n ++ as_bytes h
  | KAddr a n i => as_bytes a ++ be_bytes 8 n ++ be_bytes 4 i
  | KAddrRev a n i => as_bytes a ++ be_bytes 8 (u64_max - n) ++ be_bytes 4 i
  | KSigner h a => as_bytes h ++ as_bytes a
  | _ => []
  end.

Lemma key_split k : ∃ t, tags !! key_kind k = Some t ∧ key_bytes k = t ++ key_rest k.
Proof.
  destruct k; (eexists; split; [reflexivity|]);
    rw /key_bytes /key_rest ?app_nil_r;
    first [reflexivity|rw /side_fork_key /side_fork_prefix -app_assoc; reflexivity
      |rw /block_signer_prefix -app_assoc; reflexivity].
Qed.

(** No tag starts another one. *)
Lemma tags_apart i j t t' : tags !! i = Some t → tags !! j = Some t' → t `prefix_of` t' → i = j.
Proof.
  assert (H : Forall (λ i, Forall (λ j, unwrap_or [] (tags !! i) `prefix_of` unwrap_or [] (tags !! j) → i = j)
      (seq 0 23)) (seq 0 23)).
  { apply (bool_decide_unpack _). vm_compute. exact I. }
  intros Hi Hj Hp. pose proof (lookup_lt_Some _ _ _ Hi). pose proof (lookup_lt_Some _ _ _ Hj).
  rw !Forall_forall in H. specialize (H i ltac:(apply elem_of_seq; simpl in *; lia)).
  rw Forall_forall in H. specialize (H j ltac:(apply elem_of_seq; simpl in *; lia)).
  rw Hi Hj in H. by apply H.
Qed.

Lemma key_kind_inj k k' : key_bytes k = key_bytes k' → key_kind k = key_kind k' ∧ key_rest k = key_rest k'.
Proof.
  intros E. destruct (key_split k) as (t & Ht & Ek), (key_split k') as (t' & Ht' & Ek').
  rw Ek Ek' in E.
  destruct (prefix_weak_total t t' (t ++ key_rest k)) as [Hp|Hp].
  - by apply prefix_app_r.
  - rw E. by apply prefix_app_r.
  - pose proof (tags_apart _ _ _ _ Ht Ht' Hp) as K. split; [done|]. rw K Ht' in Ht. by simplify_eq.
  - pose proof (tags_apart _ _ _ _ Ht' Ht Hp) as K. split; [done|]. rw K Ht in Ht'. by simplify_eq.
Qed.

Lemma u32_bytes_inj n m : 0 <= n <= u32_max → 0 <= m <= u32_max → be_bytes 4 n = be_bytes 4 m → n = m.
Proof. intros. apply (be_bytes_inj 4); [unfold u32_max in *; change (256 ^ Z.of_nat 4) with (2 ^ 32); lia..|done]. Qed.

Lemma key_bytes_inj k k' : key_ok k → key_ok k' → key_bytes k = key_bytes k' → k = k'.
Proof.
  intros Hk Hk' [E Er]%key_kind_inj. destruct k, k'; try discriminate E; cbn [key_rest key_ok] in *.
  1-6, 8-10, 15-16: by apply as_bytes_inj in Er as ->.
  - by rw (be_u64_inj _ _ Er Hk Hk').
  - apply app_inj_1 in Er as [E1 E2%as_bytes_inj]; [|by rw !length_be_bytes]. by rw (be_u64_inj _ _ E1 Hk Hk') E2.
  - destruct Hk, Hk'. apply app_inj_1 in Er as [->%as_bytes_inj Er]; [|by rw !length_as_bytes].
    apply app_inj_1 in Er as [E1 E2]; [|by rw !length_be_bytes].
    f_equal; [by apply be_u64_inj|by apply u32_bytes_inj].
  - destruct Hk, Hk'. apply app_inj_1 in Er as [->%as_bytes_inj Er]; [|by rw !length_as_bytes].
    apply app_inj_1 in Er as [E1 E2]; [|by rw !length_be_bytes].
    apply be_u64_inj in E1; [|unfold in_u64 in *; lia..]. f_equal; [lia|by apply u32_bytes_inj].
  - apply app_inj_1 in Er as [->%as_bytes_inj ->%as_bytes_inj]; [done|by rw !length_as_bytes].
  - done.
  - done.
  - done.
  - done.
  - done.
  - done.
  - done.
Qed.

(** ** Writes to keys *)

#[local] Arguments be_bytes : simpl never.

(** A write: a value, or none to delete the key. *)
Abbreviation KeyOp := (ChainKey * option bytes)%type.
Definition op_bytes (op : KeyOp) : WriteBatchOp :=
  match op.2 with Some v => BatchPut (key_bytes op.1) v | None => BatchDelete (key_bytes op.1) end.
Definition ops_ok (ops : list KeyOp) : Prop := Forall (λ op, key_ok op.1) ops.

(** The last write to a key. *)
Definition final (ops : list KeyOp) (k : ChainKey) : option (option bytes) :=
  foldl (λ acc op, if decide (op.1 = k) then Some op.2 else acc) None ops.
Definition touched (ops : list KeyOp) : list ChainKey := ops.*1.

Lemma final_nil k : final [] k = None.
Proof. done. Qed.
Lemma final_app a b k : final (a ++ b) k = match final b k with Some o => Some o | None => final a k end.
Proof.
  rw /final foldl_app. generalize (foldl (λ acc op, if decide (op.1 = k) then Some op.2 else acc) None a).
  intros acc. induction b as [|op b IH] using rev_ind; [done|]. rw !foldl_app /=. by case_decide.
Qed.
Lemma final_one op k : final [op] k = if decide (op.1 = k) then Some op.2 else None.
Proof. done. Qed.
Lemma final_cons op ops k :
  final (op :: ops) k = match final ops k with Some o => Some o | None => if decide (op.1 = k) then Some op.2 else None end.
Proof. by rw -(final_app [op]) /=. Qed.
Lemma final_untouched ops k : k ∉ touched ops → final ops k = None.
Proof.
  induction ops as [|op ops IH] using rev_ind; [done|]. rw /touched fmap_app not_elem_of_app. intros [H1 H2].
  rw final_app final_one decide_False; [set_solver|]. by apply IH.
Qed.

(** What a batch leaves in the store. *)
Lemma batch_lookup (m : contents) ops k :
  ops_ok ops → key_ok k →
  apply_batch m (op_bytes <$> ops) !! key_bytes k =
  match final ops k with Some o => o | None => m !! key_bytes k end.
Proof.
  intros Hok Hk. induction ops as [|op ops IH] using rev_ind; [done|].
  apply Forall_app in Hok as [Hok [Hop _]%Forall_cons].
  rw fmap_app /apply_batch foldl_app -/(apply_batch m _) final_app final_one /=.
  destruct op as [k' v]; cbn [fst snd] in *. case_decide as E.
  - subst. destruct v; simpl; [by rw lookup_insert_eq|by rw lookup_delete_eq].
  - assert (key_bytes k' ≠ key_bytes k) by (intros K; apply E; by apply key_bytes_inj).
    destruct v; simpl; [rw lookup_insert_ne //|rw lookup_delete_ne //]; by apply IH.
Qed.

Lemma foldl_append {A} (f : WriteBatch → A → WriteBatch) (g : A → list KeyOp) batch l :
  (∀ batch x, f batch x = batch ++ (op_bytes <$> g x)) →
  foldl f batch l = batch ++ (op_bytes <$> (l ≫= g)).
Proof.
  intros Hf. revert batch. induction l as [|x l IH]; intros batch; [by rw app_nil_r|].
  by rw bind_cons fmap_app /= IH Hf app_assoc.
Qed.

(** ** The batches *)

Definition addresses_of (t : SignedTransaction) : list Address :=
  st_from t ::
  match tx_to (st_tx t) with Some to => if bool_decide (to = st_from t) then [] else [to] | None => [] end.
Definition addr_puts (n i : Z) (h : ShellHash) (a : Address) : list KeyOp :=
  [(KAddr a n i, Some (as_bytes h)); (KAddrRev a n i, Some (as_bytes h))].
Definition addr_dels (n i : Z) (a : Address) : list KeyOp := [(KAddr a n i, None); (KAddrRev a n i, None)].
(** [i as u32] *)
Definition as_u32 (i : nat) : Z := Z.of_nat i mod (u32_max + 1).
(** [enumerate()] *)
Definition numbered {A} (l : list A) : list (nat * A) := zip (seq 0 (length l)) l.

Lemma index_tx_ops (on : WriteBatch → Address → WriteBatch) g batch t :
  (∀ batch a, on batch a = batch ++ (op_bytes <$> g a)) →
  index_tx on batch t = batch ++ (op_bytes <$> (addresses_of t ≫= g)).
Proof.
  intros Hon. rw /index_tx /addresses_of bind_cons fmap_app Hon app_assoc.
  destruct (tx_to (st_tx t)) as [to|]; [case_bool_decide|]; rw ?app_nil_r //.
  rw Hon /= app_nil_r. done.
Qed.

Section ops.
Context {R : Rlp} {Hs : Hashes} {JS : Json SystemTransaction} {JSL : Json (list SystemTransaction)}.

Definition tx_puts (n : Z) (h : ShellHash) (p : nat * SignedTransaction) : list KeyOp :=
  (KTx (tx_hash p.2), Some (location h (as_u32 p.1))) ::
  (addresses_of p.2 ≫= addr_puts n (as_u32 p.1) (tx_hash p.2)).
Definition tx_dels (n : Z) (p : nat * SignedTransaction) : list KeyOp :=
  (KTx (tx_hash p.2), None) :: (addresses_of p.2 ≫= addr_dels n (as_u32 p.1)).
Definition system_puts (n : Z) (h : ShellHash) (tx : SystemTransaction) : list KeyOp :=
  (KTx (system_tx_hash tx), Some (location h (sys_tx_index tx))) ::
  addr_puts n (sys_tx_index tx) (system_tx_hash tx) (sys_to tx).
Definition system_dels (n : Z) (tx : SystemTransaction) : list KeyOp :=
  (KTx (system_tx_hash tx), None) :: addr_dels n (sys_tx_index tx) (sys_to tx).

Definition index_ops (b : FullBlock) (h : ShellHash) : list KeyOp :=
  numbered (fb_transactions b) ≫= tx_puts (number (fb_header b)) h.
Definition unindex_ops (b : FullBlock) (system_txs : list SystemTransaction) : list KeyOp :=
  (numbered (fb_transactions b) ≫= tx_dels (number (fb_header b))) ++
  (system_txs ≫= system_dels (number (fb_header b))).

Lemma append_transaction_indexes_ops batch b h :
  append_transaction_indexes batch b h = batch ++ (op_bytes <$> index_ops b h).
Proof.
  rw /append_transaction_indexes. apply foldl_append. intros bt [i t].
  rw (index_tx_ops _ (addr_puts (number (fb_header b)) (as_u32 i) (tx_hash t))).
  { intros bt' a. by rw /append_addr_tx_index /batch_put -app_assoc. }
  by rw /batch_put /tx_puts /= -app_assoc.
Qed.
Lemma append_delete_ops batch b l :
  append_delete_transaction_indexes batch b l = batch ++ (op_bytes <$> unindex_ops b l).
Proof.
  rw /append_delete_transaction_indexes.
  rw (foldl_append _ (system_dels (number (fb_header b)))).
  { intros bt tx. by rw /delete_addr_tx_index /batch_delete -!app_assoc. }
  rw (foldl_append _ (tx_dels (number (fb_header b)))).
  { intros bt [i t]. rw (index_tx_ops _ (addr_dels (number (fb_header b)) (as_u32 i))).
    - intros bt' a. by rw /delete_addr_tx_index /batch_delete -app_assoc.
    - by rw /batch_delete /tx_dels /= -app_assoc. }
  by rw /unindex_ops fmap_app app_assoc.
Qed.
Lemma append_system_ops batch h n l data :
  to_vec l = Ok data →
  append_system_transactions batch h n l =
  Ok (batch ++ (op_bytes <$> ((KSystem h, Some data) :: (l ≫= system_puts n h)))).
Proof.
  intros E. rw /append_system_transactions E /=. f_equal. rw (foldl_append _ (system_puts n h)).
  - intros bt tx. by rw /append_addr_tx_index /batch_put -!app_assoc.
  - by rw /batch_put -app_assoc.
Qed.

Definition part_ops (b : FullBlock) : list KeyOp :=
  let h := block_hash b in
  [(KHeader h, Some (encode_rlp block_header_encode (fb_header b)));
   (KFees h, Some (priority_fees (split b).1 ≫= be_bytes 8));
   (KBody h, Some (encode_rlp stripped_block_encode (split b).1))] ++
  (if is_empty (fb_transactions b) then []
   else [(KWitness h, Some (witness_bundle_encode (split b).2))]).
Lemma append_block_parts_ops batch b (index : bool) :
  append_block_parts batch b index =
  batch ++ (op_bytes <$> (part_ops b ++ if index then index_ops b (block_hash b) else [])).
Proof.
  rw /append_block_parts /part_ops /append_priority_fees /batch_put.
  assert (Hw : is_empty (witnesses (split b).2) = is_empty (fb_transactions b)) by (by destruct b as [h [|t l] y z]).
  destruct (split b) as [stripped bundle] eqn:E. simpl in Hw. rw Hw.
  destruct index; rw ?append_transaction_indexes_ops; destruct (is_empty (fb_transactions b)); simpl;
    rw ?fmap_app -!app_assoc //.
Qed.

Definition receipt_ops (b : FullBlock) (rs : option (list TransactionReceipt)) : list KeyOp :=
  match rs with
  | Some rs => [(KReceipts (block_hash b), Some (encode_rlp_list receipt_length receipt_encode rs))]
  | None => []
  end.
Definition canonical_ops (b : FullBlock) (rs : option (list TransactionReceipt)) (data : bytes) : list KeyOp :=
  let h := block_hash b in
  let n := number (fb_header b) in
  part_ops b ++ index_ops b h ++ receipt_ops b rs ++
  ((KSystem h, Some data) :: (fb_system_transactions b ≫= system_puts n h)) ++
  [(KNumber n, Some (as_bytes h)); (KHead, Some (as_bytes h))].
Lemma canonical_block_batch_ops b rs data :
  to_vec (fb_system_transactions b) = Ok data →
  canonical_block_batch b rs = Ok (op_bytes <$> canonical_ops b rs data).
Proof.
  intros E. rw /canonical_block_batch append_block_parts_ops /canonical_ops.
  destruct rs as [rs|]; rw /batch_put (append_system_ops _ _ _ _ _ E); cbn [result_bind receipt_ops];
    rw !fmap_app -!app_assoc //.
Qed.
End ops.

(** ** Laws of [Vec<T>::decode] *)

Class RlpVecLaws (R : Rlp) (RV : RlpVec) : Prop := {
  vec_decode_encode {A} (enc : A → bytes) dec nf (l : list A) n rest :
    n = len (l ≫= enc) → n <= u64_max →
    (∀ x, x ∈ l → decodes enc dec nf x ∧ (0 < length (enc x))%nat) →
    vec_decode dec (list_encode n (l ≫= enc) ++ rest) = Ok (nf <$> l, rest);
}.

(** Block numbers and indexes in their ranges. *)
Definition in_range_block (b : FullBlock) : Prop :=
  in_u64 (number (fb_header b)) ∧
  Forall (λ tx, 0 <= sys_tx_index tx <= u32_max) (fb_system_transactions b).
