(* ===== verification/ChainDemo.v ===== *)
(** * A concrete chain

    Instances of the parameters of ChainStore.v and a block with one
    transaction and one system transaction, used to evaluate the chain store. *)

From S2P Require Import Prelude Primitives Block Fee Rlp RlpImpl Transaction TxCodec TxHash TxValidation BTree KvStore Overlay Effects BlockCodec BlockRoundtrip ChainStore ChainOps.

(** [Vec<T>::decode]: the elements of the payload of a list. *)
#[export] Instance impl_vec : RlpVec := {|
  vec_decode A dec := λ buf,
    match list_header_decode buf with
    | Err e => Err e
    | Ok (n, buf) =>
        match decode_until dec 0 (take (Z.to_nat n) buf) with
        | Err e => Err e
        | Ok (l, _) => Ok (l, drop (Z.to_nat n) buf)
        end
    end;
|}.
#[export] Instance impl_vec_laws : RlpVecLaws rlp_impl impl_vec.
Proof.
  split. intros A enc dec nf l n rest Hn Hu Hl. rw /= /list_encode -app_assoc.
  rw list_header_decodes; [rw Hn /len length_app; lia|done|].
  replace (Z.to_nat n) with (length (l ≫= enc)) by (rw Hn /len; lia).
  rw take_app_length drop_app_length /decode_until.
  rw (decode_loop_while _ EmptyString _ _ _ _ (nf <$> l, [])); [|done].
  rw -{2}(app_nil_r (l ≫= enc)). change 0 with (Z.of_nat (length (A := Z) [])).
  apply (decode_while_encode enc _ nf _ _ _ [] []); [|done].
  apply length_concat_ge. intros x Hx. by apply Hl.
Qed.

(** JSON forms of the values used here. *)
Definition demo_reward : SystemTransaction := block_gas_reward 1 7 1 (b256_of_Z 11) 500 (b256_of_Z 99).
#[export] Instance SystemTxKind_eq_dec : EqDecision SystemTxKind.
Proof. solve_decision. Defined.
#[export] Instance SystemTransaction_eq_dec : EqDecision SystemTransaction.
Proof. solve_decision. Defined.
#[export] Instance demo_system_json : Json SystemTransaction := {|
  to_vec x := if decide (x = demo_reward) then Ok [123; 125] else Err "unknown"%string;
  from_slice b := if decide (b = [123; 125]) then Ok demo_reward else Err "unknown"%string;
|}.
#[export] Instance demo_systems_json : Json (list SystemTransaction) := {|
  to_vec x := if decide (x = [demo_reward]) then Ok [91; 93] else Err "unknown"%string;
  from_slice b := if decide (b = [91; 93]) then Ok [demo_reward] else Err "unknown"%string;
|}.
#[export] Instance demo_system_laws : JsonLaws SystemTransaction.
Proof. split. intros x b. simpl. case_decide; [|done]. by intros [= <-]; subst. Qed.
#[export] Instance demo_systems_laws : JsonLaws (list SystemTransaction).
Proof. split. intros x b. simpl. case_decide; [|done]. by intros [= <-]; subst. Qed.
(** No stored value here is in an old JSON form. *)
Definition no_json (A : Type) : Json A := {| to_vec _ := Err "none"%string; from_slice _ := Err "none"%string |}.
#[export] Instance header_json : Json BlockHeader := no_json _.
#[export] Instance body_json : Json StrippedBlock := no_json _.
#[export] Instance receipts_json : Json (list TransactionReceipt) := no_json _.

(** A polynomial hash. *)
Definition poly (l : bytes) : Z := foldl (λ a b, a * 257 + b + 1) 0 l.
#[export] Instance poly_hashes : Hashes := {|
  keccak256 l := b256_of_Z (poly l * 2);
  blake3_hash l := b256_of_Z (poly l * 2 + 1);
|}.

(** A transaction in the form that decoding gives. *)
Definition demo_tx : SignedTransaction := signed_nf sample_signed.
Definition demo_bundle : WitnessBundle := MkWitnessBundle [witness_of demo_tx].
Definition demo_header : BlockHeader :=
  Build_BlockHeader (b256_of_Z 99) (b256_of_Z 1) (b256_of_Z 2) (b256_of_Z 3) (replicate 256 0) 7 30000000
    21000 1700000000 [] (b256_of_Z 11) None 10 ZERO ZERO 0 0 (compute_root demo_bundle).
Definition demo_block : FullBlock :=
  MkFullBlock demo_header [demo_tx] [demo_reward] (Some (MkPQSignature MlDsa65 [8; 8])).
Definition demo_receipt : TransactionReceipt :=
  MkReceipt (tx_hash demo_tx) 7 0 1 21000 21000 None (replicate 256 0)
    [MkLog (b256_of_Z 5) [b256_of_Z 21; b256_of_Z 22] [1; 2; 3]].

Lemma zeros_small : small_bytes (replicate 256 0).
Proof. split; [apply Forall_replicate; lia|done]. Qed.
Lemma demo_tx_wf : signed_wf demo_tx.
Proof.
  split; simpl.
  - destruct sample_tx_wf. split; try done.
  - by split; [wf_bytes|].
  - intros pk [= <-]. by split; [wf_bytes|].
  - intros b [= <-]. split; [done|]. destruct sample_bundle_wf. split; try done.
Qed.
Lemma demo_block_wf : block_wf demo_block.
Proof.
  pose proof zeros_small.
  split.
  - split; simpl; try done.
    all: by split; [wf_bytes|].
  - split; [done|]. intros t ->%list_elem_of_singleton. apply demo_tx_wf.
  - split; [done|]. intros t ->%list_elem_of_singleton. exists [123; 125]. split; [by vm_compute|by split; [wf_bytes|]].
  - intros sg [= <-]. by split; [wf_bytes|].
Qed.
Lemma demo_receipts_wf : short receipt_wf [demo_receipt].
Proof.
  split; [done|]. intros r ->%list_elem_of_singleton. split; simpl; try done.
  - exact zeros_small.
  - split; [done|]. intros l ->%list_elem_of_singleton. split; simpl; [unfold MAX_LOG_TOPICS; lia|]. by split; [wf_bytes|].
Qed.
Lemma demo_in_range : in_range_block demo_block.
Proof. split; [done|]. by repeat constructor. Qed.
