(* ===== verification/ChainProps.v ===== *)
(** * What the chain store keeps

    Theorems on the chain store of ChainStore.v over any key-value store that
    obeys [KvLaws]: a committed block can be read back in every way, and leaves
    other blocks alone. *)

From S2P Require Import Prelude Primitives Block Fee Rlp RlpImpl Transaction TxCodec TxHash TxValidation BTree KvStore Overlay Effects BlockCodec BlockRoundtrip ChainStore ChainOps ChainDemo.

#[local] Arguments be_bytes : simpl never.

(** ** Keys that only indexes use *)

Definition index_key (k : ChainKey) : bool :=
  match k with KTx _ | KAddr _ _ _ | KAddrRev _ _ _ => true | _ => false end.

Lemma bind_untouched {A} (g : A → list KeyOp) l k : (∀ x, x ∈ l → k ∉ touched (g x)) → final (l ≫= g) k = None.
Proof.
  intros Hg. induction l as [|x l IH]; [done|]. rw bind_cons final_app IH; [set_solver|].
  apply final_untouched. set_solver.
Qed.
Lemma touched_bind {A} (g : A → list KeyOp) l k : k ∈ touched (l ≫= g) ↔ ∃ x, x ∈ l ∧ k ∈ touched (g x).
Proof.
  induction l as [|x l IH]; [set_solver|]. rw bind_cons /touched fmap_app elem_of_app IH. set_solver.
Qed.
Lemma ops_ok_bind {A} (g : A → list KeyOp) l : (∀ x, x ∈ l → ops_ok (g x)) → ops_ok (l ≫= g).
Proof. intros Hg. induction l as [|x l IH]; [constructor|]. rw bind_cons. apply Forall_app. split; [|apply IH]; set_solver. Qed.

(** The last element that writes a key decides. *)
Lemma bind_final {A} (g : A → list KeyOp) l1 x l2 k v :
  (∀ y, y ∈ l2 → k ∉ touched (g y)) → final (g x) k = Some v → final ((l1 ++ x :: l2) ≫= g) k = Some v.
Proof. intros H2 Hx. by rw bind_app bind_cons !final_app (bind_untouched _ _ _ H2) Hx. Qed.

Section touches.
Context {R : Rlp} {Hs : Hashes} {JS : Json SystemTransaction} {JSL : Json (list SystemTransaction)}.

Lemma as_u32_range i : 0 <= as_u32 i <= u32_max.
Proof. rw /as_u32 /u32_max. pose proof (Z.mod_pos_bound (Z.of_nat i) (4294967295 + 1)). lia. Qed.
Lemma as_u32_small i : Z.of_nat i <= u32_max → as_u32 i = Z.of_nat i.
Proof. intros. rw /as_u32 Z.mod_small //. lia. Qed.

Lemma addr_puts_touched n i h l k : k ∈ touched (l ≫= addr_puts n i h) → ∃ a, k = KAddr a n i ∨ k = KAddrRev a n i.
Proof. rw touched_bind. intros (a & _ & Hk). exists a. rw /touched /= in Hk. set_solver. Qed.
Lemma addr_dels_touched n i l k : k ∈ touched (l ≫= addr_dels n i) → ∃ a, k = KAddr a n i ∨ k = KAddrRev a n i.
Proof. rw touched_bind. intros (a & _ & Hk). exists a. rw /touched /= in Hk. set_solver. Qed.

Lemma tx_puts_touched n h p k : k ∈ touched (tx_puts n h p) →
  k = KTx (tx_hash p.2) ∨ ∃ a, k = KAddr a n (as_u32 p.1) ∨ k = KAddrRev a n (as_u32 p.1).
Proof. rw /tx_puts /touched fmap_cons elem_of_cons. intros [->|H]; [by left|right]. by eapply addr_puts_touched. Qed.
Lemma tx_dels_touched n p k : k ∈ touched (tx_dels n p) →
  k = KTx (tx_hash p.2) ∨ ∃ a, k = KAddr a n (as_u32 p.1) ∨ k = KAddrRev a n (as_u32 p.1).
Proof. rw /tx_dels /touched fmap_cons elem_of_cons. intros [->|H]; [by left|right]. by eapply addr_dels_touched. Qed.
Lemma system_puts_touched n h tx k : k ∈ touched (system_puts n h tx) →
  k = KTx (system_tx_hash tx) ∨ ∃ a, k = KAddr a n (sys_tx_index tx) ∨ k = KAddrRev a n (sys_tx_index tx).
Proof. rw /system_puts /addr_puts /touched /=. set_solver. Qed.
Lemma system_dels_touched n tx k : k ∈ touched (system_dels n tx) →
  k = KTx (system_tx_hash tx) ∨ ∃ a, k = KAddr a n (sys_tx_index tx) ∨ k = KAddrRev a n (sys_tx_index tx).
Proof. rw /system_dels /addr_dels /touched /=. set_solver. Qed.

Lemma keys_of_ok ops : (∀ k, k ∈ touched ops → key_ok k) → ops_ok ops.
Proof. intros H. apply Forall_forall. intros op Hop. apply H. rw /touched list_elem_of_fmap. eauto. Qed.

Lemma tx_puts_ok n h p : in_u64 n → ops_ok (tx_puts n h p).
Proof.
  intros Hn. apply keys_of_ok. intros k [->|(a & [-> | ->])]%tx_puts_touched; [done|..]; split; auto using as_u32_range.
Qed.
Lemma tx_dels_ok n p : in_u64 n → ops_ok (tx_dels n p).
Proof.
  intros Hn. apply keys_of_ok. intros k [->|(a & [-> | ->])]%tx_dels_touched; [done|..]; split; auto using as_u32_range.
Qed.
Lemma system_puts_ok n h tx : in_u64 n → 0 <= sys_tx_index tx <= u32_max → ops_ok (system_puts n h tx).
Proof. intros Hn Hi. apply keys_of_ok. intros k [->|(a & [-> | ->])]%system_puts_touched; done. Qed.
Lemma system_dels_ok n tx : in_u64 n → 0 <= sys_tx_index tx <= u32_max → ops_ok (system_dels n tx).
Proof. intros Hn Hi. apply keys_of_ok. intros k [->|(a & [-> | ->])]%system_dels_touched; done. Qed.

Lemma index_ops_touched b h k : k ∈ touched (index_ops b h) → index_key k = true.
Proof. rw /index_ops touched_bind. by intros (p & _ & [->|(a & [-> | ->])]%tx_puts_touched). Qed.
Lemma systems_touched n h l k : k ∈ touched (l ≫= system_puts n h) → index_key k = true.
Proof. rw touched_bind. by intros (p & _ & [->|(a & [-> | ->])]%system_puts_touched). Qed.
Lemma unindex_ops_touched b l k : k ∈ touched (unindex_ops b l) → index_key k = true.
Proof.
  rw /unindex_ops /touched fmap_app elem_of_app !touched_bind.
  by intros [(p & _ & [->|(a & [-> | ->])]%tx_dels_touched)|(p & _ & [->|(a & [-> | ->])]%system_dels_touched)].
Qed.

Lemma index_ops_ok b h : in_range_block b → ops_ok (index_ops b h).
Proof. intros [Hn _]. apply ops_ok_bind. intros p _. by apply tx_puts_ok. Qed.
Lemma systems_ok b h : in_range_block b → ops_ok (fb_system_transactions b ≫= system_puts (number (fb_header b)) h).
Proof. intros [Hn Hs']. apply ops_ok_bind. intros p Hp. rw Forall_forall in Hs'. by apply system_puts_ok; [|apply Hs']. Qed.
Lemma part_ops_ok b : ops_ok (part_ops b).
Proof. rw /part_ops. destruct (is_empty _); repeat constructor. Qed.
Lemma canonical_ops_ok b rs data : in_range_block b → ops_ok (canonical_ops b rs data).
Proof.
  intros Hb. apply Forall_app; split; [apply part_ops_ok|]. apply Forall_app; split; [by apply index_ops_ok|].
  apply Forall_app; split; [destruct rs; repeat constructor|].
  apply Forall_app; split; [constructor; [done|by apply systems_ok]|]. repeat constructor; apply Hb.
Qed.
End touches.

(** ** Reading *)

Section reads.
Context {D : Type} {KS : KvStore D} {KL : KvLaws D}.

(** No read of the store fails. *)
Definition readable (s : D) : Prop := ∀ k, ∃ o, kv_get s k = Ok o.
(** [x] under [key], as [f] decodes it. *)
Definition decoded {A} (f : bytes → result A StorageError) (m : contents) (key : bytes) :
    result (option A) StorageError :=
  match m !! key with Some d => (let? x := f d in Ok (Some x)) | None => Ok None end.

Lemma kget_run s k : kv_ok s → readable s → kget k s = (s, Ok (kv_contents s !! k)).
Proof. intros Hs Hr. rw /kget. destruct (Hr k) as [o E]. by rw E (kv_get_spec s k o Hs E). Qed.
Lemma kread_run {A} s k (f : bytes → result A StorageError) :
  kv_ok s → readable s → kread k f s = (s, decoded f (kv_contents s) k).
Proof.
  intros Hs Hr. rw /kread /mbind_ kget_run // /decoded. destruct (_ !! k) as [d|]; [|done].
  rw /mlift /mret. by destruct (f d).
Qed.
Lemma kwrite_run s b s' :
  kv_ok s → kwrite b s = (s', Ok tt) → kv_ok s' ∧ kv_contents s' = apply_batch (kv_contents s) b.
Proof.
  intros Hs. rw /kwrite. pose proof (kv_write_spec s b Hs) as [H1 H2].
  destruct (kv_write_batch s b) as [[[]|e] s1]; simpl in *; intros [= <-]. done.
Qed.
Lemma kwrite_fails s b s' e :
  kv_ok s → kwrite b s = (s', Err e) → kv_ok s' ∧ kv_contents s' = kv_contents s.
Proof.
  intros Hs. rw /kwrite. pose proof (kv_write_spec s b Hs) as [H1 H2].
  destruct (kv_write_batch s b) as [[[]|e'] s1]; simpl in *; intros [= <-]. done.
Qed.
End reads.

Lemma hash_from_as_bytes h : hash_from_slice (as_bytes h) = Ok h.
Proof. by rw /hash_from_slice length_as_bytes b256_from_as_bytes. Qed.
Lemma versioned_decodes {A} `{Json A} (enc : A → bytes) dec nf x :
  decodes enc dec nf x → decode_versioned dec (encode_rlp enc x) = Ok (nf x).
Proof. intros Hd. specialize (Hd []). rw app_nil_r in Hd. by rw /decode_versioned /encode_rlp /= Hd. Qed.
Lemma location_decodes h i : 0 <= i <= u32_max →
  length (location h i) = 36%nat ∧ b256_from_bytes (take 32 (location h i)) = h ∧
  from_be_bytes (drop 32 (location h i)) = i.
Proof.
  intros Hi. rw /location length_app length_as_bytes length_be_bytes. split; [done|].
  rw -(length_as_bytes h) take_app_length drop_app_length b256_from_as_bytes from_be_bytes_be_bytes.
  split; [done|]. rw Z.mod_small //. unfold u32_max in Hi. change (256 ^ Z.of_nat 4) with 4294967296. lia.
Qed.

Section committed.
Context {D : Type} {KS : KvStore D} {KL : KvLaws D} {R : Rlp} {RL : RlpLaws R} {RV : RlpVec}
  {RVL : RlpVecLaws R RV} {Hs : Hashes}.
Context {JS : Json SystemTransaction} {JSL : Json (list SystemTransaction)} {JH : Json BlockHeader}
  {JB : Json StrippedBlock} {JR : Json (list TransactionReceipt)}.
Context {JL : JsonLaws SystemTransaction} {JLL : JsonLaws (list SystemTransaction)}.

(** What the parts of a block are read as. *)
Definition body_at (m : contents) (h : ShellHash) : result (option StrippedBlock) StorageError :=
  decoded (decode_versioned stripped_block_decode) m (body_key h).
Definition block_at (m : contents) (h : ShellHash) : result (option FullBlock) StorageError :=
  let? body := body_at m h in
  match body with
  | None => Ok None
  | Some body => let? w := decoded decode_witness_bundle m (witness_key h) in Ok (Some (into_block body w))
  end.
Definition receipts_at (m : contents) (h : ShellHash) : result (option (list TransactionReceipt)) StorageError :=
  decoded (decode_versioned (vec_decode receipt_decode)) m (receipts_key h).

Lemma get_block_run s h :
  kv_ok s → readable s → get_block_by_hash h s = (s, block_at (kv_contents s) h).
Proof.
  intros Ho Hr. rw /get_block_by_hash /block_at /body_at /mbind_ kread_run //.
  destruct (decoded _ _ (body_key h)) as [[body|]|e]; [|done..]. cbn [result_bind].
  rw /mbind_ kread_run //. by destruct (decoded _ _ (witness_key h)).
Qed.
Lemma get_receipts_run s h :
  kv_ok s → readable s → get_receipts h s = (s, receipts_at (kv_contents s) h).
Proof. intros Ho Hr. by apply kread_run. Qed.

Lemma receipts_decode rs :
  short receipt_wf rs →
  decode_versioned (vec_decode receipt_decode) (encode_rlp_list receipt_length receipt_encode rs) = Ok rs.
Proof.
  intros [Hl Hw]. rw /decode_versioned /encode_rlp_list /= -(app_nil_r (list_encode _ _)).
  assert (sized (usize_sum receipt_length rs) (rs ≫= receipt_encode) ((9 + 2 ^ 42) * 2 ^ 16)) as [Hn Hb].
  { apply sized_sum; [|done..]. intros r Hr. by apply receipt_length_sized, Hw. }
  rw (vec_decode_encode receipt_encode _ id) /=; [done|unfold u64_max; lia| |by rw list_fmap_id].
  intros r Hr. split; [by apply receipt_decodes, Hw|by apply receipt_nonempty, Hw].
Qed.

(** ** A committed block *)

(** The writes of a commit outside the indexes. *)
Definition direct_ops (b : FullBlock) (rs : option (list TransactionReceipt)) (data : bytes) : list KeyOp :=
  part_ops b ++ receipt_ops b rs ++
  [(KSystem (block_hash b), Some data); (KNumber (number (fb_header b)), Some (as_bytes (block_hash b)));
   (KHead, Some (as_bytes (block_hash b)))].
Lemma canonical_final b rs data k :
  index_key k = false → final (canonical_ops b rs data) k = final (direct_ops b rs data) k.
Proof.
  intros Hk. rw /canonical_ops /direct_ops !final_app (final_untouched (index_ops _ _)).
  { intros ?%index_ops_touched. congruence. }
  rw !final_cons (final_untouched (_ ≫= system_puts _ _)); [intros ?%systems_touched; congruence|].
  simpl. repeat case_decide; try done; by destruct (final (receipt_ops b rs) k).
Qed.

(** The entry of a transaction is the one its own position wrote. *)
Lemma numbered_split {A} (l : list A) i x :
  l !! i = Some x → ∃ l1 l2, numbered l = l1 ++ (i, x) :: l2 ∧ (∀ p, p ∈ l2 → p.2 ∈ drop (S i) l).
Proof.
  intros Hi. rw /numbered. pose proof (lookup_lt_Some _ _ _ Hi) as Hlt.
  exists (zip (seq 0 i) (take i l)), (zip (seq (S i) (length l - S i)) (drop (S i) l)). split.
  - rw -{2}(take_drop_middle l i x Hi). replace (length l) with (i + S (length l - S i))%nat at 1 by lia.
    rw seq_app zip_with_app; [rw length_seq length_take; lia|]. done.
  - intros [j y] Hp. apply elem_of_zip_r in Hp. done.
Qed.

Lemma index_final b i t :
  NoDup (tx_hash <$> fb_transactions b) → fb_transactions b !! i = Some t →
  final (index_ops b (block_hash b)) (KTx (tx_hash t)) = Some (Some (location (block_hash b) (as_u32 i))).
Proof.
  intros Hnd Hi. destruct (numbered_split _ _ _ Hi) as (l1 & l2 & E & H2). rw /index_ops E.
  apply bind_final.
  - intros [j u] Hp [[= Hu]|(a & [|])]%tx_puts_touched; [|done..].
    apply H2 in Hp. simpl in Hp. apply list_elem_of_lookup in Hp as [n Hn]. rw lookup_drop in Hn.
    pose proof (NoDup_lookup _ i (S i + n)%nat (tx_hash t) Hnd) as K.
    rw !list_lookup_fmap Hi Hn /= Hu in K. specialize (K eq_refl eq_refl). lia.
  - rw /tx_puts final_cons final_untouched; [|by rw decide_True].
    by intros (a & [|])%addr_puts_touched.
Qed.

Lemma system_final n h l tx :
  NoDup (system_tx_hash <$> l) → tx ∈ l →
  final (l ≫= system_puts n h) (KTx (system_tx_hash tx)) = Some (Some (location h (sys_tx_index tx))).
Proof.
  intros Hnd (l1 & l2 & ->)%list_elem_of_split. apply bind_final.
  - intros u Hu [[= E]|(a & [|])]%system_puts_touched; [|done..].
    rw fmap_app fmap_cons in Hnd. apply NoDup_app in Hnd as (_ & _ & [Hn _]%NoDup_cons).
    apply Hn. rw E. by apply list_elem_of_fmap_2.
  - rw /system_puts final_cons final_untouched; [|by rw decide_True]. rw /touched /=. set_solver.
Qed.

Lemma commit_run s s' b rs :
  kv_ok s → in_range_block b → commit_canonical_block b rs s = (s', Ok tt) →
  kv_ok s' ∧ ∃ data, to_vec (fb_system_transactions b) = Ok data ∧
    ∀ k, key_ok k → kv_contents s' !! key_bytes k =
      match final (canonical_ops b rs data) k with Some o => o | None => kv_contents s !! key_bytes k end.
Proof.
  intros Ho Hb. destruct (to_vec (fb_system_transactions b)) as [data|e] eqn:E.
  - rw /commit_canonical_block /mbind_ (canonical_block_batch_ops _ _ _ E) /mlift.
    intros [Ho' Hc]%kwrite_run; [|done]. split; [done|]. exists data. split; [done|]. intros k Hk.
    rw Hc. apply batch_lookup; [by apply canonical_ops_ok|done].
  - rw /commit_canonical_block /mbind_ /canonical_block_batch /append_system_transactions E. done.
Qed.

(** The parts of a block that are written directly. *)
Lemma direct_lookup b rs data :
  let h := block_hash b in
  final (direct_ops b (Some rs) data) KHead = Some (Some (as_bytes h)) ∧
  final (direct_ops b (Some rs) data) (KNumber (number (fb_header b))) = Some (Some (as_bytes h)) ∧
  final (direct_ops b (Some rs) data) (KSystem h) = Some (Some data) ∧
  final (direct_ops b (Some rs) data) (KReceipts h) =
    Some (Some (encode_rlp_list receipt_length receipt_encode rs)) ∧
  final (direct_ops b (Some rs) data) (KHeader h) = Some (Some (encode_rlp block_header_encode (fb_header b))) ∧
  final (direct_ops b (Some rs) data) (KBody h) = Some (Some (encode_rlp stripped_block_encode (split b).1)) ∧
  final (direct_ops b (Some rs) data) (KWitness h) =
    (if is_empty (fb_transactions b) then None else Some (Some (witness_bundle_encode (split b).2))).
Proof.
  intros h. rw /direct_ops /part_ops /receipt_ops -/h.
  destruct (is_empty (fb_transactions b)); rw /final /=; repeat split;
    repeat (case_decide; simplify_eq); done.
Qed.
(** Other blocks, and the keys of pruned parts, are not written. *)
Lemma direct_others b rs data h' :
  h' ≠ block_hash b →
  Forall (λ k, final (direct_ops b rs data) k = None)
    [KHeader h'; KBody h'; KWitness h'; KReceipts h'; KSystem h'].
Proof.
  intros Hne. rw /direct_ops /part_ops /receipt_ops.
  destruct rs, (is_empty (fb_transactions b)); repeat (apply Forall_cons_2; [|]); try apply Forall_nil_2;
    apply final_untouched; rw /touched /=; set_solver.
Qed.

(** A stored body with its witnesses is the block. *)
Lemma block_at_parts m b h :
  block_wf b → m !! body_key h = Some (encode_rlp stripped_block_encode (split b).1) →
  m !! witness_key h =
    (if is_empty (fb_transactions b) then None else Some (witness_bundle_encode (split b).2)) →
  block_at m h = Ok (Some (block_nf b)).
Proof.
  intros Hwf Hb Hw. rw /block_at /body_at /decoded Hb.
  rw (versioned_decodes _ _ stripped_block_nf); [by apply stripped_block_decodes|]. cbn [result_bind]. rw Hw.
  pose proof (into_block_nf b) as Hj. destruct (fb_transactions b) as [|t l] eqn:E; cbn [is_empty].
  - cbn [result_bind]. rw -Hj. do 2 f_equal. rw /into_block /= E /=. done.
  - pose proof (split_bundle_decodes b Hwf []) as Hd. rw app_nil_r in Hd.
    rw /decode_witness_bundle Hd. cbn [is_empty negb result_bind]. by rw Hj.
Qed.

(** The entries a committed block has in the store. *)
Record holds (m : contents) (b : FullBlock) (rs : list TransactionReceipt) : Prop := {
  holds_head : m !! HEAD_BLOCK = Some (as_bytes (block_hash b));
  holds_number : m !! number_key (number (fb_header b)) = Some (as_bytes (block_hash b));
  holds_system : ∃ data, to_vec (fb_system_transactions b) = Ok data ∧ m !! system_txs_key (block_hash b) = Some data;
  holds_receipts : m !! receipts_key (block_hash b) = Some (encode_rlp_list receipt_length receipt_encode rs);
  holds_header : m !! header_key (block_hash b) = Some (encode_rlp block_header_encode (fb_header b));
  holds_body : m !! body_key (block_hash b) = Some (encode_rlp stripped_block_encode (split b).1);
  holds_witness : m !! witness_key (block_hash b) =
    (if is_empty (fb_transactions b) then None else Some (witness_bundle_encode (split b).2));
  holds_tx : ∀ i t, fb_transactions b !! i = Some t →
    m !! tx_index_key (tx_hash t) = Some (location (block_hash b) (as_u32 i));
  holds_system_tx : ∀ tx, tx ∈ fb_system_transactions b →
    m !! tx_index_key (system_tx_hash tx) = Some (location (block_hash b) (sys_tx_index tx));
}.

Lemma commit_holds s s' b rs :
  kv_ok s → in_range_block b →
  NoDup ((tx_hash <$> fb_transactions b) ++ (system_tx_hash <$> fb_system_transactions b)) →
  (fb_transactions b = [] → kv_contents s !! witness_key (block_hash b) = None) →
  commit_canonical_block b (Some rs) s = (s', Ok tt) → holds (kv_contents s') b rs.
Proof.
  intros Ho Hr Hnd Hleft Hrun. apply NoDup_app in Hnd as (Hnd & Hdis & Hnds).
  destruct (commit_run s s' b (Some rs) Ho Hr Hrun) as (Ho' & data & Hdata & Hlook).
  destruct (direct_lookup b rs data) as (L1 & L2 & L3 & L4 & L5 & L6 & L7).
  split; [pose proof (Hlook KHead I) as K|pose proof (Hlook (KNumber (number (fb_header b))) (proj1 Hr)) as K
    |pose proof (Hlook (KSystem (block_hash b)) I) as K|pose proof (Hlook (KReceipts (block_hash b)) I) as K
    |pose proof (Hlook (KHeader (block_hash b)) I) as K|pose proof (Hlook (KBody (block_hash b)) I) as K
    |pose proof (Hlook (KWitness (block_hash b)) I) as K|intros i t Hi; pose proof (Hlook (KTx (tx_hash t)) I) as K
    |intros tx Htx; pose proof (Hlook (KTx (system_tx_hash tx)) I) as K].
  1-7: rw canonical_final // in K.
  - by rw L1 in K.
  - by rw L2 in K.
  - exists data. by rw L3 in K.
  - by rw L4 in K.
  - by rw L5 in K.
  - by rw L6 in K.
  - rw L7 in K. etrans; [exact K|]. destruct (fb_transactions b) as [|t l] eqn:E; simpl; [by apply Hleft|done].
  - rw K /canonical_ops !final_app !final_cons (final_untouched (_ ≫= system_puts _ _)) /=.
    { intros (tx & Htx & [[= E]|(a & [|])]%system_puts_touched)%touched_bind; [|done..].
      apply (Hdis (tx_hash t)); [by apply list_elem_of_fmap_2; eapply list_elem_of_lookup_2|].
      rw E. by apply list_elem_of_fmap_2. }
    by rw (index_final _ _ _ Hnd Hi).
  - rw K /canonical_ops !final_app !final_cons (system_final _ _ _ _ Hnds Htx) //.
Qed.

Section held.
Context (s : D) (b : FullBlock) (rs : list TransactionReceipt).
Hypotheses (Ho : kv_ok s) (Hread : readable s) (Hh : holds (kv_contents s) b rs) (Hwf : block_wf b).

Lemma held_block : get_block_by_hash (block_hash b) s = (s, Ok (Some (block_nf b))).
Proof. rw get_block_run //. f_equal. apply block_at_parts; [done|apply Hh..]. Qed.
Lemma held_hash key : kv_contents s !! key = Some (as_bytes (block_hash b)) →
  kread key hash_from_slice s = (s, Ok (Some (block_hash b))).
Proof. intros E. by rw kread_run // /decoded E hash_from_as_bytes. Qed.
Lemma held_header : get_header_by_hash (block_hash b) s = (s, Ok (Some (header_nf (fb_header b)))).
Proof.
  rw /get_header_by_hash kread_run // /decoded (holds_header _ _ _ Hh).
  by rw (versioned_decodes _ _ header_nf); [apply block_header_decodes, Hwf|].
Qed.
Lemma held_receipts : short receipt_wf rs → get_receipts (block_hash b) s = (s, Ok (Some rs)).
Proof.
  intros Hrs. by rw get_receipts_run // /receipts_at /decoded (holds_receipts _ _ _ Hh) receipts_decode.
Qed.
Lemma held_system : get_system_transactions (block_hash b) s = (s, Ok (fb_system_transactions b)).
Proof.
  destruct (holds_system _ _ _ Hh) as (data & E & Hd).
  by rw /get_system_transactions /mbind_ kread_run // /decoded Hd (from_to_vec _ _ E).
Qed.
Lemma held_location x i :
  0 <= i <= u32_max → kv_contents s !! tx_index_key x = Some (location (block_hash b) i) →
  get_tx_location x s = (s, Ok (Some (block_hash b, i))).
Proof.
  intros Hi E. destruct (location_decodes (block_hash b) i Hi) as (H1 & H2 & H3).
  by rw /get_tx_location kread_run // /decoded E H1 /= H2 H3.
Qed.
Lemma held_tx i t :
  short receipt_wf rs → fb_transactions b !! i = Some t →
  get_tx_location (tx_hash t) s = (s, Ok (Some (block_hash b, Z.of_nat i))) ∧
  get_receipt_by_tx_hash (tx_hash t) s = (s, Ok (rs !! i)).
Proof.
  intros Hrs Hi. assert (Hle : Z.of_nat i <= u32_max).
  { destruct (bwf_txs b Hwf) as [Hl _]. apply lookup_lt_Some in Hi. unfold len, u32_max in *. lia. }
  assert (Hloc : get_tx_location (tx_hash t) s = (s, Ok (Some (block_hash b, Z.of_nat i)))).
  { apply held_location; [lia|]. rw -(as_u32_small i Hle). by apply (holds_tx _ _ _ Hh). }
  split; [done|]. rw /get_receipt_by_tx_hash /mbind_ Hloc held_receipts // /mret Nat2Z.id. done.
Qed.
Lemma held_system_tx tx :
  in_range_block b → NoDup (system_tx_hash <$> fb_system_transactions b) → tx ∈ fb_system_transactions b →
  get_system_transaction_by_hash (system_tx_hash tx) s = (s, Ok (Some tx)).
Proof.
  intros [_ Hr] Hnd Htx. rw Forall_forall in Hr. rw /get_system_transaction_by_hash /mbind_.
  rw (held_location _ (sys_tx_index tx)); [by apply Hr|by apply (holds_system_tx _ _ _ Hh)|].
  rw held_system /mret. do 3 f_equal. apply list_elem_of_split in Htx as (l1 & l2 & E).
  rw E in Hnd *. rw filter_app. assert (Hn : filter (λ u,
    (sys_tx_index u =? sys_tx_index tx) && bool_decide (system_tx_hash u = system_tx_hash tx) = true) l1 = []).
  { apply filter_none. intros u Hu [_ K%bool_decide_eq_true]%andb_true_iff.
    rw fmap_app fmap_cons in Hnd. apply NoDup_app in Hnd as (_ & Hd & _). apply (Hd (system_tx_hash u)).
    - by apply list_elem_of_fmap_2.
    - rw K. apply list_elem_of_here. }
  rw Hn /= filter_cons_True //. by rw Z.eqb_refl bool_decide_true.
Qed.
End held.

(** C19: A committed block can be found again in every way.  Over any store,
    RLP library and JSON forms that obey their laws, commit a well-formed block
    with its receipts; its transactions and system transactions have distinct
    hashes, and no witness is left over for an empty block.  If the commit
    succeeds and reads of the store work, then: the block, as decoding gives it,
    is the head block and the block of its number; its header, receipts and
    system transactions are those committed; each transaction is found at its
    position with the receipt of that position, and each system transaction
    under its hash; and blocks and receipts of any other hash are as before. *)
Theorem block_committed s s' b rs :
  kv_ok s → block_wf b → in_range_block b → short receipt_wf rs →
  NoDup ((tx_hash <$> fb_transactions b) ++ (system_tx_hash <$> fb_system_transactions b)) →
  (fb_transactions b = [] → kv_contents s !! witness_key (block_hash b) = None) →
  commit_canonical_block b (Some rs) s = (s', Ok tt) → readable s' →
  let h := block_hash b in
  get_head_block s' = (s', Ok (Some (block_nf b))) ∧
  get_block_by_number (number (fb_header b)) s' = (s', Ok (Some (block_nf b))) ∧
  get_header_by_hash h s' = (s', Ok (Some (header_nf (fb_header b)))) ∧
  get_receipts h s' = (s', Ok (Some rs)) ∧
  get_system_transactions h s' = (s', Ok (fb_system_transactions b)) ∧
  (∀ i t, fb_transactions b !! i = Some t →
     get_tx_location (tx_hash t) s' = (s', Ok (Some (h, Z.of_nat i))) ∧
     get_receipt_by_tx_hash (tx_hash t) s' = (s', Ok (rs !! i))) ∧
  (∀ tx, tx ∈ fb_system_transactions b →
     get_system_transaction_by_hash (system_tx_hash tx) s' = (s', Ok (Some tx))) ∧
  (∀ h', h' ≠ h → readable s →
     (get_block_by_hash h' s').2 = (get_block_by_hash h' s).2 ∧ (get_receipts h' s').2 = (get_receipts h' s).2).
Proof.
  intros Ho Hwf Hrange Hrs Hnd Hleft Hrun Hread h.
  pose proof (commit_holds s s' b rs Ho Hrange Hnd Hleft Hrun) as Hh.
  destruct (commit_run s s' b (Some rs) Ho Hrange Hrun) as (Ho' & data & _ & Hlook).
  apply NoDup_app in Hnd as (_ & _ & Hnds).
  split_and!; [..|intros tx Htx; by eapply held_system_tx|].
  - rw /get_head_block /mbind_ /get_head_hash (held_hash s' b Ho' Hread _ (holds_head _ _ _ Hh)). by eapply held_block.
  - rw /get_block_by_number /mbind_ (held_hash s' b Ho' Hread _ (holds_number _ _ _ Hh)). by eapply held_block.
  - by eapply held_header.
  - by eapply held_receipts.
  - by eapply held_system.
  - intros i t Hi. by eapply held_tx.
  - intros h' Hne Hr. pose proof (direct_others b (Some rs) data h' Hne) as Hd.
    assert (K : ∀ k, k ∈ [KHeader h'; KBody h'; KWitness h'; KReceipts h'; KSystem h'] → key_ok k → index_key k = false →
      kv_contents s' !! key_bytes k = kv_contents s !! key_bytes k).
    { intros k Hk Hok Hi. rw Hlook // canonical_final // (proj1 (Forall_forall _ _) Hd k Hk). done. }
    rw !get_block_run // !get_receipts_run //=. rw /block_at /body_at /receipts_at /decoded.
    rw (K (KBody h')) ?(K (KWitness h')) ?(K (KReceipts h')) //; set_solver.
Qed.
End committed.

(** ** Witness *)

(** The demo block committed to an empty store. *)
Definition demo_store : MemoryDb := (commit_canonical_block demo_block (Some [demo_receipt]) memory_new).1.

Lemma memory_db_readable (s : MemoryDb) : readable s.
Proof. intros k. by eexists. Qed.
Lemma demo_committed : commit_canonical_block demo_block (Some [demo_receipt]) memory_new = (demo_store, Ok tt).
Proof. rw (surjective_pairing (commit_canonical_block _ _ _)) /demo_store. f_equal. Qed.
Lemma demo_hashes_distinct :
  NoDup ((tx_hash <$> fb_transactions demo_block) ++ (system_tx_hash <$> fb_system_transactions demo_block)).
Proof. apply (bool_decide_unpack _). vm_compute. exact I. Qed.

Lemma block_committed_witness :
  get_head_block demo_store = (demo_store, Ok (Some (block_nf demo_block))) ∧
  get_receipt_by_tx_hash (tx_hash demo_tx) demo_store = (demo_store, Ok (Some demo_receipt)).
Proof.
  destruct (block_committed (KL := memory_laws) memory_new demo_store demo_block [demo_receipt] I demo_block_wf demo_in_range
    demo_receipts_wf demo_hashes_distinct ltac:(discriminate) demo_committed (memory_db_readable _))
    as (H1 & _ & _ & _ & _ & H2 & _).
  split; [exact H1|]. exact (proj2 (H2 0%nat demo_tx eq_refl)).
Defined.
