(* ===== verification/ChainPrune.v ===== *)
(** * Pruning of the chain store

    Rules for the store methods of ChainStore.v, what of a committed block stays
    in the store when its body or its witnesses are deleted, and that the
    deletions keep it. *)

From S2P Require Import Prelude Primitives Block Fee Rlp RlpImpl Transaction TxCodec TxHash TxValidation BTree KvStore Overlay OverlayView OverlayProps Effects BlockCodec BlockRoundtrip WitnessRoot ChainStore ChainOps ChainDemo ChainProps.

#[local] Arguments be_bytes : simpl never.

(** ** Rules for the methods of the store *)

Section rules.
Context {D : Type} {KS : KvStore D} {KL : KvLaws D}.
Abbreviation StoreM := (M D StorageError).

Lemma wp_kget k (Q : option bytes → D → Prop) (R : StorageError → D → Prop) s :
  kv_ok s → Q (kv_contents s !! k) s → (∀ e, R e s) → wp (kget k) Q R s.
Proof.
  intros Hs HQ HR. rw /wp /kget. destruct (kv_get s k) as [o|e] eqn:E; [|done].
  by rw (kv_get_spec s k o Hs E).
Qed.
Lemma wp_kread {A} k (f : bytes → result A StorageError) (Q : option A → D → Prop) (R : StorageError → D → Prop) s :
  kv_ok s → (∀ x, decoded f (kv_contents s) k = Ok x → Q x s) → (∀ e, R e s) → wp (kread k f) Q R s.
Proof.
  intros Hs HQ HR. apply wp_bind, wp_kget; [done| |done]. rw /decoded in HQ.
  destruct (kv_contents s !! k) as [d|]; [|by apply wp_ret, HQ].
  apply wp_bind, wp_lift. destruct (f d) as [x|e]; [|done]. by apply wp_ret, HQ.
Qed.
Lemma wp_kwrite b (Q : unit → D → Prop) (R : StorageError → D → Prop) s :
  kv_ok s →
  (∀ s', kv_ok s' → kv_contents s' = apply_batch (kv_contents s) b → Q tt s') →
  (∀ e s', kv_ok s' → kv_contents s' = kv_contents s → R e s') →
  wp (kwrite b) Q R s.
Proof.
  intros Hs HQ HR. rw /wp /kwrite. destruct (kv_write_spec s b Hs) as [H1 H2].
  destruct (kv_write_batch s b) as [[[]|e] s']; simpl in *; eauto.
Qed.
Lemma wp_kput k v (Q : unit → D → Prop) (R : StorageError → D → Prop) s :
  kv_ok s →
  (∀ s', kv_ok s' → kv_contents s' = <[k := v]> (kv_contents s) → Q tt s') →
  (∀ e s', kv_ok s' → kv_contents s' = kv_contents s → R e s') →
  wp (kput k v) Q R s.
Proof.
  intros Hs HQ HR. rw /wp /kput. destruct (kv_put_spec s k v Hs) as [H1 H2].
  destruct (kv_put s k v) as [[[]|e] s']; simpl in *; eauto.
Qed.

(** A batch of typed writes. *)
Lemma wp_ops ops (Q : unit → D → Prop) (R : StorageError → D → Prop) s :
  kv_ok s → ops_ok ops →
  (∀ s', kv_ok s' →
     (∀ k, key_ok k → kv_contents s' !! key_bytes k =
        match final ops k with Some o => o | None => kv_contents s !! key_bytes k end) → Q tt s') →
  (∀ e s', kv_ok s' → kv_contents s' = kv_contents s → R e s') →
  wp (kwrite (op_bytes <$> ops)) Q R s.
Proof.
  intros Hs Hok HQ HR. apply wp_kwrite; [done| |done]. intros s' Hs' Hc. apply HQ; [done|].
  intros k Hk. rw Hc. by apply batch_lookup.
Qed.
End rules.

(** ** What stays of a block *)

Section kept.
Context {R : Rlp} {RL : RlpLaws R} {Hs : Hashes}.
Context {JS : Json SystemTransaction} {JB : Json StrippedBlock} {JH : Json BlockHeader} {JL : JsonLaws SystemTransaction}.

Definition body_bytes (b : FullBlock) : bytes := encode_rlp stripped_block_encode (split b).1.
Definition witness_bytes (b : FullBlock) : bytes := witness_bundle_encode (split b).2.
Definition digest (l : bytes) : bytes := as_bytes (blake3_hash l).

(** The block's own keys: each part is there, or absent with the digest of what
    it was; a digest is never one of anything else. *)
Record kept (m : contents) (b : FullBlock) : Prop := {
  kept_header : m !! header_key (block_hash b) = Some (encode_rlp block_header_encode (fb_header b));
  kept_body : m !! body_key (block_hash b) = Some (body_bytes b) ∨
    m !! body_key (block_hash b) = None ∧ m !! body_digest_key (block_hash b) = Some (digest (body_bytes b));
  kept_body_digest d : m !! body_digest_key (block_hash b) = Some d → d = digest (body_bytes b);
  kept_witness : m !! witness_key (block_hash b) = None ∨
    fb_transactions b ≠ [] ∧ m !! witness_key (block_hash b) = Some (witness_bytes b);
  kept_witness_digest d : m !! witness_digest_key (block_hash b) = Some d →
    fb_transactions b ≠ [] ∧ d = digest (witness_bytes b);
}.

(** The keys that [kept] speaks of. *)
Definition block_keys (h : ShellHash) : list ChainKey :=
  [KHeader h; KBody h; KBodyDigest h; KWitness h; KWitnessDigest h].

Lemma kept_ext m m' b :
  kept m b → (∀ k, k ∈ block_keys (block_hash b) → m' !! key_bytes k = m !! key_bytes k) → kept m' b.
Proof.
  intros [H1 H2 H3 H4 H5] E.
  pose proof (E (KHeader (block_hash b)) ltac:(set_solver)) as E1.
  pose proof (E (KBody (block_hash b)) ltac:(set_solver)) as E2.
  pose proof (E (KBodyDigest (block_hash b)) ltac:(set_solver)) as E3.
  pose proof (E (KWitness (block_hash b)) ltac:(set_solver)) as E4.
  pose proof (E (KWitnessDigest (block_hash b)) ltac:(set_solver)) as E5.
  cbn [key_bytes] in *. split; congruence || (rw ?E1 ?E2 ?E3 ?E4 ?E5 //).
Qed.
Lemma kept_insert m b k v :
  kept m b → key_ok k → k ∉ block_keys (block_hash b) → kept (<[key_bytes k := v]> m) b.
Proof.
  intros Hk Hok Hn. apply (kept_ext m); [done|]. intros k' Hk'. rw lookup_insert_ne //.
  intros E. apply Hn. rw (key_bytes_inj k k') //. rw /block_keys in Hk'. set_solver.
Qed.

(** A block in the form that decoding gives. *)
Lemma nf_parts b : block_nf b = b →
  stripped_block_nf (split b).1 = (split b).1 ∧
  MkWitnessBundle (witness_nf <$> witnesses (split b).2) = (split b).2 ∧ header_nf (fb_header b) = fb_header b.
Proof.
  destruct b as [h txs sys seal]. rw /block_nf /=. intros E. injection E as E1 E2.
  assert (Ht : ∀ t, t ∈ txs → signed_nf t = t).
  { clear -E2. induction txs as [|u txs IH]; [set_solver|]. rw fmap_cons in E2.
    assert (signed_nf u = u) by congruence. assert (signed_nf <$> txs = txs) by congruence.
    intros t [->|Hin]%elem_of_cons; auto. }
  split_and!; [|f_equal|by destruct h].
  - rw /stripped_block_nf /=. f_equal; [by destruct h|]. clear -Ht. induction txs as [|u txs IH]; [done|].
    rw !fmap_cons IH; [set_solver|]. f_equal. pose proof (Ht u ltac:(set_solver)) as Hu.
    destruct u; rw /signed_nf /= in Hu; simplify_eq; rw /stripped_nf /strip /=; congruence.
  - clear -Ht. induction txs as [|u txs IH]; [done|].
    rw !fmap_cons IH; [set_solver|]. f_equal. pose proof (Ht u ltac:(set_solver)) as Hu.
    destruct u as [? ? ? [[|]|] ?]; rw /signed_nf /= in Hu; simplify_eq; done.
Qed.
End kept.

(** ** Pruning *)

Section prune.
Context {D : Type} {KS : KvStore D} {KL : KvLaws D} {R : Rlp} {RL : RlpLaws R} {Hs : Hashes}.
Context {JS : Json SystemTransaction} {JB : Json StrippedBlock} {JH : Json BlockHeader} {JL : JsonLaws SystemTransaction}.

Definition witness_at (m : contents) (h : ShellHash) : result (option WitnessBundle) StorageError :=
  decoded decode_witness_bundle m (witness_key h).
Definition body_deletion (m : contents) (h : ShellHash) : list KeyOp :=
  match body_at m h with
  | Ok (Some body) =>
      [(KFees h, Some (priority_fees body ≫= be_bytes 8));
       (KBodyDigest h, Some (digest (encode_rlp stripped_block_encode body)))]
  | _ => []
  end ++ [(KBody h, None)].
Definition witness_deletion (m : contents) (h : ShellHash) : list KeyOp :=
  match witness_at m h with
  | Ok (Some w) => [(KWitnessDigest h, Some (digest (witness_bundle_encode w)))]
  | _ => []
  end ++ [(KWitness h, None)].

Lemma wp_stage_bodies hs : ∀ batch (Q : WriteBatch → D → Prop) (P : StorageError → D → Prop) s,
  kv_ok s → Q (batch ++ (op_bytes <$> (hs ≫= body_deletion (kv_contents s)))) s → (∀ e, P e s) →
  wp (stage_body_deletions batch hs) Q P s.
Proof.
  induction hs as [|h hs IH]; intros batch Q P s Ho HQ HP; [by rw app_nil_r in HQ|].
  apply wp_bind, wp_kread; [done| |done]. intros body E. apply IH; [done| |done].
  rw bind_cons fmap_app {1}/body_deletion /body_at E in HQ.
  destruct body; rw /append_priority_fees /batch_put /batch_delete -!app_assoc; exact HQ.
Qed.
Lemma wp_stage_witnesses hs : ∀ batch (Q : WriteBatch → D → Prop) (P : StorageError → D → Prop) s,
  kv_ok s → Q (batch ++ (op_bytes <$> (hs ≫= witness_deletion (kv_contents s)))) s → (∀ e, P e s) →
  wp (stage_witness_deletions batch hs) Q P s.
Proof.
  induction hs as [|h hs IH]; intros batch Q P s Ho HQ HP; [by rw app_nil_r in HQ|].
  apply wp_bind, wp_kread; [done| |done]. intros w E. apply IH; [done| |done].
  rw bind_cons fmap_app {1}/witness_deletion /witness_at E in HQ.
  destruct w; rw /batch_put /batch_delete -!app_assoc; exact HQ.
Qed.

(** When all elements that touch a key write the same, so does their sequence. *)
Lemma bind_const {A} (g : A → list KeyOp) l k v :
  (∀ x, x ∈ l → k ∉ touched (g x) ∨ final (g x) k = Some v) →
  (∀ x, x ∈ l → k ∉ touched (g x)) ∧ final (l ≫= g) k = None ∨ final (l ≫= g) k = Some v.
Proof.
  induction l as [|x l IH]; intros Hl; [left; set_solver|]. rw bind_cons final_app.
  destruct IH as [[H1 ->]| ->]; [set_solver| |by right].
  destruct (Hl x) as [H2|H2]; [set_solver| |by right].
  left. split; [set_solver|]. by apply final_untouched.
Qed.

Lemma body_deletion_touched m h k : k ∈ touched (body_deletion m h) → k = KFees h ∨ k = KBodyDigest h ∨ k = KBody h.
Proof. rw /body_deletion. destruct (body_at m h) as [[body|]|]; rw /touched /=; set_solver. Qed.
Lemma witness_deletion_touched m h k : k ∈ touched (witness_deletion m h) → k = KWitnessDigest h ∨ k = KWitness h.
Proof. rw /witness_deletion. destruct (witness_at m h) as [[w|]|]; rw /touched /=; set_solver. Qed.
Lemma body_deletions_ok m hs : ops_ok (hs ≫= body_deletion m).
Proof. apply keys_of_ok. by intros k (h & _ & [-> | [-> | ->]]%body_deletion_touched)%touched_bind. Qed.
Lemma witness_deletions_ok m hs : ops_ok (hs ≫= witness_deletion m).
Proof. apply keys_of_ok. by intros k (h & _ & [-> | ->]%witness_deletion_touched)%touched_bind. Qed.

Lemma body_at_kept m b :
  block_wf b → block_nf b = b → m !! body_key (block_hash b) = Some (body_bytes b) →
  body_at m (block_hash b) = Ok (Some (split b).1).
Proof.
  intros Hwf Hnf E. rw /body_at /decoded E /body_bytes.
  rw (versioned_decodes _ _ stripped_block_nf); [by apply stripped_block_decodes|].
  by rw /= (proj1 (nf_parts b Hnf)).
Qed.
Lemma witness_at_kept m b :
  block_wf b → block_nf b = b → m !! witness_key (block_hash b) = Some (witness_bytes b) →
  witness_at m (block_hash b) = Ok (Some (split b).2).
Proof.
  intros Hwf Hnf E. rw /witness_at /decoded E /decode_witness_bundle /witness_bytes.
  pose proof (split_bundle_decodes b Hwf []) as Hd. rw app_nil_r in Hd. rw Hd.
  destruct (nf_parts b Hnf) as (_ & -> & _). done.
Qed.

(** What a batch of typed writes makes of the contents. *)
Definition written (m : contents) (ops : list KeyOp) (m' : contents) : Prop :=
  ∀ k, key_ok k → m' !! key_bytes k = match final ops k with Some o => o | None => m !! key_bytes k end.


Lemma body_gone m hs h : h ∈ hs → final (hs ≫= body_deletion m) (KBody h) = Some None.
Proof.
  intros Hin. destruct (bind_const (body_deletion m) hs (KBody h) None) as [[Hn _]|]; [| |done].
  - intros x _. destruct (decide (x = h)) as [->|]; [right|left].
    + by rw /body_deletion final_app final_one decide_True.
    + intros [|[|]]%body_deletion_touched; congruence.
  - exfalso. apply (Hn h Hin). rw /body_deletion /touched fmap_app elem_of_app /=. set_solver.
Qed.
Lemma witness_gone m hs h : h ∈ hs → final (hs ≫= witness_deletion m) (KWitness h) = Some None.
Proof.
  intros Hin. destruct (bind_const (witness_deletion m) hs (KWitness h) None) as [[Hn _]|]; [| |done].
  - intros x _. destruct (decide (x = h)) as [->|]; [right|left].
    + by rw /witness_deletion final_app final_one decide_True.
    + intros [|]%witness_deletion_touched; congruence.
  - exfalso. apply (Hn h Hin). rw /witness_deletion /touched fmap_app elem_of_app /=. set_solver.
Qed.

(** Deleting the body of a block leaves its digest. *)
Lemma body_digested m b hs : block_wf b → block_nf b = b → kept m b → block_hash b ∈ hs →
  match final (hs ≫= body_deletion m) (KBodyDigest (block_hash b)) with
  | Some o => o | None => m !! body_digest_key (block_hash b)
  end = Some (digest (body_bytes b)).
Proof.
  intros Hwf Hnf Hk Hin. set h := block_hash b.
  destruct (bind_const (body_deletion m) hs (KBodyDigest h) (Some (digest (body_bytes b)))) as [[Hn ->]| ->]; [| |done].
  - intros x _. destruct (decide (x = h)) as [->|]; [|left; intros [|[|]]%body_deletion_touched; congruence].
    destruct (kept_body _ _ Hk) as [Eb|[Eb _]].
    + right. rw /body_deletion (body_at_kept m b Hwf Hnf Eb) !final_cons final_nil /=. repeat case_decide; done || congruence.
    + left. rw /body_deletion /body_at /decoded Eb /touched /=. set_solver.
  - destruct (kept_body _ _ Hk) as [Eb|[_ Ed]]; [|done]. exfalso. apply (Hn h Hin).
    rw /body_deletion (body_at_kept m b Hwf Hnf Eb) /touched /=. set_solver.
Qed.
Lemma witness_digested m b hs : block_wf b → block_nf b = b → kept m b →
  final (hs ≫= witness_deletion m) (KWitnessDigest (block_hash b)) = None ∨
  fb_transactions b ≠ [] ∧
    final (hs ≫= witness_deletion m) (KWitnessDigest (block_hash b)) = Some (Some (digest (witness_bytes b))).
Proof.
  intros Hwf Hnf Hk. set h := block_hash b. destruct (kept_witness _ _ Hk) as [Ew|[Ht Ew]].
  - left. apply bind_untouched. intros x _ Hx. destruct (decide (x = h)) as [->|].
    + rw /witness_deletion /witness_at /decoded Ew /touched /= in Hx. set_solver.
    + apply witness_deletion_touched in Hx. naive_solver.
  - destruct (bind_const (witness_deletion m) hs (KWitnessDigest h) (Some (digest (witness_bytes b))))
      as [[_ ?]|?]; [|by left|by right].
    intros x _. destruct (decide (x = h)) as [->|]; [right|left; intros [|]%witness_deletion_touched; congruence].
    rw /witness_deletion (witness_at_kept m b Hwf Hnf Ew) !final_cons final_nil /=. repeat case_decide; done || congruence.
Qed.

Lemma block_key_ok h k : k ∈ block_keys h → key_ok k.
Proof. rw /block_keys. set_solver. Qed.
(** A batch after which only other keys are written. *)
Lemma written_prefix m ops extra m' b :
  (∀ k, k ∈ block_keys (block_hash b) → k ∉ touched extra) → written m (ops ++ extra) m' →
  ∀ k, k ∈ block_keys (block_hash b) →
    m' !! key_bytes k = match final ops k with Some o => o | None => m !! key_bytes k end.
Proof.
  intros Hx Hw k Hin. rw Hw; [by eapply block_key_ok|]. by rw final_app (final_untouched extra); [apply Hx|].
Qed.

Lemma bodies_kept m m' b hs extra :
  block_wf b → block_nf b = b → kept m b →
  (∀ k, k ∈ block_keys (block_hash b) → k ∉ touched extra) →
  written m ((hs ≫= body_deletion m) ++ extra) m' → kept m' b.
Proof.
  intros Hwf Hnf Hk Hx Hw. set h := block_hash b. pose proof (written_prefix _ _ _ _ _ Hx Hw) as Hf.
  destruct (decide (h ∈ hs)) as [Hin|Hout].
  - assert (Hsame : ∀ k, k ∈ [KHeader h; KWitness h; KWitnessDigest h] → m' !! key_bytes k = m !! key_bytes k).
    { intros k Hk'. rw Hf; [rw /block_keys; set_solver|]. rw bind_untouched //.
      intros x _ Ht%body_deletion_touched. set_solver. }
    pose proof (Hf (KBody h) ltac:(set_solver)) as Hb. rw body_gone // in Hb.
    pose proof (Hf (KBodyDigest h) ltac:(set_solver)) as Hd. cbn [key_bytes] in Hd. rw body_digested // in Hd.
    destruct Hk as [H1 _ _ H4 H5].
    pose proof (Hsame (KHeader h) ltac:(set_solver)) as E1. pose proof (Hsame (KWitness h) ltac:(set_solver)) as E4.
    pose proof (Hsame (KWitnessDigest h) ltac:(set_solver)) as E5. cbn [key_bytes] in *.
    split; rw -/h ?E1 ?E4 ?E5 //; [by right|congruence].
  - apply (kept_ext m); [done|]. intros k Hin. rw Hf // bind_untouched //.
    intros x Hx' Ht%body_deletion_touched. rw /block_keys in Hin. set_solver.
Qed.
Lemma witnesses_kept m m' b hs extra :
  block_wf b → block_nf b = b → kept m b →
  (∀ k, k ∈ block_keys (block_hash b) → k ∉ touched extra) →
  written m ((hs ≫= witness_deletion m) ++ extra) m' → kept m' b.
Proof.
  intros Hwf Hnf Hk Hx Hw. set h := block_hash b. pose proof (written_prefix _ _ _ _ _ Hx Hw) as Hf.
  assert (Hsame : ∀ k, k ∈ [KHeader h; KBody h; KBodyDigest h] → m' !! key_bytes k = m !! key_bytes k).
  { intros k Hk'. rw Hf; [rw /block_keys; set_solver|]. rw bind_untouched //.
    intros x _ Ht%witness_deletion_touched. set_solver. }
  pose proof (Hf (KWitness h) ltac:(set_solver)) as Hb.
  pose proof (Hf (KWitnessDigest h) ltac:(set_solver)) as Hd.
  pose proof (Hsame (KHeader h) ltac:(set_solver)) as E1. pose proof (Hsame (KBody h) ltac:(set_solver)) as E2.
  pose proof (Hsame (KBodyDigest h) ltac:(set_solver)) as E3. cbn [key_bytes] in *.
  pose proof (witness_digested m b hs Hwf Hnf Hk) as Hg. fold h in Hg. destruct Hk as [H1 H2 H3 H4 H5].
  split; rw -/h ?E1 ?E2 ?E3 ?Hb ?Hd //.
  - destruct (decide (h ∈ hs)) as [Hin|Hout]; [left; by rw witness_gone|].
    rw bind_untouched //. intros x Hx' Ht%witness_deletion_touched. set_solver.
  - intros d. destruct Hg as [-> | [Ht ->]]; [apply H5|naive_solver].
Qed.
End prune.
