(* ===== verification/ChainRestore.v ===== *)
(** * Pruned blocks come back as they were

    Bodies and witnesses of a committed block can be pruned and restored from
    what peers send.  Whatever is offered, what the store gives for the block's
    hash is the block, the block without its signatures, or nothing. *)

From S2P Require Import Prelude Primitives Block Fee Rlp RlpImpl Transaction TxCodec TxHash TxValidation BTree KvStore Overlay OverlayView OverlayProps Effects BlockCodec BlockRoundtrip WitnessRoot ChainStore ChainOps ChainDemo ChainProps ChainPrune.

#[local] Arguments be_bytes : simpl never.

(** ** Overlays over one base *)

Section staging.
Context {B : Type} {KS : KvStore B} {KL : KvLaws B}.
Implicit Types o : OverlayStore B.

(** An overlay that may be committed, over the base [s0]. *)
Definition staging (s0 : B) o : Prop := plain o ∧ frozen_prefixes o = [] ∧ base o = s0.

Lemma staging_effect s0 o batch :
  staging s0 o →
  effect overlay_contents (staging s0) o (overlay_write_batch o batch) (apply_batch (overlay_contents o) batch).
Proof.
  intros (Hp & Hf & Hb). destruct (overlay_write_effect o batch Hp) as [_ H2].
  destruct (write_batch_cases o batch) as [[n E]|[e E]]; rw E in H2 *; by split.
Qed.
(** While the base is fixed, an overlay is a lawful store. *)
Definition staging_laws (s0 : B) : KvLaws (OverlayStore B).
Proof.
  refine {| kv_contents := overlay_contents; kv_ok := staging s0 |}.
  - intros o k v [Hp _]. by apply overlay_get_plain.
  - intros o k v. apply staging_effect.
  - intros o k. apply staging_effect.
  - intros o batch. apply staging_effect.
  - done.
  - intros o p l [Hp _]. by apply merged_scan_ok.
  - intros o p after limit l [Hp _]. by apply (@kv_scan_after_spec _ _ overlay_laws o p after limit l Hp).
Defined.

Lemma staging_new s : kv_ok s → staging s (overlay_new s) ∧ overlay_contents (overlay_new s) = kv_contents s.
Proof.
  intros Hs. split; [done|]. by rw /overlay_contents /= apply_changes_empty through_plain.
Qed.
Lemma commit_staged s0 o :
  staging s0 o →
  let '(r, o') := commit o in
  kv_ok (base o') ∧
  kv_contents (base o') = match r with Ok _ => overlay_contents o | Err _ => kv_contents s0 end.
Proof.
  intros ([Hok Hn] & Hf & Hb). rw /commit /commit_with_batch (bool_decide_eq_true_2 _ Hf). cbn [negb].
  edestruct (flush_staged_cases o) as [(b & -> & Hb' & Hm)|(e & b & -> & Hb' & Hm)]; [done|..]; simpl; split;
    [done| |done|congruence].
  by rw commit_batch in Hm; rw Hm /overlay_contents (through_plain o).
Qed.
End staging.

(** ** What a backfill keeps *)

Ltac wp_if E :=
  cbv zeta beta; match goal with |- wp (if ?c then _ else _) _ _ _ => destruct c eqn:E end.

Section offered.
Context {D : Type} {KS : KvStore D} {KL : KvLaws D} {R : Rlp} {RL : RlpLaws R} {Hs : Hashes}.
Context {JS : Json SystemTransaction} {JB : Json StrippedBlock} {JH : Json BlockHeader} {JL : JsonLaws SystemTransaction}.

(** What is asked of the block whose parts are restored: it is in the form that
    decoding gives, a witness root its header commits to is that of its
    witnesses, and no other strings have the hashes of its parts. *)
Record original (b : FullBlock) : Prop := {
  original_wf : block_wf b;
  original_nf : block_nf b = b;
  original_root : commits_witness (fb_header b) = true → witness_root (fb_header b) = compute_root (split b).2;
  original_parts : resists blake3_hash [body_bytes b; witness_bytes b];
  original_witnesses : resists keccak256 (root_strings (parts_of (split b).2));
}.

Lemma digest_binds b x l : original b → x ∈ [body_bytes b; witness_bytes b] → digest l = digest x → l = x.
Proof. intros Hb Hx E. apply (original_parts b Hb); [done|]. by apply as_bytes_inj. Qed.

(** Equal bodies have as many transactions. *)
Lemma body_bytes_length b b' : block_wf b → block_wf b' → body_bytes b' = body_bytes b →
  length (fb_transactions b') = length (fb_transactions b).
Proof.
  intros H1 H2 E. pose proof (versioned_decodes _ _ stripped_block_nf _ (stripped_block_decodes b H1)) as D1.
  pose proof (versioned_decodes _ _ stripped_block_nf _ (stripped_block_decodes b' H2)) as D2.
  rw /body_bytes in E. rw E D1 in D2.
  assert (D3 : stripped_block_nf (split b).1 = stripped_block_nf (split b').1) by congruence.
  apply (f_equal (λ x, length (sb_transactions x))) in D3. by rw /= !length_fmap in D3.
Qed.
(** Equal leaves are equal encoded bundles. *)
Lemma bundle_of_leaves w1 w2 :
  short witness_wf (witnesses w1) → short witness_wf (witnesses w2) →
  leaf_strings (parts_of w1) = leaf_strings (parts_of w2) → witness_bundle_encode w1 = witness_bundle_encode w2.
Proof.
  intros H1 H2 E. rw !leaf_strings_of in E.
  assert (Hp : witnesses w1 ≫= tx_witness_encode = witnesses w2 ≫= tx_witness_encode).
  { revert E. clear. generalize (witnesses w1) as l1, (witnesses w2) as l2.
    induction l1 as [|u l1 IH]; intros [|v l2] E; try done. rw !fmap_cons in E. injection E as E1 E2.
    by rw !bind_cons E1 (IH l2). }
  rw /witness_bundle_encode (proj1 (witnesses_sized _ H1)) (proj1 (witnesses_sized _ H2)) Hp //.
Qed.
Lemma bundle_wf b : block_wf b → short witness_wf (witnesses (split b).2).
Proof. intros Hb. eapply short_fmap; [apply witness_of_wf|apply Hb]. Qed.

(** A witness that the header's root accepts for the same body is the block's. *)
Lemma root_accepts b b' :
  original b → block_wf b' → body_bytes b' = body_bytes b → commits_witness (fb_header b) = true →
  witness_root (fb_header b) = compute_root (split b').2 →
  fb_transactions b ≠ [] ∧ witness_bytes b' = witness_bytes b.
Proof.
  intros Hb Hwf' Ebody Hc Hr. pose proof (body_bytes_length b b' (original_wf b Hb) Hwf' Ebody) as Hl. split.
  - intros E. pose proof (original_root b Hb Hc) as Hz. rw /compute_root /= E /= in Hz.
    by rw /commits_witness Hz in Hc.
  - apply bundle_of_leaves; [by apply bundle_wf|apply bundle_wf, Hb|]. apply root_binds_strings.
    + by rw /parts_of !length_fmap.
    + apply Hb.
    + etrans; [symmetry; exact (original_root b Hb Hc)|exact Hr].
Qed.

Abbreviation Kept b := (λ s : D, kv_ok s ∧ kept (kv_contents s) b).

(** Writing the body, or the witness, that a block has. *)
Lemma put_body_kept m m' b b' extra :
  kept m b → (block_hash b' = block_hash b → body_bytes b' = body_bytes b) →
  (∀ k, k ∈ block_keys (block_hash b) → k ∉ touched extra) →
  written m ((KBody (block_hash b'), Some (body_bytes b')) :: extra) m' → kept m' b.
Proof.
  intros Hk Hsame Hx Hw. pose proof (written_prefix _ [_] _ _ _ Hx Hw) as Hf. set h := block_hash b.
  destruct (decide (block_hash b' = h)) as [E|Hne].
  - assert (Ho : ∀ k, k ∈ [KHeader h; KBodyDigest h; KWitness h; KWitnessDigest h] → m' !! key_bytes k = m !! key_bytes k).
    { intros k Hin. rw Hf; [rw /block_keys; set_solver|]. rw final_one decide_False //= E. set_solver. }
    pose proof (Hf (KBody h) ltac:(set_solver)) as Hb. rw final_one /= E decide_True // Hsame // in Hb.
    destruct Hk as [H1 H2 H3 H4 H5]. pose proof (Ho (KHeader h) ltac:(set_solver)) as E1.
    pose proof (Ho (KBodyDigest h) ltac:(set_solver)) as E3. pose proof (Ho (KWitness h) ltac:(set_solver)) as E4.
    pose proof (Ho (KWitnessDigest h) ltac:(set_solver)) as E5. cbn [key_bytes] in *.
    split; rw -/h ?E1 ?E3 ?E4 ?E5 //. by left.
  - apply (kept_ext m); [done|]. intros k Hin. rw Hf // final_one decide_False //=.
    rw /block_keys in Hin. set_solver.
Qed.
Lemma put_witness_kept m b b' :
  kept m b → (block_hash b' = block_hash b → fb_transactions b ≠ [] ∧ witness_bytes b' = witness_bytes b) →
  kept (<[witness_key (block_hash b') := witness_bytes b']> m) b.
Proof.
  intros Hk Hsame. change (witness_key (block_hash b')) with (key_bytes (KWitness (block_hash b'))).
  set h := block_hash b. destruct (decide (block_hash b' = h)) as [E|Hne].
  - rw E. assert (Ho : ∀ k, k ∈ [KHeader h; KBody h; KBodyDigest h; KWitnessDigest h] →
      <[key_bytes (KWitness h) := witness_bytes b']> m !! key_bytes k = m !! key_bytes k).
    { intros k Hin. apply lookup_insert_ne. intros K%key_bytes_inj; [|done|]; set_solver. }
    destruct Hk as [H1 H2 H3 H4 H5]. pose proof (Ho (KHeader h) ltac:(set_solver)) as E1.
    pose proof (Ho (KBody h) ltac:(set_solver)) as E2. pose proof (Ho (KBodyDigest h) ltac:(set_solver)) as E3.
    pose proof (Ho (KWitnessDigest h) ltac:(set_solver)) as E5. cbn [key_bytes] in *.
    split; rw -/h ?E1 ?E2 ?E3 ?E5 //. right. destruct (Hsame E) as [Ht <-]. by rw lookup_insert_eq.
  - apply kept_insert; [done..|]. rw /block_keys. set_solver.
Qed.

Lemma wp_put_body b b' s :
  original b → kept (kv_contents s) b → kv_ok s → kv_contents s !! body_key (block_hash b') = None →
  wp (put_body_only b') (λ _, Kept b) (λ _, Kept b) s.
Proof.
  intros Hb Hk Ho Hnone. assert (HR : ∀ e : StorageError, Kept b s) by done.
  apply wp_bind, wp_kget; [done| |done]. wp_if Ed; [by apply wp_fail|].
  assert (Hsame : block_hash b' = block_hash b → body_bytes b' = body_bytes b).
  { intros E. rw E in Ed Hnone. destruct (kept_body _ _ Hk) as [K|[_ K]]; [congruence|]. rw K in Ed.
    apply negb_false_iff, bool_decide_eq_true in Ed. eapply digest_binds; [done|set_solver|]. by symmetry. }
  assert (Hwrite : ∀ extra : list KeyOp, ops_ok extra → (∀ k, k ∈ block_keys (block_hash b) → k ∉ touched extra) →
    wp (kwrite (op_bytes <$> ((KBody (block_hash b'), Some (body_bytes b')) :: extra))) (λ _, Kept b) (λ _, Kept b) s).
  { intros extra Hok Hx. apply wp_ops; [done|by constructor|..].
    - intros s' Ho' Hw. split; [done|]. by eapply put_body_kept.
    - intros e s' Ho' ->. done. }
  apply wp_bind, wp_bind, wp_kread; [done| |done]. intros cursor _. apply wp_ret, wp_bind.
  assert (Hfin : ∀ rewind : bool, wp (kwrite (if rewind
      then batch_put (batch_put batch_new (body_key (block_hash b')) (body_bytes b')) BODY_PRUNED_BELOW
        (be_bytes 8 (number (fb_header b'))) else batch_put batch_new (body_key (block_hash b')) (body_bytes b')))
      (λ _, Kept b) (λ _, Kept b) s).
  { intros []; [|by apply (Hwrite []); [constructor|set_solver]].
    apply (Hwrite [(KBodyPruned, Some _)]); [by repeat constructor|]. rw /block_keys /touched /=. set_solver. }
  wp_if En; [|apply wp_ret; exact (Hfin false)].
  apply wp_bind, wp_kread; [done| |done]. intros c _. apply wp_ret. exact (Hfin _).
Qed.

(** Both parts of the block are there. *)
Definition whole (m : contents) (b : FullBlock) : Prop :=
  m !! body_key (block_hash b) = Some (body_bytes b) ∧ fb_transactions b ≠ [] ∧
  m !! witness_key (block_hash b) = Some (witness_bytes b).
Abbreviation Restored b b' := (λ (_ : unit) (s : D), Kept b s ∧ (block_hash b' = block_hash b → whole (kv_contents s) b)).

Lemma wp_put_witness b b' s :
  kept (kv_contents s) b → kv_ok s →
  (block_hash b' = block_hash b → kv_contents s !! body_key (block_hash b) = Some (body_bytes b) ∧
     fb_transactions b ≠ [] ∧ witness_bytes b' = witness_bytes b) →
  wp (kput (witness_key (block_hash b')) (witness_bytes b')) (Restored b b') (λ _, Kept b) s.
Proof.
  intros Hk Ho Hsame. apply wp_kput; [done|..].
  - intros s' Ho' E. rw E. split; [split; [done|]|].
    + apply put_witness_kept; [done|]. intros Eh. by apply Hsame.
    + intros Eh. destruct (Hsame Eh) as (H1 & H2 & H3). rw Eh. split_and!; [|done|by rw lookup_insert_eq H3].
      by rw lookup_insert_ne.
  - by intros e s' Ho' ->.
Qed.
(** A body that is retained, and that the offered block has. *)
Lemma retained_body m b b' raw retained :
  original b → kept m b → m !! body_key (block_hash b') = Some raw →
  decode_versioned stripped_block_decode raw = Ok retained →
  encode_rlp stripped_block_encode retained = encode_rlp stripped_block_encode (split b').1 →
  block_hash b' = block_hash b →
  m !! body_key (block_hash b) = Some (body_bytes b) ∧ body_bytes b' = body_bytes b.
Proof.
  intros Hb Hk Eraw Edec Eb E. rw E in Eraw. destruct (kept_body _ _ Hk) as [K|[K _]]; [|congruence].
  split; [done|]. rw K in Eraw. injection Eraw as <-. rw /body_bytes (versioned_decodes _ _ stripped_block_nf) in Edec.
  { apply stripped_block_decodes, Hb. }
  destruct (nf_parts b (original_nf b Hb)) as (Hn & _). rw Hn in Edec. injection Edec as <-. by rw /body_bytes.
Qed.
Lemma kept_header_read m b : original b → kept m b →
  decoded (decode_versioned block_header_decode) m (header_key (block_hash b)) = Ok (Some (fb_header b)).
Proof.
  intros Hb Hk. rw /decoded (kept_header _ _ Hk) (versioned_decodes _ _ header_nf).
  { apply block_header_decodes, Hb. }
  by destruct (nf_parts b (original_nf b Hb)) as (_ & _ & ->).
Qed.

Lemma wp_restore b b' s :
  original b → block_wf b' → kept (kv_contents s) b → kv_ok s →
  wp (restore_pruned_witness_with_validation b' no_validation) (Restored b b') (λ _, Kept b) s.
Proof.
  intros Hb Hwf Hk Ho. rw /restore_pruned_witness_with_validation. rw (surjective_pairing (split b')).
  apply wp_bind, wp_kget; [done| |done]. apply wp_bind.
  destruct (kv_contents s !! body_key (block_hash b')) as [raw|] eqn:Eraw; [|by apply wp_fail].
  apply wp_lift. destruct (decode_versioned stripped_block_decode raw) as [retained|e] eqn:Edec; [|done].
  wp_if Eb; [by apply wp_fail|]. apply negb_false_iff, bool_decide_eq_true in Eb.
  pose proof (retained_body _ _ _ _ _ Hb Hk Eraw Edec Eb) as Hbody.
  apply wp_bind, wp_kget; [done| |done]. apply wp_bind.
  destruct (kv_contents s !! witness_digest_key (block_hash b')) as [expected|] eqn:Ed.
  - wp_if Ew; [by apply wp_fail|]. apply negb_false_iff, bool_decide_eq_true in Ew.
    apply wp_ret, wp_put_witness; [done..|]. intros E. destruct (Hbody E) as [H1 H2]. rw E in Ed.
    destruct (kept_witness_digest _ _ Hk _ Ed) as [Ht ->]. split_and!; [done..|].
    eapply digest_binds; [done|set_solver|]. by symmetry.
  - apply wp_bind, wp_kread; [done| |done]. intros [header|] Eh; [|by apply wp_fail].
    wp_if Ec; [by apply wp_lift|]. wp_if Er; [by apply wp_fail|].
    apply negb_false_iff in Ec. apply negb_false_iff, bool_decide_eq_true in Er.
    apply wp_ret, wp_put_witness; [done..|]. intros E. destruct (Hbody E) as [H1 H2]. split; [done|].
    rw E kept_header_read // in Eh. injection Eh as <-. by apply root_accepts.
Qed.

Lemma wp_stage_backfill b b' restore s :
  original b → block_wf b' → kept (kv_contents s) b → kv_ok s →
  wp (stage_backfill b' restore no_validation)
    (λ _ s', Kept b s' ∧ (restore = true → block_hash b' = block_hash b → whole (kv_contents s') b))
    (λ _, Kept b) s.
Proof.
  intros Hb Hwf Hk Ho. apply wp_bind, wp_bind, wp_kget; [done| |done]. apply wp_ret, wp_bind.
  apply (wp_mono _ (λ _, Kept b) _ (λ _, Kept b)); [| |done].
  - destruct (kv_contents s !! body_key (block_hash b')) eqn:E; [by apply wp_ret|]. by apply wp_put_body.
  - intros _ s' [Ho' Hk']. destruct restore; [|by apply wp_ret].
    eapply wp_mono; [by apply wp_restore| |done]. intros [] s2 [H1 H2]. by split.
Qed.
End offered.

(** ** Histories *)

Section history.
Context {D : Type} {KS : KvStore D} {KL : KvLaws D} {R : Rlp} {RL : RlpLaws R} {RV : RlpVec} {Hs : Hashes}.
Context {JS : Json SystemTransaction} {JSL : Json (list SystemTransaction)} {JH : Json BlockHeader}
  {JB : Json StrippedBlock} {JR : Json (list TransactionReceipt)} {JL : JsonLaws SystemTransaction}.

Lemma backfill_kept s b b' restore :
  original b → block_wf b' → kv_ok s → kept (kv_contents s) b →
  let '(s', r) := put_backfill_block b' restore s in
  kv_ok s' ∧ kept (kv_contents s') b ∧
  (r = Ok tt → restore = true → block_hash b' = block_hash b → whole (kv_contents s') b).
Proof.
  intros Hb Hwf Ho Hk. destruct (staging_new s Ho) as [Hst Hc]. rw -Hc in Hk.
  pose proof (wp_stage_backfill (KL := staging_laws s) b b' restore (overlay_new s) Hb Hwf Hk Hst) as Hw.
  rw /wp in Hw. rw /put_backfill_block /put_backfill_block_with_validation.
  destruct (stage_backfill b' restore no_validation (overlay_new s)) as [o [[]|e]]; simpl in Hw.
  - destruct Hw as [[Hst' Hk'] Hwhole]. pose proof (commit_staged s o Hst') as Hm.
    destruct (commit o) as [r o']. destruct Hm as [H1 H2]. split; [done|]. rw Hc in Hk. destruct r as [[]|e]; rw H2; auto.
    split; [done|]. by intros.
  - destruct Hw as [(_ & _ & ->) _]. rw Hc in Hk. done.
Qed.

(** The operations that prune and restore, and further commits. *)
Inductive ChainStep :=
| DeleteBodies (hs : list ShellHash)
| PruneBodies (hs : list ShellHash) (below : Z)
| DeleteWitnesses (hs : list ShellHash)
| PruneWitnesses (hs : list ShellHash) (below : Z)
| Backfill (b' : FullBlock) (restore : bool)
| Commit (b' : FullBlock) (rs : option (list TransactionReceipt)).
Definition chain_step (st : ChainStep) : M D StorageError unit :=
  match st with
  | DeleteBodies hs => delete_bodies hs
  | PruneBodies hs n => prune_bodies_below hs n
  | DeleteWitnesses hs => delete_witness_bundles hs
  | PruneWitnesses hs n => prune_witness_bundles_below hs n
  | Backfill b' restore => put_backfill_block b' restore
  | Commit b' rs => commit_canonical_block b' rs
  end.
(** A failed step is not the end. *)
Definition chain_run (steps : list ChainStep) (s : D) : D := foldl (λ s st, (chain_step st s).1) s steps.

(** What is offered is well formed; what is committed is not another block with
    the same header. *)
Definition step_ok (b : FullBlock) (st : ChainStep) : Prop :=
  match st with
  | Backfill b' _ => block_wf b'
  | Commit b' _ => in_range_block b' ∧ (block_hash b' = block_hash b → b' = b)
  | _ => True
  end.

Lemma wp_result {A} (m : M D StorageError A) (P : D → Prop) s : wp m (λ _, P) (λ _, P) s → P (m s).1.
Proof. rw /wp. by destruct (m s) as [s' [a|e]]. Qed.

Lemma wp_deletions (ops : list KeyOp) b s :
  kv_ok s → kept (kv_contents s) b → ops_ok ops →
  (∀ m', written (kv_contents s) ops m' → kept m' b) →
  wp (kwrite (op_bytes <$> ops)) (λ _ s', kv_ok s' ∧ kept (kv_contents s') b)
    (λ _ s', kv_ok s' ∧ kept (kv_contents s') b) s.
Proof.
  intros Ho Hk Hok Hw. apply wp_ops; [done..| |].
  - intros s' Ho' Hc. split; [done|]. by apply Hw.
  - by intros e s' Ho' ->.
Qed.

Lemma bodies_step b hs f extra s :
  (∀ batch, f batch = batch ++ (op_bytes <$> extra)) → original b → kv_ok s → kept (kv_contents s) b → ops_ok extra →
  (∀ k, k ∈ block_keys (block_hash b) → k ∉ touched extra) →
  wp (let* batch := stage_body_deletions batch_new hs in kwrite (f batch))
    (λ _ s', kv_ok s' ∧ kept (kv_contents s') b) (λ _ s', kv_ok s' ∧ kept (kv_contents s') b) s.
Proof.
  intros Hf Hb Ho Hk Hok Hx. apply wp_bind, wp_stage_bodies; [done| |done]. rw Hf app_nil_l -fmap_app.
  apply wp_deletions; [done..| |].
  - apply Forall_app. split; [apply body_deletions_ok|done].
  - intros m'. apply bodies_kept; [apply Hb|apply Hb|done..].
Qed.
Lemma witnesses_step b hs f extra s :
  (∀ batch, f batch = batch ++ (op_bytes <$> extra)) → original b → kv_ok s → kept (kv_contents s) b → ops_ok extra →
  (∀ k, k ∈ block_keys (block_hash b) → k ∉ touched extra) →
  wp (let* batch := stage_witness_deletions batch_new hs in kwrite (f batch))
    (λ _ s', kv_ok s' ∧ kept (kv_contents s') b) (λ _ s', kv_ok s' ∧ kept (kv_contents s') b) s.
Proof.
  intros Hf Hb Ho Hk Hok Hx. apply wp_bind, wp_stage_witnesses; [done| |done]. rw Hf app_nil_l -fmap_app.
  apply wp_deletions; [done..| |].
  - apply Forall_app. split; [apply witness_deletions_ok|done].
  - intros m'. apply witnesses_kept; [apply Hb|apply Hb|done..].
Qed.

(** The keys of the committed block, and of another. *)
Lemma commit_own b rs data :
  let h := block_hash b in
  final (canonical_ops b rs data) (KHeader h) = Some (Some (encode_rlp block_header_encode (fb_header b))) ∧
  final (canonical_ops b rs data) (KBody h) = Some (Some (body_bytes b)) ∧
  final (canonical_ops b rs data) (KWitness h) =
    (if is_empty (fb_transactions b) then None else Some (Some (witness_bytes b))) ∧
  final (canonical_ops b rs data) (KBodyDigest h) = None ∧ final (canonical_ops b rs data) (KWitnessDigest h) = None.
Proof.
  intros h. rw !canonical_final // /direct_ops /part_ops /receipt_ops -/h.
  destruct rs, (is_empty (fb_transactions b)); rw /final /=; repeat split; repeat (case_decide; simplify_eq); done.
Qed.
Lemma commit_other b rs data h k :
  h ≠ block_hash b → k ∈ block_keys h → final (canonical_ops b rs data) k = None.
Proof.
  intros Hne Hk. rw canonical_final; [rw /block_keys in Hk; set_solver|].
  apply final_untouched. rw /direct_ops /part_ops /receipt_ops /touched. rw /block_keys in Hk.
  destruct rs, (is_empty (fb_transactions b)); simpl; set_solver.
Qed.

(** No leftovers of other parts under the hash of the block. *)
Record clean (m : contents) (b : FullBlock) : Prop := {
  clean_body_digest d : m !! body_digest_key (block_hash b) = Some d → d = digest (body_bytes b);
  clean_witness : m !! witness_key (block_hash b) = None ∨
    fb_transactions b ≠ [] ∧ m !! witness_key (block_hash b) = Some (witness_bytes b);
  clean_witness_digest d : m !! witness_digest_key (block_hash b) = Some d →
    fb_transactions b ≠ [] ∧ d = digest (witness_bytes b);
}.
Lemma kept_clean m b : kept m b → clean m b.
Proof. intros []. by split. Qed.

Lemma commit_cases s b rs :
  kv_ok s → in_range_block b → let '(s', r) := commit_canonical_block b rs s in
  kv_ok s' ∧ match r with
  | Ok _ => ∃ data, written (kv_contents s) (canonical_ops b rs data) (kv_contents s')
  | Err _ => kv_contents s' = kv_contents s
  end.
Proof.
  intros Ho Hb. destruct (commit_canonical_block b rs s) as [s' [[]|e]] eqn:E.
  - destruct (commit_run s s' b rs Ho Hb E) as (Ho' & data & _ & Hw). split; [done|]. by exists data.
  - rw /commit_canonical_block /mbind_ /mlift in E. destruct (canonical_block_batch b rs) as [batch|e'].
    + by eapply kwrite_fails.
    + by injection E as <- _.
Qed.
Lemma commit_makes_kept m m' b rs data :
  clean m b → written m (canonical_ops b rs data) m' → kept m' b.
Proof.
  intros [H1 H2 H3] Hw. destruct (commit_own b rs data) as (F1 & F2 & F3 & F4 & F5). set h := block_hash b in F1 F2 F3 F4 F5.
  pose proof (Hw (KHeader h) I) as E1. pose proof (Hw (KBody h) I) as E2. pose proof (Hw (KWitness h) I) as E3.
  pose proof (Hw (KBodyDigest h) I) as E4. pose proof (Hw (KWitnessDigest h) I) as E5.
  rw F1 in E1. rw F2 in E2. rw F3 in E3. rw F4 in E4. rw F5 in E5. cbn [key_bytes] in *.
  split; rw -/h ?E1 ?E2 ?E3 ?E4 ?E5 //; [by left|].
  destruct (fb_transactions b); simpl; [done|by right].
Qed.
Lemma commit_kept s b b' rs :
  kv_ok s → kept (kv_contents s) b → in_range_block b' → (block_hash b' = block_hash b → b' = b) →
  let s' := (commit_canonical_block b' rs s).1 in kv_ok s' ∧ kept (kv_contents s') b.
Proof.
  intros Ho Hk Hr Hsame. pose proof (commit_cases s b' rs Ho Hr) as Hc.
  destruct (commit_canonical_block b' rs s) as [s' [[]|e]]; destruct Hc as [Ho' Hc]; simpl; (split; [done|]);
    [|by rw Hc]. destruct Hc as [data Hw].
  destruct (decide (block_hash b' = block_hash b)) as [E|Hne].
  - rw (Hsame E) in Hw. eapply commit_makes_kept; [by apply kept_clean|done].
  - apply (kept_ext (kv_contents s)); [done|]. intros k Hin. rw Hw; [by eapply block_key_ok|].
    by rw (commit_other b' rs data (block_hash b)).
Qed.

Lemma step_kept b st s :
  original b → step_ok b st → kv_ok s → kept (kv_contents s) b →
  kv_ok (chain_step st s).1 ∧ kept (kv_contents (chain_step st s).1) b.
Proof.
  intros Hb Hst Ho Hk.
  destruct st as [hs|hs n|hs|hs n|b' restore|b' rs]; cbn [chain_step step_ok] in *;
    [apply (wp_result _ (λ s', kv_ok s' ∧ kept (kv_contents s') b))..| |].
  - rw /delete_bodies. destruct hs as [|h hs]; [by apply wp_ret|].
    apply (bodies_step b _ (λ batch, batch) []); [intros batch; by rw app_nil_r|done..|constructor|set_solver].
  - apply (bodies_step b hs _ [(KBodyPruned, Some (be_bytes 8 n))]);
      [done..|by repeat constructor|rw /block_keys /touched /=; set_solver].
  - rw /delete_witness_bundles. destruct hs as [|h hs]; [by apply wp_ret|].
    apply (witnesses_step b _ (λ batch, batch) []); [intros batch; by rw app_nil_r|done..|constructor|set_solver].
  - apply (witnesses_step b hs _ [(KWitnessPruned, Some (be_bytes 8 n))]);
      [done..|by repeat constructor|rw /block_keys /touched /=; set_solver].
  - pose proof (backfill_kept s b b' restore Hb Hst Ho Hk) as K. destruct (put_backfill_block b' restore s). naive_solver.
  - by apply commit_kept; [..|apply Hst|apply Hst].
Qed.
Lemma run_kept b steps s :
  original b → Forall (step_ok b) steps → kv_ok s → kept (kv_contents s) b →
  kv_ok (chain_run steps s) ∧ kept (kv_contents (chain_run steps s)) b.
Proof.
  intros Hb Hst. revert s. induction Hst as [|st steps Hst _ IH]; intros s Ho Hk; [done|].
  destruct (step_kept b st s Hb Hst Ho Hk) as [Ho' Hk']. by apply IH.
Qed.

(** What can be read of a block that is kept. *)
Lemma kept_block m b : original b → kept m b →
  block_at m (block_hash b) ∈ [Ok None; Ok (Some (into_block (split b).1 None)); Ok (Some b)].
Proof.
  intros Hb Hk. destruct (kept_body _ _ Hk) as [Eb|[Eb _]].
  - destruct (kept_witness _ _ Hk) as [Ew|[Ht Ew]].
    + rw /block_at body_at_kept; [apply Hb|apply Hb|done|]. rw /= /decoded Ew /=. set_solver.
    + rw (block_at_parts m b); [apply Hb|done| |rw (original_nf b Hb); set_solver].
      rw Ew. by destruct (fb_transactions b).
  - rw /block_at /body_at /decoded Eb /=. set_solver.
Qed.
Lemma whole_block m b : original b → whole m b → block_at m (block_hash b) = Ok (Some b).
Proof.
  intros Hb (H1 & H2 & H3). rw (block_at_parts m b); [apply Hb|done| |by rw (original_nf b Hb)].
  rw H3. by destruct (fb_transactions b).
Qed.

(** C20: Pruned blocks come back as they were.  Commit a block to any lawful
    store that holds nothing else under its hash; then prune or delete bodies and
    witnesses, commit other blocks, and backfill whatever well-formed blocks
    peers offer under any hash, in any order, each step failing or not.  As long
    as reads of the store work, the header is still the block's, and what the
    store gives for the hash is nothing, the block with its signatures replaced
    by stubs, or the block: never another one.  And a backfill with witnesses
    that is accepted for the hash, whatever was offered, leaves the block whole.
    The block is well formed and in the form that decoding gives, a witness root
    in its header is that of its witnesses, and there are no second preimages
    for its encoded parts and the strings hashed for its witness root.
    Validation of blocks without a witness root against historical state is not
    part of this: such witnesses are not restored. *)
Theorem pruned_block_authentic b rs s s' steps :
  original b → in_range_block b → kv_ok s → clean (kv_contents s) b →
  commit_canonical_block b rs s = (s', Ok tt) → Forall (step_ok b) steps →
  let f := chain_run steps s' in
  (readable f →
     get_header_by_hash (block_hash b) f = (f, Ok (Some (fb_header b))) ∧
     (get_block_by_hash (block_hash b) f).2 ∈ [Ok None; Ok (Some (into_block (split b).1 None)); Ok (Some b)]) ∧
  (∀ b' f', block_wf b' → block_hash b' = block_hash b → put_backfill_block b' true f = (f', Ok tt) → readable f' →
     get_block_by_hash (block_hash b) f' = (f', Ok (Some b))).
Proof.
  intros Hb Hr Ho Hc Hrun Hst f. pose proof (commit_cases s b rs Ho Hr) as Hk. rw Hrun in Hk.
  destruct Hk as (Ho' & data & Hk). apply commit_makes_kept in Hk; [|done].
  destruct (run_kept b steps s' Hb Hst Ho' Hk) as [Hof Hkf]. fold f in Hof, Hkf. split.
  - intros Hread. split.
    + by rw /get_header_by_hash kread_run // kept_header_read.
    + rw get_block_run //. by apply kept_block.
  - intros b' f' Hwf E Hfill Hread. pose proof (backfill_kept f b b' true Hb Hwf Hof Hkf) as K. rw Hfill in K.
    destruct K as (Hof' & _ & Hw). rw get_block_run //. by rw whole_block; [|apply Hw|].
Qed.
End history.

(** ** Witness *)

(** The demo block with a root of its own, and hashes that tell its parts from
    all other strings. *)
Definition pinned_header : BlockHeader :=
  Build_BlockHeader (b256_of_Z 99) (b256_of_Z 1) (b256_of_Z 2) (b256_of_Z 3) (replicate 256 0) 7 30000000
    21000 1700000000 [] (b256_of_Z 11) None 10 ZERO ZERO 0 0 (Some (b256_of_Z 1)).
Definition pinned_block : FullBlock :=
  MkFullBlock pinned_header [demo_tx] [demo_reward] (Some (MkPQSignature MlDsa65 [8; 8])).
Definition pinned_hashes : Hashes := {|
  keccak256 l := if decide (l = tx_witness_encode (witness_of demo_tx)) then b256_of_Z 1 else ZERO;
  blake3_hash l :=
    if decide (l = body_bytes pinned_block) then b256_of_Z 1
    else if decide (l = witness_bytes pinned_block) then b256_of_Z 2 else ZERO;
|}.
Lemma pinned_block_wf : block_wf pinned_block.
Proof.
  destruct demo_block_wf as [Hh Ht Hy Hl]. split; [|done..]. destruct Hh. by split.
Qed.
Lemma pinned_original : original (Hs := pinned_hashes) pinned_block.
Proof.
  assert (N1 : b256_of_Z 1 ≠ ZERO) by (by vm_compute). assert (N2 : b256_of_Z 2 ≠ ZERO) by (by vm_compute).
  assert (N3 : b256_of_Z 1 ≠ b256_of_Z 2) by (by vm_compute).
  split; [apply pinned_block_wf|by vm_compute|by vm_compute|..].
  - intros x y Hx. rw !elem_of_cons in Hx. cbn [blake3_hash pinned_hashes].
    destruct Hx as [-> | [-> | Hx]]; [| |by apply elem_of_nil in Hx]; repeat case_decide; congruence.
  - assert (E : @root_strings _ pinned_hashes (parts_of (split pinned_block).2) = [tx_witness_encode (witness_of demo_tx)])
      by (by vm_compute).
    rw E. intros x y ->%list_elem_of_singleton. cbn [keccak256 pinned_hashes]. repeat case_decide; congruence.
Qed.

Definition pinned_hash : ShellHash := block_hash (H := pinned_hashes) pinned_block.
Definition pinned_store : MemoryDb := (commit_canonical_block (Hs := pinned_hashes) pinned_block None memory_new).1.
Lemma pinned_committed :
  commit_canonical_block (Hs := pinned_hashes) pinned_block None memory_new = (pinned_store, Ok tt).
Proof. rw (surjective_pairing (commit_canonical_block _ _ _)) /pinned_store. f_equal. Qed.
(** Both parts are pruned, then the body is offered again. *)
Definition pinned_steps : list ChainStep :=
  [PruneWitnesses [pinned_hash] 8; PruneBodies [pinned_hash] 8; Backfill pinned_block false].
Definition pinned_run : MemoryDb := chain_run (Hs := pinned_hashes) pinned_steps pinned_store.
Definition pinned_whole : MemoryDb := (put_backfill_block (Hs := pinned_hashes) pinned_block true pinned_run).1.
Lemma pinned_filled : put_backfill_block (Hs := pinned_hashes) pinned_block true pinned_run = (pinned_whole, Ok tt).
Proof. rw (surjective_pairing (put_backfill_block _ _ _)) /pinned_whole. f_equal. Qed.

Lemma pruned_block_authentic_witness :
  (get_block_by_hash pinned_hash (chain_run (Hs := pinned_hashes) (take 2 pinned_steps) pinned_store)).2 = Ok None ∧
  (get_block_by_hash pinned_hash pinned_run).2 = Ok (Some (into_block (split pinned_block).1 None)) ∧
  get_block_by_hash pinned_hash pinned_whole = (pinned_whole, Ok (Some pinned_block)).
Proof.
  split; [by vm_compute|]. split; [by vm_compute|].
  destruct (pruned_block_authentic (KL := memory_laws) (Hs := pinned_hashes) pinned_block None memory_new pinned_store
    pinned_steps pinned_original demo_in_range I) as [_ H].
  - by split; [..|left|].
  - exact pinned_committed.
  - do 2 (apply Forall_cons_2; [exact I|]). apply Forall_cons_2; [exact pinned_block_wf|apply Forall_nil_2].
  - exact (H pinned_block pinned_whole pinned_block_wf eq_refl pinned_filled (memory_db_readable _)).
Defined.
