(* ===== verification/ChainIds.v ===== *)
(** * Transaction ids of pruned blocks

    A block whose witnesses were pruned is read with stub signatures, whose type
    is part of what a transaction id hashes. *)

From S2P Require Import Prelude Primitives Block Fee Rlp RlpImpl Transaction TxCodec TxHash TxValidation BTree KvStore Effects BlockCodec BlockRoundtrip WitnessRoot ChainStore ChainOps ChainDemo ChainProps ChainPrune.

#[local] Arguments be_bytes : simpl never.

Section ids.
Context {R : Rlp} {Hs : Hashes}.

(** The strings hashed for a transaction id. *)
Definition id_strings (t : SignedTransaction) : list bytes :=
  [id_preimage (st_from t) (sender_signing_hash t);
   signing_preimage (st_tx t) (sig_type_as_u8 (sig_type (st_signature t)))] ++
  match aa_bundle t with Some b => [batch_preimage t b] | None => [] end.
Abbreviation stub t := (stub_signed (strip t)).

Lemma signing_preimage_type tx s1 s2 : signing_preimage tx s1 = signing_preimage tx s2 → s1 = s2.
Proof.
  rw /signing_preimage. intros E. do 10 apply app_inv_head in E. by injection E.
Qed.
Lemma stub_id t :
  resists blake3_hash (id_strings t) →
  tx_hash (stub t) = tx_hash t ↔ sig_type (st_signature t) = Dilithium3.
Proof.
  intros Hr. split.
  - intros E. apply Hr in E; [|set_solver].
    apply (f_equal (drop 48)), as_bytes_inj in E.
    assert (Hsign : st_signing_hash (stub t) = st_signing_hash t).
    { revert E. rw /sender_signing_hash /batch_signing_hash /=. destruct (aa_bundle t) as [b|] eqn:Eb; [|done].
      case_match; simpl; [done|]. intros E. apply Hr in E; [|rw /id_strings Eb; set_solver].
      rw /batch_preimage in E. apply app_inv_head in E. apply app_inj_1 in E as [E _]; [|by rw !length_as_bytes].
      by apply as_bytes_inj. }
    apply Hr in Hsign; [|rw /id_strings; set_solver]. apply signing_preimage_type in Hsign.
    by destruct (sig_type (st_signature t)).
  - intros E. rw /tx_hash /sender_signing_hash /batch_signing_hash /batch_preimage /st_signing_hash /= E. done.
Qed.
End ids.

(** ** Deleting the index of a block *)

Section unindex.
Context {R : Rlp} {Hs : Hashes} {JS : Json SystemTransaction} {JSL : Json (list SystemTransaction)}.

Lemma unindex_touched b l x :
  KTx x ∈ touched (unindex_ops b l) → x ∈ tx_hash <$> fb_transactions b ∨ x ∈ system_tx_hash <$> l.
Proof.
  rw /unindex_ops /touched fmap_app elem_of_app !touched_bind.
  intros [([i t] & Hp & [[= ->]|(a & [|])]%tx_dels_touched)|(tx & Htx & [[= ->]|(a & [|])]%system_dels_touched)];
    try done; [left|right]; apply list_elem_of_fmap_2; [|done]. by apply elem_of_zip_r in Hp.
Qed.
Lemma unindex_final b l t : t ∈ fb_transactions b → final (unindex_ops b l) (KTx (tx_hash t)) = Some None.
Proof.
  intros Ht. rw /unindex_ops final_app.
  destruct (bind_const (system_dels (number (fb_header b))) l (KTx (tx_hash t)) None) as [[_ ->]| ->]; [| |done].
  { intros tx _. destruct (decide (KTx (tx_hash t) ∈ touched (system_dels (number (fb_header b)) tx))) as [K|K]; [|by left].
    right. apply system_dels_touched in K as [K|(a & [|])]; [|done..]. rw K /system_dels /addr_dels !final_cons final_nil /=.
    repeat case_decide; done || congruence. }
  destruct (bind_const (tx_dels (number (fb_header b))) (numbered (fb_transactions b)) (KTx (tx_hash t)) None)
    as [[Hn _]| ->]; [| |done].
  { intros p _. destruct (decide (KTx (tx_hash t) ∈ touched (tx_dels (number (fb_header b)) p))) as [K|K]; [|by left].
    right. apply tx_dels_touched in K as [K|(a & [|])]; [|done..].
    rw K /tx_dels final_cons final_untouched; [by intros (a & [|])%addr_dels_touched|]. by rw decide_True. }
  apply list_elem_of_lookup in Ht as [i Hi]. destruct (numbered_split _ _ _ Hi) as (l1 & l2 & E & _).
  exfalso. apply (Hn (i, t)); [rw E; set_solver|]. rw /tx_dels /touched /=. set_solver.
Qed.
Lemma unindex_ok b l : in_range_block (MkFullBlock (fb_header b) [] l None) → ops_ok (unindex_ops b l).
Proof.
  intros [Hn Hl]. rw Forall_forall in Hl. apply Forall_app. split; apply ops_ok_bind; intros x Hx.
  - by apply tx_dels_ok.
  - apply system_dels_ok; [done|by apply Hl].
Qed.
End unindex.

Section theorem.
Context {D : Type} {KS : KvStore D} {KL : KvLaws D} {R : Rlp} {RL : RlpLaws R} {RV : RlpVec}
  {RVL : RlpVecLaws R RV} {Hs : Hashes}.
Context {JS : Json SystemTransaction} {JSL : Json (list SystemTransaction)} {JH : Json BlockHeader}
  {JB : Json StrippedBlock} {JR : Json (list TransactionReceipt)}.
Context {JL : JsonLaws SystemTransaction} {JLL : JsonLaws (list SystemTransaction)}.

Lemma unindex_run s s' h b l :
  kv_ok s → readable s → block_at (kv_contents s) h = Ok (Some b) → get_system_transactions h s = (s, Ok l) →
  in_range_block (MkFullBlock (fb_header b) [] l None) →
  delete_block_transaction_indexes h s = (s', Ok tt) →
  kv_ok s' ∧ written (kv_contents s) (unindex_ops b l) (kv_contents s').
Proof.
  intros Ho Hr Hb Hl Hin. rw /delete_block_transaction_indexes /mbind_ get_block_run // Hb Hl.
  rw append_delete_ops app_nil_l. intros [Ho' Hc]%kwrite_run; [|done]. split; [done|].
  intros k Hk. rw Hc. apply batch_lookup; [by apply unindex_ok|done].
Qed.
Lemma location_at s x h i :
  kv_ok s → readable s → 0 <= i <= u32_max → kv_contents s !! tx_index_key x = Some (location h i) →
  get_tx_location x s = (s, Ok (Some (h, i))).
Proof.
  intros Ho Hr Hi E. destruct (location_decodes h i Hi) as (H1 & H2 & H3).
  by rw /get_tx_location kread_run // /decoded E H1 /= H2 H3.
Qed.
Lemma location_none s x :
  kv_ok s → readable s → kv_contents s !! tx_index_key x = None → get_tx_location x s = (s, Ok None).
Proof. intros Ho Hr E. by rw /get_tx_location kread_run // /decoded E. Qed.

(** What the deletion of its witnesses leaves of a committed block. *)
Lemma witness_deleted s s' b rs :
  kv_ok s → readable s → holds (kv_contents s) b rs → block_wf b →
  delete_witness_bundles [block_hash b] s = (s', Ok tt) →
  kv_ok s' ∧ kv_contents s' !! witness_key (block_hash b) = None ∧
  ∀ k, key_ok k → k ≠ KWitness (block_hash b) → k ≠ KWitnessDigest (block_hash b) →
    kv_contents s' !! key_bytes k = kv_contents s !! key_bytes k.
Proof.
  intros Ho Hr Hh Hwf E. set h := block_hash b in E *.
  pose proof (wp_stage_witnesses [h] batch_new
    (λ batch s1, s1 = s ∧ batch = op_bytes <$> ([h] ≫= witness_deletion (kv_contents s))) (λ _ s1, s1 = s) s Ho) as Hw.
  specialize (Hw ltac:(split; [done|by rw app_nil_l]) ltac:(done)). rw /wp in Hw.
  rw /delete_witness_bundles /is_empty /mbind_ in E.
  destruct (stage_witness_deletions batch_new [h] s) as [s1 [batch|e]]; [|done]. destruct Hw as [-> ->].
  apply kwrite_run in E as [Ho' Hc]; [|done]. split; [done|].
  assert (Hlook : written (kv_contents s) ([h] ≫= witness_deletion (kv_contents s)) (kv_contents s')).
  { intros k Hk. rw Hc. apply batch_lookup; [apply witness_deletions_ok|done]. }
  split.
  - pose proof (Hlook (KWitness h) I) as K. rw witness_gone in K; [set_solver|]. exact K.
  - intros k Hk N1 N2. rw Hlook // bind_untouched //. intros x ->%list_elem_of_singleton [|]%witness_deletion_touched; done.
Qed.

(** C40: Ids of pruned transactions.  The id of a transaction hashes the type of
    its signature, and a block read without its witnesses carries stub signatures
    of one fixed type: so such a block shows a transaction under its own id just
    when the transaction was signed with that type (absent a second preimage for
    the strings its id hashes).  In the store: deleting the transaction index of
    a committed block removes the entry of each of its transactions; but after
    the witnesses of the block were deleted, the same call leaves the entry of
    every transaction whose id is not among those the stubs have.  The block is
    well formed, in the form that decoding gives, with distinct ids, and reads
    of the store work. *)
Theorem pruned_ids_change s s1 b rs :
  (∀ s : D, readable s) → kv_ok s → block_wf b → block_nf b = b → in_range_block b →
  NoDup ((tx_hash <$> fb_transactions b) ++ (system_tx_hash <$> fb_system_transactions b)) →
  (fb_transactions b = [] → kv_contents s !! witness_key (block_hash b) = None) →
  commit_canonical_block b (Some rs) s = (s1, Ok tt) →
  (∀ t, resists blake3_hash (id_strings t) →
     tx_hash (stub_signed (strip t)) = tx_hash t ↔ sig_type (st_signature t) = Dilithium3) ∧
  (∀ t s2, t ∈ fb_transactions b → delete_block_transaction_indexes (block_hash b) s1 = (s2, Ok tt) →
     get_tx_location (tx_hash t) s2 = (s2, Ok None)) ∧
  (∀ i t s2 s3, fb_transactions b !! i = Some t →
     tx_hash t ∉ (λ u, tx_hash (stub_signed (strip u))) <$> fb_transactions b →
     delete_witness_bundles [block_hash b] s1 = (s2, Ok tt) →
     delete_block_transaction_indexes (block_hash b) s2 = (s3, Ok tt) →
     get_tx_location (tx_hash t) s3 = (s3, Ok (Some (block_hash b, Z.of_nat i)))).
Proof.
  intros Hread Ho Hwf Hnf Hr Hnd Hleft Hrun. pose proof (commit_holds s s1 b rs Ho Hr Hnd Hleft Hrun) as Hh.
  destruct (commit_run s s1 b (Some rs) Ho Hr Hrun) as (Ho1 & _).
  split; [intros t; apply stub_id|]. split.
  - intros t s2 Ht Hdel.
    destruct (unindex_run s1 s2 (block_hash b) b (fb_system_transactions b)) as [Ho2 Hw]; [done..| | |apply Hr|done|].
    + rw -{2}Hnf. apply block_at_parts; [done|apply Hh..].
    + by eapply held_system.
    + apply location_none; [done..|]. pose proof (Hw (KTx (tx_hash t)) I) as K. by rw unindex_final in K.
  - intros i t s2 s3 Hi Hne Hdel Hun.
    destruct (witness_deleted s1 s2 b rs Ho1 (Hread _) Hh Hwf Hdel) as (Ho2 & Ew & Hsame).
    destruct (unindex_run s2 s3 (block_hash b) (into_block (split b).1 None) (fb_system_transactions b))
      as [Ho3 Hw]; [done..| | |apply Hr|done|].
    + pose proof (Hsame (KBody (block_hash b)) I ltac:(done) ltac:(done)) as Eb. cbn [key_bytes] in Eb.
      rw (holds_body _ _ _ Hh) in Eb. rw /block_at body_at_kept //. by rw /= /decoded Ew.
    + destruct (holds_system _ _ _ Hh) as (data & E & Hd).
      pose proof (Hsame (KSystem (block_hash b)) I ltac:(done) ltac:(done)) as Es. cbn [key_bytes] in Es.
      by rw /get_system_transactions /mbind_ kread_run // /decoded Es Hd (from_to_vec _ _ E).
    + assert (Hle : Z.of_nat i <= u32_max).
      { destruct (bwf_txs b Hwf) as [Hl _]. apply lookup_lt_Some in Hi. unfold len, u32_max in *. lia. }
      apply location_at; [done..|lia|]. pose proof (Hw (KTx (tx_hash t)) I) as K.
      rw final_untouched in K.
      * intros [Hx|Hx]%unindex_touched.
        -- apply Hne. by rw into_block_pruned /= -list_fmap_compose in Hx.
        -- apply NoDup_app in Hnd as (_ & Hd & _). apply (Hd (tx_hash t)); [|done].
           by apply list_elem_of_fmap_2; eapply list_elem_of_lookup_2.
      * cbn [key_bytes] in K. rw K. pose proof (Hsame (KTx (tx_hash t)) I ltac:(done) ltac:(done)) as Et.
        cbn [key_bytes] in Et. rw Et -(as_u32_small i Hle). by apply (holds_tx _ _ _ Hh).
Qed.
End theorem.

(** ** Witness *)

Definition demo_pruned : MemoryDb := (delete_witness_bundles [block_hash demo_block] demo_store).1.
Definition demo_unindexed : MemoryDb := (delete_block_transaction_indexes (block_hash demo_block) demo_store).1.
Definition demo_leftover : MemoryDb := (delete_block_transaction_indexes (block_hash demo_block) demo_pruned).1.

(** A run whose result is known. *)
Lemma run_ok {W E} (p : W * result unit E) : p.2 = Ok tt → p = (p.1, Ok tt).
Proof. destruct p as [w r]. simpl. by intros ->. Qed.
Lemma demo_runs :
  (delete_witness_bundles [block_hash demo_block] demo_store).2 = Ok tt ∧
  (delete_block_transaction_indexes (block_hash demo_block) demo_store).2 = Ok tt ∧
  (delete_block_transaction_indexes (block_hash demo_block) demo_pruned).2 = Ok tt.
Proof. by vm_compute. Qed.
Lemma demo_stub_id : tx_hash demo_tx ∉ (λ u, tx_hash (stub_signed (strip u))) <$> fb_transactions demo_block.
Proof. apply (bool_decide_unpack _). vm_compute. exact I. Qed.
Lemma demo_block_nf : block_nf demo_block = demo_block.
Proof. by vm_compute. Qed.

Lemma pruned_ids_change_witness :
  get_tx_location (tx_hash demo_tx) demo_unindexed = (demo_unindexed, Ok None) ∧
  get_tx_location (tx_hash demo_tx) demo_leftover = (demo_leftover, Ok (Some (block_hash demo_block, 0))).
Proof.
  destruct demo_runs as (R1 & R2 & R3).
  destruct (pruned_ids_change (KL := memory_laws) memory_new demo_store demo_block [demo_receipt] memory_db_readable I
    demo_block_wf demo_block_nf demo_in_range demo_hashes_distinct ltac:(discriminate) demo_committed)
    as (_ & H1 & H2).
  exact (conj (H1 demo_tx demo_unindexed (list_elem_of_here _ _) (run_ok _ R2))
    (H2 0%nat demo_tx demo_pruned demo_leftover eq_refl demo_stub_id (run_ok _ R1) (run_ok _ R3))).
Defined.
